(* ===== verification/_CoqProject ===== *)
-Q . S2P
Prelude.v
Future.v
Channel.v
FutureWait.v
Mutex.v
MutexInv.v
MutexProgress.v
BufferedChannel.v
BufferedInv.v
BufferedStep.v
BufferedProps.v
BufferedFutures.v
BufferedRefine.v
Ports.v
BufferedPorts.v
UnbufferedChannel.v
Routine.v
RoutineInv.v
RoutineSteps.v
RoutineEnd.v
RoutineProps.v
CountedRunner.v
Detach.v
ForEach.v
ForEachInput.v
ForEachChannel.v
TimedMutex.v
TimedMutexProps.v
TimedWaiter.v
SpecificPtr.v
OneShot.v
YieldTo.v
Async.v
Await.v
Executor.v
Networking.v
Echo.v
EchoServer.v
EchoMain.v
Readme.v
Generate.v
GenerateChannel.v
GenerateUnbuffered.v
Storage.v
