(* ===== verification/Prelude.v ===== *)
(** * CoAwaitLib: a verification development

    CoAwaitLib is a header-only C++ library of stackful coroutines on top of
    boost.asio, under [src/include/co]. This development translates the library
    into executable definitions, and proves what makes it correct.

    ** How the program is modelled

    - Sequential code that can fail is a computation in the monad [M] of this file:
      it returns, throws an exception, or fails in a way that C++ has no way back
      from ([fault]: a failed [assert], undefined behaviour, a wait that nobody
      ends). The state survives an exception. Asserts are those of a build without
      NDEBUG.
    - Concurrent code is a labelled transition system: a [Record] of the shared
      state with a program counter per thread, and an executable function [next]
      from a label and a state to the state after one atomic access. [reachable]
      quantifies over all schedules. Atomic accesses interleave in one order; the
      weaker orders that the code asks for are not modelled. History fields
      record what has happened; no step looks at them.
    - A continuation word ([ContinuationTask*]) is a [handle]; integers have their
      width where overflow matters ([wrap32], [Await.int64]); objects on a stack are
      dropped when their function returns, and an access after that is
      [UseAfterFree].
    - What comes from boost or the operating system is a parameter: asio's
      operations and timers, [thread_specific_ptr], pplx tasks.

    ** The files

    - [Prelude]: outcomes, the monad, integers, runs and invariants of transition
      systems, bounded work, refinement by a function, sums and collections over
      threads, tactics.
    - [Future] ([future.hpp]): [ValueHandling] over the variant of a result;
      [LightFutureData], every operation on the continuation word; [Shared],
      [promise] and [future] as handles on a heap.
    - [FutureWait] ([future.hpp]): [set_value] against [is_ready], [wait],
      [wait_for] and [get_blocking] of another thread, with the
      [ConditionVariableTask] on its stack.
    - [Mutex], [MutexInv], [MutexProgress] ([mutex.hpp]): [BaseMutex] under an
      arbitrary [Policy], of which both policies of the code are instances.
    - [BufferedChannel], [BufferedInv], [BufferedStep], [BufferedProps]
      ([channel.hpp]): the critical sections of [BufferedChannel] and all
      interleavings of its users. [BufferedFutures]: the same with every access to a
      future, which refines it.
    - [Channel] ([channel.hpp]): [Fifo], what a channel promises, and the interface
      [FifoChannel]; [Handle], the objects [Sender] and [Receiver]; the loop over a
      [Receiver].
    - [BufferedRefine] and [UnbufferedChannel]: the two implementations of
      [FifoChannel]. [UnbufferedChannel] also has its own specification,
      [Rendezvous].
    - [Ports] ([channel.hpp]): [Port], a channel with calls, effects and returns; the
      interface [LinearChannel], whose laws make an implementation's histories
      histories of [Port]; [compose], a program that runs on any such channel.
      [BufferedPorts]: [BufferedChannel] is one.
    - [Routine], [RoutineInv], [RoutineSteps], [RoutineEnd], [RoutineProps]
      ([routine.hpp], [await.hpp]): coroutines, [Runner], [PostLeave], joining, and
      what threads do with them. [CountedRunner]: a [Runner] that several awaitables
      call. [Detach] ([routine.hpp]): who destroys a coroutine's [Data].
    - [ForEach], [ForEachInput] ([foreach.hpp]): [forEach] over random access and
      over input ranges; the latter over a [Fifo]. [ForEachChannel] makes it a
      program that calls the channel, proved against [LinearChannel] and run on
      [BufferedChannel].
    - [TimedMutex], [TimedMutexProps] ([timed_mutex.hpp]): [BaseTimedMutex] and its
      simulation by [Mutex]; [TimedWaiter]: a waiter with a timer.
    - [SpecificPtr] ([routine_specific_ptr.hpp], [routine.hpp]): storage per
      coroutine.
    - [OneShot]: a future on the stack of who awaits it; its users are [YieldTo]
      ([yieldto.hpp]) and [Async] ([async.hpp]).
    - [Await] ([await.hpp], [pplx_task_awaiter.hpp]): the awaiters, [co::await] in
      and outside of coroutines, [toBoostPosixTime].
    - [Networking] ([networking.hpp]): every overload of sockets, acceptors and
      resolvers. [Echo] ([asio_echo_server.cpp], [asio_echo_client.cpp]): a session of
      the echo server and the messages of the client, on such sockets. [EchoServer]: the
      accepting coroutine and the sessions that it starts. [EchoMain]: [main] of both
      programs. [Readme] ([readme_example.cpp]): polling, in a thread and in two
      coroutines.
    - [Generate] ([generate.hpp]): generators over a [Fifo]. [GenerateChannel]:
      [generateForMultiConsumer] and its consumers as a program that calls the
      channel, proved against [LinearChannel] and run on [BufferedChannel].
      [GenerateUnbuffered]: [generate] and the loop over its receiver, step by step
      on [UnbufferedChannel].
    - [Executor] ([executor.hpp]): the default io_context, and threads that run one.
    - [Storage] ([routine.hpp]): the memory of a coroutine, and the handle [Routine].

    Definitions have the names of the code. Where a function is split into atomic
    steps, the program counter's constructors say where in the function a thread
    is, and [thread_step] (or [main_step], [sender_step], ...) composes the pieces.

    ** What is proved

    - Futures: what is set is what every [get] returns or rethrows; blocking calls
      end; promise and future replay the outcome of a computation. [wait_for] may
      lose readiness, and the setter may notify a destroyed condition variable: two
      schedules show it.
    - Mutexes: mutual exclusion, no lost wake-up, no failing assertion, the counter's
      bounds, first in first out under the fair policy. The timed mutex is simulated
      by the plain one; its [unlock] may dereference null. A waiter with a timer
      is decided once.
    - Channels: each value is delivered once and in order, a [nullopt] means that
      all is drained, the queue is bounded, waiting ends; both channels refine the
      queue; a [BufferedChannel] is linearizable, also with its futures step by step;
      an end is closed exactly once
      however its handles move. A program proved with [Port] is right on any
      [LinearChannel], as [forEach] is.
    - Coroutines: no assertion fails, no coroutine runs twice at once or after its
      end, none is forgotten, joining gives its end, the yield loop of joining ends, a
      runner of several awaitables resumes its coroutine once, and [Data] is destroyed
      once when [detach] is not raced; its memory is given back as it was allocated,
      and stacks do not overlap.
    - Loops and generators: [forEach] calls its function once per element, rethrows
      one of its exceptions and ends; the cut of the range is even; a generator's
      consumer sees what it sends, several share it; both end.
    - The rest: a [SpecificPtr] reads what the coroutine wrote and cleans up once;
      [yieldTo] leaves the handler's arguments in the variables;
      [runOutsideOfCoroutine] equals the direct call; [async] replays; awaiting a
      timer; durations are truncated; overloads agree; joining threads; the echo
      server gives each connection its own session, which echoes, and the echo
      programs' [main] runs and ends as their options say.

    ** Bounds and assumptions

    - The numbers of threads, coroutines, values and elements are arbitrary; mutexes
      assume less than 2^31 threads, so that the counter fits an [int].
    - No step function needs fuel. [Channel.range_loop] has fuel for its iterations,
      and [range_for_is_for_each] shows that one per value is enough;
      [Echo.session_loop] has, and [session_echoes] shows that one per byte and one
      more is enough; [Readme.poll] has, and [poll_finds] shows that one per number
      drawn is enough.
    - In [BufferedChannel] the two futures of a call are set and awaited in one step
      each; [BufferedFutures] justifies it.
    - A [BufferedChannel] is used as its comment asks: closed once at each end, and
      not used at an end that is closed. An [UnbufferedChannel] has one sender, who
      does not push again after [false], and one receiver. In [Detach] a handle is
      detached before the coroutine's end begins or when it is known to be ready;
      [detach_race_use_after_free] shows why.
    - In [Routine] a future has one setter and one awaiter, and a routine one
      joiner; all coroutines share one io_context.
    - In [ForEachInput], [Generate], [GenerateChannel] and [GenerateUnbuffered] the
      callable of a coroutine, with what it captured, is destroyed when the coroutine
      ends.

    ** Not modelled

    - [try_lock_for], [SpecificPtr::release] and [async] of a [void] function: they do
      not compile when they are instantiated.
    - [future::then], which the preprocessor leaves out ([#if false]).
    - The context switch itself (boost.coroutine), memory resources, asio's
      scheduling beyond "a posted function is called once".
    - The move assignment of [IoContextThreads], which does not compile when it is
      used: the [work] objects of boost cannot be assigned.
    - The programs in [benchmark], and the clocks that the echo client reads.
    - Memory orders weaker than sequential consistency. *)

From stdpp Require Export base list numbers relations gmap.
From Stdlib Require Export ZArith Lia.

(** ** Outcomes of C++ code

    A call returns, throws, or does something the language gives no way
    back from: a failed [assert], undefined behaviour, or a wait that only
    another thread can end. *)

Inductive fault : Type :=
  | AssertFailed        (** a failed [assert] *)
  | NullDeref           (** a null pointer is dereferenced *)
  | UseAfterFree        (** an object is used after its destruction *)
  | OutOfBounds         (** memory outside of an allocated block is accessed *)
  | BadFree             (** memory is not given back as it was allocated *)
  | DivByZero           (** integer division by zero *)
  | MissingReturn       (** control flows off the end of a non-void function *)
  | Terminated          (** [std::terminate] *)
  | Blocks.             (** the caller waits and nobody is left to wake it *)

(** The exceptions the library throws, and those of its callers. *)
Inductive exn : Type :=
  | user_exn (n : Z)
  | bad_get
  | runtime_error
  | system_error (ec : Z).

Inductive outcome (A : Type) : Type :=
  | Ret (a : A)
  | Throw (e : exn)
  | Crash (f : fault).

Arguments Ret {A} _.
Arguments Throw {A} _.
Arguments Crash {A} _.

#[export] Instance fault_eq_dec : EqDecision fault.
Proof. solve_decision. Defined.
#[export] Instance exn_eq_dec : EqDecision exn.
Proof. solve_decision. Defined.
#[export] Instance outcome_eq_dec {A} `{EqDecision A} : EqDecision (outcome A).
Proof. solve_decision. Defined.

(** ** The effect monad

    Stateful code that can throw. The state survives an exception, as
    assignments made before a [throw] do. *)

Definition M (S A : Type) : Type := S -> outcome A * S.

Section monad.
Context {S : Type}.

Definition ret {A} (a : A) : M S A := fun s => (Ret a, s).
Definition throw {A} (e : exn) : M S A := fun s => (Throw e, s).
Definition crash {A} (f : fault) : M S A := fun s => (Crash f, s).

Definition bind {A B} (m : M S A) (k : A -> M S B) : M S B :=
  fun s => match m s with
           | (Ret a, s') => k a s'
           | (Throw e, s') => (Throw e, s')
           | (Crash f, s') => (Crash f, s')
           end.

(** [try { m } catch (...) { h(current_exception()) }] *)
Definition try_catch {A} (m : M S A) (h : exn -> M S A) : M S A :=
  fun s => match m s with
           | (Throw e, s') => h e s'
           | r => r
           end.

(** [assert(b)] of a build without NDEBUG. *)
Definition assert_ (b : bool) : M S unit :=
  if b then ret tt else crash AssertFailed.

Definition get_st : M S S := fun s => (Ret s, s).
Definition put_st (s : S) : M S unit := fun _ => (Ret tt, s).
Definition lift_outcome {A} (o : outcome A) : M S A := fun s => (o, s).
End monad.

Declare Scope co_scope.
Delimit Scope co_scope with co.
Notation "'let!' x ':=' c 'in' k" := (bind c (fun x => k))
  (at level 10, x name, c at level 100, k at level 200) : co_scope.
Notation "'let!' ' x ':=' c 'in' k" := (bind c (fun x => k))
  (at level 10, x strict pattern, c at level 100, k at level 200) : co_scope.
Notation "'do!' c 'in' k" := (bind c (fun _ => k))
  (at level 10, c at level 100, k at level 200) : co_scope.

(** ** Machine integers *)

(** A 32-bit [int] kept at its width: two's complement wrap-around. *)
Definition wrap32 (z : Z) : Z := (z + 2 ^ 31) `mod` (2 ^ 32) - 2 ^ 31.

(** A 64-bit [size_t]. *)
Definition wrap64u (z : Z) : Z := z `mod` (2 ^ 64).

Lemma wrap32_id z : (- 2 ^ 31 <= z < 2 ^ 31)%Z -> wrap32 z = z.
Proof. intros H. unfold wrap32. rewrite Z.mod_small; lia. Qed.

Lemma wrap64u_id z : (0 <= z < 2 ^ 64)%Z -> wrap64u z = z.
Proof. intros H. unfold wrap64u. by rewrite Z.mod_small. Qed.

(** ** Interleavings

    A concurrent component is a labelled transition system whose step
    function is executable: [next l s] is the state after the atomic step
    [l], or [None] when [l] is not enabled in [s]. *)

Section lts.
Context {S L : Type} (next : L -> S -> option S).

Fixpoint run (ls : list L) (s : S) : option S :=
  match ls with
  | [] => Some s
  | l :: ls => match next l s with
               | Some s' => run ls s'
               | None => None
               end
  end.

(** A schedule for examples: the first of [choices] that is enabled, again and again. *)
Fixpoint greedy (choices : list L) (fuel : nat) (s : S) : list L :=
  match fuel with
  | 0 => []
  | Datatypes.S fuel =>
      match list_find (fun l => is_Some (next l s)) choices with
      | Some (_, l) => l :: greedy choices fuel (default s (next l s))
      | None => []
      end
  end.

Definition step (s s' : S) : Prop := exists l, next l s = Some s'.

Definition reachable (s0 s : S) : Prop := exists ls, run ls s0 = Some s.

Lemma run_app ls1 ls2 s :
  run (ls1 ++ ls2) s = run ls1 s ≫= run ls2.
Proof.
  revert s. induction ls1 as [|l ls1 IH]; intros s; [done|].
  simpl. destruct (next l s); [apply IH|done].
Qed.

Lemma reachable_refl s : reachable s s.
Proof. by exists []. Qed.

Lemma reachable_step s0 s s' : reachable s0 s -> step s s' -> reachable s0 s'.
Proof.
  intros [ls Hls] [l Hl]. exists (ls ++ [l]).
  rewrite run_app, Hls. simpl. by rewrite Hl.
Qed.

Lemma reachable_trans s0 s1 s2 :
  reachable s0 s1 -> reachable s1 s2 -> reachable s0 s2.
Proof.
  intros [l1 H1] [l2 H2]. exists (l1 ++ l2). rewrite run_app, H1. done.
Qed.

(** Rule induction: what holds at the start and is kept by every step
    holds in every reachable state. *)
Lemma invariant_run (I : S -> Prop) ls s0 s :
  (forall l s s', I s -> next l s = Some s' -> I s') ->
  I s0 -> run ls s0 = Some s -> I s.
Proof.
  intros Hstep. revert s0. induction ls as [|l ls IH]; intros s0 H0 Hrun; simpl in Hrun.
  - congruence.
  - destruct (next l s0) as [s1|] eqn:E; [|done]. eauto.
Qed.

Lemma invariant_reachable (I : S -> Prop) s0 s :
  (forall l s s', I s -> next l s = Some s' -> I s') ->
  I s0 -> reachable s0 s -> I s.
Proof. intros Hstep H0 [ls Hls]. by apply (invariant_run I ls s0 s). Qed.
End lts.

(** ** Work that ends

    A measure that every internal step decreases bounds the number of internal
    steps, and leads to a state in which none is possible. *)

Section work.
Context {S L : Type} (next : L -> S -> option S) (internal : L -> Prop) (work : S -> nat) (I : S -> Prop).
Hypothesis decreases : forall l s s', I s -> internal l -> next l s = Some s' -> I s' /\ work s' < work s.

Lemma work_bounds ls s s' :
  I s -> Forall internal ls -> run next ls s = Some s' -> length ls + work s' <= work s.
Proof.
  intros Hi Hl. revert s Hi. induction Hl as [|l ls Hl _ IH]; intros s Hi Hr; simpl in *; [by simplify_eq|].
  destruct (next l s) as [s1|] eqn:E; [|done]. destruct (decreases _ _ _ Hi Hl E) as [Hi' Hw].
  specialize (IH _ Hi' Hr). lia.
Qed.
End work.

(** ** Refinement

    A forward simulation by a function: every step of the detailed system is a
    step of the abstract one, or changes nothing that the abstract one sees. *)

Section refinement.
Context {S L S' L' : Type} (next : L -> S -> option S) (next' : L' -> S' -> option S').
Context (abs : S -> S').

Definition simulates (s1 s2 : S) : Prop := abs s2 = abs s1 \/ step next' (abs s1) (abs s2).

Lemma refinement_reachable (I : S -> Prop) s0 s :
  (forall l s1 s2, I s1 -> next l s1 = Some s2 -> I s2 /\ simulates s1 s2) ->
  I s0 -> reachable next s0 s -> reachable next' (abs s0) (abs s).
Proof.
  intros Hsim H0 Hr.
  cut (I s /\ reachable next' (abs s0) (abs s)); [by intros [_ ?]|].
  revert Hr. apply (invariant_reachable next (fun s => I s /\ reachable next' (abs s0) (abs s))).
  - intros l s1 s2 [Hi Hr] Hn. destruct (Hsim _ _ _ Hi Hn) as [Hi' [E|Hs]]; split; try done.
    + by rewrite E. + by eapply reachable_step.
  - split; [done|apply reachable_refl].
Qed.
End refinement.

Create HintDb co discriminated.
#[export] Hint Resolve reachable_refl reachable_step : co.

(** ** Lists of thread states *)

Section sums.
Context {A : Type}.
Implicit Types (f g : A -> nat) (l : list A).

Lemma sum_insert f l i a b :
  l !! i = Some a ->
  sum_list_with f (<[i := b]> l) + f a = sum_list_with f l + f b.
Proof.
  revert i. induction l as [|x l IH]; intros [|i] H; simplify_eq/=; [lia|].
  specialize (IH _ H). lia.
Qed.

Lemma sum_lookup_le f l i a : l !! i = Some a -> f a <= sum_list_with f l.
Proof.
  revert i. induction l as [|x l IH]; intros [|i] H; simplify_eq/=; [lia|].
  specialize (IH _ H). lia.
Qed.

Lemma sum_lookup_le2 f l i j a b :
  i <> j -> l !! i = Some a -> l !! j = Some b ->
  f a + f b <= sum_list_with f l.
Proof.
  revert i j. induction l as [|x l IH]; intros [|i] [|j] Hij Hi Hj; simplify_eq/=.
  - pose proof (sum_lookup_le f l j b Hj). lia.
  - pose proof (sum_lookup_le f l i a Hi). lia.
  - pose proof (IH i j ltac:(lia) Hi Hj). lia.
Qed.

Lemma sum_pos_lookup f l :
  0 < sum_list_with f l -> exists i a, l !! i = Some a /\ 0 < f a.
Proof.
  induction l as [|x l IH]; simpl; [lia|]. intros H.
  destruct (decide (0 < f x)) as [Hx|Hx]; [by exists 0, x|].
  destruct IH as (i & a & Ha & Hf); [lia|]. by exists (S i), a.
Qed.

Lemma sum_le f g l :
  (forall a, f a <= g a) -> sum_list_with f l <= sum_list_with g l.
Proof. intros H. induction l as [|x l IH]; simpl; [lia|]. specialize (H x). lia. Qed.

Lemma sum_const_le f l : (forall a, f a <= 1) -> sum_list_with f l <= length l.
Proof. intros H. induction l as [|x l IH]; simpl; [lia|]. specialize (H x). lia. Qed.

Lemma sum_all_zero f l : (forall i a, l !! i = Some a -> f a = 0) -> sum_list_with f l = 0.
Proof.
  induction l as [|x l IH]; intros H; simpl; [done|].
  rewrite (H 0 x) by done. apply IH. intros i a Ha. by apply (H (S i)).
Qed.

Lemma sum_replicate f n a : sum_list_with f (replicate n a) = n * f a.
Proof. induction n as [|n IH]; simpl; [done|]. lia. Qed.
End sums.

(** A sum whose summand sees the thread's index too. *)
Section isums.
Context {A : Type}.
Implicit Types (f g : nat -> A -> nat) (l : list A).

Fixpoint isum f l : nat :=
  match l with
  | [] => 0
  | a :: l => f 0 a + isum (fun i => f (S i)) l
  end.

Lemma isum_ext f g l :
  (forall i a, l !! i = Some a -> f i a = g i a) -> isum f l = isum g l.
Proof.
  revert f g. induction l as [|a l IH]; intros f g H; simpl; [done|].
  rewrite (H 0 a) by done. f_equal. apply IH. intros i b Hb. by apply (H (S i)).
Qed.

(** Changing thread [i] and anything the other summands do not see. *)
Lemma isum_insert f g l i a b :
  l !! i = Some a ->
  (forall j c, j <> i -> l !! j = Some c -> g j c = f j c) ->
  isum g (<[i := b]> l) + f i a = isum f l + g i b.
Proof.
  revert f g i. induction l as [|x l IH]; intros f g [|i] H Hne; simplify_eq/=.
  - rewrite (isum_ext (fun i => g (S i)) (fun i => f (S i)) l); [lia|].
    intros j c Hc. by apply (Hne (S j)).
  - rewrite (Hne 0 x) by done.
    pose proof (IH (fun i => f (S i)) (fun i => g (S i)) i H
      (fun j c Hj Hc => Hne (S j) c ltac:(lia) Hc)) as IH'. simpl in IH'. lia.
Qed.

Lemma isum_lookup_le f l i a : l !! i = Some a -> f i a <= isum f l.
Proof.
  revert f i. induction l as [|x l IH]; intros f [|i] H; simplify_eq/=; [lia|].
  specialize (IH (fun i => f (S i)) i H). simpl in IH. lia.
Qed.

Lemma isum_lookup_le2 f l i j a b :
  i <> j -> l !! i = Some a -> l !! j = Some b -> f i a + f j b <= isum f l.
Proof.
  revert f i j. induction l as [|x l IH]; intros f [|i] [|j] Hij Hi Hj; simplify_eq/=.
  - pose proof (isum_lookup_le (fun i => f (S i)) l j b Hj). simpl in *. lia.
  - pose proof (isum_lookup_le (fun i => f (S i)) l i a Hi). simpl in *. lia.
  - pose proof (IH (fun i => f (S i)) i j ltac:(lia) Hi Hj). simpl in *. lia.
Qed.

Lemma isum_pos f l :
  0 < isum f l -> exists i a, l !! i = Some a /\ 0 < f i a.
Proof.
  revert f. induction l as [|x l IH]; intros f; simpl; [lia|]. intros H.
  destruct (decide (0 < f 0 x)) as [Hx|Hx]; [by exists 0, x|].
  destruct (IH (fun i => f (S i))) as (i & a & Ha & Hf); [lia|]. by exists (S i), a.
Qed.

Lemma isum_zero f l : (forall i a, l !! i = Some a -> f i a = 0) -> isum f l = 0.
Proof.
  revert f. induction l as [|x l IH]; intros f H; simpl; [done|].
  rewrite (H 0 x) by done. rewrite IH; [done|]. intros i a Ha. by apply (H (S i)).
Qed.

(** The same for collections that each thread contributes to. *)
Fixpoint ibag {B} (f : nat -> A -> list B) l : list B :=
  match l with
  | [] => []
  | a :: l => f 0 a ++ ibag (fun i => f (S i)) l
  end.

Lemma ibag_ext {B} (f g : nat -> A -> list B) l :
  (forall i a, l !! i = Some a -> f i a = g i a) -> ibag f l = ibag g l.
Proof.
  revert f g. induction l as [|a l IH]; intros f g H; simpl; [done|].
  rewrite (H 0 a) by done. f_equal. apply IH. intros i b Hb. by apply (H (S i)).
Qed.

Lemma ibag_insert {B} (f g : nat -> A -> list B) l i a b :
  l !! i = Some a ->
  (forall j c, j <> i -> l !! j = Some c -> g j c = f j c) ->
  ibag g (<[i := b]> l) ++ f i a ≡ₚ ibag f l ++ g i b.
Proof.
  revert f g i. induction l as [|x l IH]; intros f g [|i] H Hne; simplify_eq/=.
  - rewrite (ibag_ext (fun i => g (S i)) (fun i => f (S i)) l); [solve_Permutation|].
    intros j c Hc. by apply (Hne (S j)).
  - rewrite (Hne 0 x) by done.
    pose proof (IH (fun i => f (S i)) (fun i => g (S i)) i H
      (fun j c Hj Hc => Hne (S j) c ltac:(lia) Hc)) as IH'. simpl in IH'.
    by rewrite <- !app_assoc, IH'.
Qed.

Lemma ibag_nil {B} (f : nat -> A -> list B) l :
  (forall i a, l !! i = Some a -> f i a = []) -> ibag f l = [].
Proof.
  revert f. induction l as [|x l IH]; intros f H; simpl; [done|].
  rewrite (H 0 x) by done. rewrite IH; [done|]. intros i a Ha. by apply (H (S i)).
Qed.
End isums.

(** One element of a list changes. *)
Section change.
Context {A B : Type}.
Implicit Types (l : list A).

Lemma insert_elem l i a b x : l !! i = Some a -> x ∈ <[i := b]> l -> x = b \/ x ∈ l.
Proof.
  intros Ha [j Hj]%list_elem_of_lookup. apply list_lookup_insert_Some in Hj as [(_ & -> & _)|[_ Hj]]; [by left|].
  right. by eapply list_elem_of_lookup_2.
Qed.

Lemma concat_insert (f : A -> list B) l i a b :
  l !! i = Some a -> concat (map f (<[i := b]> l)) ++ f a ≡ₚ concat (map f l) ++ f b.
Proof.
  intros Ha. pose proof (ibag_insert (fun _ => f) (fun _ => f) l i a b Ha) as H.
  assert (E : forall l, ibag (fun _ => f) l = concat (map f l)) by (induction l0; simpl; congruence).
  rewrite !E in H. by apply H.
Qed.
End change.

(** What the values of a map contribute, in some order. *)
Section collect.
Context {A B : Type}.
Implicit Types (f : A -> list B) (m : gmap nat A).

Definition collect f m : list B := concat (map (fun x => f x.2) (map_to_list m)).

Lemma collect_empty f : collect f ∅ = [].
Proof. unfold collect. by rewrite map_to_list_empty. Qed.

Lemma concat_map_Permutation {C} (g : C -> list B) (l l' : list C) :
  l ≡ₚ l' -> concat (map g l) ≡ₚ concat (map g l').
Proof. intros H. rewrite <- !flat_map_concat_map. by apply Permutation_flat_map. Qed.

Lemma collect_new f m i a : m !! i = None -> collect f (<[i := a]> m) ≡ₚ f a ++ collect f m.
Proof.
  intros H. unfold collect.
  rewrite (concat_map_Permutation _ _ _ (map_to_list_insert m i a H)). done.
Qed.

Lemma collect_delete f m i a : m !! i = Some a -> collect f m ≡ₚ f a ++ collect f (delete i m).
Proof.
  intros H. rewrite <- (insert_delete_id m i a H) at 1. apply collect_new, lookup_delete_eq.
Qed.

Lemma collect_insert f m i a :
  collect f (<[i := a]> m) ++ match m !! i with Some b => f b | None => [] end ≡ₚ collect f m ++ f a.
Proof.
  destruct (m !! i) as [b|] eqn:E.
  - rewrite (collect_delete f m i b E), (collect_delete f (<[i := a]> m) i a) by apply lookup_insert_eq.
    rewrite delete_insert_eq. solve_Permutation.
  - rewrite collect_new by done. solve_Permutation.
Qed.
End collect.

(** ** Tactics *)

(** Run an operation of the effect monad. *)
Ltac co_unfold := unfold bind, ret, throw, crash, get_st, put_st, lift_outcome, assert_ in *.

(** Split every [match] of a hypothesis or of the goal, dropping the
    impossible branches. *)
Ltac split_matches :=
  repeat first [ progress simplify_eq/= | case_match; simplify_eq/= ].

(** Open the conjunctions, disjunctions and existentials among the hypotheses. *)
Ltac spread :=
  repeat match goal with
  | H : _ /\ _ |- _ => destruct H
  | H : _ \/ _ |- _ => destruct H
  | H : exists _, _ |- _ => destruct H
  end.

(** Close a goal made of connectives whose leaves are immediate. *)
Ltac close_goal :=
  lazymatch goal with
  | |- _ /\ _ => split; close_goal
  | |- _ \/ _ => first [solve [left; close_goal] | solve [right; close_goal]]
  | |- exists _, _ => eexists; close_goal
  | |- _ => first [reflexivity | assumption | done | congruence]
  end.
