(* ===== verification/Future.v ===== *)
(** * [future.hpp]: the value variant, [LightFutureData], [promise], [future]

    Sequential semantics: every function of the file as one thread runs it.
    The interleavings of a setter with a waiting thread are in
    [FutureWait.v], those with a suspended coroutine in [Routine.v]. *)

From S2P Require Import Prelude.

Local Open Scope co_scope.

(** ** The value: [boost::variant<Unset, T, std::exception_ptr>] *)

Inductive StatelessT : Type := stateless.

Inductive Value (T : Type) : Type :=
  | Unset
  | Val (v : T)
  | Exc (e : exn).

Arguments Unset {T}.
Arguments Val {T} _.
Arguments Exc {T} _.

#[export] Instance StatelessT_eq_dec : EqDecision StatelessT.
Proof. solve_decision. Defined.
#[export] Instance Value_eq_dec {T} `{EqDecision T} : EqDecision (Value T).
Proof. solve_decision. Defined.

Module ValueHandling.
Section value.
Context {T W : Type}.
Implicit Types (value : Value T) (f : M W T).

(** [boost::variant::which()] *)
Definition which value : nat :=
  match value with Unset => 0 | Val _ => 1 | Exc _ => 2 end.

Definition isSet value : bool := negb (bool_decide (which value = 0)).
Definition isException value : bool := bool_decide (which value = 2).

(** [try { value = f(); } catch(...) { value = std::current_exception(); }]
    where the callable [f] runs in a world [W]. *)
Definition setByResult f : M (Value T * W) unit :=
  fun '(value, w) =>
    match f w with
    | (Ret v, w') => (Ret tt, (Val v, w'))
    | (Throw e, w') => (Ret tt, (Exc e, w'))
    | (Crash c, w') => (Crash c, (value, w'))
    end.

(** [boost::get<T>] throws [bad_get] on any other alternative. *)
Definition boost_get value : outcome T :=
  match value with
  | Val v => Ret v
  | _ => Throw bad_get
  end.

Definition get value : outcome T :=
  match value with
  | Exc e => Throw e
  | _ => boost_get value
  end.
End value.

Section void.
Context {W : Type}.

(** The [void] specialisation: [f(); value = StatelessT{};] *)
Definition setByResult_void (f : M W unit) : M (Value StatelessT * W) unit :=
  setByResult (bind f (fun _ => ret stateless)).

(** ... whose [get] only looks for an exception. *)
Definition get_void (value : Value StatelessT) : outcome unit :=
  match value with
  | Exc e => Throw e
  | _ => Ret tt
  end.
End void.
End ValueHandling.

(** ** The continuation word

    A [ContinuationTask*]: null, the tag [0x1], or a task's address. *)

Inductive handle (Task : Type) : Type :=
  | EmptyHandle
  | InvalidHandle
  | TaskPtr (t : Task).

Arguments EmptyHandle {Task}.
Arguments InvalidHandle {Task}.
Arguments TaskPtr {Task} _.

#[export] Instance handle_eq_dec {Task} `{EqDecision Task} : EqDecision (handle Task).
Proof. solve_decision. Defined.

Record LightFutureData (Task T : Type) : Type := LFD {
  continuationPtr : handle Task;
  value : Value T;
}.

Arguments LFD {Task T} _ _.
Arguments continuationPtr {Task T} _.
Arguments value {Task T} _.

#[export] Instance LightFutureData_eq_dec {Task T} `{EqDecision Task, EqDecision T} :
  EqDecision (LightFutureData Task T).
Proof. solve_decision. Defined.

Inductive future_status : Type := status_ready | status_timeout.

(** The task a blocked thread leaves behind: a flag under a mutex, and a
    condition variable. *)
Record ConditionVariableTask : Type := CVTask { mDataReady : bool }.

Module CV.
Definition fresh : ConditionVariableTask := CVTask false.

(** [operator()()]: the part under the lock. *)
Definition call (_ : ConditionVariableTask) : ConditionVariableTask := CVTask true.

(** [wait()] of a thread that is alone. *)
Definition wait (c : ConditionVariableTask) : outcome unit :=
  if mDataReady c then Ret tt else Crash Blocks.

(** [wait_for()] of a thread that is alone: the predicate's value. *)
Definition wait_for (c : ConditionVariableTask) : bool := mDataReady c.
End CV.

Module LightFuture.
Section ops.
Context {Task T : Type} `{EqDecision Task}.
Implicit Types (d : LightFutureData Task T) (func task : Task).

(** [LightFutureData()] and [LightFutureData(T1&&)] *)
Definition make : LightFutureData Task T := LFD EmptyHandle Unset.
Definition make_value (v : T) : LightFutureData Task T := LFD InvalidHandle (Val v).

Definition is_ready d : bool := bool_decide (continuationPtr d = InvalidHandle).
(** The same comparison by [memcmp], without the atomic load. *)
Definition is_ready_weak d : bool := bool_decide (continuationPtr d = InvalidHandle).
Definition await_ready d : bool := is_ready_weak d.

(** [std::atomic<ContinuationTask*>] *)
Definition exchange (h : handle Task) : M (LightFutureData Task T) (handle Task) :=
  fun d => (Ret (continuationPtr d), LFD h (value d)).

Definition compare_exchange_strong (expected desired : handle Task) :
    M (LightFutureData Task T) (bool * handle Task) :=
  fun d => if decide (continuationPtr d = expected)
           then (Ret (true, expected), LFD desired (value d))
           else (Ret (false, continuationPtr d), d).

Definition assign_value (v : Value T) : M (LightFutureData Task T) unit :=
  fun d => (Ret tt, LFD (continuationPtr d) v).

Definition suspend func : M (LightFutureData Task T) bool :=
  let! '(res, expected) := compare_exchange_strong EmptyHandle (TaskPtr func) in
  do! assert_ (res || bool_decide (expected = InvalidHandle)) in
  ret res.

Definition await_suspend func := suspend func.

(** [on_ready]: the task returned is the one that is called next. *)
Definition on_ready : M (LightFutureData Task T) (option Task) :=
  let! continuation := exchange InvalidHandle in
  match continuation with
  | EmptyHandle => ret None
  | InvalidHandle => crash AssertFailed
  | TaskPtr t => ret (Some t)
  end.

Definition set_value (val : T) : M (LightFutureData Task T) (option Task) :=
  do! assign_value (Val val) in on_ready.

Definition set_exception (except : exn) : M (LightFutureData Task T) (option Task) :=
  do! assign_value (Exc except) in on_ready.

Definition get_unchecked : M (LightFutureData Task T) T :=
  let! d := get_st in
  do! assert_ (is_ready_weak d) in
  lift_outcome (ValueHandling.get (value d)).

Definition await_resume := get_unchecked.

(** [get_unchecked] of a [LightFutureData<StatelessT>]. *)
Definition get_unchecked_void (d : LightFutureData Task StatelessT) :
    outcome unit * LightFutureData Task StatelessT :=
  if bool_decide (continuationPtr d = InvalidHandle) then (ValueHandling.get_void (value d), d)
  else (Crash AssertFailed, d).

(** [do { if (is_ready()) return; yield(); } while (cnt++ < 4);] *)
Fixpoint wait_spin (n : nat) : M (LightFutureData Task T) bool :=
  match n with
  | 0 => ret false
  | S n => let! d := get_st in
           if is_ready d then ret true else wait_spin n
  end.

Definition wait task : M (LightFutureData Task T) unit :=
  let! ready := wait_spin 5 in
  if ready then ret tt else
  let! suspended := suspend task in
  if suspended then lift_outcome (CV.wait CV.fresh) else ret tt.

Definition wait_for task : M (LightFutureData Task T) future_status :=
  let! d := get_st in
  if is_ready d then ret status_ready else
  let! suspended := suspend task in
  if suspended then
    if CV.wait_for CV.fresh then ret status_ready else
    let! state := exchange EmptyHandle in
    if decide (state = TaskPtr task) then ret status_timeout
    else do! assert_ (bool_decide (state = InvalidHandle)) in ret status_ready
  else ret status_ready.

Definition get_blocking task : M (LightFutureData Task T) T :=
  let! d := get_st in
  if is_ready_weak d then get_unchecked
  else do! wait task in get_unchecked.

Definition await_synchron task := get_blocking task.

(** What a caller of [co::await(f)] relies on: it returns once the future is
    ready, with what [await_resume] gives. [FutureWait.v] shows it for threads
    and [Routine.v] for coroutines. *)
Definition await_contract (d : LightFutureData Task T) : option (outcome T) :=
  if is_ready d then Some (fst (await_resume d)) else None.
End ops.

(** [get_blocking] of a [LightFutureData<StatelessT>] *)
Definition get_blocking_void {Task} `{EqDecision Task} (task : Task) : M (LightFutureData Task StatelessT) unit :=
  let! d := get_st in
  if is_ready_weak d then get_unchecked_void else do! wait task in get_unchecked_void.
End LightFuture.

(** ** [promise] and [future]: two handles to one shared [LightFutureData] *)

Module Shared.
Section ops.
Context {Task T : Type} `{EqDecision Task}.

(** [std::make_shared] puts the object at a new address. *)
Abbreviation heap := (gmap nat (LightFutureData Task T)).

Record future : Type := Future { fData : option nat }.
Record promise : Type := Promise { pData : nat }.

Definition make_shared (d : LightFutureData Task T) : M heap nat :=
  fun h => let l := fresh (dom h) in (Ret l, <[l := d]> h).

(** [mData->m()] *)
Definition arrow {A} (l : option nat) (m : M (LightFutureData Task T) A) : M heap A :=
  fun h => match l with
           | None => (Crash NullDeref, h)
           | Some l => match h !! l with
                       | None => (Crash UseAfterFree, h)
                       | Some d => let '(o, d') := m d in (o, <[l := d']> h)
                       end
           end.

(** [future() = default;], [fromData_] *)
Definition future_default : future := Future None.
Definition fromData_ (data : nat) : future := Future (Some data).

Definition valid (f : future) : bool := bool_decide (fData f <> None).
Definition future_is_ready (f : future) : M heap bool :=
  arrow (fData f) (fun d => (Ret (LightFuture.is_ready d), d)).
Definition future_get_unchecked (f : future) : M heap T :=
  arrow (fData f) LightFuture.get_unchecked.
Definition future_get (task : Task) (f : future) : M heap T :=
  arrow (fData f) (LightFuture.get_blocking task).
Definition future_wait (task : Task) (f : future) : M heap unit :=
  arrow (fData f) (LightFuture.wait task).
Definition future_wait_for (task : Task) (f : future) : M heap future_status :=
  arrow (fData f) (LightFuture.wait_for task).
Definition future_await_ready (_ : future) : bool := false.
Definition future_await_resume (f : future) : M heap T := future_get_unchecked f.
Definition future_await_synchron (task : Task) (f : future) : M heap T := future_get task f.
Definition future_await_suspend (func : Task) (f : future) : M heap bool :=
  arrow (fData f) (LightFuture.suspend func).

Definition promise_new : M heap promise :=
  let! l := make_shared LightFuture.make in ret (Promise l).
Definition get_future (p : promise) : future := fromData_ (pData p).
Definition promise_set_value (p : promise) (v : T) : M heap (option Task) :=
  arrow (Some (pData p)) (LightFuture.set_value v).
Definition promise_set_exception (p : promise) (e : exn) : M heap (option Task) :=
  arrow (Some (pData p)) (LightFuture.set_exception e).

Definition make_ready_future (v : T) : M heap future :=
  let! l := make_shared (LightFuture.make_value v) in ret (fromData_ l).
Definition make_exceptional_future (e : exn) : M heap future :=
  let! l := make_shared LightFuture.make in
  do! arrow (Some l) (LightFuture.set_exception e) in
  ret (fromData_ l).
End ops.

(** *** [promise<void>] and [future<void>] *)

Section void.
Context {Task : Type} `{EqDecision Task}.
Abbreviation heap := (gmap nat (LightFutureData Task StatelessT)).

Definition promise_void_new : M heap promise := promise_new.
Definition promise_void_get_future (p : promise) : future := fromData_ (pData p).
Definition promise_void_set_value (p : promise) : M heap (option Task) :=
  arrow (Some (pData p)) (LightFuture.set_value stateless).
Definition promise_void_set_exception (p : promise) (e : exn) : M heap (option Task) :=
  arrow (Some (pData p)) (LightFuture.set_exception e).

Definition future_void_get (task : Task) (f : future) : M heap unit :=
  arrow (fData f) (LightFuture.get_blocking_void task).

Definition make_ready_future_void : M heap future :=
  let! l := make_shared (LightFuture.make_value stateless) in ret (fromData_ l).
End void.

(** [make_exceptional_future<T>(E ex)], over [std::make_exception_ptr] *)
Definition make_exceptional_future_of {Task T E : Type} (make_exception_ptr : E -> exn) (ex : E) :
    M (gmap nat (LightFutureData Task T)) future :=
  make_exceptional_future (make_exception_ptr ex).

Arguments future : clear implicits.
Arguments promise : clear implicits.
End Shared.

(** ** Properties *)

Section properties.
Context {Task T : Type} `{EqDecision Task}.

(** [ValueHandling::setByResult] followed by [get] replays what the
    callable did: its result, or its exception; the world it leaves behind
    is kept and the previous contents of the variant are irrelevant. *)
Lemma setByResult_get {W} (f : M W T) (v0 : Value T) (w : W) :
  match f w, ValueHandling.setByResult f (v0, w) with
  | (Crash c, w'), (o, (v, w'')) => o = Crash c /\ v = v0 /\ w'' = w'
  | (r, w'), (o, (v, w'')) =>
      o = Ret tt /\ ValueHandling.get v = r /\ w'' = w' /\
      ValueHandling.isSet v = true /\
      ValueHandling.isException v = (match r with Throw _ => true | _ => false end)
  end.
Proof. unfold ValueHandling.setByResult. by destruct (f w) as [[] ?]. Qed.

(** [suspend] on each state of the continuation word: it registers
    the task when nothing is registered, it reports readiness without a
    change, and suspending a second time fails the assertion. *)
Lemma suspend_branches (func : Task) (d : LightFutureData Task T) :
  LightFuture.suspend func d =
  match continuationPtr d with
  | EmptyHandle => (Ret true, LFD (TaskPtr func) (value d))
  | InvalidHandle => (Ret false, d)
  | TaskPtr _ => (Crash AssertFailed, d)
  end.
Proof.
  unfold LightFuture.suspend, LightFuture.compare_exchange_strong, bind.
  destruct d as [[| |t] v]; reflexivity.
Qed.

(** Publishing a result: the waiting task, if any, is handed out to
    be called exactly once, the future is ready with that value, and a second
    publication fails the assertion. *)
Lemma set_value_branches (v : T) (d : LightFutureData Task T) :
  LightFuture.set_value v d =
  (match continuationPtr d with
   | EmptyHandle => Ret None
   | TaskPtr t => Ret (Some t)
   | InvalidHandle => Crash AssertFailed
   end, LFD InvalidHandle (Val v)).
Proof. by destruct d as [[| |t] ?]. Qed.

Lemma set_exception_branches (e : exn) (d : LightFutureData Task T) :
  LightFuture.set_exception e d =
  (match continuationPtr d with
   | EmptyHandle => Ret None
   | TaskPtr t => Ret (Some t)
   | InvalidHandle => Crash AssertFailed
   end, LFD InvalidHandle (Exc e)).
Proof. by destruct d as [[| |t] ?]. Qed.

Lemma get_unchecked_state (d : LightFutureData Task T) :
  snd (LightFuture.get_unchecked d) = d.
Proof.
  unfold LightFuture.get_unchecked, bind, get_st, assert_, lift_outcome.
  by destruct (LightFuture.is_ready_weak d).
Qed.

Lemma wait_spin_spec n (d : LightFutureData Task T) :
  LightFuture.wait_spin n d = (Ret (bool_decide (n <> 0) && LightFuture.is_ready d), d).
Proof.
  induction n as [|n IH]; [done|]. simpl. unfold bind, get_st.
  destruct (LightFuture.is_ready d); [done|]. by rewrite IH, andb_false_r.
Qed.

(** a thread that is alone with a future: [get] returns the stored
    result iff one is there, and otherwise waits with its task registered;
    [wait_for] withdraws the task again. *)
Lemma blocking_alone (task : Task) (d : LightFutureData Task T) :
  LightFuture.get_blocking task d =
    match continuationPtr d with
    | InvalidHandle => (ValueHandling.get (value d), d)
    | EmptyHandle => (Crash Blocks, LFD (TaskPtr task) (value d))
    | TaskPtr _ => (Crash AssertFailed, d)
    end /\
  LightFuture.wait_for task d =
    match continuationPtr d with
    | InvalidHandle => (Ret status_ready, d)
    | EmptyHandle => (Ret status_timeout, d)
    | TaskPtr _ => (Crash AssertFailed, d)
    end.
Proof.
  unfold LightFuture.get_blocking, LightFuture.wait_for, LightFuture.wait, bind, get_st.
  destruct d as [[| |t] v]; split; try done.
  simpl. by destruct (decide (TaskPtr task = TaskPtr task)).
Qed.

Lemma arrow_insert {A} l d (m : M (LightFutureData Task T) A) (h : gmap nat _) :
  Shared.arrow (Some l) m (<[l := d]> h) = ((m d).1, <[l := (m d).2]> h).
Proof.
  simpl. rewrite lookup_insert_eq. destruct (m d) as [o d']; simpl.
  by rewrite insert_insert_eq.
Qed.

(** C7: a promise and the future taken from it share one state: not
    ready before, ready with exactly the value (or the exception) after
    [set_value] ([set_exception]), for every other shared state untouched. *)
Lemma promise_future_roundtrip (h : gmap nat (LightFutureData Task T)) (r : Value T) (task : Task) :
  ValueHandling.isSet r = true ->
  exists p h1 h2,
    Shared.promise_new h = (Ret p, h1) /\
    Shared.future_is_ready (Shared.get_future p) h1 = (Ret false, h1) /\
    Shared.valid (Shared.get_future p) = true /\
    match r with
    | Exc e => Shared.promise_set_exception p e h1
    | Val v => Shared.promise_set_value p v h1
    | Unset => (Ret None, h1)
    end = (Ret None, h2) /\
    Shared.future_is_ready (Shared.get_future p) h2 = (Ret true, h2) /\
    Shared.future_get task (Shared.get_future p) h2 = (ValueHandling.get r, h2) /\
    forall l, is_Some (h !! l) -> h2 !! l = h !! l.
Proof.
  intros Hr.
  set (l := fresh (dom h)).
  assert (Hl : h !! l = None).
  { apply not_elem_of_dom. apply is_fresh. }
  exists (Shared.Promise l), (<[l := LightFuture.make]> h),
    (<[l := LFD InvalidHandle r]> h).
  split; [done|].
  unfold Shared.future_is_ready, Shared.promise_set_exception,
    Shared.promise_set_value, Shared.future_get.
  cbn [Shared.fData Shared.pData Shared.get_future Shared.fromData_].
  rewrite !arrow_insert.
  destruct r as [|v|e]; [done|..]; rewrite ?arrow_insert; repeat split;
    intros k [? Hk]; rewrite lookup_insert_ne; congruence.
Qed.
End properties.

(** A future that is made ready, or exceptional, is ready and gives the value, or
    throws. *)
Lemma factories_ready {Task T E : Type} `{EqDecision Task} (make_exception_ptr : E -> exn)
    (h : gmap nat (LightFutureData Task T)) (task : Task) v ex :
  (exists f h', Shared.make_ready_future v h = (Ret f, h') /\
     Shared.future_is_ready f h' = (Ret true, h') /\ Shared.future_get task f h' = (Ret v, h')) /\
  (exists f h', Shared.make_exceptional_future_of make_exception_ptr ex h = (Ret f, h') /\
     Shared.future_is_ready f h' = (Ret true, h') /\
     Shared.future_get task f h' = (Throw (make_exception_ptr ex), h')).
Proof.
  assert (Hget : forall l (d : LightFutureData Task T) (m : gmap nat _), continuationPtr d = InvalidHandle ->
    Shared.future_is_ready (Shared.Future (Some l)) (<[l := d]> m) = (Ret true, <[l := d]> m) /\
    Shared.future_get task (Shared.Future (Some l)) (<[l := d]> m) = (ValueHandling.get (value d), <[l := d]> m)).
  { intros l [c x] m Hc. simpl in Hc. subst c. unfold Shared.future_is_ready, Shared.future_get. cbn [Shared.fData]. by rewrite !arrow_insert. }
  set (l := fresh (dom h)).
  split; exists (Shared.Future (Some l));
    [exists (<[l := LFD InvalidHandle (Val v)]> h)|exists (<[l := LFD InvalidHandle (Exc (make_exception_ptr ex))]> h)];
    (split; [|exact (Hget l (LFD InvalidHandle (Val v)) h eq_refl) ||
               exact (Hget l (LFD InvalidHandle (Exc _)) h eq_refl)]); [reflexivity|].
  unfold Shared.make_exceptional_future_of, Shared.make_exceptional_future, bind. simpl.
  rewrite lookup_insert_eq. simpl. by rewrite insert_insert_eq.
Qed.

(** The same for [promise<void>], [future<void>] and [make_ready_future()]: nothing
    is stored but that the future is ready, or the exception. *)
Lemma void_roundtrip {Task : Type} `{EqDecision Task} (h : gmap nat (LightFutureData Task StatelessT))
    (r : option exn) (task : Task) :
  (exists p h1 h2,
    Shared.promise_void_new h = (Ret p, h1) /\
    Shared.future_is_ready (Shared.promise_void_get_future p) h1 = (Ret false, h1) /\
    match r with
    | Some e => Shared.promise_void_set_exception p e h1
    | None => Shared.promise_void_set_value p h1
    end = (Ret None, h2) /\
    Shared.future_void_get task (Shared.promise_void_get_future p) h2 =
      (match r with Some e => Throw e | None => Ret tt end, h2)) /\
  exists f h', Shared.make_ready_future_void h = (Ret f, h') /\ Shared.future_void_get task f h' = (Ret tt, h').
Proof.
  assert (Hget : forall l d (m : gmap nat _), continuationPtr d = InvalidHandle ->
    Shared.future_void_get task (Shared.Future (Some l)) (<[l := d]> m) = (ValueHandling.get_void (value d), <[l := d]> m)).
  { intros l [c x] m Hc. simpl in Hc. subst c. unfold Shared.future_void_get. cbn [Shared.fData]. by rewrite arrow_insert. }
  split.
  - exists (Shared.Promise (fresh (dom h))). eexists. exists (<[fresh (dom h) := LFD InvalidHandle
      (match r with Some e => Exc e | None => Val stateless end)]> h). split; [reflexivity|].
    unfold Shared.future_is_ready, Shared.promise_void_set_exception, Shared.promise_void_set_value.
    cbn [Shared.fData Shared.pData Shared.promise_void_get_future Shared.fromData_].
    destruct r as [e|]; rewrite !arrow_insert; (split_and!; [done|done|]);
      [exact (Hget _ (LFD _ (Exc e)) h eq_refl)|exact (Hget _ (LFD _ (Val stateless)) h eq_refl)].
  - exists (Shared.Future (Some (fresh (dom h)))), (<[fresh (dom h) := LFD InvalidHandle (Val stateless)]> h).
    split; [reflexivity|]. by apply (Hget _ (LFD InvalidHandle (Val stateless))).
Qed.

Lemma promise_future_roundtrip_witness :
  ValueHandling.isSet (Val 23%Z) = true /\
  exists p h1 h2,
    Shared.promise_new (Task := nat) (T := Z) ∅ = (Ret p, h1) /\
    Shared.promise_set_value p 23%Z h1 = (Ret None, h2) /\
    Shared.future_get 0 (Shared.get_future p) h2 = (Ret 23%Z, h2).
Proof.
  split; [reflexivity|].
  destruct (promise_future_roundtrip (Task := nat) ∅ (Val 23%Z) 0 eq_refl)
    as (p & h1 & h2 & Hn & _ & _ & Hs & _ & Hg & _).
  exists p, h1, h2. auto.
Defined.
