(* ===== verification/Channel.v ===== *)
(** * [channel.hpp]: what a channel promises, and the handles on its ends

    [Fifo] is the queue that senders and receivers of a channel see: values go
    in at one end, are handed out at the other one in the same order, each at
    most once, and each end is closed for good. [FifoChannel] is the interface:
    an implementation gives the [Fifo] that its state stands for, and shows that
    its steps are those of a [Fifo]; clients rely on the class only.

    [Handle] models [Sender] and [Receiver], which close their end when the last
    handle goes, and [range_for] the loop over a [Receiver]. *)

From S2P Require Import Prelude.

Local Open Scope co_scope.

(** ** The queue *)

Module Fifo.
Section fifo.
Context {T : Type}.

Record fifo : Type := MkFifo {
  put : list T;           (** everything that was taken in *)
  given : list T;         (** ... and what was handed to a receiver *)
  sender_closed : bool;
  receiver_closed : bool;
}.

Definition start : fifo := MkFifo [] [] false false.

Inductive action : Type :=
  | Put (v : T)        (** a sender leaves [v] *)
  | Give               (** a receiver takes the oldest value *)
  | Hand (v : T)       (** a sender gives [v] to a receiver that waits *)
  | CloseSender
  | CloseReceiver.

(** What was taken in and not handed out. *)
Definition waiting (q : fifo) : list T := drop (length (given q)) (put q).

Definition act (a : action) (q : fifo) : option fifo :=
  match a with
  | Put v =>
      if sender_closed q || receiver_closed q then None
      else Some (MkFifo (put q ++ [v]) (given q) (sender_closed q) (receiver_closed q))
  | Give =>
      match receiver_closed q, waiting q with
      | false, x :: _ => Some (MkFifo (put q) (given q ++ [x]) (sender_closed q) (receiver_closed q))
      | _, _ => None
      end
  | Hand v =>
      if sender_closed q || receiver_closed q then None
      else match waiting q with
           | [] => Some (MkFifo (put q ++ [v]) (given q ++ [v]) (sender_closed q) (receiver_closed q))
           | _ => None
           end
  | CloseSender =>
      if sender_closed q then None else Some (MkFifo (put q) (given q) true (receiver_closed q))
  | CloseReceiver =>
      if receiver_closed q then None else Some (MkFifo (put q) (given q) (sender_closed q) true)
  end.

Definition in_order (q : fifo) : Prop := put q = given q ++ waiting q.

Lemma start_in_order : in_order start.
Proof. done. Qed.

Lemma waiting_spec q : in_order q <-> exists w, put q = given q ++ w.
Proof.
  unfold in_order, waiting. split; [eauto|]. intros [w ->]. by rewrite drop_app_length.
Qed.

Lemma waiting_put q v b b' : in_order q -> waiting (MkFifo (put q ++ [v]) (given q) b b') = waiting q ++ [v].
Proof. intros Ho. unfold waiting at 1. simpl. rewrite Ho, <- app_assoc. by rewrite drop_app_length. Qed.

Lemma waiting_give q v w b b' : waiting q = v :: w -> waiting (MkFifo (put q) (given q ++ [v]) b b') = w.
Proof.
  unfold waiting. intros E. simpl. by rewrite length_app, <- drop_drop, E.
Qed.

Lemma act_give g x w b :
  act Give (MkFifo (g ++ x :: w) g b false) = Some (MkFifo (g ++ x :: w) (g ++ [x]) b false).
Proof. unfold act, waiting. simpl. by rewrite drop_app_length. Qed.

Lemma act_hand g v :
  act (Hand v) (MkFifo g g false false) = Some (MkFifo (g ++ [v]) (g ++ [v]) false false).
Proof. unfold act, waiting. simpl. by rewrite drop_all. Qed.

Lemma act_in_order a q q' : in_order q -> act a q = Some q' -> in_order q'.
Proof.
  intros Ho%waiting_spec Ha. apply waiting_spec. destruct Ho as [w Hw].
  assert (Hwt : waiting q = w) by (unfold waiting; by rewrite Hw, drop_app_length).
  destruct a as [v| |v| |]; unfold act in Ha; rewrite ?Hwt in Ha;
    repeat case_match; simplify_eq; simpl; rewrite Hw.
  - eexists. by rewrite <- app_assoc.
  - eexists. by rewrite <- app_assoc.
  - exists []. by rewrite !app_nil_r.
  - by eexists.
  - by eexists.
Qed.

Lemma reachable_in_order q : reachable act start q -> in_order q.
Proof. apply invariant_reachable; [intros a q1 q2; apply act_in_order|apply start_in_order]. Qed.
End fifo.
Arguments fifo : clear implicits.
Arguments action : clear implicits.
End Fifo.

(** ** The interface *)

Class FifoChannel (T : Type) {S L : Type} (next : L -> S -> option S) (s0 : S) := {
  as_fifo : S -> Fifo.fifo T;
  refines_fifo s : reachable next s0 s -> reachable Fifo.act Fifo.start (as_fifo s);
}.

(** What every implementation of the interface guarantees. *)
Lemma given_in_order {T S L} (next : L -> S -> option S) (s0 s : S) `{FifoChannel T S L next s0} :
  reachable next s0 s -> Fifo.put (as_fifo s) = Fifo.given (as_fifo s) ++ Fifo.waiting (as_fifo s).
Proof. intros Hr. by apply Fifo.reachable_in_order, refines_fifo. Qed.

(** ** [Sender] and [Receiver]

    Both classes hold a pointer to the channel in [mChannel], null in a handle
    that was moved from or closed. The handles of one end are an array of which
    every object is some handle, alive or not; [closes] counts the calls of
    [closeSender] ([closeReceiver]). *)

Module Handle.
Record ends : Type := Ends {
  mChannel : list (option bool);   (** [None]: the object is destroyed; else: does it point to the channel? *)
  closes : nat;
}.

Inductive op : Type :=
  | MoveConstruct (from : nat)      (** [Sender h{std::move(from)}] *)
  | MoveAssign (to from : nat)      (** [to = std::move(from)] *)
  | Destroy (h : nat)
  | Close (h : nat)
  | Use (h : nat).                  (** [operator()], or [begin()] *)

(** An access to the [mChannel] of a live handle. *)
Definition load (h : nat) : M ends bool := fun s =>
  match mChannel s !! h with
  | Some (Some b) => (Ret b, s)
  | _ => (Crash UseAfterFree, s)
  end.

Definition store (h : nat) (b : option bool) : M ends unit := fun s =>
  (Ret tt, Ends (<[h := b]> (mChannel s)) (closes s)).

(** [close()] *)
Definition close (h : nat) : M ends unit :=
  let! c := load h in
  if negb c then ret tt
  else
    do! (fun s => (Ret tt, Ends (mChannel s) (S (closes s)))) in
    store h (Some false).

(** [Sender(Sender&& other)]: a new object. *)
Definition move_construct (from : nat) : M ends unit :=
  let! c := load from in
  do! store from (Some false) in
  fun s => (Ret tt, Ends (mChannel s ++ [Some c]) (closes s)).

(** [operator=(Sender&& other)]: [close(); std::swap(mChannel, other.mChannel);]
    and no [return] of the object it is declared to return. *)
Definition move_assign (to from : nat) : M ends unit :=
  do! close to in
  let! a := load to in
  let! b := load from in
  do! store to (Some b) in
  do! store from (Some a) in
  crash MissingReturn.

(** [~Sender()] *)
Definition destroy (h : nat) : M ends unit :=
  do! close h in store h None.

(** [mChannel->...] *)
Definition use (h : nat) : M ends unit :=
  let! c := load h in if c then ret tt else crash NullDeref.

Definition exec (o : op) : M ends unit :=
  match o with
  | MoveConstruct from => move_construct from
  | MoveAssign to from => move_assign to from
  | Destroy h => destroy h
  | Close h => close h
  | Use h => use h
  end.

(** A call that returns. *)
Definition next (o : op) (s : ends) : option ends :=
  match exec o s with (Ret _, s') => Some s' | _ => None end.

(** [Sender{c}] of [makeUnbufferedChannel] or [makeBufferedChannel]. *)
Definition init : ends := Ends [Some true] 0.

(** How many handles point to the channel. *)
Definition owns (b : option bool) : nat := match b with Some true => 1 | _ => 0 end.
Definition owners (s : ends) : nat := sum_list_with owns (mChannel s).

Lemma load_spec h s o s1 : load h s = (o, s1) ->
  s1 = s /\ ((exists b, o = Ret b /\ mChannel s !! h = Some (Some b)) \/ o = Crash UseAfterFree).
Proof. unfold load. intros H. repeat case_match; simplify_eq; eauto. Qed.

Lemma close_spec h s s1 : close h s = (Ret tt, s1) ->
  exists b, mChannel s !! h = Some (Some b) /\
    s1 = Ends (<[h := Some false]> (mChannel s)) (closes s + owns (Some b)).
Proof.
  unfold close. co_unfold. destruct (load h s) as [[b|e|e] s2] eqn:E; [|done..].
  apply load_spec in E as [-> [(b' & [= <-] & Hb)|?]]; [|done]. exists b. split; [done|].
  destruct b; simpl in *; injection H as <-; simpl.
  - by rewrite Nat.add_1_r.
  - rewrite list_insert_id by done. destruct s; simpl. by rewrite Nat.add_0_r.
Qed.

Lemma owners_store s h a b n :
  mChannel s !! h = Some a -> owners (Ends (<[h := b]> (mChannel s)) n) + owns a = owners s + owns b.
Proof. intros Ha. unfold owners. simpl. pose proof (sum_insert owns _ _ _ b Ha). simpl in *. lia. Qed.

Definition once (s : ends) : Prop := closes s + owners s = 1.

Lemma once_next o s s' : once s -> next o s = Some s' -> once s'.
Proof.
  unfold next, once. intros H Hn. destruct (exec o s) as [[[]|e|e] s1] eqn:E; simplify_eq.
  destruct o as [from|to from|h|h|h]; simpl in E.
  - unfold move_construct in E. co_unfold. destruct (load from s) as [[b|e|e] s2] eqn:El; [|done..].
    apply load_spec in El as [-> [(b' & [= <-] & Hb)|?]]; [|done]. unfold store in E. simplify_eq. simpl.
    pose proof (owners_store s from _ (Some false) (closes s) Hb) as Ho. unfold owners in *. simpl in *.
    rewrite sum_list_with_app. simpl. lia.
  - unfold move_assign in E. co_unfold. by repeat case_match.
  - unfold destroy in E. co_unfold. destruct (close h s) as [[[]|e|e] s2] eqn:Ec; [|done..].
    apply close_spec in Ec as (b & Hb & ->). unfold store in E. simplify_eq. simpl.
    rewrite list_insert_insert_eq. pose proof (owners_store s h _ None (closes s + owns (Some b)) Hb) as Ho.
    simpl in *. lia.
  - apply close_spec in E as (b & Hb & ->). simpl.
    pose proof (owners_store s h _ (Some false) (closes s + owns (Some b)) Hb) as Ho. simpl in *. lia.
  - unfold use in E. co_unfold. destruct (load h s) as [[[]|e|e] s2] eqn:El; [|done..].
    apply load_spec in El as [-> _]. by simplify_eq.
Qed.
End Handle.

(** C23: an end of a channel is closed at most once, whatever is done with the
    handles on it - moved, closed by hand any number of times, destroyed: the
    number of calls of [closeSender] ([closeReceiver]) and of handles that
    still point to the channel is one. So the end is closed exactly when no
    handle points to it any more. *)
Theorem end_closed_once s :
  reachable Handle.next Handle.init s -> Handle.closes s + Handle.owners s = 1.
Proof. by apply (invariant_reachable Handle.next Handle.once); [intros o; apply Handle.once_next|]. Qed.

Lemma end_closed_once_witness :
  exists s, run Handle.next [Handle.MoveConstruct 0; Handle.Use 1; Handle.Destroy 0; Handle.Close 1; Handle.Destroy 1]
    Handle.init = Some s /\ Handle.owners s = 0 /\ Handle.closes s + Handle.owners s = 1.
Proof.
  eexists. split; [vm_compute; reflexivity|]. split; [vm_compute; reflexivity|].
  apply end_closed_once.
  exists [Handle.MoveConstruct 0; Handle.Use 1; Handle.Destroy 0; Handle.Close 1; Handle.Destroy 1].
  vm_compute. reflexivity.
Defined.

(** The move assignment of [Sender] and [Receiver] never returns: it flows
    off its end, whatever handles it is given. *)
Theorem move_assign_never_returns to from s a :
  fst (Handle.exec (Handle.MoveAssign to from) s) <> Ret a.
Proof.
  simpl. unfold Handle.move_assign. co_unfold. repeat case_match; simplify_eq; done.
Qed.

(** ** The loop over a [Receiver]

    [for (auto&& itm : receiver) body(itm)]: [begin()] pops, the comparison
    with the sentinel looks for a value, [operator++] pops again. [pop] and
    [body] are calls on a state; [fuel] bounds the iterations. *)

Section range_for.
Context {St V : Type} (pop : M St (option V)) (body : V -> M St unit).

Fixpoint range_loop (fuel : nat) (mCurrent : option V) : M St unit :=
  match mCurrent with
  | None => ret tt
  | Some itm =>
      match fuel with
      | 0 => crash Blocks
      | S fuel =>
          do! body itm in
          let! mCurrent := pop in
          range_loop fuel mCurrent
      end
  end.

Definition range_for (fuel : nat) : M St unit :=
  let! mCurrent := pop in range_loop fuel mCurrent.
End range_for.

(** A receiver that will pop the values of a list, and a loop over that list. *)
Section drain.
Context {W V : Type}.

Definition pop_list : M (list V * W) (option V) := fun '(l, w) =>
  match l with
  | [] => (Ret None, ([], w))
  | x :: l => (Ret (Some x), (l, w))
  end.

Definition lift (body : V -> M W unit) (v : V) : M (list V * W) unit := fun '(l, w) =>
  let '(o, w) := body v w in (o, (l, w)).

Fixpoint for_each (body : V -> M W unit) (l : list V) : M W unit :=
  match l with
  | [] => ret tt
  | x :: l => do! body x in for_each body l
  end.

(** the loop over a [Receiver] is the loop over the values that it pops:
    the body runs on each of them, in order, until [pop] returns [nullopt] or
    the body throws, and what it throws leaves the loop. *)
Theorem range_for_is_for_each (body : V -> M W unit) l w :
  fst (range_for pop_list (lift body) (length l) (l, w)) = fst (for_each body l w) /\
  snd (snd (range_for pop_list (lift body) (length l) (l, w))) = snd (for_each body l w).
Proof.
  unfold range_for. revert w. induction l as [|x l IH]; intros w; [done|].
  specialize (IH). co_unfold. simpl. unfold lift. simpl. co_unfold.
  destruct (body x w) as [[[]|e|e] w1] eqn:E; [|done..].
  specialize (IH w1). destruct l as [|y l]; [done|]. simpl in *. exact IH.
Qed.
End drain.
