(* ===== verification/FutureWait.v ===== *)
(** * A thread blocking on a future while another thread sets it

    [LightFutureData] of [future.hpp] under interleaving: one thread runs
    [set_value] / [set_exception], another one calls [is_ready], [wait],
    [wait_for] and [get_blocking] in any order. Every atomic access, every
    critical section of the [ConditionVariableTask] and every plain access
    to the value is one step; the task lives on the stack of the waiting
    call, so it disappears when that call returns. *)

From S2P Require Import Prelude Future.

Local Open Scope co_scope.

(** The calls of the consumer, and what they return. *)
Inductive op : Type := OpIsReady | OpWait | OpWaitFor | OpGet.

Inductive res (T : Type) : Type :=
  | RBool (b : bool)
  | RUnit
  | RStatus (st : future_status)
  | RGot (o : outcome T).
Arguments RBool {T} _.
Arguments RUnit {T}.
Arguments RStatus {T} _.
Arguments RGot {T} _.

(** [wait()] is called by the user or by [get_blocking]. *)
Inductive kont : Type := KWait | KGet.

(** Where the consumer is. *)
Inductive cpc : Type :=
  | CIdle
  | CSpin (n : nat) (k : kont)     (** in [wait]: [n] checks left *)
  | CSuspend (k : kont)            (** before [suspend(task)] *)
  | CCv (t : nat) (k : kont)       (** in [task.wait()] *)
  | CGet                           (** before [get_unchecked] *)
  | CWfSuspend                     (** in [wait_for], before [suspend(task)] *)
  | CWfCv (t : nat)                (** in [task.wait_for()] *)
  | CWfExchange (t : nat)          (** timed out, before the [exchange] *)
  | CFault (f : fault).

(** Where the setter is. *)
Inductive ppc : Type :=
  | PWrite                         (** before [value = ...] *)
  | PExchange                      (** in [on_ready], before the [exchange] *)
  | PSignal (t : nat)              (** before the locked part of the task's [operator()] *)
  | PNotify (t : nat)              (** before [mCond.notify_one()] *)
  | PDone
  | PFault (f : fault).

Inductive label : Type :=
  | LSetter                        (** the setter's next step *)
  | LStart (o : op)                (** the consumer calls [o] *)
  | LConsumer                      (** the consumer's next step *)
  | LTimeout.                      (** [wait_for]'s duration is over *)

Record state (T : Type) : Type := State {
  fut : LightFutureData nat T;
  task : option (nat * ConditionVariableTask);   (** the task alive on the consumer's stack *)
  next_task : nat;                               (** its successor's identity *)
  setter : ppc;
  consumer : cpc;
  log : list (res T);                            (** results returned so far *)
}.
Arguments State {T} _ _ _ _ _ _.
Arguments fut {T} _.
Arguments task {T} _.
Arguments next_task {T} _.
Arguments setter {T} _.
Arguments consumer {T} _.
Arguments log {T} _.

Section system.
Context {T : Type}.
Implicit Types (s : state T).

Definition init : state T := State LightFuture.make None 0 PWrite CIdle [].

Definition with_setter s d p := State d (task s) (next_task s) p (consumer s) (log s).
Definition with_consumer s d tk c := State d tk (next_task s) (setter s) c (log s).
Definition returns s r := State (fut s) None (next_task s) (setter s) CIdle (log s ++ [r]).

(** The task object [t], if it is still alive. *)
Definition alive s (t : nat) : option ConditionVariableTask :=
  match task s with
  | Some (t', c) => if decide (t' = t) then Some c else None
  | None => None
  end.

(** [set_value(val)] or [set_exception(except)]: [v] is the variant they
    store. *)
Definition setter_step (v : Value T) s : option (state T) :=
  match setter s with
  | PWrite => Some (with_setter s (snd (LightFuture.assign_value v (fut s))) PExchange)
  | PExchange =>
      match LightFuture.on_ready (fut s) with
      | (Ret None, d) => Some (with_setter s d PDone)
      | (Ret (Some t), d) => Some (with_setter s d (PSignal t))
      | (Throw _, d) => Some (with_setter s d PDone)
      | (Crash c, d) => Some (with_setter s d (PFault c))
      end
  | PSignal t =>
      match alive s t with
      | Some c => Some (State (fut s) (Some (t, CV.call c)) (next_task s) (PNotify t)
                              (consumer s) (log s))
      | None => Some (with_setter s (fut s) (PFault UseAfterFree))
      end
  | PNotify t =>
      match alive s t with
      | Some _ => Some (with_setter s (fut s) PDone)
      | None => Some (with_setter s (fut s) (PFault UseAfterFree))
      end
  | PDone | PFault _ => None
  end.

(** The consumer calls one of the four operations. *)
Definition start_step (o : op) s : option (state T) :=
  match consumer s with
  | CIdle =>
      Some (match o with
            | OpIsReady => returns s (RBool (LightFuture.is_ready (fut s)))
            | OpWait => with_consumer s (fut s) None (CSpin 5 KWait)
            | OpGet => if LightFuture.is_ready_weak (fut s)
                       then with_consumer s (fut s) None CGet
                       else with_consumer s (fut s) None (CSpin 5 KGet)
            | OpWaitFor => if LightFuture.is_ready (fut s)
                           then returns s (RStatus status_ready)
                           else with_consumer s (fut s) None CWfSuspend
            end)
  | _ => None
  end.

(** [wait()] returns to its caller; its task is destroyed. *)
Definition wait_returns s (k : kont) : state T :=
  match k with
  | KWait => returns s RUnit
  | KGet => with_consumer s (fut s) None CGet
  end.

(** Construct a task, then [suspend(task)]. *)
Definition suspend_new s (ok : nat -> cpc) (no : state T -> state T) : state T :=
  let t := next_task s in
  match LightFuture.suspend t (fut s) with
  | (Ret true, d) => State d (Some (t, CV.fresh)) (S t) (setter s) (ok t) (log s)
  | (Ret false, d) => no (State d None (S t) (setter s) (consumer s) (log s))
  | (Throw _, d) => no (State d None (S t) (setter s) (consumer s) (log s))
  | (Crash c, d) => State d None (S t) (setter s) (CFault c) (log s)
  end.

Definition consumer_step s : option (state T) :=
  match consumer s with
  | CIdle | CFault _ => None
  | CSpin (S n) k =>
      Some (if LightFuture.is_ready (fut s) then wait_returns s k
            else with_consumer s (fut s) None (CSpin n k))
  | CSpin 0 k => Some (with_consumer s (fut s) None (CSuspend k))
  | CSuspend k => Some (suspend_new s (fun t => CCv t k) (fun s => wait_returns s k))
  | CCv t k =>
      match alive s t with
      | Some (CVTask true) => Some (wait_returns s k)
      | _ => None
      end
  | CGet =>
      match LightFuture.get_unchecked (fut s) with
      | (Crash c, d) => Some (with_consumer s d None (CFault c))
      | (o, d) => Some (returns s (RGot o))
      end
  | CWfSuspend => Some (suspend_new s CWfCv (fun s => returns s (RStatus status_ready)))
  | CWfCv t =>
      match alive s t with
      | Some (CVTask true) => Some (returns s (RStatus status_ready))
      | _ => None
      end
  | CWfExchange t =>
      match LightFuture.exchange EmptyHandle (fut s) with
      | (Ret st, d) =>
          let s' := with_consumer s d (task s) (consumer s) in
          Some (if decide (st = TaskPtr t) then returns s' (RStatus status_timeout)
                else if decide (st = InvalidHandle) then returns s' (RStatus status_ready)
                else with_consumer s d None (CFault AssertFailed))
      | _ => None
      end
  end.

(** [mCond.wait_for] gives up; it returns the predicate's value. *)
Definition timeout_step s : option (state T) :=
  match consumer s with
  | CWfCv t =>
      match alive s t with
      | Some (CVTask false) => Some (with_consumer s (fut s) (task s) (CWfExchange t))
      | _ => None
      end
  | _ => None
  end.

Definition next (v : Value T) (l : label) s : option (state T) :=
  match l with
  | LSetter => setter_step v s
  | LStart o => start_step o s
  | LConsumer => consumer_step s
  | LTimeout => timeout_step s
  end.

(** The same system when no [wait_for] runs into its timeout. *)
Definition next_no_timeout (v : Value T) (l : label) s : option (state T) :=
  match l with
  | LTimeout => None
  | _ => next v l s
  end.
End system.

(** ** The invariant *)

(** The setter has made the word [InvalidHandle]. *)
Definition published (p : ppc) : Prop :=
  match p with PWrite | PExchange => False | _ => True end.

(** The setter no longer owes the consumer a signal. *)
Definition signalled (p : ppc) : Prop :=
  match p with PWrite | PExchange | PSignal _ => False | _ => True end.

Section invariant.
Context {T : Type} (v : Value T).
Implicit Types (s : state T).

(** What is known of a task [t] the consumer waits on. *)
Definition waiting_on s (t : nat) : Prop :=
  exists b, task s = Some (t, CVTask b) /\ t < next_task s /\
    if b then signalled (setter s) /\ continuationPtr (fut s) = InvalidHandle
    else continuationPtr (fut s) = TaskPtr t \/
         (continuationPtr (fut s) = InvalidHandle /\ setter s = PSignal t).

Definition not_waiting s : Prop :=
  task s = None /\
  (continuationPtr (fut s) = EmptyHandle \/
   (continuationPtr (fut s) = InvalidHandle /\ signalled (setter s))).

Definition consumer_ok s : Prop :=
  match consumer s with
  | CIdle | CSpin _ _ | CSuspend _ | CWfSuspend => not_waiting s
  | CGet => not_waiting s /\ continuationPtr (fut s) = InvalidHandle
  | CCv t _ | CWfCv t | CWfExchange t => waiting_on s t
  | CFault _ => False
  end.

Definition setter_ok s : Prop :=
  match setter s with
  | PWrite => value (fut s) = Unset /\ continuationPtr (fut s) <> InvalidHandle
  | PExchange => value (fut s) = v /\ continuationPtr (fut s) <> InvalidHandle
  | PSignal t =>
      value (fut s) = v /\ t < next_task s /\
      ((continuationPtr (fut s) = InvalidHandle /\ task s = Some (t, CV.fresh)) \/
       (continuationPtr (fut s) <> InvalidHandle /\ alive s t = None))
  | PNotify _ | PDone => value (fut s) = v
  | PFault f => value (fut s) = v /\ f = UseAfterFree
  end.

Definition log_ok s : Prop :=
  forall o, RGot o ∈ log s -> o = ValueHandling.get v.

Record Inv s : Prop := {
  inv_consumer : consumer_ok s;
  inv_setter : setter_ok s;
  inv_log : log_ok s;
}.

Lemma wait_inv_init : Inv init.
Proof.
  split; [by split; [|left]|done|]. intros o Ho. by apply not_elem_of_nil in Ho.
Qed.

Lemma alive_self s t c : task s = Some (t, c) -> alive s t = Some c.
Proof. unfold alive. intros ->. by rewrite decide_True. Qed.

Lemma log_ok_snoc l r :
  (forall o, RGot o ∈ l -> o = ValueHandling.get v) ->
  (forall o, r = RGot o -> o = ValueHandling.get v) ->
  forall o, RGot o ∈ l ++ [r] -> o = ValueHandling.get v.
Proof. 
  intros Hl Hr o Ho. apply elem_of_app in Ho as [Ho|Ho]; [eauto|].
  apply list_elem_of_singleton in Ho. eauto.
Qed.
End invariant.

(** Open a state and its invariant. *)
Ltac open_inv s H :=
  let Hc := fresh "Hc" in let Hs := fresh "Hs" in let Hl := fresh "Hl" in
  destruct s as [[ptr va] tk nx p c lg], H as [Hc Hs Hl];
  unfold consumer_ok, setter_ok, log_ok, not_waiting, waiting_on, alive in *; simpl in *.

Ltac split_hyps :=
  repeat match goal with
    | H : _ /\ _ |- _ => destruct H
    | H : _ \/ _ |- _ => destruct H
    | H : exists _, _ |- _ => destruct H
    | b : bool |- _ => destruct b
    | H : context [decide _] |- _ => case_decide
    | |- context [decide _] => case_decide
    | _ => progress simplify_eq/=
    end.

Ltac solve_branch :=
  split_hyps; try done;
  repeat match goal with
    | |- _ /\ _ => split
    | |- exists _, Some _ = Some _ /\ _ => eexists; split; [reflexivity|]; simpl
    end;
  try done; try lia; intuition (congruence || lia).

Section preservation.
Context {T : Type} (v : Value T).
Implicit Types (s : state T).

Ltac unfold_inv :=
  unfold consumer_ok, setter_ok, log_ok, not_waiting, waiting_on, alive in *; simpl in *.
Ltac solve_log := try (intros ?o; apply log_ok_snoc; [done|congruence]).
Ltac close_inv := split; unfold_inv; [..|try assumption].

Lemma inv_setter_step s s' : Inv v s -> setter_step v s = Some s' -> Inv v s'.
Proof.
  intros H Hstep. unfold setter_step in Hstep. open_inv s H.
  destruct p; simplify_eq/=.
  - close_inv; [destruct c; solve_branch|solve_branch].
  - destruct Hs as [-> Hp]. destruct ptr as [| |t]; simplify_eq/=; close_inv;
      destruct c; solve_branch.
  - destruct tk as [[t' cv]|]; repeat case_decide; simplify_eq/=; close_inv;
      destruct c; solve_branch.
  - destruct tk as [[t' cv]|]; repeat case_decide; simplify_eq/=; close_inv;
      destruct c; solve_branch.
Qed.

Lemma inv_start_step o s s' : Inv v s -> start_step o s = Some s' -> Inv v s'.
Proof.
  intros H Hstep. unfold start_step in Hstep. open_inv s H.
  destruct c; simplify_eq/=.
  destruct o; unfold LightFuture.is_ready, LightFuture.is_ready_weak; simpl;
    try case_bool_decide; close_inv; try (destruct p; solve_branch);
    solve_log.
Qed.

Lemma inv_timeout_step s s' : Inv v s -> timeout_step s = Some s' -> Inv v s'.
Proof.
  intros H Hstep. unfold timeout_step, alive in Hstep. open_inv s H.
  destruct c; simplify_eq/=. destruct tk as [[t' [[]]]|]; repeat case_decide; simplify_eq/=.
  close_inv; destruct p; solve_branch.
Qed.

Lemma inv_consumer_step s s' : Inv v s -> consumer_step s = Some s' -> Inv v s'.
Proof.
  intros H Hstep. unfold consumer_step, suspend_new, wait_returns, alive in Hstep. open_inv s H.
  destruct c as [|[|n] k|k|t k| | |t|t|f]; simplify_eq/=.
  - close_inv; destruct p; solve_branch.
  - unfold LightFuture.is_ready; simpl. case_bool_decide; destruct k; close_inv;
      try (destruct p; solve_branch); solve_log.
  - rewrite suspend_branches. destruct ptr as [| |t]; simpl; destruct k; close_inv;
      try (destruct p; solve_branch); solve_log.
  - destruct tk as [[t' [[]]]|]; repeat case_decide; simplify_eq/=.
    destruct k; close_inv;
      try (destruct p; solve_branch); solve_log.
  - destruct Hc as [Hn ->]. cbn in Hstep. 
    assert (va = v) as -> by (destruct p; solve_branch).
    destruct (ValueHandling.get v) as [r|e|f] eqn:E; [..|by destruct v];
      simplify_eq/=; rewrite <- E in *; close_inv; try (destruct p; solve_branch);
      solve_log.
  - rewrite suspend_branches. destruct ptr as [| |t]; simpl; close_inv;
      try (destruct p; solve_branch); solve_log.
  - destruct tk as [[t' [[]]]|]; repeat case_decide; simplify_eq/=; close_inv;
      try (destruct p; solve_branch); solve_log.
  - repeat case_decide; simplify_eq/=; close_inv;
      try (destruct p; solve_branch); solve_log.
Qed.

Lemma wait_inv_next l s s' : Inv v s -> next v l s = Some s' -> Inv v s'.
Proof.
  destruct l; simpl;
    eauto using inv_setter_step, inv_start_step, inv_consumer_step, inv_timeout_step.
Qed.

Lemma wait_inv_reachable s : reachable (next v) init s -> Inv v s.
Proof. apply invariant_reachable; [apply wait_inv_next|apply wait_inv_init]. Qed.
End preservation.

(** ** Properties *)

Section properties.
Context {T : Type} (v : Value T).
Implicit Types (s : state T).

(** C5: whatever the interleaving, timeouts included, every [get] that
    returns, returns (or rethrows) exactly what the setter stored. *)
Theorem get_returns_published s o :
  reachable (next v) init s -> RGot o ∈ log s -> o = ValueHandling.get v.
Proof. intros H. apply (inv_log _ _ (wait_inv_reachable v s H)). Qed.

(** no assertion of [LightFutureData] fails in any interleaving of one
    setter and one consumer: the consumer never faults, and the setter's only
    possible fault is the use of a task that is already destroyed. *)
Theorem no_assertion_fails s :
  reachable (next v) init s ->
  (forall f, consumer s <> CFault f) /\
  (forall f, setter s = PFault f -> f = UseAfterFree).
Proof.
  intros H. destruct (wait_inv_reachable v s H) as [Hc Hs _].
  unfold consumer_ok, setter_ok in *.
  split; intros f E; rewrite E in *; [done|tauto].
Qed.

(** Without timeouts nothing withdraws what the setter published. *)
Definition kept s : Prop :=
  (published (setter s) -> continuationPtr (fut s) = InvalidHandle) /\
  (forall t, consumer s <> CWfExchange t).

Lemma next_no_timeout_next l s s' :
  next_no_timeout v l s = Some s' -> next v l s = Some s'.
Proof. by destruct l. Qed.

Ltac solve_kept := split; simpl in *; [intuition congruence|intros; intuition congruence].

Lemma kept_next l s s' :
  Inv v s /\ kept s -> next_no_timeout v l s = Some s' -> Inv v s' /\ kept s'.
Proof.
  intros [HI [Hp Hx]] Hstep. split; [eauto using wait_inv_next, next_no_timeout_next|].
  destruct l as [|o| |]; simpl in Hstep; [| | |done]; open_inv s HI; unfold kept.
  - unfold setter_step, alive in Hstep.
    destruct p; simplify_eq/=.
    + solve_kept.
    + destruct ptr; simplify_eq/=; solve_kept.
    + destruct tk as [[t' cv]|]; repeat case_decide; simplify_eq/=; solve_kept.
    + destruct tk as [[t' cv]|]; repeat case_decide; simplify_eq/=; solve_kept.
  - unfold start_step in Hstep. destruct c; simplify_eq/=.
    destruct o; simpl; repeat case_match; solve_kept.
  - unfold consumer_step, suspend_new, wait_returns, alive in Hstep.
    destruct c as [|[|n] k|k|t k| | |t|t|f]; simplify_eq/=.
    + solve_kept.
    + repeat case_match; solve_kept.
    + rewrite suspend_branches. destruct ptr, k, p; simpl; solve_kept.
    + destruct tk as [[t' [[]]]|]; repeat case_decide; simplify_eq/=. destruct k; solve_kept.
    + match type of Hstep with
      | context [LightFuture.get_unchecked ?d] => pose proof (get_unchecked_state d) as E
      end.
      destruct (LightFuture.get_unchecked _) as [[] ?]; simplify_eq/=; solve_kept.
    + rewrite suspend_branches. destruct ptr, p; simpl; solve_kept.
    + destruct tk as [[t' [[]]]|]; repeat case_decide; simplify_eq/=. solve_kept.
    + by destruct (Hx t).
Qed.

Lemma kept_reachable s :
  reachable (next_no_timeout v) init s -> Inv v s /\ kept s.
Proof.
  apply (invariant_reachable _ (fun s => Inv v s /\ kept s)); [apply kept_next|].
  split; [apply wait_inv_init|]. by split.
Qed.

(** Steps left to the setter and to the consumer's current call. *)
Definition setter_rank (p : ppc) : nat :=
  match p with PWrite => 4 | PExchange => 3 | PSignal _ => 2 | PNotify _ => 1 | _ => 0 end.

Definition consumer_rank (c : cpc) : nat :=
  match c with
  | CIdle | CFault _ => 0
  | CGet | CWfExchange _ => 1
  | CWfCv _ => 2
  | CCv _ _ => 3
  | CSuspend _ | CWfSuspend => 4
  | CSpin n _ => 5 + n
  end.

Definition rank s : nat := setter_rank (setter s) + consumer_rank (consumer s).

Lemma rank_setter s s' : setter_step v s = Some s' -> rank s' < rank s.
Proof.
  unfold setter_step, rank. intros H.
  destruct (setter s); simplify_eq/=; try lia.
  - destruct (LightFuture.on_ready _) as [[[]| |] ?]; simplify_eq/=; lia.
  - destruct (alive s t); simplify_eq/=; lia.
  - destruct (alive s t); simplify_eq/=; lia.
Qed.

Lemma rank_consumer s s' : consumer_step s = Some s' -> rank s' < rank s.
Proof.
  unfold consumer_step, suspend_new, wait_returns, rank. intros H.
  destruct (consumer s) as [|[|n] k|k|t k| | |t|t|f]; simplify_eq/=; try lia.
  - repeat case_match; simpl; lia.
  - destruct (LightFuture.suspend _ _) as [[[]| |] ?], k; simpl; lia.
  - destruct (alive s t) as [[[]]|]; simplify_eq/=. destruct k; simpl; lia.
  - destruct (LightFuture.get_unchecked _) as [[] ?]; simplify_eq/=; lia.
  - destruct (LightFuture.suspend _ _) as [[[]| |] ?]; simpl; lia.
  - destruct (alive s t) as [[[]]|]; simplify_eq/=. lia.
  - repeat case_decide; simpl; lia.
Qed.

Definition not_start (l : label) : Prop :=
  match l with LStart _ => False | _ => True end.

Lemma rank_run ls s s' :
  Forall not_start ls -> run (next_no_timeout v) ls s = Some s' ->
  length ls + rank s' <= rank s.
Proof.
  revert s. induction ls as [|l ls IH]; intros s Hl Hrun; simplify_eq/=; [lia|].
  apply Forall_cons_1 in Hl as [Hl Hls].
  destruct (next_no_timeout v l s) as [s1|] eqn:E; [|done].
  specialize (IH _ Hls Hrun).
  destruct l; simpl in *; [| | |done];
    [apply rank_setter in E|done|apply rank_consumer in E]; lia.
Qed.

(** A state in which neither thread can move has nobody waiting. *)
Lemma no_deadlock s :
  reachable (next_no_timeout v) init s ->
  setter_step v s = None -> consumer_step s = None -> consumer s = CIdle.
Proof.
  intros Hr Hp Hc. destruct (kept_reachable s Hr) as [HI [Hk Hx]].
  unfold setter_step, consumer_step in *. open_inv s HI. unfold alive in *. simpl in *.
  destruct c as [|[|n] k|k|t k| | |t|t|f]; try done.
  - exfalso. split_hyps; destruct p; split_hyps; try done; intuition congruence.
  - destruct (LightFuture.get_unchecked _) as [[] ?]; done.
  - exfalso. split_hyps; destruct p; split_hyps; try done; intuition congruence.
Qed.

(** C6: blocking calls end. From any state reached without a timeout,
    the setter and the pending call together take at most [rank] further
    steps, in any order, and when neither can move the call has returned: no
    schedule of [set_value] against [wait] or [get] loses the wake-up. *)
Theorem blocking_calls_end s ls s' :
  reachable (next_no_timeout v) init s ->
  Forall not_start ls -> run (next_no_timeout v) ls s = Some s' ->
  length ls <= rank s /\
  (setter_step v s' = None -> consumer_step s' = None -> consumer s' = CIdle).
Proof.
  intros Hr Hl Hrun. split; [pose proof (rank_run _ _ _ Hl Hrun); lia|].
  apply no_deadlock. eapply reachable_trans; [done|]. by exists ls.
Qed.
End properties.

(** ** What the code does not protect

    Two schedules in which the object outlives its user or its answer. *)

Section schedules.
(** The setter signals the waiting thread under the task's lock, and calls
    [notify_one] after releasing it. *)
Definition early_destruction : list label :=
  [LStart OpWait] ++ replicate 7 LConsumer ++ [LSetter; LSetter; LSetter; LConsumer; LSetter].

(** The duration of [wait_for] ends, the setter publishes, and the
    [exchange(EmptyHandle)] then removes [InvalidHandle]. *)
Definition lost_readiness : list label :=
  [LStart OpWaitFor; LConsumer; LTimeout; LSetter; LSetter; LSetter; LSetter; LConsumer;
   LStart OpIsReady; LStart OpGet] ++ replicate 7 LConsumer.

(** [wait()] can return, and destroy its task, between the setter's
    [mDataReady = true] and its [mCond.notify_one()]: the setter then uses a
    destroyed condition variable. *)
Theorem notify_after_destruction (v : Value Z) :
  exists s, run (next_no_timeout v) early_destruction init = Some s /\
    log s = [RUnit] /\ setter s = PFault UseAfterFree.
Proof. eexists. split; [vm_compute; reflexivity|done]. Qed.

(** a [wait_for] that times out while the setter publishes reports
    [ready] and at the same time takes the readiness away: [is_ready] is
    false afterwards although the value is stored, the setter is done, and a
    later [get] waits for ever. *)
Theorem wait_for_loses_readiness (v : Value Z) :
  exists s, run (next v) lost_readiness init = Some s /\
    log s = [RStatus status_ready; RBool false] /\
    setter s = PDone /\ value (fut s) = v /\
    (exists t, consumer s = CCv t KGet) /\
    forall l, next v l s = None.
Proof.
  eexists. split; [vm_compute; reflexivity|]. repeat split; eauto. by intros [| | |].
Qed.
End schedules.

(** ** Witnesses: a [get] that is suspended before the setter runs *)

Definition sample_labels : list label :=
  [LStart OpGet] ++ replicate 7 LConsumer ++ replicate 4 LSetter.
Definition sample_state : state Z :=
  default init (run (next_no_timeout (Val 42%Z)) sample_labels init).
Definition sample_done : state Z :=
  default init (run (next (Val 42%Z)) (sample_labels ++ [LConsumer; LConsumer]) init).

Lemma get_returns_published_witness :
  log sample_done = [RGot (Ret 42%Z)] /\
  forall o, RGot o ∈ log sample_done -> o = Ret 42%Z.
Proof.
  split; [vm_compute; reflexivity|]. intros o.
  apply (get_returns_published (Val 42%Z)).
  exists (sample_labels ++ [LConsumer; LConsumer]). vm_compute. reflexivity.
Defined.

Lemma no_assertion_fails_witness :
  setter sample_done = PDone /\ (forall f, consumer sample_done <> CFault f).
Proof.
  split; [vm_compute; reflexivity|].
  apply (no_assertion_fails (Val 42%Z)).
  exists (sample_labels ++ [LConsumer; LConsumer]). vm_compute. reflexivity.
Defined.

Lemma blocking_calls_end_witness :
  consumer sample_state = CCv 0 KGet /\
  exists s', run (next_no_timeout (Val 42%Z)) [LConsumer; LConsumer] sample_state = Some s' /\
    consumer s' = CIdle.
Proof.
  split; [vm_compute; reflexivity|]. eexists. split; [vm_compute; reflexivity|].
  apply (blocking_calls_end (Val 42%Z) sample_state [LConsumer; LConsumer]).
  - exists sample_labels. vm_compute. reflexivity.
  - repeat constructor.
  - vm_compute. reflexivity.
  - vm_compute. reflexivity.
  - vm_compute. reflexivity.
Defined.
