(* ===== verification/Mutex.v ===== *)
(** * [mutex.hpp]: [BaseMutex], its two waiter policies, and every interleaving

    A system of [n] threads or coroutines, each calling [lock], [try_lock]
    and, when it holds the mutex, [unlock], in any order. Every access to the
    atomic counter, every critical section of the synchronized waiter
    container and every access to a waiter's promise is one step. *)

From S2P Require Import Prelude Future.

(** ** Policies *)

(** What [BaseMutex] asks of its [PolicyT]: addresses of promises go in and
    come out. [getNextWaiter] is only called on a non-empty container. *)
Record Policy : Type := {
  addToWaiter : nat -> list nat -> list nat;
  getNextWaiter : list nat -> option (nat * list nat);
}.

Class PolicyLaws (P : Policy) : Prop := {
  add_perm t q : addToWaiter P t q ≡ₚ t :: q;
  next_empty : getNextWaiter P [] = None;
  next_nonempty q : q <> [] -> is_Some (getNextWaiter P q);
  next_perm q t q' : getNextWaiter P q = Some (t, q') -> q ≡ₚ t :: q';
}.

Module HighThroughputPolicy.
(** [std::vector]: [push_back], [back] and [pop_back]. *)
Definition addToWaiter (t : nat) (c : list nat) : list nat := c ++ [t].
Definition getNextWaiter (c : list nat) : option (nat * list nat) :=
  match last c with
  | Some t => Some (t, take (length c - 1) c)
  | None => None
  end.
Definition policy : Policy := {| Mutex.addToWaiter := addToWaiter; Mutex.getNextWaiter := getNextWaiter |}.
End HighThroughputPolicy.

Module FairPolicy.
(** [std::deque]: [push_back], [front] and [pop_front]. *)
Definition addToWaiter (t : nat) (c : list nat) : list nat := c ++ [t].
Definition getNextWaiter (c : list nat) : option (nat * list nat) :=
  match c with
  | t :: c => Some (t, c)
  | [] => None
  end.
Definition policy : Policy := {| Mutex.addToWaiter := addToWaiter; Mutex.getNextWaiter := getNextWaiter |}.
End FairPolicy.

#[export] Instance HighThroughputPolicy_laws : PolicyLaws HighThroughputPolicy.policy.
Proof.
  split; simpl; unfold HighThroughputPolicy.addToWaiter, HighThroughputPolicy.getNextWaiter.
  - intros t q. by rewrite Permutation_app_comm.
  - done.
  - intros q Hq. destruct (last q) eqn:E; [by eexists|]. by apply last_None in E.
  - intros q t q' H. destruct (last q) as [x|] eqn:E; simplify_eq.
    apply last_Some in E as [l ->]. rewrite length_app. simpl.
    rewrite Nat.add_sub, take_app_length. by rewrite Permutation_app_comm.
Qed.

#[export] Instance FairPolicy_laws : PolicyLaws FairPolicy.policy.
Proof.
  split; simpl; unfold FairPolicy.addToWaiter, FairPolicy.getNextWaiter.
  - intros t q. by rewrite Permutation_app_comm.
  - done.
  - intros [|t q] Hq; [done|by eexists].
  - intros [|x q] t q' H; by simplify_eq.
Qed.

(** ** Threads *)

Inductive pc : Type :=
  | Idle                 (** outside of the mutex *)
  | LSpin (i : nat)      (** [lock]: before the [i]-th [compare_exchange_weak] *)
  | LAdd                 (** [lock]: after the loop, before [fetch_add] *)
  | LPush                (** [lock]: [p] is constructed, before [addToWaiter] *)
  | LReady               (** [await(p)]: before [await_ready] *)
  | LSuspend             (** [await(p)]: before [await_suspend] *)
  | LBlocked             (** [await(p)]: suspended *)
  | LResume              (** [await(p)]: before [await_resume] *)
  | Held                 (** [lock] or [try_lock] has succeeded *)
  | TCas                 (** [try_lock]: before [compare_exchange_weak] *)
  | USub                 (** [unlock]: before [fetch_sub] *)
  | ULoop                (** [unlock]: before looking for a waiter *)
  | UWrite (p : nat)     (** [next->set_value]: before the assignment *)
  | UExch (p : nat)      (** ... before the [exchange] of [on_ready] *)
  | UCall (t : nat)      (** ... before the call of the continuation *)
  | Fault (f : fault).

Inductive action : Type :=
  | ALock | ATryLock | AUnlock
  | AStep (spurious : bool).   (** next step; a weak exchange may fail spuriously *)

(** The promise of a [lock] call lives on the stack of its thread: thread
    [t]'s promise has address [t]. *)
Record state : Type := St {
  mCountOfWaiter : Z;
  mWaiter : list nat;
  promises : gmap nat (LightFutureData nat StatelessT);
  threads : list pc;
  added : list nat;      (** history: all waiters in order of [addToWaiter] *)
  taken : list nat;      (** history: all waiters in order of [getNextWaiter] *)
}.

Section mutex.
Context (P : Policy).
Implicit Types (s : state).

Definition init (n : nat) : state := St 0 [] ∅ (replicate n Idle) [] [].

Definition goto (t : nat) (p : pc) s : state :=
  St (mCountOfWaiter s) (mWaiter s) (promises s) (<[t := p]> (threads s)) (added s) (taken s).
Definition set_count (c : Z) s : state :=
  St c (mWaiter s) (promises s) (threads s) (added s) (taken s).
Definition set_promise (p : nat) (d : LightFutureData nat StatelessT) s : state :=
  St (mCountOfWaiter s) (mWaiter s) (<[p := d]> (promises s)) (threads s) (added s) (taken s).
Definition drop_promise (p : nat) s : state :=
  St (mCountOfWaiter s) (mWaiter s) (delete p (promises s)) (threads s) (added s) (taken s).
Definition enqueue (t : nat) s : state :=
  St (mCountOfWaiter s) (addToWaiter P t (mWaiter s)) (promises s) (threads s)
     (added s ++ [t]) (taken s).
Definition dequeue (t : nat) (q : list nat) s : state :=
  St (mCountOfWaiter s) q (promises s) (threads s) (added s) (taken s ++ [t]).

(** [mCountOfWaiter.compare_exchange_weak(expected = 0, 1)]: success, and
    the value found. *)
Definition compare_exchange_weak (spurious : bool) s : bool * Z * state :=
  if (mCountOfWaiter s =? 0)%Z && negb spurious
  then (true, 0%Z, set_count 1 s)
  else (false, mCountOfWaiter s, s).

(** One iteration of the loop in [lock]. *)
Definition lock_spin (t i : nat) (spurious : bool) s : state :=
  let '(res, expected, s') := compare_exchange_weak spurious s in
  if negb (0 <=? expected)%Z then goto t (Fault AssertFailed) s' else
  if res then goto t Held s' else
  if (1 <? expected)%Z then goto t LAdd s' else
  if S i <? 8 then goto t (LSpin (S i)) s' else goto t LAdd s'.

(** [mCountOfWaiter.fetch_add(1) + 1], and the construction of [p]. *)
Definition lock_add (t : nat) s : state :=
  let waitingCount := (mCountOfWaiter s + 1)%Z in
  let s' := set_count (wrap32 waitingCount) s in
  if (waitingCount =? 1)%Z then goto t Held s'
  else goto t LPush (set_promise t LightFuture.make s').

(** [await(p)] on the promise of thread [t]. *)
Definition await_ready (t : nat) (d : LightFutureData nat StatelessT) s : state :=
  if LightFuture.await_ready d then goto t LResume s else goto t LSuspend s.

Definition await_suspend (t : nat) (d : LightFutureData nat StatelessT) s : state :=
  match LightFuture.await_suspend t d with
  | (Ret true, d') => goto t LBlocked (set_promise t d' s)
  | (Ret false, d') => goto t LResume (set_promise t d' s)
  | (Throw _, d') => goto t Idle (drop_promise t s)
  | (Crash f, d') => goto t (Fault f) (set_promise t d' s)
  end.

Definition await_resume (t : nat) (d : LightFutureData nat StatelessT) s : state :=
  match LightFuture.get_unchecked_void d with
  | (Ret _, _) => goto t Held (drop_promise t s)
  | (Throw _, _) => goto t Idle (drop_promise t s)
  | (Crash f, _) => goto t (Fault f) s
  end.

Definition try_lock (t : nat) (spurious : bool) s : state :=
  let '(res, expected, s') := compare_exchange_weak spurious s in
  if negb (0 <=? expected)%Z then goto t (Fault AssertFailed) s' else
  if res then goto t Held s' else goto t Idle s'.

(** [mCountOfWaiter.fetch_sub(1) - 1] *)
Definition unlock_sub (t : nat) s : state :=
  let waitingCount := (mCountOfWaiter s - 1)%Z in
  let s' := set_count (wrap32 waitingCount) s in
  if negb (0 <=? waitingCount)%Z then goto t (Fault AssertFailed) s' else
  if (waitingCount =? 0)%Z then goto t Idle s' else goto t ULoop s'.

(** One iteration of [while (true)]. *)
Definition unlock_loop (t : nat) s : state :=
  match getNextWaiter P (mWaiter s) with
  | Some (next, q) => goto t (UWrite next) (dequeue next q s)
  | None => goto t ULoop s
  end.

(** [next->set_value(...)], whose promise must still be alive. *)
Definition set_value_write (t p : nat) s : state :=
  match promises s !! p with
  | Some d => goto t (UExch p) (set_promise p (snd (LightFuture.assign_value (Val stateless) d)) s)
  | None => goto t (Fault UseAfterFree) s
  end.

Definition set_value_on_ready (t p : nat) s : state :=
  match promises s !! p with
  | Some d =>
      match LightFuture.on_ready d with
      | (Ret None, d') => goto t Idle (set_promise p d' s)
      | (Ret (Some c), d') => goto t (UCall c) (set_promise p d' s)
      | (Throw _, d') => goto t Idle (set_promise p d' s)
      | (Crash f, d') => goto t (Fault f) (set_promise p d' s)
      end
  | None => goto t (Fault UseAfterFree) s
  end.

(** The continuation of a suspended thread resumes it. *)
Definition call_continuation (t c : nat) s : state :=
  match threads s !! c with
  | Some LBlocked => goto t Idle (goto c LResume s)
  | _ => goto t (Fault UseAfterFree) s
  end.

Definition with_promise (t : nat) s (k : LightFutureData nat StatelessT -> state) : state :=
  match promises s !! t with
  | Some d => k d
  | None => goto t (Fault UseAfterFree) s
  end.

Definition thread_step (t : nat) (p : pc) (spurious : bool) s : option state :=
  match p with
  | Idle | Held | LBlocked | Fault _ => None
  | LSpin i => Some (lock_spin t i spurious s)
  | LAdd => Some (lock_add t s)
  | LPush => Some (goto t LReady (enqueue t s))
  | LReady => Some (with_promise t s (fun d => await_ready t d s))
  | LSuspend => Some (with_promise t s (fun d => await_suspend t d s))
  | LResume => Some (with_promise t s (fun d => await_resume t d s))
  | TCas => Some (try_lock t spurious s)
  | USub => Some (unlock_sub t s)
  | ULoop => Some (unlock_loop t s)
  | UWrite p => Some (set_value_write t p s)
  | UExch p => Some (set_value_on_ready t p s)
  | UCall c => Some (call_continuation t c s)
  end.

(** [unlock] is only called by a thread that holds the mutex. *)
Definition next (l : nat * action) s : option state :=
  let '(t, a) := l in
  match threads s !! t with
  | None => None
  | Some p =>
      match a, p with
      | ALock, Idle => Some (goto t (LSpin 0) s)
      | ATryLock, Idle => Some (goto t TCas s)
      | AUnlock, Held => Some (goto t USub s)
      | AStep spurious, _ => thread_step t p spurious s
      | _, _ => None
      end
  end.
End mutex.
