(* ===== verification/MutexInv.v ===== *)
(** * The mutex: invariant and theorems

    The counter counts the threads that hold the mutex or wait for it, and
    a single token (held, being handed over, or granted to a waiter that has
    not noticed yet) exists exactly while the counter is positive. *)

From S2P Require Import Prelude Future Mutex.

#[local] Arguments Nat.min : simpl never.

Definition granted : LightFutureData nat StatelessT := LFD InvalidHandle (Val stateless).

(** Does the counter count this thread? *)
Definition counted (p : pc) : nat :=
  match p with
  | LPush | LReady | LSuspend | LBlocked | LResume | Held | USub => 1
  | _ => 0
  end.

Definition waits (p : pc) : Prop :=
  match p with LReady | LSuspend | LBlocked => True | _ => False end.

#[export] Instance waits_dec p : Decision (waits p).
Proof. destruct p; simpl; apply _. Defined.

(** Does thread [t], at [p], have the token? *)
Definition token (pm : gmap nat (LightFutureData nat StatelessT)) (t : nat) (p : pc) : nat :=
  match p with
  | Held | USub | ULoop | UWrite _ | UExch _ | UCall _ | LResume => 1
  | LReady | LSuspend => if decide (pm !! t = Some granted) then 1 else 0
  | _ => 0
  end.

Section invariant.
Implicit Types (s : state).

(** A waiter that has not been granted the mutex yet. *)
Definition ungranted s (t : nat) : Prop :=
  exists p d, threads s !! t = Some p /\ waits p /\
    promises s !! t = Some d /\ continuationPtr d <> InvalidHandle.

(** What thread [t] knows of its own promise. *)
Definition promise_ok s (t : nat) (p : pc) : Prop :=
  match p with
  | LPush => promises s !! t = Some LightFuture.make
  | LReady | LSuspend =>
      promises s !! t = Some granted \/
      exists v, promises s !! t = Some (LFD EmptyHandle v)
  | LBlocked =>
      promises s !! t = Some granted \/
      exists v, promises s !! t = Some (LFD (TaskPtr t) v)
  | LResume => promises s !! t = Some granted
  | Fault _ => False
  | _ => promises s !! t = None
  end.

(** What a thread handing the mutex over knows of its target. *)
Definition handoff_ok s (p : pc) : Prop :=
  match p with
  | UWrite n => (n ∉ mWaiter s) /\ ungranted s n
  | UExch n => (n ∉ mWaiter s) /\ ungranted s n /\
               (value <$> promises s !! n) = Some (Val stateless)
  | UCall n => threads s !! n = Some LBlocked /\ promises s !! n = Some granted
  | _ => True
  end.

Record Inv s : Prop := {
  inv_count : mCountOfWaiter s = Z.of_nat (sum_list_with counted (threads s));
  inv_token : isum (token (promises s)) (threads s) =
              min 1 (sum_list_with counted (threads s));
  inv_nodup : NoDup (mWaiter s);
  inv_queue t : t ∈ mWaiter s -> ungranted s t;
  inv_promise t p : threads s !! t = Some p -> promise_ok s t p;
  inv_handoff t p : threads s !! t = Some p -> handoff_ok s p;
  inv_bound : (Z.of_nat (length (threads s)) < 2 ^ 31)%Z;
}.

Lemma inv_init n : (Z.of_nat n < 2 ^ 31)%Z -> Inv (init n).
Proof.
  intros Hn. split; simpl.
  - by rewrite sum_replicate, Nat.mul_0_r.
  - rewrite sum_replicate, Nat.mul_0_r. apply isum_zero.
    intros i a Ha. by apply lookup_replicate in Ha as [-> _].
  - constructor.
  - intros t Ht. by apply not_elem_of_nil in Ht.
  - intros t p Hp. apply lookup_replicate in Hp as [-> _]. done.
  - intros t p Hp. by apply lookup_replicate in Hp as [-> _].
  - by rewrite length_replicate.
Qed.

Lemma counted_le_1 p : counted p <= 1.
Proof. destruct p; simpl; lia. Qed.

Lemma count_bound s : Inv s -> (0 <= mCountOfWaiter s < 2 ^ 31)%Z.
Proof.
  intros H. rewrite (inv_count _ H). pose proof (inv_bound _ H).
  pose proof (sum_const_le counted (threads s) counted_le_1). lia.
Qed.

(** At most one thread has the token. *)
Lemma token_unique s t u p q :
  Inv s -> threads s !! t = Some p -> threads s !! u = Some q ->
  token (promises s) t p = 1 -> token (promises s) u q = 1 -> t = u.
Proof.
  intros H Hp Hq Htp Htq. destruct (decide (t = u)) as [|Hne]; [done|].
  pose proof (isum_lookup_le2 (token (promises s)) _ t u p q Hne Hp Hq).
  pose proof (inv_token _ H). lia.
Qed.
End invariant.

(** ** How one thread's step changes the sums *)

Section updates.
Implicit Types (l : list pc) (pm : gmap nat (LightFutureData nat StatelessT)).

Lemma token_other pm t d j p : j <> t -> token (<[t := d]> pm) j p = token pm j p.
Proof. intros H. unfold token. by rewrite lookup_insert_ne by congruence. Qed.

Lemma token_other_delete pm t j p : j <> t -> token (delete t pm) j p = token pm j p.
Proof. intros H. unfold token. by rewrite lookup_delete_ne by congruence. Qed.

(** Thread [t] moves to [b] and perhaps changes its own promise. *)
Lemma tokens_move pm pm' l t a b :
  l !! t = Some a ->
  (forall j, j <> t -> pm' !! j = pm !! j) ->
  isum (token pm') (<[t := b]> l) + token pm t a = isum (token pm) l + token pm' t b.
Proof.
  intros Ha Hpm. apply isum_insert; [done|].
  intros j c Hj _. unfold token. by rewrite Hpm.
Qed.

(** Thread [t] moves to [b] and changes the promise of another thread [n]. *)
Lemma tokens_grant pm l t n a b p d :
  t <> n -> l !! t = Some a -> l !! n = Some p ->
  token pm t b = token (<[n := d]> pm) t b ->
  isum (token (<[n := d]> pm)) (<[t := b]> l) + token pm t a + token pm n p =
  isum (token pm) l + token pm t b + token (<[n := d]> pm) n p.
Proof.
  intros Hne Ha Hp Hb.
  pose proof (isum_insert (token pm) (token pm) l t a b Ha ltac:(done)) as H1.
  pose proof (isum_insert (token pm) (token (<[n := d]> pm)) (<[t := b]> l) n p p) as H2.
  rewrite list_lookup_insert_ne in H2 by done. specialize (H2 Hp).
  rewrite (list_insert_id (<[t := b]> l) n p) in H2
    by (by rewrite list_lookup_insert_ne).
  specialize (H2 (fun j c Hj _ => token_other pm n d j c Hj)). lia.
Qed.
End updates.

(** ** Moves of one thread *)

Section moves.
Implicit Types (s : state).

Lemma lookup_move (l : list pc) t u a b q :
  l !! t = Some a -> <[t := b]> l !! u = Some q ->
  (u = t /\ q = b) \/ (u <> t /\ l !! u = Some q).
Proof.
  intros Ha Hq. destruct (decide (u = t)) as [->|Hne]; [left|right; split; [done|]].
  - rewrite list_lookup_insert_eq in Hq by eauto using lookup_lt_Some. by simplify_eq.
  - by rewrite list_lookup_insert_ne in Hq.
Qed.

(** A thread that keeps its place is not disturbed by another one's move. *)
Lemma ungranted_other s s' t b u :
  threads s' = <[t := b]> (threads s) ->
  promises s' !! u = promises s !! u ->
  u <> t -> ungranted s u -> ungranted s' u.
Proof.
  intros Ht Hp Hne (p & d & Hu & Hw & Hd & Hc). exists p, d.
  rewrite Ht, Hp, list_lookup_insert_ne by done. done.
Qed.

Lemma promise_ok_same s s' u q :
  promises s' !! u = promises s !! u -> promise_ok s u q -> promise_ok s' u q.
Proof. unfold promise_ok. by intros ->. Qed.

Lemma ungranted_waits s t a : threads s !! t = Some a -> ungranted s t -> waits a.
Proof. intros Ha (p & d & Hp & Hw & _). by simplify_eq. Qed.

(** While thread [t] has the token nobody else is handing it over. *)
Lemma handoff_others s t a u q s' :
  Inv s -> threads s !! t = Some a -> token (promises s) t a = 1 ->
  threads s !! u = Some q -> u <> t -> handoff_ok s' q.
Proof.
  intros H Ha Htok Hq Hne.
  destruct q; try done; exfalso; apply Hne; eapply (token_unique s); eauto.
Qed.

(** Thread [t] moves from [a] to [b], changing at most the counter and its
    own promise. *)
Lemma inv_move s s' t a b :
  Inv s -> threads s !! t = Some a -> a <> LBlocked ->
  threads s' = <[t := b]> (threads s) -> mWaiter s' = mWaiter s ->
  (forall j, j <> t -> promises s' !! j = promises s !! j) ->
  mCountOfWaiter s' = (mCountOfWaiter s - Z.of_nat (counted a) + Z.of_nat (counted b))%Z ->
  isum (token (promises s)) (threads s) + token (promises s') t b =
    token (promises s) t a + min 1 (sum_list_with counted (threads s) + counted b - counted a) ->
  promise_ok s' t b -> handoff_ok s' b ->
  (ungranted s t -> ungranted s' t /\ (value <$> promises s' !! t) = value <$> promises s !! t) ->
  Inv s'.
Proof.
  intros H Ha Hnb Ht Hq Hp Hc Htok Hpo Hho Hug.
  pose proof (sum_insert counted _ _ _ b Ha) as Hsum.
  pose proof (sum_lookup_le counted _ _ _ Ha) as Hle.
  assert (Hung : forall u, ungranted s u -> ungranted s' u).
  { intros u Hu. destruct (decide (u = t)) as [->|]; [by apply Hug|].
    eapply ungranted_other; eauto. }
  split; rewrite ?Ht, ?Hq.
  - rewrite Hc, (inv_count _ H). lia.
  - pose proof (tokens_move (promises s) (promises s') _ t a b Ha Hp). lia.
  - apply (inv_nodup _ H).
  - intros u Hu. by apply Hung, (inv_queue _ H).
  - intros u q Hu. destruct (lookup_move _ _ _ _ _ _ Ha Hu) as [[-> ->]|[Hne Hu']]; [done|].
    eapply promise_ok_same; [by apply Hp|]. by apply (inv_promise _ H).
  - intros u q Hu. destruct (lookup_move _ _ _ _ _ _ Ha Hu) as [[-> ->]|[Hne Hu']]; [done|].
    pose proof (inv_handoff _ H _ _ Hu') as Hh.
    destruct q; simpl in *; try done; rewrite ?Hq, ?Ht.
    + destruct Hh as [Hn Hu2]. by auto.
    + destruct Hh as (Hn & Hu2 & Hv). split; [done|]. split; [by auto|].
      destruct (decide (p = t)) as [->|]; [by destruct (Hug Hu2) as [_ ->]|by rewrite Hp].
    + destruct Hh as [Hb Hg]. assert (t0 <> t) by (intros ->; congruence).
      rewrite list_lookup_insert_ne, Hp by done. done.
  - rewrite length_insert. apply (inv_bound _ H).
Qed.

(** What the move lemma asks when the counter does not change. *)
Lemma inv_move_same s s' t a b :
  Inv s -> threads s !! t = Some a -> a <> LBlocked -> ~ waits a ->
  threads s' = <[t := b]> (threads s) -> mWaiter s' = mWaiter s ->
  promises s' = promises s -> mCountOfWaiter s' = mCountOfWaiter s ->
  counted a = counted b -> token (promises s) t a = token (promises s) t b ->
  promise_ok s t b -> handoff_ok s' b -> Inv s'.
Proof.
  intros H Ha Hnb Hw Ht Hq Hp Hc Hcb Htk Hpo Hho.
  eapply (inv_move s s' t a b); eauto.
  - by rewrite Hp.
  - rewrite Hc, Hcb. lia.
  - rewrite Hp, Htk, Hcb, (inv_token _ H).
    pose proof (sum_lookup_le counted _ _ _ Ha). rewrite Nat.add_sub. lia.
  - eapply promise_ok_same; [|done]. by rewrite Hp.
  - intros Hu. exfalso. eauto using ungranted_waits.
Qed.
End moves.

(** ** Every step keeps the invariant *)

Section preservation.
Context (P : Policy) `{!PolicyLaws P}.
Implicit Types (s : state).

Lemma counted_total s t a :
  Inv s -> threads s !! t = Some a -> counted a = 0 ->
  (mCountOfWaiter s + 1 < 2 ^ 31)%Z.
Proof.
  intros H Ha Hc. pose proof (sum_insert counted _ _ _ Held Ha) as Hs. simpl in Hs.
  pose proof (sum_const_le counted (<[t := Held]> (threads s)) counted_le_1) as Hb.
  rewrite length_insert in Hb. rewrite (inv_count _ H). pose proof (inv_bound _ H). lia.
Qed.

(** A thread that is not counted acquires the free mutex. *)
Lemma inv_acquire s t a :
  Inv s -> threads s !! t = Some a -> counted a = 0 -> token (promises s) t a = 0 ->
  a <> LBlocked -> promises s !! t = None -> mCountOfWaiter s = 0%Z ->
  Inv (goto t Held (set_count 1 s)).
Proof.
  intros H Ha Hca Hta Hb Hp Hc. pose proof (inv_count _ H). pose proof (inv_token _ H).
  assert (sum_list_with counted (threads s) = 0) as E by lia.
  eapply (inv_move s _ t a Held); eauto; simpl; try lia; try done.
  intros (? & d & _ & _ & Hd & _). congruence.
Qed.

(** ... or stays uncounted. *)
Lemma inv_stay_out s t a b :
  Inv s -> threads s !! t = Some a -> ~ waits a -> promises s !! t = None ->
  a <> LBlocked -> counted a = 0 -> token (promises s) t a = 0 ->
  counted b = 0 -> token (promises s) t b = 0 -> promise_ok s t b -> (forall s', handoff_ok s' b) ->
  Inv (goto t b s).
Proof. intros. eapply (inv_move_same s _ t a b); eauto; congruence. Qed.

Lemma inv_cas_spin s t i sp :
  Inv s -> threads s !! t = Some (LSpin i) -> Inv (lock_spin t i sp s).
Proof.
  intros H Ha. pose proof (inv_promise _ H _ _ Ha) as Hp. simpl in Hp.
  pose proof (count_bound _ H) as Hb. unfold lock_spin, compare_exchange_weak.
  destruct ((mCountOfWaiter s =? 0)%Z && negb sp) eqn:E; simpl.
  - apply andb_true_iff in E as [E _]. apply Z.eqb_eq in E.
    by eapply inv_acquire.
  - destruct (Z.leb_spec 0 (mCountOfWaiter s)); [|lia]. simpl.
    repeat case_match; eapply (inv_stay_out s t (LSpin i)); simpl; auto.
Qed.

Lemma inv_try_lock s t sp :
  Inv s -> threads s !! t = Some TCas -> Inv (try_lock t sp s).
Proof.
  intros H Ha. pose proof (inv_promise _ H _ _ Ha) as Hp. simpl in Hp.
  pose proof (count_bound _ H) as Hb. unfold try_lock, compare_exchange_weak.
  destruct ((mCountOfWaiter s =? 0)%Z && negb sp) eqn:E; simpl.
  - apply andb_true_iff in E as [E _]. apply Z.eqb_eq in E.
    by eapply inv_acquire.
  - destruct (Z.leb_spec 0 (mCountOfWaiter s)); [|lia]. simpl.
    eapply (inv_stay_out s t TCas); simpl; auto.
Qed.

Lemma inv_lock_add s t :
  Inv s -> threads s !! t = Some LAdd -> Inv (lock_add t s).
Proof.
  intros H Ha. pose proof (inv_promise _ H _ _ Ha) as Hp. simpl in Hp.
  pose proof (count_bound _ H) as Hb. pose proof (counted_total _ _ _ H Ha eq_refl).
  unfold lock_add. rewrite wrap32_id by lia.
  destruct (Z.eqb_spec (mCountOfWaiter s + 1) 1) as [E|E].
  - replace (mCountOfWaiter s + 1)%Z with 1%Z by lia.
    eapply inv_acquire; eauto. lia.
  - pose proof (inv_count _ H). pose proof (inv_token _ H).
    eapply (inv_move s _ t LAdd LPush); eauto; simpl; try done; try lia.
    + intros j Hj. by rewrite lookup_insert_ne by congruence.
    + by rewrite lookup_insert_eq.
    + intros (? & d & _ & _ & Hd & _). congruence.
Qed.

Lemma with_promise_some s t d k :
  promises s !! t = Some d -> with_promise t s k = k d.
Proof. unfold with_promise. by intros ->. Qed.

Lemma inv_ready s t :
  Inv s -> threads s !! t = Some LReady ->
  Inv (with_promise t s (fun d => await_ready t d s)).
Proof.
  intros H Ha. pose proof (inv_promise _ H _ _ Ha) as Hp. simpl in Hp.
  pose proof (sum_lookup_le counted _ _ _ Ha) as Hs. simpl in Hs.
  pose proof (inv_token _ H).
  destruct Hp as [Hp|[v Hp]]; rewrite (with_promise_some _ _ _ _ Hp); cbn.
  - eapply (inv_move s _ t LReady LResume); eauto; simpl; try done; try lia.
    + rewrite decide_True by done. lia.
    + intros (? & d & _ & _ & Hd & Hn). by simplify_eq.
  - eapply (inv_move s _ t LReady LSuspend); eauto; simpl; try done; try lia.
    + right. eauto.
    + intros Hu. split; [|done]. exists LSuspend, (LFD EmptyHandle v); simpl.
      rewrite list_lookup_insert_eq by eauto using lookup_lt_Some. done.
Qed.

Lemma inv_suspend s t :
  Inv s -> threads s !! t = Some LSuspend ->
  Inv (with_promise t s (fun d => await_suspend t d s)).
Proof.
  intros H Ha. pose proof (inv_promise _ H _ _ Ha) as Hp. simpl in Hp.
  pose proof (sum_lookup_le counted _ _ _ Ha) as Hs. simpl in Hs.
  pose proof (inv_token _ H).
  assert (Hoth : forall d j, j <> t -> <[t := d]> (promises s) !! j = promises s !! j).
  { intros d j Hj. by rewrite lookup_insert_ne by congruence. }
  destruct Hp as [Hp|[v Hp]]; rewrite (with_promise_some _ _ _ _ Hp);
    unfold await_suspend, LightFuture.await_suspend; rewrite suspend_branches; simpl.
  - eapply (inv_move s _ t LSuspend LResume); eauto; simpl; try exact (Hoth _); try done; try lia.
    + rewrite decide_True by done. lia.
    + by rewrite lookup_insert_eq.
    + intros (? & d & _ & _ & Hd & Hn). by simplify_eq.
  - eapply (inv_move s _ t LSuspend LBlocked); eauto; simpl; try exact (Hoth _); try done; try lia.
    + rewrite decide_False by (rewrite Hp; discriminate). lia.
    + right. exists v. by rewrite lookup_insert_eq.
    + intros Hu. split; [|by rewrite lookup_insert_eq, Hp].
      exists LBlocked, (LFD (TaskPtr t) v); simpl.
      rewrite list_lookup_insert_eq, lookup_insert_eq by eauto using lookup_lt_Some. done.
Qed.

Lemma inv_resume s t :
  Inv s -> threads s !! t = Some LResume ->
  Inv (with_promise t s (fun d => await_resume t d s)).
Proof.
  intros H Ha. pose proof (inv_promise _ H _ _ Ha) as Hp. simpl in Hp.
  pose proof (sum_lookup_le counted _ _ _ Ha) as Hs. simpl in Hs.
  pose proof (inv_token _ H). rewrite (with_promise_some _ _ _ _ Hp). cbn.
  eapply (inv_move s _ t LResume Held); eauto; simpl; try done; try lia.
  - intros j Hj. by rewrite lookup_delete_ne by congruence.
  - by rewrite lookup_delete_eq.
  - intros Hu. exfalso. by apply (ungranted_waits _ _ _ Ha) in Hu.
Qed.

Lemma inv_unlock_sub s t :
  Inv s -> threads s !! t = Some USub -> Inv (unlock_sub t s).
Proof.
  intros H Ha. pose proof (inv_promise _ H _ _ Ha) as Hp. simpl in Hp.
  pose proof (sum_lookup_le counted _ _ _ Ha) as Hs. simpl in Hs.
  pose proof (inv_token _ H). pose proof (inv_count _ H). pose proof (count_bound _ H).
  unfold unlock_sub. rewrite wrap32_id by lia.
  destruct (Z.leb_spec 0 (mCountOfWaiter s - 1)); [|lia]. simpl.
  destruct (Z.eqb_spec (mCountOfWaiter s - 1) 0);
    [eapply (inv_move s _ t USub Idle)|eapply (inv_move s _ t USub ULoop)];
    eauto; simpl; try done; try lia;
    intros Hu; exfalso; by apply (ungranted_waits _ _ _ Ha) in Hu.
Qed.

Lemma in_add t u q : u ∈ addToWaiter P t q <-> u = t \/ u ∈ q.
Proof. by rewrite (add_perm t q), elem_of_cons. Qed.

Lemma inv_enqueue s t :
  Inv s -> threads s !! t = Some LPush -> Inv (goto t LReady (enqueue P t s)).
Proof.
  intros H Ha. pose proof (inv_promise _ H _ _ Ha) as Hp. simpl in Hp.
  assert (Hnu : ~ ungranted s t) by (by intros Hu%(ungranted_waits _ _ _ Ha)).
  set (s0 := goto t LReady s).
  assert (H0 : ungranted s0 t /\ forall u, ungranted s u -> ungranted s0 u).
  { split.
    - exists LReady, LightFuture.make; simpl.
      by rewrite list_lookup_insert_eq by eauto using lookup_lt_Some.
    - intros u Hu. eapply (ungranted_other s s0 t); eauto. by intros ->. }
  destruct H0 as [Ht Hung].
  pose proof (sum_insert counted _ _ _ LReady Ha) as Hs. simpl in Hs.
  pose proof (tokens_move (promises s) (promises s) _ t LPush LReady Ha ltac:(done)) as Hk.
  simpl in Hk. rewrite decide_False in Hk by (rewrite Hp; discriminate).
  split; simpl.
  - rewrite (inv_count _ H). lia.
  - pose proof (inv_token _ H). lia.
  - rewrite (add_perm t (mWaiter s)). apply NoDup_cons. split; [|apply (inv_nodup _ H)].
    intros Hin. by apply Hnu, (inv_queue _ H).
  - intros u [->|Hu]%in_add; [exact Ht|]. by apply Hung, (inv_queue _ H).
  - intros u q Hu. destruct (lookup_move _ _ _ _ _ _ Ha Hu) as [[-> ->]|[Hne Hu']].
    + right. by eexists.
    + by apply (inv_promise _ H) in Hu'.
  - intros u q Hu. destruct (lookup_move _ _ _ _ _ _ Ha Hu) as [[-> ->]|[Hne Hu']]; [done|].
    pose proof (inv_handoff _ H _ _ Hu') as Hh.
    assert (Hnt : forall n, ungranted s n -> n ∉ mWaiter s -> n ∉ addToWaiter P t (mWaiter s)).
    { intros n Hn Hin [->|]%in_add; [by apply Hnu|done]. }
    destruct q; simpl in *; try done.
    + destruct Hh as [? ?]. split; [by apply Hnt|by apply Hung].
    + destruct Hh as (? & ? & ?). split; [by apply Hnt|]. split; [by apply Hung|done].
    + destruct Hh as [Hb Hg]. rewrite list_lookup_insert_ne; [done|]. intros ->. congruence.
  - rewrite length_insert. apply (inv_bound _ H).
Qed.

(** A step of the thread that has the token: only its own handoff counts. *)
Lemma inv_token_step s s' t a b :
  Inv s -> threads s !! t = Some a -> token (promises s) t a = 1 -> counted a = 0 ->
  counted b = 0 -> promises s !! t = None ->
  threads s' = <[t := b]> (threads s) -> mCountOfWaiter s' = mCountOfWaiter s ->
  isum (token (promises s')) (threads s') = isum (token (promises s)) (threads s) ->
  NoDup (mWaiter s') -> (forall u, u ∈ mWaiter s' -> ungranted s' u) ->
  (forall u q, u <> t -> threads s !! u = Some q -> promise_ok s' u q) ->
  promise_ok s' t b -> handoff_ok s' b -> Inv s'.
Proof.
  intros H Ha Hka Hca Hcb Hpt Ht Hc Hk Hn Hq Hpo Hpb Hh.
  pose proof (sum_insert counted _ _ _ b Ha) as Hs.
  split; rewrite ?Ht.
  - rewrite Hc, (inv_count _ H). lia.
  - rewrite <- Ht, Hk, (inv_token _ H), Ht. f_equal. lia.
  - done.
  - done.
  - intros u q Hu. destruct (lookup_move _ _ _ _ _ _ Ha Hu) as [[-> ->]|[Hne Hu']]; [done|].
    by apply Hpo.
  - intros u q Hu. destruct (lookup_move _ _ _ _ _ _ Ha Hu) as [[-> ->]|[Hne Hu']]; [done|].
    by eapply (handoff_others s t a).
  - rewrite length_insert. apply (inv_bound _ H).
Qed.

Lemma inv_unlock_loop s t :
  Inv s -> threads s !! t = Some ULoop -> Inv (unlock_loop P t s).
Proof.
  intros H Ha. pose proof (inv_promise _ H _ _ Ha) as Hp. simpl in Hp.
  unfold unlock_loop. destruct (getNextWaiter P (mWaiter s)) as [[n q]|] eqn:E.
  - pose proof (next_perm _ _ _ E) as Hperm.
    pose proof (inv_nodup _ H) as Hnd. rewrite Hperm in Hnd. apply NoDup_cons in Hnd as [Hn Hnd].
    assert (Hung : forall u, u ∈ mWaiter s -> ungranted (goto t (UWrite n) (dequeue n q s)) u).
    { intros u Hu%(inv_queue _ H). eapply ungranted_other; [done..| |exact Hu].
      intros ->. by apply (ungranted_waits _ _ _ Ha) in Hu. }
    eapply (inv_token_step s _ t ULoop (UWrite n)); eauto; simpl; try done.
    + pose proof (tokens_move (promises s) (promises s) _ t ULoop (UWrite n) Ha ltac:(done)) as Hk.
      simpl in Hk. lia.
    + intros u Hu. apply Hung. rewrite Hperm. by right.
    + intros u p _ Hu. by apply (inv_promise _ H) in Hu.
    + split; [done|]. apply Hung. rewrite Hperm. by left.
  - eapply (inv_move_same s _ t ULoop ULoop); eauto; simpl; auto.
Qed.

Lemma inv_set_value_write s t n :
  Inv s -> threads s !! t = Some (UWrite n) -> Inv (set_value_write t n s).
Proof.
  intros H Ha. pose proof (inv_promise _ H _ _ Ha) as Hp. simpl in Hp.
  destruct (inv_handoff _ H _ _ Ha) as [Hnq Hun].
  pose proof Hun as (p & d & Hn & Hw & Hd & Hnr).
  assert (Hne : n <> t) by (intros ->; by apply (ungranted_waits _ _ _ Ha) in Hun).
  unfold set_value_write. rewrite Hd. simpl.
  set (d' := LFD (continuationPtr d) (Val stateless)).
  set (s' := goto t (UExch n) (set_promise n d' s)).
  assert (Hung : forall u, ungranted s u -> ungranted s' u).
  { intros u Hu. destruct (decide (u = n)) as [->|Hun'].
    - exists p, d'. simpl. by rewrite lookup_insert_eq, list_lookup_insert_ne by congruence.
    - eapply (ungranted_other s s' t); [done|by simpl; rewrite lookup_insert_ne| |exact Hu].
      intros ->. by apply (ungranted_waits _ _ _ Ha) in Hu. }
  assert (Htk : token (promises s) n p = 0 /\ token (<[n := d']> (promises s)) n p = 0).
  { unfold token. rewrite lookup_insert_eq, Hd.
    destruct p; try done; rewrite !decide_False; try done;
      unfold granted, d'; intros [=]; subst; done. }
  eapply (inv_token_step s s' t (UWrite n) (UExch n)); eauto; simpl; try done.
  - pose proof (tokens_grant (promises s) _ t n (UWrite n) (UExch n) p d' ltac:(congruence) Ha Hn eq_refl).
    simpl in *. lia.
  - apply (inv_nodup _ H).
  - intros u Hu. by apply Hung, (inv_queue _ H).
  - intros u q Hu Hq. pose proof (inv_promise _ H _ _ Hq) as Hok.
    destruct (decide (u = n)) as [->|]; [|eapply promise_ok_same; [|done]; simpl; by rewrite lookup_insert_ne].
    simplify_eq. unfold promise_ok in *. simpl. rewrite lookup_insert_eq.
    destruct p; try done; rewrite Hd in Hok; destruct Hok as [[=->]|[v [=->]]]; try done;
      right; by eexists.
  - by rewrite lookup_insert_ne.
  - split; [done|]. split; [by apply Hung|]. by rewrite lookup_insert_eq.
Qed.

Lemma inv_set_value_on_ready s t n :
  Inv s -> threads s !! t = Some (UExch n) -> Inv (set_value_on_ready t n s).
Proof.
  intros H Ha. pose proof (inv_promise _ H _ _ Ha) as Hp. simpl in Hp.
  destruct (inv_handoff _ H _ _ Ha) as (Hnq & Hun & Hv).
  pose proof Hun as (p & [ptr va] & Hn & Hw & Hd & Hnr). simpl in Hnr.
  rewrite Hd in Hv. simplify_eq/=.
  assert (Hne : n <> t) by (intros ->; by apply (ungranted_waits _ _ _ Ha) in Hun).
  unfold set_value_on_ready. rewrite Hd.
  assert (Hstep : forall b, counted b = 0 -> promise_ok (goto t b (set_promise n granted s)) t b ->
    token (promises s) t b + token (<[n := granted]> (promises s)) n p = 1 ->
    token (promises s) t b = token (<[n := granted]> (promises s)) t b ->
    handoff_ok (goto t b (set_promise n granted s)) b ->
    token (promises s) n p = 0 -> Inv (goto t b (set_promise n granted s))).
  { intros b Hcb Hpb Htb Htb' Hhb Hpn.
    eapply (inv_token_step s _ t (UExch n) b); eauto; simpl; try done.
    - pose proof (tokens_grant (promises s) _ t n (UExch n) b p granted
        ltac:(congruence) Ha Hn Htb') as Hk. simpl in Hk. lia.
    - apply (inv_nodup _ H).
    - intros u Hu. pose proof (inv_queue _ H _ Hu) as Hug.
      eapply (ungranted_other s _ t); [done| | |exact Hug].
      + simpl. rewrite lookup_insert_ne; [done|]. by intros ->.
      + intros ->. by apply (ungranted_waits _ _ _ Ha) in Hug.
    - intros u q Hu Hq. pose proof (inv_promise _ H _ _ Hq) as Hok.
      destruct (decide (u = n)) as [->|];
        [|eapply promise_ok_same; [|done]; simpl; by rewrite lookup_insert_ne].
      simplify_eq. unfold promise_ok. simpl. rewrite lookup_insert_eq.
      destruct p; try done; by left. }
  assert (Hp0 : token (promises s) n p = 0).
  { unfold token. destruct p; try done; rewrite decide_False; try done;
      rewrite Hd; unfold granted; congruence. }
  pose proof (inv_promise _ H _ _ Hn) as Hok. simpl in *.
  destruct p; try done; simpl in Hok; rewrite Hd in Hok;
    destruct Hok as [[=]|[v [= -> _]]]; try done; cbn; apply Hstep; try done; simpl;
    rewrite ?lookup_insert_eq, ?lookup_insert_ne by done; try done.
  by rewrite list_lookup_insert_ne by congruence.
Qed.

Lemma inv_call_continuation s t c :
  Inv s -> threads s !! t = Some (UCall c) -> Inv (call_continuation t c s).
Proof.
  intros H Ha. pose proof (inv_promise _ H _ _ Ha) as Hp. simpl in Hp.
  destruct (inv_handoff _ H _ _ Ha) as [Hb Hg].
  assert (Hne : c <> t) by congruence.
  unfold call_continuation. rewrite Hb.
  assert (Ha' : <[c := LResume]> (threads s) !! t = Some (UCall c))
    by (by rewrite list_lookup_insert_ne).
  pose proof (sum_insert counted _ _ _ LResume Hb) as Hs1.
  pose proof (sum_insert counted _ _ _ Idle Ha') as Hs2.
  pose proof (tokens_move (promises s) (promises s) _ c LBlocked LResume Hb ltac:(done)) as Hk1.
  pose proof (tokens_move (promises s) (promises s) _ t (UCall c) Idle Ha' ltac:(done)) as Hk2.
  simpl in *.
  split; simpl.
  - rewrite (inv_count _ H). lia.
  - pose proof (inv_token _ H). lia.
  - apply (inv_nodup _ H).
  - intros u Hu. pose proof (inv_queue _ H _ Hu) as Hug.
    assert (u <> c). { intros ->. destruct Hug as (? & ? & _ & _ & ? & ?). by simplify_eq. }
    assert (u <> t) by (intros ->; by apply (ungranted_waits _ _ _ Ha) in Hug).
    eapply (ungranted_other (goto c LResume s) _ t); [done..|].
    by eapply (ungranted_other s _ c).
  - intros u q Hu. destruct (lookup_move _ _ _ _ _ _ Ha' Hu) as [[-> ->]|[Hne1 Hu1]]; [done|].
    destruct (lookup_move _ _ _ _ _ _ Hb Hu1) as [[-> ->]|[Hne2 Hu2]]; [done|].
    by apply (inv_promise _ H).
  - intros u q Hu. destruct (lookup_move _ _ _ _ _ _ Ha' Hu) as [[-> ->]|[Hne1 Hu1]]; [done|].
    destruct (lookup_move _ _ _ _ _ _ Hb Hu1) as [[-> ->]|[Hne2 Hu2]]; [done|].
    by eapply (handoff_others s t).
  - rewrite !length_insert. apply (inv_bound _ H).
Qed.

Lemma inv_next l s s' : Inv s -> next P l s = Some s' -> Inv s'.
Proof.
  destruct l as [t a]. intros H Hn. unfold next in Hn.
  destruct (threads s !! t) as [p|] eqn:Ha; [|done].
  assert (Hout : forall b, ~ waits p -> p <> LBlocked -> counted p = counted b ->
    token (promises s) t p = token (promises s) t b -> promise_ok s t b ->
    (forall s', handoff_ok s' b) -> Inv (goto t b s)).
  { intros b ? ? ? ? ? ?. eapply (inv_move_same s _ t p b); eauto. }
  pose proof (inv_promise _ H _ _ Ha) as Hp.
  destruct a as [| | |sp].
  - destruct p; simplify_eq/=; apply Hout; simpl; try done; auto.
  - destruct p; simplify_eq/=; apply Hout; simpl; try done; auto.
  - destruct p; simplify_eq/=; apply Hout; simpl; try done; auto.
  - destruct p; simplify_eq/=;
      eauto using inv_cas_spin, inv_lock_add, inv_enqueue, inv_ready, inv_suspend, inv_resume,
        inv_try_lock, inv_unlock_sub, inv_unlock_loop, inv_set_value_write,
        inv_set_value_on_ready, inv_call_continuation.
Qed.

Lemma inv_reachable n s :
  (Z.of_nat n < 2 ^ 31)%Z -> reachable (next P) (init n) s -> Inv s.
Proof. intros Hn. apply invariant_reachable; [apply inv_next|by apply inv_init]. Qed.
End preservation.

(** ** Properties *)

Section properties.
Context (P : Policy) `{!PolicyLaws P}.
Implicit Types (s : state).

(** Inside the critical section: from the success of [lock] or
    [try_lock] until [unlock] has decremented the counter. *)
Definition owns (p : pc) : Prop := p = Held \/ p = USub.

(** C1: mutual exclusion. Whatever the number of threads, the policy and
    the interleaving of [lock], [try_lock] and [unlock], at most one thread
    owns the mutex. *)
Theorem mutual_exclusion n s t u p q :
  (Z.of_nat n < 2 ^ 31)%Z -> reachable (next P) (init n) s ->
  threads s !! t = Some p -> threads s !! u = Some q -> owns p -> owns q -> t = u.
Proof.
  intros Hn Hr Hp Hq Ho Ho'. pose proof (inv_reachable P n s Hn Hr) as H.
  eapply token_unique; eauto; destruct Ho as [->| ->], Ho' as [->| ->]; done.
Qed.

(** C3: no assertion of the mutex or of its waiters' promises fails, no
    waiter's promise is used after its [lock] call returned, and the 32-bit
    counter never leaves [[0, n]]: it equals the number of threads that hold
    the mutex or wait for it. *)
Theorem mutex_safe n s :
  (Z.of_nat n < 2 ^ 31)%Z -> reachable (next P) (init n) s ->
  (forall t f, threads s !! t <> Some (Fault f)) /\
  (0 <= mCountOfWaiter s <= Z.of_nat n)%Z /\
  mCountOfWaiter s = Z.of_nat (sum_list_with counted (threads s)).
Proof.
  intros Hn Hr. pose proof (inv_reachable P n s Hn Hr) as H.
  assert (Hlen : length (threads s) = n).
  { apply (invariant_reachable (next P) (fun s => length (threads s) = n) (init n) s);
      [|by simpl; rewrite length_replicate|done].
    clear. intros [t a] s s' <- Hn. unfold next in Hn.
    destruct (threads s !! t) as [p|]; [|done].
    destruct a; destruct p; simplify_eq/=;
      unfold lock_spin, lock_add, try_lock, with_promise, await_ready, await_suspend,
        await_resume, unlock_sub, unlock_loop, set_value_write, set_value_on_ready,
        call_continuation, compare_exchange_weak;
      repeat case_match; simplify_eq/=; by rewrite ?length_insert. }
  split; [|split; [|apply (inv_count _ H)]].
  - intros t f Hf. apply (inv_promise _ H _ _ Hf).
  - rewrite (inv_count _ H), <- Hlen.
    pose proof (sum_const_le counted (threads s) counted_le_1). lia.
Qed.

(** [try_lock] never waits: it takes the mutex exactly when nobody
    holds or waits for it and the weak exchange does not fail spuriously, and
    otherwise changes nothing but the caller's place. *)
Theorem try_lock_spec n s t sp :
  (Z.of_nat n < 2 ^ 31)%Z -> reachable (next P) (init n) s ->
  threads s !! t = Some TCas ->
  next P (t, AStep sp) s =
    Some (if (mCountOfWaiter s =? 0)%Z && negb sp
          then goto t Held (set_count 1 s) else goto t Idle s) /\
  ((exists u q, threads s !! u = Some q /\ owns q) -> mCountOfWaiter s <> 0%Z).
Proof.
  intros Hn Hr Ht. pose proof (inv_reachable P n s Hn Hr) as H.
  pose proof (count_bound _ H) as Hb. split.
  - simpl. rewrite Ht. simpl. f_equal. unfold try_lock, compare_exchange_weak.
    destruct ((mCountOfWaiter s =? 0)%Z && negb sp); [done|].
    by destruct (Z.leb_spec 0 (mCountOfWaiter s)); [|lia].
  - intros (u & q & Hu & Ho). rewrite (inv_count _ H).
    pose proof (sum_lookup_le counted _ _ _ Hu) as Hs.
    destruct Ho as [->| ->]; simpl in Hs; lia.
Qed.
End properties.

(** Those served, then those in the container: the order of arrival. *)
Definition in_order (s : state) : Prop := added s = taken s ++ mWaiter s.

(** C4: under [FairPolicy] the mutex is handed to the waiters in the order
    in which they entered the container: those served so far, followed by those
    in the container, are exactly those that entered, in that order. *)
Theorem fair_policy_fifo n s :
  reachable (next FairPolicy.policy) (init n) s -> in_order s.
Proof.
  apply (invariant_reachable _ in_order); [|done].
  clear. unfold in_order. intros [t a] s s' H Hn. unfold next in Hn.
  destruct (threads s !! t) as [p|]; [|done].
  destruct a; destruct p; simplify_eq/=;
    unfold lock_spin, lock_add, try_lock, with_promise, await_ready, await_suspend,
      await_resume, unlock_sub, unlock_loop, set_value_write, set_value_on_ready,
      call_continuation, compare_exchange_weak; simpl;
    unfold FairPolicy.addToWaiter, FairPolicy.getNextWaiter;
    repeat case_match; simplify_eq/=; rewrite ?H, <- ?app_assoc; try done.
  all: match goal with E : mWaiter _ = _ |- _ => by rewrite E end.
Qed.

(** ** Witnesses: two threads, the second one is suspended *)

Module Sample.
(** Thread 0 locks; thread 1 spins, enqueues itself and is suspended. *)
Definition labels : list (nat * action) :=
  [(0, ALock); (0, AStep false); (1, ALock)] ++ replicate 12 (1, AStep false).

Definition contended (P : Policy) : state :=
  default (init 2) (run (next P) labels (init 2)).

(** Thread 0 holds the mutex and thread 1 is about to try. *)
Definition trying (P : Policy) : state :=
  default (init 2) (run (next P) [(0, ALock); (0, AStep false); (1, ATryLock)] (init 2)).
End Sample.

Lemma mutual_exclusion_witness :
  threads (Sample.contended FairPolicy.policy) = [Held; LBlocked] /\
  forall u q, threads (Sample.contended FairPolicy.policy) !! u = Some q -> owns q -> u = 0.
Proof.
  split; [vm_compute; reflexivity|]. intros u q Hu Ho.
  apply (mutual_exclusion FairPolicy.policy 2 (Sample.contended FairPolicy.policy) u 0 q Held);
    [lia|exists Sample.labels; vm_compute; reflexivity|exact Hu|vm_compute; reflexivity|exact Ho|left; vm_compute; reflexivity].
Defined.

Lemma mutex_safe_witness :
  mCountOfWaiter (Sample.contended HighThroughputPolicy.policy) = 2%Z /\
  forall t f, threads (Sample.contended HighThroughputPolicy.policy) !! t <> Some (Fault f).
Proof.
  split; [vm_compute; reflexivity|].
  apply (mutex_safe HighThroughputPolicy.policy 2);
    [lia|exists Sample.labels; vm_compute; reflexivity].
Defined.

Lemma try_lock_spec_witness :
  threads (Sample.trying FairPolicy.policy) = [Held; TCas] /\
  next FairPolicy.policy (1, AStep false) (Sample.trying FairPolicy.policy) =
    Some (goto 1 Idle (Sample.trying FairPolicy.policy)).
Proof.
  split; [vm_compute; reflexivity|].
  apply (try_lock_spec FairPolicy.policy 2 (Sample.trying FairPolicy.policy) 1 false);
    [lia|exists [(0, ALock); (0, AStep false); (1, ATryLock)]; vm_compute; reflexivity|vm_compute; reflexivity].
Defined.

Lemma fair_policy_fifo_witness :
  added (Sample.contended FairPolicy.policy) = [1] /\
  in_order (Sample.contended FairPolicy.policy).
Proof.
  split; [vm_compute; reflexivity|]. apply (fair_policy_fifo 2). exists Sample.labels. vm_compute; reflexivity.
Defined.
