(* ===== verification/MutexProgress.v ===== *)
(** * The mutex: no wake-up is lost

    Every waiter that has not been granted the mutex is in the container or
    is being served, and from every reachable state every waiter can still
    get the mutex, whatever the policy. *)

From S2P Require Import Prelude Future Mutex MutexInv.

#[local] Arguments Nat.min : simpl never.

(** Somebody is going to grant the mutex to [t]. *)
Definition owed (s : state) (t : nat) : Prop :=
  t ∈ mWaiter s \/
  (exists u, threads s !! u = Some (UWrite t) \/ threads s !! u = Some (UExch t)).

Definition hands_over (p : pc) : Prop :=
  match p with UWrite _ | UExch _ | UCall _ => True | _ => False end.

Record Served (s : state) : Prop := {
  served_ungranted t : ungranted s t -> owed s t;
  served_blocked t : threads s !! t = Some LBlocked -> promises s !! t = Some granted ->
                     exists u, threads s !! u = Some (UCall t);
}.

Section served.
Context (P : Policy) `{!PolicyLaws P}.
Implicit Types (s : state).

Lemma lookup_keep (l : list pc) t u a b q :
  l !! t = Some a -> a <> q -> l !! u = Some q -> <[t := b]> l !! u = Some q.
Proof. intros Ha Hne Hu. rewrite list_lookup_insert_ne; [done|]. intros ->. congruence. Qed.

Lemma served_move s s' t a b :
  Served s -> threads s !! t = Some a -> ~ hands_over a ->
  threads s' = <[t := b]> (threads s) ->
  (forall u, u ∈ mWaiter s -> u ∈ mWaiter s') ->
  (forall j, j <> t -> promises s' !! j = promises s !! j) ->
  (ungranted s' t -> ungranted s t \/ t ∈ mWaiter s') ->
  (b = LBlocked -> promises s' !! t <> Some granted) ->
  Served s'.
Proof.
  intros H Ha Hno Ht Hq Hp Hug Hbl.
  assert (Howed : forall u, owed s u -> owed s' u).
  { intros u [Hu|[w Hw]]; [left; auto|right]. exists w. rewrite Ht.
    destruct Hw as [Hw|Hw]; [left|right];
      (eapply lookup_keep; [exact Ha| |exact Hw]; intros ->; by apply Hno). }
  split.
  - intros u Hu. destruct (decide (u = t)) as [->|Hne].
    { destruct (Hug Hu) as [Hu'|Hu']; [|by left]. by apply Howed, (served_ungranted _ H). }
    apply Howed, (served_ungranted _ H). destruct Hu as (p & d & Hu & Hw & Hd & Hn).
    rewrite Ht, list_lookup_insert_ne in Hu by congruence. rewrite Hp in Hd by done.
    by exists p, d.
  - intros u Hu Hg. rewrite Ht in Hu.
    destruct (lookup_move _ _ _ _ _ _ Ha Hu) as [[-> <-]|[Hne Hu']]; [by destruct (Hbl eq_refl)|].
    rewrite Hp in Hg by done. destruct (served_blocked _ H _ Hu' Hg) as [w Hw].
    exists w. rewrite Ht. eapply lookup_keep; [exact Ha| |exact Hw]. intros ->. by apply Hno.
Qed.

(** The same for a thread that only moves. *)
Lemma served_goto s t a b c :
  Served s -> threads s !! t = Some a -> ~ hands_over a -> ~ waits b ->
  Served (goto t b (set_count c s)).
Proof.
  intros H Ha Hno Hw. eapply (served_move s _ t a b); eauto.
  - intros (p & d & Hp & Hwp & _). simpl in Hp.
    rewrite list_lookup_insert_eq in Hp by eauto using lookup_lt_Some. by simplify_eq.
  - by intros ->.
Qed.

Lemma set_count_id s : set_count (mCountOfWaiter s) s = s.
Proof. by destruct s. Qed.

Lemma served_goto' s t a b :
  Served s -> threads s !! t = Some a -> ~ hands_over a -> ~ waits b -> Served (goto t b s).
Proof.
  intros. rewrite <- (set_count_id s). eapply served_goto; eauto.
Qed.

(** The moves that may leave the thread waiting on its promise. *)
Lemma served_own_promise s s' t a b :
  Served s -> threads s !! t = Some a -> ~ hands_over a ->
  threads s' = <[t := b]> (threads s) -> mWaiter s' = mWaiter s ->
  (forall j, j <> t -> promises s' !! j = promises s !! j) ->
  (waits b -> ungranted s t /\ promises s' !! t <> Some granted) ->
  Served s'.
Proof.
  intros H Ha Hno Ht Hq Hp Hw. eapply (served_move s s' t a b); eauto.
  - by rewrite Hq.
  - intros (p & d & Hpt & Hwp & _). rewrite Ht in Hpt.
    rewrite list_lookup_insert_eq in Hpt by eauto using lookup_lt_Some. simplify_eq.
    left. by apply Hw.
  - intros ->. by apply Hw.
Qed.

Lemma served_ready s t :
  Inv s -> Served s -> threads s !! t = Some LReady ->
  Served (with_promise t s (fun d => await_ready t d s)).
Proof.
  intros HI H Ha. destruct (inv_promise _ HI _ _ Ha) as [Hp|[v Hp]];
    rewrite (with_promise_some _ _ _ _ Hp).
  - change (Served (goto t LResume s)). eapply served_goto'; eauto; simpl; tauto.
  - change (Served (goto t LSuspend s)). eapply (served_own_promise s _ t LReady LSuspend); eauto. simpl. rewrite Hp.
    intros _. split; [|discriminate]. by exists LReady, (LFD EmptyHandle v).
Qed.

Lemma served_suspend s t :
  Inv s -> Served s -> threads s !! t = Some LSuspend ->
  Served (with_promise t s (fun d => await_suspend t d s)).
Proof.
  intros HI H Ha.
  destruct (inv_promise _ HI _ _ Ha) as [Hp|[v Hp]]; rewrite (with_promise_some _ _ _ _ Hp);
    unfold await_suspend, LightFuture.await_suspend; rewrite suspend_branches; simpl.
  - eapply (served_own_promise s _ t LSuspend LResume); eauto; simpl; try done.
    intros j Hj. by rewrite lookup_insert_ne.
  - eapply (served_own_promise s _ t LSuspend LBlocked); eauto; simpl.
    + intros j Hj. by rewrite lookup_insert_ne.
    + intros _. rewrite lookup_insert_eq. split; [|discriminate].
      by exists LSuspend, (LFD EmptyHandle v).
Qed.

Lemma served_enqueue s t :
  Served s -> threads s !! t = Some LPush -> Served (goto t LReady (enqueue P t s)).
Proof.
  intros H Ha. eapply (served_move s _ t LPush LReady); eauto; simpl.
  - intros u Hu. apply in_add; [done|]. by right.
  - intros _. right. apply in_add; [done|]. by left.
Qed.

Lemma served_unlock_loop s t :
  Served s -> threads s !! t = Some ULoop -> Served (unlock_loop P t s).
Proof.
  intros H Ha. unfold unlock_loop. destruct (getNextWaiter P (mWaiter s)) as [[n q]|] eqn:E;
    [|eapply served_goto'; eauto; simpl; tauto].
  apply next_perm in E. split; simpl.
  - intros u Hu.
    assert (Ho : owed s u).
    { apply (served_ungranted _ H). destruct Hu as (p & d & Hp & Hw & Hd). exists p, d.
      simpl in *. destruct (lookup_move _ _ _ _ _ _ Ha Hp) as [[-> ->]|[_ Hp']]; done. }
    destruct Ho as [Ho|[w Hw]].
    + rewrite E in Ho. apply elem_of_cons in Ho as [->|Ho]; [right; exists t|by left].
      simpl. rewrite list_lookup_insert_eq by eauto using lookup_lt_Some. by left.
    + right. exists w. simpl.
      destruct Hw as [Hw|Hw]; [left|right]; by eapply lookup_keep.
  - intros u Hu Hg. destruct (lookup_move _ _ _ _ _ _ Ha Hu) as [[-> ?]|[_ Hu']]; [done|].
    destruct (served_blocked _ H _ Hu' Hg) as [w Hw]. exists w. by eapply lookup_keep.
Qed.

Lemma served_set_value_write s t n :
  Inv s -> Served s -> threads s !! t = Some (UWrite n) -> Served (set_value_write t n s).
Proof.
  intros HI H Ha. destruct (inv_handoff _ HI _ _ Ha) as [_ Hun].
  pose proof Hun as (p & d & Hn & Hw & Hd & Hnr).
  assert (Hnt : n <> t) by (intros ->; by apply (ungranted_waits _ _ _ Ha) in Hun).
  unfold set_value_write. rewrite Hd. split; simpl.
  - intros u Hu.
    assert (Ho : owed s u).
    { apply (served_ungranted _ H). destruct (decide (u = n)) as [->|Hne]; [done|].
      destruct Hu as (q & d' & Hq & Hw' & Hd' & Hr). simpl in *.
      rewrite lookup_insert_ne in Hd' by done. exists q, d'.
      by destruct (lookup_move _ _ _ _ _ _ Ha Hq) as [[-> ->]|[_ Hq']]. }
    destruct Ho as [Ho|[w Hw']]; [by left|right].
    destruct (decide (w = t)) as [->|Hne].
    + exists t. simpl. rewrite list_lookup_insert_eq by eauto using lookup_lt_Some.
      right. rewrite Ha in Hw'. destruct Hw' as [[=->]|[=]]. done.
    + exists w. simpl. by rewrite list_lookup_insert_ne.
  - intros u Hu Hg. destruct (lookup_move _ _ _ _ _ _ Ha Hu) as [[-> ?]|[_ Hu']]; [done|].
    destruct (decide (u = n)) as [->|Hne].
    { rewrite lookup_insert_eq in Hg. unfold granted in Hg. congruence. }
    rewrite lookup_insert_ne in Hg by done.
    destruct (served_blocked _ H _ Hu' Hg) as [w Hw']. exists w. by eapply lookup_keep.
Qed.

Lemma served_set_value_on_ready s t n :
  Inv s -> Served s -> threads s !! t = Some (UExch n) -> Served (set_value_on_ready t n s).
Proof.
  intros HI H Ha. destruct (inv_handoff _ HI _ _ Ha) as (_ & Hun & Hv).
  pose proof Hun as (p & [ptr va] & Hn & Hw & Hd & Hnr). rewrite Hd in Hv. simplify_eq/=.
  assert (Hnt : n <> t) by (intros ->; by apply (ungranted_waits _ _ _ Ha) in Hun).
  assert (Hstep : forall b, (p = LBlocked -> b = UCall n) -> ~ waits b ->
    Served (goto t b (set_promise n granted s))).
  { intros b Hb Hwb. split; simpl.
    - intros u (q & d' & Hq & Hw' & Hd' & Hr). simpl in *.
      destruct (decide (u = n)) as [->|Hne].
      { rewrite lookup_insert_eq in Hd'. by simplify_eq. }
      rewrite lookup_insert_ne in Hd' by done.
      destruct (lookup_move _ _ _ _ _ _ Ha Hq) as [[-> ->]|[Hut Hq']]; [done|].
      assert (Hu : ungranted s u) by (by exists q, d').
      destruct (served_ungranted _ H _ Hu) as [Ho|[w Hw2]]; [by left|right].
      exists w. simpl. rewrite list_lookup_insert_ne; [done|]. intros ->. rewrite Ha in Hw2.
      destruct Hw2 as [Hw2|Hw2]; congruence.
    - intros u Hu Hg.
      destruct (lookup_move _ _ _ _ _ _ Ha Hu) as [[-> <-]|[Hut Hu']]; [by destruct Hwb|].
      destruct (decide (u = n)) as [->|Hne].
      { simplify_eq. rewrite Hb by done. exists t.
        by rewrite list_lookup_insert_eq by eauto using lookup_lt_Some. }
      rewrite lookup_insert_ne in Hg by done.
      destruct (served_blocked _ H _ Hu' Hg) as [w Hw2]. exists w. by eapply lookup_keep. }
  unfold set_value_on_ready. rewrite Hd.
  pose proof (inv_promise _ HI _ _ Hn) as Hok. simpl in *.
  destruct p; try done; simpl in Hok; rewrite Hd in Hok;
    destruct Hok as [[=]|[v [= -> _]]]; try done; cbn; apply Hstep; simpl; first [tauto|congruence].
Qed.

Lemma served_call_continuation s t c :
  Inv s -> Served s -> threads s !! t = Some (UCall c) -> Served (call_continuation t c s).
Proof.
  intros HI H Ha. destruct (inv_handoff _ HI _ _ Ha) as [Hb Hg].
  unfold call_continuation. rewrite Hb.
  assert (Ha' : <[c := LResume]> (threads s) !! t = Some (UCall c)) by (by eapply lookup_keep).
  split; simpl.
  - intros u (q & d' & Hq & Hw' & Hd' & Hr). simpl in *.
    destruct (lookup_move _ _ _ _ _ _ Ha' Hq) as [[-> ->]|[_ Hq1]]; [done|].
    destruct (lookup_move _ _ _ _ _ _ Hb Hq1) as [[-> ->]|[_ Hq2]]; [done|].
    destruct (served_ungranted _ H u) as [Ho|[w Hw2]]; [by exists q, d'|by left|right].
    exists w. destruct Hw2 as [Hw2|Hw2]; [left|right];
      (eapply lookup_keep; [exact Ha'|done|]; by eapply lookup_keep).
  - intros u Hu Hgu.
    destruct (lookup_move _ _ _ _ _ _ Ha' Hu) as [[-> ?]|[_ Hu1]]; [done|].
    destruct (lookup_move _ _ _ _ _ _ Hb Hu1) as [[-> ?]|[Huc Hu2]]; [done|].
    destruct (served_blocked _ H _ Hu2 Hgu) as [w Hw2]. exists w.
    eapply lookup_keep; [exact Ha'|congruence|]. by eapply lookup_keep.
Qed.

Lemma served_next l s s' :
  Inv s /\ Served s -> next P l s = Some s' -> Inv s' /\ Served s'.
Proof.
  intros [HI H] Hn. split; [by eapply inv_next|].
  destruct l as [t a]. unfold next in Hn.
  destruct (threads s !! t) as [p|] eqn:Ha; [|done].
  assert (Hgo : forall b, ~ hands_over p -> ~ waits b -> Served (goto t b s))
    by (intros; eapply served_goto'; eauto).
  assert (Hgo' : forall b c, ~ hands_over p -> ~ waits b -> Served (goto t b (set_count c s)))
    by (intros; eapply served_goto; eauto).
  destruct a as [| | |sp]; try (destruct p; simplify_eq/=; apply Hgo; simpl; tauto).
  destruct p; simplify_eq/=;
    eauto using served_enqueue, served_ready, served_suspend, served_unlock_loop,
      served_set_value_write, served_set_value_on_ready, served_call_continuation.
  - unfold lock_spin, compare_exchange_weak.
    repeat case_match; simplify_eq; first [apply Hgo|apply Hgo']; simpl; tauto.
  - unfold lock_add. case_match; [apply Hgo'; simpl; tauto|].
    eapply (served_own_promise s _ t LAdd LPush); eauto; simpl; try tauto.
    intros j Hj. by rewrite lookup_insert_ne.
  - pose proof (inv_promise _ HI _ _ Ha) as Hp. simpl in Hp.
    rewrite (with_promise_some _ _ _ _ Hp).
    change (Served (goto t Held (drop_promise t s))).
    eapply (served_own_promise s _ t LResume Held); eauto; simpl; try tauto.
    intros j Hj. by rewrite lookup_delete_ne.
  - unfold try_lock, compare_exchange_weak.
    repeat case_match; simplify_eq; first [apply Hgo|apply Hgo']; simpl; tauto.
  - unfold unlock_sub. repeat case_match; apply Hgo'; simpl; tauto.
Qed.

Lemma served_reachable n s :
  (Z.of_nat n < 2 ^ 31)%Z -> reachable (next P) (init n) s -> Inv s /\ Served s.
Proof.
  intros Hn. apply (invariant_reachable _ (fun s => Inv s /\ Served s)); [apply served_next|].
  split; [by apply inv_init|]. split; simpl.
  - intros t (p & d & Hp & Hw & _). simpl in Hp.
    apply lookup_replicate in Hp as [-> _]. done.
  - intros t Hp. by apply lookup_replicate in Hp as [? _].
Qed.
End served.

(** ** From every reachable state, every waiter can get the mutex *)

(** A thread inside [lock] that the counter already counts. *)
Definition locking (p : pc) : Prop :=
  match p with LPush | LReady | LSuspend | LBlocked | LResume => True | _ => False end.

(** Steps a thread may still take before it is out of the mutex again. *)
Definition steps_left (p : pc) : nat :=
  match p with
  | LPush => 12 | LReady => 11 | LSuspend => 10 | LBlocked => 9 | LResume => 8
  | Held => 7 | USub => 6 | ULoop => 5 | UWrite _ => 4 | UExch _ => 3 | UCall _ => 2
  | _ => 0
  end.

Definition work (s : state) : nat := sum_list_with steps_left (threads s).

Section progress.
Context (P : Policy) `{!PolicyLaws P}.
Implicit Types (s : state).

(** Thread [t] is locking or has succeeded. *)
Definition on_the_way s (t : nat) : Prop :=
  exists p, threads s !! t = Some p /\ (locking p \/ p = Held).

(** Not the begin of another [lock] or [try_lock]. *)
Definition no_arrival (l : nat * action) : Prop :=
  match snd l with ALock | ATryLock => False | _ => True end.

Definition productive s (t : nat) : Prop :=
  exists l s', no_arrival l /\ next P l s = Some s' /\ work s' < work s /\ on_the_way s' t.

(** Thread [u] moves to a place with less work left. *)
Lemma productive_move s s' t p u q b l :
  threads s !! t = Some p -> locking p -> threads s !! u = Some q ->
  no_arrival l -> next P l s = Some s' -> threads s' = <[u := b]> (threads s) ->
  steps_left b < steps_left q -> (u = t -> locking b \/ b = Held) -> productive s t.
Proof.
  intros Ht Hl Hu Hna Hn Hs' Hlt Hb. exists l, s'. split; [done|]. split; [done|]. split.
  - unfold work. rewrite Hs'. pose proof (sum_insert steps_left _ _ _ b Hu). lia.
  - unfold on_the_way. rewrite Hs'. destruct (decide (u = t)) as [->|Hne].
    + exists b. rewrite list_lookup_insert_eq by eauto using lookup_lt_Some. auto.
    + exists p. rewrite list_lookup_insert_ne by done. auto.
Qed.

(** When the unlocking thread finds the container empty, a waiter is on
    its way into it. *)
Lemma empty_container s t p u :
  Inv s -> Served s -> threads s !! t = Some p -> locking p ->
  threads s !! u = Some ULoop -> mWaiter s = [] -> p = LPush.
Proof.
  intros HI HS Ht Hl Hu Hq.
  assert (Hu1 : token (promises s) u ULoop = 1) by done.
  assert (Hno : forall w r, threads s !! w = Some r -> r <> ULoop -> token (promises s) w r <> 1).
  { intros w r Hw Hr Hk. assert (w = u) as -> by (eapply (token_unique s); eauto). congruence. }
  assert (Hug : ~ ungranted s t).
  { intros Hut. destruct (served_ungranted _ HS _ Hut) as [Hin|(w & [Hw|Hw])].
    - rewrite Hq in Hin. by apply not_elem_of_nil in Hin.
    - by apply (Hno _ _ Hw).
    - by apply (Hno _ _ Hw). }
  pose proof (inv_promise _ HI _ _ Ht) as Hp. pose proof (Hno _ _ Ht) as Hnt.
  destruct p; try done; exfalso.
  - destruct Hp as [Hp|[v Hp]]; [|by apply Hug; eexists _, _].
    apply Hnt; [done|]. simpl. by rewrite decide_True.
  - destruct Hp as [Hp|[v Hp]]; [|by apply Hug; eexists _, _].
    apply Hnt; [done|]. simpl. by rewrite decide_True.
  - destruct Hp as [Hp|[v Hp]]; [|by apply Hug; eexists _, _].
    destruct (served_blocked _ HS _ Ht Hp) as [w Hw]. by apply (Hno _ _ Hw).
  - by apply Hnt.
Qed.

(** The unlocking thread calls the continuation of a waiter. *)
Lemma productive_call s t p u w :
  Inv s -> threads s !! t = Some p -> locking p -> threads s !! u = Some (UCall w) -> productive s t.
Proof.
  intros HI Ht Hl Hu. destruct (inv_handoff _ HI _ _ Hu) as [Hb Hg].
  assert (Hut : u <> t) by (intros ->; rewrite Ht in Hu; by injection Hu as ->).
  exists (u, AStep false), (goto u Idle (goto w LResume s)).
  split; [done|]. split; [simpl; rewrite Hu; simpl; unfold call_continuation; by rewrite Hb|].
  assert (Hu' : <[w := LResume]> (threads s) !! u = Some (UCall w)) by (by eapply lookup_keep).
  split.
  - unfold work. simpl. pose proof (sum_insert steps_left _ _ _ LResume Hb).
    pose proof (sum_insert steps_left _ _ _ Idle Hu'). simpl in *. lia.
  - unfold on_the_way. simpl. rewrite list_lookup_insert_ne by done.
    destruct (decide (w = t)) as [->|Hne].
    + exists LResume. rewrite list_lookup_insert_eq by eauto using lookup_lt_Some.
      split; [done|]. by left.
    + exists p. rewrite list_lookup_insert_ne by done. auto.
Qed.

(** It takes the next waiter, or the waiter on its way comes into the container. *)
Lemma productive_loop s t p u :
  Inv s -> Served s -> threads s !! t = Some p -> locking p -> threads s !! u = Some ULoop -> productive s t.
Proof.
  intros HI HS Ht Hl Hu. destruct (getNextWaiter P (mWaiter s)) as [[n c]|] eqn:E.
  - eapply (productive_move s (goto u (UWrite n) (dequeue n c s)) t p u ULoop (UWrite n) (u, AStep false));
      simpl; try done; [rewrite Hu; simpl; unfold unlock_loop; by rewrite E|lia|].
    intros ->. rewrite Ht in Hu. by injection Hu as ->.
  - assert (Hq : mWaiter s = []).
    { destruct (mWaiter s) as [|x c] eqn:Eq; [done|].
      destruct (next_nonempty (x :: c)) as [y Hy]; congruence. }
    pose proof (empty_container s t p u HI HS Ht Hl Hu Hq) as ->.
    eapply (productive_move s (goto t LReady (enqueue P t s)) t LPush t LPush LReady (t, AStep false));
      simpl; [done..|by rewrite Ht|done|lia|auto].
Qed.

Lemma always_productive s t p :
  Inv s -> Served s -> threads s !! t = Some p -> locking p -> productive s t.
Proof.
  intros HI HS Ht Hl.
  assert (Hex : 0 < isum (token (promises s)) (threads s)).
  { rewrite (inv_token _ HI). pose proof (sum_lookup_le counted _ _ _ Ht).
    destruct p; try done; simpl in *; lia. }
  apply isum_pos in Hex as (u & q & Hu & Hk).
  pose proof (inv_promise _ HI _ _ Hu) as Hp.
  assert (Hmove : forall b s' a, no_arrival (u, a) -> next P (u, a) s = Some s' -> threads s' = <[u := b]> (threads s) ->
    steps_left b < steps_left q -> (u = t -> locking b \/ b = Held) -> productive s t)
    by (intros; by eapply productive_move).
  assert (Hut : ~ locking q -> forall X : Prop, u = t -> X)
    by (intros Hq X ->; exfalso; apply Hq; congruence).
  destruct q; simpl in Hk, Hp; try lia.
  - destruct Hp as [Hp|[v Hp]]; [|rewrite decide_False in Hk by (rewrite Hp; discriminate); lia].
    eapply (Hmove LResume (goto u LResume s) (AStep false)); simpl; [done| |done|lia|auto].
    rewrite Hu. simpl. by rewrite (with_promise_some _ _ _ _ Hp).
  - destruct Hp as [Hp|[v Hp]]; [|rewrite decide_False in Hk by (rewrite Hp; discriminate); lia].
    eapply (Hmove LResume (goto u LResume (set_promise u granted s)) (AStep false)); simpl; [done| |done|lia|auto].
    rewrite Hu. simpl. rewrite (with_promise_some _ _ _ _ Hp).
    unfold await_suspend, LightFuture.await_suspend. by rewrite suspend_branches.
  - eapply (Hmove Held (goto u Held (drop_promise u s)) (AStep false)); simpl; [done| |done|lia|auto].
    rewrite Hu. simpl. by rewrite (with_promise_some _ _ _ _ Hp).
  - eapply (Hmove USub (goto u USub s) AUnlock); simpl; [done|by rewrite Hu|done|lia|].
    apply Hut; simpl; tauto.
  - unfold next in Hmove. rewrite Hu in Hmove.
    unfold thread_step, unlock_sub in Hmove.
    pose proof (fun b s' => Hmove b s' (AStep false) I) as Hm. clear Hmove. rename Hm into Hmove. simpl in Hmove.
    repeat case_match; (eapply Hmove; [done..|simpl; lia|apply Hut; simpl; tauto]).
  - by eapply productive_loop.
  - unfold next in Hmove. rewrite Hu in Hmove. unfold thread_step, set_value_write in Hmove.
    pose proof (fun b s' => Hmove b s' (AStep false) I) as Hm. clear Hmove. rename Hm into Hmove. simpl in Hmove.
    case_match; (eapply Hmove; [done..|simpl; lia|apply Hut; simpl; tauto]).
  - unfold next in Hmove. rewrite Hu in Hmove. unfold thread_step, set_value_on_ready in Hmove.
    pose proof (fun b s' => Hmove b s' (AStep false) I) as Hm. clear Hmove. rename Hm into Hmove. simpl in Hmove.
    destruct (promises s !! p0) as [d|];
      [destruct (LightFuture.on_ready d) as [[[]| |] ?]|];
      (eapply Hmove; [done..|simpl; lia|apply Hut; simpl; tauto]).
  - by eapply productive_call.
Qed.

(** C2: no wake-up is ever lost. From every reachable state in which a
    thread waits inside [lock] there is a continuation in which it gets the
    mutex; it needs only the holders' [unlock] calls and steps of threads
    that are already inside the mutex's code. *)
Theorem every_waiter_can_acquire n s t p :
  (Z.of_nat n < 2 ^ 31)%Z -> reachable (next P) (init n) s ->
  threads s !! t = Some p -> locking p ->
  exists ls s', Forall no_arrival ls /\ run (next P) ls s = Some s' /\
    threads s' !! t = Some Held.
Proof.
  intros Hn Hr Ht Hl.
  assert (Hw : on_the_way s t) by (exists p; auto). clear p Ht Hl.
  remember (work s) as w eqn:E. revert s Hr E Hw.
  induction (lt_wf w) as [w _ IH]. intros s Hr -> (p & Ht & [Hl| ->]);
    [|by exists [], s].
  destruct (served_reachable P n s Hn Hr) as [HI HS].
  destruct (always_productive s t p HI HS Ht Hl) as (l & s1 & Hna & Hs1 & Hlt & Hw1).
  destruct (IH (work s1) Hlt s1) as (ls & s' & Hls & Hrun & Hh); [|done|done|].
  - eapply reachable_step; [done|]. by exists l.
  - exists (l :: ls), s'. split; [by constructor|]. split; [|done]. simpl. by rewrite Hs1.
Qed.
End progress.

Lemma every_waiter_can_acquire_witness :
  threads (Sample.contended HighThroughputPolicy.policy) !! 1 = Some LBlocked /\
  exists ls s', Forall no_arrival ls /\
    run (next HighThroughputPolicy.policy) ls (Sample.contended HighThroughputPolicy.policy) = Some s' /\
    threads s' !! 1 = Some Held.
Proof.
  split; [vm_compute; reflexivity|].
  apply (every_waiter_can_acquire HighThroughputPolicy.policy 2 _ 1 LBlocked);
    [lia|exists Sample.labels; vm_compute; reflexivity|vm_compute; reflexivity|exact I].
Defined.
