(* ===== verification/BufferedChannel.v ===== *)
(** * [channel.hpp]: [BufferedChannel]

    The multi producer, multi consumer channel: its members, the critical
    section of every operation, and all interleavings of any number of threads
    that push, pop, close and resize. The critical sections are atomic because
    [mMutex] is held; the notifications after them and the waits are separate
    steps. Futures live on the stack of the call that waits on them. *)

From S2P Require Import Prelude Future.

Local Open Scope co_scope.

(** ** The channel's members *)

Record channel (T : Type) : Type := Channel {
  mReadyData : list T;
  mWaitingSender : list nat;
  mWaitingReceiver : list nat;
  mSenderClosed : bool;
  mReceiverClosed : bool;
  mMaxQueueSize : nat;
}.
Arguments Channel {T} _ _ _ _ _ _.
Arguments mReadyData {T} _.
Arguments mWaitingSender {T} _.
Arguments mWaitingReceiver {T} _.
Arguments mSenderClosed {T} _.
Arguments mReceiverClosed {T} _.
Arguments mMaxQueueSize {T} _.

Definition empty {A} (q : list A) : bool :=
  match q with [] => true | _ => false end.

Section critical_sections.
Context {T : Type}.
Implicit Types (c : channel T).

Definition make : channel T := Channel [] [] [] false false 2.

Definition set_ready (q : list T) : M (channel T) unit := fun c =>
  (Ret tt, Channel q (mWaitingSender c) (mWaitingReceiver c) (mSenderClosed c)
                   (mReceiverClosed c) (mMaxQueueSize c)).
Definition set_senders (q : list nat) : M (channel T) unit := fun c =>
  (Ret tt, Channel (mReadyData c) q (mWaitingReceiver c) (mSenderClosed c)
                   (mReceiverClosed c) (mMaxQueueSize c)).
Definition set_receivers (q : list nat) : M (channel T) unit := fun c =>
  (Ret tt, Channel (mReadyData c) (mWaitingSender c) q (mSenderClosed c)
                   (mReceiverClosed c) (mMaxQueueSize c)).
Definition set_sender_closed : M (channel T) unit := fun c =>
  (Ret tt, Channel (mReadyData c) (mWaitingSender c) (mWaitingReceiver c) true
                   (mReceiverClosed c) (mMaxQueueSize c)).
Definition set_receiver_closed : M (channel T) unit := fun c =>
  (Ret tt, Channel (mReadyData c) (mWaitingSender c) (mWaitingReceiver c) (mSenderClosed c)
                   true (mMaxQueueSize c)).
Definition set_max (n : nat) : M (channel T) unit := fun c =>
  (Ret tt, Channel (mReadyData c) (mWaitingSender c) (mWaitingReceiver c) (mSenderClosed c)
                   (mReceiverClosed c) n).

(** [pop(Queue&)]: front and pop_front of a queue that must not be empty. *)
Definition pop_queue {A} (queue : list A) (set : list A -> M (channel T) unit) : M (channel T) A :=
  match queue with
  | [] => crash AssertFailed
  | x :: queue => do! set queue in ret x
  end.

(** What the locked part of [push] decides: the receiver to be served, and
    the result put into [self], if any. *)
Definition push_locked (self : nat) (val : T) : M (channel T) (option nat * option bool) :=
  let! c := get_st in
  do! assert_ (negb (mSenderClosed c)) in
  if negb (empty (mWaitingReceiver c)) then
    do! assert_ (negb (mReceiverClosed c)) in
    let! receiver := pop_queue (mWaitingReceiver c) set_receivers in
    ret (Some receiver, Some true)
  else if mReceiverClosed c then
    do! assert_ (empty (mWaitingReceiver c)) in
    ret (None, Some false)
  else
    do! set_ready (mReadyData c ++ [val]) in
    let! c := get_st in
    if mMaxQueueSize c <=? length (mReadyData c) then
      do! set_senders (mWaitingSender c ++ [self]) in ret (None, None)
    else ret (None, Some true).

(** The locked part of [pop]: the sender to be released, and the result put
    into [self], if any. *)
Definition pop_locked (self : nat) : M (channel T) (option nat * option (option T)) :=
  let! c := get_st in
  do! assert_ (negb (mReceiverClosed c)) in
  if negb (empty (mReadyData c)) then
    let! x := pop_queue (mReadyData c) set_ready in
    if negb (empty (mWaitingSender c)) then
      let! sender := pop_queue (mWaitingSender c) set_senders in
      ret (Some sender, Some (Some x))
    else ret (None, Some (Some x))
  else if mSenderClosed c then
    do! assert_ (empty (mWaitingSender c)) in
    ret (None, Some None)
  else
    do! set_receivers (mWaitingReceiver c ++ [self]) in ret (None, None).

(** The locked part of [closeSender]: the receivers to be told. *)
Definition closeSender_locked : M (channel T) (list nat) :=
  let! c := get_st in
  do! assert_ (negb (mSenderClosed c)) in
  do! assert_ (empty (mWaitingSender c)) in
  do! set_sender_closed in
  if negb (empty (mWaitingReceiver c)) then
    do! assert_ (empty (mReadyData c)) in
    do! set_receivers [] in
    ret (mWaitingReceiver c)
  else ret [].

(** The locked part of [closeReceiver]: the senders to be told. *)
Definition closeReceiver_locked : M (channel T) (list nat) :=
  let! c := get_st in
  do! assert_ (negb (mReceiverClosed c)) in
  do! assert_ (empty (mWaitingReceiver c)) in
  do! set_receiver_closed in
  do! set_senders [] in
  ret (mWaitingSender c).

(** [for (i = mMaxQueueSize; i < cnt; i++)] of [setMaxQueueSize], with [n]
    iterations left. *)
Fixpoint wake_senders (n : nat) (notify : list nat) : M (channel T) (list nat) :=
  match n with
  | 0 => ret notify
  | S n =>
      let! c := get_st in
      if empty (mWaitingSender c) then ret notify
      else let! sender := pop_queue (mWaitingSender c) set_senders in
           wake_senders n (notify ++ [sender])
  end.

Definition setMaxQueueSize_locked (cnt : nat) : M (channel T) (list nat) :=
  let! c := get_st in
  do! assert_ (0 <? cnt) in
  let! notify := if length (mReadyData c) <? cnt
                 then wake_senders (cnt - mMaxQueueSize c) [] else ret [] in
  do! set_max cnt in
  ret notify.

(** [~BufferedChannel()] of a build with assertions. *)
Definition destructor : M (channel T) unit :=
  let! c := get_st in
  do! assert_ (mSenderClosed c) in
  do! assert_ (mReceiverClosed c) in
  do! assert_ (empty (mWaitingSender c)) in
  assert_ (empty (mWaitingReceiver c)).
End critical_sections.

(** ** Threads *)

Inductive call (T : Type) : Type :=
  | KPush (v : T)
  | KPop
  | KCloseSender
  | KCloseReceiver
  | KSetMax (n : nat).
Arguments KPush {T} _.
Arguments KPop {T}.
Arguments KCloseSender {T}.
Arguments KCloseReceiver {T}.
Arguments KSetMax {T} _.

Inductive pc (T : Type) : Type :=
  | CIdle
  | CEnter (k : call T)               (** before taking [mMutex] *)
  | CNotifyReceiver (r : nat) (v : T) (** [push]: before [receiver->set_value(val)] *)
  | CNotifySender (s : nat)           (** [pop]: before [sender->set_value(true)] *)
  | CNotifyEmpty (l : list nat)       (** [closeSender]: receivers still to be told *)
  | CNotifyFalse (l : list nat)       (** [closeReceiver], [setMaxQueueSize]: senders ... *)
  | CAwaitSend                        (** [push]: in [co::await(self)] *)
  | CAwaitRecv                        (** [pop]: in [co::await(self)] *)
  | CFault (f : fault).
Arguments CIdle {T}.
Arguments CEnter {T} _.
Arguments CNotifyReceiver {T} _ _.
Arguments CNotifySender {T} _.
Arguments CNotifyEmpty {T} _.
Arguments CNotifyFalse {T} _.
Arguments CAwaitSend {T}.
Arguments CAwaitRecv {T}.
Arguments CFault {T} _.

(** What the calls return. *)
Inductive cresult (T : Type) : Type :=
  | PushRet (o : outcome bool)
  | PopRet (o : outcome (option T)).
Arguments PushRet {T} _.
Arguments PopRet {T} _.

Record state (T : Type) : Type := St {
  chan : channel T;
  sfut : gmap nat (LightFutureData nat bool);          (** [self] of a thread in [push] *)
  rfut : gmap nat (LightFutureData nat (option T));    (** [self] of a thread in [pop] *)
  threads : list (pc T);
  results : list (nat * cresult T);  (** history: what the calls have returned *)
  accepted : list T;                 (** history: values taken in by [push] *)
  delivered : list T;                (** history: values assigned to a receiver *)
}.
Arguments St {T} _ _ _ _ _ _ _.
Arguments chan {T} _.
Arguments sfut {T} _.
Arguments rfut {T} _.
Arguments threads {T} _.
Arguments results {T} _.
Arguments accepted {T} _.
Arguments delivered {T} _.

Section system.
Context {T : Type}.
Implicit Types (s : state T).

(** [n] threads and a fresh channel of maximal size [maxSize], as
    [makeBufferedChannel(maxSize)] leaves it. *)
Definition init (n maxSize : nat) : state T :=
  St (Channel [] [] [] false false maxSize) ∅ ∅ (replicate n CIdle) [] [] [].

Definition goto (t : nat) (p : pc T) s : state T :=
  St (chan s) (sfut s) (rfut s) (<[t := p]> (threads s)) (results s) (accepted s) (delivered s).
Definition set_chan (c : channel T) s : state T :=
  St c (sfut s) (rfut s) (threads s) (results s) (accepted s) (delivered s).
Definition put_sfut (t : nat) (d : LightFutureData nat bool) s : state T :=
  St (chan s) (<[t := d]> (sfut s)) (rfut s) (threads s) (results s) (accepted s) (delivered s).
Definition put_rfut (t : nat) (d : LightFutureData nat (option T)) s : state T :=
  St (chan s) (sfut s) (<[t := d]> (rfut s)) (threads s) (results s) (accepted s) (delivered s).
Definition note (a d : list T) s : state T :=
  St (chan s) (sfut s) (rfut s) (threads s) (results s) (accepted s ++ a) (delivered s ++ d).
(** The call returns and its [self] is destroyed. *)
Definition return_ (t : nat) (r : cresult T) s : state T :=
  St (chan s) (delete t (sfut s)) (delete t (rfut s)) (<[t := CIdle]> (threads s))
     (results s ++ [(t, r)]) (accepted s) (delivered s).

(** A future that is constructed, and perhaps set, by its own thread. *)
Definition self_future {A} (v : option A) : LightFutureData nat A :=
  match v with
  | None => LightFuture.make
  | Some a => snd (LightFuture.set_value a LightFuture.make)
  end.

Definition enter_push (t : nat) (v : T) s : state T :=
  match push_locked t v (chan s) with
  | (Ret (Some r, b), c) =>
      note [v] [v] (goto t (CNotifyReceiver r v) (put_sfut t (self_future b) (set_chan c s)))
  | (Ret (None, Some false), c) =>
      goto t CAwaitSend (put_sfut t (self_future (Some false)) (set_chan c s))
  | (Ret (None, b), c) =>
      note [v] [] (goto t CAwaitSend (put_sfut t (self_future b) (set_chan c s)))
  | (Throw _, c) => goto t CIdle (set_chan c s)
  | (Crash f, c) => goto t (CFault f) (set_chan c s)
  end.

Definition enter_pop (t : nat) s : state T :=
  match pop_locked t (chan s) with
  | (Ret (w, r), c) =>
      let d := match r with Some (Some x) => [x] | _ => [] end in
      let p := match w with Some w => CNotifySender w | None => CAwaitRecv end in
      note [] d (goto t p (put_rfut t (self_future r) (set_chan c s)))
  | (Throw _, c) => goto t CIdle (set_chan c s)
  | (Crash f, c) => goto t (CFault f) (set_chan c s)
  end.

Definition enter_locked (t : nat) (m : M (channel T) (list nat)) (p : list nat -> pc T) s : state T :=
  match m (chan s) with
  | (Ret l, c) => goto t (p l) (set_chan c s)
  | (Throw _, c) => goto t CIdle (set_chan c s)
  | (Crash f, c) => goto t (CFault f) (set_chan c s)
  end.

Definition enter (t : nat) (k : call T) s : state T :=
  match k with
  | KPush v => enter_push t v s
  | KPop => enter_pop t s
  | KCloseSender => enter_locked t closeSender_locked CNotifyEmpty s
  | KCloseReceiver => enter_locked t closeReceiver_locked CNotifyFalse s
  | KSetMax n => enter_locked t (setMaxQueueSize_locked n) CNotifyFalse s
  end.

(** [w->set_value(v)] by thread [t], which then goes on at [p]. *)
Definition notify_receiver (t w : nat) (v : option T) (p : pc T) s : state T :=
  match rfut s !! w with
  | None => goto t (CFault UseAfterFree) s
  | Some d => match LightFuture.set_value v d with
              | (Crash f, d) => goto t (CFault f) (put_rfut w d s)
              | (_, d) => goto t p (put_rfut w d s)
              end
  end.

Definition notify_sender (t w : nat) (v : bool) (p : pc T) s : state T :=
  match sfut s !! w with
  | None => goto t (CFault UseAfterFree) s
  | Some d => match LightFuture.set_value v d with
              | (Crash f, d) => goto t (CFault f) (put_sfut w d s)
              | (_, d) => goto t p (put_sfut w d s)
              end
  end.

Definition thread_step (t : nat) (p : pc T) s : option (state T) :=
  match p with
  | CIdle | CFault _ => None
  | CEnter k => Some (enter t k s)
  | CNotifyReceiver r v => Some (notify_receiver t r (Some v) CAwaitSend s)
  | CNotifySender w => Some (notify_sender t w true CAwaitRecv s)
  | CNotifyEmpty [] | CNotifyFalse [] => Some (goto t CIdle s)
  | CNotifyEmpty (r :: l) => Some (notify_receiver t r None (CNotifyEmpty l) s)
  | CNotifyFalse (w :: l) => Some (notify_sender t w false (CNotifyFalse l) s)
  | CAwaitSend =>
      match sfut s !! t ≫= LightFuture.await_contract with
      | Some o => Some (return_ t (PushRet o) s)
      | None => None
      end
  | CAwaitRecv =>
      match rfut s !! t ≫= LightFuture.await_contract with
      | Some o => Some (return_ t (PopRet o) s)
      | None => None
      end
  end.

Inductive action : Type := ACall (k : call T) | AStep.

Definition next (l : nat * action) s : option (state T) :=
  let '(t, a) := l in
  match threads s !! t with
  | None => None
  | Some p => match a, p with
              | ACall k, CIdle => Some (goto t (CEnter k) s)
              | ACall _, _ => None
              | AStep, _ => thread_step t p s
              end
  end.

(** ** The contract

    Several senders and receivers share the channel; the last sender calls
    [closeSender] and the last receiver calls [closeReceiver]: nobody pushes
    (pops) during or after it. *)

Definition pushing (p : pc T) : bool :=
  match p with
  | CEnter (KPush _) | CNotifyReceiver _ _ | CAwaitSend | CEnter KCloseSender => true
  | _ => false
  end.

Definition popping (p : pc T) : bool :=
  match p with
  | CEnter KPop | CNotifySender _ | CAwaitRecv | CEnter KCloseReceiver => true
  | _ => false
  end.

Definition nobody (f : pc T -> bool) s : bool := forallb (fun p => negb (f p)) (threads s).

Definition closing (f : pc T -> bool) s : bool := existsb f (threads s).

Definition is_close_sender (p : pc T) : bool :=
  match p with CEnter KCloseSender => true | _ => false end.
Definition is_close_receiver (p : pc T) : bool :=
  match p with CEnter KCloseReceiver => true | _ => false end.

Definition allowed (l : nat * action) s : bool :=
  match snd l with
  | ACall (KPush _) => negb (mSenderClosed (chan s)) && negb (closing is_close_sender s)
  | ACall KPop => negb (mReceiverClosed (chan s)) && negb (closing is_close_receiver s)
  | ACall KCloseSender => negb (mSenderClosed (chan s)) && nobody pushing s
  | ACall KCloseReceiver => negb (mReceiverClosed (chan s)) && nobody popping s
  | ACall (KSetMax n) => 0 <? n
  | AStep => true
  end.

(** The channel used as it asks to be. *)
Definition next_ok (l : nat * action) s : option (state T) :=
  if allowed l s then next l s else None.
End system.
Arguments action : clear implicits.
