(* ===== verification/BufferedInv.v ===== *)
(** * [BufferedChannel]: invariant and theorems

    Each waiting call is referenced exactly once, either by the channel's
    waiting queue or by the thread that is about to notify it; this one
    equation gives that no future is set twice or too late and that no
    wake-up is lost. *)

From S2P Require Import Prelude Future BufferedChannel.

Abbreviation occ l t := (count_occ Nat.eq_dec l t).

Section refs.
Context {T : Type}.
Implicit Types (s : state T) (p : pc T) (l : list (pc T)).

(** The senders (receivers) a thread has taken out of the queue and not yet
    notified. *)
Definition sender_targets p : list nat :=
  match p with CNotifySender w => [w] | CNotifyFalse l => l | _ => [] end.
Definition receiver_targets p : list nat :=
  match p with CNotifyReceiver r _ => [r] | CNotifyEmpty l => l | _ => [] end.

Definition awaits_send p : bool := match p with CAwaitSend => true | _ => false end.
Definition awaits_recv p : bool := match p with CAwaitRecv => true | _ => false end.

(** 1 when thread [t] waits on a future that is not ready, else 0. *)
Definition blocked {A} (aw : pc T -> bool) (fut : gmap nat (LightFutureData nat A)) l (t : nat) : nat :=
  match l !! t, fut !! t with
  | Some p, Some d => if aw p && negb (LightFuture.is_ready d) then 1 else 0
  | _, _ => 0
  end.

(** How often thread [t] is referenced. *)
Definition refs (q : list nat) (tg : pc T -> list nat) l (t : nat) : nat :=
  occ q t + sum_list_with (fun p => occ (tg p) t) l.

Lemma blocked_other {A} aw (fut fut' : gmap nat (LightFutureData nat A)) l t b u :
  u <> t -> fut' !! u = fut !! u -> blocked aw fut' (<[t := b]> l) u = blocked aw fut l u.
Proof. intros Hne Hf. unfold blocked. by rewrite Hf, list_lookup_insert_ne by congruence. Qed.

Lemma blocked_self {A} aw (fut : gmap nat (LightFutureData nat A)) l t a b :
  l !! t = Some a ->
  blocked aw fut (<[t := b]> l) t =
  match fut !! t with Some d => if aw b && negb (LightFuture.is_ready d) then 1 else 0 | None => 0 end.
Proof. intros Ha. unfold blocked. by rewrite list_lookup_insert_eq by eauto using lookup_lt_Some. Qed.

Lemma blocked_le {A} aw (fut : gmap nat (LightFutureData nat A)) l t : blocked aw fut l t <= 1.
Proof. unfold blocked. repeat case_match; lia. Qed.

Lemma refs_move {A} aw (fut fut' : gmap nat (LightFutureData nat A)) q q' tg l t a b :
  l !! t = Some a ->
  (forall u, refs q tg l u = blocked aw fut l u) ->
  (forall u, occ q' u + occ (tg b) u + blocked aw fut l u =
             occ q u + occ (tg a) u + blocked aw fut' (<[t := b]> l) u) ->
  forall u, refs q' tg (<[t := b]> l) u = blocked aw fut' (<[t := b]> l) u.
Proof.
  intros Ha H Hu u. specialize (H u). specialize (Hu u). unfold refs in *.
  pose proof (sum_insert (fun p => occ (tg p) u) l t a b Ha) as Hs. simpl in Hs. lia.
Qed.

(** A thread that is not waiting stays as it is, and refers to the same. *)
Lemma refs_quiet {A} aw (fut : gmap nat (LightFutureData nat A)) q tg l t a b :
  l !! t = Some a -> (forall u, refs q tg l u = blocked aw fut l u) ->
  tg b = tg a -> aw a = false -> aw b = false ->
  forall u, refs q tg (<[t := b]> l) u = blocked aw fut (<[t := b]> l) u.
Proof.
  intros Ha H Ht Haa Hab. eapply refs_move; [done..|].
  intros u. rewrite Ht. destruct (decide (u = t)) as [->|Hne].
  - rewrite (blocked_self aw fut l t a b Ha). unfold blocked. rewrite Ha, Haa, Hab.
    destruct (fut !! t); simpl; lia.
  - by rewrite (blocked_other aw fut fut l t b u).
Qed.
End refs.

(** Look up the queues, and compute the fields of an updated state. *)
Ltac queues :=
  repeat match goal with
  | H : mWaitingReceiver (chan ?s) = _ |- context [mWaitingReceiver (chan ?s)] => rewrite H
  | H : mWaitingSender (chan ?s) = _ |- context [mWaitingSender (chan ?s)] => rewrite H
  | H : mReadyData (chan ?s) = _ |- context [mReadyData (chan ?s)] => rewrite H
  end.

Ltac fields :=
  cbn [set_chan goto put_sfut put_rfut note return_ chan sfut rfut threads accepted delivered results
       mReadyData mWaitingSender mWaitingReceiver mSenderClosed mReceiverClosed mMaxQueueSize].

(** ** The invariant *)

Section invariant.
Context {T : Type}.
Implicit Types (s : state T) (p : pc T).

Definition set_to {A} (a : A) : LightFutureData nat A := LFD InvalidHandle (Val a).

(** The futures a thread has on its stack. *)
Definition futures_ok s (t : nat) p : Prop :=
  match p with
  | CAwaitSend => rfut s !! t = None /\
      (sfut s !! t = Some LightFuture.make \/ exists b, sfut s !! t = Some (set_to b))
  | CNotifyReceiver _ _ => rfut s !! t = None /\ sfut s !! t = Some (set_to true)
  | CAwaitRecv => sfut s !! t = None /\
      (rfut s !! t = Some LightFuture.make \/ exists r, rfut s !! t = Some (set_to r))
  | CNotifySender _ => sfut s !! t = None /\ exists x, rfut s !! t = Some (set_to (Some x))
  | CFault _ => False
  | _ => sfut s !! t = None /\ rfut s !! t = None
  end.

Record channel_ok (c : channel T) : Prop := {
  ok_receivers : mWaitingReceiver c <> [] ->
    mReadyData c = [] /\ mReceiverClosed c = false /\ mSenderClosed c = false;
  ok_senders : length (mWaitingSender c) <= length (mReadyData c);
  ok_closed : mReceiverClosed c = true -> mWaitingSender c = [];
  ok_max : 0 < mMaxQueueSize c;
}.

(** What the contract guarantees while an end is closed or being closed. *)
Record contract_ok s : Prop := {
  ok_no_push t p : mSenderClosed (chan s) = true -> threads s !! t = Some p -> pushing p = false;
  ok_no_pop t p : mReceiverClosed (chan s) = true -> threads s !! t = Some p -> popping p = false;
  ok_close_push t u p : threads s !! t = Some (CEnter KCloseSender) ->
    threads s !! u = Some p -> u <> t -> pushing p = false;
  ok_close_pop t u p : threads s !! t = Some (CEnter KCloseReceiver) ->
    threads s !! u = Some p -> u <> t -> popping p = false;
  ok_set_max t n : threads s !! t = Some (CEnter (KSetMax n)) -> 0 < n;
}.

Record Inv s : Prop := {
  inv_send u : refs (mWaitingSender (chan s)) sender_targets (threads s) u =
               blocked awaits_send (sfut s) (threads s) u;
  inv_recv u : refs (mWaitingReceiver (chan s)) receiver_targets (threads s) u =
               blocked awaits_recv (rfut s) (threads s) u;
  inv_futures t p : threads s !! t = Some p -> futures_ok s t p;
  inv_channel : channel_ok (chan s);
  inv_contract : contract_ok s;
  inv_fifo : accepted s = delivered s ++ mReadyData (chan s);
}.

Lemma occ_pos (l : list nat) t : t ∈ l -> 0 < occ l t.
Proof. intros H. by apply count_occ_In, list_elem_of_In. Qed.

Lemma sum_zero (f : pc T -> nat) l :
  (forall p, f p <= 0 \/ ~ p ∈ l) -> sum_list_with f l = 0.
Proof.
  induction l as [|p l IH]; intros H; simpl; [done|].
  rewrite IH; [destruct (H p) as [?|Hn]; [lia|destruct Hn; by left]|].
  intros q. destruct (H q) as [?|Hn]; [by left|right; intros Hq; apply Hn; by right].
Qed.

Lemma buffered_inv_init n m : 0 < m -> Inv (init (T := T) n m).
Proof.
  intros Hm.
  assert (Hr : forall t p, threads (init (T := T) n m) !! t = Some p -> p = CIdle).
  { intros t p Hp. by apply lookup_replicate in Hp as [-> _]. }
  split.
  - intros u. unfold refs, blocked. simpl. rewrite lookup_empty.
    rewrite sum_replicate. destruct (replicate n CIdle !! u); simpl; lia.
  - intros u. unfold refs, blocked. simpl. rewrite lookup_empty.
    rewrite sum_replicate. destruct (replicate n CIdle !! u); simpl; lia.
  - intros t p Hp. by rewrite (Hr t p Hp).
  - by split; simpl; try lia.
  - split; intros *; intros; repeat match goal with
      H : threads _ !! _ = Some _ |- _ => apply Hr in H end; by simplify_eq.
  - done.
Qed.

(** Whoever is in a waiting queue, or about to be notified, waits. *)
Lemma blocked_waits {A} aw (fut : gmap nat (LightFutureData nat A)) (l : list (pc T)) t :
  0 < blocked aw fut l t ->
  exists p d, l !! t = Some p /\ fut !! t = Some d /\ aw p = true /\ LightFuture.is_ready d = false.
Proof.
  unfold blocked. destruct (l !! t) as [p|], (fut !! t) as [d|]; try lia.
  destruct (aw p) eqn:Ea, (LightFuture.is_ready d) eqn:Er; simpl; try lia. eauto 10.
Qed.

Lemma queue_waits q tg aw {A} (fut : gmap nat (LightFutureData nat A)) (l : list (pc T)) t :
  (forall u, refs q tg l u = blocked aw fut l u) ->
  (t ∈ q \/ exists u p, l !! u = Some p /\ t ∈ tg p) ->
  exists p d, l !! t = Some p /\ fut !! t = Some d /\ aw p = true /\ LightFuture.is_ready d = false.
Proof.
  intros H Ht. apply blocked_waits. rewrite <- H. unfold refs.
  destruct Ht as [Ht|(u & p & Hu & Ht)].
  - apply occ_pos in Ht. lia.
  - apply occ_pos in Ht.
    pose proof (sum_lookup_le (fun p => occ (tg p) t) l u p Hu) as Hs. simpl in Hs. lia.
Qed.

(** ** Preservation *)

Definition is_enter p : bool := match p with CEnter _ => true | _ => false end.

(** Thread [t] goes from [a] to [b], which is not an entry, and closes an end
    only if that was its call. *)
Lemma contract_move s s' t a b :
  contract_ok s -> threads s !! t = Some a -> threads s' = <[t := b]> (threads s) ->
  is_enter b = false ->
  (pushing b = true -> pushing a = true) -> (popping b = true -> popping a = true) ->
  (mSenderClosed (chan s') = mSenderClosed (chan s) \/ a = CEnter KCloseSender /\ pushing b = false) ->
  (mReceiverClosed (chan s') = mReceiverClosed (chan s) \/ a = CEnter KCloseReceiver /\ popping b = false) ->
  contract_ok s'.
Proof.
  intros [H1 H2 H3 H4 H5] Ha Hs Hb Hpush Hpop Hcs Hcr.
  assert (Hlk : forall u p, threads s' !! u = Some p ->
            u = t /\ p = b \/ u <> t /\ threads s !! u = Some p).
  { intros u p. rewrite Hs. destruct (decide (u = t)) as [->|Hne].
    - rewrite list_lookup_insert_eq by eauto using lookup_lt_Some. intros [= ->]. by left.
    - rewrite list_lookup_insert_ne by done. by right. }
  split.
  - intros u p Hc Hp. destruct (Hlk u p Hp) as [[-> ->]|[Hne Hp']].
    + destruct Hcs as [Hcs|[-> Hf]]; [|done]. rewrite Hcs in Hc.
      specialize (H1 t a Hc Ha). destruct (pushing b); [|done]. rewrite Hpush in H1; done.
    + destruct Hcs as [Hcs|[-> Hf]]; [rewrite Hcs in Hc; eauto|eauto].
  - intros u p Hc Hp. destruct (Hlk u p Hp) as [[-> ->]|[Hne Hp']].
    + destruct Hcr as [Hcr|[-> Hf]]; [|done]. rewrite Hcr in Hc.
      specialize (H2 t a Hc Ha). destruct (popping b); [|done]. rewrite Hpop in H2; done.
    + destruct Hcr as [Hcr|[-> Hf]]; [rewrite Hcr in Hc; eauto|eauto].
  - intros u v p Hu Hv Hne. destruct (Hlk u _ Hu) as [[-> <-]|[Hne1 Hu']]; [done|].
    destruct (Hlk v _ Hv) as [[-> ->]|[Hne2 Hv']]; [|eauto].
    specialize (H3 u t a Hu' Ha Hne). destruct (pushing b); [|done]. rewrite Hpush in H3; done.
  - intros u v p Hu Hv Hne. destruct (Hlk u _ Hu) as [[-> <-]|[Hne1 Hu']]; [done|].
    destruct (Hlk v _ Hv) as [[-> ->]|[Hne2 Hv']]; [|eauto].
    specialize (H4 u t a Hu' Ha Hne). destruct (popping b); [|done]. rewrite Hpop in H4; done.
  - intros u n Hu. destruct (Hlk u _ Hu) as [[-> <-]|[Hne1 Hu']]; [done|eauto].
Qed.

Lemma futures_ext s s' u p :
  futures_ok s u p -> sfut s' !! u = sfut s !! u -> rfut s' !! u = rfut s !! u ->
  futures_ok s' u p.
Proof. intros H Hs Hr. destruct p; simpl in *; rewrite ?Hs, ?Hr; done. Qed.

(** A step of thread [t] alone: only its own futures change. *)
Lemma chan_inv_move s s' t a b :
  Inv s -> threads s !! t = Some a -> threads s' = <[t := b]> (threads s) ->
  (forall u, occ (mWaitingSender (chan s')) u + occ (sender_targets b) u +
               blocked awaits_send (sfut s) (threads s) u =
             occ (mWaitingSender (chan s)) u + occ (sender_targets a) u +
               blocked awaits_send (sfut s') (<[t := b]> (threads s)) u) ->
  (forall u, occ (mWaitingReceiver (chan s')) u + occ (receiver_targets b) u +
               blocked awaits_recv (rfut s) (threads s) u =
             occ (mWaitingReceiver (chan s)) u + occ (receiver_targets a) u +
               blocked awaits_recv (rfut s') (<[t := b]> (threads s)) u) ->
  (forall u p, u <> t -> threads s !! u = Some p -> futures_ok s' u p) ->
  futures_ok s' t b -> channel_ok (chan s') -> contract_ok s' ->
  accepted s' = delivered s' ++ mReadyData (chan s') ->
  Inv s'.
Proof.
  intros H Ha Hs Hsend Hrecv Hother Hself Hch Hco Hff. split; try done.
  - rewrite Hs. eapply refs_move; [done|apply H|done].
  - rewrite Hs. eapply refs_move; [done|apply H|done].
  - intros u p. rewrite Hs. destruct (decide (u = t)) as [->|Hne].
    + rewrite list_lookup_insert_eq by eauto using lookup_lt_Some. by intros [= <-].
    + rewrite list_lookup_insert_ne by done. eauto.
Qed.

Lemma future_set s t p :
  Inv s -> threads s !! t = Some p -> is_enter p = true -> sfut s !! t = None /\ rfut s !! t = None.
Proof. intros H Hp. pose proof (inv_futures _ H _ _ Hp). by destruct p. Qed.

(** Nobody but [t] is concerned by the reference equations of its own step. *)
Lemma own_refs {A} aw (fut fut' : gmap nat (LightFutureData nat A)) q q' (tg : pc T -> list nat) l t a b :
  l !! t = Some a ->
  (forall u, u <> t -> fut' !! u = fut !! u) ->
  (forall u, u <> t -> occ q' u + occ (tg b) u = occ q u + occ (tg a) u) ->
  occ q' t + occ (tg b) t + blocked aw fut l t =
    occ q t + occ (tg a) t + blocked aw fut' (<[t := b]> l) t ->
  forall u, occ q' u + occ (tg b) u + blocked aw fut l u =
            occ q u + occ (tg a) u + blocked aw fut' (<[t := b]> l) u.
Proof.
  intros Ha Hf Hq Ht u. destruct (decide (u = t)) as [->|Hne]; [done|].
  rewrite (blocked_other aw fut fut' l t b u) by eauto. specialize (Hq u Hne). lia.
Qed.

Ltac own_step Ha :=
  eapply chan_inv_move; fields;
  [ eassumption | exact Ha | reflexivity
  | apply own_refs; [exact Ha|intros; by simplify_map_eq| |]
  | apply own_refs; [exact Ha|intros; by simplify_map_eq| |]
  | intros u0 p0 Hne Hp0; eapply futures_ext;
      [eapply inv_futures; eassumption|simpl; by simplify_map_eq|simpl; by simplify_map_eq]
  | | | | ].

Ltac own_count Ha :=
  intros; queues; rewrite ?(blocked_self _ _ _ _ _ _ Ha); unfold blocked; rewrite ?Ha;
  simplify_map_eq; rewrite ?count_occ_app; simpl;
  try match goal with H : LightFuture.is_ready ?d = true |- _ => rewrite H end;
  repeat case_decide; repeat case_match;
  simplify_eq; try done; try lia.

Ltac own_contract Ha :=
  solve [ eapply contract_move; [eassumption|exact Ha|reflexivity|reflexivity|done|done|by left|by left]
        | eapply contract_move; [eassumption|exact Ha|reflexivity|reflexivity|done|done|by right|by left]
        | eapply contract_move; [eassumption|exact Ha|reflexivity|reflexivity|done|done|by left|by right] ].

Ltac own_channel :=
  constructor; simpl in *; rewrite ?length_app, ?length_drop; simpl; intros;
  first [ by auto | lia | congruence | intuition congruence | queues; by auto ].

Ltac own_fifo :=
  match goal with H : accepted ?s = _ |- accepted ?s ++ _ = _ =>
    rewrite H; queues; by rewrite ?app_nil_r, <- ?app_assoc end.

Ltac own_solve Ha :=
  own_step Ha;
  first [ own_contract Ha
        | solve [own_channel]
        | solve [own_count Ha]
        | solve [simpl; simplify_map_eq; eauto 6]
        | own_fifo
        | congruence
        | idtac ].

Lemma inv_enter_push s t v :
  Inv s -> threads s !! t = Some (CEnter (KPush v)) -> Inv (enter_push t v s).
Proof.
  intros H Ha. pose proof H as [_ _ _ [C1 C2 C3 C4] Hco Hff].
  destruct (future_set s t _ H Ha eq_refl) as [Hfs Hfr].
  assert (Hsc : mSenderClosed (chan s) = false).
  { destruct (mSenderClosed (chan s)) eqn:E; [|done]. by apply (ok_no_push _ Hco) in Ha. }
  unfold enter_push, push_locked. co_unfold. rewrite Hsc. simpl.
  destruct (mWaitingReceiver (chan s)) as [|r rs] eqn:Er; simpl.
  - destruct (mReceiverClosed (chan s)) eqn:Ec; simpl.
    + own_solve Ha.
    + destruct (mMaxQueueSize (chan s) <=? length (mReadyData (chan s) ++ [v])) eqn:El; simpl.
      * own_solve Ha.
      * own_solve Ha.
  - destruct (C1 ltac:(done)) as (C5 & C6 & C7). rewrite C6. simpl. own_solve Ha.
Qed.

Lemma inv_enter_pop s t :
  Inv s -> threads s !! t = Some (CEnter KPop) -> Inv (enter_pop t s).
Proof.
  intros H Ha. pose proof H as [_ _ _ [C1 C2 C3 C4] Hco Hff].
  destruct (future_set s t _ H Ha eq_refl) as [Hfs Hfr].
  assert (Hrc : mReceiverClosed (chan s) = false).
  { destruct (mReceiverClosed (chan s)) eqn:E; [|done]. by apply (ok_no_pop _ Hco) in Ha. }
  unfold enter_pop, pop_locked. co_unfold. rewrite Hrc. simpl.
  destruct (mReadyData (chan s)) as [|x xs] eqn:Er; simpl.
  - destruct (mSenderClosed (chan s)) eqn:Ec; simpl.
    + assert (Hws : mWaitingSender (chan s) = []) by (destruct (mWaitingSender (chan s)); [done|simpl in *; lia]).
      rewrite Hws. simpl. own_solve Ha.
    + own_solve Ha.
  - assert (Hwr : mWaitingReceiver (chan s) = []).
    { destruct (mWaitingReceiver (chan s)); [done|]. by destruct C1. }
    destruct (mWaitingSender (chan s)) as [|w ws] eqn:Ew; simpl.
    + own_solve Ha.
    + own_solve Ha.
Qed.

Lemma waiting_sender s t :
  Inv s -> (t ∈ mWaitingSender (chan s) \/
            exists u p, threads s !! u = Some p /\ t ∈ sender_targets p) ->
  threads s !! t = Some CAwaitSend /\ sfut s !! t = Some LightFuture.make.
Proof.
  intros H Ht. destruct (queue_waits _ _ _ _ _ t (inv_send _ H) Ht) as (p & d & Hp & Hd & Ha & Hr).
  destruct p; try done. split; [done|].
  destruct (inv_futures _ H _ _ Hp) as [_ [Hf|[b Hf]]]; rewrite Hf in *; by simplify_eq.
Qed.

Lemma waiting_receiver s t :
  Inv s -> (t ∈ mWaitingReceiver (chan s) \/
            exists u p, threads s !! u = Some p /\ t ∈ receiver_targets p) ->
  threads s !! t = Some CAwaitRecv /\ rfut s !! t = Some LightFuture.make.
Proof.
  intros H Ht. destruct (queue_waits _ _ _ _ _ t (inv_recv _ H) Ht) as (p & d & Hp & Hd & Ha & Hr).
  destruct p; try done. split; [done|].
  destruct (inv_futures _ H _ _ Hp) as [_ [Hf|[b Hf]]]; rewrite Hf in *; by simplify_eq.
Qed.

Lemma inv_close_sender s t :
  Inv s -> threads s !! t = Some (CEnter KCloseSender) ->
  Inv (enter t KCloseSender s).
Proof.
  intros H Ha. pose proof H as [_ _ _ [C1 C2 C3 C4] Hco Hff].
  destruct (future_set s t _ H Ha eq_refl) as [Hfs Hfr].
  assert (Hsc : mSenderClosed (chan s) = false).
  { destruct (mSenderClosed (chan s)) eqn:E; [|done]. by apply (ok_no_push _ Hco) in Ha. }
  assert (Hws : mWaitingSender (chan s) = []).
  { destruct (mWaitingSender (chan s)) as [|w ws] eqn:Ew; [done|].
    destruct (waiting_sender s w H) as [Hw _]; [left; rewrite Ew; by left|].
    assert (w <> t) by congruence. by apply (ok_close_push _ Hco t w) in Hw. }
  unfold enter, enter_locked, closeSender_locked. co_unfold. rewrite Hsc, Hws. simpl.
  destruct (mWaitingReceiver (chan s)) as [|r rs] eqn:Er; simpl.
  - own_solve Ha.
  - destruct (C1 ltac:(done)) as (C5 & C6 & C7). rewrite C5. simpl. own_solve Ha.
Qed.

Lemma inv_close_receiver s t :
  Inv s -> threads s !! t = Some (CEnter KCloseReceiver) ->
  Inv (enter t KCloseReceiver s).
Proof.
  intros H Ha. pose proof H as [_ _ _ [C1 C2 C3 C4] Hco Hff].
  destruct (future_set s t _ H Ha eq_refl) as [Hfs Hfr].
  assert (Hrc : mReceiverClosed (chan s) = false).
  { destruct (mReceiverClosed (chan s)) eqn:E; [|done]. by apply (ok_no_pop _ Hco) in Ha. }
  assert (Hws : mWaitingReceiver (chan s) = []).
  { destruct (mWaitingReceiver (chan s)) as [|w ws] eqn:Ew; [done|].
    destruct (waiting_receiver s w H) as [Hw _]; [left; rewrite Ew; by left|].
    assert (w <> t) by congruence. by apply (ok_close_pop _ Hco t w) in Hw. }
  unfold enter, enter_locked, closeReceiver_locked. co_unfold. rewrite Hrc, Hws. simpl.
  own_solve Ha.
Qed.

(** [setMaxQueueSize] releases the first waiting senders. *)
Lemma wake_senders_spec n acc (c : channel T) :
  wake_senders n acc c =
  (Ret (acc ++ take n (mWaitingSender c)),
   Channel (mReadyData c) (drop n (mWaitingSender c)) (mWaitingReceiver c)
           (mSenderClosed c) (mReceiverClosed c) (mMaxQueueSize c)).
Proof.
  revert acc c. induction n as [|n IH]; intros acc [rd ws wr sc rc m]; simpl; co_unfold.
  - by rewrite app_nil_r.
  - destruct ws as [|w ws]; simpl; [by rewrite app_nil_r|].
    unfold set_senders. simpl. rewrite IH. simpl. by rewrite <- app_assoc.
Qed.

Lemma inv_set_max s t n :
  Inv s -> threads s !! t = Some (CEnter (KSetMax n)) ->
  Inv (enter t (KSetMax n) s).
Proof.
  intros H Ha. pose proof H as [_ _ _ [C1 C2 C3 C4] Hco Hff].
  destruct (future_set s t _ H Ha eq_refl) as [Hfs Hfr].
  assert (Hn : 0 < n) by (by eapply ok_set_max).
  unfold enter, enter_locked, setMaxQueueSize_locked. co_unfold.
  replace (0 <? n) with true by (symmetry; by apply Nat.ltb_lt).
  destruct (length (mReadyData (chan s)) <? n); simpl; rewrite ?wake_senders_spec; simpl.
  - set (k := n - mMaxQueueSize (chan s)).
    assert (Hk : forall u, occ (drop k (mWaitingSender (chan s))) u + occ (take k (mWaitingSender (chan s))) u =
                           occ (mWaitingSender (chan s)) u).
    { intros u. rewrite <- (take_drop k (mWaitingSender (chan s))) at 3. rewrite count_occ_app. lia. }
    assert (Hd : length (drop k (mWaitingSender (chan s))) <= length (mWaitingSender (chan s)))
      by (rewrite length_drop; lia).
    assert (Hz : mWaitingSender (chan s) = [] -> drop k (mWaitingSender (chan s)) = [])
      by (intros ->; apply drop_nil).
    revert Hk Hd Hz. generalize (drop k (mWaitingSender (chan s))) (take k (mWaitingSender (chan s))).
    intros ws l Hk Hd Hz. pose proof (Hk t). own_solve Ha. intros u _. simpl. rewrite Hk. lia.
  - own_solve Ha.
Qed.

(** A set future wakes the thread that waits on it, and the reference to it
    is gone. *)
Lemma target_refs {A} aw (fut : gmap nat (LightFutureData nat A)) q (tg : pc T -> list nat) l t w v a b p :
  l !! t = Some a -> l !! w = Some p -> w <> t -> aw p = true -> aw b = false -> aw a = false ->
  fut !! w = Some LightFuture.make -> tg a = w :: tg b ->
  forall u, occ q u + occ (tg b) u + blocked aw fut l u =
            occ q u + occ (tg a) u + blocked aw (<[w := set_to v]> fut) (<[t := b]> l) u.
Proof.
  intros Ha Hw Hne Hp Hb Haa Hf Htg u. rewrite Htg. simpl.
  destruct (decide (u = w)) as [->|Huw].
  - destruct (Nat.eq_dec w w); [|done]. unfold blocked.
    rewrite list_lookup_insert_ne, Hw, lookup_insert_eq, Hf, Hp by done. simpl. lia.
  - destruct (Nat.eq_dec w u); [done|].
    destruct (decide (u = t)) as [->|Hut].
    + rewrite (blocked_self _ _ _ _ _ _ Ha), Hb. unfold blocked. rewrite Ha, Haa.
      rewrite lookup_insert_ne by done. destruct (fut !! t); simpl; lia.
    + rewrite (blocked_other aw fut) by (by rewrite ?lookup_insert_ne). lia.
Qed.

Lemma quiet_refs {A} aw (fut : gmap nat (LightFutureData nat A)) q (tg : pc T -> list nat) l t a b :
  l !! t = Some a -> tg b = tg a -> aw a = false ->
  (aw b = false \/ exists v, fut !! t = Some (set_to v)) ->
  forall u, occ q u + occ (tg b) u + blocked aw fut l u =
            occ q u + occ (tg a) u + blocked aw fut (<[t := b]> l) u.
Proof.
  intros Ha Htg Haa Hb. apply own_refs; [done|done|by rewrite Htg|].
  rewrite Htg, (blocked_self _ _ _ _ _ _ Ha). unfold blocked. rewrite Ha, Haa.
  destruct Hb as [Hb|[v Hb]]; [rewrite Hb|rewrite Hb]; destruct (fut !! t); simpl;
    rewrite ?andb_false_r; lia.
Qed.

Lemma inv_notify_receiver s t w v a b :
  Inv s -> threads s !! t = Some a -> receiver_targets a = w :: receiver_targets b ->
  sender_targets b = sender_targets a -> awaits_send a = false -> awaits_recv b = false ->
  awaits_recv a = false -> is_enter b = false -> is_enter a = false ->
  (pushing b = true -> pushing a = true) -> (popping b = true -> popping a = true) ->
  futures_ok s t b -> (awaits_send b = false \/ exists v, sfut s !! t = Some (set_to v)) ->
  Inv (notify_receiver t w v b s).
Proof.
  intros H Ha Htg Hts Has Hbr Har Hen Hen' Hpu Hpo Hfut Hset.
  destruct (waiting_receiver s w H) as [Hw Hfw].
  { right. exists t, a. rewrite Htg. split; [done|by left]. }
  assert (Hne : w <> t) by (intros ->; simplify_eq; by rewrite Ha in Hw; simplify_eq).
  unfold notify_receiver. rewrite Hfw. simpl.
  eapply chan_inv_move; fields; [exact H|exact Ha|reflexivity|..].
  - by apply quiet_refs.
  - by apply (target_refs _ _ _ _ _ _ _ _ _ _ CAwaitRecv).
  - intros u p Hut Hp. pose proof (inv_futures _ H u p Hp) as Hu.
    destruct (decide (u = w)) as [->|Huw].
    + rewrite Hw in Hp. simplify_eq. simpl in *. rewrite lookup_insert_eq. destruct Hu. eauto.
    + eapply futures_ext; [done|done|]. simpl. by rewrite lookup_insert_ne.
  - eapply futures_ext; [done|done|]. simpl. by rewrite lookup_insert_ne.
  - apply H.
  - eapply contract_move; [apply H|exact Ha|done..|by left|by left].
  - apply H.
Qed.

Lemma inv_notify_sender s t w v a b :
  Inv s -> threads s !! t = Some a -> sender_targets a = w :: sender_targets b ->
  receiver_targets b = receiver_targets a -> awaits_recv a = false -> awaits_send b = false ->
  awaits_send a = false -> is_enter b = false -> is_enter a = false ->
  (pushing b = true -> pushing a = true) -> (popping b = true -> popping a = true) ->
  futures_ok s t b -> (awaits_recv b = false \/ exists v, rfut s !! t = Some (set_to v)) ->
  Inv (notify_sender t w v b s).
Proof.
  intros H Ha Htg Hts Har Hbs Has Hen Hen' Hpu Hpo Hfut Hset.
  destruct (waiting_sender s w H) as [Hw Hfw].
  { right. exists t, a. rewrite Htg. split; [done|by left]. }
  assert (Hne : w <> t) by (intros ->; simplify_eq; by rewrite Ha in Hw; simplify_eq).
  unfold notify_sender. rewrite Hfw. simpl.
  eapply chan_inv_move; fields; [exact H|exact Ha|reflexivity|..].
  - by apply (target_refs _ _ _ _ _ _ _ _ _ _ CAwaitSend).
  - by apply quiet_refs.
  - intros u p Hut Hp. pose proof (inv_futures _ H u p Hp) as Hu.
    destruct (decide (u = w)) as [->|Huw].
    + rewrite Hw in Hp. simplify_eq. simpl in *. rewrite lookup_insert_eq. destruct Hu. eauto.
    + eapply futures_ext; [done| |done]. simpl. by rewrite lookup_insert_ne.
  - eapply futures_ext; [done| |done]. simpl. by rewrite lookup_insert_ne.
  - apply H.
  - eapply contract_move; [apply H|exact Ha|done..|by left|by left].
  - apply H.
Qed.

Lemma inv_return_send s t d :
  Inv s -> threads s !! t = Some CAwaitSend -> sfut s !! t = Some d ->
  LightFuture.is_ready d = true -> forall r, Inv (return_ t r s).
Proof.
  intros H Ha Hd Hr r. pose proof H as [_ _ _ _ Hco Hff].
  own_step Ha; try done.
  - own_count Ha.
  - own_count Ha.
  - simpl. by rewrite !lookup_delete_eq.
  - apply H.
  - own_contract Ha.
Qed.

Lemma inv_return_recv s t d :
  Inv s -> threads s !! t = Some CAwaitRecv -> rfut s !! t = Some d ->
  LightFuture.is_ready d = true -> forall r, Inv (return_ t r s).
Proof.
  intros H Ha Hd Hr r. pose proof H as [_ _ _ _ Hco Hff].
  own_step Ha; try done.
  - own_count Ha.
  - own_count Ha.
  - simpl. by rewrite !lookup_delete_eq.
  - apply H.
  - own_contract Ha.
Qed.

Lemma inv_thread_step s s' t p :
  Inv s -> threads s !! t = Some p -> thread_step t p s = Some s' -> Inv s'.
Proof.
  intros H Ha Hs. pose proof (inv_futures _ H _ _ Ha) as Hfut. pose proof H as [_ _ _ _ Hco Hff].
  destruct p as [|[v| | | |n]|r v|w|[|r l]|[|w l]| | |f]; simpl in Hs; simplify_eq.
  - by apply inv_enter_push.
  - by apply inv_enter_pop.
  - by apply inv_close_sender.
  - by apply inv_close_receiver.
  - by apply inv_set_max.
  - eapply inv_notify_receiver; try done; simpl in *; intuition eauto.
  - eapply inv_notify_sender; try done; simpl in *; split_and?; destruct Hfut as [? [? ?]]; eauto.
  - own_step Ha; try done; [own_count Ha|own_count Ha|apply H|own_contract Ha].
  - eapply inv_notify_receiver; try done; simpl in *; eauto.
  - own_step Ha; try done; [own_count Ha|own_count Ha|apply H|own_contract Ha].
  - eapply inv_notify_sender; try done; simpl in *; eauto.
  - destruct (sfut s !! t) as [d|] eqn:Ed; simpl in Hs; [|done].
    unfold LightFuture.await_contract in Hs.
    destruct (LightFuture.is_ready d) eqn:Er; simplify_eq. by eapply inv_return_send.
  - destruct (rfut s !! t) as [d|] eqn:Ed; simpl in Hs; [|done].
    unfold LightFuture.await_contract in Hs.
    destruct (LightFuture.is_ready d) eqn:Er; simplify_eq. by eapply inv_return_recv.
Qed.

Lemma nobody_spec f s t p : nobody f s = true -> threads s !! t = Some p -> f p = false.
Proof.
  unfold nobody. rewrite forallb_forall. intros H Hp.
  assert (Hin : In p (threads s)) by (apply list_elem_of_In; by eapply list_elem_of_lookup_2).
  apply H in Hin. by destruct (f p).
Qed.

Lemma closing_spec f s t p : closing f s = false -> threads s !! t = Some p -> f p = false.
Proof.
  unfold closing. intros H Hp. destruct (f p) eqn:E; [|done].
  assert (Ht : existsb f (threads s) = true); [|congruence].
  apply existsb_exists. exists p. split; [|done].
  apply list_elem_of_In. by eapply list_elem_of_lookup_2.
Qed.

Lemma contract_call s t k :
  contract_ok s -> threads s !! t = Some CIdle -> allowed (t, ACall k) s = true ->
  contract_ok (goto t (CEnter k) s).
Proof.
  intros [H1 H2 H3 H4 H5] Ha Hok.
  assert (Hlk : forall u p, threads (goto t (CEnter k) s) !! u = Some p ->
            u = t /\ p = CEnter k \/ u <> t /\ threads s !! u = Some p).
  { intros u p. simpl. destruct (decide (u = t)) as [->|Hne].
    - rewrite list_lookup_insert_eq by eauto using lookup_lt_Some. intros [= ->]. by left.
    - rewrite list_lookup_insert_ne by done. by right. }
  unfold allowed in Hok. split.
  - intros u p Hc Hp. destruct (Hlk u p Hp) as [[-> ->]|[Hne Hp']]; [|eauto].
    simpl in Hc. destruct k; simpl in *; rewrite ?Hc in Hok; done.
  - intros u p Hc Hp. destruct (Hlk u p Hp) as [[-> ->]|[Hne Hp']]; [|eauto].
    simpl in Hc. destruct k; simpl in *; rewrite ?Hc in Hok; done.
  - intros u v p Hu Hv Hne. destruct (Hlk u _ Hu) as [[-> Hk]|[Hne1 Hu']];
      (destruct (Hlk v _ Hv) as [[-> ->]|[Hne2 Hv']]); try done; [| |eauto].
    + injection Hk as <-. apply andb_prop in Hok as [_ Hok]. by eapply nobody_spec.
    + destruct k; simpl in *; try done; apply andb_prop in Hok as [_ Hok].
      * apply negb_true_iff in Hok. by pose proof (closing_spec _ _ _ _ Hok Hu').
      * by pose proof (nobody_spec _ _ _ _ Hok Hu').
  - intros u v p Hu Hv Hne. destruct (Hlk u _ Hu) as [[-> Hk]|[Hne1 Hu']];
      (destruct (Hlk v _ Hv) as [[-> ->]|[Hne2 Hv']]); try done; [| |eauto].
    + injection Hk as <-. apply andb_prop in Hok as [_ Hok]. by eapply nobody_spec.
    + destruct k; simpl in *; try done; apply andb_prop in Hok as [_ Hok].
      * apply negb_true_iff in Hok. by pose proof (closing_spec _ _ _ _ Hok Hu').
      * by pose proof (nobody_spec _ _ _ _ Hok Hu').
  - intros u n Hu. destruct (Hlk u _ Hu) as [[-> Hk]|[Hne1 Hu']]; [|eauto].
    injection Hk as <-. simpl in Hok. by apply Nat.ltb_lt.
Qed.

Lemma chan_inv_next s s' l : Inv s -> next_ok l s = Some s' -> Inv s'.
Proof.
  destruct l as [t a]. unfold next_ok. intros H Hn.
  destruct (allowed (t, a) s) eqn:Hok; [|done]. simpl in Hn.
  destruct (threads s !! t) as [p|] eqn:Ha; [|done].
  destruct a as [k|]; [|by eapply inv_thread_step].
  destruct p; simplify_eq.
  pose proof (inv_futures _ H _ _ Ha) as Hfut. pose proof H as [_ _ _ _ Hco Hff].
  own_step Ha; try done; [own_count Ha|own_count Ha|apply H|by apply contract_call].
Qed.

Lemma reachable_inv n m s : 0 < m -> reachable next_ok (init n m) s -> Inv s.
Proof. intros Hm. apply invariant_reachable; eauto using chan_inv_next, buffered_inv_init. Qed.
End invariant.
