(* ===== verification/BufferedStep.v ===== *)
(** * [BufferedChannel]: the steps that can happen

    [effect] lists what a step of a thread does to a channel that is used as
    its contract asks: the branches of the executable [next_ok] that remain,
    with what is known in them. The invariants of [BufferedProps.v] go by
    cases on it. *)

From S2P Require Import Prelude Future BufferedChannel BufferedInv.

Section effect.
Context {T : Type}.
Implicit Types (s : state T) (p : pc T) (c : channel T).

Definition with_ready (q : list T) c : channel T :=
  Channel q (mWaitingSender c) (mWaitingReceiver c) (mSenderClosed c) (mReceiverClosed c) (mMaxQueueSize c).
Definition with_senders (q : list nat) c : channel T :=
  Channel (mReadyData c) q (mWaitingReceiver c) (mSenderClosed c) (mReceiverClosed c) (mMaxQueueSize c).
Definition with_receivers (q : list nat) c : channel T :=
  Channel (mReadyData c) (mWaitingSender c) q (mSenderClosed c) (mReceiverClosed c) (mMaxQueueSize c).
Definition with_max (n : nat) c : channel T :=
  Channel (mReadyData c) (mWaitingSender c) (mWaitingReceiver c) (mSenderClosed c) (mReceiverClosed c) n.
Definition sender_end_closed c : channel T :=
  Channel (mReadyData c) (mWaitingSender c) [] true (mReceiverClosed c) (mMaxQueueSize c).
Definition receiver_end_closed c : channel T :=
  Channel (mReadyData c) [] (mWaitingReceiver c) (mSenderClosed c) true (mMaxQueueSize c).

Inductive effect (t : nat) s : state T -> Prop :=
  | E_call k : threads s !! t = Some CIdle -> allowed (t, ACall k) s = true ->
      effect t s (goto t (CEnter k) s)
  | E_push_give v r rs : threads s !! t = Some (CEnter (KPush v)) ->
      mWaitingReceiver (chan s) = r :: rs -> mReadyData (chan s) = [] ->
      mSenderClosed (chan s) = false ->
      effect t s (note [v] [v] (goto t (CNotifyReceiver r v)
        (put_sfut t (set_to true) (set_chan (with_receivers rs (chan s)) s))))
  | E_push_closed v : threads s !! t = Some (CEnter (KPush v)) ->
      mReceiverClosed (chan s) = true ->
      effect t s (goto t CAwaitSend (put_sfut t (set_to false) s))
  | E_push_wait v : threads s !! t = Some (CEnter (KPush v)) ->
      mWaitingReceiver (chan s) = [] -> mReceiverClosed (chan s) = false ->
      mSenderClosed (chan s) = false ->
      mMaxQueueSize (chan s) <= length (mReadyData (chan s)) + 1 ->
      effect t s (note [v] [] (goto t CAwaitSend (put_sfut t LightFuture.make
        (set_chan (with_senders (mWaitingSender (chan s) ++ [t])
                    (with_ready (mReadyData (chan s) ++ [v]) (chan s))) s))))
  | E_push_store v : threads s !! t = Some (CEnter (KPush v)) ->
      mWaitingReceiver (chan s) = [] -> mReceiverClosed (chan s) = false ->
      mSenderClosed (chan s) = false ->
      length (mReadyData (chan s)) + 1 < mMaxQueueSize (chan s) ->
      effect t s (note [v] [] (goto t CAwaitSend (put_sfut t (set_to true)
        (set_chan (with_ready (mReadyData (chan s) ++ [v]) (chan s)) s))))
  | E_pop_take x xs : threads s !! t = Some (CEnter KPop) ->
      mReadyData (chan s) = x :: xs -> mWaitingSender (chan s) = [] ->
      effect t s (note [] [x] (goto t CAwaitRecv (put_rfut t (set_to (Some x))
        (set_chan (with_ready xs (chan s)) s))))
  | E_pop_release x xs w ws : threads s !! t = Some (CEnter KPop) ->
      mReadyData (chan s) = x :: xs -> mWaitingSender (chan s) = w :: ws ->
      effect t s (note [] [x] (goto t (CNotifySender w) (put_rfut t (set_to (Some x))
        (set_chan (with_senders ws (with_ready xs (chan s))) s))))
  | E_pop_closed : threads s !! t = Some (CEnter KPop) ->
      mReadyData (chan s) = [] -> mSenderClosed (chan s) = true ->
      effect t s (note [] [] (goto t CAwaitRecv (put_rfut t (set_to None) s)))
  | E_pop_wait : threads s !! t = Some (CEnter KPop) ->
      mReadyData (chan s) = [] -> mSenderClosed (chan s) = false ->
      effect t s (note [] [] (goto t CAwaitRecv (put_rfut t LightFuture.make
        (set_chan (with_receivers (mWaitingReceiver (chan s) ++ [t]) (chan s)) s))))
  | E_close_sender : threads s !! t = Some (CEnter KCloseSender) ->
      mWaitingSender (chan s) = [] -> (mWaitingReceiver (chan s) <> [] -> mReadyData (chan s) = []) ->
      effect t s (goto t (CNotifyEmpty (mWaitingReceiver (chan s)))
        (set_chan (sender_end_closed (chan s)) s))
  | E_close_receiver : threads s !! t = Some (CEnter KCloseReceiver) ->
      mWaitingReceiver (chan s) = [] ->
      effect t s (goto t (CNotifyFalse (mWaitingSender (chan s)))
        (set_chan (receiver_end_closed (chan s)) s))
  | E_set_max n k : threads s !! t = Some (CEnter (KSetMax n)) -> 0 < n ->
      effect t s (goto t (CNotifyFalse (take k (mWaitingSender (chan s))))
        (set_chan (with_max n (with_senders (drop k (mWaitingSender (chan s))) (chan s))) s))
  | E_give r v : threads s !! t = Some (CNotifyReceiver r v) ->
      threads s !! r = Some CAwaitRecv -> rfut s !! r = Some LightFuture.make ->
      effect t s (goto t CAwaitSend (put_rfut r (set_to (Some v)) s))
  | E_release w : threads s !! t = Some (CNotifySender w) ->
      threads s !! w = Some CAwaitSend -> sfut s !! w = Some LightFuture.make ->
      effect t s (goto t CAwaitRecv (put_sfut w (set_to true) s))
  | E_empty r l : threads s !! t = Some (CNotifyEmpty (r :: l)) ->
      threads s !! r = Some CAwaitRecv -> rfut s !! r = Some LightFuture.make ->
      effect t s (goto t (CNotifyEmpty l) (put_rfut r (set_to None) s))
  | E_false w l : threads s !! t = Some (CNotifyFalse (w :: l)) ->
      threads s !! w = Some CAwaitSend -> sfut s !! w = Some LightFuture.make ->
      effect t s (goto t (CNotifyFalse l) (put_sfut w (set_to false) s))
  | E_done p : threads s !! t = Some p -> p = CNotifyEmpty [] \/ p = CNotifyFalse [] ->
      effect t s (goto t CIdle s)
  | E_ret_send b : threads s !! t = Some CAwaitSend -> sfut s !! t = Some (set_to b) ->
      effect t s (return_ t (PushRet (Ret b)) s)
  | E_ret_recv o : threads s !! t = Some CAwaitRecv -> rfut s !! t = Some (set_to o) ->
      effect t s (return_ t (PopRet (Ret o)) s).

Lemma set_chan_id s : set_chan (chan s) s = s.
Proof. by destruct s. Qed.

Lemma effect_eq t s s1 s2 : effect t s s1 -> s2 = s1 -> effect t s s2.
Proof. by intros ? ->. Qed.

Ltac eff C :=
  eapply effect_eq; [eapply C; first [eassumption|done|lia]|];
  unfold with_ready, with_senders, with_receivers, with_max,
    sender_end_closed, receiver_end_closed;
  queues; repeat match goal with
    | H : mSenderClosed (chan ?s) = _ |- context [mSenderClosed (chan ?s)] => rewrite H
    | H : mReceiverClosed (chan ?s) = _ |- context [mReceiverClosed (chan ?s)] => rewrite H
    end; try done; by destruct (chan _).

Lemma effect_push s t v :
  Inv s -> threads s !! t = Some (CEnter (KPush v)) -> effect t s (enter_push t v s).
Proof.
  intros H Ha. pose proof H as [_ _ _ [C1 C2 C3 C4] Hco Hff].
  assert (Hsc : mSenderClosed (chan s) = false).
  { destruct (mSenderClosed (chan s)) eqn:E; [|done]. by apply (ok_no_push _ Hco) in Ha. }
  unfold enter_push, push_locked. co_unfold. rewrite Hsc. simpl.
  destruct (mWaitingReceiver (chan s)) as [|r rs] eqn:Er; simpl.
  - destruct (mReceiverClosed (chan s)) eqn:Ec; simpl.
    + rewrite set_chan_id. by eapply E_push_closed.
    + rewrite length_app. simpl.
      destruct (mMaxQueueSize (chan s) <=? length (mReadyData (chan s)) + 1) eqn:El; simpl.
      * apply Nat.leb_le in El. eff E_push_wait.
      * apply Nat.leb_gt in El. eff E_push_store.
  - destruct (C1 ltac:(done)) as (C5 & C6 & C7). rewrite C6. simpl. eff E_push_give.
Qed.

Lemma effect_pop s t :
  Inv s -> threads s !! t = Some (CEnter KPop) -> effect t s (enter_pop t s).
Proof.
  intros H Ha. pose proof H as [_ _ _ [C1 C2 C3 C4] Hco Hff].
  assert (Hrc : mReceiverClosed (chan s) = false).
  { destruct (mReceiverClosed (chan s)) eqn:E; [|done]. by apply (ok_no_pop _ Hco) in Ha. }
  unfold enter_pop, pop_locked. co_unfold. rewrite Hrc. simpl.
  destruct (mReadyData (chan s)) as [|x xs] eqn:Er; simpl.
  - destruct (mSenderClosed (chan s)) eqn:Ec; simpl.
    + assert (Hws : mWaitingSender (chan s) = []) by (destruct (mWaitingSender (chan s)); [done|simpl in *; lia]).
      rewrite Hws. simpl. rewrite set_chan_id. by eapply E_pop_closed.
    + eff E_pop_wait.
  - destruct (mWaitingSender (chan s)) as [|w ws] eqn:Ew; simpl.
    + eff E_pop_take.
    + eff E_pop_release.
Qed.

Lemma effect_enter s t k :
  Inv s -> threads s !! t = Some (CEnter k) -> effect t s (enter t k s).
Proof.
  intros H Ha. pose proof H as [_ _ _ [C1 C2 C3 C4] Hco Hff].
  destruct k as [v| | | |n]; [by apply effect_push|by apply effect_pop|..];
    unfold enter, enter_locked.
  - assert (Hsc : mSenderClosed (chan s) = false).
    { destruct (mSenderClosed (chan s)) eqn:E; [|done]. by apply (ok_no_push _ Hco) in Ha. }
    assert (Hws : mWaitingSender (chan s) = []).
    { destruct (mWaitingSender (chan s)) as [|w ws] eqn:Ew; [done|].
      destruct (waiting_sender s w H) as [Hw _]; [left; rewrite Ew; by left|].
      assert (w <> t) by congruence. by apply (ok_close_push _ Hco t w) in Hw. }
    unfold closeSender_locked. co_unfold. rewrite Hsc, Hws. simpl.
    destruct (mWaitingReceiver (chan s)) as [|r rs] eqn:Er; simpl.
    + eapply effect_eq; [by eapply E_close_sender; try done; rewrite Er|].
      unfold sender_end_closed. by rewrite Er, Hws.
    + destruct (C1 ltac:(done)) as (C5 & C6 & C7). rewrite C5. simpl.
      eapply effect_eq; [by eapply E_close_sender; try done; rewrite Er|].
      unfold sender_end_closed. by rewrite Er, Hws, C5.
  - assert (Hrc : mReceiverClosed (chan s) = false).
    { destruct (mReceiverClosed (chan s)) eqn:E; [|done]. by apply (ok_no_pop _ Hco) in Ha. }
    assert (Hws : mWaitingReceiver (chan s) = []).
    { destruct (mWaitingReceiver (chan s)) as [|w ws] eqn:Ew; [done|].
      destruct (waiting_receiver s w H) as [Hw _]; [left; rewrite Ew; by left|].
      assert (w <> t) by congruence. by apply (ok_close_pop _ Hco t w) in Hw. }
    unfold closeReceiver_locked. co_unfold. rewrite Hrc, Hws. simpl.
    eff E_close_receiver.
  - assert (Hn : 0 < n) by (by eapply ok_set_max).
    unfold setMaxQueueSize_locked. co_unfold.
    replace (0 <? n) with true by (symmetry; by apply Nat.ltb_lt).
    destruct (length (mReadyData (chan s)) <? n); simpl; rewrite ?wake_senders_spec; simpl.
    + eff E_set_max.
    + by apply (E_set_max _ _ n 0).
Qed.

Lemma await_send s t : Inv s -> threads s !! t = Some CAwaitSend ->
  forall o, sfut s !! t ≫= LightFuture.await_contract = Some o ->
  exists b, o = Ret b /\ sfut s !! t = Some (set_to b).
Proof.
  intros H Ha o. destruct (inv_futures _ H _ _ Ha) as [_ [Hf|[b Hf]]]; rewrite Hf; simpl.
  - done.
  - intros [= <-]. eauto.
Qed.

Lemma await_recv s t : Inv s -> threads s !! t = Some CAwaitRecv ->
  forall o, rfut s !! t ≫= LightFuture.await_contract = Some o ->
  exists b, o = Ret b /\ rfut s !! t = Some (set_to b).
Proof.
  intros H Ha o. destruct (inv_futures _ H _ _ Ha) as [_ [Hf|[b Hf]]]; rewrite Hf; simpl.
  - done.
  - intros [= <-]. eauto.
Qed.

Lemma effect_notify_receiver s t w v a b :
  Inv s -> threads s !! t = Some a -> w ∈ receiver_targets a ->
  (threads s !! w = Some CAwaitRecv -> rfut s !! w = Some LightFuture.make ->
   effect t s (goto t b (put_rfut w (set_to v) s))) ->
  effect t s (notify_receiver t w v b s).
Proof.
  intros H Ha Hin He. destruct (waiting_receiver s w H) as [Hw Hf]; [by right; exists t, a|].
  unfold notify_receiver. rewrite Hf. simpl. by apply He.
Qed.

Lemma effect_notify_sender s t w v a b :
  Inv s -> threads s !! t = Some a -> w ∈ sender_targets a ->
  (threads s !! w = Some CAwaitSend -> sfut s !! w = Some LightFuture.make ->
   effect t s (goto t b (put_sfut w (set_to v) s))) ->
  effect t s (notify_sender t w v b s).
Proof.
  intros H Ha Hin He. destruct (waiting_sender s w H) as [Hw Hf]; [by right; exists t, a|].
  unfold notify_sender. rewrite Hf. simpl. by apply He.
Qed.

Lemma effect_next s s' t a : Inv s -> next_ok (t, a) s = Some s' -> effect t s s'.
Proof.
  unfold next_ok. intros H Hn. destruct (allowed (t, a) s) eqn:Hok; [|done]. simpl in Hn.
  destruct (threads s !! t) as [p|] eqn:Ha; [|done].
  destruct a as [k|]; [destruct p; simplify_eq; by eapply E_call|].
  destruct p as [|k|r v|w|[|r l]|[|w l]| | |f]; simpl in Hn; simplify_eq.
  - by apply effect_enter.
  - eapply effect_notify_receiver; [done..|by left|]. intros. by apply E_give.
  - eapply effect_notify_sender; [done..|by left|]. intros. by apply E_release.
  - eapply E_done; eauto.
  - eapply effect_notify_receiver; [done..|by left|]. intros. by apply E_empty.
  - eapply E_done; eauto.
  - eapply effect_notify_sender; [done..|by left|]. intros. by apply E_false.
  - destruct (sfut s !! t ≫= _) as [o|] eqn:E; simplify_eq.
    destruct (await_send s t H Ha o E) as (b & -> & Hb). by apply E_ret_send.
  - destruct (rfut s !! t ≫= _) as [o|] eqn:E; simplify_eq.
    destruct (await_recv s t H Ha o E) as (b & -> & Hb). by apply E_ret_recv.
Qed.

(** Rule induction over the states of a channel used as its contract asks. *)
Lemma effect_invariant (I : state T -> Prop) n m s :
  0 < m -> I (init n m) ->
  (forall t s s', Inv s -> effect t s s' -> I s -> I s') ->
  reachable next_ok (init n m) s -> I s.
Proof.
  intros Hm H0 Hstep Hr.
  assert (Inv s /\ I s) as [_ HI]; [|done].
  apply (invariant_reachable next_ok (fun s => Inv s /\ I s) (init n m)); [|by split; [apply buffered_inv_init|]|done].
  intros [t a] s1 s2 [HI HIs] Hn. split; [by eapply chan_inv_next|].
  eapply Hstep; eauto using effect_next.
Qed.
End effect.
