(* ===== verification/BufferedProps.v ===== *)
(** * [BufferedChannel]: what its users can rely on

    No assertion fails and nothing is used after its end; values are
    delivered exactly once and in the order of their acceptance; [pop] says
    "closed" only when everything has been delivered; the queue is bounded and
    senders are held back as the maximal size asks; internal work ends, and
    whoever still waits then waits for a reason. *)

From S2P Require Import Prelude Future BufferedChannel BufferedInv BufferedStep.

Section delivery.
Context {T : Type}.
Implicit Types (s : state T) (p : pc T).

(** The values returned by [pop]. *)
Definition popped s : list T :=
  omap (fun '(_, r) => match r with PopRet (Ret (Some x)) => Some x | _ => None end) (results s).

(** The value a thread carries to a receiver: as the sender that hands it
    over, or as the receiver that has it in its future. *)
Definition flight (fut : gmap nat (LightFutureData nat (option T))) (t : nat) p : list T :=
  match p with
  | CNotifyReceiver _ v => [v]
  | CNotifySender _ | CAwaitRecv =>
      match fut !! t with Some (LFD InvalidHandle (Val (Some x))) => [x] | _ => [] end
  | _ => []
  end.

Definition in_flight s : list T := ibag (flight (rfut s)) (threads s).

Lemma flight_ext fut fut' t p : fut' !! t = fut !! t -> flight fut' t p = flight fut t p.
Proof. intros H. unfold flight. by rewrite H. Qed.

(** Thread [t] moves, and only its own future may change. *)
Lemma flight_own fut fut' l t a b :
  l !! t = Some a -> (forall u, u <> t -> fut' !! u = fut !! u) -> flight fut t a = [] ->
  ibag (flight fut') (<[t := b]> l) ≡ₚ ibag (flight fut) l ++ flight fut' t b.
Proof.
  intros Ha Hf Hn.
  rewrite <- (ibag_insert (flight fut) (flight fut') l t a b Ha), Hn, app_nil_r; [done|].
  intros j c Hj _. apply flight_ext. by apply Hf.
Qed.

(** Thread [t] sets the future of [w], which waits. *)
Lemma flight_target fut l t w v a b :
  l !! t = Some a -> l !! w = Some CAwaitRecv -> w <> t -> fut !! w = Some LightFuture.make ->
  flight (<[w := set_to v]> fut) t b = [] ->
  ibag (flight (<[w := set_to v]> fut)) (<[t := b]> l) ++ flight fut t a ≡ₚ
  ibag (flight fut) l ++ flight (<[w := set_to v]> fut) w CAwaitRecv.
Proof.
  intros Ha Hw Hne Hf Hb. set (fut' := <[w := set_to v]> fut).
  assert (H1 : ibag (flight fut') l ≡ₚ ibag (flight fut) l ++ flight fut' w CAwaitRecv).
  { rewrite <- (list_insert_id l w CAwaitRecv Hw) at 1. apply (flight_own _ _ _ _ CAwaitRecv); [done| |].
    - intros u Hu. subst fut'. by rewrite lookup_insert_ne.
    - simpl. by rewrite Hf. }
  rewrite <- H1.
  assert (Hs : flight fut' t a = flight fut t a).
  { apply flight_ext. subst fut'. by rewrite lookup_insert_ne. }
  rewrite <- Hs, (ibag_insert (flight fut') (flight fut') l t a b Ha) by done.
  subst fut'. by rewrite Hb, app_nil_r.
Qed.

Definition delivery_ok s : Prop := delivered s ≡ₚ popped s ++ in_flight s.

(** A step of [t] alone that delivers what it starts to carry. *)
Lemma delivery_own s s' t a b :
  threads s !! t = Some a -> delivery_ok s ->
  threads s' = <[t := b]> (threads s) ->
  (forall u, u <> t -> rfut s' !! u = rfut s !! u) ->
  flight (rfut s) t a = [] -> delivered s' = delivered s ++ flight (rfut s') t b ->
  popped s' = popped s -> delivery_ok s'.
Proof.
  intros Ha HD Hth Hf Hn Hd Hr. unfold delivery_ok, in_flight in *.
  rewrite Hth, Hd, Hr, HD, (flight_own (rfut s) _ _ _ a b) by done. by rewrite app_assoc.
Qed.

Ltac deliver Ha :=
  eapply (delivery_own _ _ _ _ _ Ha); fields;
  [ done | done | intros; by simplify_map_eq | first [done | simpl; by simplify_map_eq]
  | simpl; simplify_map_eq; by rewrite ?app_nil_r
  | first [ done | unfold popped; cbn [return_ results]; rewrite omap_app; simpl; by rewrite app_nil_r ] ].

Lemma delivery_next t s s' : Inv s -> effect t s s' -> delivery_ok s -> delivery_ok s'.
Proof.
  intros H He HD.
  destruct He as [k Ha|v r rs Ha|v Ha|v Ha|v Ha|x xs Ha Hq|x xs w ws Ha|Ha|Ha|Ha|Ha|n k Ha
    |r v Ha Hr Hf|w Ha Hw Hf|r l Ha Hr Hf|w l Ha Hw Hf|p Ha Hp|b Ha Hb|o Ha Ho].
  all: try solve [deliver Ha].
  - assert (Hne : r <> t) by (intros ->; congruence).
    unfold delivery_ok, in_flight in *. fields.
    pose proof (flight_target _ _ _ _ (Some v) _ CAwaitSend Ha Hr Hne Hf eq_refl) as Hx.
    simpl in Hx. rewrite lookup_insert_eq in Hx. apply (inj (.++ [v])) in Hx.
    by rewrite Hx.
  - unfold delivery_ok, in_flight in *. fields.
    pose proof (ibag_insert (flight (rfut s)) (flight (rfut s)) _ _ _ CAwaitRecv Ha ltac:(done)) as Hx.
    simpl in Hx. apply (inj (.++ _)) in Hx. by rewrite Hx.
  - assert (Hne : r <> t) by (intros ->; congruence).
    unfold delivery_ok, in_flight in *. fields.
    pose proof (flight_target _ _ _ _ None _ (CNotifyEmpty l) Ha Hr Hne Hf eq_refl) as Hx.
    simpl in Hx. rewrite lookup_insert_eq in Hx. rewrite !app_nil_r in Hx. by rewrite Hx.
  - destruct Hp as [-> | ->]; deliver Ha.
  - unfold delivery_ok, in_flight, popped in *. fields. cbn [return_ results].
    pose proof (ibag_insert (flight (rfut s)) (flight (delete t (rfut s))) _ _ _ CIdle Ha) as Hx.
    simpl in Hx. rewrite Ho, app_nil_r in Hx. rewrite omap_app.
    rewrite HD, <- Hx; [|intros; apply flight_ext; by simplify_map_eq].
    destruct o; simpl; rewrite ?app_nil_r; solve_Permutation.
Qed.

Lemma delivery_init n m : delivery_ok (init n m).
Proof.
  unfold delivery_ok, in_flight. simpl. rewrite ibag_nil; [done|].
  intros t p Hp. by apply lookup_replicate in Hp as [-> _].
Qed.

(** ** Values are delivered exactly once and in order *)

(** C8: exactly-once, first-in first-out: the values taken in by [push] are,
    in the order of acceptance, those handed to receivers followed by those
    still queued; and the values handed to receivers are, each as often as it
    was handed out, those that [pop] has returned and those on their way in
    the hands of a thread. Nothing is lost, duplicated or made up, in any
    interleaving of any number of threads. *)
Theorem buffered_fifo_exactly_once n m s :
  0 < m -> reachable next_ok (init n m) s ->
  accepted s = delivered s ++ mReadyData (chan s) /\
  delivered s ≡ₚ popped s ++ in_flight s.
Proof.
  intros Hm Hr. split; [by apply reachable_inv in Hr as [? ? ? ? ? ?]|].
  apply (effect_invariant _ n m s Hm (delivery_init n m) delivery_next Hr).
Qed.
End delivery.

(** ** Closing *)

Section closing.
Context {T : Type}.
Implicit Types (s : state T) (p : pc T).

(** The last sender is gone and everything has been handed out. *)
Definition drained (c : channel T) : Prop := mSenderClosed c = true /\ mReadyData c = [].

Lemma drained_next t s s' : effect t s s' -> drained (chan s) -> drained (chan s').
Proof. intros He [H1 H2]. destruct He; simpl; unfold drained; simpl; try done; congruence. Qed.

(** Whoever has been told, or is about to be told, that there is nothing more. *)
Record told_ok s : Prop := {
  told_future u : rfut s !! u = Some (set_to None) -> drained (chan s);
  told_soon u r l : threads s !! u = Some (CNotifyEmpty (r :: l)) -> drained (chan s);
  told_result u : (u, PopRet (Ret None)) ∈ results s -> drained (chan s);
}.

(** Look up in the updated lists and maps of a successor state. *)
Ltac lookups :=
  repeat match goal with
  | H : <[_ := _]> _ !! _ = Some _ |- _ =>
      first [ apply list_lookup_insert_Some in H as [(? & ? & _)|[? H]]
            | apply lookup_insert_Some in H as [[? ?]|[? H]] ]
  | H : delete _ _ !! _ = Some _ |- _ => apply lookup_delete_Some in H as [? H]
  | H : _ ∈ _ ++ _ |- _ => apply elem_of_app in H as [H|H]
  | H : _ ∈ [_] |- _ => apply list_elem_of_singleton in H
  end; simplify_eq.

Lemma told_next t s s' : Inv s -> effect t s s' -> told_ok s -> told_ok s'.
Proof.
  intros HI He [H1 H2 H3]. pose proof (drained_next t s s' He) as Hd.
  destruct He as [k Ha|v r rs Ha|v Ha|v Ha|v Ha|x xs Ha Hq|x xs w ws Ha|Ha|Ha|Ha Hs Hq|Ha|n k Ha
    |r v Ha Hr Hf|w Ha Hw Hf|r l Ha Hr Hf|w l Ha Hw Hf|p Ha Hp|b Ha Hb|o Ha Ho].
  all: split; revert Hd; simpl; intros Hd; intros *; intros; lookups; try by eauto.
  split; [done|]. apply Hq. congruence.
Qed.

(** C11: [pop] returns [nullopt] only when the senders are closed, the queue
    is empty and, since nothing is lost, every accepted value has been handed
    to a receiver; and this stays so. *)
Theorem nullopt_means_drained n m s t :
  0 < m -> reachable next_ok (init n m) s -> (t, PopRet (Ret None)) ∈ results s ->
  drained (chan s) /\ accepted s = delivered s.
Proof.
  intros Hm Hr Ht.
  assert (Hi : told_ok s).
  { apply (effect_invariant told_ok n m s Hm); [by split; intros * Hx; simpl in *;
      rewrite ?lookup_empty in Hx; first [done|apply lookup_replicate in Hx as [? _]|
      apply elem_of_nil in Hx]|apply told_next|done]. }
  destruct (told_result _ Hi t Ht) as [H1 H2]. split; [done|].
  apply reachable_inv in Hr as [_ _ _ _ _ Hf]; [|done]. by rewrite Hf, H2, app_nil_r.
Qed.

(** The calls return; they do not throw. *)
Definition returns (r : cresult T) : Prop :=
  match r with PushRet (Ret _) | PopRet (Ret _) => True | _ => False end.

Lemma returns_next t s s' : Inv s -> effect t s s' ->
  Forall (fun tr => returns (snd tr)) (results s) -> Forall (fun tr => returns (snd tr)) (results s').
Proof. intros _ He H. destruct He; simpl; rewrite ?Forall_app; by repeat constructor. Qed.

(** C10: a channel used as its contract asks never fails: in every
    interleaving of any number of threads no assertion of [channel.hpp] or of
    the futures fails, no future is set after its call has returned and none is
    set twice (a thread that does goes to [CFault]); and no call throws. *)
Theorem buffered_never_fails n m s :
  0 < m -> reachable next_ok (init n m) s ->
  (forall t f, threads s !! t <> Some (CFault f)) /\
  Forall (fun tr => returns (snd tr)) (results s).
Proof.
  intros Hm Hr. split.
  - intros t f Ht. by apply (inv_futures _ (reachable_inv _ _ _ Hm Hr)) in Ht.
  - by apply (effect_invariant (fun s => Forall (fun tr => returns (snd tr)) (results s)) n m s Hm);
      [constructor|apply returns_next|].
Qed.

(** ** A channel whose size stays *)

Definition is_resize (l : nat * action T) : bool :=
  match snd l with ACall (KSetMax _) => true | _ => false end.

Definition next_fixed (l : nat * action T) s : option (state T) :=
  if is_resize l then None else next_ok l s.

Definition no_resize s : Prop := forall t n, threads s !! t <> Some (CEnter (KSetMax n)).

Lemma no_resize_next t a s s' : no_resize s -> next_fixed (t, a) s = Some s' ->
  effect t s s' -> no_resize s'.
Proof.
  unfold next_fixed, next_ok. intros Hn Hf He u n Hu.
  destruct (is_resize (t, a)) eqn:Er; [done|]. destruct (allowed (t, a) s); [|done]. simpl in Hf.
  destruct (threads s !! t) as [p|] eqn:Ha; [|done].
  destruct a as [k|].
  - destruct p; simplify_eq. simpl in Hu. lookups; by eapply Hn.
  - destruct He; simpl in *; lookups; try done; by eapply Hn.
Qed.

(** Rule induction for it. *)
Lemma fixed_invariant (I : state T -> Prop) n m s :
  0 < m -> I (init n m) ->
  (forall t s s', Inv s -> Inv s' -> no_resize s -> effect t s s' -> I s -> I s') ->
  reachable next_fixed (init n m) s -> Inv s /\ I s.
Proof.
  intros Hm H0 Hstep Hr.
  assert (Inv s /\ no_resize s /\ I s) as (? & _ & ?); [|done].
  apply (invariant_reachable next_fixed (fun s => Inv s /\ no_resize s /\ I s) (init n m)); [| |done].
  - intros [t a] s1 s2 (HI & Hn & HIs) Hs.
    assert (Ho : next_ok (t, a) s1 = Some s2) by (unfold next_fixed in Hs; by destruct (is_resize _)).
    pose proof (effect_next _ _ _ _ HI Ho). pose proof (chan_inv_next _ _ _ HI Ho).
    split_and!; eauto using no_resize_next.
  - split_and!; [by apply buffered_inv_init| |done].
    intros t k Hk. by apply lookup_replicate in Hk as [? _].
Qed.

(** Whoever has been told, or is about to be told, that nobody listens. *)
Record refused_ok s : Prop := {
  refused_future u : sfut s !! u = Some (set_to false) -> mReceiverClosed (chan s) = true;
  refused_soon u w l : threads s !! u = Some (CNotifyFalse (w :: l)) -> mReceiverClosed (chan s) = true;
  refused_result u : (u, PushRet (Ret false)) ∈ results s -> mReceiverClosed (chan s) = true;
}.

Lemma closed_stays t s s' : effect t s s' -> mReceiverClosed (chan s) = true -> mReceiverClosed (chan s') = true.
Proof. intros He H. by destruct He. Qed.

Lemma refused_next t s s' :
  Inv s -> Inv s' -> no_resize s -> effect t s s' -> refused_ok s -> refused_ok s'.
Proof.
  intros _ _ Hn He [H1 H2 H3]. pose proof (closed_stays t s s' He) as Hd.
  destruct He as [k Ha|v r rs Ha|v Ha|v Ha|v Ha|x xs Ha Hq|x xs w ws Ha|Ha|Ha|Ha Hs Hq|Ha|n k Ha
    |r v Ha Hr Hf|w Ha Hw Hf|r l Ha Hr Hf|w l Ha Hw Hf|p Ha Hp|b Ha Hb|o Ha Ho].
  all: split; revert Hd; simpl; intros Hd; intros *; intros; lookups; try by eauto.
  all: by apply Hn in Ha.
Qed.

(** C13: when nobody resizes the channel, [push] returns false only when the
    receivers are closed. *)
Theorem push_false_means_closed n m s t :
  0 < m -> reachable next_fixed (init n m) s -> (t, PushRet (Ret false)) ∈ results s ->
  mReceiverClosed (chan s) = true.
Proof.
  intros Hm Hr Ht.
  destruct (fixed_invariant refused_ok n m s Hm) as [_ Hi]; [|apply refused_next|done|by eapply refused_result].
  split; intros * Hx; simpl in *; rewrite ?lookup_empty in Hx;
    first [done|apply lookup_replicate in Hx as [? _]|apply elem_of_nil in Hx]; done.
Qed.

(** ** Back-pressure *)

Lemma refs_le_1 (q : list nat) tg aw {A} (fut : gmap nat (LightFutureData nat A)) (l : list (pc T)) :
  (forall u, refs q tg l u = blocked aw fut l u) -> NoDup q /\ length q <= length l.
Proof.
  intros H.
  assert (Hn : NoDup q).
  { apply NoDup_ListNoDup, (NoDup_count_occ Nat.eq_dec). intros u. specialize (H u).
    pose proof (blocked_le aw fut l u). unfold refs in H. lia. }
  split; [done|].
  rewrite <- (length_seq (length l) 0). apply submseteq_length, NoDup_submseteq; [done|].
  intros u Hu. destruct (queue_waits _ _ _ _ _ u H (or_introl Hu)) as (p & _ & Hp & _).
  apply elem_of_seq. apply lookup_lt_Some in Hp. lia.
Qed.

Record pressure n m s : Prop := {
  pr_threads : length (threads s) = n;
  pr_max : mMaxQueueSize (chan s) = m;
  pr_waiting : mReceiverClosed (chan s) = false ->
    length (mWaitingSender (chan s)) = length (mReadyData (chan s)) - (m - 1);
  pr_bound : length (mReadyData (chan s)) <= (m - 1) + n;
}.

Lemma pressure_next n m t s s' : 0 < m ->
  Inv s -> Inv s' -> no_resize s -> effect t s s' -> pressure n m s -> pressure n m s'.
Proof.
  intros Hm HI HI' Hn He [H1 H2 H3 H4].
  pose proof (proj2 (refs_le_1 _ _ _ _ _ (inv_send _ HI'))) as Hl.
  destruct He as [k Ha|v r rs Ha|v Ha|v Ha|v Ha|x xs Ha Hq|x xs w ws Ha|Ha|Ha|Ha Hs Hq|Ha|k i Ha
    |r v Ha Hr Hf|w Ha Hw Hf|r l Ha Hr Hf|w l Ha Hw Hf|p Ha Hp|b Ha Hb|o Ha Ho].
  all: try by apply Hn in Ha.
  all: split; revert Hl; simpl; rewrite ?length_insert, ?length_app; simpl; intros Hl; try done.
  all: repeat match goal with H : mReadyData (chan _) = _ |- _ => rewrite H in *; clear H end.
  all: repeat match goal with H : mWaitingSender (chan _) = _ |- _ => rewrite H in *; clear H end.
  all: simpl in *; try intros Hc; try specialize (H3 ltac:(done)); try lia.
Qed.


(** ** Progress *)

(** An upper bound for the steps a thread has left without a new call. *)
Definition work p : nat :=
  match p with
  | CIdle | CFault _ => 0
  | CEnter _ => 4
  | CNotifyReceiver _ _ | CNotifySender _ => 2
  | CNotifyEmpty l | CNotifyFalse l => 1 + length l
  | CAwaitSend | CAwaitRecv => 1
  end.

Definition weight s : nat :=
  sum_list_with work (threads s) + length (mWaitingSender (chan s)) + length (mWaitingReceiver (chan s)).

Lemma weight_next t s s' :
  Inv s -> next_ok (t, AStep) s = Some s' -> weight s' < weight s.
Proof.
  intros HI Hn. pose proof (effect_next _ _ _ _ HI Hn) as He. unfold weight.
  destruct He as [k Ha|v r rs Ha|v Ha|v Ha|v Ha|x xs Ha Hq|x xs w ws Ha|Ha|Ha|Ha Hs Hq|Ha|k i Ha
    |r v Ha Hr Hf|w Ha Hw Hf|r l Ha Hr Hf|w l Ha Hw Hf|p Ha Hp|b Ha Hb|o Ha Ho].
  1: unfold next_ok in Hn; simpl in Hn; by rewrite Ha in Hn.
  all: simpl; rewrite ?length_app, ?length_take, ?length_drop.
  all: match goal with |- context [<[_ := ?b]> (threads _)] => pose proof (sum_insert work _ _ _ b Ha) as Hsum end.
  all: simpl in Hsum; try destruct Hp as [-> | ->]; simpl in *; queues; rewrite ?length_take in *; simpl; try lia.
Qed.

Definition internal (l : nat * action T) : bool :=
  match snd l with AStep => true | _ => false end.

(** No thread can go on without a new call. *)
Definition quiescent s : Prop := forall t, next_ok (t, AStep) s = None.

Lemma internal_run ls s s' :
  Inv s -> forallb internal ls = true -> run next_ok ls s = Some s' ->
  Inv s' /\ length ls + weight s' <= weight s.
Proof.
  revert s. induction ls as [|[t a] ls IH]; intros s HI Hls Hr; simpl in *; [by simplify_eq|].
  destruct a; [done|]. destruct (next_ok (t, AStep) s) as [s1|] eqn:E; [|done].
  pose proof (chan_inv_next _ _ _ HI E) as HI1. destruct (IH s1 HI1 Hls Hr) as [HI' Hw].
  pose proof (weight_next _ _ _ HI E). split; [done|lia].
Qed.

Lemma quiescent_or_step s : quiescent s \/ exists t s', next_ok (t, AStep) s = Some s'.
Proof.
  destruct (decide (Exists (fun t => is_Some (next_ok (t, AStep) s)) (seq 0 (length (threads s))))) as [H|H].
  - right. apply Exists_exists in H as (t & _ & s' & Hs). by exists t, s'.
  - left. intros t. destruct (next_ok (t, AStep) s) as [s'|] eqn:E; [|done].
    destruct H. apply Exists_exists. exists t. split; [|by rewrite E].
    apply elem_of_seq. unfold next_ok in E. simpl in E.
    destruct (threads s !! t) as [p|] eqn:Ha; [|done]. apply lookup_lt_Some in Ha. lia.
Qed.

Lemma reach_quiescent s :
  Inv s -> exists ls s', forallb internal ls = true /\ run next_ok ls s = Some s' /\ quiescent s'.
Proof.
  remember (weight s) as w eqn:Hw. revert s Hw.
  induction w as [w IH] using lt_wf_ind. intros s -> HI.
  destruct (quiescent_or_step s) as [Hq|(t & s1 & Hs)]; [by exists [], s|].
  destruct (IH _ (weight_next _ _ _ HI Hs) s1 eq_refl (chan_inv_next _ _ _ HI Hs)) as (ls & s' & Hl & Hr & Hq).
  exists ((t, AStep) :: ls), s'. simpl. by rewrite Hs.
Qed.

(** Why a thread may wait in a quiescent state. *)
Definition waits_rightly s (t : nat) p : Prop :=
  p = CIdle \/
  p = CAwaitSend /\ t ∈ mWaitingSender (chan s) /\ mReceiverClosed (chan s) = false /\
    mReadyData (chan s) <> [] \/
  p = CAwaitRecv /\ t ∈ mWaitingReceiver (chan s) /\ mSenderClosed (chan s) = false /\
    mReadyData (chan s) = [].

Lemma occ_zero (q : list nat) t : ~ t ∈ q -> occ q t = 0.
Proof. intros H. apply count_occ_not_In. by rewrite <- list_elem_of_In. Qed.

(** A thread whose future is not ready is in the queue, or some thread that
    can still run refers to it. *)
Lemma blocked_in_queue {A} q tg aw (fut : gmap nat (LightFutureData nat A)) (l : list (pc T)) t p :
  (forall u, refs q tg l u = blocked aw fut l u) ->
  l !! t = Some p -> aw p = true -> fut !! t = Some LightFuture.make ->
  (forall u p, l !! u = Some p -> tg p = []) -> t ∈ q.
Proof.
  intros H Ha Hp Hf Hn. destruct (decide (t ∈ q)) as [|Hq]; [done|].
  specialize (H t). unfold refs, blocked in H. rewrite Ha, Hf, Hp, (occ_zero q t Hq) in H. simpl in H.
  destruct (sum_pos_lookup (fun p => occ (tg p) t) l) as (u & p' & Hu & Hpos); [lia|].
  rewrite (Hn u p' Hu) in Hpos. simpl in Hpos. lia.
Qed.

Lemma quiescent_waits s t p :
  Inv s -> quiescent s -> threads s !! t = Some p -> waits_rightly s t p.
Proof.
  intros HI Hq Ha.
  assert (Hstep : forall u p', threads s !! u = Some p' -> thread_step u p' s = None).
  { intros u p' Hu. specialize (Hq u). unfold next_ok in Hq. simpl in Hq. by rewrite Hu in Hq. }
  assert (Hts : forall u p', threads s !! u = Some p' -> sender_targets p' = [] /\ receiver_targets p' = []).
  { intros u p' Hu. specialize (Hstep u p' Hu). by destruct p' as [| | | |[|]|[|]| | |]. }
  pose proof (inv_futures _ HI _ _ Ha) as Hfut. specialize (Hstep t p Ha).
  destruct (inv_channel _ HI) as [C1 C2 C3 C4].
  destruct p as [| | | |[|]|[|]| | |]; try done; [by left| |].
  - right. left. destruct Hfut as [_ [Hf|[b Hf]]]; simpl in Hstep; rewrite Hf in Hstep; [|done].
    assert (Hin : t ∈ mWaitingSender (chan s)).
    { eapply blocked_in_queue; [apply HI|done..|]. intros. by eapply Hts. }
    split_and!; [done|done|..].
    + destruct (mReceiverClosed (chan s)) eqn:E; [|done]. rewrite C3 in Hin by done. by apply elem_of_nil in Hin.
    + intros Hr. rewrite Hr in C2. destruct (mWaitingSender (chan s)); [by apply elem_of_nil in Hin|simpl in C2; lia].
  - right. right. destruct Hfut as [_ [Hf|[b Hf]]]; simpl in Hstep; rewrite Hf in Hstep; [|done].
    assert (Hin : t ∈ mWaitingReceiver (chan s)).
    { eapply blocked_in_queue; [apply HI|done..|]. intros. by eapply Hts. }
    destruct C1 as (? & ? & ?); [by intros Hr; rewrite Hr in Hin; apply elem_of_nil in Hin|done].
Qed.


(** once both ends are closed and everything has come to rest, every
    call has returned and the destructor's assertions hold. *)
Theorem closed_channel_destructible n m s :
  0 < m -> reachable next_ok (init n m) s -> quiescent s ->
  mSenderClosed (chan s) = true -> mReceiverClosed (chan s) = true ->
  (forall t p, threads s !! t = Some p -> p = CIdle) /\
  destructor (chan s) = (Ret tt, chan s).
Proof.
  intros Hm Hr Hq Hs Hc. pose proof (reachable_inv _ _ _ Hm Hr) as HI.
  destruct (inv_channel _ HI) as [C1 C2 C3 C4]. split.
  - intros t p Ha. destruct (quiescent_waits s t p HI Hq Ha) as [?|[(_ & _ & ? & _)|(_ & _ & ? & _)]]; congruence.
  - unfold destructor. co_unfold. rewrite Hs, Hc, C3 by done. simpl.
    destruct (mWaitingReceiver (chan s)); [done|]. destruct C1 as (_ & ? & _); congruence.
Qed.
End closing.

(** ** Resizing *)

(** [n] steps of thread [t] after the call [k]. *)
Definition call_and_run {T} (t : nat) (k : call T) (n : nat) : list (nat * action T) :=
  (t, ACall k) :: replicate n (t, AStep).

Definition resize_while_full : list (nat * action nat) :=
  call_and_run 0 (KPush 7) 1 ++ call_and_run 1 (KSetMax 2) 3 ++ [(0, AStep)] ++ call_and_run 1 KPop 2.

(** [setMaxQueueSize] wakes the senders that the larger queue has room
    for, but tells them [false]: [push] reports a failure although the value
    was accepted and is popped later, and the receivers are not closed. *)
Theorem resize_refuses_accepted_value :
  exists s, run next_ok resize_while_full (init 2 1) = Some s /\
    results s = [(0, PushRet (Ret false)); (1, PopRet (Ret (Some 7)))] /\
    mReceiverClosed (chan s) = false.
Proof.
  eexists. split; [vm_compute; reflexivity|split; vm_compute; reflexivity].
Qed.

(** [makeBufferedChannel(m)] resizes the empty channel and wakes nobody. *)
Lemma init_is_make {T} n m : 0 < m ->
  setMaxQueueSize_locked m (make (T := T)) = (Ret [], chan (init n m)).
Proof.
  intros Hm. unfold setMaxQueueSize_locked, make. co_unfold. simpl.
  replace (0 <? m) with true by (symmetry; by apply Nat.ltb_lt). simpl. rewrite wake_senders_spec. simpl. by rewrite ?take_nil, ?drop_nil.
Qed.

(** ** A sample run

    Thread 0 pushes 1 and 2 and is held back by the second; thread 1 pops
    both, sees the end, and both ends are closed. *)

Module Sample.
Definition held_back : list (nat * action nat) :=
  call_and_run 0 (KPush 1) 2 ++ call_and_run 0 (KPush 2) 1.
Definition labels : list (nat * action nat) :=
  held_back ++ call_and_run 1 KPop 3 ++ [(0, AStep)] ++ call_and_run 1 KPop 2 ++
  call_and_run 0 KCloseSender 2 ++ call_and_run 1 KPop 2 ++ call_and_run 1 KCloseReceiver 2.
Definition waiting : state nat := default (init 2 2) (run next_ok held_back (init 2 2)).
Definition final : state nat := default (init 2 2) (run next_ok labels (init 2 2)).
Definition refused : list (nat * action nat) :=
  call_and_run 1 KCloseReceiver 2 ++ call_and_run 0 (KPush 1) 2.
Definition after_refusal : state nat := default (init 2 2) (run next_fixed refused (init 2 2)).

Lemma reach_waiting : reachable next_ok (init 2 2) waiting.
Proof. exists held_back. vm_compute. reflexivity. Qed.
Lemma reach_waiting_fixed : reachable next_fixed (init 2 2) waiting.
Proof. exists held_back. vm_compute. reflexivity. Qed.
Lemma reach_final : reachable next_ok (init 2 2) final.
Proof. exists labels. vm_compute. reflexivity. Qed.

Lemma final_quiescent : quiescent final.
Proof.
  intros [|[|t]]; [vm_compute; reflexivity..|].
  unfold next_ok. simpl. by rewrite (lookup_ge_None_2 (threads final)) by (vm_compute; lia).
Qed.
End Sample.

Lemma buffered_fifo_exactly_once_witness :
  accepted Sample.final = [1; 2] /\
  (accepted Sample.final = delivered Sample.final ++ mReadyData (chan Sample.final) /\
   delivered Sample.final ≡ₚ popped Sample.final ++ in_flight Sample.final).
Proof.
  split; [vm_compute; reflexivity|].
  apply (buffered_fifo_exactly_once 2 2); [lia|apply Sample.reach_final].
Defined.

Lemma nullopt_means_drained_witness :
  drained (chan Sample.final) /\
  accepted Sample.final = delivered Sample.final.
Proof.
  apply (nullopt_means_drained 2 2 Sample.final 1); [lia|apply Sample.reach_final|].
  apply list_elem_of_In. vm_compute. tauto.
Defined.

Lemma buffered_never_fails_witness :
  length (results Sample.final) = 5 /\
  ((forall t f, threads Sample.final !! t <> Some (CFault f)) /\
   Forall (fun tr => returns (snd tr)) (results Sample.final)).
Proof.
  split; [vm_compute; reflexivity|].
  apply (buffered_never_fails 2 2); [lia|apply Sample.reach_final].
Defined.

Lemma push_false_means_closed_witness : mReceiverClosed (chan Sample.after_refusal) = true.
Proof.
  apply (push_false_means_closed 2 2 _ 0); [lia|exists Sample.refused; vm_compute; reflexivity|].
  apply list_elem_of_In. vm_compute. tauto.
Defined.



Lemma closed_channel_destructible_witness :
  destructor (chan Sample.final) = (Ret tt, chan Sample.final).
Proof.
  apply (closed_channel_destructible 2 2);
    [lia|apply Sample.reach_final|apply Sample.final_quiescent|vm_compute; reflexivity|vm_compute; reflexivity].
Defined.
