(* ===== verification/BufferedFutures.v ===== *)
(** * [BufferedChannel] with every access to a future

    In [BufferedChannel.v] a notification and a wait are one step each. Here
    [set_value] is the assignment, the exchange of the continuation word and the call
    of who waits; [co::await] is the check, the suspension and the resumption, as
    [LightFutureData] has them, and all of these interleave. The finer system
    refines the coarser one, so that what is proved there holds here; and it comes to
    rest only where the coarser one does. *)

From S2P Require Import Prelude Future BufferedChannel BufferedInv BufferedProps.

(** ** The finer system *)

(** How far a thread is inside of the step that it does next. *)
Inductive micro : Type :=
  | MStart
  | MAssigned          (** [set_value]: the value is assigned; before the exchange *)
  | MCall (w : nat)    (** [on_ready]: before the call of the task that thread [w] has left *)
  | MSuspend           (** [co::await]: [await_ready] was false; before [suspend] *)
  | MBlocked           (** ... suspended, or waiting for its condition variable *)
  | MResume.           (** ... before [await_resume] *)

#[export] Instance micro_eq_dec : EqDecision micro.
Proof. solve_decision. Defined.

Record fine (T : Type) : Type := Fine {
  base : state T;         (** with the continuation words as they are *)
  micros : list micro;
}.
Arguments Fine {T} _ _.
Arguments base {T} _.
Arguments micros {T} _.

(** Whom a thread notifies of what. *)
Inductive notice (T : Type) : Type :=
  | ToReceiver (w : nat) (v : option T)
  | ToSender (w : nat) (b : bool).
Arguments ToReceiver {T} _ _.
Arguments ToSender {T} _ _.

Section system.
Context {T : Type}.
Implicit Types (s : state T) (p : pc T) (f : fine T) (n : notice T).

Definition fine_init (n maxSize : nat) : fine T := Fine (init n maxSize) (replicate n MStart).

(** The notification that a thread is about to send, and how it goes on. *)
Definition notifies p : option (notice T * pc T) :=
  match p with
  | CNotifyReceiver r v => Some (ToReceiver r (Some v), CAwaitSend)
  | CNotifySender w => Some (ToSender w true, CAwaitRecv)
  | CNotifyEmpty (r :: l) => Some (ToReceiver r None, CNotifyEmpty l)
  | CNotifyFalse (w :: l) => Some (ToSender w false, CNotifyFalse l)
  | _ => None
  end.

(** [value = val], in the future of the notified thread, if it is there. *)
Definition assign n s : option (state T) :=
  match n with
  | ToReceiver w v => (fun d => put_rfut w (snd (LightFuture.assign_value (Val v) d)) s) <$> rfut s !! w
  | ToSender w b => (fun d => put_sfut w (snd (LightFuture.assign_value (Val b) d)) s) <$> sfut s !! w
  end.

(** [on_ready()] up to the call of the continuation. *)
Definition publish n s : outcome (option nat) * state T :=
  match n with
  | ToReceiver w _ =>
      match rfut s !! w with
      | Some d => let '(o, d) := LightFuture.on_ready d in (o, put_rfut w d s)
      | None => (Crash UseAfterFree, s)
      end
  | ToSender w _ =>
      match sfut s !! w with
      | Some d => let '(o, d) := LightFuture.on_ready d in (o, put_sfut w d s)
      | None => (Crash UseAfterFree, s)
      end
  end.

(** [co::await(self)] of thread [t]. *)
Definition await_ready (t : nat) p s : option bool :=
  match p with
  | CAwaitSend => LightFuture.await_ready <$> sfut s !! t
  | CAwaitRecv => LightFuture.await_ready <$> rfut s !! t
  | _ => None
  end.

Definition await_suspend (t : nat) p s : outcome bool * state T :=
  match p with
  | CAwaitSend =>
      match sfut s !! t with
      | Some d => let '(o, d) := LightFuture.await_suspend t d in (o, put_sfut t d s)
      | None => (Crash UseAfterFree, s)
      end
  | CAwaitRecv =>
      match rfut s !! t with
      | Some d => let '(o, d) := LightFuture.await_suspend t d in (o, put_rfut t d s)
      | None => (Crash UseAfterFree, s)
      end
  | _ => (Crash AssertFailed, s)
  end.

(** [await_resume()], and the end of the call. *)
Definition await_resume (t : nat) p s : state T :=
  match p with
  | CAwaitSend =>
      match (fun d => fst (LightFuture.await_resume d)) <$> sfut s !! t with
      | Some (Crash e) => goto t (CFault e) s
      | Some o => return_ t (PushRet o) s
      | None => goto t (CFault UseAfterFree) s
      end
  | CAwaitRecv =>
      match (fun d => fst (LightFuture.await_resume d)) <$> rfut s !! t with
      | Some (Crash e) => goto t (CFault e) s
      | Some o => return_ t (PopRet o) s
      | None => goto t (CFault UseAfterFree) s
      end
  | _ => goto t (CFault AssertFailed) s
  end.

Definition step_to (t : nat) (q : micro) s f : fine T := Fine s (<[t := q]> (micros f)).
Definition fault_to (t : nat) (e : fault) s f : fine T := step_to t MStart (goto t (CFault e) s) f.

Definition start_step (t : nat) p f : option (fine T) :=
  match notifies p, p with
  | Some (n, _), _ =>
      Some match assign n (base f) with
           | Some s => step_to t MAssigned s f
           | None => fault_to t UseAfterFree (base f) f
           end
  | None, (CAwaitSend | CAwaitRecv) =>
      Some match await_ready t p (base f) with
           | Some true => step_to t MResume (base f) f
           | Some false => step_to t MSuspend (base f) f
           | None => fault_to t UseAfterFree (base f) f
           end
  | None, _ => (fun s => step_to t MStart s f) <$> thread_step t p (base f)
  end.

Definition assigned_step (t : nat) p f : option (fine T) :=
  match notifies p with
  | Some (n, p') =>
      Some match publish n (base f) with
           | (Ret (Some w), s) => step_to t (MCall w) (goto t p' s) f
           | (Ret None, s) => step_to t MStart (goto t p' s) f
           | (Throw _, s) => fault_to t Terminated s f
           | (Crash e, s) => fault_to t e s f
           end
  | None => None
  end.

Definition suspend_step (t : nat) p f : fine T :=
  match await_suspend t p (base f) with
  | (Ret true, s) => step_to t MBlocked s f
  | (Ret false, s) => step_to t MResume s f
  | (Throw _, s) => fault_to t Terminated s f
  | (Crash e, s) => fault_to t e s f
  end.

(** The task of a thread that is suspended lets it go on; a task of another one is
    gone. *)
Definition call_step (t w : nat) f : fine T :=
  match micros f !! w with
  | Some MBlocked => Fine (base f) (<[t := MStart]> (<[w := MResume]> (micros f)))
  | _ => fault_to t UseAfterFree (base f) f
  end.

Definition micro_step (t : nat) p (q : micro) f : option (fine T) :=
  match q with
  | MStart => start_step t p f
  | MAssigned => assigned_step t p f
  | MCall w => Some (call_step t w f)
  | MSuspend => Some (suspend_step t p f)
  | MBlocked => None
  | MResume => Some (step_to t MStart (await_resume t p (base f)) f)
  end.

Definition fine_next (l : nat * action T) f : option (fine T) :=
  let '(t, a) := l in
  if allowed l (base f) then
    match threads (base f) !! t, micros f !! t with
    | Some p, Some q =>
        match a, p, q with
        | ACall k, CIdle, MStart => Some (step_to t MStart (goto t (CEnter k) (base f)) f)
        | ACall _, _, _ => None
        | AStep, _, _ => micro_step t p q f
        end
    | _, _ => None
    end
  else None.

(** ** What the coarser system sees *)

(** A future that is not ready is as it was made. *)
Definition mask {A} (d : LightFutureData nat A) : LightFutureData nat A :=
  if LightFuture.is_ready d then d else LightFuture.make.

Definition masked s : state T :=
  St (chan s) (mask <$> sfut s) (mask <$> rfut s) (threads s) (results s) (accepted s) (delivered s).

Definition coarse f : state T := masked (base f).

Lemma mask_self {A} (v : option A) : mask (self_future v) = self_future v.
Proof. by destruct v. Qed.

Lemma mask_ready {A} (d : LightFutureData nat A) : LightFuture.is_ready d = true -> mask d = d.
Proof. unfold mask. by intros ->. Qed.

Lemma mask_waiting {A} (d : LightFutureData nat A) : LightFuture.is_ready d = false -> mask d = LightFuture.make.
Proof. unfold mask. by intros ->. Qed.

Lemma masked_make {A} (d : LightFutureData nat A) : mask d = LightFuture.make -> LightFuture.is_ready d = false.
Proof. unfold mask. destruct (LightFuture.is_ready d) eqn:E; [by intros ->|done]. Qed.

Lemma masked_put_sfut t d s : masked (put_sfut t d s) = put_sfut t (mask d) (masked s).
Proof. unfold masked, put_sfut. simpl. by rewrite fmap_insert. Qed.
Lemma masked_put_rfut t d s : masked (put_rfut t d s) = put_rfut t (mask d) (masked s).
Proof. unfold masked, put_rfut. simpl. by rewrite fmap_insert. Qed.
Lemma masked_return t r s : masked (return_ t r s) = return_ t r (masked s).
Proof. unfold masked, return_. simpl. by rewrite !fmap_delete. Qed.

(** A critical section does not look at a future. *)
Lemma masked_enter t k s : enter t k (masked s) = masked (enter t k s).
Proof.
  destruct k as [v| | | |m]; simpl; unfold enter_push, enter_pop, enter_locked; simpl.
  - destruct (push_locked _ _ _) as [[[[r|] [[]|]]|e|e] c]; try done; unfold masked; simpl; rewrite ?fmap_insert, ?mask_self; done.
  - destruct (pop_locked _ _) as [[[w r]|e|e] c]; try done. unfold masked. simpl. by rewrite fmap_insert, mask_self.
  - by destruct (closeSender_locked _) as [[l|e|e] c].
  - by destruct (closeReceiver_locked _) as [[l|e|e] c].
  - by destruct (setMaxQueueSize_locked _ _) as [[l|e|e] c].
Qed.

Lemma allowed_masked l s : allowed l (masked s) = allowed l s.
Proof. by destruct l as [t [[]|]]. Qed.
End system.

(** ** The invariant *)

Section invariant.
Context {T : Type}.
Implicit Types (s : state T) (p : pc T) (f : fine T) (n : notice T).

(** The continuation word of the future that thread [t] awaits. *)
Definition word (t : nat) s : option (handle nat) :=
  match threads s !! t with
  | Some CAwaitSend => continuationPtr <$> sfut s !! t
  | Some CAwaitRecv => continuationPtr <$> rfut s !! t
  | _ => None
  end.

(** How many threads are about to call the task of thread [t]. *)
Definition calls (t : nat) (q : micro) : nat := if decide (q = MCall t) then 1 else 0.
Definition callers (t : nat) f : nat := sum_list_with (calls t) (micros f).

(** A thread is suspended exactly if its task is in the word, or about to be called. *)
Definition thread_ok (t : nat) (h : option (handle nat)) (q : micro) (c : nat) : Prop :=
  match q with
  | MBlocked => h = Some (TaskPtr t) /\ c = 0 \/ h = Some InvalidHandle /\ c = 1
  | MResume => h = Some InvalidHandle /\ c = 0
  | MSuspend => (h = Some EmptyHandle \/ h = Some InvalidHandle) /\ c = 0
  | MStart | MAssigned | MCall _ => (forall x, h <> Some (TaskPtr x)) /\ c = 0
  end.

Definition target n : nat := match n with ToReceiver w _ | ToSender w _ => w end.

Definition assigned n s : Prop :=
  match n with
  | ToReceiver w v => exists h, rfut s !! w = Some (LFD h (Val v))
  | ToSender w b => exists h, sfut s !! w = Some (LFD h (Val b))
  end.

Record fine_ok f : Prop := {
  fine_length : length (micros f) = length (threads (base f));
  fine_coarse : Inv (coarse f);
  fine_thread t q : micros f !! t = Some q -> thread_ok t (word t (base f)) q (callers t f);
  fine_assigned t p : threads (base f) !! t = Some p -> micros f !! t = Some MAssigned ->
    exists n p', notifies p = Some (n, p') /\ assigned n (base f);
  fine_callee t w : micros f !! t = Some (MCall w) -> w < length (micros f);
}.

(** *** Who is notified *)

(** The notified thread awaits a future that is not ready. *)
Definition waits_for n s : Prop :=
  match n with
  | ToReceiver w _ => threads s !! w = Some CAwaitRecv /\ exists d, rfut s !! w = Some d /\ LightFuture.is_ready d = false
  | ToSender w _ => threads s !! w = Some CAwaitSend /\ exists d, sfut s !! w = Some d /\ LightFuture.is_ready d = false
  end.

Lemma notice_targets p n p' :
  notifies p = Some (n, p') ->
  match n with
  | ToReceiver w _ => receiver_targets p = w :: receiver_targets p'
  | ToSender w _ => sender_targets p = w :: sender_targets p'
  end.
Proof. intros H. by destruct p as [| | | |[]|[]| | |]; simplify_eq/=. Qed.

Lemma notified_waits s t p n p' :
  Inv (masked s) -> threads s !! t = Some p -> notifies p = Some (n, p') -> waits_for n s.
Proof.
  intros HI Ha Hn%notice_targets. destruct n as [w v|w v]; simpl.
  - destruct (waiting_receiver _ w HI) as [Hw Hf]; [right; exists t, p; rewrite Hn; split; [done|by left]|].
    simpl in Hf. rewrite lookup_fmap in Hf. apply fmap_Some in Hf as (d & Hd & E). eauto using masked_make.
  - destruct (waiting_sender _ w HI) as [Hw Hf]; [right; exists t, p; rewrite Hn; split; [done|by left]|].
    simpl in Hf. rewrite lookup_fmap in Hf. apply fmap_Some in Hf as (d & Hd & E). eauto using masked_make.
Qed.

(** Two threads that refer to the same one are one thread. *)
Lemma targets_apart {A} aw (fut : gmap nat (LightFutureData nat A)) q (tg : pc T -> list nat) l t u p1 p2 w l1 l2 :
  (forall u, refs q tg l u = blocked aw fut l u) -> t <> u -> l !! t = Some p1 -> l !! u = Some p2 ->
  tg p1 = w :: l1 -> tg p2 = w :: l2 -> False.
Proof.
  intros H Hne H1 H2 E1 E2. specialize (H w). pose proof (blocked_le aw fut l w). unfold refs in H.
  pose proof (sum_lookup_le2 (fun p => occ (tg p) w) l t u p1 p2 Hne H1 H2) as Hs. simpl in Hs.
  rewrite E1, E2 in Hs. simpl in Hs. destruct (Nat.eq_dec w w); [lia|done].
Qed.

(** Nobody is notified by two threads. *)
Lemma notices_apart s t u p1 n1 p1' p2 n2 p2' :
  Inv (masked s) -> t <> u -> threads s !! t = Some p1 -> threads s !! u = Some p2 ->
  notifies p1 = Some (n1, p1') -> notifies p2 = Some (n2, p2') -> target n1 <> target n2.
Proof.
  intros HI Hne H1 H2 Hn1 Hn2 E.
  pose proof (notified_waits s t p1 n1 p1' HI H1 Hn1) as Hw1. pose proof (notified_waits s u p2 n2 p2' HI H2 Hn2) as Hw2.
  apply notice_targets in Hn1, Hn2.
  destruct n1 as [w v|w v], n2 as [w' v'|w' v']; simpl in E, Hw1, Hw2; subst w'; try (destruct Hw1, Hw2; congruence).
  - by apply (targets_apart _ _ _ _ _ t u p1 p2 w _ _ (inv_recv _ HI) Hne H1 H2 Hn1 Hn2).
  - by apply (targets_apart _ _ _ _ _ t u p1 p2 w _ _ (inv_send _ HI) Hne H1 H2 Hn1 Hn2).
Qed.

(** The future that a thread awaits. *)
Lemma own_future s t p :
  Inv (masked s) -> threads s !! t = Some p ->
  match p with
  | CAwaitSend => exists d, sfut s !! t = Some d /\ (LightFuture.is_ready d = false \/ exists b, d = set_to b)
  | CAwaitRecv => exists d, rfut s !! t = Some d /\ (LightFuture.is_ready d = false \/ exists r, d = set_to r)
  | _ => True
  end.
Proof.
  intros HI Ha. pose proof (inv_futures _ HI t p Ha) as H.
  assert (Hm : forall A (m : gmap nat (LightFutureData nat A)),
    (mask <$> m) !! t = Some LightFuture.make \/ (exists b, (mask <$> m) !! t = Some (set_to b)) ->
    exists d, m !! t = Some d /\ (LightFuture.is_ready d = false \/ exists b, d = set_to b)).
  { intros A m. rewrite lookup_fmap. destruct (m !! t) as [d|]; simpl; [|intros [?|[b ?]]; done].
    intros [E|[b E]]; exists d; (split; [done|]); simplify_eq; [left; by apply masked_make|].
    right. exists b. revert E. unfold mask. by destruct (LightFuture.is_ready d). }
  destruct p; try done; destruct H as [_ H]; by apply Hm.
Qed.

(** *** Steps *)

(** What is left inside of a step of the coarser system. *)
Definition rank (q : micro) : nat :=
  match q with MCall _ => 5 | MStart => 4 | MAssigned | MSuspend => 3 | MBlocked => 2 | MResume => 1 end.
Definition ranks f : nat := sum_list_with rank (micros f).

Definition good (t : nat) f f' : Prop :=
  fine_ok f' /\
  (coarse f' = coarse f /\ ranks f' < ranks f \/
   next_ok (t, AStep) (coarse f) = Some (coarse f') /\ ranks f' <= ranks f + 4).

Lemma word_ext u s s' :
  threads s' !! u = threads s !! u -> continuationPtr <$> sfut s' !! u = continuationPtr <$> sfut s !! u ->
  continuationPtr <$> rfut s' !! u = continuationPtr <$> rfut s !! u -> word u s' = word u s.
Proof. unfold word. intros -> -> ->. done. Qed.

Lemma callers_insert f t q q' x s :
  micros f !! t = Some q -> callers x (step_to t q' s f) + calls x q = callers x f + calls x q'.
Proof. intros Hq. by apply sum_insert. Qed.

(** ... which seen from outside is nothing, or a step of the coarser system. *)
Lemma good_hidden f t q q' s :
  micros f !! t = Some q -> rank q' < rank q -> fine_ok (step_to t q' s f) -> masked s = coarse f ->
  good t f (step_to t q' s f).
Proof.
  intros Hq Hr Hok Hm. split; [done|]. left. split; [done|].
  pose proof (sum_insert rank _ _ _ q' Hq) as E. unfold ranks. simpl. lia.
Qed.

Lemma good_step f t q q' s :
  micros f !! t = Some q -> fine_ok (step_to t q' s f) -> next_ok (t, AStep) (coarse f) = Some (masked s) ->
  good t f (step_to t q' s f).
Proof.
  intros Hq Hok Hm. split; [done|]. right. split; [done|].
  pose proof (sum_insert rank _ _ _ q' Hq) as E. unfold ranks. simpl.
  assert (rank q' <= rank q + 4) by (destruct q, q'; simpl; lia). lia.
Qed.

Definition calling (q : micro) : bool := match q with MCall _ => true | _ => false end.

Lemma calls_not x q : calling q = false -> calls x q = 0.
Proof. unfold calls. case_decide; by subst. Qed.

(** A step of thread [t] that touches no task of another thread. *)
Lemma own_ok f s' t p p' q q' :
  fine_ok f -> threads (base f) !! t = Some p -> micros f !! t = Some q -> calling q = false -> calling q' = false ->
  threads s' = <[t := p']> (threads (base f)) -> Inv (masked s') ->
  (forall u, u <> t -> word u s' = word u (base f)) ->
  thread_ok t (word t s') q' (callers t f) ->
  (forall u pu n pn, u <> t -> threads (base f) !! u = Some pu -> notifies pu = Some (n, pn) ->
    assigned n (base f) -> assigned n s') ->
  (q' = MAssigned -> exists n pn, notifies p' = Some (n, pn) /\ assigned n s') ->
  fine_ok (step_to t q' s' f).
Proof.
  intros [Hl HI Ht Has Hce] Ha Hq Hc Hc' Hth HI' Hw Hok Hn Hnew.
  assert (Hcal : forall x, callers x (step_to t q' s' f) = callers x f).
  { intros x. pose proof (callers_insert f t q q' x s' Hq) as E. rewrite !calls_not in E by done. lia. }
  split; simpl.
  - by rewrite Hth, !length_insert.
  - done.
  - intros u r [(<- & <- & _)|[Hne Hr]]%list_lookup_insert_Some; rewrite Hcal; [done|]. rewrite Hw by done. by apply Ht.
  - rewrite Hth. intros u r [(<- & <- & _)|[Hne Hr]]%list_lookup_insert_Some [(E & Hm & _)|[Hne2 Hm]]%list_lookup_insert_Some;
      try done; [by apply Hnew|].
    destruct (Has u r Hr Hm) as (n & pn & Hnot & Hasg). eauto 6.
  - rewrite length_insert. intros u w [(_ & E & _)|[_ Hu]]%list_lookup_insert_Some; [by subst|eauto].
Qed.

Lemma goto_same t p s : threads s !! t = Some p -> <[t := p]> (threads s) = threads s.
Proof. apply list_insert_id. Qed.

(** A critical section, or the end of a call. *)
Lemma plain_step s s' t p :
  threads s !! t = Some p -> notifies p = None -> p <> CAwaitSend -> p <> CAwaitRecv -> thread_step t p s = Some s' ->
  thread_step t p (masked s) = Some (masked s') /\
  (forall u, u <> t -> sfut s' !! u = sfut s !! u /\ rfut s' !! u = rfut s !! u) /\
  (exists p', threads s' = <[t := p']> (threads s)) /\ (forall x, word t s' <> Some (TaskPtr x)).
Proof.
  intros Ha Hn H1 H2 Hs. apply lookup_lt_Some in Ha.
  destruct p as [|k|r v|w|[|r l]|[|w l]| | |e]; try done; simpl in Hs; simplify_eq.
  - simpl. rewrite masked_enter. split; [done|]. destruct k as [v| | | |m]; simpl; unfold enter_push, enter_pop, enter_locked.
    + destruct (push_locked _ _ _) as [[[[r|] [[]|]]|e|e] c]; simpl; (split; [by intros u Hu; rewrite ?lookup_insert_ne|]);
        (split; [by eexists|]); unfold word; simpl; rewrite list_lookup_insert_eq by done; simpl; rewrite ?lookup_insert_eq; done.
    + destruct (pop_locked _ _) as [[[[w|] [[x|]|]]|e|e] c]; simpl; (split; [by intros u Hu; rewrite ?lookup_insert_ne|]);
        (split; [by eexists|]); unfold word; simpl; rewrite list_lookup_insert_eq by done; simpl; rewrite ?lookup_insert_eq; done.
    + destruct (closeSender_locked _) as [[l|e|e] c]; simpl; (split; [done|]); (split; [by eexists|]);
        unfold word; simpl; by rewrite list_lookup_insert_eq.
    + destruct (closeReceiver_locked _) as [[l|e|e] c]; simpl; (split; [done|]); (split; [by eexists|]);
        unfold word; simpl; by rewrite list_lookup_insert_eq.
    + destruct (setMaxQueueSize_locked _ _) as [[l|e|e] c]; simpl; (split; [done|]); (split; [by eexists|]);
        unfold word; simpl; by rewrite list_lookup_insert_eq.
  - split_and!; [done|done|by eexists|]. unfold word. simpl. by rewrite list_lookup_insert_eq.
  - split_and!; [done|done|by eexists|]. unfold word. simpl. by rewrite list_lookup_insert_eq.
Qed.

Lemma coarse_step f t p s' :
  fine_ok f -> threads (base f) !! t = Some p -> thread_step t p (masked (base f)) = Some (masked s') ->
  next_ok (t, AStep) (coarse f) = Some (masked s') /\ Inv (masked s').
Proof.
  intros Hok Ha Hs. assert (Hn : next_ok (t, AStep) (coarse f) = Some (masked s')).
  { unfold next_ok. simpl. by rewrite Ha. }
  split; [done|]. by eapply chan_inv_next; [apply Hok|].
Qed.

(** What was assigned stays, where a thread that is not notified changes its future. *)
Lemma assigned_other n s s' :
  (forall u, u = target n -> sfut s' !! u = sfut s !! u /\ rfut s' !! u = rfut s !! u) ->
  assigned n s -> assigned n s'.
Proof. intros H. destruct (H _ eq_refl) as [Hs Hr]. destruct n; simpl in *; by rewrite ?Hs, ?Hr. Qed.

Lemma plain_good f f' t p :
  fine_ok f -> threads (base f) !! t = Some p -> micros f !! t = Some MStart ->
  notifies p = None -> p <> CAwaitSend -> p <> CAwaitRecv ->
  (fun s => step_to t MStart s f) <$> thread_step t p (base f) = Some f' -> good t f f'.
Proof.
  intros Hok Ha Hq Hn H1 H2 Hs. apply fmap_Some in Hs as (s' & Hs & ->).
  destruct (plain_step _ _ _ _ Ha Hn H1 H2 Hs) as (Hm & Hfut & (p' & Hth) & Hw).
  destruct (coarse_step f t p s' Hok Ha Hm) as [Hnext HI]. apply (good_step _ _ _ _ _ Hq); [|done].
  pose proof (fine_thread _ Hok t _ Hq) as [_ Hc].
  eapply own_ok; try done.
  - intros u Hu. destruct (Hfut u Hu) as [Es Er]. apply word_ext; rewrite ?Es, ?Er; [|done..].
    by rewrite Hth, list_lookup_insert_ne.
  - intros u pu n pn Hu Hpu Hnu. apply assigned_other. intros x ->. apply Hfut. intros E.
    pose proof (notified_waits _ _ _ _ _ (fine_coarse _ Hok) Hpu Hnu) as Hwait.
    destruct n; simpl in *; subst; destruct Hwait as [Hwait _]; congruence.
Qed.

(** The first half of [set_value] cannot be seen. *)
Lemma assign_hidden n s :
  waits_for n s -> exists s', assign n s = Some s' /\ masked s' = masked s /\ assigned n s' /\
    threads s' = threads s /\ (forall u, word u s' = word u s) /\
    forall n', target n' <> target n -> assigned n' s -> assigned n' s'.
Proof.
  destruct n as [w v|w b]; simpl; intros (Hw & [h x] & Hd & Hr); rewrite Hd; simpl; eexists; (split; [reflexivity|]).
  - split_and!; simpl.
    + rewrite masked_put_rfut, mask_waiting by done. unfold put_rfut, masked. simpl. f_equal.
      apply insert_id. by rewrite lookup_fmap, Hd, <- (mask_waiting _ Hr).
    + rewrite lookup_insert_eq. eauto.
    + done.
    + intros u. apply word_ext; simpl; try done. destruct (decide (u = w)) as [->|];
        [by rewrite lookup_insert_eq, Hd|by rewrite lookup_insert_ne].
    + intros n' Hne. apply assigned_other. intros u ->. simpl. by rewrite lookup_insert_ne.
  - split_and!; simpl.
    + rewrite masked_put_sfut, mask_waiting by done. unfold put_sfut, masked. simpl. f_equal.
      apply insert_id. by rewrite lookup_fmap, Hd, <- (mask_waiting _ Hr).
    + rewrite lookup_insert_eq. eauto.
    + done.
    + intros u. apply word_ext; simpl; try done. destruct (decide (u = w)) as [->|];
        [by rewrite lookup_insert_eq, Hd|by rewrite lookup_insert_ne].
    + intros n' Hne. apply assigned_other. intros u ->. simpl. by rewrite lookup_insert_ne.
Qed.

Lemma assign_good f f' t p n p' :
  fine_ok f -> threads (base f) !! t = Some p -> micros f !! t = Some MStart -> notifies p = Some (n, p') ->
  Some match assign n (base f) with
       | Some s => step_to t MAssigned s f
       | None => fault_to t UseAfterFree (base f) f
       end = Some f' -> good t f f'.
Proof.
  intros Hok Ha Hq Hn Hs. pose proof (fine_coarse _ Hok) as HI.
  destruct (assign_hidden n (base f) (notified_waits _ _ _ _ _ HI Ha Hn)) as (s' & E & Hm & Hasg & Hth & Hw & Hother).
  rewrite E in Hs. injection Hs as <-. apply (good_hidden _ _ _ _ _ Hq); [simpl; lia| |done].
  eapply (own_ok f s' t p p); try done.
  - by rewrite Hth, goto_same.
  - by rewrite Hm.
  - rewrite Hw. by apply (fine_thread _ Hok t _ Hq).
  - intros u pu n' pn Hu Hpu Hnu. apply Hother. by apply (notices_apart _ u t pu n' pn p n p' HI).
  - intros _. eauto.
Qed.

(** The check of [await_ready], and [suspend]. *)
Lemma check_good f f' t p :
  fine_ok f -> threads (base f) !! t = Some p -> micros f !! t = Some MStart -> p = CAwaitSend \/ p = CAwaitRecv ->
  Some match await_ready t p (base f) with
       | Some true => step_to t MResume (base f) f
       | Some false => step_to t MSuspend (base f) f
       | None => fault_to t UseAfterFree (base f) f
       end = Some f' -> good t f f'.
Proof.
  intros Hok Ha Hq Hp Hs. pose proof (fine_coarse _ Hok) as HI.
  pose proof (own_future _ t p HI Ha) as Hown. pose proof (fine_thread _ Hok t _ Hq) as [Hw Hc].
  assert (Hd : exists h, word t (base f) = Some h /\ await_ready t p (base f) = Some (bool_decide (h = InvalidHandle))).
  { unfold word. rewrite Ha. destruct Hp as [-> | ->]; destruct Hown as (d & Hd & _); simpl; rewrite Hd; by eexists. }
  destruct Hd as (h & Hh & Hr). rewrite Hr in Hs.
  case_bool_decide as Eh; simplify_eq; (apply (good_hidden _ _ _ _ _ Hq); [simpl; lia| |done]); (eapply (own_ok f (base f) t p p); try done; try by rewrite goto_same).
  rewrite Hh. split; [|done]. destruct h as [| |x]; [by left|done|by destruct (Hw x)].
Qed.

Lemma suspend_hidden s t p h :
  Inv (masked s) -> threads s !! t = Some p -> word t s = Some h -> h = EmptyHandle \/ h = InvalidHandle ->
  exists s', await_suspend t p s = (Ret (bool_decide (h = EmptyHandle)), s') /\ masked s' = masked s /\
    threads s' = threads s /\ (forall u, u <> t -> word u s' = word u s) /\
    word t s' = Some (if decide (h = EmptyHandle) then TaskPtr t else InvalidHandle) /\
    forall n, assigned n s -> assigned n s'.
Proof.
  intros HI Ha Hw Hh. unfold word in Hw |- *. rewrite Ha in Hw. pose proof (own_future _ t p HI Ha) as Hown.
  destruct p; try done; destruct Hown as ([h' x] & Hd & _); rewrite Hd in Hw; simpl in Hw; injection Hw as ->;
    unfold await_suspend; rewrite Hd; destruct Hh as [-> | ->]; simpl; eexists; (split; [reflexivity|]).
  all: split_and!; [|done|intros u Hu; apply word_ext; simpl; by rewrite ?lookup_insert_ne|simpl; by rewrite Ha, lookup_insert_eq|].
  all: try (intros [w v|w v]; simpl; intros [h Hh]; try (by eauto); destruct (decide (w = t)) as [->|];
    [rewrite Hd in Hh; simplify_eq; rewrite lookup_insert_eq; by eauto|rewrite lookup_insert_ne by done; by eauto]).
  all: rewrite ?masked_put_sfut, ?masked_put_rfut; unfold put_sfut, put_rfut, masked; simpl; f_equal;
    apply insert_id; by rewrite lookup_fmap, Hd.
Qed.

Lemma suspend_good f t p :
  fine_ok f -> threads (base f) !! t = Some p -> micros f !! t = Some MSuspend -> good t f (suspend_step t p f).
Proof.
  intros Hok Ha Hq. pose proof (fine_coarse _ Hok) as HI. pose proof (fine_thread _ Hok t _ Hq) as [Hw Hc].
  assert (Hh : exists h, word t (base f) = Some h /\ (h = EmptyHandle \/ h = InvalidHandle)) by (destruct Hw; eauto).
  destruct Hh as (h & Hh & Hor).
  destruct (suspend_hidden _ t p h HI Ha Hh Hor) as (s' & E & Hm & Hth & Hother & Hown & Hasg).
  unfold suspend_step. rewrite E. case_bool_decide as Eh.
  - rewrite decide_True in Hown by done. apply (good_hidden _ _ _ _ _ Hq); [simpl; lia| |done].
    eapply (own_ok f s' t p p); try done; [by rewrite Hth, goto_same|by rewrite Hm|by left|by eauto].
  - rewrite decide_False in Hown by done. apply (good_hidden _ _ _ _ _ Hq); [simpl; lia| |done].
    eapply (own_ok f s' t p p); try done; [by rewrite Hth, goto_same|by rewrite Hm|by eauto].
Qed.

Lemma resume_good f t p :
  fine_ok f -> threads (base f) !! t = Some p -> micros f !! t = Some MResume ->
  good t f (step_to t MStart (await_resume t p (base f)) f).
Proof.
  intros Hok Ha Hq. pose proof (fine_coarse _ Hok) as HI. pose proof (fine_thread _ Hok t _ Hq) as [Hw Hc].
  pose proof (own_future _ t p HI Ha) as Hown. unfold word in Hw. rewrite Ha in Hw.
  assert (Hres : exists r, await_resume t p (base f) = return_ t r (base f) /\
    thread_step t p (masked (base f)) = Some (return_ t r (masked (base f))) /\
    forall n, target n = t -> ~ waits_for n (base f)).
  { destruct p; try done; destruct Hown as (d & Hd & Hor); rewrite Hd in Hw; simpl in Hw;
      (destruct Hor as [Hr|[b ->]]; [unfold LightFuture.is_ready in Hr; case_bool_decide; simplify_eq|]);
      simpl; rewrite lookup_fmap, Hd; eexists; (split; [reflexivity|]); (split; [reflexivity|]);
      intros [w v|w v] <-; simpl; intros (Hth & d' & Hd' & Hr'); simplify_eq/=; try congruence; done. }
  destruct Hres as (r & E & Hs & Hnot). rewrite E. rewrite <- masked_return in Hs.
  destruct (coarse_step f t p _ Hok Ha Hs) as [Hnext HI']. apply (good_step _ _ _ _ _ Hq); [|done].
  eapply own_ok; try done.
  - intros u Hu. apply word_ext; simpl; rewrite ?list_lookup_insert_ne, ?lookup_delete_ne by done; done.
  - unfold word. simpl. by rewrite list_lookup_insert_eq by eauto using lookup_lt_Some.
  - intros u pu n pn Hu Hpu Hnu. apply assigned_other. intros x ->. simpl.
    assert (target n <> t) by (intros E'; apply (Hnot n E'); by eapply notified_waits).
    by rewrite !lookup_delete_ne by done.
Qed.

(** The second half of [set_value] is the notification of the coarser system. *)
Lemma publish_spec n s t p p' :
  Inv (masked s) -> threads s !! t = Some p -> notifies p = Some (n, p') -> assigned n s ->
  exists h s', word (target n) s = Some h /\ h <> InvalidHandle /\
    publish n s = (Ret (match h with TaskPtr x => Some x | _ => None end), s') /\
    thread_step t p (masked s) = Some (masked (goto t p' s')) /\ threads s' = threads s /\
    (forall u, u <> target n -> word u s' = word u s) /\ word (target n) s' = Some InvalidHandle /\
    forall n', target n' <> target n -> assigned n' s -> assigned n' s'.
Proof.
  intros HI Ha Hn Hasg. pose proof (notified_waits s t p n p' HI Ha Hn) as Hw. unfold word.
  assert (Hp : thread_step t p (masked s) = Some match n with
    | ToReceiver w v => notify_receiver t w v p' (masked s) | ToSender w b => notify_sender t w b p' (masked s) end)
    by (destruct p as [| | | |[]|[]| | |]; by simplify_eq/=).
  destruct n as [w v|w b]; simpl in *; destruct Hasg as [h Hd]; destruct Hw as (Hth & d & Hd' & Hr); rewrite Hd in Hd';
    injection Hd' as <-; rewrite Hth, Hd; exists h; eexists; (split; [reflexivity|]);
    (assert (Hinv : h <> InvalidHandle) by (intros ->; done)); (split; [done|]);
    (split; [by destruct h|]); split_and!; simpl.
  - rewrite Hp. unfold notify_receiver. simpl. rewrite lookup_fmap, Hd. simpl. rewrite (mask_waiting _ Hr). simpl.
    unfold masked, goto, put_rfut. simpl. by rewrite fmap_insert.
  - done.
  - intros u Hu. by rewrite lookup_insert_ne.
  - by rewrite Hth, lookup_insert_eq.
  - intros n' Hne. apply assigned_other. intros u ->. simpl. by rewrite lookup_insert_ne.
  - rewrite Hp. unfold notify_sender. simpl. rewrite lookup_fmap, Hd. simpl. rewrite (mask_waiting _ Hr). simpl.
    unfold masked, goto, put_sfut. simpl. by rewrite fmap_insert.
  - done.
  - intros u Hu. by rewrite lookup_insert_ne.
  - by rewrite Hth, lookup_insert_eq.
  - intros n' Hne. apply assigned_other. intros u ->. simpl. by rewrite lookup_insert_ne.
Qed.

(** Who has notified awaits a future that is ready, if it awaits. *)
Lemma word_after_notice n s s' t p p' x :
  Inv (masked s) -> threads s !! t = Some p -> notifies p = Some (n, p') -> publish n s = (x, s') ->
  target n <> t -> forall y, word t (goto t p' s') <> Some (TaskPtr y).
Proof.
  intros HI Ha Hn Hp Hne y. pose proof (inv_futures _ HI t p Ha) as Hf. unfold word. simpl.
  assert (Hth : threads s' = threads s /\ sfut s' !! t = sfut s !! t /\ rfut s' !! t = rfut s !! t).
  { destruct n as [w v|w b]; simpl in Hp, Hne; case_match; simplify_eq; try done;
      destruct (LightFuture.on_ready _); simplify_eq; simpl; by rewrite ?lookup_insert_ne. }
  destruct Hth as (-> & Es & Er). rewrite list_lookup_insert_eq by eauto using lookup_lt_Some.
  assert (Hready : forall A (m : gmap nat (LightFutureData nat A)) b, (mask <$> m) !! t = Some (set_to b) ->
    continuationPtr <$> m !! t <> Some (TaskPtr y)).
  { intros A m b. rewrite lookup_fmap. destruct (m !! t) as [[h z]|]; [|done]. simpl. intros [= E] [= ->]. done. }
  destruct p as [| |r v|w|[|r l]|[|w l]| | |]; simplify_eq/=; [rewrite Es|rewrite Er|done..].
  - destruct Hf as [_ Hf]. by eapply Hready.
  - destruct Hf as [_ [z Hf]]. by eapply Hready.
Qed.

(** The notified thread has left its own task, if any, and is then about to be called. *)
Lemma served w h q c :
  thread_ok w (Some h) q c -> h <> InvalidHandle ->
  thread_ok w (Some InvalidHandle) q (c + match h with TaskPtr _ => 1 | _ => 0 end) /\ forall x, h = TaskPtr x -> x = w.
Proof.
  intros Hok Hne. destruct h as [| |x]; [|done|]; destruct q; simpl in *;
    destruct Hok as [[Hok ?]|[Hok ?]] || destruct Hok as [[Hok|Hok] ?] || destruct Hok as [Hok ?]; simplify_eq;
    rewrite ?Nat.add_0_r; try (by destruct (Hok x)); (split; [by auto|intros y [= ->]; done]).
Qed.

Lemma publish_good f f' t p :
  fine_ok f -> threads (base f) !! t = Some p -> micros f !! t = Some MAssigned ->
  assigned_step t p f = Some f' -> good t f f'.
Proof.
  intros Hok Ha Hq Hs. pose proof Hok as [Hl HI Ht Has Hce]. destruct (Has t p Ha Hq) as (n & p' & Hn & Hasg).
  pose proof (notified_waits _ t p n p' HI Ha Hn) as Hwait.
  destruct (publish_spec n _ t p p' HI Ha Hn Hasg) as (h & s' & Hh & Hinv & Hpub & Hstep & Hth & Hother & Hready & Hkeep).
  assert (Hne : target n <> t).
  { intros E. destruct n; simpl in *; subst; destruct Hwait as [E _]; rewrite Ha in E; by simplify_eq. }
  assert (Hw : threads (base f) !! target n <> None) by (destruct n; simpl in *; destruct Hwait as [-> _]; done).
  destruct (lookup_lt_is_Some_2 (micros f) (target n)) as [qw Hqw]; [rewrite Hl; by apply lookup_lt_is_Some, not_eq_None_Some|].
  pose proof (Ht _ _ Hqw) as Hokw. rewrite Hh in Hokw. destruct (served _ _ _ _ Hokw Hinv) as [Hserved Htask].
  pose proof (word_after_notice n _ s' t p p' _ HI Ha Hn Hpub Hne) as Hafter.
  destruct (coarse_step f t p _ Hok Ha Hstep) as [Hnext HI'].
  unfold assigned_step in Hs. rewrite Hn, Hpub in Hs.
  set (q' := match h with TaskPtr x => MCall x | _ => MStart end).
  assert (f' = step_to t q' (goto t p' s') f) as -> by (unfold q'; destruct h; by simplify_eq). clear Hs.
  apply (good_step _ _ _ _ _ Hq); [|done].
  assert (Hq' : forall x, calls x q' = if decide (x = target n) then match h with TaskPtr _ => 1 | _ => 0 end else 0).
  { intros x. unfold calls, q'. destruct h as [| |y]; [by repeat case_decide|done|]. rewrite (Htask y eq_refl).
    repeat case_decide; congruence. }
  assert (Hcal : forall x, callers x (step_to t q' (goto t p' s') f) = callers x f + calls x q').
  { intros x. pose proof (callers_insert f t MAssigned q' x (goto t p' s') Hq) as E. rewrite (calls_not x MAssigned) in E by done. lia. }
  assert (Hwordu : forall u, u <> t -> word u (goto t p' s') = word u s')
    by (intros u Hu; apply word_ext; simpl; by rewrite ?list_lookup_insert_ne).
  split; simpl.
  - by rewrite Hth, !length_insert.
  - done.
  - intros u r [(<- & <- & _)|[Hu Hr]]%list_lookup_insert_Some; rewrite Hcal, Hq'.
    + pose proof (Ht _ _ Hq) as [_ Hc]. rewrite Hc, decide_False by done. unfold q'. by destruct h.
    + rewrite Hwordu by done. case_decide as Hun; [|rewrite Hother, Nat.add_0_r by done; by apply Ht].
      subst u. rewrite Hready. by simplify_eq.
  - rewrite Hth. intros u r [(<- & <- & _)|[Hu Hr]]%list_lookup_insert_Some [(E & Hm & _)|[Hu' Hm]]%list_lookup_insert_Some;
      try done; [unfold q' in Hm; by destruct h|].
    destruct (Has u r Hr Hm) as (n2 & p2 & Hnot & Hasg2). exists n2, p2. split; [done|].
    apply (Hkeep n2); [|done]. by apply (notices_apart (base f) u t r n2 p2 p n p' HI).
  - rewrite length_insert. intros u w [(_ & E & _)|[_ Hu]]%list_lookup_insert_Some; [|eauto].
    unfold q' in E. destruct h as [| |x]; try done. rewrite (Htask x eq_refl) in E. simplify_eq. by eapply lookup_lt_Some.
Qed.

Lemma call_good f t p w :
  fine_ok f -> threads (base f) !! t = Some p -> micros f !! t = Some (MCall w) -> good t f (call_step t w f).
Proof.
  intros Hok Ha Hq. pose proof Hok as [Hl HI Ht Has Hce].
  destruct (lookup_lt_is_Some_2 (micros f) w (Hce _ _ Hq)) as [qw Hqw].
  assert (Hc : 0 < callers w f).
  { pose proof (sum_lookup_le (calls w) _ _ _ Hq) as H. unfold calls at 1 in H. rewrite decide_True in H by done.
    unfold callers. lia. }
  assert (Hb : qw = MBlocked /\ word w (base f) = Some InvalidHandle /\ callers w f = 1).
  { pose proof (Ht _ _ Hqw) as H. destruct qw; simpl in H; try (destruct H; lia). destruct H as [[? ?]|[? ?]]; [lia|done]. }
  destruct Hb as (-> & Hword & Hone). unfold call_step. rewrite Hqw.
  assert (Hne : w <> t) by (intros ->; rewrite Hq in Hqw; by simplify_eq).
  assert (Hcal : forall x, callers x (Fine (base f) (<[t := MStart]> (<[w := MResume]> (micros f)))) + calls x (MCall w) = callers x f).
  { intros x. unfold callers. simpl.
    pose proof (sum_insert (calls x) (micros f) w MBlocked MResume Hqw) as E1.
    pose proof (sum_insert (calls x) (<[w := MResume]> (micros f)) t (MCall w) MStart ltac:(by rewrite list_lookup_insert_ne)) as E2.
    rewrite (calls_not x MBlocked), (calls_not x MResume) in E1 by done. rewrite (calls_not x MStart) in E2 by done. lia. }
  split.
  2: { left. split; [done|]. unfold ranks. simpl.
    pose proof (sum_insert rank (micros f) w MBlocked MResume Hqw) as E1.
    pose proof (sum_insert rank (<[w := MResume]> (micros f)) t (MCall w) MStart ltac:(by rewrite list_lookup_insert_ne)) as E2.
    simpl in *. lia. }
  split; simpl.
  - by rewrite !length_insert.
  - done.
  - intros u r Hr. pose proof (Hcal u) as Hu. destruct (decide (u = t)) as [->|Hut].
    + rewrite list_lookup_insert_eq in Hr by (rewrite length_insert; by eapply lookup_lt_Some). simplify_eq.
      pose proof (Ht _ _ Hq) as [? ?]. split; [done|lia].
    + rewrite list_lookup_insert_ne in Hr by done. destruct (decide (u = w)) as [->|Huw].
      * rewrite list_lookup_insert_eq in Hr by (by eapply lookup_lt_Some). simplify_eq. split; [done|].
        unfold calls in Hu. rewrite decide_True in Hu by done. lia.
      * rewrite list_lookup_insert_ne in Hr by done. unfold calls in Hu. rewrite decide_False in Hu by congruence.
        rewrite Nat.add_0_r in Hu. rewrite Hu. by apply Ht.
  - intros u r Hr [(_ & E & _)|[_ [(_ & E & _)|[_ Hm]]%list_lookup_insert_Some]]%list_lookup_insert_Some; [done|done|eauto].
  - rewrite !length_insert. intros u x [(_ & E & _)|[_ [(_ & E & _)|[_ Hm]]%list_lookup_insert_Some]]%list_lookup_insert_Some;
      [done|done|eauto].
Qed.

Lemma fine_step_good t f f' : fine_ok f -> fine_next (t, AStep) f = Some f' -> good t f f'.
Proof.
  intros Hok Hs. unfold fine_next in Hs. simpl in Hs.
  destruct (threads (base f) !! t) as [p|] eqn:Ha; [|done]. destruct (micros f !! t) as [q|] eqn:Hq; [|done].
  destruct q; simpl in Hs; [|by eapply publish_good|injection Hs as <-; by eapply call_good
    |injection Hs as <-; by apply suspend_good|done|injection Hs as <-; by apply resume_good].
  unfold start_step in Hs. destruct (notifies p) as [[n p']|] eqn:Hn; [by eapply assign_good|].
  destruct p; try (by eapply plain_good); [eapply check_good; eauto|eapply check_good; eauto].
Qed.

Lemma fine_next_ok l f f' : fine_ok f -> fine_next l f = Some f' ->
  fine_ok f' /\ (coarse f' = coarse f \/ next_ok l (coarse f) = Some (coarse f')).
Proof.
  destruct l as [t [k|]]; intros Hok Hs; [|destruct (fine_step_good t f f' Hok Hs) as [? [[? _]|[? _]]]; auto].
  unfold fine_next in Hs. destruct (allowed _ _) eqn:Hal; [|done].
  destruct (threads (base f) !! t) as [p|] eqn:Ha; [|done]. destruct (micros f !! t) as [q|] eqn:Hq; [|done].
  destruct p; try done. destruct q; simplify_eq.
  assert (Hn : next_ok (t, ACall k) (coarse f) = Some (masked (goto t (CEnter k) (base f)))).
  { unfold next_ok, coarse. rewrite allowed_masked, Hal. simpl. by rewrite Ha. }
  split; [|by right]. pose proof (fine_thread _ Hok t _ Hq) as [_ Hc].
  eapply own_ok; try done.
  - eapply chan_inv_next; [apply Hok|exact Hn].
  - intros u Hu. apply word_ext; simpl; by rewrite ?list_lookup_insert_ne.
  - unfold word. simpl. by rewrite list_lookup_insert_eq by eauto using lookup_lt_Some.
Qed.

Lemma fine_init_ok (n m : nat) : 0 < m -> fine_ok (fine_init n m).
Proof.
  intros Hm. split; simpl.
  - by rewrite !length_replicate.
  - assert (E : coarse (T := T) (fine_init n m) = init n m) by (unfold coarse, masked; simpl; by rewrite !fmap_empty).
    rewrite E. by apply buffered_inv_init.
  - intros t q [-> _]%lookup_replicate. unfold word, callers. simpl. split.
    + by destruct (replicate n CIdle !! t) as [p|] eqn:E; [apply lookup_replicate in E as [-> _]|].
    + rewrite sum_replicate, calls_not by done. lia.
  - intros t p _ [? _]%lookup_replicate. done.
  - intros t w [? _]%lookup_replicate. done.
Qed.

Lemma fine_reachable_ok (n m : nat) f : 0 < m -> reachable fine_next (fine_init n m) f -> fine_ok f.
Proof.
  intros Hm. apply invariant_reachable; [|by apply fine_init_ok]. intros l f1 f2 Hok Hs. by eapply fine_next_ok.
Qed.

(** *** Rest *)

Definition fine_quiescent f : Prop := forall t, fine_next (t, AStep) f = None.

Lemma fine_step_some f t p q :
  fine_ok f -> threads (base f) !! t = Some p -> micros f !! t = Some q -> q <> MBlocked ->
  p <> CIdle -> (forall e, p <> CFault e) -> fine_next (t, AStep) f <> None.
Proof.
  intros Hok Ha Hq Hb Hi Hf. unfold fine_next. simpl. rewrite Ha, Hq. destruct q; simpl; try done.
  - unfold start_step. destruct p as [| | | |[|]|[|]| | |e]; simpl; try done. by destruct (Hf e).
  - unfold assigned_step. by destruct (fine_assigned _ Hok t p Ha Hq) as (n & p' & -> & _).
Qed.

(** Where the finer system rests, the coarser one does. *)
Lemma quiescent_coarse f : fine_ok f -> fine_quiescent f -> quiescent (coarse f).
Proof.
  intros Hok Hrest t. pose proof Hok as [Hl HI Ht _ Hce]. unfold next_ok. simpl.
  destruct (threads (base f) !! t) as [p|] eqn:Ha; [|done].
  destruct (lookup_lt_is_Some_2 (micros f) t) as [q Hq]; [rewrite Hl; by eapply lookup_lt_Some|].
  destruct (decide (q = MBlocked)) as [->|Hb].
  - assert (Hnotask : callers t f <> 1).
    { intros Hc. destruct (sum_pos_lookup (calls t) (micros f)) as (u & r & Hu & Hpos); [unfold callers in Hc; lia|].
      unfold calls in Hpos. case_decide; [subst|lia]. specialize (Hrest u). unfold fine_next in Hrest. simpl in Hrest.
      destruct (lookup_lt_is_Some_2 (threads (base f)) u) as [pu Hpu]; [rewrite <- Hl; by eapply lookup_lt_Some|].
      by rewrite Hpu, Hu in Hrest. }
    destruct (Ht t _ Hq) as [[Hw _]|[_ Hc]]; [|done]. unfold word in Hw. rewrite Ha in Hw.
    destruct p; try done; simpl in *; rewrite lookup_fmap;
      match goal with |- context [mask <$> ?m] => destruct m as [[h x]|] end; try done; simpl in Hw;
      injection Hw as ->; done.
  - assert (Hi : p = CIdle \/ p <> CIdle) by (destruct p; auto). destruct Hi as [->|Hi]; [done|].
    destruct (fine_step_some f t p q Hok Ha Hq Hb Hi); [|apply Hrest].
    intros e ->. by apply (inv_futures _ HI t) in Ha.
Qed.

Definition fine_weight f : nat := 5 * weight (coarse f) + ranks f.

Lemma fine_internal_run ls f f' :
  fine_ok f -> forallb internal ls = true -> run fine_next ls f = Some f' ->
  fine_ok f' /\ length ls + fine_weight f' <= fine_weight f.
Proof.
  revert f. induction ls as [|[t a] ls IH]; intros f Hok Hls Hr; cbn [run forallb] in Hls, Hr; [by simplify_eq/=|].
  destruct a; [done|]. destruct (fine_next (t, AStep) f) as [f1|] eqn:E; [|done].
  destruct (fine_step_good t f f1 Hok E) as [Hok1 Hs]. destruct (IH f1 Hok1 Hls Hr) as [Hok' Hw]. split; [done|].
  assert (fine_weight f1 < fine_weight f); [|simpl; lia]. unfold fine_weight. destruct Hs as [[-> ?]|[Hn ?]]; [lia|].
  pose proof (weight_next _ _ _ (fine_coarse _ Hok) Hn). lia.
Qed.
End invariant.

(** ** Theorems *)

Section theorems.
Context {T : Type}.
Implicit Types (f : fine T).

(** C21: the channel with every access to a future as a step of its own refines the
    one in which notifications and waits are atomic: every reachable state is one of
    the coarser system, seen from outside, with the same queues, results, accepted
    and delivered values; in particular nothing fails: no future is set
    or awaited twice or after its end, and no task is called that is not waiting. *)
Theorem futures_refine_atomic n m f :
  0 < m -> reachable fine_next (fine_init n m) f ->
  reachable next_ok (init n m) (coarse f) /\ forall t e, threads (base f) !! t <> Some (CFault e).
Proof.
  intros Hm Hr. split.
  - assert (E : init (T := T) n m = coarse (fine_init n m)) by (unfold coarse, masked; simpl; by rewrite !fmap_empty).
    rewrite E. revert Hr. apply (refinement_reachable fine_next next_ok coarse fine_ok); [|by apply fine_init_ok].
    intros l f1 f2 Hok Hs. destruct (fine_next_ok l f1 f2 Hok Hs) as [Hok2 Hor]. split; [done|].
    destruct Hor as [E2|Hn]; [by left|right; by exists l].
  - intros t e Ha. by apply (inv_futures _ (fine_coarse _ (fine_reachable_ok n m f Hm Hr)) t) in Ha.
Qed.

(** No wake-up is lost here either: every schedule without new calls ends within a
    bound, and where it ends a thread still in a call waits for the other side. *)
Theorem futures_no_lost_wakeup n m f ls f' :
  0 < m -> reachable fine_next (fine_init n m) f ->
  forallb internal ls = true -> run fine_next ls f = Some f' ->
  length ls <= fine_weight f /\
  (fine_quiescent f' -> forall t p, threads (base f') !! t = Some p -> waits_rightly (base f') t p).
Proof.
  intros Hm Hr Hls Hrun. pose proof (fine_reachable_ok n m f Hm Hr) as Hok.
  destruct (fine_internal_run ls f f' Hok Hls Hrun) as [Hok' Hw]. split; [lia|].
  intros Hq t p Ha. by apply (quiescent_waits (coarse f') t p (fine_coarse _ Hok') (quiescent_coarse f' Hok' Hq)).
Qed.
End theorems.

(** ** Examples *)

Module Sample.
Definition step := fine_next (T := nat).
Definition start : fine nat := fine_init 2 2.

(** A receiver suspends, a sender serves it with an assignment, the exchange and the
    call of its task, and both return. *)
Definition script : list (nat * action nat) :=
  [(1, ACall KPop)] ++ replicate 3 (1, AStep) ++ [(0, ACall (KPush 7))] ++ replicate 4 (0, AStep) ++
  replicate 1 (1, AStep) ++ replicate 2 (0, AStep).
Definition final : fine nat := default start (run step script start).
End Sample.

Lemma futures_refine_atomic_witness :
  results (base Sample.final) = [(1, PopRet (Ret (Some 7))); (0, PushRet (Ret true))] /\
  reachable next_ok (init 2 2) (coarse Sample.final).
Proof.
  split; [vm_compute; reflexivity|].
  apply (futures_refine_atomic 2 2 Sample.final); [lia|]. exists Sample.script. vm_compute. reflexivity.
Defined.

Lemma futures_no_lost_wakeup_witness :
  length (replicate 3 (1, AStep : action nat)) <=
  fine_weight (default Sample.start (run Sample.step [(1, ACall KPop)] Sample.start)).
Proof.
  apply (futures_no_lost_wakeup 2 2 _ (replicate 3 (1, AStep))
    (default Sample.start (run Sample.step ((1, ACall KPop) :: replicate 3 (1, AStep)) Sample.start)));
    [lia|exists [(1, ACall KPop)]; vm_compute; reflexivity|reflexivity|vm_compute; reflexivity].
Defined.
