(* ===== verification/BufferedRefine.v ===== *)
(** * [BufferedChannel] is a channel

    Every step of a [BufferedChannel] that is used as its contract asks is a
    step of the queue of [Channel.v], or changes nothing that the queue shows:
    the critical sections of [push], [pop], [closeSender] and [closeReceiver]
    are the atomic operations of the queue. *)

From S2P Require Import Prelude Future Channel BufferedChannel BufferedInv BufferedStep.

Section refinement.
Context {T : Type}.
Implicit Types (s : state T).

Definition queue_of s : Fifo.fifo T :=
  Fifo.MkFifo (accepted s) (delivered s) (mSenderClosed (chan s)) (mReceiverClosed (chan s)).

Lemma waiting_ready s : Inv s -> Fifo.waiting (queue_of s) = mReadyData (chan s).
Proof. intros H. unfold Fifo.waiting. simpl. by rewrite (inv_fifo _ H), drop_app_length. Qed.

(** Nobody pushes (pops) on an end that is closed. *)
Lemma pushing_open s t p :
  Inv s -> threads s !! t = Some p -> pushing p = true -> mSenderClosed (chan s) = false.
Proof.
  intros H Ht Hp. destruct (mSenderClosed (chan s)) eqn:E; [|done].
  rewrite (ok_no_push _ (inv_contract _ H) _ _ E Ht) in Hp. done.
Qed.

Lemma popping_open s t p :
  Inv s -> threads s !! t = Some p -> popping p = true -> mReceiverClosed (chan s) = false.
Proof.
  intros H Ht Hp. destruct (mReceiverClosed (chan s)) eqn:E; [|done].
  rewrite (ok_no_pop _ (inv_contract _ H) _ _ E Ht) in Hp. done.
Qed.

Lemma give_step s x xs :
  Inv s -> mReadyData (chan s) = x :: xs -> mReceiverClosed (chan s) = false ->
  Fifo.act Fifo.Give (queue_of s) =
  Some (Fifo.MkFifo (accepted s) (delivered s ++ [x]) (mSenderClosed (chan s)) (mReceiverClosed (chan s))).
Proof. intros H Hx Hc. unfold queue_of. rewrite Hc, (inv_fifo _ H), Hx. apply Fifo.act_give. Qed.

Lemma effect_simulates t s s' : Inv s -> effect t s s' -> simulates Fifo.act queue_of s s'.
Proof.
  intros H He. unfold simulates, step.
  destruct He; unfold queue_of; fields; rewrite ?app_nil_r; try (by left); right.
  - exists (Fifo.Hand v). destruct (ok_receivers _ (inv_channel _ H)) as (_ & Hr & _); [congruence|].
    simpl. rewrite (inv_fifo _ H), H2, app_nil_r, H3, Hr. apply Fifo.act_hand.
  - exists (Fifo.Put v). simpl. by rewrite H2, H3.
  - exists (Fifo.Put v). simpl. by rewrite H2, H3.
  - exists Fifo.Give. eapply give_step; try done. by eapply popping_open.
  - exists Fifo.Give. eapply give_step; try done. by eapply popping_open.
  - exists Fifo.CloseSender. simpl. by rewrite (pushing_open s t (CEnter KCloseSender)).
  - exists Fifo.CloseReceiver. simpl. by rewrite (popping_open s t (CEnter KCloseReceiver)).
Qed.

(** a [BufferedChannel], used by any number of threads as its contract
    asks, implements a queue: its critical sections are the queue's atomic
    operations - a value is left in the queue or handed to a waiting receiver,
    the oldest value is taken, an end is closed - and nothing else that happens
    changes the queue. *)
Theorem buffered_refines_fifo n m s :
  0 < m -> reachable next_ok (init n m) s -> reachable Fifo.act Fifo.start (queue_of s).
Proof.
  intros Hm. apply (refinement_reachable next_ok Fifo.act queue_of Inv (init n m)); [|by apply buffered_inv_init].
  intros [t a] s1 s2 Hi Hs. split; [by eapply chan_inv_next|].
  eapply effect_simulates; [done|by eapply effect_next].
Qed.
End refinement.

#[export] Instance buffered_channel {T} n m : FifoChannel T next_ok (init (T := T) n (S m)).
Proof.
  refine {| as_fifo := queue_of |}. intros s.
  apply (refinement_reachable next_ok Fifo.act queue_of Inv (init n (S m))); [|apply buffered_inv_init; lia].
  intros [t a] s1 s2 Hi Hs. split; [by eapply chan_inv_next|].
  eapply effect_simulates; [done|by eapply effect_next].
Defined.

(** ** An example *)

Module Sample.
Definition script : list (nat * action nat) :=
  [(0, ACall (KPush 5)); (0, AStep); (0, AStep); (1, ACall KPop); (1, AStep); (0, ACall KCloseSender); (0, AStep)].
Definition final : state nat := default (init 2 2) (run next_ok script (init 2 2)).
End Sample.

Lemma buffered_refines_fifo_witness :
  queue_of Sample.final = Fifo.MkFifo [5] [5] true false /\
  reachable Fifo.act Fifo.start (queue_of Sample.final).
Proof.
  split; [vm_compute; reflexivity|].
  apply (buffered_refines_fifo 2 2); [lia|]. exists Sample.script. vm_compute. reflexivity.
Defined.
