(* ===== verification/Ports.v ===== *)
(** * [channel.hpp]: channels as their callers see them, and programs that use one

    [Port] refines the queue of [Channel.v] to calls: a thread calls an
    operation, the operation takes effect at one moment between call and return,
    and returns what that effect was. [LinearChannel] is the interface: the
    implementation's calls, and the laws that make every one of its histories a
    history of [Port]. [compose] lets any program run on any channel, and carries
    what was proved with [Port] over to the implementation. *)

From S2P Require Import Prelude Channel.

(** ** Calls *)

Module Port.
Section port.
Context {T : Type}.

Inductive kind : Type :=
  | Push (v : T)
  | Pop
  | CloseSender
  | CloseReceiver.

Inductive answer : Type :=
  | APush (b : bool)         (** [push] returns [b] *)
  | APop (o : option T)      (** [pop] returns [o] *)
  | ADone.                   (** a [void] operation returns *)

(** What a thread does with the channel. *)
Inductive phase : Type :=
  | Idle
  | Called (k : kind)        (** the operation has not taken effect *)
  | Accepted                 (** in [push], the value being in the channel *)
  | Got (v : T)              (** in [pop], with [v] in hand *)
  | Closed.                  (** in [closeSender] or [closeReceiver], the end being closed *)

Record ports : Type := Ports {
  queue : Fifo.fifo T;
  phases : list phase;
}.

Definition init (n : nat) : ports := Ports Fifo.start (replicate n Idle).

Definition put (t : nat) (ph : phase) (p : ports) : ports := Ports (queue p) (<[t := ph]> (phases p)).

(** The moment at which the operation of thread [t] takes effect. *)
Definition lin (t : nat) (p : ports) : option ports :=
  let act a ph := (fun q => Ports q (<[t := ph]> (phases p))) <$> Fifo.act a (queue p) in
  match phases p !! t with
  | Some (Called (Push v)) => act (Fifo.Put v) Accepted
  | Some (Called Pop) =>
      match Fifo.waiting (queue p) with v :: _ => act Fifo.Give (Got v) | [] => None end
  | Some (Called CloseSender) => act Fifo.CloseSender Closed
  | Some (Called CloseReceiver) => act Fifo.CloseReceiver Closed
  | _ => None
  end.

(** Pushes that have left a value and have not returned. *)
Definition is_accepted (ph : phase) : bool := match ph with Accepted => true | _ => false end.
Definition held (l : list phase) : nat := sum_list_with (fun ph => if is_accepted ph then 1 else 0) l.

Lemma held_distinct (l : list nat) (phs : list phase) :
  NoDup l -> (forall w, w ∈ l -> phs !! w = Some Accepted) -> length l <= held phs.
Proof.
  intros Hn. revert phs. induction Hn as [|w l Hw _ IH]; intros phs Ha; simpl; [lia|].
  pose proof (sum_insert (fun ph => if is_accepted ph then 1 else 0) phs w _ Idle (Ha w ltac:(by left))) as Hs.
  specialize (IH (<[w := Idle]> phs)). unfold held in *. simpl in Hs.
  enough (length l <= sum_list_with (fun ph => if is_accepted ph then 1 else 0) (<[w:=Idle]> phs)) by lia.
  apply IH. intros u Hu. rewrite list_lookup_insert_ne by (intros ->; done). apply Ha. by right.
Qed.

(** The call of thread [t] returns. A [push] that has left a value returns true
    only when the returned pushes have left no more than [cap] values; [b] is
    what it returns. *)
Definition return_ (cap : nat) (b : bool) (t : nat) (p : ports) : option (answer * ports) :=
  let q := queue p in
  let p' := put t Idle p in
  match phases p !! t with
  | Some Accepted =>
      if b then
        if Fifo.receiver_closed q || (length (Fifo.waiting q) <=? cap + held (phases p'))
        then Some (APush true, p') else None
      else if Fifo.receiver_closed q then Some (APush false, p') else None
  | Some (Called (Push _)) => if Fifo.receiver_closed q then Some (APush false, p') else None
  | Some (Called Pop) =>
      if Fifo.sender_closed q && bool_decide (Fifo.waiting q = []) then Some (APop None, p') else None
  | Some (Got v) => Some (APop (Some v), p')
  | Some Closed => Some (ADone, p')
  | _ => None
  end.

(** Who uses the sending (receiving) end. *)
Definition sending (ph : phase) : bool :=
  match ph with Called (Push _) | Called CloseSender | Accepted => true | _ => false end.
Definition receiving (ph : phase) : bool :=
  match ph with Called Pop | Called CloseReceiver | Got _ => true | _ => false end.

(** The contract of the callers: an end is closed once, when nobody uses it any
    more, and is not used afterwards. *)
Definition allowed (t : nat) (k : kind) (p : ports) : Prop :=
  phases p !! t = Some Idle /\
  match k with
  | Push _ => Fifo.sender_closed (queue p) = false /\ Called CloseSender ∉ phases p
  | Pop => Fifo.receiver_closed (queue p) = false /\ Called CloseReceiver ∉ phases p
  | CloseSender => Fifo.sender_closed (queue p) = false /\ forall ph, ph ∈ phases p -> sending ph = false
  | CloseReceiver => Fifo.receiver_closed (queue p) = false /\ forall ph, ph ∈ phases p -> receiving ph = false
  end.

(** Why a thread may wait when the channel has come to rest. *)
Definition rests (cap : nat) (p : ports) (ph : phase) : Prop :=
  match ph with
  | Idle => True
  | Called Pop => Fifo.waiting (queue p) = [] /\ Fifo.sender_closed (queue p) = false
  | Accepted => cap < length (Fifo.waiting (queue p)) /\ Fifo.receiver_closed (queue p) = false
  | _ => False
  end.

(** What happens at the boundary of the channel. *)
Inductive event : Type :=
  | ECall (t : nat) (k : kind)
  | EReturn (t : nat) (a : answer).

(** The histories of a channel of [Port] whose callers keep the contract. *)
Inductive history (cap : nat) : ports -> list event -> ports -> Prop :=
  | H_end p : history cap p [] p
  | H_call p t k es p' : allowed t k p -> history cap (put t (Called k) p) es p' ->
      history cap p (ECall t k :: es) p'
  | H_lin p t p1 es p' : lin t p = Some p1 -> history cap p1 es p' -> history cap p es p'
  | H_return p b t a p1 es p' : return_ cap b t p = Some (a, p1) -> history cap p1 es p' ->
      history cap p (EReturn t a :: es) p'.

Lemma history_lins cap p p1 es p' : reachable lin p p1 -> history cap p1 es p' -> history cap p es p'.
Proof.
  intros [ts Hr] H. revert p Hr. induction ts as [|t ts IH]; intros p Hr; simpl in Hr; [by simplify_eq|].
  destruct (lin t p) as [p2|] eqn:E; [|done]. eapply H_lin; [done|by apply IH].
Qed.

Lemma history_in_order cap p es p' : Fifo.in_order (queue p) -> history cap p es p' -> Fifo.in_order (queue p').
Proof.
  intros Ho H. induction H as [|p t k es p' _ _ IH|p t p1 es p' Hl _ IH|p b t a p1 es p' Hr _ IH]; try by auto.
  - apply IH. unfold lin in Hl. repeat case_match; try done; apply fmap_Some in Hl as (q & Hq & ->);
      by eapply Fifo.act_in_order.
  - apply IH. unfold return_ in Hr. by repeat case_match; simplify_eq.
Qed.
End port.
Arguments event : clear implicits.
Arguments kind : clear implicits.
Arguments answer : clear implicits.
Arguments phase : clear implicits.
Arguments ports : clear implicits.
End Port.

(** ** The interface *)

(** A channel of values of [T] for [n] threads. [stands_for] relates its states to
    those of [Port]; [chan_work] bounds the steps that are left without new
    calls. *)
Class LinearChannel (T S : Type) (n cap : nat) := {
  chan_init : S;
  chan_call : nat -> Port.kind T -> S -> option S;
  chan_step : nat -> S -> option (S * option (Port.answer T));
  stands_for : S -> Port.ports T -> Prop;
  chan_work : S -> nat;
  law_init : stands_for chan_init (Port.init n);
  law_call t k s p : stands_for s p -> Port.allowed t k p ->
    exists s', chan_call t k s = Some s' /\ stands_for s' (Port.put t (Port.Called k) p) /\
               chan_work s' <= chan_work s + 4;
  law_step t s p s' a : stands_for s p -> chan_step t s = Some (s', a) ->
    chan_work s' < chan_work s /\
    exists p', reachable Port.lin p p' /\
      match a with
      | None => stands_for s' p'
      | Some a => exists b p'', Port.return_ cap b t p' = Some (a, p'') /\ stands_for s' p''
      end;
  law_rests s p : stands_for s p ->
    (exists t s' a, chan_step t s = Some (s', a)) \/
    (forall t ph, Port.phases p !! t = Some ph -> Port.rests cap p ph);
}.

(** ** Programs *)

(** A program that uses a channel: [wants x t] is the operation that thread [t] is
    about to call, [called] and [resume] are what the program does at the call
    and when it returns, [local] are the steps that do not concern the channel. *)
Record program (T X L : Type) : Type := Program {
  wants : X -> nat -> option (Port.kind T);
  called : nat -> X -> X;
  resume : nat -> Port.answer T -> X -> X;
  local : L -> X -> option X;
}.
Arguments wants {T X L} _.
Arguments called {T X L} _.
Arguments resume {T X L} _.
Arguments local {T X L} _.

Inductive move (L : Type) : Type :=
  | Local (l : L)
  | Call (t : nat)
  | Step (t : nat)               (** of the channel *)
  | Return (t : nat) (b : bool). (** [Port] only *)
Arguments Local {L} _.
Arguments Call {L} _.
Arguments Step {L} _.
Arguments Return {L} _ _.

Section compose.
Context {T X L : Type} (c : program T X L).

(** The program on a channel. *)
Definition compose {S n cap} {C : LinearChannel T S n cap} (l : move L) (xs : X * S) : option (X * S) :=
  let '(x, s) := xs in
  match l with
  | Local l => (fun x => (x, s)) <$> local c l x
  | Call t =>
      match wants c x t with
      | Some k => (fun s => (called c t x, s)) <$> chan_call t k s
      | None => None
      end
  | Step t =>
      match chan_step t s with
      | Some (s, a) => Some (match a with Some a => resume c t a x | None => x end, s)
      | None => None
      end
  | Return _ _ => None
  end.

(** The program on [Port]. *)
Definition on_ports (cap : nat) (l : move L) (xp : X * Port.ports T) : option (X * Port.ports T) :=
  let '(x, p) := xp in
  match l with
  | Local l => (fun x => (x, p)) <$> local c l x
  | Call t => (fun k => (called c t x, Port.put t (Port.Called k) p)) <$> wants c x t
  | Step t => (fun p => (x, p)) <$> Port.lin t p
  | Return t b => (fun '(a, p) => (resume c t a x, p)) <$> Port.return_ cap b t p
  end.

(** [I xp w]: a property of the reachable states, and a bound [w] for the steps
    that are left. *)
Section sound.
Context {S : Type} {n cap : nat} `{LinearChannel T S n cap} (I : X * Port.ports T -> nat -> Prop).
Hypothesis contract : forall x p w t k, I (x, p) w -> wants c x t = Some k -> Port.allowed t k p.
Hypothesis preserved : forall l xp xp' w, I xp w -> on_ports cap l xp = Some xp' -> exists w', w' < w /\ I xp' w'.

Lemma lins_preserved x p p' w :
  I (x, p) w -> reachable Port.lin p p' -> exists w', w' <= w /\ I (x, p') w'.
Proof.
  intros Hi [ls Hr]. revert p w Hi Hr. induction ls as [|t ls IH]; intros p w Hi Hr; simpl in Hr.
  - simplify_eq. eauto.
  - destruct (Port.lin t p) as [p1|] eqn:E; [|done].
    destruct (preserved (Step t) (x, p) (x, p1) w Hi) as (w1 & H1 & Hi1); [simpl; by rewrite E|].
    destruct (IH p1 w1 Hi1 Hr) as (w' & ? & ?). exists w'. split; [lia|done].
Qed.

(** One step of the program on the implementation. *)
Lemma compose_step l x s p w xs' :
  I (x, p) w -> stands_for s p -> compose l (x, s) = Some xs' ->
  exists p' w', I (xs'.1, p') w' /\ stands_for xs'.2 p' /\
    5 * w' + chan_work xs'.2 < 5 * w + chan_work s.
Proof.
  intros Hi Hs Hn. destruct l as [l|t|t|t b]; simpl in Hn; [| | |done].
  - destruct (local c l x) as [x'|] eqn:E; simplify_eq/=.
    destruct (preserved (Local l) (x, p) (x', p) w Hi) as (w' & ? & ?); [simpl; by rewrite E|].
    exists p, w'. split_and!; try done. lia.
  - destruct (wants c x t) as [k|] eqn:E; [|done].
    destruct (law_call t k s p Hs (contract _ _ _ _ _ Hi E)) as (s' & Ec & Hs' & Hw). rewrite Ec in Hn. simplify_eq/=.
    destruct (preserved (Call t) (x, p) (called c t x, Port.put t (Port.Called k) p) w Hi) as (w' & ? & ?);
      [simpl; by rewrite E|].
    exists (Port.put t (Port.Called k) p), w'. split_and!; try done. lia.
  - destruct (chan_step t s) as [[s' a]|] eqn:E; simplify_eq/=.
    destruct (law_step t s p s' a Hs E) as (Hw & p' & Hl & Ha).
    destruct (lins_preserved x p p' w Hi Hl) as (w1 & ? & Hi1). destruct a as [a|].
    + destruct Ha as (b & p'' & Hr & Hs'').
      destruct (preserved (Return t b) (x, p') (resume c t a x, p'') w1 Hi1) as (w' & ? & ?); [simpl; by rewrite Hr|].
      exists p'', w'. split_and!; try done. lia.
    + exists p', w1. split_and!; try done. lia.
Qed.

(** What was proved of the program on [Port] holds on the implementation, and the
    program ends there, too. *)
Lemma compose_run ls x w0 xs' :
  I (x, Port.init n) w0 -> run compose ls (x, chan_init) = Some xs' ->
  exists p w, I (xs'.1, p) w /\ stands_for xs'.2 p /\
    length ls + 5 * w + chan_work xs'.2 <= 5 * w0 + chan_work chan_init.
Proof.
  intros Hi. assert (H0 := law_init). revert x w0 Hi H0. generalize (Port.init (T := T) n) as p. generalize chan_init as s.
  induction ls as [|l ls IH]; intros s p x w0 Hi H0 Hr; cbn [run] in Hr.
  - simplify_eq. exists p, w0. split_and!; simpl; try done.
  - destruct (compose l (x, s)) as [[x1 s1]|] eqn:E; [|done].
    destruct (compose_step l x s p w0 _ Hi H0 E) as (p1 & w1 & Hi1 & Hs1 & Hw).
    destruct (IH s1 p1 x1 w1 Hi1 Hs1 Hr) as (p' & w' & ? & ? & ?).
    exists p', w'. simpl in *. split_and!; try done. lia.
Qed.

(** The program can make a step, or every call that has not returned waits
    rightly. *)
Lemma compose_progress x s p w :
  I (x, p) w -> stands_for s p ->
  ((exists t k, wants c x t = Some k) \/ (exists l x', local c l x = Some x') ->
   exists l xs, compose l (x, s) = Some xs) /\
  ((exists l xs, compose l (x, s) = Some xs) \/
   forall t ph, Port.phases p !! t = Some ph -> Port.rests cap p ph).
Proof.
  intros Hi Hs. split.
  - intros [(t & k & E)|(l & x' & E)].
    + destruct (law_call t k s p Hs (contract _ _ _ _ _ Hi E)) as (s' & Ec & _).
      exists (Call t), (called c t x, s'). simpl. by rewrite E, Ec.
    + exists (Local l), (x', s). simpl. by rewrite E.
  - destruct (law_rests s p Hs) as [(t & s' & a & E)|Hr]; [left|by right].
    exists (Step t). simpl. rewrite E. by eexists.
Qed.
End sound.
End compose.
