(* ===== verification/BufferedPorts.v ===== *)
(** * [BufferedChannel] implements [Port]

    Every history of calls and returns of a [BufferedChannel] that keeps its size
    is one of [Port]: each operation takes effect once between its call and its
    return, what it returns is what that effect was, and a call that does not
    return waits for the other side. So the channel is an instance of
    [LinearChannel]. *)

From S2P Require Import Prelude Future Channel BufferedChannel BufferedInv BufferedStep.
From S2P Require Import BufferedProps BufferedRefine Ports.

(** ** What is known of a channel that keeps its size *)

Section used.
Context {T : Type}.
Implicit Types (s : state T).

Record used n m s : Prop := {
  u_inv : Inv s;
  u_size : no_resize s;
  u_told : told_ok s;
  u_refused : refused_ok s;
  u_pressure : pressure n m s;
}.

Lemma used_init n m : 0 < m -> used n m (init n m).
Proof.
  intros Hm. split; [by apply buffered_inv_init| | | |].
  4: { split; simpl; rewrite ?length_replicate; try done; lia. }
  2,3: split.
  1: intros t k Hk.
  all: intros; simpl in *; match goal with
    | H : ∅ !! _ = Some _ |- _ => by rewrite lookup_empty in H
    | H : replicate _ _ !! _ = Some _ |- _ => by apply lookup_replicate in H as [? _]
    | H : _ ∈ [] |- _ => by apply elem_of_nil in H
    end.
Qed.

Lemma used_next n m t a s s' : 0 < m -> used n m s -> next_fixed (t, a) s = Some s' -> used n m s'.
Proof.
  intros Hm [H1 H2 H3 H4 H5] Hs.
  assert (Ho : next_ok (t, a) s = Some s') by (unfold next_fixed in Hs; by destruct (is_resize _)).
  pose proof (effect_next _ _ _ _ H1 Ho) as He. pose proof (chan_inv_next _ _ _ H1 Ho) as H1'.
  split; eauto using no_resize_next, told_next, refused_next, pressure_next.
Qed.

(** Nobody is notified twice. *)
Lemma receiver_targets_unique s t u p q w :
  Inv s -> threads s !! t = Some p -> threads s !! u = Some q ->
  w ∈ receiver_targets p -> w ∈ receiver_targets q -> t = u.
Proof.
  intros H Hp Hq H1%occ_pos H2%occ_pos. destruct (decide (t = u)) as [|Hne]; [done|].
  pose proof (sum_lookup_le2 (fun p => occ (receiver_targets p) w) _ _ _ _ _ Hne Hp Hq) as Hs.
  pose proof (inv_recv _ H w) as Hr. unfold refs in Hr.
  pose proof (blocked_le awaits_recv (rfut s) (threads s) w). simpl in *. lia.
Qed.

Lemma waiting_not_targeted s u q w :
  Inv s -> w ∈ mWaitingReceiver (chan s) -> threads s !! u = Some q -> w ∉ receiver_targets q.
Proof.
  intros H H1%occ_pos Hq H2%occ_pos. pose proof (inv_recv _ H w) as Hr. unfold refs in Hr.
  pose proof (sum_lookup_le (fun p => occ (receiver_targets p) w) _ _ _ Hq) as Hs.
  pose proof (blocked_le awaits_recv (rfut s) (threads s) w). simpl in *. lia.
Qed.
End used.

(** ** The correspondence *)

Section ports.
Context {T : Type} (n cap : nat).
Implicit Types (s : state T) (p : Port.ports T).

Definition call_of (k : Port.kind T) : call T :=
  match k with
  | Port.Push v => KPush v
  | Port.Pop => KPop
  | Port.CloseSender => KCloseSender
  | Port.CloseReceiver => KCloseReceiver
  end.

(** Thread [u] is about to give [v] to the receiver [t]. *)
Definition handed s (t : nat) (v : T) : Prop := exists u, threads s !! u = Some (CNotifyReceiver t v).

Definition phase_ok s (t : nat) (q : pc T) (ph : Port.phase T) : Prop :=
  match q with
  | CIdle => ph = Port.Idle
  | CEnter k => exists k', k = call_of k' /\ ph = Port.Called k'
  | CNotifyReceiver _ _ => ph = Port.Accepted
  | CNotifySender _ => exists x, rfut s !! t = Some (set_to (Some x)) /\ ph = Port.Got x
  | CNotifyEmpty _ | CNotifyFalse _ => ph = Port.Closed
  | CAwaitSend =>
      ph = Port.Accepted \/ sfut s !! t = Some (set_to false) /\ exists v, ph = Port.Called (Port.Push v)
  | CAwaitRecv =>
      (exists x, rfut s !! t = Some (set_to (Some x)) /\ ph = Port.Got x) \/
      (rfut s !! t = Some (set_to None) /\ ph = Port.Called Port.Pop) \/
      (rfut s !! t = Some LightFuture.make /\
       ((exists v, handed s t v /\ ph = Port.Got v) \/
        (forall v, ~ handed s t v) /\ ph = Port.Called Port.Pop))
  | CFault _ => False
  end.

Record ports_ok s p : Prop := {
  po_used : used n (S cap) s;
  po_queue : Port.queue p = queue_of s;
  po_length : length (Port.phases p) = n;
  po_phase t q ph : threads s !! t = Some q -> Port.phases p !! t = Some ph -> phase_ok s t q ph;
}.

Lemma po_threads s p : ports_ok s p -> length (threads s) = n.
Proof. intros H. apply (po_used _ _ H). Qed.

Lemma phase_of_thread s p t q : ports_ok s p -> threads s !! t = Some q ->
  exists ph, Port.phases p !! t = Some ph /\ phase_ok s t q ph.
Proof.
  intros H Ht. destruct (Port.phases p !! t) as [ph|] eqn:E; [eauto using po_phase|].
  apply lookup_ge_None in E. apply lookup_lt_Some in Ht. rewrite (po_length _ _ H) in E.
  rewrite (po_threads _ _ H) in Ht. lia.
Qed.

Lemma thread_of_phase s p t ph : ports_ok s p -> Port.phases p !! t = Some ph ->
  exists q, threads s !! t = Some q /\ phase_ok s t q ph.
Proof.
  intros H Ht. destruct (threads s !! t) as [q|] eqn:E; [eauto using po_phase|].
  apply lookup_ge_None in E. apply lookup_lt_Some in Ht. rewrite (po_length _ _ H) in Ht.
  rewrite (po_threads _ _ H) in E. lia.
Qed.

Lemma phase_same s s' t q ph :
  sfut s' !! t = sfut s !! t -> rfut s' !! t = rfut s !! t ->
  (forall v, handed s' t v <-> handed s t v) -> phase_ok s t q ph -> phase_ok s' t q ph.
Proof.
  intros Hs Hr Hh. unfold phase_ok. destruct q; rewrite ?Hs, ?Hr; try done. by setoid_rewrite Hh.
Qed.

Lemma waiting_is_ready s p : ports_ok s p -> Fifo.waiting (Port.queue p) = mReadyData (chan s).
Proof. intros H. rewrite (po_queue _ _ H). apply waiting_ready, (po_used _ _ H). Qed.

(** Thread [t] goes from [a] to [b]. *)
Lemma ports_move s s' p p' t a b ph :
  ports_ok s p -> used n (S cap) s' -> threads s !! t = Some a -> threads s' = <[t := b]> (threads s) ->
  Port.queue p' = queue_of s' -> Port.phases p' = <[t := ph]> (Port.phases p) -> phase_ok s' t b ph ->
  (forall u q phu, u <> t -> threads s !! u = Some q -> Port.phases p !! u = Some phu ->
     phase_ok s u q phu -> phase_ok s' u q phu) ->
  ports_ok s' p'.
Proof.
  intros H Hu Ha Hth Hq Hph Hb Ho. split; [done|done|by rewrite Hph, length_insert; apply H|].
  intros u q phu. rewrite Hth, Hph. destruct (decide (u = t)) as [->|Hne].
  - rewrite list_lookup_insert_eq by eauto using lookup_lt_Some. intros [= <-].
    rewrite list_lookup_insert_eq; [by intros [= <-]|].
    rewrite (po_length _ _ H), <- (po_threads _ _ H). eauto using lookup_lt_Some.
  - rewrite !list_lookup_insert_ne by done. intros H1 H2. eapply Ho; eauto using po_phase.
Qed.

(** Who is handed a value changes with the thread that moves only. *)
Lemma handed_move s s' t a b u v :
  threads s !! t = Some a -> threads s' = <[t := b]> (threads s) ->
  (forall r x, (a = CNotifyReceiver r x \/ b = CNotifyReceiver r x) -> r <> u) ->
  handed s' u v <-> handed s u v.
Proof.
  intros Ha Hth Hr. unfold handed. rewrite Hth. split; intros [w Hw]; exists w.
  - apply list_lookup_insert_Some in Hw as [(-> & -> & _)|[_ Hw]]; [|done]. by destruct (Hr u v); [right|].
  - destruct (decide (w = t)) as [->|Hne]; [|by rewrite list_lookup_insert_ne].
    simplify_eq. by destruct (Hr u v); [left|].
Qed.

Lemma not_handed s u v : Inv s -> threads s !! u <> Some CAwaitRecv -> ~ handed s u v.
Proof.
  intros H Hu [w Hw]. apply Hu. apply (waiting_receiver s u H). right. exists w, (CNotifyReceiver u v).
  split; [done|by left].
Qed.

(** ** Calls *)

Lemma closing_false s p (f : pc T -> bool) k :
  ports_ok s p -> Port.Called k ∉ Port.phases p ->
  (forall q, f q = true -> q = CEnter (call_of k)) -> (forall k', call_of k = call_of k' -> k = k') ->
  closing f s = false.
Proof.
  intros H Hn Hf Hk. unfold closing. apply not_true_iff_false. intros Hc.
  apply existsb_exists in Hc as (q & Hin%list_elem_of_In & Hq). apply Hf in Hq as ->.
  apply list_elem_of_lookup in Hin as [u Hu]. destruct (phase_of_thread _ _ _ _ H Hu) as (ph & Hph & k' & E & ->).
  apply Hk in E as <-. apply Hn. by eapply list_elem_of_lookup_2.
Qed.

Lemma nobody_true s p (f : pc T -> bool) (g : Port.phase T -> bool) :
  ports_ok s p -> (forall ph, ph ∈ Port.phases p -> g ph = false) ->
  (forall t q ph, phase_ok s t q ph -> f q = true -> g ph = true) -> nobody f s = true.
Proof.
  intros H Hg Hf. unfold nobody. apply forallb_forall. intros q [t Ht]%list_elem_of_In%list_elem_of_lookup.
  destruct (phase_of_thread _ _ _ _ H Ht) as (ph & Hph & Ho). destruct (f q) eqn:E; [|done].
  pose proof (Hg ph ltac:(by eapply list_elem_of_lookup_2)). pose proof (Hf _ _ _ Ho E). congruence.
Qed.

Lemma pushing_sending s t q ph : phase_ok s t q ph -> pushing q = true -> Port.sending ph = true.
Proof.
  destruct q as [|[]| | | | | | |]; simpl; try done; intros Ho _; try destruct Ho as ([] & ? & ->); try done;
    spread; by subst.
Qed.

Lemma popping_receiving s t q ph : phase_ok s t q ph -> popping q = true -> Port.receiving ph = true.
Proof.
  destruct q as [|[]| | | | | | |]; simpl; try done; intros Ho _; try destruct Ho as ([] & ? & ->); try done;
    spread; by subst.
Qed.

Lemma call_allowed s p t k :
  ports_ok s p -> Port.allowed t k p -> allowed (t, ACall (call_of k)) s = true.
Proof.
  intros H [_ Hk]. rewrite (po_queue _ _ H) in Hk. unfold allowed.
  destruct k as [v| | |]; cbn [snd call_of]; destruct Hk as [Hc Hk]; simpl in Hc; rewrite Hc; cbn [negb andb].
  - rewrite (closing_false s p is_close_sender Port.CloseSender); try done.
    + by intros [|[]| | | | | | |].
    + by intros [].
  - rewrite (closing_false s p is_close_receiver Port.CloseReceiver); try done.
    + by intros [|[]| | | | | | |].
    + by intros [].
  - by apply (nobody_true s p pushing Port.sending); [done..|apply pushing_sending].
  - by apply (nobody_true s p popping Port.receiving); [done..|apply popping_receiving].
Qed.

Lemma call_law t k s p :
  ports_ok s p -> Port.allowed t k p ->
  exists s', next (t, ACall (call_of k)) s = Some s' /\ ports_ok s' (Port.put t (Port.Called k) p) /\
             weight s' <= weight s + 4.
Proof.
  intros H Hk. pose proof (call_allowed _ _ _ _ H Hk) as Ha. destruct Hk as [Hi _].
  destruct (thread_of_phase _ _ _ _ H Hi) as (q & Hq & Ho).
  assert (q = CIdle) as -> by (destruct q as [| | | | | | | |]; simpl in Ho; spread; simplify_eq; done).
  exists (goto t (CEnter (call_of k)) s). split_and!; [simpl; by rewrite Hq| |].
  - eapply ports_move; try done.
    + apply (used_next n (S cap) t (ACall (call_of k)) s); [lia|apply H|].
      unfold next_fixed, next_ok. rewrite Ha. simpl. rewrite Hq. by destruct k.
    + apply H.
    + by exists k.
    + intros u q phu Hne _ _. apply phase_same; try done. intros v. eapply handed_move; [done|done|].
      by intros r x [?|?].
  - unfold weight. simpl. pose proof (sum_insert work _ _ _ (CEnter (call_of k)) Hq) as Hs. simpl in Hs. lia.
Qed.

(** ** Steps *)

(** The thread at [t] is in the middle of its call and makes the step from [a] to [b];
    its operation takes effect, or not. *)
Lemma move_quiet s s' p t a b ph :
  ports_ok s p -> used n (S cap) s' -> threads s !! t = Some a -> threads s' = <[t := b]> (threads s) ->
  queue_of s' = queue_of s -> Port.phases p !! t = Some ph -> phase_ok s' t b ph ->
  (forall u q phu, u <> t -> threads s !! u = Some q -> phase_ok s u q phu -> phase_ok s' u q phu) ->
  exists p', reachable Port.lin p p' /\ ports_ok s' p'.
Proof.
  intros H Hu Ha Hth Hq Hph Hb Ho. exists p. split; [apply reachable_refl|].
  eapply (ports_move s s' p p t a b ph); try done; [rewrite Hq; apply H|by rewrite list_insert_id|].
  intros u q phu Hne Hx _. by apply Ho.
Qed.

Lemma move_lin s s' p t a b ph p' :
  ports_ok s p -> used n (S cap) s' -> threads s !! t = Some a -> threads s' = <[t := b]> (threads s) ->
  Port.lin t p = Some p' -> Port.queue p' = queue_of s' -> Port.phases p' = <[t := ph]> (Port.phases p) ->
  phase_ok s' t b ph ->
  (forall u q phu, u <> t -> threads s !! u = Some q -> phase_ok s u q phu -> phase_ok s' u q phu) ->
  exists p', reachable Port.lin p p' /\ ports_ok s' p'.
Proof.
  intros H Hu Ha Hth Hl Hq Hph Hb Ho. exists p'. split; [eapply reachable_step; [apply reachable_refl|by exists t]|].
  eapply (ports_move s s' p p' t a b ph); try done. intros u q phu Hne Hx _. by apply Ho.
Qed.

(** Another thread keeps its phase; its futures and what it is handed stay. *)
Lemma phase_other s s' t a b u q ph :
  threads s !! t = Some a -> threads s' = <[t := b]> (threads s) ->
  (forall r x, (a = CNotifyReceiver r x \/ b = CNotifyReceiver r x) -> r <> u) ->
  sfut s' !! u = sfut s !! u -> rfut s' !! u = rfut s !! u ->
  phase_ok s u q ph -> phase_ok s' u q ph.
Proof. intros. eapply phase_same; try done. intros v. by eapply handed_move. Qed.

Ltac by_others Ht :=
  intros ? ? ? ? ?; eapply phase_other; [exact Ht|reflexivity|by intros ? ? [?|?]; simplify_eq| |];
  simpl; by rewrite ?lookup_insert_ne.

(** The phase of a thread that has called and not yet entered. *)
Lemma entered s p t k : ports_ok s p -> threads s !! t = Some (CEnter (call_of k)) ->
  Port.phases p !! t = Some (Port.Called k).
Proof.
  intros H Ht. destruct (phase_of_thread _ _ _ _ H Ht) as (ph & Hph & k' & E & ->).
  destruct k, k'; simpl in E; by simplify_eq.
Qed.

(** An operation that has been entered takes effect. *)
Lemma lin_law s s' p t k b ph q :
  ports_ok s p -> used n (S cap) s' -> threads s !! t = Some (CEnter (call_of k)) ->
  threads s' = <[t := b]> (threads s) ->
  Port.lin t p = Some (Port.Ports q (<[t := ph]> (Port.phases p))) -> q = queue_of s' -> phase_ok s' t b ph ->
  (forall u q phu, u <> t -> threads s !! u = Some q -> phase_ok s u q phu -> phase_ok s' u q phu) ->
  exists p', reachable Port.lin p p' /\ ports_ok s' p'.
Proof. intros H Hu Ha Hth Hl -> Hb Ho. by eapply move_lin. Qed.

(** A value goes to a receiver that waits: two operations take effect. *)
Lemma push_give_law s s' p t r rs v :
  ports_ok s p -> used n (S cap) s' -> threads s !! t = Some (CEnter (KPush v)) ->
  mWaitingReceiver (chan s) = r :: rs -> mReadyData (chan s) = [] ->
  s' = note [v] [v] (goto t (CNotifyReceiver r v)
        (put_sfut t (set_to true) (set_chan (with_receivers rs (chan s)) s))) ->
  exists p', reachable Port.lin p p' /\ ports_ok s' p'.
Proof.
  intros H Hu Ht Hr Hrd ->. set (s' := note _ _ _) in *. pose proof (po_used _ _ H) as [HI _ _ _ _].
  pose proof (entered s p t (Port.Push v) H Ht) as Hph. pose proof (po_queue _ _ H) as Hq.
  destruct (waiting_receiver s r HI) as [Hrt Hrf]; [left; rewrite Hr; by left|].
  destruct (ok_receivers _ (inv_channel _ HI)) as (_ & Hrc & Hsc); [by rewrite Hr|].
  assert (Hrn : t <> r) by congruence.
  assert (Hnh : forall x, ~ handed s r x).
  { intros x [u Hx]. eapply (waiting_not_targeted s u _ r HI); [rewrite Hr; by left|done|by left]. }
  assert (Hrp : Port.phases p !! r = Some (Port.Called Port.Pop)).
  { destruct (phase_of_thread _ _ _ _ H Hrt) as (ph & Hp & Ho). simpl in Ho.
    rewrite Hrf in Ho.
    destruct Ho as [(x & E & _)|[[E _]|[_ [(x & Hx & _)|[_ ->]]]]]; try done. by apply Hnh in Hx. }
  assert (Hfi : accepted s = delivered s) by (by rewrite (inv_fifo _ HI), Hrd, app_nil_r).
  set (p1 := Port.Ports (Fifo.MkFifo (accepted s ++ [v]) (delivered s) false false)
               (<[t := Port.Accepted]> (Port.phases p))).
  set (p2 := Port.Ports (queue_of s') (<[r := Port.Got v]> (Port.phases p1))).
  exists p2. split.
  - exists [t; r]. simpl. unfold Port.lin at 1. rewrite Hph, Hq. simpl. rewrite Hsc, Hrc. simpl.
    unfold Port.lin. simpl. rewrite list_lookup_insert_ne, Hrp by done. unfold Fifo.waiting. simpl.
    rewrite Hfi, drop_app_length. simpl. unfold p2, p1, queue_of. simpl. by rewrite Hfi, Hsc, Hrc.
  - split; [done|done|simpl; rewrite !length_insert; apply H|].
    intros u q ph Hth Hpu. simpl in Hth, Hpu.
    apply list_lookup_insert_Some in Hth as [(-> & <- & _)|[Hne Hth]].
    + rewrite list_lookup_insert_ne, list_lookup_insert_eq in Hpu by (done || by eapply lookup_lt_Some). by simplify_eq.
    + destruct (decide (u = r)) as [->|Hur].
      * rewrite list_lookup_insert_eq in Hpu by (rewrite length_insert; by eapply lookup_lt_Some). simplify_eq.
        simpl. right. right. split; [done|]. left. exists v. split; [|done]. exists t. simpl.
        by rewrite list_lookup_insert_eq by eauto using lookup_lt_Some.
      * rewrite !list_lookup_insert_ne in Hpu by done.
        eapply phase_other; [exact Ht|reflexivity|by intros y x [?|?]; simplify_eq| | |by eapply po_phase];
          simpl; by rewrite ?lookup_insert_ne.
Qed.

(** The entries of [push]. *)
Lemma push_law t s s' p v :
  ports_ok s p -> used n (S cap) s' -> threads s !! t = Some (CEnter (KPush v)) -> effect t s s' ->
  exists p', reachable Port.lin p p' /\ ports_ok s' p'.
Proof.
  intros H Hu Ht He. pose proof (entered s p t (Port.Push v) H Ht) as Hph. pose proof (po_queue _ _ H) as Hq.
  inversion He as [|v' r rs Ha Hr Hrd Hsc|v' Ha Hrc|v' Ha Hr Hrc Hsc Hm|v' Ha Hr Hrc Hsc Hm| | | | | | | | | | | |z Ha Hz| |];
    subst; simplify_eq.
  - by eapply push_give_law.
  - eapply move_quiet; try done; [|by_others Ht]. right. simpl. rewrite lookup_insert_eq. eauto.
  - eapply (lin_law _ _ _ _ (Port.Push v)); [done|done|done|done| | | |by_others Ht].
    + unfold Port.lin. rewrite Hph, Hq. simpl. by rewrite Hsc, Hrc.
    + unfold queue_of. simpl. by rewrite Hsc, Hrc, app_nil_r.
    + by left.
  - eapply (lin_law _ _ _ _ (Port.Push v)); [done|done|done|done| | | |by_others Ht].
    + unfold Port.lin. rewrite Hph, Hq. simpl. by rewrite Hsc, Hrc.
    + unfold queue_of. simpl. by rewrite Hsc, Hrc, app_nil_r.
    + by left.
  - by destruct Hz.
Qed.

(** The entries of [pop]. *)
Lemma pop_law t s s' p :
  ports_ok s p -> used n (S cap) s' -> threads s !! t = Some (CEnter KPop) -> effect t s s' ->
  exists p', reachable Port.lin p p' /\ ports_ok s' p'.
Proof.
  intros H Hu Ht He. pose proof (entered s p t Port.Pop H Ht) as Hph. pose proof (po_used _ _ H) as [HI _ _ _ _].
  assert (Hgive : forall x xs, mReadyData (chan s) = x :: xs ->
    Port.lin t p = Some (Port.Ports (Fifo.MkFifo (accepted s) (delivered s ++ [x]) (mSenderClosed (chan s))
      (mReceiverClosed (chan s))) (<[t := Port.Got x]> (Port.phases p)))).
  { intros x xs Hx. unfold Port.lin. rewrite Hph, (waiting_is_ready _ _ H), Hx, (po_queue _ _ H).
    rewrite (give_step s x xs HI Hx); [done|]. by eapply popping_open. }
  inversion He as [| | | | |x xs Ha Hx Hws|x xs w ws Ha Hx Hws|Ha Hx Hsc|Ha Hx Hsc| | | | | | | |z Ha Hz| |];
    subst; simplify_eq.
  - eapply (lin_law _ _ _ _ Port.Pop); [done|done|done|done|by eapply Hgive| | |by_others Ht].
    + unfold queue_of. simpl. by rewrite app_nil_r.
    + left. exists x. simpl. by rewrite lookup_insert_eq.
  - eapply (lin_law _ _ _ _ Port.Pop); [done|done|done|done|by eapply Hgive| | |by_others Ht].
    + unfold queue_of. simpl. by rewrite app_nil_r.
    + exists x. simpl. by rewrite lookup_insert_eq.
  - eapply move_quiet; try done; [by unfold queue_of; simpl; rewrite !app_nil_r| |by_others Ht].
    right. left. simpl. by rewrite lookup_insert_eq.
  - eapply move_quiet; try done; [by unfold queue_of; simpl; rewrite !app_nil_r| |by_others Ht].
    right. right. simpl. rewrite lookup_insert_eq. split; [done|]. right. split; [|done].
    intros v Hh. apply (not_handed s t v HI); [congruence|].
    refine (proj1 (handed_move s _ t _ CAwaitRecv t v Ht _ _) Hh); [done|by intros ? ? [?|?]; simplify_eq].
  - by destruct Hz.
Qed.

(** The entries of [closeSender] and [closeReceiver]. *)
Lemma close_law t s s' p k :
  ports_ok s p -> used n (S cap) s' -> threads s !! t = Some (CEnter (call_of k)) -> effect t s s' ->
  k = Port.CloseSender \/ k = Port.CloseReceiver ->
  exists p', reachable Port.lin p p' /\ ports_ok s' p'.
Proof.
  intros H Hu Ht He Hk. pose proof (entered s p t k H Ht) as Hph. pose proof (po_used _ _ H) as [HI _ _ _ _].
  destruct Hk as [-> | ->]; simpl in Ht; inversion He; subst; simplify_eq;
    try (match goal with Hz : _ = CNotifyEmpty [] \/ _ |- _ => by destruct Hz end).
  - assert (Hop : mSenderClosed (chan s) = false) by by eapply pushing_open.
    eapply (lin_law _ _ _ _ Port.CloseSender _ Port.Closed); [done|done|done|done| |done|done|by_others Ht].
    unfold Port.lin. rewrite Hph, (po_queue _ _ H). simpl. by rewrite Hop.
  - assert (Hop : mReceiverClosed (chan s) = false) by by eapply popping_open.
    eapply (lin_law _ _ _ _ Port.CloseReceiver _ Port.Closed); [done|done|done|done| |done|done|by_others Ht].
    unfold Port.lin. rewrite Hph, (po_queue _ _ H). simpl. by rewrite Hop.
Qed.

(** ** Notifications *)

(** A thread that waits, and whose future is set by another one. *)
Lemma told_value s t r v ph : Inv s -> threads s !! t = Some (CNotifyReceiver r v) ->
  phase_ok s r CAwaitRecv ph -> rfut s !! r = Some LightFuture.make -> ph = Port.Got v.
Proof.
  intros HI Ht Ho Hf. simpl in Ho. rewrite Hf in Ho.
  destruct Ho as [(x & ? & _)|[[? _]|[_ [(x & (u & Hu) & ->)|[Hn _]]]]]; try done.
  - assert (u = t) as -> by (eapply (receiver_targets_unique s u t _ _ r); try done; by left). by simplify_eq.
  - destruct (Hn v). by exists t.
Qed.

Lemma told_empty s t r l ph : Inv s -> threads s !! t = Some (CNotifyEmpty (r :: l)) ->
  phase_ok s r CAwaitRecv ph -> rfut s !! r = Some LightFuture.make -> ph = Port.Called Port.Pop.
Proof.
  intros HI Ht Ho Hf. simpl in Ho. rewrite Hf in Ho.
  destruct Ho as [(x & ? & _)|[[? _]|[_ [(x & (u & Hu) & ->)|[_ ?]]]]]; try done.
  assert (u = t) as -> by (eapply (receiver_targets_unique s u t _ _ r); try done; by left). by simplify_eq.
Qed.

Lemma told_sender s t ph : phase_ok s t CAwaitSend ph -> sfut s !! t = Some LightFuture.make -> ph = Port.Accepted.
Proof. intros [?|[E _]] Hf; [done|]. by rewrite Hf in E. Qed.

Ltac other_than Ht w :=
  let u := fresh "u" in
  intros u ? ? ? ?; destruct (decide (u = w)) as [->|];
  [|eapply phase_other; [exact Ht|reflexivity|by intros ? ? [?|?]; simplify_eq| |]; simpl;
    by rewrite ?lookup_insert_ne].

Lemma notify_law t s s' p a :
  ports_ok s p -> used n (S cap) s' -> threads s !! t = Some a -> effect t s s' ->
  sender_targets a ++ receiver_targets a <> [] ->
  exists p', reachable Port.lin p p' /\ ports_ok s' p'.
Proof.
  intros H Hu Ht He Ha. pose proof (po_used _ _ H) as [HI Hsz _ _ _].
  destruct (phase_of_thread _ _ _ _ H Ht) as (ph & Hph & Ho).
  destruct He as [k Hta|v r rs Hta|v Hta|v Hta|v Hta|x xs Hta Hq|x xs w ws Hta|Hta|Hta|Hta Hs Hq|Hta|k i Hta
    |r v Hta Hr Hf|w Hta Hw Hf|r l Hta Hr Hf|w l Hta Hw Hf|q Hta Hp|b Hta Hb|o Hta Hr];
    rewrite Ht in Hta; injection Hta as ->; try done; simpl in Ho.
  - eapply (move_quiet s _ p t); try done; [by left|]. other_than Ht r. simplify_eq. intros Hx.
    rewrite (told_value _ _ _ _ _ HI Ht Hx Hf). left. exists v. simpl. by rewrite lookup_insert_eq.
  - eapply (move_quiet s _ p t); try done; [left; done|]. other_than Ht w. simplify_eq. intros Hx.
    rewrite (told_sender _ _ _ Hx Hf). by left.
  - eapply (move_quiet s _ p t); try done. other_than Ht r. simplify_eq. intros Hx.
    rewrite (told_empty _ _ _ _ _ HI Ht Hx Hf). right. left. simpl. by rewrite lookup_insert_eq.
  - eapply (move_quiet s _ p t); try done. other_than Ht w. simplify_eq. intros Hx.
    rewrite (told_sender _ _ _ Hx Hf). by left.
  - by destruct Hp as [-> | ->].
Qed.

(** ** Returns *)

(** What the last call has returned. *)
Definition answer_of (l : list (nat * cresult T)) : Port.answer T :=
  match l with
  | (_, PushRet (Ret b)) :: _ => Port.APush b
  | (_, PopRet (Ret o)) :: _ => Port.APop o
  | _ => Port.ADone
  end.

(** A step of thread [t], and what its call returns if it does. *)
Definition step_of (t : nat) s : option (state T * option (Port.answer T)) :=
  match next (t, AStep) s with
  | Some s' =>
      Some (s', match threads s' !! t with
                | Some CIdle => Some (answer_of (drop (length (results s)) (results s')))
                | _ => None
                end)
  | None => None
  end.

(** A call that returns leaves the other threads alone. *)
Lemma return_move s s' p t a :
  ports_ok s p -> used n (S cap) s' -> threads s !! t = Some a ->
  (forall r v, a <> CNotifyReceiver r v) -> threads s' = <[t := CIdle]> (threads s) -> queue_of s' = queue_of s ->
  (forall u, u <> t -> sfut s' !! u = sfut s !! u /\ rfut s' !! u = rfut s !! u) ->
  ports_ok s' (Port.put t Port.Idle p).
Proof.
  intros H Hu Ht Ha Hth Hq Hf. eapply (ports_move s s' p _ t a CIdle); try done; [rewrite Hq; apply H|].
  intros u q phu Hne _ _. destruct (Hf u Hne). eapply phase_other; [exact Ht|exact Hth| |done..].
  intros r x [?|?]; [by destruct (Ha r x)|done].
Qed.

(** The pushes that are held back are held back by values of other pushes. *)
Lemma held_back s p t : ports_ok s p -> sfut s !! t <> Some LightFuture.make ->
  mReceiverClosed (chan s) = false ->
  length (mReadyData (chan s)) <= cap + Port.held (<[t := Port.Idle]> (Port.phases p)).
Proof.
  intros H Hf Hc. pose proof (po_used _ _ H) as [HI _ _ _ [_ _ Hw _]]. specialize (Hw Hc).
  destruct (refs_le_1 _ _ _ _ _ (inv_send _ HI)) as [Hnd _].
  enough (length (mWaitingSender (chan s)) <= Port.held (<[t := Port.Idle]> (Port.phases p))) by lia.
  apply Port.held_distinct; [done|]. intros w Hin. destruct (waiting_sender s w HI) as [Hwt Hwf]; [by left|].
  rewrite list_lookup_insert_ne by congruence.
  destruct (phase_of_thread _ _ _ _ H Hwt) as (ph & Hp & Ho). by rewrite (told_sender _ _ _ Ho Hwf) in Hp.
Qed.

Lemma push_returns_law s p t b :
  ports_ok s p -> threads s !! t = Some CAwaitSend -> sfut s !! t = Some (set_to b) ->
  Port.return_ cap b t p = Some (Port.APush b, Port.put t Port.Idle p).
Proof.
  intros H Ht Hf. destruct (phase_of_thread _ _ _ _ H Ht) as (ph & Hph & Ho).
  pose proof (po_used _ _ H) as [HI _ _ Hre _].
  assert (Hfalse : b = false -> mReceiverClosed (chan s) = true) by (intros ->; by eapply refused_future).
  unfold Port.return_. rewrite Hph, (waiting_is_ready _ _ H), (po_queue _ _ H). simpl.
  destruct Ho as [-> |[E (v & ->)]].
  - destruct b; [|by rewrite Hfalse]. destruct (mReceiverClosed (chan s)) eqn:Hc; [done|]. simpl.
    by rewrite (proj2 (Nat.leb_le _ _) (held_back s p t H ltac:(by rewrite Hf) Hc)).
  - rewrite Hf in E. injection E as ->. by rewrite Hfalse.
Qed.

Lemma pop_returns_law s p t o :
  ports_ok s p -> threads s !! t = Some CAwaitRecv -> rfut s !! t = Some (set_to o) ->
  Port.return_ cap true t p = Some (Port.APop o, Port.put t Port.Idle p).
Proof.
  intros H Ht Hf. destruct (phase_of_thread _ _ _ _ H Ht) as (ph & Hph & Ho).
  pose proof (po_used _ _ H) as [HI _ Hto _ _].
  unfold Port.return_. rewrite Hph, (waiting_is_ready _ _ H), (po_queue _ _ H). simpl.
  simpl in Ho. rewrite Hf in Ho. destruct Ho as [(x & [= ->] & ->)|[[[= ->] ->]|[E _]]]; [done| |done].
  destruct (told_future _ Hto _ Hf) as [Hsc Hrd]. by rewrite Hsc, Hrd.
Qed.

Lemma answer_snoc s t r : answer_of (drop (length (results s)) (results (return_ t r s))) = answer_of [(t, r)].
Proof. simpl. by rewrite drop_app_length. Qed.

Lemma returns_law s s' p t :
  ports_ok s p -> used n (S cap) s' -> effect t s s' -> threads s' !! t = Some CIdle ->
  exists b p', Port.return_ cap b t p = Some (answer_of (drop (length (results s)) (results s')), p') /\
    ports_ok s' p'.
Proof.
  intros H Hu He Hi.
  destruct He as [k Ht|v r rs Ht|v Ht|v Ht|v Ht|x xs Ht Hq|x xs w ws Ht|Ht|Ht|Ht Hs Hq|Ht|k i Ht
    |r v Ht Hr Hf|w Ht Hw Hf|r l Ht Hr Hf|w l Ht Hw Hf|q Ht Hp|b Ht Hb|o Ht Hb];
    simpl in Hi; rewrite list_lookup_insert_eq in Hi by eauto using lookup_lt_Some; try done.
  - exists true, (Port.put t Port.Idle p). destruct (phase_of_thread _ _ _ _ H Ht) as (ph & Hph & Ho). split.
    + unfold Port.return_. rewrite Hph. simpl. rewrite drop_all. by destruct Hp as [-> | ->]; simpl in Ho; subst.
    + eapply return_move; try done. by intros r v ->; destruct Hp.
  - exists b, (Port.put t Port.Idle p). rewrite answer_snoc. split; [by eapply push_returns_law|].
    eapply return_move; try done. intros u Hne. simpl. by rewrite !lookup_delete_ne.
  - exists true, (Port.put t Port.Idle p). rewrite answer_snoc. split; [by eapply pop_returns_law|].
    eapply return_move; try done. intros u Hne. simpl. by rewrite !lookup_delete_ne.
Qed.

Lemma returns_or_lin s s' p t :
  ports_ok s p -> used n (S cap) s' -> effect t s s' -> threads s' !! t <> Some CIdle ->
  (forall k, threads s !! t = Some CIdle -> s' <> goto t (CEnter k) s) ->
  exists p', reachable Port.lin p p' /\ ports_ok s' p'.
Proof.
  intros H Hu He Hi Hnc. pose proof (po_used _ _ H) as [_ Hsz _ _ _].
  assert (Ht : exists a, threads s !! t = Some a) by (destruct He; eauto). destruct Ht as [a Ht].
  destruct a as [|k|r v|w|l|l| | |f].
  - exfalso. inversion He; subst; simplify_eq; [by eapply Hnc|by match goal with H : _ \/ _ |- _ => destruct H end].
  - destruct k as [v| | | |m]; [by eapply push_law|by eapply pop_law| | |by apply Hsz in Ht].
    + eapply (close_law _ _ _ _ Port.CloseSender); eauto.
    + eapply (close_law _ _ _ _ Port.CloseReceiver); eauto.
  - by eapply notify_law.
  - by eapply notify_law.
  - destruct l; [|by eapply notify_law]. destruct Hi.
    inversion He; subst; simplify_eq. simpl. by rewrite list_lookup_insert_eq by eauto using lookup_lt_Some.
  - destruct l; [|by eapply notify_law]. destruct Hi.
    inversion He; subst; simplify_eq. simpl. by rewrite list_lookup_insert_eq by eauto using lookup_lt_Some.
  - destruct Hi. inversion He; subst; simplify_eq; [by match goal with H : _ \/ _ |- _ => destruct H end|].
    simpl. by rewrite list_lookup_insert_eq by eauto using lookup_lt_Some.
  - destruct Hi. inversion He; subst; simplify_eq; [by match goal with H : _ \/ _ |- _ => destruct H end|].
    simpl. by rewrite list_lookup_insert_eq by eauto using lookup_lt_Some.
  - exfalso. pose proof (po_used _ _ H) as [HI _ _ _ _]. by apply (inv_futures _ HI) in Ht.
Qed.

Lemma step_law t s p s' a :
  ports_ok s p -> step_of t s = Some (s', a) ->
  weight s' < weight s /\
  exists p', reachable Port.lin p p' /\
    match a with
    | None => ports_ok s' p'
    | Some a => exists b p'', Port.return_ cap b t p' = Some (a, p'') /\ ports_ok s' p''
    end.
Proof.
  intros H Hs. pose proof (po_used _ _ H) as [HI _ _ _ _]. unfold step_of in Hs.
  destruct (next (t, AStep) s) as [s1|] eqn:E; [|done]. injection Hs as -> <-.
  assert (Hok : next_ok (t, AStep) s = Some s') by done.
  assert (Hu : used n (S cap) s') by (eapply (used_next n (S cap) t AStep s); [lia|apply H|done]).
  pose proof (effect_next _ _ _ _ HI Hok) as He. split; [by eapply weight_next|].
  assert (Hi : threads s' !! t = Some CIdle \/ threads s' !! t <> Some CIdle)
    by (destruct (threads s' !! t) as [[]|]; auto).
  destruct Hi as [Hi|Hi].
  - rewrite Hi. exists p. split; [apply reachable_refl|]. by apply returns_law.
  - destruct (returns_or_lin s s' p t) as (p' & Hl & Hp); try done.
    + intros k Hk ->. simpl in E. by rewrite Hk in E.
    + exists p'. split; [done|]. by destruct (threads s' !! t) as [[]|].
Qed.

Lemma rests_law s p : ports_ok s p ->
  (exists t s' a, step_of t s = Some (s', a)) \/
  (forall t ph, Port.phases p !! t = Some ph -> Port.rests cap p ph).
Proof.
  intros H. pose proof (po_used _ _ H) as [HI _ _ _ [_ _ Hw _]].
  destruct (quiescent_or_step s) as [Hqu|(t & s' & E)].
  2: { left. change (next (t, AStep) s = Some s') in E. exists t, s'. unfold step_of. rewrite E. by eexists. }
  right. intros t ph Hph. destruct (thread_of_phase _ _ _ _ H Hph) as (q & Hq & Ho).
  destruct (quiescent_waits s t q HI Hqu Hq) as [-> |[(-> & Hin & Hc & Hr)|(-> & Hin & Hc & Hr)]].
  - by rewrite Ho.
  - destruct (waiting_sender s t HI) as [_ Hf]; [by left|]. rewrite (told_sender _ _ _ Ho Hf). simpl.
    rewrite (waiting_is_ready _ _ H), (po_queue _ _ H). simpl. split; [|done].
    specialize (Hw Hc). destruct (mWaitingSender (chan s)); [by apply elem_of_nil in Hin|simpl in Hw; lia].
  - destruct (waiting_receiver s t HI) as [_ Hf]; [by left|]. simpl in Ho. rewrite Hf in Ho.
    destruct Ho as [(x & ? & _)|[[? _]|[_ [(x & (u & Hu) & ->)|[_ ->]]]]]; try done.
    + exfalso. eapply (waiting_not_targeted s u _ t HI); [done|done|by left].
    + simpl. by rewrite (waiting_is_ready _ _ H), (po_queue _ _ H).
Qed.

Lemma ports_init : ports_ok (init n (S cap)) (Port.init n).
Proof.
  split; [apply used_init; lia|done|by simpl; rewrite length_replicate|].
  intros t q ph Hq Hp. simpl in *. apply lookup_replicate in Hq as [-> _]. by apply lookup_replicate in Hp as [-> _].
Qed.

#[export] Instance buffered_linear : LinearChannel T (state T) n cap := {|
  chan_init := init n (S cap);
  chan_call t k s := next (t, ACall (call_of k)) s;
  chan_step := step_of;
  stands_for := ports_ok;
  chan_work := weight;
  law_init := ports_init;
  law_call := call_law;
  law_step := step_law;
  law_rests := rests_law;
|}.

(** ** Histories *)

(** The events of a run: its calls, and what they return. *)
Fixpoint events (ls : list (nat * action T)) s : list (Port.event T) :=
  match ls with
  | [] => []
  | (t, AStep) :: ls =>
      match step_of t s with
      | Some (s', a) => match a with Some a => [Port.EReturn t a] | None => [] end ++ events ls s'
      | None => []
      end
  | (t, ACall k) :: ls =>
      match next (t, ACall k) s with
      | Some s' => match k with
                   | KPush v => [Port.ECall t (Port.Push v)]
                   | KPop => [Port.ECall t Port.Pop]
                   | KCloseSender => [Port.ECall t Port.CloseSender]
                   | KCloseReceiver => [Port.ECall t Port.CloseReceiver]
                   | KSetMax _ => []
                   end ++ events ls s'
      | None => []
      end
  end.

Lemma sending_pushing s t q ph : phase_ok s t q ph -> Port.sending ph = true -> pushing q = true.
Proof.
  destruct q as [|k| | | | | | |]; simpl; intros Ho Hp; spread; subst; simpl in Hp; try done.
  by destruct x as [v| | |].
Qed.

Lemma receiving_popping s t q ph : phase_ok s t q ph -> Port.receiving ph = true -> popping q = true.
Proof.
  destruct q as [|k| | | | | | |]; simpl; intros Ho Hp; spread; subst; simpl in Hp; try done.
  by destruct x as [v| | |].
Qed.

Lemma called_entered s t q k : k <> Port.Pop -> (forall v, k <> Port.Push v) ->
  phase_ok s t q (Port.Called k) -> q = CEnter (call_of k).
Proof.
  intros Hk1 Hk2. destruct q as [|k'| | | | | | |]; simpl; intros Ho; spread; simplify_eq; try done.
  by destruct (Hk2 x).
Qed.

Lemma allowed_call s p t k :
  ports_ok s p -> threads s !! t = Some CIdle -> allowed (t, ACall (call_of k)) s = true -> Port.allowed t k p.
Proof.
  intros H Ht Ha. destruct (phase_of_thread _ _ _ _ H Ht) as (ph & Hph & Ho). simpl in Ho. subst.
  split; [done|]. rewrite (po_queue _ _ H). unfold allowed in Ha.
  assert (Hnot : forall f k', (forall v, k' <> Port.Push v) -> k' <> Port.Pop -> f (CEnter (call_of k')) = true ->
    closing f s = false -> Port.Called k' ∉ Port.phases p).
  { intros f k' H1 H2 Hf Hc [u Hu]%list_elem_of_lookup. destruct (thread_of_phase _ _ _ _ H Hu) as (q & Hq & Hp).
    apply called_entered in Hp; try done. subst. unfold closing in Hc. apply not_true_iff_false in Hc.
    apply Hc, existsb_exists. exists (CEnter (call_of k')). split; [|done].
    apply list_elem_of_In. by eapply list_elem_of_lookup_2. }
  assert (Hno : forall f g, (forall u q ph, phase_ok s u q ph -> g ph = true -> f q = true) ->
    nobody f s = true -> forall ph, ph ∈ Port.phases p -> g ph = false).
  { intros f g Hfg Hn ph [u Hu]%list_elem_of_lookup. destruct (thread_of_phase _ _ _ _ H Hu) as (q & Hq & Hp).
    destruct (g ph) eqn:E; [|done]. unfold nobody in Hn. rewrite forallb_forall in Hn.
    specialize (Hn q ltac:(apply list_elem_of_In; by eapply list_elem_of_lookup_2)).
    by rewrite (Hfg _ _ _ Hp E) in Hn. }
  destruct k as [v| | |]; cbn [snd call_of] in Ha; apply andb_prop in Ha as [Ha1%negb_true_iff Ha2].
  - split; [done|]. by apply (Hnot is_close_sender); [..|by apply negb_true_iff].
  - split; [done|]. by apply (Hnot is_close_receiver); [..|by apply negb_true_iff].
  - split; [done|]. by apply (Hno pushing); [apply sending_pushing|].
  - split; [done|]. by apply (Hno popping); [apply receiving_popping|].
Qed.

Lemma events_history ls s p s' :
  ports_ok s p -> run next_fixed ls s = Some s' ->
  exists p', Port.history cap p (events ls s) p' /\ ports_ok s' p'.
Proof.
  revert s p. induction ls as [|[t a] ls IH]; intros s p H Hr; cbn [run] in Hr.
  - simplify_eq. exists p. split; [constructor|done].
  - destruct (next_fixed (t, a) s) as [s1|] eqn:E; [|done]. unfold next_fixed, next_ok in E.
    destruct (is_resize (t, a)) eqn:Er; [done|]. destruct (allowed (t, a) s) eqn:Ea; [|done].
    destruct a as [k|].
    + assert (Hk : exists k', k = call_of k')
        by (destruct k as [v| | | |m]; [by exists (Port.Push v)|by exists Port.Pop|by exists Port.CloseSender|
            by exists Port.CloseReceiver|done]).
      destruct Hk as [k' ->]. assert (Ht : threads s !! t = Some CIdle) by (simpl in E; by destruct (threads s !! t) as [[]|]).
      destruct (call_law _ _ _ _ H (allowed_call _ _ _ _ H Ht Ea)) as (s2 & E2 & Hs2 & _).
      rewrite E in E2. injection E2 as <-. destruct (IH _ _ Hs2 Hr) as (p' & Hh & Hp'). exists p'. split; [|done].
      cbn [events]. rewrite E. destruct k'; simpl; (eapply Port.H_call; [by eapply allowed_call|done]).
    + cbn [events]. assert (Es : exists x, step_of t s = Some (s1, x)) by (unfold step_of; rewrite E; eauto).
      destruct Es as [x Es]. rewrite Es. destruct (step_law _ _ _ _ _ H Es) as (_ & p1 & Hl & Hx).
      destruct x as [x|].
      * destruct Hx as (b & p2 & Hret & Hp2). destruct (IH _ _ Hp2 Hr) as (p' & Hh & Hp'). exists p'.
        split; [|done]. eapply Port.history_lins; [done|]. simpl. by eapply Port.H_return.
      * destruct (IH _ _ Hx Hr) as (p' & Hh & Hp'). exists p'. split; [|done]. by eapply Port.history_lins.
Qed.

End ports.

(** ** An example *)

Module Sample.
(** Thread 0 pushes two values into a channel of size 1, the second [push] waits
    for thread 1. *)
Definition script : list (nat * action nat) :=
  [(0, ACall (KPush 5)); (1, ACall KPop); (1, AStep); (0, AStep); (0, AStep); (1, AStep); (0, AStep);
   (0, ACall (KPush 6)); (0, AStep); (1, ACall KPop); (1, AStep); (1, AStep); (0, AStep); (1, AStep)].
Definition final : state nat := default (init 2 1) (run next_fixed script (init 2 1)).
End Sample.

