(* ===== verification/UnbufferedChannel.v ===== *)
(** * [channel.hpp]: [UnbufferedChannel]

    One sender and one receiver meet at two futures: [value] holds a pointer to
    the argument of the [push] in progress, [valueRead] the answer. Every
    access to one of the futures by either side is a step; a side whose future
    is not ready waits in it until the other side's [set_value] calls it. *)

From S2P Require Import Prelude Future Channel.

(** ** The two sides *)

(** A [T*]: null, or the address of the [val] of a [push]. *)
Definition pointer : Type := option nat.

(** [push] and [closeSender] *)
Inductive sender_pc : Type :=
  | SIdle
  | SWrite (p : pointer)             (** [value->set_value(p)]: before the assignment *)
  | SExchange (p : pointer)          (** ... before [on_ready]'s exchange *)
  | SCall (p : pointer) (w : nat)    (** ... before the call of who waits *)
  | SAwait                           (** [co::await( *valueRead)]: before [await_ready] *)
  | SSuspend                         (** ... before [await_suspend] *)
  | SBlocked                         (** ... registered in [valueRead] *)
  | SResume                          (** ... before [await_resume] *)
  | SEmplace (res : bool)            (** before [valueRead.emplace()] *)
  | SClosed
  | SFault (f : fault).

Inductive receiver_op : Type := Pop | Close.

(** [pop] and [closeReceiver]; [res]: what [pop] will return, or nothing in
    [closeReceiver]. *)
Inductive receiver_pc : Type :=
  | RIdle
  | RAwait (o : receiver_op)
  | RSuspend (o : receiver_op)
  | RBlocked (o : receiver_op)
  | RResume (o : receiver_op)
  | RMove (p : nat)                       (** before [std::move( *ptr)] *)
  | REmplace (res : option Z)             (** before [value.emplace()] *)
  | RWrite (res : option Z)               (** [valueRead->set_value]: before the assignment *)
  | RExchange (res : option Z)
  | RCall (res : option Z) (w : nat)
  | RClosed
  | RFault (f : fault).

Record state : Type := St {
  value : LightFutureData nat pointer;
  valueRead : LightFutureData nat bool;
  local : option (nat * Z);     (** address and content of the [val] of the [push] in progress *)
  next_address : nat;
  sender : sender_pc;
  receiver : receiver_pc;
  accepted : list Z;            (** history: values whose [push] returned true *)
  refused : list Z;             (** ... and false *)
  popped : list Z;              (** values that [pop] returned *)
  drained : bool;               (** has [pop] returned [nullopt]? *)
}.

(** [UnbufferedChannel()] *)
Definition init : state :=
  St LightFuture.make LightFuture.make None 0 SIdle RIdle [] [] [] false.

Inductive label : Type :=
  | LPush (v : Z)      (** the sender calls [push(v)] *)
  | LCloseSender
  | LSender            (** its next step *)
  | LPop               (** the receiver calls [pop()] *)
  | LCloseReceiver
  | LReceiver.

(** The two sides as tasks that a future can call. *)
Definition sender_task : nat := 0.
Definition receiver_task : nat := 1.

(** [std::optional<T>::has_value] *)
Definition has_value (res : option Z) : bool := match res with Some _ => true | None => false end.

Section steps.
Implicit Types (s : state).

Definition sender_to (p : sender_pc) s : state :=
  St (value s) (valueRead s) (local s) (next_address s) p (receiver s)
     (accepted s) (refused s) (popped s) (drained s).
Definition receiver_to (p : receiver_pc) s : state :=
  St (value s) (valueRead s) (local s) (next_address s) (sender s) p
     (accepted s) (refused s) (popped s) (drained s).
Definition put_value (x : LightFutureData nat pointer) s : state :=
  St x (valueRead s) (local s) (next_address s) (sender s) (receiver s)
     (accepted s) (refused s) (popped s) (drained s).
Definition put_valueRead (x : LightFutureData nat bool) s : state :=
  St (value s) x (local s) (next_address s) (sender s) (receiver s)
     (accepted s) (refused s) (popped s) (drained s).

(** [push(T val)]: its argument lives until it returns. *)
Definition push (v : Z) s : state :=
  St (value s) (valueRead s) (Some (next_address s, v)) (S (next_address s))
     (SWrite (Some (next_address s))) (receiver s) (accepted s) (refused s) (popped s) (drained s).

Definition push_returns (res : bool) s : state :=
  match local s with
  | Some (_, v) =>
      St (value s) (valueRead s) None (next_address s) SIdle (receiver s)
         (if res then accepted s ++ [v] else accepted s)
         (if res then refused s else refused s ++ [v]) (popped s) (drained s)
  | None => sender_to (SFault UseAfterFree) s
  end.

(** After [value->set_value(p)]. *)
Definition after_set (p : pointer) : sender_pc :=
  match p with Some _ => SAwait | None => SClosed end.

Definition wake_receiver s : state :=
  match receiver s with
  | RBlocked o => receiver_to (RResume o) s
  | _ => receiver_to (RFault AssertFailed) s
  end.

Definition wake_sender s : state :=
  match sender s with
  | SBlocked => sender_to SResume s
  | _ => sender_to (SFault AssertFailed) s
  end.

Definition sender_step s : option state :=
  match sender s with
  | SIdle | SBlocked | SClosed | SFault _ => None
  | SWrite p =>
      Some (sender_to (SExchange p) (put_value (snd (LightFuture.assign_value (Val p) (value s))) s))
  | SExchange p =>
      Some match LightFuture.on_ready (value s) with
           | (Ret (Some w), x) => sender_to (SCall p w) (put_value x s)
           | (Ret None, x) => sender_to (after_set p) (put_value x s)
           | (Throw _, x) => sender_to (SFault Terminated) (put_value x s)
           | (Crash e, x) => sender_to (SFault e) (put_value x s)
           end
  | SCall p w =>
      Some (if w =? receiver_task then sender_to (after_set p) (wake_receiver s)
            else sender_to (SFault UseAfterFree) s)
  | SAwait =>
      Some (sender_to (if LightFuture.await_ready (valueRead s) then SResume else SSuspend) s)
  | SSuspend =>
      Some match LightFuture.await_suspend sender_task (valueRead s) with
           | (Ret true, x) => sender_to SBlocked (put_valueRead x s)
           | (Ret false, x) => sender_to SResume (put_valueRead x s)
           | (Throw _, x) => sender_to (SFault Terminated) (put_valueRead x s)
           | (Crash e, x) => sender_to (SFault e) (put_valueRead x s)
           end
  | SResume =>
      Some match fst (LightFuture.await_resume (valueRead s)) with
           | Ret res => sender_to (SEmplace res) s
           | Throw _ => sender_to (SFault Terminated) s
           | Crash e => sender_to (SFault e) s
           end
  | SEmplace res => Some (push_returns res (put_valueRead LightFuture.make s))
  end.

Definition pop_returns (res : option Z) s : state :=
  match res with
  | Some v =>
      St (value s) (valueRead s) (local s) (next_address s) (sender s) RIdle
         (accepted s) (refused s) (popped s ++ [v]) (drained s)
  | None =>
      St (value s) (valueRead s) (local s) (next_address s) (sender s) RIdle
         (accepted s) (refused s) (popped s) true
  end.

(** The end of [pop] with a value, or of [closeReceiver]. *)
Definition receiver_returns (res : option Z) s : state :=
  match res with Some _ => pop_returns res s | None => receiver_to RClosed s end.

Definition receiver_step s : option state :=
  match receiver s with
  | RIdle | RBlocked _ | RClosed | RFault _ => None
  | RAwait o =>
      Some (receiver_to (if LightFuture.await_ready (value s) then RResume o else RSuspend o) s)
  | RSuspend o =>
      Some match LightFuture.await_suspend receiver_task (value s) with
           | (Ret true, x) => receiver_to (RBlocked o) (put_value x s)
           | (Ret false, x) => receiver_to (RResume o) (put_value x s)
           | (Throw _, x) => receiver_to (RFault Terminated) (put_value x s)
           | (Crash e, x) => receiver_to (RFault e) (put_value x s)
           end
  | RResume o =>
      Some match fst (LightFuture.await_resume (value s)) with
           | Ret p =>
               match o, p with
               | Pop, Some a => receiver_to (RMove a) s
               | Pop, None => pop_returns None s
               | Close, _ => receiver_to (REmplace None) s
               end
           | Throw _ => receiver_to (RFault Terminated) s
           | Crash e => receiver_to (RFault e) s
           end
  | RMove a =>
      Some match local s with
           | Some (a', v) => if a =? a' then receiver_to (REmplace (Some v)) s
                             else receiver_to (RFault UseAfterFree) s
           | None => receiver_to (RFault UseAfterFree) s
           end
  | REmplace res => Some (receiver_to (RWrite res) (put_value LightFuture.make s))
  | RWrite res =>
      Some (receiver_to (RExchange res)
        (put_valueRead (snd (LightFuture.assign_value (Val (has_value res)) (valueRead s))) s))
  | RExchange res =>
      Some match LightFuture.on_ready (valueRead s) with
           | (Ret (Some w), x) => receiver_to (RCall res w) (put_valueRead x s)
           | (Ret None, x) => receiver_returns res (put_valueRead x s)
           | (Throw _, x) => receiver_to (RFault Terminated) (put_valueRead x s)
           | (Crash e, x) => receiver_to (RFault e) (put_valueRead x s)
           end
  | RCall res w =>
      Some (if w =? sender_task then receiver_returns res (wake_sender s)
            else receiver_to (RFault UseAfterFree) s)
  end.

Definition next (l : label) s : option state :=
  match l with
  | LPush v => match sender s with SIdle => Some (push v s) | _ => None end
  | LCloseSender => match sender s with SIdle => Some (sender_to (SWrite None) s) | _ => None end
  | LSender => sender_step s
  | LPop => match receiver s with RIdle => Some (receiver_to (RAwait Pop) s) | _ => None end
  | LCloseReceiver =>
      match receiver s with RIdle => Some (receiver_to (RAwait Close) s) | _ => None end
  | LReceiver => receiver_step s
  end.

(** A sender that was told [false] does not push again. *)
Definition allowed (l : label) s : bool :=
  match l, refused s with
  | LPush _, _ :: _ => false
  | _, _ => true
  end.

Definition next_ok (l : label) s : option state := if allowed l s then next l s else None.
End steps.

(** ** The invariant *)

Definition receiver_word (r : receiver_pc) : handle nat :=
  match r with RBlocked _ => TaskPtr receiver_task | _ => EmptyHandle end.
Definition sender_word (p : sender_pc) : handle nat :=
  match p with SBlocked => TaskPtr sender_task | _ => EmptyHandle end.

Section invariant.
Implicit Types (s : state).

(** Nothing is published: the receiver can only wait, or has left. *)
Definition unpublished s : Prop :=
  continuationPtr (value s) = receiver_word (receiver s) /\
  continuationPtr (valueRead s) = EmptyHandle /\ popped s = accepted s /\ drained s = false /\
  match receiver s with
  | RIdle | RAwait _ | RSuspend _ | RBlocked _ => refused s = []
  | RClosed => refused s <> []
  | _ => False
  end.

(** [p] points to the argument of the [push] in progress. *)
Definition points s (p : pointer) : Prop :=
  match p with
  | Some a => refused s = [] /\ exists v, local s = Some (a, v)
  | None => True
  end.

Definition published s (p : pointer) : Prop := value s = LFD InvalidHandle (Val p).

(** The [push] has no answer yet: the sender waits for it. *)
Definition unanswered s : Prop :=
  continuationPtr (valueRead s) = sender_word (sender s) /\ popped s = accepted s /\
  match sender s with SAwait | SSuspend | SBlocked => True | _ => False end.

Definition answered s (v : Z) (b : bool) : Prop :=
  valueRead s = LFD InvalidHandle (Val b) /\ continuationPtr (value s) = receiver_word (receiver s) /\
  popped s = (if b then accepted s ++ [v] else accepted s) /\
  match sender s with SAwait | SSuspend | SResume => True | SEmplace b' => b' = b | _ => False end.

Definition meeting s (a : nat) (v : Z) : Prop :=
  match receiver s with
  | RIdle | RAwait _ | RSuspend _ => published s (Some a) /\ unanswered s \/ answered s v true
  | RResume _ => published s (Some a) /\ unanswered s
  | RBlocked _ => answered s v true
  | RMove a' => a' = a /\ published s (Some a) /\ unanswered s
  | REmplace x => published s (Some a) /\ unanswered s /\ (x = Some v \/ x = None)
  | RWrite x => continuationPtr (value s) = EmptyHandle /\ unanswered s /\ (x = Some v \/ x = None)
  | RExchange x => continuationPtr (value s) = EmptyHandle /\ unanswered s /\ (x = Some v \/ x = None) /\
                   Future.value (valueRead s) = Val (has_value x)
  | RCall x w => w = sender_task /\ sender s = SBlocked /\ continuationPtr (value s) = EmptyHandle /\
                 popped s = accepted s /\ (x = Some v \/ x = None) /\
                 valueRead s = LFD InvalidHandle (Val (has_value x))
  | RClosed => answered s v false
  | RFault _ => False
  end.

Definition inv s : Prop :=
  match sender s with
  | SIdle => unpublished s
  | SWrite p => unpublished s /\ points s p
  | SExchange p => unpublished s /\ points s p /\ Future.value (value s) = Val p
  | SCall p w =>
      w = receiver_task /\ (exists o, receiver s = RBlocked o) /\ published s p /\ points s p /\
      continuationPtr (valueRead s) = EmptyHandle /\ popped s = accepted s /\ drained s = false /\
      refused s = []
  | SAwait | SSuspend | SBlocked | SResume | SEmplace _ =>
      refused s = [] /\ drained s = false /\
      exists a v, local s = Some (a, v) /\ meeting s a v
  | SClosed =>
      popped s = accepted s /\
      match receiver s with
      | RIdle | RAwait _ | RSuspend _ | RResume _ | REmplace None =>
          published s None /\ continuationPtr (valueRead s) = EmptyHandle /\ refused s = []
      | RWrite None | RExchange None => continuationPtr (valueRead s) = EmptyHandle /\ refused s = []
      | RClosed => True
      | _ => False
      end
  | SFault _ => False
  end.
End invariant.

Lemma unbuffered_inv_init : inv init.
Proof. by split_and!. Qed.

Ltac open_inv Hi :=
  unfold inv, unpublished, meeting, points, published, answered, unanswered in Hi; simpl in Hi.

Lemma resume_val {T} (v : T) :
  fst (LightFuture.await_resume (Task := nat) (LFD InvalidHandle (Val v))) = Ret v.
Proof. reflexivity. Qed.

(** The step is computed before the invariant of its result is unfolded. *)
Ltac fin :=
  spread; try done; simplify_eq; try done; rewrite ?resume_val; cbn;
  unfold inv, unpublished, meeting, points, published, answered, unanswered; cbn; close_goal.

Lemma inv_sender s s' : inv s -> sender_step s = Some s' -> inv s'.
Proof.
  destruct s as [[cv vv] [cr vr] lo na sp rp acc ref pop dr]. unfold sender_step. simpl.
  intros Hi Hs. destruct sp as [|p|p|p w| | | | |b| |e]; simplify_eq; open_inv Hi.
  - fin.
  - destruct Hi as [(-> & Hi) Hp]. destruct rp; try (destruct_and?; done); simpl in *; destruct p; fin.
  - destruct p; fin.
  - unfold LightFuture.await_ready, LightFuture.is_ready_weak. simpl.
    case_bool_decide; destruct rp; simpl in Hi; fin.
  - unfold LightFuture.await_suspend. rewrite suspend_branches. simpl.
    destruct cr; destruct rp; simpl in Hi; fin.
  - destruct rp; simpl in Hi; fin.
  - destruct rp; simpl in Hi; fin.
Qed.

Lemma inv_receiver s s' : inv s -> receiver_step s = Some s' -> inv s'.
Proof.
  destruct s as [[cv vv] [cr vr] lo na sp rp acc ref pop dr]. unfold receiver_step. simpl.
  intros Hi Hs. destruct rp as [|o|o|o|o|a|x|x|x|x w| |e]; simplify_eq; open_inv Hi.
  - unfold LightFuture.await_ready, LightFuture.is_ready_weak. simpl.
    case_bool_decide; destruct sp; simpl in Hi; fin.
  - unfold LightFuture.await_suspend. rewrite suspend_branches. simpl.
    destruct cv; destruct sp; simpl in Hi; fin.
  - destruct o; destruct sp; simpl in Hi; fin.
  - destruct sp; simpl in Hi; spread; try done; simplify_eq; try done; simpl; rewrite Nat.eqb_refl; fin.
  - destruct x, sp; simpl in Hi; fin.
  - destruct x, sp; simpl in Hi; fin.
  - destruct x, sp; simpl in Hi; fin.
  - destruct x, sp; simpl in Hi; fin.
Qed.

Lemma unbuffered_inv_next l s s' : inv s -> next_ok l s = Some s' -> inv s'.
Proof.
  unfold next_ok. intros Hi Hs. destruct (allowed l s) eqn:Ha; [|done].
  destruct l; simpl in Hs; [| |by eapply inv_sender| | |by eapply inv_receiver];
    destruct s as [[cv vv] [cr vr] lo na sp rp acc ref pop dr]; simpl in *.
  - destruct sp; simplify_eq. unfold allowed in Ha. simpl in Ha. destruct ref; [|done].
    unfold push. open_inv Hi. fin.
  - destruct sp; simplify_eq. open_inv Hi. fin.
  - destruct rp; simplify_eq. open_inv Hi. destruct sp; fin.
  - destruct rp; simplify_eq. open_inv Hi. destruct sp; fin.
Qed.

Lemma unbuffered_inv_reachable s : reachable next_ok init s -> inv s.
Proof. apply invariant_reachable; [apply unbuffered_inv_next|apply unbuffered_inv_init]. Qed.

(** ** The rendezvous that it implements *)

Module Rendezvous.
Inductive phase : Type :=
  | Ready                            (** no [push] in progress *)
  | Offering (v : Z)                 (** a [push] waits for the receiver *)
  | Answered (v : Z) (taken : bool)  (** ... and knows what it will return *)
  | Gone.                            (** the sender is closed *)

Record spec : Type := Spec {
  at_phase : phase;
  receiver_gone : bool;
  taken : list Z;      (** what [push] returned true for *)
  rejected : list Z;   (** ... and false *)
  received : list Z;
  ended : bool;        (** [pop] has returned [nullopt] *)
}.

Definition start : spec := Spec Ready false [] [] [] false.

Inductive action : Type := Offer (v : Z) | Take | Reject | Return | SenderCloses | End | ReceiverCloses.

Definition act (a : action) (x : spec) : option spec :=
  match x with
  | Spec ph gone tk rj rc en =>
      match a, ph, gone with
      | Offer v, Ready, false => Some (Spec (Offering v) gone tk rj rc en)
      | Take, Offering v, false => Some (Spec (Answered v true) false tk rj (rc ++ [v]) en)
      | Reject, Offering v, false => Some (Spec (Answered v false) true tk rj rc en)
      | Return, Answered v true, _ => Some (Spec Ready gone (tk ++ [v]) rj rc en)
      | Return, Answered v false, _ => Some (Spec Ready gone tk (rj ++ [v]) rc en)
      | SenderCloses, Ready, _ => Some (Spec Gone gone tk rj rc en)
      | End, Gone, false => Some (Spec Gone gone tk rj rc true)
      | ReceiverCloses, Gone, false => Some (Spec Gone true tk rj rc en)
      | _, _, _ => None
      end
  end.
End Rendezvous.

Section abstraction.
Import Rendezvous.
Implicit Types (s : state).

(** A [push] that is past its [set_value]: the receiver has taken the value,
    has closed, or has not answered yet. *)
Definition abs_pushed s : phase :=
  match local s with
  | Some (_, v) =>
      if length (accepted s) <? length (popped s) then Answered v true
      else (match receiver s with RClosed => Answered v false | _ => Offering v end)
  | None => Ready
  end.

Definition abs_phase s : phase :=
  match sender s with
  | SIdle | SWrite None | SExchange None => Ready
  | SWrite (Some _) | SExchange (Some _) | SCall (Some _) _ =>
      (match local s with Some (_, v) => Offering v | None => Ready end)
  | SAwait | SSuspend | SBlocked | SResume | SEmplace _ => abs_pushed s
  | SCall None _ | SClosed | SFault _ => Gone
  end.

Definition abs s : spec :=
  Spec (abs_phase s) (match receiver s with RClosed => true | _ => false end)
       (accepted s) (refused s) (popped s) (drained s).
End abstraction.

#[local] Arguments Nat.ltb : simpl never.

Lemma snoc_longer {A} (l : list A) x : (length l <? length (l ++ [x])) = true.
Proof. apply Nat.ltb_lt. rewrite length_app. simpl. lia. Qed.
Lemma same_longer {A} (l : list A) : (length l <? length l) = false.
Proof. apply Nat.ltb_irrefl. Qed.

(** Which abstract step it is, or none. *)
Ltac simulate :=
  spread; try done; simplify_eq; try done; rewrite ?resume_val; unfold simulates, step, abs, abs_phase, abs_pushed; cbn;
  rewrite ?snoc_longer, ?same_longer;
  first [left; reflexivity
        | right; first [exists Rendezvous.Take; reflexivity | exists Rendezvous.Reject; reflexivity
                       | exists Rendezvous.Return; reflexivity | exists Rendezvous.SenderCloses; reflexivity
                       | exists Rendezvous.End; reflexivity | exists Rendezvous.ReceiverCloses; reflexivity]].

Lemma sender_simulates s s' : inv s -> sender_step s = Some s' -> simulates Rendezvous.act abs s s'.
Proof.
  destruct s as [[cv vv] [cr vr] lo na sp rp acc ref pop dr]. unfold sender_step. simpl.
  intros Hi Hs. destruct sp as [|p|p|p w| | | | |b| |e]; simplify_eq; open_inv Hi.
  - left. by destruct p.
  - destruct Hi as [(-> & Hi) Hp]. destruct rp; try (destruct_and?; done); simpl in *; destruct p; simulate.
  - destruct p; simulate.
  - unfold LightFuture.await_ready, LightFuture.is_ready_weak. simpl.
    case_bool_decide; destruct rp; simpl in Hi; simulate.
  - unfold LightFuture.await_suspend. rewrite suspend_branches. simpl.
    destruct cr; destruct rp; simpl in Hi; simulate.
  - destruct rp; simpl in Hi; simulate.
  - destruct rp; simpl in Hi; simulate.
Qed.

Lemma receiver_simulates s s' : inv s -> receiver_step s = Some s' -> simulates Rendezvous.act abs s s'.
Proof.
  destruct s as [[cv vv] [cr vr] lo na sp rp acc ref pop dr]. unfold receiver_step. simpl.
  intros Hi Hs. destruct rp as [|o|o|o|o|a|x|x|x|x w| |e]; simplify_eq; open_inv Hi.
  - unfold LightFuture.await_ready, LightFuture.is_ready_weak. simpl.
    case_bool_decide; destruct sp; simpl in Hi; simulate.
  - unfold LightFuture.await_suspend. rewrite suspend_branches. simpl.
    destruct cv; destruct sp; simpl in Hi; simulate.
  - destruct o; destruct sp; simpl in Hi; simulate.
  - destruct sp; simpl in Hi; spread; try done; simplify_eq; try done; simpl; rewrite Nat.eqb_refl; simulate.
  - destruct x, sp; simpl in Hi; simulate.
  - destruct x, sp; simpl in Hi; simulate.
  - destruct x, sp; simpl in Hi; simulate.
  - destruct x, sp; simpl in Hi; simulate.
Qed.

Lemma next_simulates l s s' : inv s -> next_ok l s = Some s' -> simulates Rendezvous.act abs s s'.
Proof.
  unfold next_ok. intros Hi Hs. destruct (allowed l s) eqn:Ha; [|done].
  destruct l; simpl in Hs; [| |by eapply sender_simulates| | |by eapply receiver_simulates];
    destruct s as [[cv vv] [cr vr] lo na sp rp acc ref pop dr]; simpl in *.
  - destruct sp; simplify_eq. unfold allowed in Ha. simpl in Ha. destruct ref; [|done].
    open_inv Hi. right. exists (Rendezvous.Offer v). destruct rp; spread; done.
  - destruct sp; simplify_eq. by left.
  - destruct rp; simplify_eq. left. unfold abs, abs_phase, abs_pushed. by destruct sp.
  - destruct rp; simplify_eq. left. unfold abs, abs_phase, abs_pushed. by destruct sp.
Qed.

(** ** Progress *)

Definition sender_work (p : sender_pc) : nat :=
  match p with
  | SWrite _ => 9 | SExchange _ => 8 | SCall _ _ => 7 | SAwait => 6 | SSuspend => 5 | SBlocked => 4
  | SResume => 3 | SEmplace _ => 2 | SIdle | SClosed | SFault _ => 0
  end.

Definition receiver_work (p : receiver_pc) : nat :=
  match p with
  | RAwait _ => 10 | RSuspend _ => 9 | RBlocked _ => 8 | RResume _ => 7 | RMove _ => 6 | REmplace _ => 5
  | RWrite _ => 4 | RExchange _ => 3 | RCall _ _ => 2 | RIdle | RClosed | RFault _ => 0
  end.

Definition work (s : state) : nat := sender_work (sender s) + receiver_work (receiver s).

Definition internal (l : label) : Prop := l = LSender \/ l = LReceiver.

Lemma work_decreases l s s' : inv s -> internal l -> next_ok l s = Some s' -> inv s' /\ work s' < work s.
Proof.
  intros Hi Hl Hs. split; [by eapply unbuffered_inv_next|].
  assert (Hn : next l s = Some s') by (unfold next_ok in Hs; by destruct (allowed l s)).
  destruct s as [[cv vv] [cr vr] lo na sp rp acc ref pop dr]. unfold work. simpl.
  destruct Hl as [-> | ->]; simpl in Hn.
  - unfold sender_step in Hn. simpl in Hn. destruct sp as [|p|p|p w| | | | |b| |e]; simplify_eq; try (cbn; lia).
    + destruct cv; cbn; try lia; destruct p; cbn; lia.
    + unfold wake_receiver; simpl. case_match; [|cbn; lia]. destruct rp; cbn; destruct p; cbn; lia.
    + case_match; cbn; lia.
    + unfold LightFuture.await_suspend. rewrite suspend_branches. destruct cr; cbn; lia.
    + case_match; cbn; lia.
    + unfold push_returns. simpl. destruct lo as [[a v]|]; cbn; lia.
  - unfold receiver_step in Hn. simpl in Hn. destruct rp as [|o|o|o|o|a|x|x|x|x w| |e]; simplify_eq; try (cbn; lia).
    + case_match; cbn; lia.
    + unfold LightFuture.await_suspend. rewrite suspend_branches. destruct cv; cbn; lia.
    + repeat case_match; cbn; lia.
    + repeat case_match; cbn; lia.
    + destruct cr; cbn; destruct x; cbn; lia.
    + unfold wake_sender; simpl. case_match; [|cbn; lia]. destruct sp; cbn; destruct x; cbn; lia.
Qed.

(** ** Theorems *)

(** C19: an [UnbufferedChannel] implements a rendezvous: every step of either
    side, and so every interleaving of them, is one of the seven actions of
    [Rendezvous] or changes nothing that they see. The actions offer a value
    only when no other is offered, hand it over at most once, and make [push]
    return true exactly for what was handed over. *)
Theorem unbuffered_refines_rendezvous s :
  reachable next_ok init s -> reachable Rendezvous.act Rendezvous.start (abs s).
Proof.
  apply (refinement_reachable next_ok Rendezvous.act abs inv init); [|apply unbuffered_inv_init].
  intros l s1 s2 Hi Hs. split; [by eapply unbuffered_inv_next|by eapply next_simulates].
Qed.

(** no future of the channel is set twice or awaited twice, and the pointer
    that [pop] follows always points to the argument of a [push] that has not
    returned. *)
Theorem unbuffered_never_fails s e :
  reachable next_ok init s -> sender s <> SFault e /\ receiver s <> RFault e.
Proof.
  intros Hi%unbuffered_inv_reachable. split; intros E; unfold inv in Hi; rewrite E in Hi; [done|].
  unfold unpublished, meeting in Hi. rewrite E in Hi. destruct (sender s); spread; done.
Qed.

(** What both sides have seen of the values so far. *)
Lemma inv_delivered s :
  inv s ->
  (popped s = accepted s \/
   exists a v, local s = Some (a, v) /\ popped s = accepted s ++ [v] /\ sender s <> SClosed) /\
  (refused s <> [] -> receiver s = RClosed) /\
  (drained s = true -> sender s = SClosed /\ popped s = accepted s).
Proof.
  intros Hi. destruct s as [[cv vv] [cr vr] lo na sp rp acc ref pop dr]. simpl.
  assert (Hleft : pop = acc -> ref = [] -> dr = false ->
            (pop = acc \/ exists a v, lo = Some (a, v) /\ pop = acc ++ [v] /\ sp <> SClosed) /\
            (ref <> [] -> rp = RClosed) /\ (dr = true -> sp = SClosed /\ pop = acc))
    by (intros -> -> ->; split_and!; auto; done).
  destruct sp; open_inv Hi; try (destruct rp; spread; simplify_eq; by auto);
    try (destruct rp; spread; simplify_eq; try done; split_and!; try done; by eauto 8).
  destruct Hi as [-> Hi]. split_and!; [by left| |by auto]. intros Hr.
  destruct rp as [| | | | | |[]|[]|[]|[] ?| |]; spread; try done.
Qed.

(** what [pop] has returned is, in order, what [push] has returned true
    for, and at most the value of the [push] that is in progress; [push] returns
    false only when the receiver is closed, and [pop] returns [nullopt] only when
    the sender is closed and everything has been received. *)
Theorem unbuffered_exactly_once s :
  reachable next_ok init s ->
  (popped s = accepted s \/
   exists a v, local s = Some (a, v) /\ popped s = accepted s ++ [v] /\ sender s <> SClosed) /\
  (refused s <> [] -> receiver s = RClosed) /\
  (drained s = true -> sender s = SClosed /\ popped s = accepted s).
Proof. intros Hi%unbuffered_inv_reachable. by apply inv_delivered. Qed.

(** Where the sides are when neither can make a step. *)
Definition meets s : Prop :=
  match sender s, receiver s with
  | (SIdle | SClosed), (RIdle | RClosed) | SBlocked, RIdle | SIdle, RBlocked _ => True
  | _, _ => False
  end.

Lemma sides_meet s : inv s -> sender_step s = None -> receiver_step s = None -> meets s.
Proof.
  intros Hi. unfold meets, sender_step, receiver_step.
  destruct s as [[cv vv] [cr vr] lo na sp rp acc ref pop dr]. simpl.
  intros Hs Hr. destruct sp; try done; destruct rp; try done; open_inv Hi; spread; simplify_eq; done.
Qed.

(** C20: both sides meet: the steps the two sides make between their calls are
    at most 19, and when neither can make one, each is between its calls or
    closed, or it waits for the other side, which is between its calls: a
    sender in [push] waits for an idle receiver, a receiver for an idle sender,
    and nobody waits for a side that has closed. *)
Theorem unbuffered_progress s :
  reachable next_ok init s ->
  (forall ls s', Forall internal ls -> run next_ok ls s = Some s' -> length ls <= 19) /\
  (next_ok LSender s = None -> next_ok LReceiver s = None ->
   meets s).
Proof.
  intros Hi%unbuffered_inv_reachable. split.
  - intros ls s' Hl Hr.
    pose proof (work_bounds next_ok internal work inv work_decreases ls s s' Hi Hl Hr) as Hw.
    assert (work s <= 19); [|lia]. unfold work, sender_work, receiver_work.
    destruct (sender s), (receiver s); lia.
  - unfold next_ok, allowed. simpl. destruct (refused s); by apply sides_meet.
Qed.

(** ** A rendezvous is a queue *)

Section fifo.
Import Rendezvous.

Definition offered (p : phase) : list Z :=
  match p with Offering v | Answered v false => [v] | _ => [] end.

Definition fifo_of (x : spec) : Fifo.fifo Z :=
  Fifo.MkFifo (received x ++ offered (at_phase x) ++ rejected x) (received x)
    (match at_phase x with Gone => true | _ => false end) (receiver_gone x).

(** After the receiver has gone, nothing is offered any more. *)
Definition spec_ok (x : spec) : Prop :=
  match at_phase x with
  | Offering _ => receiver_gone x = false /\ rejected x = []
  | Answered _ false => receiver_gone x = true /\ rejected x = []
  | Answered _ true => receiver_gone x = false /\ rejected x = []
  | Ready => receiver_gone x = false -> rejected x = []
  | Gone => True
  end.

Lemma act_fifo a x x' : spec_ok x -> act a x = Some x' -> spec_ok x' /\ simulates Fifo.act fifo_of x x'.
Proof.
  destruct x as [ph gone tk rj rc en]. unfold spec_ok, simulates, step, fifo_of. simpl. intros Hok Ha.
  destruct a as [v| | | | | |], ph as [|v'|v' []|], gone; simplify_eq; simpl in *; spread; subst;
    try (split; [done|left; by rewrite ?app_nil_r, <- ?app_assoc]).
  - split; [by rewrite Hok|]. right. exists (Fifo.Put v). rewrite Hok by done. simpl. by rewrite app_nil_r.
  - split; [done|]. right. exists Fifo.Give. rewrite Fifo.act_give. by rewrite app_nil_r.
  - split; [done|]. right. by exists Fifo.CloseReceiver.
  - split; [done|]. right. by exists Fifo.CloseSender.
  - split; [done|]. right. by exists Fifo.CloseSender.
  - split; [done|]. right. by exists Fifo.CloseReceiver.
Qed.
End fifo.

(** An [UnbufferedChannel] is a channel. *)
#[export] Instance unbuffered_channel : FifoChannel Z next_ok init.
Proof.
  refine {| as_fifo := fun s => fifo_of (abs s) |}. intros s Hs.
  apply (refinement_reachable Rendezvous.act Fifo.act fifo_of spec_ok Rendezvous.start).
  - intros a x1 x2. apply act_fifo.
  - done.
  - revert Hs. apply (refinement_reachable next_ok Rendezvous.act abs inv init); [|apply unbuffered_inv_init].
    intros l s1 s2 Hi Hs. split; [by eapply unbuffered_inv_next|by eapply next_simulates].
Defined.

(** ** An example *)

Module Sample.
(** The sender waits for the receiver, which takes 7, and is then refused 8. *)
Definition script : list label :=
  LPush 7%Z :: repeat LSender 4 ++ LPop :: repeat LReceiver 7 ++ repeat LSender 2 ++
  LCloseReceiver :: repeat LReceiver 2 ++ LPush 8%Z :: repeat LSender 3 ++ repeat LReceiver 4 ++
  repeat LSender 3.
Definition after (n : nat) : state := default init (run next_ok (take n script) init).
Definition final : state := after (length script).

Lemma unbuffered_reach_after n : bool_decide (is_Some (run next_ok (take n script) init)) = true ->
  reachable next_ok init (after n).
Proof. intros [s Hs]%bool_decide_eq_true. exists (take n script). unfold after. by rewrite Hs. Qed.
End Sample.

Lemma unbuffered_refines_rendezvous_witness :
  abs Sample.final = Rendezvous.Spec Rendezvous.Ready true [7%Z] [8%Z] [7%Z] false /\
  reachable Rendezvous.act Rendezvous.start (abs Sample.final).
Proof.
  split; [vm_compute; reflexivity|].
  apply unbuffered_refines_rendezvous, Sample.unbuffered_reach_after. vm_compute. reflexivity.
Defined.

Lemma unbuffered_never_fails_witness :
  sender Sample.final = SIdle /\
  (sender Sample.final <> SFault UseAfterFree /\ receiver Sample.final <> RFault UseAfterFree).
Proof.
  split; [vm_compute; reflexivity|].
  apply (unbuffered_never_fails Sample.final UseAfterFree), Sample.unbuffered_reach_after. vm_compute. reflexivity.
Defined.

Lemma unbuffered_exactly_once_witness :
  popped (Sample.after 13) = [7%Z] /\ accepted (Sample.after 13) = [] /\
  ((popped (Sample.after 13) = accepted (Sample.after 13) \/
    exists a v, local (Sample.after 13) = Some (a, v) /\
      popped (Sample.after 13) = accepted (Sample.after 13) ++ [v] /\ sender (Sample.after 13) <> SClosed) /\
   (refused (Sample.after 13) <> [] -> receiver (Sample.after 13) = RClosed) /\
   (drained (Sample.after 13) = true ->
    sender (Sample.after 13) = SClosed /\ popped (Sample.after 13) = accepted (Sample.after 13))).
Proof.
  split; [vm_compute; reflexivity|]. split; [vm_compute; reflexivity|].
  apply (unbuffered_exactly_once (Sample.after 13)), Sample.unbuffered_reach_after. vm_compute. reflexivity.
Defined.

Lemma unbuffered_progress_witness :
  next_ok LSender (Sample.after 5) = None /\ sender (Sample.after 5) = SBlocked /\
  (forall ls s', Forall internal ls -> run next_ok ls (Sample.after 5) = Some s' -> length ls <= 19).
Proof.
  split; [vm_compute; reflexivity|]. split; [vm_compute; reflexivity|].
  apply (unbuffered_progress (Sample.after 5)), Sample.unbuffered_reach_after. vm_compute. reflexivity.
Defined.
