(* ===== verification/Routine.v ===== *)
(** * [routine.hpp], [await.hpp]: coroutines, [co::await], [Runner]

    Any number of coroutines run by any number of threads. A coroutine's body
    is a tree of the library's operations; every access to a word that other
    threads may touch is a step of its own. What a thread does after a call
    returns is kept in its stack [rest], so that coroutines may construct
    coroutines, and continuations may run inside [set_value].

    All coroutines share one [io_context], whose [run] any thread that is
    in no call may perform. *)

From S2P Require Import Prelude Future.
From stdpp Require Export functions.

Local Open Scope co_scope.

(** ** Coroutines *)

(** What the body of a coroutine still has to do. *)
Inductive code : Type :=
  | CDone (o : outcome unit)
  | CAwait (f : nat) (k : outcome Z -> code)      (** [co::await] of the future [f] *)
  | CJoin (r : nat) (k : outcome unit -> code)    (** [co::await] of the routine [r] *)
  | CSet (f : nat) (v : Value Z) (k : code)       (** [set_value] or [set_exception] *)
  | CSpawn (c : nat) (k : code).                  (** [Routine c{...}] *)

(** Where the control of [mPull] is. *)
Inductive pull_state : Type := NotMade | Inside | Outside | Finished.

(** The two [PostLeaveFunction]s: the one of [co::await], and [mSetResult]. *)
Inductive post_leave : Type := PostLeave | ResultSetter.

#[export] Instance pull_state_eq_dec : EqDecision pull_state.
Proof. solve_decision. Defined.
#[export] Instance post_leave_eq_dec : EqDecision post_leave.
Proof. solve_decision. Defined.

(** [Routine::Data] without the two words that other threads write; [mRunner]
    is the [mCaller] of the [Runner] that [co::await] has put on the
    coroutine's stack, as long as it is there. *)
Record Data : Type := MkData {
  mPull : pull_state;
  mCode : code;
  mOuter : option nat;
  mPostLeave : option post_leave;
  mRunner : option (handle nat);
  mValue : Value StatelessT;
}.

(** ** Threads *)

(** What is left to do when the current call returns. *)
Inductive kont : Type :=
  | KBody (c : nat) (first : bool)  (** the body of [c], inside [mPull] *)
  | KCtor (c : nat)                 (** the constructor of [c]'s [Data], which drops what [resume] returns *)
  | KRes (res : handle nat).        (** [return res] of [resume] to the loop of a [Runner] *)

Inductive pc : Type :=
  | PRet                                     (** return to [rest]; with no [rest]: in no call *)
  | PBody (c : nat) (first : bool)           (** in the body; [first]: [mPull]'s constructor called it *)
  | PResume (c : nat)                        (** before [resume]'s loop body *)
  | PPost (c : nat)                          (** [c] has left: before [runPostLeave] *)
  | PJoin1 (c r : nat) (cont : handle nat)   (** [await_suspend]: before [mResult.suspend] *)
  | PJoin2 (c r : nat) (cont : handle nat)   (** ... before the exchange of [mContinuation] *)
  | PJoin3 (c : nat)                         (** ... waiting for the runner *)
  | PFin0 (c : nat)                          (** [resume], [!mPull]: before [mContinuation.exchange] *)
  | PFinPost (c : nat) (res : handle nat)    (** ... before [runPostLeave] *)
  | PFin1 (c : nat) (res : handle nat)       (** [ResultSetter]: before [mContinuation]'s exchange *)
  | PFin2 (c : nat) (res : handle nat)       (** ... before the result is assigned *)
  | PFin3 (c : nat) (res : handle nat)       (** ... before [on_ready]'s exchange *)
  | PRunner (w : nat)                        (** before [Runner::operator()] of [w]'s runner *)
  | PSet (f : nat) (v : Value Z)             (** [set_value]: before the assignment *)
  | PReady (f : nat)                         (** ... before [on_ready]'s exchange *)
  | PFault (e : fault).

Record thread : Type := Thread {
  at_pc : pc;
  current : option nat;      (** the thread-local [current()] *)
  rest : list kont;
}.

Record state : Type := St {
  futures : nat -> LightFutureData nat Z;
  datas : nat -> Data;
  results : nat -> LightFutureData nat StatelessT;   (** [mResult] *)
  continuations : nat -> handle nat;                 (** [mContinuation] *)
  threads : nat -> thread;
  posted : list nat;                                 (** runners posted to the [io_context] *)
  claimed : nat -> bool;                             (** history: futures somebody has begun to set *)
  built : nat -> bool;                               (** history: routines whose constructor has returned *)
}.

Definition init (prog : nat -> code) : state :=
  St (fun _ => LightFuture.make)
     (fun c => MkData NotMade (prog c) None None None Unset)
     (fun _ => LightFuture.make) (fun _ => EmptyHandle)
     (fun _ => Thread PRet None []) [] (fun _ => false) (fun _ => false).

Section steps.
Implicit Types (s : state) (d : Data) (t c r f : nat).

Definition put_future f (x : LightFutureData nat Z) s : state :=
  St (<[f := x]> (futures s)) (datas s) (results s) (continuations s) (threads s) (posted s)
     (claimed s) (built s).
Definition put_data c d s : state :=
  St (futures s) (<[c := d]> (datas s)) (results s) (continuations s) (threads s) (posted s)
     (claimed s) (built s).
Definition put_result r (x : LightFutureData nat StatelessT) s : state :=
  St (futures s) (datas s) (<[r := x]> (results s)) (continuations s) (threads s) (posted s)
     (claimed s) (built s).
Definition put_continuation r (h : handle nat) s : state :=
  St (futures s) (datas s) (results s) (<[r := h]> (continuations s)) (threads s) (posted s)
     (claimed s) (built s).
Definition put_thread t (th : thread) s : state :=
  St (futures s) (datas s) (results s) (continuations s) (<[t := th]> (threads s)) (posted s)
     (claimed s) (built s).
Definition put_posted (q : list nat) s : state :=
  St (futures s) (datas s) (results s) (continuations s) (threads s) q (claimed s) (built s).
Definition claim f s : state :=
  St (futures s) (datas s) (results s) (continuations s) (threads s) (posted s)
     (<[f := true]> (claimed s)) (built s).
Definition build c s : state :=
  St (futures s) (datas s) (results s) (continuations s) (threads s) (posted s)
     (claimed s) (<[c := true]> (built s)).

(** Thread [t] goes on at [p]; [current()] and the stack stay. *)
Definition goto t (p : pc) s : state :=
  let th := threads s t in put_thread t (Thread p (current th) (rest th)) s.
Definition push t (k : kont) s : state :=
  let th := threads s t in put_thread t (Thread (at_pc th) (current th) (k :: rest th)) s.
Definition set_current t (cur : option nat) s : state :=
  let th := threads s t in put_thread t (Thread (at_pc th) cur (rest th)) s.

Definition with_pull (p : pull_state) d := MkData p (mCode d) (mOuter d) (mPostLeave d) (mRunner d) (mValue d).
Definition with_code (k : code) d := MkData (mPull d) k (mOuter d) (mPostLeave d) (mRunner d) (mValue d).
Definition with_outer (o : option nat) d := MkData (mPull d) (mCode d) o (mPostLeave d) (mRunner d) (mValue d).
Definition with_post (p : option post_leave) d := MkData (mPull d) (mCode d) (mOuter d) p (mRunner d) (mValue d).
Definition with_runner (h : option (handle nat)) d := MkData (mPull d) (mCode d) (mOuter d) (mPostLeave d) h (mValue d).
Definition with_value (v : Value StatelessT) d := MkData (mPull d) (mCode d) (mOuter d) (mPostLeave d) (mRunner d) v.

(** ** The body *)

(** [Data::leave(postFunc)] by coroutine [c]: [postLeave], [current()], and
    the switch out of [mPull]. *)
Definition leave t c s : state :=
  let d := datas s c in
  if bool_decide (mPostLeave d = None) then
    if bool_decide (current (threads s t) = Some c) then
      goto t (PPost c)
        (set_current t (mOuter d) (put_data c (with_pull Outside (with_post (Some PostLeave) d)) s))
    else goto t (PFault AssertFailed) s
  else goto t (PFault AssertFailed) s.

(** The end of the lambda of [buildExecutor]: the callable has returned or
    thrown [o]. Out of the constructor it is followed by [runPostLeave], out of
    [resume] by the exchange of [mContinuation]. *)
Definition finish t c (first : bool) (o : outcome unit) s : state :=
  let d := datas s c in
  match ValueHandling.setByResult_void (fun w : unit => (o, w)) (mValue d, tt) with
  | (Crash e, _) => goto t (PFault e) s
  | (_, (v, _)) =>
      if bool_decide (mPostLeave d = None) then
        if bool_decide (current (threads s t) = Some c) then
          goto t (if first then PFinPost c EmptyHandle else PFin0 c)
            (set_current t (mOuter d)
              (put_data c (with_pull Finished (with_post (Some ResultSetter) (with_value v d))) s))
        else goto t (PFault AssertFailed) s
      else goto t (PFault AssertFailed) s
  end.

(** [co::await] of an awaitable that is [ready] or not and resumes with
    [resume]: [await_ready]; the [PostLeave] with its [Runner]; [leave]; and,
    the coroutine being back, [await_resume] and the end of [PostLeave]. *)
Definition await {A} t c (ready : bool) (resume : outcome A) (k : outcome A -> code) s : state :=
  let d := datas s c in
  let resumed :=
    match resume with
    | Crash e => goto t (PFault e) s
    | o => put_data c (with_runner None (with_code (k o) d)) s
    end in
  match mRunner d with
  | Some _ => resumed
  | None => if ready then resumed
            else leave t c (put_data c (with_runner (Some (TaskPtr c)) d) s)
  end.

(** [Data(context, ...)], whose [mPull] enters the body: [mOuter =
    exchange(current(), this)]. *)
Definition construct t c s : state :=
  let d := datas s c in
  goto t (PBody c true)
    (push t (KCtor c)
      (set_current t (Some c)
        (put_data c (with_pull Inside (with_outer (current (threads s t)) d)) s))).

Definition body_step t c (first : bool) s : state :=
  match mCode (datas s c) with
  | CDone o => finish t c first o s
  | CAwait f k =>
      let x := futures s f in
      await t c (LightFuture.await_ready x) (fst (LightFuture.await_resume x)) k s
  | CJoin r k =>
      let x := results s r in
      await t c (LightFuture.is_ready_weak x) (fst (LightFuture.get_unchecked_void x)) k s
  | CSet f v k =>
      goto t (PSet f v)
        (push t (KBody c first) (claim f (put_data c (with_code k (datas s c)) s)))
  | CSpawn c' k =>
      construct t c' (push t (KBody c first) (put_data c (with_code k (datas s c)) s))
  end.

(** ** [resume] and [runPostLeave] *)

(** [mOuter = exchange(current(), this); mPull();] *)
Definition resume_step t c s : state :=
  let d := datas s c in
  let outer := current (threads s t) in
  if bool_decide (outer = Some c) then goto t (PFault AssertFailed) s
  else if bool_decide (mPull d = Outside) then
    goto t (PBody c false)
      (set_current t (Some c) (put_data c (with_pull Inside (with_outer outer d)) s))
  else goto t (PFault AssertFailed) s.

(** [await_suspend] of the awaitable that [c] waits for, up to its first
    exchange that others can see. When it returns true, [resume] returns a null
    pointer; when it returns false, [c] is resumed. *)
Definition await_suspend t c s : state :=
  let d := datas s c in
  match mCode d with
  | CAwait f _ =>
      match LightFuture.await_suspend c (futures s f) with
      | (Ret true, x) => goto t PRet (put_future f x s)
      | (Ret false, x) => goto t (PResume c) (put_future f x s)
      | (Throw _, x) => goto t (PFault Terminated) (put_future f x s)
      | (Crash e, x) => goto t (PFault e) (put_future f x s)
      end
  | CJoin r _ =>
      match mRunner d with
      | Some cont => goto t (PJoin1 c r cont) (put_data c (with_runner (Some EmptyHandle) d) s)
      | None => goto t (PFault UseAfterFree) s
      end
  | _ => goto t (PFault UseAfterFree) s
  end.

(** [runPostLeave()] after [c] has left in [co::await]. *)
Definition post_step t c s : state :=
  let d := datas s c in
  match mPostLeave d with
  | None => goto t PRet s
  | Some PostLeave => await_suspend t c (put_data c (with_post None d) s)
  | Some ResultSetter => goto t (PFin1 c EmptyHandle) (put_data c (with_post None d) s)
  end.

(** ... and after its end, when it must return true. *)
Definition fin_post_step t c (res : handle nat) s : state :=
  let d := datas s c in
  match mPostLeave d with
  | None => goto t PRet (push t (KRes res) s)
  | Some PostLeave => goto t (PFault AssertFailed) s
  | Some ResultSetter => goto t (PFin1 c res) (put_data c (with_post None d) s)
  end.

(** The rest of [Routine::await_suspend(Runner&)]. *)
Definition join1_step t c r (cont : handle nat) s : state :=
  match LightFuture.suspend c (results s r) with
  | (Ret true, x) => goto t (PJoin2 c r cont) (put_result r x s)
  | (Ret false, x) => goto t (PResume c) (put_result r x s)
  | (Throw _, x) => goto t (PFault Terminated) (put_result r x s)
  | (Crash e, x) => goto t (PFault e) (put_result r x s)
  end.

Definition join2_step t c r (cont : handle nat) s : state :=
  if bool_decide (continuations s r = EmptyHandle)
  then goto t PRet (put_continuation r cont s)
  else if bool_decide (continuations s r = InvalidHandle)
  then goto t (PJoin3 c) s
  else goto t (PFault AssertFailed) s.

(** [while (cb.mCaller != 1) yield();] *)
Definition join3_step t c s : state :=
  match mRunner (datas s c) with
  | Some InvalidHandle => goto t (PResume c) s
  | Some _ => s
  | None => goto t (PFault UseAfterFree) s
  end.

(** ** The end of a coroutine *)

Definition fin0_step t c s : state :=
  goto t (PFinPost c (continuations s c)) (put_continuation c InvalidHandle s).

(** [mContinuation.compare_exchange_strong(expected = null, 1)] *)
Definition fin1_step t c (res : handle nat) s : state :=
  goto t (PFin2 c res)
    (if bool_decide (continuations s c = EmptyHandle)
     then put_continuation c InvalidHandle s else s).

(** [mResult.set_exception(get<exception_ptr>(mValue))] or
    [mResult.set_value(get<StatelessT>(mValue))] up to the assignment *)
Definition fin2_step t c (res : handle nat) s : state :=
  let v := mValue (datas s c) in
  match v with
  | Unset => goto t (PFault Terminated) s
  | _ => goto t (PFin3 c res)
           (put_result c (snd (LightFuture.assign_value v (results s c))) s)
  end.

(** [on_ready], then [return res] *)
Definition fin3_step t c (res : handle nat) s : state :=
  match LightFuture.on_ready (results s c) with
  | (Ret (Some w), x) => goto t (PRunner w) (push t (KRes res) (put_result c x s))
  | (Ret None, x) => goto t PRet (push t (KRes res) (put_result c x s))
  | (Throw _, x) => goto t (PFault Terminated) (put_result c x s)
  | (Crash e, x) => goto t (PFault e) (put_result c x s)
  end.

(** ** [Runner::operator()] *)

Definition runner_step t w s : state :=
  match current (threads s t) with
  | Some _ => goto t PRet (put_posted (posted s ++ [w]) s)
  | None =>
      let d := datas s w in
      match mRunner d with
      | None => goto t (PFault UseAfterFree) s
      | Some continuation =>
          let s := put_data w (with_runner (Some InvalidHandle) d) s in
          match continuation with
          | TaskPtr c => goto t (PResume c) s
          | EmptyHandle | InvalidHandle => goto t PRet s
          end
      end
  end.

(** ** [set_value] and [set_exception] of a future *)

Definition set_step t f (v : Value Z) s : state :=
  goto t (PReady f) (put_future f (snd (LightFuture.assign_value v (futures s f))) s).

Definition ready_step t f s : state :=
  match LightFuture.on_ready (futures s f) with
  | (Ret (Some w), x) => goto t (PRunner w) (put_future f x s)
  | (Ret None, x) => goto t PRet (put_future f x s)
  | (Throw _, x) => goto t (PFault Terminated) (put_future f x s)
  | (Crash e, x) => goto t (PFault e) (put_future f x s)
  end.

(** ** Returning *)

Definition ret_step t s : option state :=
  let th := threads s t in
  match rest th with
  | [] => None
  | KBody c first :: r => Some (put_thread t (Thread (PBody c first) (current th) r) s)
  | KCtor c :: r => Some (build c (put_thread t (Thread PRet (current th) r) s))
  | KRes res :: r =>
      Some (put_thread t
        (Thread match res, r with
                | TaskPtr c, KCtor _ :: _ => PRet
                | TaskPtr c, _ => PResume c
                | _, _ => PRet
                end (current th) r) s)
  end.

Definition thread_step t s : option state :=
  match at_pc (threads s t) with
  | PRet => ret_step t s
  | PBody c first => Some (body_step t c first s)
  | PResume c => Some (resume_step t c s)
  | PPost c => Some (post_step t c s)
  | PJoin1 c r cont => Some (join1_step t c r cont s)
  | PJoin2 c r cont => Some (join2_step t c r cont s)
  | PJoin3 c => Some (join3_step t c s)
  | PFin0 c => Some (fin0_step t c s)
  | PFinPost c res => Some (fin_post_step t c res s)
  | PFin1 c res => Some (fin1_step t c res s)
  | PFin2 c res => Some (fin2_step t c res s)
  | PFin3 c res => Some (fin3_step t c res s)
  | PRunner w => Some (runner_step t w s)
  | PSet f v => Some (set_step t f v s)
  | PReady f => Some (ready_step t f s)
  | PFault _ => None
  end.

(** ** Labels *)

Inductive label : Type :=
  | LStep (t : nat)                        (** the next step of thread [t] *)
  | LSet (t f : nat) (v : Value Z)         (** a thread in no call sets a future ... *)
  | LConstruct (t c : nat)                 (** ... or constructs a routine ... *)
  | LRun (t : nat).                        (** ... or runs a posted runner *)

(** Is the thread in no call? *)
Definition idle t s : bool :=
  match threads s t with Thread PRet None [] => true | _ => false end.

Definition next (l : label) s : option state :=
  match l with
  | LStep t => thread_step t s
  | LSet t f v => if idle t s then Some (goto t (PSet f v) (claim f s)) else None
  | LConstruct t c => if idle t s then Some (construct t c s) else None
  | LRun t =>
      if idle t s then
        match posted s with
        | [] => None
        | w :: q => Some (goto t (PRunner w) (put_posted q s))
        end
      else None
  end.

(** ** The contract

    A future is set once, to a value or an exception, and awaited by one
    coroutine; a routine is constructed once, awaited by one coroutine, and
    only when its constructor has returned. [reader] and [joiner] name these
    coroutines. A body neither crashes nor blocks its thread. *)

Section contract.
Context (reader joiner : nat -> nat).

Definition may_set f (v : Value Z) s : bool := ValueHandling.isSet v && negb (claimed s f).
Definition may_construct c s : bool :=
  match mPull (datas s c) with NotMade => true | _ => false end.

Definition may_body c s : bool :=
  match mCode (datas s c) with
  | CDone (Crash _) => false
  | CDone _ => true
  | CAwait f _ => reader f =? c
  | CJoin r _ => (joiner r =? c) && built s r
  | CSet f v _ => may_set f v s
  | CSpawn c' _ => may_construct c' s
  end.

Definition allowed (l : label) s : bool :=
  match l with
  | LStep t => match at_pc (threads s t) with PBody c _ => may_body c s | _ => true end
  | LSet _ f v => may_set f v s
  | LConstruct _ c => may_construct c s
  | LRun _ => true
  end.

Definition next_ok (l : label) s : option state := if allowed l s then next l s else None.
End contract.
End steps.
