(* ===== verification/RoutineInv.v ===== *)
(** * [Routine]: tokens and the invariant

    Control over a coroutine, the duty to end it, its constructor call, the
    reference to its runner and the duty to set a future are tokens, each of
    which is in one place: on one thread's stack, in the word of a future or
    of a result, in [mContinuation], or in the [io_context]. That every word
    and every stack agrees with one map of tokens to places is the invariant;
    that nothing happens twice and nothing is lost follows from it. *)

From S2P Require Import Prelude Future Routine.

Inductive tok : Type :=
  | Run (c : nat)        (** who may touch [c]'s stack *)
  | Fin (c : nat)        (** who runs the end of [c] *)
  | Ctor (c : nat)       (** who is in [c]'s constructor *)
  | Ref (w : nat)        (** the pointer to [w]'s runner *)
  | Setting (f : nat).   (** who is in [set_value] of [f] *)

Inductive place : Type :=
  | Nowhere | OnThread (t : nat) | InFuture (f : nat) | InResult (r : nat) | InCont (r : nat) | InQueue.

#[export] Instance tok_eq_dec : EqDecision tok.
Proof. solve_decision. Defined.
#[export] Instance place_eq_dec : EqDecision place.
Proof. solve_decision. Defined.

Definition htoks (h : handle nat) : list tok := match h with TaskPtr c => [Run c] | _ => [] end.

Definition pc_toks (p : pc) : list tok :=
  match p with
  | PBody c _ | PResume c | PPost c | PJoin1 c _ _ | PJoin2 c _ _ | PJoin3 c => [Run c]
  | PFin0 c => [Fin c]
  | PFinPost c res | PFin1 c res | PFin2 c res | PFin3 c res => Fin c :: htoks res
  | PRunner w => [Ref w]
  | PSet f _ | PReady f => [Setting f]
  | PRet | PFault _ => []
  end.

Definition kont_toks (k : kont) : list tok :=
  match k with KBody c _ => [Run c] | KCtor c => [Ctor c] | KRes h => htoks h end.

Definition rest_toks (r : list kont) : list tok := flat_map kont_toks r.

Definition toks (th : thread) : list tok := pc_toks (at_pc th) ++ rest_toks (rest th).

(** [current()] when the call on top of the stack is over. *)
Fixpoint cur_of (r : list kont) : option nat :=
  match r with
  | [] => None
  | KBody c _ :: _ => Some c
  | _ :: r => cur_of r
  end.

(** The stack under control of [x]: nothing, or [x]'s constructor, called
    outside of a coroutine or in the body of one. *)
Fixpoint under (x : nat) (r : list kont) : Prop :=
  match r with
  | [] => True
  | KCtor y :: r => y = x /\ match r with [] => True | KBody p _ :: r => under p r | _ => False end
  | _ => False
  end.

Definition bodies (r : list kont) : Prop :=
  match r with [] => True | KBody p _ :: r => under p r | _ => False end.

Definition has_task {T} (d : LightFutureData nat T) (w : nat) : Prop := continuationPtr d = TaskPtr w.

Section invariant.
Context (reader joiner : nat -> nat).
Implicit Types (s : state) (pl : tok -> place) (c w f t : nat).

Definition fready s f : Prop := LightFuture.is_ready (futures s f) = true.
Definition rready s r : Prop := LightFuture.is_ready (results s r) = true.

Definition waits_for s c : Prop :=
  match mCode (datas s c) with
  | CAwait f _ => reader f = c
  | CJoin r _ => joiner r = c /\ built s r = true
  | _ => False
  end.

Definition waits_ready s c : Prop :=
  match mCode (datas s c) with
  | CAwait f _ => fready s f
  | CJoin r _ => rready s r
  | _ => False
  end.

(** [c] has left in order to wait for the routine [r]. *)
Definition joins s c r : Prop :=
  (exists k, mCode (datas s c) = CJoin r k) /\ joiner r = c /\ built s r = true /\
  mPull (datas s c) = Outside /\ mPostLeave (datas s c) = None.

(** ... and its runner is registered in [r]'s result, or has been. *)
Definition joined s pl c r : Prop :=
  joins s c r /\
  (mRunner (datas s c) = Some EmptyHandle /\
     (pl (Ref c) = InResult r \/ (exists t, pl (Ref c) = OnThread t) /\ rready s r) \/
   mRunner (datas s c) = Some InvalidHandle /\ pl (Ref c) = Nowhere /\ rready s r).

(** [c] is in no thread's hands: its runner has it. *)
Definition suspended s pl c : Prop :=
  mPull (datas s c) = Outside /\ mPostLeave (datas s c) = None /\
  mRunner (datas s c) = Some (TaskPtr c) /\ pl (Run c) = Nowhere /\
  exists f k, mCode (datas s c) = CAwait f k /\ reader f = c /\
    (pl (Ref c) = InFuture f \/ (pl (Ref c) = InQueue \/ exists t, pl (Ref c) = OnThread t) /\ fready s f).

(** The body of [c] is active on the thread, or calls from there. *)
Definition inside s pl c (first : bool) (r : list kont) : Prop :=
  mPull (datas s c) = Inside /\ mOuter (datas s c) = cur_of r /\
  mPostLeave (datas s c) = None /\ pl (Ref c) = Nowhere /\
  (first = true -> exists r', r = KCtor c :: r').

(** The end of [c]. *)
Definition ending s pl c (post : option post_leave) : Prop :=
  mPull (datas s c) = Finished /\ mPostLeave (datas s c) = post /\ mRunner (datas s c) = None /\
  pl (Ref c) = Nowhere /\ ValueHandling.isSet (mValue (datas s c)) = true /\ ~ rready s c.

(** The continuation that [resume] of [c] will return. *)
Definition res_ok s pl c (res : handle nat) : Prop :=
  match res with
  | TaskPtr x => joins s x c /\ mRunner (datas s x) = Some EmptyHandle /\ pl (Ref x) = InResult c
  | _ => True
  end.

Definition cont_taken s c (res : handle nat) (r : list kont) : Prop :=
  continuations s c = InvalidHandle \/
  continuations s c <> InvalidHandle /\ res = EmptyHandle /\ exists r', r = KCtor c :: r'.

Definition ret_ok s pl (r : list kont) : Prop :=
  match r with
  | KCtor _ :: r => bodies r
  | KRes (TaskPtr x) :: r =>
      r = [] /\ mRunner (datas s x) = Some InvalidHandle /\ pl (Ref x) = Nowhere /\
      exists r', joins s x r' /\ rready s r'
  | KRes _ :: r => exists x, under x r
  | r => bodies r
  end.

Definition pc_ok s pl (p : pc) (r : list kont) : Prop :=
  match p with
  | PRet => ret_ok s pl r
  | PBody c first =>
      inside s pl c first r /\ (mRunner (datas s c) = None \/ waits_ready s c) /\ under c r
  | PResume c =>
      mPull (datas s c) = Outside /\ mPostLeave (datas s c) = None /\ pl (Ref c) = Nowhere /\
      mRunner (datas s c) <> None /\ waits_ready s c /\ under c r
  | PPost c =>
      mPull (datas s c) = Outside /\ mPostLeave (datas s c) = Some PostLeave /\ pl (Ref c) = Nowhere /\
      mRunner (datas s c) = Some (TaskPtr c) /\ waits_for s c /\ under c r
  | PJoin1 c r' cont =>
      joins s c r' /\ cont = TaskPtr c /\ mRunner (datas s c) = Some EmptyHandle /\
      pl (Ref c) = Nowhere /\ under c r
  | PJoin2 c r' cont => joined s pl c r' /\ cont = TaskPtr c /\ under c r
  | PJoin3 c => (exists r', joined s pl c r' /\ continuations s r' = InvalidHandle) /\ under c r
  | PFin0 c => ending s pl c (Some ResultSetter) /\ continuations s c <> InvalidHandle /\ under c r
  | PFinPost c res =>
      ending s pl c (Some ResultSetter) /\ res_ok s pl c res /\ cont_taken s c res r /\ under c r
  | PFin1 c res => ending s pl c None /\ res_ok s pl c res /\ cont_taken s c res r /\ under c r
  | PFin2 c res =>
      ending s pl c None /\ res_ok s pl c res /\ continuations s c = InvalidHandle /\ under c r
  | PFin3 c res =>
      ending s pl c None /\ res_ok s pl c res /\ continuations s c = InvalidHandle /\
      ValueHandling.isSet (value (results s c)) = true /\ under c r
  | PRunner w =>
      suspended s pl w /\ bodies r \/
      exists h r', r = [KRes h] /\ joins s w r' /\ mRunner (datas s w) = Some EmptyHandle /\
        rready s r' /\ (forall x, h = TaskPtr x -> x = w)
  | PSet f v => ValueHandling.isSet v = true /\ ~ fready s f /\ bodies r
  | PReady f => ValueHandling.isSet (value (futures s f)) = true /\ ~ fready s f /\ bodies r
  | PFault _ => False
  end.

Fixpoint rest_ok s pl (r : list kont) : Prop :=
  match r with
  | [] => True
  | KBody p first :: r => (inside s pl p first r /\ mRunner (datas s p) = None) /\ rest_ok s pl r
  | _ :: r => rest_ok s pl r
  end.

Definition thread_ok s pl (th : thread) : Prop :=
  current th = match at_pc th with PBody c _ => Some c | _ => cur_of (rest th) end /\
  pc_ok s pl (at_pc th) (rest th) /\ rest_ok s pl (rest th).

(** Where control over [c] is, and what that means for [c]. *)
Definition coro_ok s pl c : Prop :=
  match pl (Run c) with
  | Nowhere =>
      match mPull (datas s c) with
      | NotMade => mRunner (datas s c) = None /\ mPostLeave (datas s c) = None /\
                   pl (Ref c) = Nowhere /\ pl (Ctor c) = Nowhere
      | Finished => mRunner (datas s c) = None /\ pl (Ref c) = Nowhere
      | _ => suspended s pl c
      end
  | InCont r => joined s pl c r /\ pl (Ref c) = InResult r
  | OnThread _ => mPull (datas s c) = Inside \/ mPull (datas s c) = Outside
  | _ => False
  end.

Definition fin_ok s pl c : Prop :=
  match mPull (datas s c) with
  | Finished =>
      match pl (Fin c) with
      | Nowhere => rready s c /\ continuations s c = InvalidHandle
      | OnThread _ => True
      | _ => False
      end
  | _ => pl (Fin c) = Nowhere /\ ~ rready s c /\ continuations s c <> InvalidHandle
  end.

Definition ref_ok s pl w : Prop :=
  match pl (Ref w) with
  | InFuture _ | InQueue => suspended s pl w
  | InResult r => joined s pl w r
  | InCont _ => False
  | _ => True
  end.

Record Inv s pl : Prop := {
  inv_tok t : NoDup (toks (threads s t)) /\ forall x, x ∈ toks (threads s t) <-> pl x = OnThread t;
  inv_thread t : thread_ok s pl (threads s t);
  inv_fut f w : has_task (futures s f) w <-> pl (Ref w) = InFuture f;
  inv_res r w : has_task (results s r) w <-> pl (Ref w) = InResult r;
  inv_cont r c : continuations s r = TaskPtr c <-> pl (Run c) = InCont r;
  inv_queue : NoDup (posted s) /\ forall w, w ∈ posted s <-> pl (Ref w) = InQueue;
  inv_coro c : coro_ok s pl c;
  inv_fin c : fin_ok s pl c;
  inv_ref w : ref_ok s pl w;
  inv_built c : built s c = true -> mPull (datas s c) <> NotMade /\ pl (Ctor c) = Nowhere;
  inv_claim f : claimed s f = false -> ~ fready s f /\ pl (Setting f) = Nowhere;
}.

Lemma routine_inv_init prog : Inv (init prog) (fun _ => Nowhere).
Proof.
  split; simpl; try done.
  - intros t. split; [constructor|]. intros x. split; [by intros ?%elem_of_nil|done].
  - split; [constructor|]. intros x. split; [by intros ?%elem_of_nil|done].
Qed.

(** ** What a step of one thread leaves to the others *)

Definition same_control s s' c : Prop :=
  with_runner None (datas s' c) = with_runner None (datas s c).

Record frame s pl s' pl' (t : nat) : Prop := {
  fr_thread u : u <> t -> threads s' u = threads s u;
  fr_run c u : u <> t -> pl (Run c) = OnThread u ->
    same_control s s' c /\
    (mRunner (datas s' c) = mRunner (datas s c) /\ pl' (Ref c) = pl (Ref c) \/
     mRunner (datas s c) = Some EmptyHandle /\ pl (Ref c) <> Nowhere /\
     (forall r, joined s pl c r -> joined s' pl' c r) /\
     (forall r, pl (Ref c) = InResult r -> pl (Fin r) = OnThread t));
  fr_fin c u : u <> t -> pl (Fin c) = OnThread u ->
    datas s' c = datas s c /\ pl' (Ref c) = pl (Ref c) /\
    value (results s' c) = value (results s c) /\ (rready s' c -> rready s c) /\
    (continuations s' c = InvalidHandle <-> continuations s c = InvalidHandle);
  fr_ref w u : u <> t -> pl (Ref w) = OnThread u ->
    datas s' w = datas s w /\ pl' (Ref w) = pl (Ref w) /\
    (suspended s pl w -> pl' (Run w) = Nowhere);
  fr_setting f u : u <> t -> pl (Setting f) = OnThread u ->
    value (futures s' f) = value (futures s f) /\ (fready s' f -> fready s f);
  fr_fready f : fready s f -> fready s' f;
  fr_rready (r : nat) : rready s r -> rready s' r;
  fr_built c : built s c = true -> built s' c = true;
  fr_cont (r : nat) : continuations s r = InvalidHandle -> continuations s' r = InvalidHandle;
}.

Lemma same_control_fields s s' c : same_control s s' c ->
  mPull (datas s' c) = mPull (datas s c) /\ mCode (datas s' c) = mCode (datas s c) /\
  mOuter (datas s' c) = mOuter (datas s c) /\ mPostLeave (datas s' c) = mPostLeave (datas s c) /\
  mValue (datas s' c) = mValue (datas s c).
Proof.
  unfold same_control, with_runner. destruct (datas s' c), (datas s c). simpl. by intros [=].
Qed.

Lemma same_data s s' c : datas s' c = datas s c -> same_control s s' c.
Proof. unfold same_control. by intros ->. Qed.

Section stable.
Context (s s' : state) (pl pl' : tok -> place) (t : nat) (F : frame s pl s' pl' t).

Lemma waits_for_stable c : mCode (datas s' c) = mCode (datas s c) -> waits_for s c -> waits_for s' c.
Proof.
  intros H. unfold waits_for. rewrite H. destruct (mCode (datas s c)); try done.
  intros [? Hb]. split; [done|]. by apply F.
Qed.

Lemma waits_ready_stable c : mCode (datas s' c) = mCode (datas s c) -> waits_ready s c -> waits_ready s' c.
Proof.
  intros H. unfold waits_ready. rewrite H. destruct (mCode (datas s c)); try done; apply F.
Qed.

Lemma joins_stable c r : same_control s s' c -> joins s c r -> joins s' c r.
Proof.
  intros H. destruct (same_control_fields _ _ _ H) as (H1 & H2 & H3 & H4 & H5).
  unfold joins. rewrite H1, H2, H4. intros (? & ? & Hb & ?). split_and!; try done; [by apply F|intuition..].
Qed.

Lemma joined_stable c r :
  same_control s s' c -> mRunner (datas s' c) = mRunner (datas s c) -> pl' (Ref c) = pl (Ref c) ->
  joined s pl c r -> joined s' pl' c r.
Proof.
  intros H Hr Hp [Hj Hd]. split; [by apply joins_stable|]. rewrite Hr, Hp.
  pose proof (fr_rready _ _ _ _ _ F r). intuition.
Qed.

Lemma suspended_stable c :
  datas s' c = datas s c -> pl' (Ref c) = pl (Ref c) -> pl' (Run c) = Nowhere ->
  suspended s pl c -> suspended s' pl' c.
Proof.
  intros Hd Hp Hr (H1 & H2 & H3 & H4 & f & k & H5 & H6 & H7). unfold suspended. rewrite Hd, Hp.
  split_and!; try done. exists f, k. split_and!; try done.
  pose proof (fr_fready _ _ _ _ _ F f). intuition.
Qed.

Lemma inside_stable c first r :
  same_control s s' c -> pl' (Ref c) = pl (Ref c) -> inside s pl c first r -> inside s' pl' c first r.
Proof.
  intros H Hp. destruct (same_control_fields _ _ _ H) as (H1 & H2 & H3 & H4 & H5).
  unfold inside. by rewrite H1, H3, H4, Hp.
Qed.

(** Control that another thread has stays as it is, unless its runner is at
    work on a join. *)
Lemma run_stable u c : u <> t -> pl (Run c) = OnThread u ->
  (mRunner (datas s c) <> Some EmptyHandle \/ pl (Ref c) = Nowhere \/
   exists r, pl (Ref c) = InResult r /\ pl (Fin r) <> OnThread t) ->
  same_control s s' c /\ mRunner (datas s' c) = mRunner (datas s c) /\ pl' (Ref c) = pl (Ref c).
Proof.
  intros Hu Hc H. destruct (fr_run _ _ _ _ _ F c u Hu Hc) as [Hs [[? ?]|(H1 & H2 & _ & H3)]]; [done|].
  destruct H as [?|[?|(r & Hr & Hf)]]; try done. by apply H3 in Hr.
Qed.

Lemma joined_run_stable u c r : u <> t -> pl (Run c) = OnThread u -> joined s pl c r -> joined s' pl' c r.
Proof.
  intros Hu Hc Hj. destruct (fr_run _ _ _ _ _ F c u Hu Hc) as [Hs [[? ?]|(H1 & H2 & H3 & _)]].
  - by apply joined_stable. - by apply H3.
Qed.

Lemma rest_ok_stable u r :
  u <> t -> (forall x, x ∈ rest_toks r -> pl x = OnThread u) -> rest_ok s pl r -> rest_ok s' pl' r.
Proof.
  intros Hu. induction r as [|[p first|c|h] r IH]; intros Hx; simpl; [done| | |].
  - intros [[Hi Hn] Hr]. destruct (run_stable u p Hu) as (H1 & H2 & H3).
    + apply Hx. simpl. by left.
    + right. left. apply Hi.
    + split; [|apply IH; [intros x Hin; apply Hx; simpl; by right|done]].
      split; [by apply inside_stable|by rewrite H2].
  - apply IH. intros x Hin. apply Hx. simpl. by right.
  - apply IH. intros x Hin. apply Hx. simpl. apply elem_of_app. by right.
Qed.

Lemma ending_stable u c post : u <> t -> pl (Fin c) = OnThread u ->
  ending s pl c post -> ending s' pl' c post.
Proof.
  intros Hu Hc. destruct (fr_fin _ _ _ _ _ F c u Hu Hc) as (H1 & H2 & H3 & H4 & H5).
  unfold ending. rewrite H1, H2. intros (? & ? & ? & ? & ? & ?). split_and!; auto.
Qed.

Lemma cont_taken_stable u c res r : u <> t -> pl (Fin c) = OnThread u ->
  cont_taken s c res r -> cont_taken s' c res r.
Proof.
  intros Hu Hc. destruct (fr_fin _ _ _ _ _ F c u Hu Hc) as (H1 & H2 & H3 & H4 & H5).
  unfold cont_taken. rewrite H5. done.
Qed.

Lemma res_ok_stable u c res : u <> t -> pl (Fin c) = OnThread u ->
  (forall x, x ∈ htoks res -> pl x = OnThread u) -> res_ok s pl c res -> res_ok s' pl' c res.
Proof.
  intros Hu Hc Hx. destruct res as [| |x]; try done. simpl. intros (Hj & Hr & Hp).
  destruct (run_stable u x Hu) as (H1 & H2 & H3).
  - apply Hx. by left.
  - right. right. exists c. split; [done|congruence].
  - split_and!; [by apply joins_stable|congruence|congruence].
Qed.

(** The end of a routine, on another thread. *)
Definition ends (p : pc) : bool :=
  match p with PFin0 _ | PFinPost _ _ | PFin1 _ _ | PFin2 _ _ | PFin3 _ _ => true | _ => false end.

Lemma ending_pc_stable u p r :
  u <> t -> (forall x, x ∈ pc_toks p -> pl x = OnThread u) -> ends p = true ->
  pc_ok s pl p r -> pc_ok s' pl' p r.
Proof.
  intros Hu Hp. destruct p as [|c first|c|c|c r0 cont|c r0 cont|c|c|c res|c res|c res|c res|w|f v|f|];
    try done; intros _; simpl in *;
    assert (Hc : pl (Fin c) = OnThread u) by (apply Hp; by left);
    try assert (Hres : forall x, x ∈ htoks res -> pl x = OnThread u) by (intros x Hin; apply Hp; by right).
  - intros (He & Hk & Hun). split_and!; [by apply (ending_stable u)| |done].
    by rewrite (proj2 (proj2 (proj2 (proj2 (fr_fin _ _ _ _ _ F c u Hu Hc))))).
  - intros (He & Hr & Hk & Hun). split_and!; try done;
      [by apply (ending_stable u)|by apply (res_ok_stable u)|by apply (cont_taken_stable u)].
  - intros (He & Hr & Hk & Hun). split_and!; try done;
      [by apply (ending_stable u)|by apply (res_ok_stable u)|by apply (cont_taken_stable u)].
  - intros (He & Hr & Hk & Hun). split_and!; try done;
      [by apply (ending_stable u)|by apply (res_ok_stable u)|by apply F].
  - intros (He & Hr & Hk & Hv & Hun). split_and!; try done;
      [by apply (ending_stable u)|by apply (res_ok_stable u)|by apply F|].
    destruct (fr_fin _ _ _ _ _ F c u Hu Hc) as (_ & _ & -> & _). done.
Qed.

(** A coroutine that waits for the end of a routine, on another thread. *)
Lemma joining_pc_stable u p r :
  u <> t -> (forall x, x ∈ pc_toks p -> pl x = OnThread u) ->
  match p with PJoin1 _ _ _ | PJoin2 _ _ _ | PJoin3 _ => True | _ => False end ->
  pc_ok s pl p r -> pc_ok s' pl' p r.
Proof.
  intros Hu Hp. destruct p as [| | | |c r0 cont|c r0 cont|c| | | | | | | | |]; try done; intros _; simpl in *;
    assert (Hc : pl (Run c) = OnThread u) by (apply Hp; by left).
  - intros (Hj & -> & Hm & Hr & Hun). destruct (run_stable u c) as (H1 & H2 & H3); auto.
    rewrite H2, H3. split_and!; try done. by apply joins_stable.
  - intros (Hj & -> & Hun). split_and!; try done. by apply (joined_run_stable u).
  - intros ((r' & Hj & Hk) & Hun). split; [|done]. exists r'.
    split; [by apply (joined_run_stable u)|by apply F].
Qed.

Lemma pc_ok_stable u p r :
  u <> t -> (forall x, x ∈ pc_toks p -> pl x = OnThread u) -> (forall x, x ∈ rest_toks r -> pl x = OnThread u) ->
  pc_ok s pl p r -> pc_ok s' pl' p r.
Proof.
  intros Hu Hp Hq.
  assert (Hown : forall c, pl (Run c) = OnThread u -> pl (Ref c) = Nowhere ->
            same_control s s' c /\ mRunner (datas s' c) = mRunner (datas s c) /\ pl' (Ref c) = pl (Ref c))
    by (intros c H1 H2; apply (run_stable u); auto).
  destruct p as [|c first|c|c| | | | | | | | |w|f v|f|]; try (by apply (ending_pc_stable u));
    try (by apply (joining_pc_stable u)); simpl in *; try done;
    try assert (Hc : pl (Run c) = OnThread u) by (apply Hp; by left);
    try assert (Hf : pl (Setting f) = OnThread u) by (apply Hp; by left).
  - destruct r as [|[?|?|[| |x]] r]; simpl in *; try done.
    intros (-> & Hrun & Href & r' & Hj & Hrd).
    destruct (Hown x) as (H1 & H2 & H3); [apply Hq; by left|done|].
    split_and!; [done|congruence|congruence|]. exists r'. split; [by apply joins_stable|by apply F].
  - intros (Hi & Hw & Hun). destruct (Hown c Hc) as (H1 & H2 & H3); [apply Hi|].
    split_and!; [by apply inside_stable| |done]. rewrite H2.
    destruct Hw as [|Hw]; [by left|right]. apply waits_ready_stable; [by apply same_control_fields in H1 as (? & ? & _)|done].
  - intros (Ho & Hpo & Hr & Hm & Hw & Hun). destruct (Hown c Hc Hr) as (H1 & H2 & H3).
    apply same_control_fields in H1 as (E1 & E2 & E3 & E4 & E5).
    rewrite E1, E4, H2, H3. split_and!; try done. by apply waits_ready_stable.
  - intros (Ho & Hpo & Hr & Hm & Hw & Hun). destruct (Hown c Hc Hr) as (H1 & H2 & H3).
    apply same_control_fields in H1 as (E1 & E2 & E3 & E4 & E5).
    rewrite E1, E4, H2, H3. split_and!; try done. by apply waits_for_stable.
  - assert (Hw : pl (Ref w) = OnThread u) by (apply Hp; by left).
    destruct (fr_ref _ _ _ _ _ F w u Hu Hw) as (H1 & H2 & H3).
    intros [[Hs Hb]|(h & r' & -> & Hj & Hm & Hrd & Hx)]; [left|right].
    + split; [|done]. apply suspended_stable; auto.
    + exists h, r'. rewrite H1. split_and!; try done; [|by apply F].
      apply joins_stable; [|done]. unfold same_control. by rewrite H1.
  - destruct (fr_setting _ _ _ _ _ F f u Hu Hf) as [H1 H2]. intuition.
  - destruct (fr_setting _ _ _ _ _ F f u Hu Hf) as [-> H2]. intuition.
Qed.

Lemma thread_ok_stable u :
  u <> t -> (forall x, x ∈ toks (threads s u) -> pl x = OnThread u) ->
  thread_ok s pl (threads s u) -> thread_ok s' pl' (threads s' u).
Proof.
  intros Hu Hx. rewrite (fr_thread _ _ _ _ _ F u Hu). unfold thread_ok, toks in *.
  destruct (threads s u) as [p cur r]. simpl in *. setoid_rewrite elem_of_app in Hx.
  intros (Hcur & Hpc & Hrest). split; [done|]. split.
  - apply (pc_ok_stable u); auto.
  - apply (rest_ok_stable u); auto.
Qed.

(** What the map of tokens says about a coroutine that was not concerned. *)
Definition untouched c : Prop :=
  datas s' c = datas s c /\ pl' (Run c) = pl (Run c) /\ pl' (Ref c) = pl (Ref c) /\
  (pl (Ctor c) = Nowhere -> pl' (Ctor c) = Nowhere).

Lemma coro_ok_stable c : untouched c -> coro_ok s pl c -> coro_ok s' pl' c.
Proof.
  intros (Hd & Hr & Hf & Hc). unfold coro_ok. rewrite Hr, Hd, Hf.
  assert (Hsus : pl (Run c) = Nowhere -> suspended s pl c -> suspended s' pl' c)
    by (intros ?; apply suspended_stable; congruence).
  destruct (pl (Run c)); try done.
  - destruct (mPull (datas s c)); auto. intuition.
  - intros [Hj ?]. split; [|done]. apply joined_stable; first [done|by apply same_data|congruence].
Qed.

Lemma ref_ok_stable w : untouched w -> ref_ok s pl w -> ref_ok s' pl' w.
Proof.
  intros (Hd & Hr & Hf & Hc). unfold ref_ok. rewrite Hf.
  assert (Hsus : suspended s pl w -> suspended s' pl' w).
  { intros Hs. apply suspended_stable; try done. rewrite Hr. apply Hs. }
  destruct (pl (Ref w)) eqn:E; auto. intros Hj. apply joined_stable; first [done|by apply same_data|congruence].
Qed.

Lemma fin_ok_stable c :
  mPull (datas s' c) = mPull (datas s c) -> pl' (Fin c) = pl (Fin c) ->
  (rready s' c -> rready s c) -> (continuations s' c = InvalidHandle -> continuations s c = InvalidHandle) ->
  fin_ok s pl c -> fin_ok s' pl' c.
Proof.
  intros Hp Hf Hr Hk. unfold fin_ok. rewrite Hp, Hf.
  pose proof (fr_rready _ _ _ _ _ F c). pose proof (fr_cont _ _ _ _ _ F c).
  destruct (mPull (datas s c)); [intuition..|]. destruct (pl (Fin c)); intuition.
Qed.
End stable.

(** ** Moving tokens *)

Definition token_ok s pl : Prop :=
  forall t, NoDup (toks (threads s t)) /\ forall x, x ∈ toks (threads s t) <-> pl x = OnThread t.

(** Thread [t] replaces the tokens [A] on top of its stack by [B]. *)
Lemma token_move s s' pl pl' t A B R :
  token_ok s pl -> (forall u, u <> t -> threads s' u = threads s u) ->
  toks (threads s t) ≡ₚ A ++ R -> toks (threads s' t) ≡ₚ B ++ R -> NoDup B ->
  (forall x, x ∈ B -> pl' x = OnThread t) ->
  (forall x u, x ∈ B -> x ∉ A -> pl x <> OnThread u) ->
  (forall x u, x ∈ A -> x ∉ B -> pl' x <> OnThread u) ->
  (forall x, x ∉ A -> x ∉ B -> pl' x = pl x \/ forall u, pl x <> OnThread u /\ pl' x <> OnThread u) ->
  token_ok s' pl'.
Proof.
  intros H Hth HA HB HnB HB1 HB2 HA1 Hother u.
  destruct (decide (u = t)) as [->|Hu].
  - rewrite HB. destruct (H t) as [Hnd Hiff]. rewrite HA in Hnd. setoid_rewrite HA in Hiff.
    setoid_rewrite HB. apply list.NoDup_app in Hnd as (HnA & Hdis & HnR).
    assert (HR : forall x, x ∈ R -> pl x = OnThread t /\ x ∉ A).
    { intros x Hx. split; [apply Hiff, elem_of_app; by right|]. intros Hx'. by apply (Hdis x). }
    split.
    + apply list.NoDup_app. split_and!; try done. intros x Hx HxR.
      destruct (HR x HxR) as [H1 H2]. by apply (HB2 x t).
    + intros x. rewrite elem_of_app. split.
      * intros [Hx|Hx]; [by apply HB1|]. destruct (HR x Hx) as [H1 H2].
        destruct (decide (x ∈ B)) as [HxB|HxB]; [by apply HB1|].
        destruct (Hother x H2 HxB) as [Hp|Hp]; [congruence|by destruct (Hp t)].
      * intros Hx. destruct (decide (x ∈ B)) as [|HxB]; [by left|right].
        destruct (decide (x ∈ A)) as [HxA|HxA]; [by apply HA1 in Hx|].
        destruct (Hother x HxA HxB) as [Hp|Hp]; [|by destruct (Hp t)].
        rewrite Hp in Hx. apply Hiff, elem_of_app in Hx as [?|?]; done.
  - rewrite (Hth u Hu). destruct (H u) as [Hnd Hiff]. split; [done|].
    destruct (H t) as [_ Hiff']. setoid_rewrite HA in Hiff'.
    assert (Hnt : forall x, x ∈ A -> pl x = OnThread t) by (intros x Hx; apply Hiff', elem_of_app; by left).
    intros x. rewrite Hiff. destruct (decide (x ∈ A)) as [HxA|HxA].
    + rewrite (Hnt x HxA). split; [by intros [= ->]|].
      destruct (decide (x ∈ B)) as [HxB|HxB]; [rewrite HB1 by done; by intros [= ->]|].
      intros Hx. by apply HA1 in Hx.
    + destruct (decide (x ∈ B)) as [HxB|HxB].
      * rewrite HB1 by done. split; [|by intros [= ->]]. intros Hx. by apply HB2 in Hx.
      * destruct (Hother x HxA HxB) as [->|Hp]; [done|]. destruct (Hp u). done.
Qed.

(** One token is given away, taken, or both. *)
Lemma token_drop s s' pl pl' t a R :
  token_ok s pl -> (forall u, u <> t -> threads s' u = threads s u) ->
  toks (threads s t) ≡ₚ a :: R -> toks (threads s' t) ≡ₚ R ->
  (forall u, pl' a <> OnThread u) -> (forall x, x <> a -> pl' x = pl x) -> token_ok s' pl'.
Proof.
  intros H Hth HA HB Ha Hx. apply (token_move s s' pl pl' t [a] [] R); try done.
  - constructor.
  - by intros x ?%elem_of_nil.
  - by intros x u ?%elem_of_nil.
  - by intros x u ->%list_elem_of_singleton _.
  - intros x Hn _. rewrite list_elem_of_singleton in Hn. left. by apply Hx.
Qed.

(** ... while another one goes from one place that is not a stack to another. *)
Lemma token_drop' s s' pl pl' t a b R :
  token_ok s pl -> (forall u, u <> t -> threads s' u = threads s u) ->
  toks (threads s t) ≡ₚ a :: R -> toks (threads s' t) ≡ₚ R ->
  (forall u, pl' a <> OnThread u) -> (forall u, pl b <> OnThread u) -> (forall u, pl' b <> OnThread u) ->
  (forall x, x <> a -> x <> b -> pl' x = pl x) -> token_ok s' pl'.
Proof.
  intros H Hth HA HB Ha Hb Hb' Hx. apply (token_move s s' pl pl' t [a] [] R); try done.
  - constructor.
  - by intros x ?%elem_of_nil.
  - by intros x u ?%elem_of_nil.
  - by intros x u ->%list_elem_of_singleton _.
  - intros x Hn _. rewrite list_elem_of_singleton in Hn.
    destruct (decide (x = b)) as [->|]; [by right|left; by apply Hx].
Qed.

Lemma token_take s s' pl pl' t B R :
  token_ok s pl -> (forall u, u <> t -> threads s' u = threads s u) ->
  toks (threads s t) ≡ₚ R -> toks (threads s' t) ≡ₚ B ++ R -> NoDup B ->
  Forall (fun x => pl' x = OnThread t /\ forall u, pl x <> OnThread u) B ->
  (forall x, x ∉ B -> pl' x = pl x) -> token_ok s' pl'.
Proof.
  intros H Hth HA HB Hnd Hb Hx. rewrite list.Forall_forall in Hb.
  apply (token_move s s' pl pl' t [] B R); try done.
  - intros x Hin. by destruct (Hb x Hin).
  - intros x u Hin _. by destruct (Hb x Hin).
  - by intros x u ?%elem_of_nil.
  - intros x _ Hn. left. by apply Hx.
Qed.

Lemma token_take1 s s' pl pl' t b R :
  token_ok s pl -> (forall u, u <> t -> threads s' u = threads s u) ->
  toks (threads s t) ≡ₚ R -> toks (threads s' t) ≡ₚ b :: R ->
  pl' b = OnThread t -> (forall u, pl b <> OnThread u) ->
  (forall x, x <> b -> pl' x = pl x) -> token_ok s' pl'.
Proof.
  intros H Hth HA HB Hb Hn Hx. apply (token_take s s' pl pl' t [b] R); try done.
  - apply list.NoDup_singleton.
  - by repeat constructor.
  - intros x Hn1. apply Hx. by rewrite list_elem_of_singleton in Hn1.
Qed.

Lemma token_swap s s' pl pl' t a b R :
  token_ok s pl -> (forall u, u <> t -> threads s' u = threads s u) ->
  toks (threads s t) ≡ₚ a :: R -> toks (threads s' t) ≡ₚ b :: R ->
  pl' b = OnThread t -> (forall u, pl b <> OnThread u) -> (forall u, pl' a <> OnThread u) ->
  (forall x, x <> a -> x <> b -> pl' x = pl x) -> token_ok s' pl'.
Proof.
  intros H Hth HA HB Hb Hn Ha Hx. apply (token_move s s' pl pl' t [a] [b] R); try done.
  - apply list.NoDup_singleton.
  - by intros x ->%list_elem_of_singleton.
  - by intros x u ->%list_elem_of_singleton _.
  - by intros x u ->%list_elem_of_singleton _.
  - intros x Hn1 Hn2. rewrite list_elem_of_singleton in Hn1, Hn2. left. by apply Hx.
Qed.

(** A token goes from one place that is not a stack to another. *)
Lemma token_move_off s s' pl pl' t b :
  token_ok s pl -> (forall u, u <> t -> threads s' u = threads s u) ->
  toks (threads s' t) = toks (threads s t) ->
  (forall u, pl b <> OnThread u) -> (forall u, pl' b <> OnThread u) ->
  (forall x, x <> b -> pl' x = pl x) -> token_ok s' pl'.
Proof.
  intros H Hth Ht Hb Hb' Hx. apply (token_move s s' pl pl' t [] [] (toks (threads s t))); try done.
  - by rewrite Ht.
  - constructor.
  - by intros x ?%elem_of_nil.
  - intros x _ _. destruct (decide (x = b)) as [->|]; [by right|left; by apply Hx].
Qed.

Lemma token_keep s s' pl t :
  token_ok s pl -> (forall u, u <> t -> threads s' u = threads s u) ->
  toks (threads s' t) = toks (threads s t) -> token_ok s' pl.
Proof.
  intros H Hth Ht u. destruct (decide (u = t)) as [->|Hu]; [by rewrite Ht|by rewrite Hth].
Qed.
End invariant.
