(* ===== verification/RoutineSteps.v ===== *)
(** * [Routine]: every step keeps the invariant *)

From S2P Require Import Prelude Future Routine RoutineInv.

(** ** Tactics *)

(** Read an updated map. *)
Ltac fn_cases :=
  repeat match goal with
  | |- context [(<[?a := ?x]> ?g) ?b] =>
      destruct (decide (a = b)) as [?|?];
      [first [congruence | simplify_eq; rewrite fn_lookup_insert]
      | first [congruence | rewrite fn_lookup_insert_ne by done]]
  end.

Ltac on_thread Hth :=
  unfold goto, push, set_current; simpl; rewrite ?fn_lookup_insert; simpl; rewrite ?Hth; simpl;
  rewrite ?fn_lookup_insert; simpl.

Ltac others := intros; simpl; rewrite ?fn_lookup_insert_ne by done; done.

(** The side conditions of moving one token. *)
Ltac tokens Hth :=
  first
    [ others
    | by rewrite Hth
    | rewrite Hth; unfold toks; simpl; by rewrite app_nil_r
    | by on_thread Hth
    | on_thread Hth; unfold toks; simpl; by rewrite app_nil_r
    | congruence
    | intros; congruence
    | by intros; fn_cases
    | idtac ].

(** What a state that differs from [s] in few words still says about them. *)
Ltac words H :=
  intros; first [rewrite (inv_fut _ _ _ _ H)|rewrite (inv_res _ _ _ _ H)|rewrite (inv_cont _ _ _ _ H)];
  fn_cases; first [done|split; congruence].

Ltac queue H :=
  let Hq1 := fresh in let Hq2 := fresh in let w := fresh "w" in
  destruct (inv_queue _ _ _ _ H) as [Hq1 Hq2]; split; [done|]; intros w; rewrite Hq2;
  fn_cases; first [done|split; congruence].

Ltac built_same H :=
  let c := fresh "c" in let Hb := fresh in
  intros c Hb; destruct (inv_built _ _ _ _ H c Hb) as [? ?]; split; [|fn_cases; first [done|congruence]];
  fn_cases; rewrite ?fn_lookup_insert; simpl; done.

Ltac claim_same H :=
  let f := fresh "f" in let Hf := fresh in
  intros f Hf; destruct (inv_claim _ _ _ _ H f Hf) as [? ?]; split; [done|]; fn_cases; first [done|congruence].

(** Where the tokens of an end and of a runner can be on a stack. *)
Lemma fin_in_rest c (k : list kont) : ~ Fin c ∈ rest_toks k.
Proof.
  rewrite list_elem_of_In. induction k as [|[| |[]] k IH]; simpl; [tauto|..|tauto|tauto|];
    (intros [?|?]; [done|tauto]).
Qed.

Lemma fin_in_pc c p : Fin c ∈ pc_toks p ->
  match p with
  | PFin0 c' | PFinPost c' _ | PFin1 c' _ | PFin2 c' _ | PFin3 c' _ => c' = c
  | _ => False
  end.
Proof.
  rewrite list_elem_of_In. destruct p; simpl; try tauto; try (intros [|[]]; congruence);
    destruct res; simpl; intuition congruence.
Qed.

Lemma ref_in_rest w (k : list kont) : ~ Ref w ∈ rest_toks k.
Proof.
  rewrite list_elem_of_In. induction k as [|[| |[]] k IH]; simpl; [tauto|..|tauto|tauto|];
    (intros [?|?]; [done|tauto]).
Qed.

Section steps.
Context (reader joiner : nat -> nat).
Implicit Types (s : state) (pl : tok -> place) (c w f t u : nat).

Abbreviation Inv := (Inv reader joiner).
Abbreviation thread_ok := (thread_ok reader joiner).
Abbreviation pc_ok := (pc_ok reader joiner).
Abbreviation coro_ok := (coro_ok reader joiner).
Abbreviation ref_ok := (ref_ok reader joiner).
Abbreviation frame := (frame reader joiner).

Lemma inv_step s s' pl pl' t :
  Inv s pl -> frame s pl s' pl' t -> token_ok s' pl' -> thread_ok s' pl' (threads s' t) ->
  (forall f w, has_task (futures s' f) w <-> pl' (Ref w) = InFuture f) ->
  (forall r w, has_task (results s' r) w <-> pl' (Ref w) = InResult r) ->
  (forall r c, continuations s' r = TaskPtr c <-> pl' (Run c) = InCont r) ->
  (NoDup (posted s') /\ forall w, w ∈ posted s' <-> pl' (Ref w) = InQueue) ->
  (forall c, untouched s s' pl pl' c \/ coro_ok s' pl' c /\ ref_ok s' pl' c) ->
  (forall c, mPull (datas s' c) = mPull (datas s c) /\ pl' (Fin c) = pl (Fin c) /\
       (rready s' c -> rready s c) /\
       (continuations s' c = InvalidHandle -> continuations s c = InvalidHandle) \/ fin_ok s' pl' c) ->
  (forall c, built s' c = true -> mPull (datas s' c) <> NotMade /\ pl' (Ctor c) = Nowhere) ->
  (forall f, claimed s' f = false -> ~ fready s' f /\ pl' (Setting f) = Nowhere) ->
  Inv s' pl'.
Proof.
  intros H F Htok Hth Hf Hr Hc Hq Hco Hfi Hb Hcl. split; try done.
  - intros u. destruct (decide (u = t)) as [->|Hu]; [done|].
    eapply thread_ok_stable; [done|done| |apply H].
    intros x Hx. by apply (inv_tok _ _ _ _ H u).
  - intros c. destruct (Hco c) as [Hun|[? _]]; [|done]. eapply coro_ok_stable; [done..|apply H].
  - intros c. destruct (Hfi c) as [(? & ? & ? & ?)|?]; [|done]. eapply fin_ok_stable; [done..|apply H].
  - intros c. destruct (Hco c) as [Hun|[_ ?]]; [|done]. eapply ref_ok_stable; [done..|apply H].
Qed.

Lemma tok_on s pl t x : Inv s pl -> x ∈ toks (threads s t) -> pl x = OnThread t.
Proof. intros H. apply (inv_tok _ _ _ _ H). Qed.

Lemma rest_ok_same s s' pl pl' r :
  (forall p, Run p ∈ rest_toks r -> datas s' p = datas s p /\ pl' (Ref p) = pl (Ref p)) ->
  rest_ok s pl r -> rest_ok s' pl' r.
Proof.
  induction r as [|[p first|c|h] r IH]; intros Hx; simpl; [done| | |].
  - destruct (Hx p) as [H1 H2]; [simpl; by left|]. intros [[Hi Hn] Hr]. split.
    + unfold inside. by rewrite H1, H2.
    + apply IH; [|done]. intros q Hq. apply Hx. simpl. by right.
  - apply IH. intros q Hq. apply Hx. simpl. by right.
  - apply IH. intros q Hq. apply Hx. simpl. apply elem_of_app. by right.
Qed.

(** A step that moves no token, changes at most the data of a coroutine it
    controls, and no word. *)
Lemma step_own s s' pl t c :
  Inv s pl ->
  (forall u, u <> t -> threads s' u = threads s u) ->
  toks (threads s' t) = toks (threads s t) ->
  (forall c', c' <> c -> datas s' c' = datas s c') ->
  (datas s' c = datas s c \/
   pl (Run c) = OnThread t /\ pl (Ref c) = Nowhere /\ (mPull (datas s' c) = Inside \/ mPull (datas s' c) = Outside)) ->
  (forall f, futures s' f = futures s f) -> (forall r, results s' r = results s r) ->
  continuations s' = continuations s -> posted s' = posted s -> claimed s' = claimed s ->
  built s' = built s ->
  thread_ok s' pl (threads s' t) -> Inv s' pl.
Proof.
  intros H Hth Htk Hd Hc Hf Hr Hco Hp Hcl Hb Hok.
  assert (Hpull : pl (Run c) = OnThread t -> mPull (datas s c) = Inside \/ mPull (datas s c) = Outside).
  { intros Hx. pose proof (inv_coro _ _ _ _ H c) as Hcc. unfold RoutineInv.coro_ok in Hcc. by rewrite Hx in Hcc. }
  assert (Hdc : forall c' u, u <> t -> (pl (Run c') = OnThread u \/ pl (Fin c') = OnThread u \/ pl (Ref c') = OnThread u) ->
                datas s' c' = datas s c').
  { intros c' u Hu Hx. destruct (decide (c' = c)) as [->|]; [|by apply Hd].
    destruct Hc as [|(H1 & H2 & H3)]; [done|]. destruct Hx as [Hx|[Hx|Hx]]; try congruence.
    pose proof (inv_fin _ _ _ _ H c) as Hfi. unfold fin_ok in Hfi.
    destruct (Hpull H1) as [E|E]; rewrite E in Hfi; destruct Hfi; congruence. }
  eapply (inv_step s s' pl pl t); try done; unfold fready, rready in *.
  - split; unfold fready, rready; intros *; rewrite ?Hf, ?Hr, ?Hco, ?Hb; try done.
    + apply Hth.
    + intros Hu Hx. split; [apply same_data; eauto|left]. by rewrite (Hdc c0 u) by auto.
    + intros Hu Hx. by rewrite (Hdc c0 u) by auto.
    + intros Hu Hx. rewrite (Hdc w u) by auto. split_and!; try done. intros Hs. apply Hs.
  - apply (token_keep s s' pl t); [exact (inv_tok _ _ _ _ H)|done|done].
  - intros f w. rewrite Hf. apply H.
  - intros r w. rewrite Hr. apply H.
  - intros r c'. rewrite Hco. apply H.
  - rewrite Hp. apply H.
  - intros c'. destruct (decide (c' = c)) as [->|]; [|left; split_and!; auto].
    destruct Hc as [|(H1 & H2 & H3)]; [by left; split_and!; auto|right].
    unfold RoutineInv.coro_ok, RoutineInv.ref_ok. by rewrite H1, H2.
  - intros c'. destruct (decide (c' = c)) as [->|]; [|left; rewrite Hr, Hco; split_and!; by rewrite ?Hd].
    destruct Hc as [->|(H1 & H2 & H3)]; [left; by rewrite Hr, Hco|right].
    pose proof (inv_fin _ _ _ _ H c) as Hfi. unfold fin_ok, rready in *. rewrite Hr, Hco.
    destruct (Hpull H1) as [E|E], H3 as [E'|E']; by rewrite E in Hfi; rewrite E'.
  - intros c'. rewrite Hb. intros Hx. destruct (inv_built _ _ _ _ H c' Hx) as [H1 H2]. split; [|done].
    destruct (decide (c' = c)) as [->|]; [|by rewrite Hd].
    destruct Hc as [->|(_ & _ & [-> | ->])]; done.
  - intros f. rewrite Hcl, Hf. apply H.
Qed.

(** ** The body *)

Lemma run_on s pl t p cur r c :
  Inv s pl -> threads s t = Thread p cur r -> pc_toks p = [Run c] ->
  pl (Run c) = OnThread t /\ (forall q, Run q ∈ rest_toks r -> q <> c).
Proof.
  intros H Hth Hp. destruct (inv_tok _ _ _ _ H t) as [Hnd Hiff]. rewrite Hth in *.
  unfold toks in *. simpl in *. rewrite Hp in *. simpl in *. apply list.NoDup_cons in Hnd as [Hn _].
  split; [apply Hiff; by left|]. intros q Hq ->. done.
Qed.

(** The tokens on the stack of [t] are there. *)
Lemma rest_on s pl t p cur r y :
  Inv s pl -> threads s t = Thread p cur r -> y ∈ rest_toks r -> pl y = OnThread t.
Proof.
  intros H Hth Hy. apply (inv_tok _ _ _ _ H). rewrite Hth. unfold toks. apply elem_of_app. by right.
Qed.

Lemma off_rest s pl t p cur r c :
  Inv s pl -> threads s t = Thread p cur r -> pl (Run c) <> OnThread t ->
  forall q, Run q ∈ rest_toks r -> q <> c.
Proof. intros H Hth Hc q Hq ->. by apply Hc, (rest_on s pl t p cur r). Qed.

(** What the place of control over [c] says of the state of its pull. *)
Lemma running_pull s pl c t :
  Inv s pl -> pl (Run c) = OnThread t -> mPull (datas s c) = Inside \/ mPull (datas s c) = Outside.
Proof. intros H Hc. pose proof (inv_coro _ _ _ _ H c) as Hx. unfold RoutineInv.coro_ok in Hx. by rewrite Hc in Hx. Qed.

Lemma fin_off s pl c : Inv s pl -> mPull (datas s c) <> Finished -> pl (Fin c) = Nowhere.
Proof.
  intros H Hp. pose proof (inv_fin _ _ _ _ H c) as Hx. unfold fin_ok in Hx.
  by destruct (mPull (datas s c)); try (by destruct Hx).
Qed.

Lemma not_made s pl c : Inv s pl -> mPull (datas s c) = NotMade ->
  pl (Run c) = Nowhere /\ pl (Ref c) = Nowhere /\ pl (Ctor c) = Nowhere /\ pl (Fin c) = Nowhere /\
  mRunner (datas s c) = None /\ mPostLeave (datas s c) = None.
Proof.
  intros H Hp. pose proof (inv_coro _ _ _ _ H c) as Hx. unfold RoutineInv.coro_ok in Hx.
  assert (Hr : pl (Run c) = Nowhere).
  { destruct (pl (Run c)); try done; [destruct Hx; congruence|].
    destruct Hx as [((_ & _ & _ & ? & _) & _) _]. congruence. }
  rewrite Hr, Hp in Hx. destruct Hx as (? & ? & ? & ?). split_and!; try done.
  apply (fin_off s); congruence.
Qed.

(** A suspended coroutine whose runner moves on is still suspended. *)
Lemma suspended_moves s s' pl pl' w :
  suspended reader s pl w -> datas s' w = datas s w -> pl' (Run w) = pl (Run w) ->
  (pl' (Ref w) = InQueue \/ exists t, pl' (Ref w) = OnThread t) ->
  (forall f, pl (Ref w) = InFuture f \/ fready s f -> fready s' f) -> suspended reader s' pl' w.
Proof.
  intros (H1 & H2 & H3 & H4 & f & k & H5 & H6 & H7) Hd Hrun Href Hf. unfold suspended. rewrite Hd, Hrun.
  split_and!; try done. exists f, k. split_and!; try done. right. split; [done|]. apply Hf.
  destruct H7 as [|[_ ?]]; auto.
Qed.

Lemma suspended_coro s pl w : suspended reader s pl w -> coro_ok s pl w /\ ref_ok s pl w.
Proof.
  intros Hs. pose proof Hs as (H1 & _ & _ & H4 & f & k & _ & _ & H7).
  unfold RoutineInv.coro_ok, RoutineInv.ref_ok. rewrite H4, H1. split; [done|].
  destruct H7 as [->|[[->|[t ->]] _]]; done.
Qed.

(** A coroutine that has not ended, and that thread [u] has nothing to do with. *)
Lemma elsewhere s pl w u c :
  Inv s pl -> mPull (datas s w) <> Finished -> pl (Run w) <> OnThread u -> pl (Ref w) <> OnThread u ->
  pl (Run c) = OnThread u \/ pl (Fin c) = OnThread u \/ pl (Ref c) = OnThread u -> c <> w.
Proof.
  intros H Hp Hr Hf Hc ->. pose proof (inv_fin _ _ _ _ H w) as Hfi. unfold fin_ok in Hfi.
  destruct Hc as [|[Hx|]]; [done| |done]. rewrite Hx in Hfi. destruct (mPull (datas s w)); try done; by destruct Hfi.
Qed.

(** A coroutine whose code goes on, or begins, on thread [t]. *)
Lemma inside_ok s s' pl pl' t c :
  Inv s pl -> (pl (Run c) = OnThread t \/ mPull (datas s c) = NotMade) ->
  pl' (Run c) = OnThread t -> pl' (Ref c) = Nowhere -> pl' (Fin c) = pl (Fin c) ->
  mPull (datas s' c) = Inside -> (rready s' c <-> rready s c) -> continuations s' c = continuations s c ->
  (coro_ok s' pl' c /\ ref_ok s' pl' c) /\ fin_ok s' pl' c.
Proof.
  intros H Hc E1 E2 E3 Hp Hr Hk. pose proof (inv_fin _ _ _ _ H c) as Hfi.
  unfold RoutineInv.coro_ok, RoutineInv.ref_ok, fin_ok in *. rewrite E1, E2, E3, Hp, Hr, Hk.
  split_and!; auto; destruct Hc as [Hc|Hc]; try (by rewrite Hc in Hfi; apply Hfi).
  all: destruct (running_pull _ _ _ _ H Hc) as [Hx|Hx]; rewrite Hx in Hfi; apply Hfi.
Qed.

Lemma rest_other s s' pl c r :
  (forall q, Run q ∈ rest_toks r -> q <> c) -> (forall c', c' <> c -> datas s' c' = datas s c') ->
  rest_ok s pl r -> rest_ok s' pl r.
Proof. intros Hq Hd. apply rest_ok_same. intros p Hp. split; [|done]. apply Hd. by apply Hq. Qed.

Lemma inv_resumed s pl t c first cur r k :
  Inv s pl -> threads s t = Thread (PBody c first) cur r ->
  Inv (put_data c (with_runner None (with_code k (datas s c))) s) pl.
Proof.
  intros H Hth. destruct (run_on _ _ _ _ _ _ c H Hth eq_refl) as [Hc Hne].
  pose proof (inv_thread _ _ _ _ H t) as Hok. rewrite Hth in Hok.
  destruct Hok as (Hcur & (Hi & Hw & Hun) & Hr). simpl in *.
  eapply (step_own s _ pl t c); simpl; try done.
  - others.
  - right. rewrite fn_lookup_insert. split_and!; [done|apply Hi|]. left. apply Hi.
  - rewrite Hth. split; [done|]. split; simpl.
    + unfold inside. simpl. rewrite fn_lookup_insert. simpl. split_and!; try apply Hi; [by left|done].
    + eapply rest_other; [done| |done]. others.
Qed.

Lemma inv_leave s pl t c first cur r :
  Inv s pl -> threads s t = Thread (PBody c first) cur r -> waits_for reader joiner s c ->
  Inv (leave t c (put_data c (with_runner (Some (TaskPtr c)) (datas s c)) s)) pl.
Proof.
  intros H Hth Hw. destruct (run_on _ _ _ _ _ _ c H Hth eq_refl) as [Hc Hne].
  pose proof (inv_thread _ _ _ _ H t) as Hok. rewrite Hth in Hok.
  destruct Hok as (Hcur & (Hi & _ & Hun) & Hr). simpl in *.
  destruct Hi as (H1 & H2 & H3 & H4 & H5).
  unfold leave. simpl. rewrite fn_lookup_insert. simpl. rewrite H3, Hth. simpl. rewrite Hcur.
  rewrite !bool_decide_true by done.
  eapply (step_own s _ pl t c); on_thread Hth; try done.
  - others.
  - others.
  - right. auto.
  - split; [by rewrite H2|]. split; simpl.
    + unfold waits_for in *. simpl. rewrite !fn_lookup_insert. simpl. by split_and!.
    + eapply rest_other; [done| |done]. others.
Qed.

Lemma await_resume_ready (x : LightFutureData nat Z) e :
  LightFuture.is_ready x = true -> fst (LightFuture.await_resume x) <> Crash e.
Proof.
  intros Hr. unfold LightFuture.await_resume, LightFuture.get_unchecked. co_unfold.
  change (LightFuture.is_ready_weak x) with (LightFuture.is_ready x). rewrite Hr.
  by destruct x as [h []].
Qed.

Lemma get_void_ready (x : LightFutureData nat StatelessT) e :
  LightFuture.is_ready x = true -> fst (LightFuture.get_unchecked_void x) <> Crash e.
Proof.
  intros Hr. unfold LightFuture.get_unchecked_void.
  change (bool_decide (continuationPtr x = InvalidHandle)) with (LightFuture.is_ready x). rewrite Hr.
  by destruct x as [h []].
Qed.

Lemma inv_await {A} s pl t c first cur r ready (res : outcome A) k :
  Inv s pl -> threads s t = Thread (PBody c first) cur r -> waits_for reader joiner s c ->
  (ready = true -> forall e, res <> Crash e) -> (waits_ready s c -> ready = true) ->
  Inv (await t c ready res k s) pl.
Proof.
  intros H Hth Hw Hres Hrd. unfold await.
  assert (Hgo : (forall e, res <> Crash e) -> Inv match res with
     | Crash e => goto t (PFault e) s
     | o => put_data c (with_runner None (with_code (k o) (datas s c))) s end pl).
  { intros He. destruct res as [a|e|e]; [by eapply inv_resumed..|by destruct (He e)]. }
  destruct (mRunner (datas s c)) eqn:Em.
  - apply Hgo, Hres, Hrd. pose proof (inv_thread _ _ _ _ H t) as Hok. rewrite Hth in Hok.
    destruct Hok as (_ & (_ & [Hn|Hwr] & _) & _); [congruence|done].
  - destruct ready; [apply Hgo; auto|by eapply inv_leave].
Qed.

Lemma frame_intro s s' pl pl' t :
  (forall u, u <> t -> threads s' u = threads s u) ->
  (forall c u, u <> t -> pl (Run c) = OnThread u \/ pl (Fin c) = OnThread u \/ pl (Ref c) = OnThread u ->
     datas s' c = datas s c /\ pl' (Ref c) = pl (Ref c)) ->
  (forall w u, u <> t -> pl (Ref w) = OnThread u -> pl (Run w) = Nowhere -> pl' (Run w) = Nowhere) ->
  (forall c u, u <> t -> pl (Fin c) = OnThread u ->
     value (results s' c) = value (results s c) /\ (rready s' c -> rready s c) /\
     (continuations s' c = InvalidHandle <-> continuations s c = InvalidHandle)) ->
  (forall f u, u <> t -> pl (Setting f) = OnThread u ->
     value (futures s' f) = value (futures s f) /\ (fready s' f -> fready s f)) ->
  (forall f, fready s f -> fready s' f) -> (forall r : nat, rready s r -> rready s' r) ->
  (forall c, built s c = true -> built s' c = true) ->
  (forall r : nat, continuations s r = InvalidHandle -> continuations s' r = InvalidHandle) ->
  frame s pl s' pl' t.
Proof.
  intros Hth Hd Hrun Hfin Hset Hf Hr Hb Hc. split; try done.
  - intros c u Hu Hx. destruct (Hd c u Hu) as [? ?]; [by left|].
    split; [by apply same_data|left; split; congruence].
  - intros c u Hu Hx. destruct (Hd c u Hu) as [? ?]; [by auto|]. destruct (Hfin c u Hu Hx). auto.
  - intros w u Hu Hx. destruct (Hd w u Hu) as [? ?]; [by auto|]. split_and!; try done.
    intros Hs. apply (Hrun w u Hu Hx). apply Hs.
Qed.

Lemma inv_finish s pl t c first cur r o :
  Inv s pl -> threads s t = Thread (PBody c first) cur r -> mRunner (datas s c) = None ->
  (forall e, o <> Crash e) -> Inv (finish t c first o s) (<[Fin c := OnThread t]> (<[Run c := Nowhere]> pl)).
Proof.
  intros H Hth Hm Ho. destruct (run_on _ _ _ _ _ _ c H Hth eq_refl) as [Hc Hne].
  pose proof (inv_thread _ _ _ _ H t) as Hok. rewrite Hth in Hok.
  destruct Hok as (Hcur & (Hi & _ & Hun) & Hr). simpl in *.
  destruct Hi as (H1 & H2 & H3 & H4 & H5).
  assert (Hv : exists v, ValueHandling.setByResult_void (fun w : unit => (o, w)) (mValue (datas s c), tt) = (Ret tt, (v, tt))
               /\ ValueHandling.isSet v = true).
  { unfold ValueHandling.setByResult_void, ValueHandling.setByResult, bind, ret.
    destruct o as [[]|e|e]; [by eexists..|by destruct (Ho e)]. }
  destruct Hv as (v & Hv & Hset).
  pose proof (inv_fin _ _ _ _ H c) as Hfi. unfold fin_ok in Hfi. rewrite H1 in Hfi. destruct Hfi as (F1 & F2 & F3).
  unfold finish. rewrite Hv, H3, Hth. simpl. rewrite Hcur. rewrite !bool_decide_true by done.
  eapply (inv_step s _ pl _ t); on_thread Hth; try done.
  - apply frame_intro; simpl; try done.
    + others.
    + intros c' u Hu Hx. assert (c' <> c) by (intros ->; destruct Hx as [|[|]]; congruence). by fn_cases.
    + intros w u Hu Hx Hn. by fn_cases.
  - apply (token_swap s _ pl _ t (Run c) (Fin c) (rest_toks r)); [exact (inv_tok _ _ _ _ H)|..]; tokens Hth. on_thread Hth. by destruct first.
  - split; [simpl; by destruct first; rewrite H2|]. split; simpl.
    + assert (He : ending (put_data c (with_pull Finished (with_post (Some ResultSetter) (with_value v (datas s c)))) s)
                     (<[Fin c:=OnThread t]> (<[Run c:=Nowhere]> pl)) c (Some ResultSetter)).
      { unfold ending. simpl. fn_cases. rewrite ?fn_lookup_insert. simpl. by split_and!. }
      destruct first; simpl; [|by split_and!].
      split_and!; try done. right. split_and!; auto.
    + apply (rest_ok_same s _ pl); [|done]. intros q Hq. apply Hne in Hq. simpl. split; by fn_cases.
  - intros f w. rewrite (inv_fut _ _ _ _ H). by fn_cases.
  - intros x w. rewrite (inv_res _ _ _ _ H). by fn_cases.
  - intros x w. rewrite (inv_cont _ _ _ _ H). fn_cases; first [done|split; congruence].
  - destruct (inv_queue _ _ _ _ H) as [Hq1 Hq2]. split; [done|]. intros w. rewrite Hq2. by fn_cases.
  - intros c'. destruct (decide (c' = c)) as [->|Hc'].
    + right. unfold RoutineInv.coro_ok, RoutineInv.ref_ok. fn_cases. simpl. rewrite ?fn_lookup_insert. simpl.
      by rewrite H4.
    + left. unfold untouched. simpl. fn_cases. by split_and!.
  - intros c'. destruct (decide (c' = c)) as [->|Hc'].
    + right. unfold fin_ok. simpl. fn_cases. rewrite ?fn_lookup_insert. done.
    + left. fn_cases. by split_and!.
  - intros c' Hb. destruct (inv_built _ _ _ _ H c' Hb) as [? ?].
    split; [|by fn_cases]. destruct (decide (c' = c)) as [->|Hc']; fn_cases; rewrite ?fn_lookup_insert; done.
  - intros f Hf. destruct (inv_claim _ _ _ _ H f Hf) as [? ?]. split; [done|]. by fn_cases.
Qed.

(** [LightFuture.suspend] on a word nobody has registered at. *)
Lemma suspend_empty {T} (c : nat) (x : LightFutureData nat T) :
  continuationPtr x = EmptyHandle -> LightFuture.suspend c x = (Ret true, LFD (TaskPtr c) (value x)).
Proof. intros H. rewrite suspend_branches, H. done. Qed.

Lemma fresh_future s pl c f :
  Inv s pl -> pl (Ref c) = Nowhere -> (forall w, has_task (futures s f) w -> w = c) ->
  continuationPtr (futures s f) = EmptyHandle \/ LightFuture.is_ready (futures s f) = true.
Proof.
  intros H Hc Hw. unfold LightFuture.is_ready. destruct (continuationPtr (futures s f)) as [| |w] eqn:E; [by left|by right|].
  assert (Hx : has_task (futures s f) w) by done. pose proof (Hw w Hx) as ->.
  apply (inv_fut _ _ _ _ H) in Hx. congruence.
Qed.

(** Only [reader f] is ever registered in the future [f]. *)
Lemma registered_reader s pl f w : Inv s pl -> has_task (futures s f) w -> reader f = w.
Proof.
  intros H Hx. pose proof Hx as Hp. apply (inv_fut _ _ _ _ H) in Hp.
  pose proof (inv_ref _ _ _ _ H w) as Hr. unfold RoutineInv.ref_ok in Hr. rewrite Hp in Hr.
  destruct Hr as (_ & _ & _ & _ & f' & k & _ & Hrd & Hor). rewrite Hp in Hor.
  destruct Hor as [[= ->]|[[?|[? ?]] _]]; done.
Qed.

Lemma registered_joiner s pl r w : Inv s pl -> has_task (results s r) w ->
  joiner r = w /\ joined joiner s pl w r.
Proof.
  intros H Hx. apply (inv_res _ _ _ _ H) in Hx.
  pose proof (inv_ref _ _ _ _ H w) as Hr. unfold RoutineInv.ref_ok in Hr. rewrite Hx in Hr.
  split; [|done]. apply Hr.
Qed.

(** Registering at a word that was empty, and taking out who is there. *)
Lemma register_iff {T} (at_word : nat -> place) (g : nat -> LightFutureData nat T) pl c f v :
  (forall x y, at_word x = at_word y -> x = y) ->
  (forall f' w, has_task (g f') w <-> pl (Ref w) = at_word f') ->
  continuationPtr (g f) = EmptyHandle -> pl (Ref c) = Nowhere -> (forall x, at_word x <> Nowhere) ->
  forall f' w, has_task ((<[f := LFD (TaskPtr c) v]> g) f') w <-> (<[Ref c := at_word f]> pl) (Ref w) = at_word f'.
Proof.
  intros Hinj Hg He Hc Hn f' w. unfold has_task in *.
  destruct (decide (w = c)) as [->|Hw].
  - rewrite fn_lookup_insert. destruct (decide (f = f')) as [<-|Hf].
    + by rewrite fn_lookup_insert.
    + rewrite fn_lookup_insert_ne by done. rewrite Hg, Hc. split; [by intros ?%eq_sym%Hn|].
      by intros ?%Hinj.
  - rewrite (fn_lookup_insert_ne pl) by congruence. rewrite <- Hg.
    destruct (decide (f = f')) as [<-|Hf]; [|by rewrite fn_lookup_insert_ne].
    rewrite fn_lookup_insert, He. simpl. split; [by intros [= ->]|done].
Qed.

Lemma take_iff {T} (at_word : nat -> place) (g : nat -> LightFutureData nat T) pl w0 f v q :
  (forall x y, at_word x = at_word y -> x = y) ->
  (forall f' w, has_task (g f') w <-> pl (Ref w) = at_word f') -> has_task (g f) w0 ->
  (forall x, at_word x <> q) ->
  forall f' w, has_task ((<[f := LFD InvalidHandle v]> g) f') w <-> (<[Ref w0 := q]> pl) (Ref w) = at_word f'.
Proof.
  intros Hinj Hg He Hq f' w. unfold has_task in *.
  destruct (decide (w = w0)) as [->|Hw].
  - rewrite fn_lookup_insert. split; [|by intros ?%eq_sym%Hq].
    destruct (decide (f = f')) as [<-|Hf]; [by rewrite fn_lookup_insert|].
    rewrite fn_lookup_insert_ne by done. rewrite Hg. apply Hg in He. rewrite He. by intros ?%Hinj.
  - rewrite (fn_lookup_insert_ne pl) by congruence. rewrite <- Hg.
    destruct (decide (f = f')) as [<-|Hf]; [|by rewrite fn_lookup_insert_ne].
    rewrite fn_lookup_insert, He. simpl. split; [done|congruence].
Qed.

Lemma take_none_iff {T} (at_word : nat -> place) (g : nat -> LightFutureData nat T) pl f v :
  (forall f' w, has_task (g f') w <-> pl (Ref w) = at_word f') -> continuationPtr (g f) = EmptyHandle ->
  forall f' w, has_task ((<[f := LFD InvalidHandle v]> g) f') w <-> pl (Ref w) = at_word f'.
Proof.
  intros Hg He f' w. rewrite <- Hg. unfold has_task.
  destruct (decide (f = f')) as [<-|Hf]; [|by rewrite fn_lookup_insert_ne].
  rewrite fn_lookup_insert, He. simpl. split; done.
Qed.

(** Storing a value registers and takes nobody. *)
Lemma assign_iff {T} (at_word : nat -> place) (g : nat -> LightFutureData nat T) pl f v :
  (forall f' w, has_task (g f') w <-> pl (Ref w) = at_word f') ->
  forall f' w, has_task ((<[f := LFD (continuationPtr (g f)) v]> g) f') w <-> pl (Ref w) = at_word f'.
Proof.
  intros Hg f' w. rewrite <- Hg. unfold has_task.
  destruct (decide (f = f')) as [<-|Hf]; [by rewrite fn_lookup_insert|by rewrite fn_lookup_insert_ne].
Qed.

(** ** [runPostLeave] and [await_suspend] *)

Lemma inv_post_ready s pl t c cur r f k x :
  Inv s pl -> threads s t = Thread (PPost c) cur r -> mCode (datas s c) = CAwait f k ->
  x = futures s f -> fready s f ->
  Inv (goto t (PResume c) (put_future f x (put_data c (with_post None (datas s c)) s))) pl.
Proof.
  intros H Hth Hk -> Hrd. destruct (run_on _ _ _ _ _ _ c H Hth eq_refl) as [Hc Hne].
  pose proof (inv_thread _ _ _ _ H t) as Hok. rewrite Hth in Hok.
  destruct Hok as (Hcur & (H1 & H2 & H3 & H4 & H5 & H6) & Hr). simpl in *.
  eapply (step_own s _ pl t c); on_thread Hth; try done.
  - others.
  - others.
  - right. auto.
  - intros f'. by fn_cases.
  - split; [done|]. split; simpl.
    + unfold waits_ready. simpl. rewrite fn_lookup_insert. simpl. rewrite Hk. split_and!; try done; [congruence|].
      unfold fready. simpl. by rewrite fn_lookup_insert.
    + eapply rest_other; [done| |done]. others.
Qed.

Lemma inv_post_join s pl t c cur r r' k :
  Inv s pl -> threads s t = Thread (PPost c) cur r -> mCode (datas s c) = CJoin r' k ->
  Inv (goto t (PJoin1 c r' (TaskPtr c))
        (put_data c (with_runner (Some EmptyHandle) (with_post None (datas s c)))
          (put_data c (with_post None (datas s c)) s))) pl.
Proof.
  intros H Hth Hk. destruct (run_on _ _ _ _ _ _ c H Hth eq_refl) as [Hc Hne].
  pose proof (inv_thread _ _ _ _ H t) as Hok. rewrite Hth in Hok.
  destruct Hok as (Hcur & (H1 & H2 & H3 & H4 & H5 & H6) & Hr). simpl in *.
  unfold waits_for in H5. rewrite Hk in H5. destruct H5 as [H5 H7].
  eapply (step_own s _ pl t c); on_thread Hth; try done.
  - others.
  - others.
  - right. auto.
  - split; [done|]. split; simpl.
    + unfold joins. simpl. rewrite !fn_lookup_insert. simpl. split_and!; try done. by exists k.
    + eapply rest_other; [done| |done]. others.
Qed.

Lemma inv_post_suspend s pl t c cur r f k v :
  Inv s pl -> threads s t = Thread (PPost c) cur r -> mCode (datas s c) = CAwait f k ->
  continuationPtr (futures s f) = EmptyHandle -> v = value (futures s f) ->
  Inv (goto t PRet (put_future f (LFD (TaskPtr c) v) (put_data c (with_post None (datas s c)) s)))
      (<[Ref c := InFuture f]> (<[Run c := Nowhere]> pl)).
Proof.
  intros H Hth Hk He ->. destruct (run_on _ _ _ _ _ _ c H Hth eq_refl) as [Hc Hne].
  pose proof (inv_thread _ _ _ _ H t) as Hok. rewrite Hth in Hok.
  destruct Hok as (Hcur & (H1 & H2 & H3 & H4 & H5 & H6) & Hr). simpl in *.
  unfold waits_for in H5. rewrite Hk in H5.
  set (s' := goto _ _ _). set (pl' := <[Ref c := _]> _).
  assert (Hnr : ~ fready s f) by (unfold fready, LightFuture.is_ready; by rewrite He).
  assert (Hsus : suspended reader s' pl' c).
  { unfold suspended, s', pl'. simpl. rewrite !fn_lookup_insert. simpl. split_and!; try done.
    - by fn_cases.
    - exists f, k. split_and!; try done. by left. }
  assert (Hfr : forall f', fready s' f' <-> fready s f').
  { intros f'. unfold fready, s'. simpl. fn_cases; [|done]. unfold LightFuture.is_ready. by rewrite He. }
  apply (inv_step s s' pl pl' t H).
  - apply frame_intro; try done; unfold s', pl'; simpl.
    + others.
    + intros c' u Hu Hx. assert (c' <> c) by (eapply (elsewhere s pl c u); [done|congruence..|done]). by fn_cases.
    + intros w u Hu Hx Hn. by fn_cases.
    + intros f' u Hu Hx. split; [by fn_cases|]. apply Hfr.
    + intros f'. apply Hfr.
  - apply (token_drop' s _ pl _ t (Run c) (Ref c) (rest_toks r)); [exact (inv_tok _ _ _ _ H)|..]; unfold s', pl'; tokens Hth.
  - unfold s'. on_thread Hth. split; [done|]. split; simpl.
    + destruct r as [|[p b|y|h] r]; simpl in *; try done. apply H6.
    + apply (rest_ok_same s _ pl); [|done]. intros q Hq. apply Hne in Hq. unfold pl'. simpl. split; by fn_cases.
  - apply (register_iff InFuture); [by intros ? ? [= ->]| |done|by fn_cases|done].
    intros f' w. simpl. rewrite (inv_fut _ _ _ _ H). by fn_cases.
  - unfold s', pl'. simpl. words H.
  - unfold s', pl'. simpl. words H.
  - unfold s', pl'. simpl. queue H.
  - intros c'. destruct (decide (c' = c)) as [->|Hc'].
    + right. unfold RoutineInv.coro_ok, RoutineInv.ref_ok.
      replace (pl' (Run c)) with Nowhere by (unfold pl'; by fn_cases).
      replace (pl' (Ref c)) with (InFuture f) by (unfold pl'; by fn_cases).
      split; [|done]. unfold s' at 1. simpl. rewrite fn_lookup_insert. simpl. by rewrite H1.
    + left. unfold untouched, s', pl'. simpl. fn_cases. by split_and!.
  - intros c'. left. unfold s', pl'. simpl. split_and!; try done; fn_cases; done.
  - unfold s', pl'. simpl. built_same H.
  - intros f' Hf. destruct (inv_claim _ _ _ _ H f' Hf) as [? ?]. split; [by rewrite Hfr|].
    unfold pl'. by fn_cases.
Qed.

Lemma fresh_result s pl c r :
  Inv s pl -> joins joiner s c r -> pl (Ref c) = Nowhere ->
  continuationPtr (results s r) = EmptyHandle \/ continuationPtr (results s r) = InvalidHandle.
Proof.
  intros H (_ & Hj & _) Hc. destruct (continuationPtr (results s r)) as [| |w] eqn:E; [by left|by right|].
  assert (Hx : has_task (results s r) w) by done.
  destruct (registered_joiner _ _ _ _ H Hx) as [Hw _]. apply (inv_res _ _ _ _ H) in Hx. congruence.
Qed.

Lemma rready_tag s r : rready s r <-> continuationPtr (results s r) = InvalidHandle.
Proof. unfold rready, LightFuture.is_ready. apply bool_decide_eq_true. Qed.

Lemma fready_tag s f : fready s f <-> continuationPtr (futures s f) = InvalidHandle.
Proof. unfold fready, LightFuture.is_ready. apply bool_decide_eq_true. Qed.

Lemma inv_join1_ready s pl t c r' cont cur r x :
  Inv s pl -> threads s t = Thread (PJoin1 c r' cont) cur r -> x = results s r' -> rready s r' ->
  Inv (goto t (PResume c) (put_result r' x s)) pl.
Proof.
  intros H Hth -> Hrd. destruct (run_on _ _ _ _ _ _ c H Hth eq_refl) as [Hc Hne].
  pose proof (inv_thread _ _ _ _ H t) as Hok. rewrite Hth in Hok.
  destruct Hok as (Hcur & (((k & Hk) & H1 & H2 & H3 & H4) & -> & H5 & H6 & H7) & Hr). simpl in *.
  eapply (step_own s _ pl t c); on_thread Hth; try done.
  - others.
  - by left.
  - intros x. by fn_cases.
  - split; [done|]. split; simpl.
    + unfold waits_ready. simpl. rewrite Hk. split_and!; try done; [congruence|].
      unfold rready. simpl. by rewrite fn_lookup_insert.
    + eapply rest_other; [done| |done]. others.
Qed.

Lemma inv_join1_register s pl t c r' cont cur r v :
  Inv s pl -> threads s t = Thread (PJoin1 c r' cont) cur r ->
  continuationPtr (results s r') = EmptyHandle -> v = value (results s r') ->
  Inv (goto t (PJoin2 c r' cont) (put_result r' (LFD (TaskPtr c) v) s)) (<[Ref c := InResult r']> pl).
Proof.
  intros H Hth He ->. destruct (run_on _ _ _ _ _ _ c H Hth eq_refl) as [Hc Hne].
  pose proof (inv_thread _ _ _ _ H t) as Hok. rewrite Hth in Hok.
  destruct Hok as (Hcur & (Hj & -> & H5 & H6 & H7) & Hr). simpl in *.
  set (s' := goto _ _ _). set (pl' := <[Ref c := _]> _).
  assert (Hfr : forall x, rready s' x <-> rready s x).
  { intros x. rewrite !rready_tag. unfold s'. simpl. fn_cases; [|done]. simpl. by rewrite He. }
  assert (Hjd : joined joiner s' pl' c r').
  { split; [done|]. left. split; [done|]. left. unfold pl'. by fn_cases. }
  assert (Hfin : pl (Fin c) = Nowhere) by (apply (fin_off s); [done|]; destruct Hj as (_ & _ & _ & -> & _); done).
  apply (inv_step s s' pl pl' t H).
  - apply frame_intro; try done; unfold s', pl'; simpl.
    + others.
    + intros c' u Hu Hx. assert (c' <> c) by (intros ->; destruct Hx as [|[|]]; congruence). by fn_cases.
    + intros c' u Hu Hx. split; [by fn_cases|]. split; [apply Hfr|done].
    + intros x. apply Hfr.
  - apply (token_move_off s _ pl _ t (Ref c)); [exact (inv_tok _ _ _ _ H)|..]; unfold s', pl'; tokens Hth.
  - unfold s'. on_thread Hth. split; [done|]. split; simpl; [done|].
    apply (rest_ok_same s _ pl); [|done]. intros q Hq. apply Hne in Hq. unfold pl'. simpl. split; by fn_cases.
  - unfold s', pl'. simpl. words H.
  - apply (register_iff InResult); [by intros ? ? [= ->]|apply H|done|done|done].
  - unfold s', pl'. simpl. words H.
  - unfold s', pl'. simpl. queue H.
  - intros c'. destruct (decide (c' = c)) as [->|Hc'].
    + right. unfold RoutineInv.coro_ok, RoutineInv.ref_ok.
      replace (pl' (Run c)) with (OnThread t) by (unfold pl'; by fn_cases).
      replace (pl' (Ref c)) with (InResult r') by (unfold pl'; by fn_cases).
      split; [|done]. right. apply Hj.
    + left. unfold untouched, s', pl'. simpl. fn_cases. by split_and!.
  - intros c'. left. split_and!; try done; first [apply Hfr|unfold pl'; by fn_cases].
  - unfold s', pl'. simpl. built_same H.
  - unfold s', pl'. simpl. claim_same H.
Qed.

(** Whoever runs the end of [c] is at one of its steps, and [c]'s result is
    not ready yet. *)
Lemma fin_ending s pl c t : Inv s pl -> pl (Fin c) = OnThread t -> exists post, ending s pl c post.
Proof.
  intros H E. apply (inv_tok _ _ _ _ H t) in E. pose proof (inv_thread _ _ _ _ H t) as (_ & Hpc & _).
  unfold toks in E. destruct (threads s t) as [p cur k]. simpl in *.
  apply elem_of_app in E as [E|E]; [|by apply fin_in_rest in E]. apply fin_in_pc in E.
  destruct p; try done; subst; simpl in Hpc; destruct Hpc as [He _]; eauto.
Qed.

Lemma ready_continuation s pl (r : nat) : Inv s pl -> rready s r -> continuations s r = InvalidHandle.
Proof.
  intros H Hr. pose proof (inv_fin _ _ _ _ H r) as Hfi. unfold fin_ok in Hfi.
  destruct (mPull (datas s r)); try by destruct Hfi as (_ & ? & _).
  destruct (pl (Fin r)) as [|t| | | |] eqn:E; try done; [apply Hfi|].
  destruct (fin_ending _ _ _ _ H E) as (post & _ & _ & _ & _ & _ & ?). done.
Qed.

Lemma inv_join2_wait s pl t c r' cont cur r :
  Inv s pl -> threads s t = Thread (PJoin2 c r' cont) cur r -> continuations s r' = EmptyHandle ->
  Inv (goto t PRet (put_continuation r' cont s)) (<[Run c := InCont r']> pl).
Proof.
  intros H Hth He. destruct (run_on _ _ _ _ _ _ c H Hth eq_refl) as [Hc Hne].
  pose proof (inv_thread _ _ _ _ H t) as Hok. rewrite Hth in Hok.
  destruct Hok as (Hcur & (Hj & -> & H7) & Hr). simpl in *.
  assert (Hnr : ~ rready s r') by (intros Hx; apply (ready_continuation _ _ _ H) in Hx; congruence).
  assert (Href : pl (Ref c) = InResult r') by (destruct Hj as [_ [[_ [?|[_ ?]]]|(_ & _ & ?)]]; done).
  set (s' := goto _ _ _). set (pl' := <[Run c := _]> _).
  assert (Hjd : joined joiner s' pl' c r').
  { destruct Hj as [? [[? _]|(_ & _ & ?)]]; [|done]. split; [done|]. left. split; [done|]. left.
    unfold pl'. by fn_cases. }
  assert (Hfin : pl (Fin c) = Nowhere).
  { pose proof (inv_fin _ _ _ _ H c) as Hfi. unfold fin_ok in Hfi.
    destruct Hj as ((_ & _ & _ & Hp & _) & _). rewrite Hp in Hfi. apply Hfi. }
  apply (inv_step s s' pl pl' t H).
  - apply frame_intro; try done; unfold s', pl'; simpl.
    + others.
    + intros w u Hu Hx Hn. fn_cases; congruence.
    + intros c' u Hu Hx. split_and!; [done|done|]. fn_cases; [|done]. rewrite He. split; done.
    + intros x. fn_cases; congruence.
  - apply (token_drop s _ pl _ t (Run c) (rest_toks r)); [exact (inv_tok _ _ _ _ H)|..]; unfold s', pl'; tokens Hth.
  - unfold s'. on_thread Hth. split; [done|]. split; simpl.
    + destruct r as [|[p b|y|h] r]; simpl in *; try done. apply H7.
    + apply (rest_ok_same s _ pl); [|done]. intros q Hq. unfold pl'. simpl. split; by fn_cases.
  - unfold s', pl'. simpl. words H.
  - unfold s', pl'. simpl. words H.
  - unfold s', pl'. simpl. intros x w. destruct (decide (w = c)) as [->|Hw].
    + rewrite fn_lookup_insert. destruct (decide (r' = x)) as [<-|]; [by rewrite fn_lookup_insert|].
      rewrite fn_lookup_insert_ne by done. rewrite (inv_cont _ _ _ _ H). split; congruence.
    + rewrite (fn_lookup_insert_ne pl) by congruence. rewrite <- (inv_cont _ _ _ _ H).
      destruct (decide (r' = x)) as [<-|]; [|by rewrite fn_lookup_insert_ne].
      rewrite fn_lookup_insert. split; congruence.
  - unfold s', pl'. simpl. queue H.
  - intros c'. destruct (decide (c' = c)) as [->|Hc'].
    + right. unfold RoutineInv.coro_ok, RoutineInv.ref_ok.
      replace (pl' (Run c)) with (InCont r') by (unfold pl'; by fn_cases).
      replace (pl' (Ref c)) with (InResult r') by (unfold pl'; by fn_cases). done.
    + left. unfold untouched, s', pl'. simpl. fn_cases. by split_and!.
  - intros c'. left. unfold s', pl'. simpl. split_and!; try done; fn_cases; done.
  - unfold s', pl'. simpl. built_same H.
  - unfold s', pl'. simpl. claim_same H.
Qed.

Lemma inv_join2_late s pl t c r' cont cur r :
  Inv s pl -> threads s t = Thread (PJoin2 c r' cont) cur r -> continuations s r' = InvalidHandle ->
  Inv (goto t (PJoin3 c) s) pl.
Proof.
  intros H Hth He. destruct (run_on _ _ _ _ _ _ c H Hth eq_refl) as [Hc Hne].
  pose proof (inv_thread _ _ _ _ H t) as Hok. rewrite Hth in Hok.
  destruct Hok as (Hcur & (Hj & -> & H7) & Hr). simpl in *.
  eapply (step_own s _ pl t c); on_thread Hth; try done; try others; try (by left).
  split; [done|]. split; simpl; [|by apply (rest_ok_same s _ pl)]. split; [|done]. by exists r'.
Qed.

Lemma inv_join3 s pl t c cur r :
  Inv s pl -> threads s t = Thread (PJoin3 c) cur r -> Inv (join3_step t c s) pl.
Proof.
  intros H Hth. destruct (run_on _ _ _ _ _ _ c H Hth eq_refl) as [Hc Hne].
  pose proof (inv_thread _ _ _ _ H t) as Hok. rewrite Hth in Hok.
  destruct Hok as (Hcur & ((r' & Hj & He) & H7) & Hr). simpl in *. unfold join3_step.
  destruct Hj as [((k & Hk) & H1 & H2 & H3 & H4) [[Hm _]|(Hm & Href & Hrd)]]; rewrite Hm; [done|].
  eapply (step_own s _ pl t c); on_thread Hth; try done; try others; try (by left).
  split; [done|]. split; simpl; [|by apply (rest_ok_same s _ pl)]. split_and!; try done; [congruence|].
  unfold waits_ready. simpl. by rewrite Hk.
Qed.

(** ** [resume] *)

Lemma cur_of_run r p : cur_of r = Some p -> Run p ∈ rest_toks r.
Proof.
  induction r as [|[q b|q|h] r IH]; simpl; [done|..].
  - intros [= ->]. by left.
  - intros H. right. auto.
  - intros H. apply elem_of_app. auto.
Qed.

Lemma inv_resume_step s pl t c cur r :
  Inv s pl -> threads s t = Thread (PResume c) cur r -> Inv (resume_step t c s) pl.
Proof.
  intros H Hth. destruct (run_on _ _ _ _ _ _ c H Hth eq_refl) as [Hc Hne].
  pose proof (inv_thread _ _ _ _ H t) as Hok. rewrite Hth in Hok.
  destruct Hok as (Hcur & (H1 & H2 & H3 & H4 & H5 & H6) & Hr). simpl in *. subst cur.
  unfold resume_step. rewrite Hth. simpl. rewrite H1. rewrite bool_decide_false, bool_decide_true; [|done|].
  2: { intros Hx. apply cur_of_run, Hne in Hx. done. }
  eapply (step_own s _ pl t c); on_thread Hth; try done.
  - others.
  - others.
  - right. auto.
  - split; [done|]. split; simpl.
    + unfold inside, waits_ready in *. simpl. rewrite !fn_lookup_insert. simpl. split_and!; try done. by right.
    + eapply rest_other; [done| |done]. others.
Qed.

End steps.
Arguments inv_step {reader joiner}.
Arguments frame_intro {reader joiner}.
Arguments run_on {reader joiner}.
Arguments registered_joiner {reader joiner}.
Arguments registered_reader {reader joiner}.
Arguments fresh_result {reader joiner}.
Arguments ready_continuation {reader joiner}.
Arguments fin_ending {reader joiner}.
Arguments tok_on {reader joiner}.
Arguments step_own {reader joiner}.
