(* ===== verification/RoutineEnd.v ===== *)
(** * [Routine]: the end of a coroutine, runners, futures and returning *)

From S2P Require Import Prelude Future Routine RoutineInv RoutineSteps.

Section steps_end.
Context (reader joiner : nat -> nat).
Implicit Types (s : state) (pl : tok -> place) (c w f t u : nat).

Abbreviation Inv := (Inv reader joiner).
Abbreviation thread_ok := (thread_ok reader joiner).
Abbreviation pc_ok := (pc_ok reader joiner).
Abbreviation coro_ok := (coro_ok reader joiner).
Abbreviation ref_ok := (ref_ok reader joiner).
Abbreviation frame := (frame reader joiner).

(** ** The end *)

Lemma ending_off s pl c post : Inv s pl -> ending s pl c post -> pl (Run c) = Nowhere.
Proof.
  intros H (He & _). pose proof (inv_coro _ _ _ _ H c) as Hc. unfold RoutineInv.coro_ok in Hc.
  destruct (pl (Run c)); try done; [destruct Hc; congruence|].
  destruct Hc as [((_ & _ & _ & Hp & _) & _) _]. congruence.
Qed.

(** A step of the end of [c] that moves no token. *)
Lemma step_fin s s' pl t c post :
  Inv s pl -> pl (Fin c) = OnThread t -> ending s pl c post ->
  (forall u, u <> t -> threads s' u = threads s u) ->
  toks (threads s' t) = toks (threads s t) ->
  (forall c', c' <> c -> datas s' c' = datas s c') -> mPull (datas s' c) = Finished ->
  mRunner (datas s' c) = None ->
  futures s' = futures s -> (forall x, x <> c -> results s' x = results s x) ->
  continuationPtr (results s' c) = continuationPtr (results s c) ->
  (forall x, x <> c -> continuations s' x = continuations s x) ->
  (continuations s' c = continuations s c \/
   continuations s c = EmptyHandle /\ continuations s' c = InvalidHandle) ->
  posted s' = posted s -> claimed s' = claimed s -> built s' = built s ->
  thread_ok s' pl (threads s' t) -> Inv s' pl.
Proof.
  intros H Hc He Hth Htk Hd Hp Hm Hf Hr Hrc Hk Hkc Hq Hcl Hb Hok.
  pose proof (ending_off _ _ _ _ H He) as Hrun. destruct He as (E1 & E2 & E3 & E4 & E5 & E6).
  assert (Hfr : forall x, rready s' x <-> rready s x).
  { intros x. rewrite !rready_tag. destruct (decide (x = c)) as [->|]; [by rewrite Hrc|by rewrite Hr]. }
  apply (inv_step s s' pl pl t H); try done.
  - apply frame_intro; try done.
    + intros c' u Hu Hx. assert (c' <> c) by (intros ->; destruct Hx as [|[|]]; congruence). by rewrite Hd.
    + intros c' u Hu Hx. assert (c' <> c) by (intros ->; congruence). rewrite Hr, Hk by done. split; [done|].
      split; [apply Hfr|done].
    + intros f u _ _. unfold fready. by rewrite Hf.
    + intros f. unfold fready. by rewrite Hf.
    + intros x. apply Hfr.
    + intros x. by rewrite Hb.
    + intros x. destruct (decide (x = c)) as [->|]; [|by rewrite Hk]. destruct Hkc as [->|[-> ->]]; done.
  - apply (token_keep s s' pl t); [exact (inv_tok _ _ _ _ H)|done|done].
  - rewrite Hf. apply H.
  - intros x w. rewrite <- (inv_res _ _ _ _ H). unfold has_task.
    destruct (decide (x = c)) as [->|]; [by rewrite Hrc|by rewrite Hr].
  - intros x w. rewrite <- (inv_cont _ _ _ _ H). destruct (decide (x = c)) as [->|]; [|by rewrite Hk].
    destruct Hkc as [->|[-> ->]]; split; congruence.
  - rewrite Hq. apply H.
  - intros c'. destruct (decide (c' = c)) as [->|Hc']; [right|left; split_and!; auto].
    unfold RoutineInv.coro_ok, RoutineInv.ref_ok. by rewrite Hrun, E4, Hp.
  - intros c'. destruct (decide (c' = c)) as [->|Hc']; [right|left; rewrite Hd, Hk by done; split_and!; auto; apply Hfr].
    unfold fin_ok. by rewrite Hp, Hc.
  - intros c'. rewrite Hb. intros Hx. destruct (inv_built _ _ _ _ H c' Hx). split; [|done].
    destruct (decide (c' = c)) as [->|]; [by rewrite Hp|by rewrite Hd].
  - intros f. rewrite Hcl. unfold fready. rewrite Hf. apply H.
Qed.

Lemma fin_on s pl t p cur r c l :
  Inv s pl -> threads s t = Thread p cur r -> pc_toks p = Fin c :: l -> pl (Fin c) = OnThread t.
Proof.
  intros H Hth Hp. apply (inv_tok _ _ _ _ H). rewrite Hth. unfold toks. simpl. rewrite Hp. by left.
Qed.

Lemma rest_ended s s' pl t p cur r c post :
  Inv s pl -> threads s t = Thread p cur r -> ending s pl c post ->
  (forall c', c' <> c -> datas s' c' = datas s c') -> rest_ok s pl r -> rest_ok s' pl r.
Proof.
  intros H Hth He Hd. apply rest_ok_same. intros q Hq. split; [|done]. apply Hd.
  apply (off_rest reader joiner s pl t p cur r); [done..| |done]. by rewrite (ending_off _ _ _ _ H He).
Qed.

Lemma res_other s s' pl c res :
  (forall c', mPull (datas s c') <> Finished -> datas s' c' = datas s c') ->
  (forall c', built s c' = true -> built s' c' = true) ->
  res_ok joiner s pl c res -> res_ok joiner s' pl c res.
Proof.
  intros Hd Hb. destruct res; try done. simpl. intros ((Hk & Hj & Hbu & Hp & Hpo) & Hm & Hr).
  unfold joins. rewrite Hd by congruence. split_and!; try done. by apply Hb.
Qed.

Lemma inv_fin_post s pl t c res cur r :
  Inv s pl -> threads s t = Thread (PFinPost c res) cur r -> Inv (fin_post_step t c res s) pl.
Proof.
  intros H Hth. pose proof (fin_on _ _ _ _ _ _ c _ H Hth eq_refl) as Hc.
  pose proof (inv_thread _ _ _ _ H t) as Hok. rewrite Hth in Hok.
  destruct Hok as (Hcur & (He & Hres & Hk & Hun) & Hr). simpl in *.
  pose proof He as (E1 & E2 & E3 & E4 & E5 & E6). unfold fin_post_step. rewrite E2.
  assert (Hd : forall c', c' <> c -> datas (goto t (PFin1 c res) (put_data c (with_post None (datas s c)) s)) c' = datas s c')
    by others.
  eapply (step_fin s _ pl t c); on_thread Hth; try done; try others.
  - by left.
  - split; [done|]. split; simpl.
    + unfold ending. simpl. rewrite !fn_lookup_insert. simpl. split_and!; try done.
      apply (res_other s); [|done|done]. intros c' Hp. apply Hd. congruence.
    + by eapply rest_ended.
Qed.

(** Nobody waits for a routine whose constructor is at work. *)
Lemma under_construction s pl t p cur c r' :
  Inv s pl -> threads s t = Thread p cur (KCtor c :: r') -> built s c = false.
Proof.
  intros H Hth. destruct (built s c) eqn:Eb; [|done].
  destruct (inv_built _ _ _ _ H c Eb) as [_ Hc].
  assert (Hx : pl (Ctor c) = OnThread t).
  { apply (inv_tok _ _ _ _ H). rewrite Hth. unfold toks. apply elem_of_app. right. simpl. by left. }
  congruence.
Qed.

Lemma continuation_joined s pl (r : nat) x : Inv s pl -> continuations s r = TaskPtr x ->
  pl (Run x) = InCont r /\ joined joiner s pl x r /\ pl (Ref x) = InResult r.
Proof.
  intros H Hx. apply (inv_cont _ _ _ _ H) in Hx. split; [done|].
  pose proof (inv_coro _ _ _ _ H x) as Hc. unfold RoutineInv.coro_ok in Hc. by rewrite Hx in Hc.
Qed.

Lemma inv_fin1 s pl t c res cur r :
  Inv s pl -> threads s t = Thread (PFin1 c res) cur r -> Inv (fin1_step t c res s) pl.
Proof.
  intros H Hth. pose proof (fin_on _ _ _ _ _ _ c _ H Hth eq_refl) as Hc.
  pose proof (inv_thread _ _ _ _ H t) as Hok. rewrite Hth in Hok.
  destruct Hok as (Hcur & (He & Hres & Hk & Hun) & Hr). simpl in *. unfold fin1_step.
  assert (Hki : continuations s c = InvalidHandle \/ continuations s c = EmptyHandle).
  { destruct Hk as [|(Hni & -> & r' & ->)]; [by left|].
    destruct (continuations s c) as [| |x] eqn:Ex; [by right|done|].
    destruct (continuation_joined _ _ _ _ H Ex) as (_ & ((_ & _ & Hb & _) & _) & _).
    by rewrite (under_construction _ _ _ _ _ _ _ H Hth) in Hb. }
  assert (Hdone : forall s', threads s' = threads s -> datas s' = datas s -> futures s' = futures s ->
            results s' = results s -> posted s' = posted s -> claimed s' = claimed s -> built s' = built s ->
            (forall x, x <> c -> continuations s' x = continuations s x) -> continuations s' c = InvalidHandle ->
            Inv (goto t (PFin2 c res) s') pl).
  { intros s' Et Ed Ef Er Eq Ecl Eb Ek Ekc. unfold goto. rewrite Et, Hth. simpl.
    eapply (step_fin s _ pl t c None); try done; simpl; rewrite ?Et, ?Ed, ?Er, ?fn_lookup_insert; try done.
    - others.
    - by rewrite Hth.
    - apply He.
    - apply He.
    - rewrite Ekc. destruct Hki as [->|]; auto.
    - split; [done|]. split; simpl.
      + split_and!; try done.
        * destruct He as (? & ? & ? & ? & ? & ?). unfold ending, rready. simpl. rewrite Ed, Er. by split_and!.
        * apply (res_other s); simpl; [by rewrite Ed|by rewrite Eb|done].
      + apply (rest_ok_same s _ pl); [|done]. intros q Hq. simpl. by rewrite Ed. }
  destruct (decide (continuations s c = EmptyHandle)) as [E|E].
  - rewrite bool_decide_true by done. apply Hdone; simpl; try done; [others|by rewrite fn_lookup_insert].
  - rewrite bool_decide_false by done. destruct Hki; [by apply Hdone|done].
Qed.

Lemma inv_fin2 s pl t c res cur r :
  Inv s pl -> threads s t = Thread (PFin2 c res) cur r -> Inv (fin2_step t c res s) pl.
Proof.
  intros H Hth. pose proof (fin_on _ _ _ _ _ _ c _ H Hth eq_refl) as Hc.
  pose proof (inv_thread _ _ _ _ H t) as Hok. rewrite Hth in Hok.
  destruct Hok as (Hcur & (He & Hres & Hk & Hun) & Hr). simpl in *. unfold fin2_step.
  assert (Hv : ValueHandling.isSet (mValue (datas s c)) = true) by apply He.
  assert (Hdone : forall v, ValueHandling.isSet v = true ->
    Inv (goto t (PFin3 c res) (put_result c (snd (LightFuture.assign_value v (results s c))) s)) pl).
  { intros v Hset. eapply (step_fin s _ pl t c None); on_thread Hth; try done; try others; try apply He; try (by left).
    split; [done|]. split; simpl; [|by apply (rest_ok_same s _ pl)].
    rewrite fn_lookup_insert. split_and!; try done; try (by apply (res_other s)).
    destruct He as (? & ? & ? & ? & ? & Hnr). unfold ending. simpl. split_and!; try done.
    intros Hx. apply Hnr. unfold rready in *. simpl in *. by rewrite fn_lookup_insert in Hx. }
  destruct (mValue (datas s c)) as [|v|e] eqn:Ev; [done|by apply Hdone..].
Qed.

(** [mContinuation] gives up the coroutine it holds. *)
Lemma cont_taken s pl (c : nat) x p :
  Inv s pl -> continuations s c = TaskPtr x -> (forall r, p <> InCont r) ->
  forall y w, <[c := InvalidHandle]> (continuations s) y = TaskPtr w <-> <[Run x := p]> pl (Run w) = InCont y.
Proof.
  intros H Ek Hp y w. destruct (decide (w = x)) as [->|Hw].
  - rewrite fn_lookup_insert. destruct (decide (c = y)) as [<-|]; [rewrite fn_lookup_insert; split; [done|by intros ?%Hp]|].
    rewrite fn_lookup_insert_ne by done. rewrite (inv_cont _ _ _ _ H). apply (inv_cont _ _ _ _ H) in Ek.
    split; [congruence|by intros ?%Hp].
  - rewrite (fn_lookup_insert_ne pl) by congruence. rewrite <- (inv_cont _ _ _ _ H).
    destruct (decide (c = y)) as [<-|]; [|by rewrite fn_lookup_insert_ne].
    rewrite fn_lookup_insert. split; congruence.
Qed.

(** The end of [c] resumes the coroutine that joins it. *)
Lemma inv_fin0_joined s pl t c x cur r :
  Inv s pl -> threads s t = Thread (PFin0 c) cur r -> continuations s c = TaskPtr x ->
  Inv (goto t (PFinPost c (TaskPtr x)) (put_continuation c InvalidHandle s)) (<[Run x := OnThread t]> pl).
Proof.
  intros H Hth Ek. pose proof (fin_on _ _ _ _ _ _ c _ H Hth eq_refl) as Hc.
  pose proof (inv_thread _ _ _ _ H t) as Hok. rewrite Hth in Hok.
  destruct Hok as (Hcur & (He & Hk & Hun) & Hr). simpl in *.
  destruct (continuation_joined _ _ _ _ H Ek) as (Hx & Hj & Href).
  set (s' := goto _ _ _). set (pl' := <[Run x := _]> _).
  assert (Hpull : mPull (datas s x) = Outside) by apply Hj.
  assert (Hxc : x <> c) by (intros ->; destruct He; congruence).
  pose proof (off_rest _ _ _ _ _ _ _ _ x H Hth ltac:(congruence)) as Hrest.
  apply (inv_step s s' pl pl' t H).
  - apply frame_intro; try done; unfold s', pl'; simpl.
    + others.
    + intros w u Hu Hw Hn. fn_cases; done.
    + intros c' u Hu Hc'. assert (c' <> c) by (intros ->; congruence). by fn_cases.
    + intros y. fn_cases; done.
  - apply (token_take1 s _ pl _ t (Run x) (Fin c :: rest_toks r)); [exact (inv_tok _ _ _ _ H)|..];
      unfold s', pl'; tokens Hth. on_thread Hth. apply Permutation_swap.
  - unfold s'. on_thread Hth. split; [done|]. split; simpl.
    + split; [done|]. split; [|split; [left; simpl; by rewrite fn_lookup_insert|done]].
      destruct Hj as [? [[? _]|(_ & ? & _)]]; [|congruence]. split; [done|]. split; [done|].
      unfold pl'. by fn_cases.
    + apply (rest_ok_same s _ pl); [|done]. intros q Hq. unfold pl'. simpl. split; by fn_cases.
  - unfold s', pl'. simpl. words H.
  - unfold s', pl'. simpl. words H.
  - by apply (cont_taken s pl).
  - unfold s', pl'. simpl. queue H.
  - intros c'. destruct (decide (c' = x)) as [->|Hc'].
    + right. unfold RoutineInv.coro_ok, RoutineInv.ref_ok.
      replace (pl' (Run x)) with (OnThread t) by (unfold pl'; by fn_cases).
      replace (pl' (Ref x)) with (InResult c) by (unfold pl'; by fn_cases).
      split; [by right|]. destruct Hj as [? [[? _]|(_ & ? & _)]]; [|congruence].
      split; [done|]. left. split; [done|]. left. unfold pl'. by fn_cases.
    + left. unfold untouched, s', pl'. simpl. fn_cases. by split_and!.
  - intros c'. destruct (decide (c' = c)) as [->|Hc'].
    + right. unfold fin_ok, s', pl'. simpl. destruct He as [-> _]. fn_cases. by rewrite Hc.
    + left. unfold s', pl'. simpl. split_and!; try done; by fn_cases.
  - unfold s', pl'. simpl. built_same H.
  - unfold s', pl'. simpl. claim_same H.
Qed.

Lemma inv_fin0 s pl t c cur r :
  Inv s pl -> threads s t = Thread (PFin0 c) cur r -> exists pl', Inv (fin0_step t c s) pl'.
Proof.
  intros H Hth. pose proof (fin_on _ _ _ _ _ _ c _ H Hth eq_refl) as Hc.
  pose proof (inv_thread _ _ _ _ H t) as Hok. rewrite Hth in Hok.
  destruct Hok as (Hcur & (He & Hk & Hun) & Hr). simpl in *. unfold fin0_step.
  destruct (continuations s c) as [| |x] eqn:Ek; [|done|].
  - exists pl. eapply (step_fin s _ pl t c); on_thread Hth; try done; try others.
    + apply He.
    + apply He.
    + right. by rewrite ?fn_lookup_insert.
    + split; [done|]. split; simpl; [|by apply (rest_ok_same s _ pl)].
      split_and!; try done. left. simpl. by rewrite ?fn_lookup_insert.
  - eexists. by eapply inv_fin0_joined.
Qed.

(** ** [on_ready] of a result *)

Lemma on_ready_branches {T} (x : LightFutureData nat T) :
  LightFuture.on_ready x =
  match continuationPtr x with
  | EmptyHandle => (Ret None, LFD InvalidHandle (value x))
  | InvalidHandle => (Crash AssertFailed, LFD InvalidHandle (value x))
  | TaskPtr w => (Ret (Some w), LFD InvalidHandle (value x))
  end.
Proof. by destruct x as [[| |w] v]. Qed.

Lemma inv_fin3_nobody s pl t c res cur r v :
  Inv s pl -> threads s t = Thread (PFin3 c res) cur r -> continuationPtr (results s c) = EmptyHandle ->
  Inv (goto t PRet (push t (KRes res) (put_result c (LFD InvalidHandle v) s))) (<[Fin c := Nowhere]> pl).
Proof.
  intros H Hth He. pose proof (fin_on _ _ _ _ _ _ c _ H Hth eq_refl) as Hc.
  pose proof (inv_thread _ _ _ _ H t) as Hok. rewrite Hth in Hok.
  destruct Hok as (Hcur & (Hend & Hres & Hk & Hv & Hun) & Hr). simpl in *.
  assert (Hrt : htoks res = []).
  { destruct res as [| |x]; try done. destruct Hres as (_ & _ & Hx). apply (inv_res _ _ _ _ H) in Hx.
    unfold has_task in Hx. congruence. }
  set (s' := goto _ _ _). set (pl' := <[Fin c := _]> _).
  assert (Hfr : forall x, x <> c -> rready s' x <-> rready s x).
  { intros x Hx. rewrite !rready_tag. unfold s'. simpl. by fn_cases. }
  assert (Hrc : rready s' c) by (rewrite rready_tag; unfold s'; simpl; by rewrite fn_lookup_insert).
  apply (inv_step s s' pl pl' t H).
  - apply frame_intro; try done; unfold s', pl'; simpl.
    + others.
    + intros c' u Hu Hx. assert (c' <> c) by (intros ->; congruence).
      split; [by fn_cases|]. split; [by apply Hfr|done].
    + intros x Hx. destruct (decide (x = c)) as [->|]; [done|by apply Hfr].
  - apply (token_drop s _ pl _ t (Fin c) (rest_toks r)); [exact (inv_tok _ _ _ _ H)|..]; unfold s', pl'; tokens Hth.
    + rewrite Hth. unfold toks. simpl. by rewrite Hrt.
    + on_thread Hth. unfold toks. simpl. by rewrite Hrt.
  - unfold s'. on_thread Hth. split; [done|]. split; simpl.
    + destruct res; [by exists c|by exists c|done].
    + by apply (rest_ok_same s _ pl).
  - unfold s', pl'. simpl. words H.
  - apply (take_none_iff InResult); [|done]. intros x w. rewrite (inv_res _ _ _ _ H). unfold pl'. by fn_cases.
  - unfold s', pl'. simpl. words H.
  - unfold s', pl'. simpl. queue H.
  - intros c'. left. unfold untouched, s', pl'. simpl. fn_cases. by split_and!.
  - intros c'. destruct (decide (c' = c)) as [->|Hc'].
    + right. unfold fin_ok. destruct Hend as [E _]. unfold s' at 1. simpl. rewrite E. unfold pl'. fn_cases. done.
    + left. split_and!; try done; [unfold pl'; by fn_cases|by apply Hfr].
  - unfold s', pl'. simpl. built_same H.
  - unfold s', pl'. simpl. claim_same H.
Qed.

Lemma joins_unique s w (r r' : nat) : joins joiner s w r -> joins joiner s w r' -> r = r'.
Proof. intros ((k & Hk) & _) ((k' & Hk') & _). congruence. Qed.

(** Control over a coroutine that joins, and whose join is not over, is on a
    thread or in [mContinuation]. *)
Lemma joining_place s pl w (r : nat) :
  Inv s pl -> joins joiner s w r -> mRunner (datas s w) = Some EmptyHandle ->
  continuations s r <> TaskPtr w -> exists u, pl (Run w) = OnThread u.
Proof.
  intros H Hj Hm Hk. pose proof (inv_coro _ _ _ _ H w) as Hw. unfold RoutineInv.coro_ok in Hw.
  destruct (pl (Run w)) as [|u| | |r'|] eqn:E; try done; [|by exists u|].
  - destruct Hj as (_ & _ & _ & Hp & _). rewrite Hp in Hw. destruct Hw as (_ & _ & Hx & _). congruence.
  - destruct Hw as [[Hj' _] _]. apply (joins_unique _ _ _ _ Hj) in Hj' as <-.
    by apply (inv_cont _ _ _ _ H) in E.
Qed.

(** The coroutine whose task is in the result that becomes ready. *)
Lemma fin3_waiter s pl t c res cur r w :
  Inv s pl -> threads s t = Thread (PFin3 c res) cur r -> continuationPtr (results s c) = TaskPtr w ->
  (r = [] /\ cur = None /\ ending s pl c None /\ continuations s c = InvalidHandle) /\ w <> c /\ (forall x, res = TaskPtr x -> x = w) /\
  pl (Ref w) = InResult c /\ joins joiner s w c /\ mRunner (datas s w) = Some EmptyHandle /\
  exists u, pl (Run w) = OnThread u.
Proof.
  intros H Hth He. pose proof (inv_thread _ _ _ _ H t) as Hok. rewrite Hth in Hok.
  destruct Hok as (Hcur & (Hend & Hres & Hk & Hv & Hun) & Hr). simpl in *.
  assert (Hreg : has_task (results s c) w) by done.
  destruct (registered_joiner _ _ _ _ H Hreg) as [Hjw Hj]. apply (inv_res _ _ _ _ H) in Hreg.
  destruct Hj as [Hj [[Hm _]|(_ & Hx & _)]]; [|congruence].
  assert (Hr0 : r = []).
  { destruct r as [|[?|y|?] r']; try done. destruct Hun as [-> _].
    pose proof (under_construction _ _ _ _ _ _ _ H Hth) as Hb. destruct Hj as (_ & _ & Hb' & _). congruence. }
  subst r. simpl in Hcur. split_and!; try done.
  - intros ->. destruct Hj as (_ & _ & _ & Hp & _). destruct Hend. congruence.
  - intros x ->. destruct Hres as (_ & _ & Hx). apply (inv_res _ _ _ _ H) in Hx. unfold has_task in Hx. congruence.
  - apply (joining_place _ _ _ _ H Hj Hm). congruence.
Qed.

Lemma inv_fin3_runner s pl t c res cur r v w :
  Inv s pl -> threads s t = Thread (PFin3 c res) cur r -> continuationPtr (results s c) = TaskPtr w ->
  Inv (goto t (PRunner w) (push t (KRes res) (put_result c (LFD InvalidHandle v) s)))
      (<[Fin c := Nowhere]> (<[Ref w := OnThread t]> pl)).
Proof.
  intros H Hth He. pose proof (fin_on _ _ _ _ _ _ c _ H Hth eq_refl) as Hc.
  destruct (fin3_waiter _ _ _ _ _ _ _ _ H Hth He)
    as ((-> & -> & Hend & Hk) & Hwc & Hxw & Hreg & Hj & Hm & u0 & Hu0).
  assert (Hpw : mPull (datas s w) = Outside) by apply Hj.
  set (s' := goto _ _ _). set (pl' := <[Fin c := _]> _).
  assert (Hfr : forall x, x <> c -> rready s' x <-> rready s x).
  { intros x Hx. rewrite !rready_tag. unfold s'. simpl. by fn_cases. }
  assert (Hrc : rready s' c) by (rewrite rready_tag; unfold s'; simpl; by rewrite fn_lookup_insert).
  assert (Href : pl' (Ref w) = OnThread t) by (unfold pl'; by fn_cases).
  apply (inv_step s s' pl pl' t H).
  - split; unfold s', pl'; simpl; try done.
    + others.
    + intros c' u Hu Hx. split; [done|]. destruct (decide (c' = w)) as [->|Hcw]; [right|left; split; [done|by fn_cases]].
      split_and!; [done|congruence| |].
      * intros r' [Hj' _]. split; [done|]. left. split; [done|]. right.
        split; [by exists t|]. by rewrite <- (joins_unique _ _ _ _ Hj Hj').
      * intros r' Hr'. congruence.
    + intros c' u Hu Hx. assert (c' <> c) by (intros ->; congruence). assert (c' <> w) by (intros ->; rewrite (fin_off reader joiner s pl w) in Hx by congruence; done).
      split_and!; try done; [by fn_cases|by fn_cases|by apply Hfr].
    + intros w' u Hu Hx. assert (w' <> w) by (intros ->; congruence). split_and!; try done; [by fn_cases|].
      intros Hs. fn_cases. apply Hs.
    + intros x Hx. destruct (decide (x = c)) as [->|]; [done|by apply Hfr].
  - apply (token_swap s _ pl _ t (Fin c) (Ref w) (htoks res)); [exact (inv_tok _ _ _ _ H)|..]; unfold s', pl'; tokens Hth.
  - unfold s'. on_thread Hth. split; [done|]. split; simpl; [|done].
    right. exists res, c. split_and!; try done.
  - unfold s', pl'. simpl. words H.
  - intros x y. transitivity ((<[Ref w := OnThread t]> pl) (Ref y) = InResult x); [|unfold pl'; by fn_cases].
    apply (take_iff InResult); try done; [by intros ? ? [= ->]|apply H].
  - unfold s', pl'. simpl. words H.
  - unfold s', pl'. simpl. queue H.
  - intros c'. destruct (decide (c' = w)) as [->|Hc'].
    + right. unfold RoutineInv.coro_ok, RoutineInv.ref_ok. rewrite Href.
      replace (pl' (Run w)) with (OnThread u0) by (unfold pl'; by fn_cases). split; [by right|done].
    + left. unfold untouched, s', pl'. simpl. fn_cases. by split_and!.
  - intros c'. destruct (decide (c' = c)) as [->|Hc'].
    + right. unfold fin_ok. destruct Hend as [E _]. unfold s' at 1. simpl. rewrite E. unfold pl'. fn_cases. done.
    + left. split_and!; try done; [unfold pl'; by fn_cases|by apply Hfr].
  - unfold s', pl'. simpl. built_same H.
  - unfold s', pl'. simpl. claim_same H.
Qed.

(** ** [Runner::operator()] *)

Lemma ref_on s pl t cur r w : Inv s pl -> threads s t = Thread (PRunner w) cur r -> pl (Ref w) = OnThread t.
Proof. intros H Hth. apply (inv_tok _ _ _ _ H). rewrite Hth. unfold toks. by left. Qed.

Lemma cur_of_bodies r : bodies r -> cur_of r = None -> r = [].
Proof. by destruct r as [|[p b|y|h] r]. Qed.

Lemma inv_runner_post s pl t cur r w p :
  Inv s pl -> threads s t = Thread (PRunner w) cur r -> cur = Some p ->
  Inv (goto t PRet (put_posted (posted s ++ [w]) s)) (<[Ref w := InQueue]> pl).
Proof.
  intros H Hth Hp. pose proof (ref_on _ _ _ _ _ _ H Hth) as Hw.
  pose proof (inv_thread _ _ _ _ H t) as Hok. rewrite Hth in Hok.
  destruct Hok as (Hcur & Hpc & Hr). simpl in *.
  destruct Hpc as [[Hs Hb]|(h & r' & -> & _)]; [|simpl in *; congruence].
  set (s' := goto _ _ _). set (pl' := <[Ref w := _]> _).
  assert (Hs' : suspended reader s' pl' w).
  { apply (suspended_moves reader s s' pl); [done|done|unfold pl'; by fn_cases|left; unfold pl'; by fn_cases|].
    intros f [?|?]; [congruence|done]. }
  assert (Hrun : pl (Run w) = Nowhere) by apply Hs. assert (Hpw : mPull (datas s w) = Outside) by apply Hs.
  apply (inv_step s s' pl pl' t H).
  - apply frame_intro; try done; unfold s', pl'; simpl.
    + others.
    + intros c' u Hu Hx. assert (c' <> w) by (eapply (elsewhere reader joiner s pl w u); [done|congruence..|done]). by fn_cases.
  - apply (token_drop s _ pl _ t (Ref w) (rest_toks r)); [exact (inv_tok _ _ _ _ H)|..]; unfold s', pl'; tokens Hth.
  - unfold s'. on_thread Hth. split; [done|]. split; simpl.
    + by destruct r as [|[]].
    + apply (rest_ok_same s _ pl); [|done]. intros q Hq. split; [done|].
      assert (q <> w) by (eapply off_rest; [done|done|congruence|done]). unfold pl'. by fn_cases.
  - unfold s', pl'. simpl. words H.
  - unfold s', pl'. simpl. words H.
  - unfold s', pl'. simpl. words H.
  - destruct (inv_queue _ _ _ _ H) as [Hq1 Hq2]. unfold s', pl'. simpl. split.
    + apply list.NoDup_app. split_and!; [done| |apply list.NoDup_singleton].
      intros x Hx ->%list_elem_of_singleton. apply Hq2 in Hx. congruence.
    + intros x. rewrite elem_of_app, list_elem_of_singleton, Hq2. fn_cases; [split; auto|].
      split; [|by left]. intros [?| ->]; done.
  - intros c'. destruct (decide (c' = w)) as [->|Hc'].
    + right. by apply suspended_coro.
    + left. unfold untouched, s', pl'. simpl. fn_cases. by split_and!.
  - intros c'. left. unfold s', pl'. simpl. split_and!; try done; fn_cases; done.
  - unfold s', pl'. simpl. built_same H.
  - unfold s', pl'. simpl. claim_same H.
Qed.

(** The runner of a suspended coroutine: it is resumed. *)
Lemma inv_runner_resume s pl t r w d :
  Inv s pl -> threads s t = Thread (PRunner w) None r -> suspended reader s pl w -> bodies r ->
  d = with_runner (Some InvalidHandle) (datas s w) ->
  Inv (goto t (PResume w) (put_data w d s)) (<[Ref w := Nowhere]> (<[Run w := OnThread t]> pl)).
Proof.
  intros H Hth Hs Hb ->. pose proof (ref_on _ _ _ _ _ _ H Hth) as Hw.
  pose proof (inv_thread _ _ _ _ H t) as Hok. rewrite Hth in Hok.
  destruct Hok as (Hcur & _ & Hr). simpl in *.
  assert (r = []) as -> by (by apply cur_of_bodies).
  destruct Hs as (H1 & H2 & H3 & H4 & f & k & H5 & H6 & H7).
  assert (Hrd : fready s f) by (destruct H7 as [?|[_ ?]]; [congruence|done]).
  set (s' := goto _ _ _). set (pl' := <[Ref w := _]> _).
  assert (Hfin : pl (Fin w) = Nowhere) by (apply (fin_off reader joiner s); congruence).
  apply (inv_step s s' pl pl' t H).
  - apply frame_intro; try done; unfold s', pl'; simpl.
    + others.
    + intros c' u Hu Hx. assert (c' <> w) by (intros ->; destruct Hx as [|[|]]; congruence). by fn_cases.
    + intros w' u Hu Hx Hn. assert (w' <> w) by congruence. by fn_cases.
  - apply (token_swap s _ pl _ t (Ref w) (Run w) []); [exact (inv_tok _ _ _ _ H)|..]; unfold s', pl'; tokens Hth.
  - unfold s'. on_thread Hth. split; [done|]. split; simpl; [|done].
    unfold waits_ready. simpl. rewrite fn_lookup_insert. simpl. rewrite H5.
    split_and!; try done. unfold pl'. by fn_cases.
  - unfold s', pl'. simpl. words H.
  - unfold s', pl'. simpl. words H.
  - unfold s', pl'. simpl. words H.
  - unfold s', pl'. simpl. queue H.
  - intros c'. destruct (decide (c' = w)) as [->|Hc'].
    + right. unfold RoutineInv.coro_ok, RoutineInv.ref_ok.
      replace (pl' (Run w)) with (OnThread t) by (unfold pl'; by fn_cases).
      replace (pl' (Ref w)) with Nowhere by (unfold pl'; by fn_cases).
      split; [|done]. right. unfold s'. simpl. by rewrite fn_lookup_insert.
    + left. unfold untouched, s', pl'. simpl. fn_cases. by split_and!.
  - intros c'. left. unfold s', pl'. simpl. split_and!; try done; fn_cases; done.
  - unfold s', pl'. simpl. built_same H.
  - unfold s', pl'. simpl. claim_same H.
Qed.

(** The runner of a coroutine that joins: it finds a null pointer. *)
Lemma inv_runner_join s pl t h w (r' : nat) d :
  Inv s pl -> threads s t = Thread (PRunner w) None [KRes h] -> joins joiner s w r' ->
  mRunner (datas s w) = Some EmptyHandle -> rready s r' -> (forall x, h = TaskPtr x -> x = w) ->
  d = with_runner (Some InvalidHandle) (datas s w) ->
  Inv (goto t PRet (put_data w d s)) (<[Ref w := Nowhere]> pl).
Proof.
  intros H Hth Hj Hm Hrd Hh ->. pose proof (ref_on _ _ _ _ _ _ H Hth) as Hw.
  pose proof (inv_thread _ _ _ _ H t) as Hok. rewrite Hth in Hok.
  destruct Hok as (Hcur & _ & _). simpl in *.
  destruct (joining_place _ _ _ _ H Hj Hm) as [u0 Hu0].
  { rewrite (ready_continuation _ _ _ H Hrd). done. }
  assert (Hpw : mPull (datas s w) = Outside) by apply Hj.
  set (s' := goto _ _ _). set (pl' := <[Ref w := _]> _).
  assert (Hfin : pl (Fin w) = Nowhere) by (apply (fin_off reader joiner s); congruence).
  assert (Hj' : forall x, joins joiner s w x -> joins joiner s' w x).
  { intros x. unfold joins, s'. simpl. rewrite fn_lookup_insert. done. }
  apply (inv_step s s' pl pl' t H).
  - split; unfold s', pl'; simpl; try done.
    + others.
    + intros c' u Hu Hx. destruct (decide (c' = w)) as [->|Hcw].
      * split; [unfold same_control; simpl; by rewrite fn_lookup_insert|right]. split_and!; [done|congruence| |congruence].
        intros x [Hx' _]. split; [by apply Hj'|]. right. simpl. rewrite !fn_lookup_insert. split_and!; try done.
        by rewrite <- (joins_unique _ _ _ _ Hj Hx').
      * split; [unfold same_control; simpl; by fn_cases|left; split; by fn_cases].
    + intros c' u Hu Hx. assert (c' <> w) by (intros ->; congruence). split_and!; try done; by fn_cases.
    + intros w' u Hu Hx. assert (w' <> w) by (intros ->; congruence). split_and!; try by fn_cases.
      intros Hs. fn_cases. apply Hs.
  - apply (token_drop s _ pl _ t (Ref w) (htoks h)); [exact (inv_tok _ _ _ _ H)|..]; unfold s', pl'; tokens Hth.
  - unfold s'. on_thread Hth. split; [done|]. split; simpl; [|done].
    destruct h as [| |x]; [by exists 0|by exists 0|]. rewrite (Hh x eq_refl).
    split; [done|]. rewrite fn_lookup_insert. split; [done|]. split; [unfold pl'; by fn_cases|].
    exists r'. split; [by apply Hj'|done].
  - unfold s', pl'. simpl. words H.
  - unfold s', pl'. simpl. words H.
  - unfold s', pl'. simpl. words H.
  - unfold s', pl'. simpl. queue H.
  - intros c'. destruct (decide (c' = w)) as [->|Hc'].
    + right. unfold RoutineInv.coro_ok, RoutineInv.ref_ok.
      replace (pl' (Run w)) with (OnThread u0) by (unfold pl'; by fn_cases).
      replace (pl' (Ref w)) with Nowhere by (unfold pl'; by fn_cases).
      split; [|done]. right. unfold s'. simpl. by rewrite fn_lookup_insert.
    + left. unfold untouched, s', pl'. simpl. fn_cases. by split_and!.
  - intros c'. left. unfold s', pl'. simpl. split_and!; try done; fn_cases; done.
  - unfold s', pl'. simpl. built_same H.
  - unfold s', pl'. simpl. claim_same H.
Qed.

Lemma inv_runner s pl t cur r w :
  Inv s pl -> threads s t = Thread (PRunner w) cur r -> exists pl', Inv (runner_step t w s) pl'.
Proof.
  intros H Hth. unfold runner_step. rewrite Hth. simpl. destruct cur as [p|].
  - eexists. by eapply inv_runner_post.
  - pose proof (inv_thread _ _ _ _ H t) as Hok. rewrite Hth in Hok.
    destruct Hok as (_ & Hpc & _). simpl in Hpc.
    destruct Hpc as [[Hs Hb]|(h & r' & -> & Hj & Hm & Hrd & Hh)].
    + pose proof Hs as (_ & _ & -> & _). eexists. by eapply inv_runner_resume.
    + rewrite Hm. eexists. by apply (inv_runner_join s pl t h w r').
Qed.

(** ** [set_value] *)

Lemma setting_on s pl t p cur r f :
  Inv s pl -> threads s t = Thread p cur r -> pc_toks p = [Setting f] -> pl (Setting f) = OnThread t.
Proof.
  intros H Hth Hp. apply (inv_tok _ _ _ _ H). rewrite Hth. unfold toks. simpl. rewrite Hp. by left.
Qed.

Lemma setting_claimed s pl t f : Inv s pl -> pl (Setting f) = OnThread t -> claimed s f = true.
Proof.
  intros H Hf. destruct (claimed s f) eqn:E; [done|]. destruct (inv_claim _ _ _ _ H f E). congruence.
Qed.

Lemma inv_set s pl t f v cur r :
  Inv s pl -> threads s t = Thread (PSet f v) cur r -> Inv (set_step t f v s) pl.
Proof.
  intros H Hth. pose proof (setting_on _ _ _ _ _ _ f H Hth eq_refl) as Hf.
  pose proof (inv_thread _ _ _ _ H t) as Hok. rewrite Hth in Hok.
  destruct Hok as (Hcur & (Hv & Hnr & Hb) & Hr). simpl in *. unfold set_step.
  set (s' := goto _ _ _).
  assert (Hfr : forall x, fready s' x <-> fready s x).
  { intros x. rewrite !fready_tag. unfold s'. simpl. by fn_cases. }
  apply (inv_step s s' pl pl t H).
  - apply frame_intro; try done; unfold s'; simpl.
    + others.
    + intros x u Hu Hx. assert (x <> f) by (intros ->; congruence). split; [by fn_cases|apply Hfr].
    + intros x. apply Hfr.
  - apply (token_keep s _ pl t); [exact (inv_tok _ _ _ _ H)|others|]. unfold s'. on_thread Hth. done.
  - unfold s'. on_thread Hth. split; [done|]. split; simpl; [|by apply (rest_ok_same s _ pl)].
    rewrite fn_lookup_insert. simpl. split_and!; try done. intros Hx. apply Hnr. by apply (Hfr f).
  - apply assign_iff. apply H.
  - apply H.
  - apply H.
  - apply H.
  - intros c. by left.
  - intros c. by left.
  - apply H.
  - intros x Hx. rewrite Hfr. by apply (inv_claim _ _ _ _ H).
Qed.

Lemma inv_ready_nobody s pl t f v cur r :
  Inv s pl -> threads s t = Thread (PReady f) cur r -> continuationPtr (futures s f) = EmptyHandle ->
  Inv (goto t PRet (put_future f (LFD InvalidHandle v) s)) (<[Setting f := Nowhere]> pl).
Proof.
  intros H Hth He. pose proof (setting_on _ _ _ _ _ _ f H Hth eq_refl) as Hf.
  pose proof (inv_thread _ _ _ _ H t) as Hok. rewrite Hth in Hok.
  destruct Hok as (Hcur & (Hv & Hnr & Hb) & Hr). simpl in *.
  pose proof (setting_claimed _ _ _ _ H Hf) as Hcl.
  set (s' := goto _ _ _). set (pl' := <[Setting f := _]> _).
  assert (Hfr : forall x, x <> f -> fready s' x <-> fready s x).
  { intros x Hx. rewrite !fready_tag. unfold s'. simpl. by fn_cases. }
  assert (Hfd : fready s' f) by (rewrite fready_tag; unfold s'; simpl; by rewrite fn_lookup_insert).
  apply (inv_step s s' pl pl' t H).
  - apply frame_intro; try done; unfold s', pl'; simpl.
    + others.
    + intros x u Hu Hx. assert (x <> f) by (intros ->; congruence). split; [by fn_cases|by apply Hfr].
    + intros x Hx. destruct (decide (x = f)) as [->|]; [done|by apply Hfr].
  - apply (token_drop s _ pl _ t (Setting f) (rest_toks r)); [exact (inv_tok _ _ _ _ H)|..]; unfold s', pl'; tokens Hth.
  - unfold s'. on_thread Hth. split; [done|]. split; simpl; [by destruct r as [|[]]|by apply (rest_ok_same s _ pl)].
  - apply (take_none_iff InFuture); [|done]. intros x w. rewrite (inv_fut _ _ _ _ H). unfold pl'. by fn_cases.
  - unfold s', pl'. simpl. words H.
  - unfold s', pl'. simpl. words H.
  - unfold s', pl'. simpl. queue H.
  - intros c. left. unfold untouched, s', pl'. simpl. fn_cases. by split_and!.
  - intros c. left. unfold s', pl'. simpl. split_and!; try done; fn_cases; done.
  - unfold s', pl'. simpl. built_same H.
  - intros x Hx. assert (x <> f) by (intros ->; unfold s' in Hx; simpl in Hx; congruence).
    destruct (inv_claim _ _ _ _ H x Hx). rewrite Hfr by done. unfold pl'. split; [done|by fn_cases].
Qed.

Lemma inv_ready_runner s pl t f v cur r w :
  Inv s pl -> threads s t = Thread (PReady f) cur r -> continuationPtr (futures s f) = TaskPtr w ->
  Inv (goto t (PRunner w) (put_future f (LFD InvalidHandle v) s))
      (<[Setting f := Nowhere]> (<[Ref w := OnThread t]> pl)).
Proof.
  intros H Hth He. pose proof (setting_on _ _ _ _ _ _ f H Hth eq_refl) as Hf.
  pose proof (inv_thread _ _ _ _ H t) as Hok. rewrite Hth in Hok.
  destruct Hok as (Hcur & (Hv & Hnr & Hb) & Hr). simpl in *.
  pose proof (setting_claimed _ _ _ _ H Hf) as Hcl.
  assert (Hw : pl (Ref w) = InFuture f) by (by apply (inv_fut _ _ _ _ H)).
  pose proof (inv_ref _ _ _ _ H w) as Hs. unfold RoutineInv.ref_ok in Hs. rewrite Hw in Hs.
  set (s' := goto _ _ _). set (pl' := <[Setting f := _]> _).
  assert (Hfr : forall x, x <> f -> fready s' x <-> fready s x).
  { intros x Hx. rewrite !fready_tag. unfold s'. simpl. by fn_cases. }
  assert (Hfd : fready s' f) by (rewrite fready_tag; unfold s'; simpl; by rewrite fn_lookup_insert).
  assert (Href : pl' (Ref w) = OnThread t) by (unfold pl'; by fn_cases).
  assert (Hs' : suspended reader s' pl' w).
  { apply (suspended_moves reader s s' pl); [done|done|unfold pl'; by fn_cases|right; by exists t|].
    intros x Hx. destruct (decide (x = f)) as [->|]; [done|apply Hfr; [done|]]. destruct Hx; [congruence|done]. }
  assert (Hrun : pl (Run w) = Nowhere) by apply Hs. assert (Hpw : mPull (datas s w) = Outside) by apply Hs.
  apply (inv_step s s' pl pl' t H).
  - apply frame_intro; try done; unfold s', pl'; simpl.
    + others.
    + intros c' u Hu Hx. assert (c' <> w) by (eapply (elsewhere reader joiner s pl w u); [done|congruence..|done]). by fn_cases.
    + intros x u Hu Hx. assert (x <> f) by (intros ->; congruence). split; [by fn_cases|by apply Hfr].
    + intros x Hx. destruct (decide (x = f)) as [->|]; [done|by apply Hfr].
  - apply (token_swap s _ pl _ t (Setting f) (Ref w) (rest_toks r)); [exact (inv_tok _ _ _ _ H)|..]; unfold s', pl'; tokens Hth.
  - unfold s'. on_thread Hth. split; [done|]. split; simpl; [by left|].
    apply (rest_ok_same s _ pl); [|done]. intros q Hq. split; [done|].
    assert (q <> w) by (eapply off_rest; [done|done|congruence|done]). unfold pl'. by fn_cases.
  - intros x y. transitivity ((<[Ref w := OnThread t]> pl) (Ref y) = InFuture x); [|unfold pl'; by fn_cases].
    apply (take_iff InFuture); try done; [by intros ? ? [= ->]|apply H].
  - unfold s', pl'. simpl. words H.
  - unfold s', pl'. simpl. words H.
  - unfold s', pl'. simpl. queue H.
  - intros c'. destruct (decide (c' = w)) as [->|Hc'].
    + right. by apply suspended_coro.
    + left. unfold untouched, s', pl'. simpl. fn_cases. by split_and!.
  - intros c. left. unfold s', pl'. simpl. split_and!; try done; fn_cases; done.
  - unfold s', pl'. simpl. built_same H.
  - intros x Hx. assert (x <> f) by (intros ->; unfold s' in Hx; simpl in Hx; congruence).
    destruct (inv_claim _ _ _ _ H x Hx). rewrite Hfr by done. unfold pl'. split; [done|by fn_cases].
Qed.

Lemma inv_on_ready s pl t f cur r :
  Inv s pl -> threads s t = Thread (PReady f) cur r -> exists pl', Inv (ready_step t f s) pl'.
Proof.
  intros H Hth. unfold ready_step. rewrite on_ready_branches.
  destruct (continuationPtr (futures s f)) as [| |w] eqn:E.
  - eexists. by eapply inv_ready_nobody.
  - pose proof (inv_thread _ _ _ _ H t) as Hok. rewrite Hth in Hok.
    destruct Hok as (_ & (_ & Hnr & _) & _). by rewrite fready_tag in Hnr.
  - eexists. by eapply inv_ready_runner.
Qed.

(** ** Returning *)

Lemma inv_ret_ctor s pl t c cur r :
  Inv s pl -> threads s t = Thread PRet cur (KCtor c :: r) ->
  Inv (build c (put_thread t (Thread PRet cur r) s)) (<[Ctor c := Nowhere]> pl).
Proof.
  intros H Hth. pose proof (inv_thread _ _ _ _ H t) as Hok. rewrite Hth in Hok.
  destruct Hok as (Hcur & Hpc & Hr). simpl in *.
  assert (Hc : pl (Ctor c) = OnThread t).
  { apply (inv_tok _ _ _ _ H). rewrite Hth. unfold toks. simpl. by left. }
  assert (Hp : mPull (datas s c) <> NotMade).
  { intros Hp. pose proof (inv_coro _ _ _ _ H c) as Hx. unfold RoutineInv.coro_ok in Hx.
    destruct (pl (Run c)); rewrite ?Hp in Hx; try done; [by destruct Hx as (_ & _ & _ & ?); congruence|by destruct Hx|].
    destruct Hx as [((_ & _ & _ & ? & _) & _) _]. congruence. }
  set (s' := build _ _). set (pl' := <[Ctor c := _]> _).
  apply (inv_step s s' pl pl' t H).
  - apply frame_intro; try done; unfold s', pl'; simpl.
    + others.
    + intros x Hx. by fn_cases.
  - apply (token_drop s _ pl _ t (Ctor c) (rest_toks r)); [exact (inv_tok _ _ _ _ H)|..]; unfold s', pl'; tokens Hth.
  - unfold s'. simpl. rewrite fn_lookup_insert. split; [done|]. split; simpl; [by destruct r as [|[]]|by apply (rest_ok_same s _ pl)].
  - unfold s', pl'. simpl. words H.
  - unfold s', pl'. simpl. words H.
  - unfold s', pl'. simpl. words H.
  - unfold s', pl'. simpl. queue H.
  - intros x. left. unfold untouched, s', pl'. simpl. split_and!; try done; fn_cases; done.
  - intros x. left. unfold s', pl'. simpl. split_and!; try done; fn_cases; done.
  - intros x. unfold s', pl'. simpl. fn_cases; [done|]. intros Hb. by apply (inv_built _ _ _ _ H).
  - unfold s', pl'. simpl. claim_same H.
Qed.

Lemma inv_ret s s' pl t cur r :
  Inv s pl -> threads s t = Thread PRet cur r -> ret_step t s = Some s' -> exists pl', Inv s' pl'.
Proof.
  intros H Hth. unfold ret_step. rewrite Hth. simpl.
  pose proof (inv_thread _ _ _ _ H t) as Hok. rewrite Hth in Hok.
  destruct Hok as (Hcur & Hpc & Hr). simpl in *.
  destruct r as [|[c first|c|h] r]; [done|..]; intros [= <-].
  - exists pl. destruct Hr as [[Hi Hm] Hr]. eapply (step_own s _ pl t c); on_thread Hth; try done; try others; try by left.
    + split; [done|]. split; simpl; [|by apply (rest_ok_same s _ pl)]. split_and!; try done; [apply Hi..|by left].
  - eexists. by eapply inv_ret_ctor.
  - exists pl. simpl in Hpc, Hr.
    assert (Hx : (exists x, h = TaskPtr x) \/ forall x, h <> TaskPtr x) by (destruct h; eauto; by right).
    destruct Hx as [[x ->]|Hx].
    + destruct Hpc as (-> & Hm & Href & r' & Hj & Hrd).
      eapply (step_own s _ pl t x); on_thread Hth; try done; try others; try by left.
      * split; [done|]. split; simpl; [|done]. destruct Hj as ((k & Hk) & _ & _ & Hp & Hpo).
        unfold waits_ready. simpl. rewrite Hk. split_and!; try done. congruence.
    + assert (Hp : match h, r with TaskPtr _, KCtor _ :: _ => PRet | TaskPtr c, _ => PResume c | _, _ => PRet end = PRet)
        by (destruct h; try done; by destruct (Hx t0)).
      rewrite Hp. eapply (step_own s _ pl t 0); on_thread Hth; try done; try others; try by left.
      * unfold toks. simpl. by destruct h; try done; destruct (Hx t0).
      * split; [done|]. split; simpl; [|by apply (rest_ok_same s _ pl)].
        assert (exists y, under y r) as [y Hy] by (destruct h; try done; by destruct (Hx t0)).
        destruct r as [|[]]; try done. apply Hy.
Qed.

(** ** New routines and new calls *)

(** Thread [t], whose stack will be [r], calls [construct] for [c]; [c0] is
    the coroutine that does so, if any, whose code has gone on. *)
Lemma inv_construct s s' pl t c c0 r d0 :
  Inv s pl -> mPull (datas s c) = NotMade -> toks (threads s t) = rest_toks r -> bodies r ->
  threads s' t = Thread (PBody c true) (Some c) (KCtor c :: r) ->
  (forall u, u <> t -> threads s' u = threads s u) ->
  datas s' c = with_pull Inside (with_outer (cur_of r) (datas s c)) ->
  (c0 = c \/ datas s' c0 = d0 /\ pl (Run c0) = OnThread t /\ pl (Ref c0) = Nowhere /\ mPull d0 = Inside) ->
  (forall x, x <> c -> x <> c0 -> datas s' x = datas s x) ->
  futures s' = futures s -> results s' = results s -> continuations s' = continuations s ->
  posted s' = posted s -> claimed s' = claimed s -> built s' = built s -> rest_ok s' pl r ->
  Inv s' (<[Run c := OnThread t]> (<[Ctor c := OnThread t]> pl)).
Proof.
  intros H Hnm Htk Hbod Hth' Hth Hdc Hc0 Hd Hf Hre Hk Hq Hcl Hb Hrest.
  set (pl' := <[Run c := _]> _).
  destruct (not_made reader joiner _ _ _ H Hnm) as (Hrun & C3 & C4 & Hfc & C1 & C2).
  assert (Hpull0 : c0 <> c -> mPull (datas s c0) <> NotMade /\ mPull (datas s c0) <> Finished).
  { intros Hn. destruct Hc0 as [->|(_ & Hrc & _)]; [done|]. destruct (running_pull _ _ _ _ _ _ H Hrc); split; congruence. }
  assert (Hnc : (coro_ok s' pl' c /\ ref_ok s' pl' c) /\ fin_ok s' pl' c).
  { apply (inside_ok reader joiner s s' pl pl' t); unfold rready, pl'; rewrite ?Hre, ?Hk, ?Hdc; auto; by fn_cases. }
  assert (Hn0 : c0 <> c -> (coro_ok s' pl' c0 /\ ref_ok s' pl' c0) /\ fin_ok s' pl' c0).
  { intros Hn. destruct Hc0 as [?|(E1 & E2 & E3 & E4)]; [done|].
    apply (inside_ok reader joiner s s' pl pl' t); unfold rready, pl'; rewrite ?Hre, ?Hk, ?E1; auto; by fn_cases. }
  apply (inv_step s s' pl pl' t H).
  - apply frame_intro; try done; unfold rready, fready; rewrite ?Hf, ?Hre, ?Hk, ?Hb; try done.
    + intros x u Hu Hx. assert (x <> c) by (eapply (elsewhere reader joiner s pl c u); [done|congruence..|done]).
      assert (x <> c0).
      { destruct Hc0 as [->|(_ & ? & ? & _)]; [done|]. destruct (decide (c0 = c)) as [->|Hn]; [done|].
        eapply (elsewhere reader joiner s pl c0 u); [done|by apply Hpull0|congruence..|done]. }
      split; [by apply Hd|]. unfold pl'. by fn_cases.
    + intros w u Hu Hx Hn. assert (w <> c) by (intros ->; congruence). unfold pl'. by fn_cases.
  - apply (token_take s _ pl _ t [Run c; Ctor c] (rest_toks r)); [exact (inv_tok _ _ _ _ H)|done|by rewrite Htk|by rewrite Hth'|..].
    + apply list.NoDup_cons. split; [by intros ?%list_elem_of_singleton|apply list.NoDup_singleton].
    + unfold pl'. repeat constructor; (by fn_cases) || congruence.
    + intros y Hy. rewrite elem_of_cons, list_elem_of_singleton in Hy. unfold pl'. fn_cases; tauto.
  - rewrite Hth'. split; [done|]. split; simpl.
    + unfold inside. rewrite Hdc. simpl. split_and!; try done.
      * by exists r.
      * by left.
    + apply (rest_ok_same s' _ pl); [|done]. intros q Hq'. split; [done|]. unfold pl'. by fn_cases.
  - rewrite Hf. unfold pl'. words H.
  - rewrite Hre. unfold pl'. words H.
  - rewrite Hk. unfold pl'. words H.
  - rewrite Hq. unfold pl'. queue H.
  - intros x. destruct (decide (x = c)) as [->|Hx]; [right; apply Hnc|].
    destruct (decide (x = c0)) as [->|Hx0]; [right; by apply Hn0|].
    left. unfold untouched, pl'. rewrite Hd by done. split_and!; try done; by fn_cases.
  - intros x. destruct (decide (x = c)) as [->|Hx]; [right; apply Hnc|].
    destruct (decide (x = c0)) as [->|Hx0]; [right; by apply Hn0|].
    left. unfold rready. rewrite Hre, Hk, Hd by done. unfold pl'. split_and!; try done; by fn_cases.
  - intros x. rewrite Hb. intros Hx. destruct (inv_built _ _ _ _ H x Hx) as [P1 P2].
    assert (x <> c) by (intros ->; congruence). split; [|unfold pl'; by fn_cases].
    destruct (decide (x = c0)) as [->|Hx0]; [|by rewrite Hd].
    destruct Hc0 as [->|(E1 & E2 & E3 & E4)]; [done|]. by rewrite E1, E4.
  - intros f. rewrite Hcl. intros Hx. destruct (inv_claim _ _ _ _ H f Hx). unfold fready in *. rewrite Hf.
    unfold pl'. split; [done|by fn_cases].
Qed.

(** Thread [t], whose stack will be [r], begins to set [f]. *)
Lemma inv_begin_set s s' pl t f v c0 r :
  Inv s pl -> claimed s f = false -> ValueHandling.isSet v = true ->
  toks (threads s t) = rest_toks r -> bodies r ->
  threads s' t = Thread (PSet f v) (cur_of r) r ->
  (forall u, u <> t -> threads s' u = threads s u) ->
  (datas s' c0 = datas s c0 \/
   pl (Run c0) = OnThread t /\ pl (Ref c0) = Nowhere /\ mPull (datas s' c0) = Inside) ->
  (forall x, x <> c0 -> datas s' x = datas s x) ->
  futures s' = futures s -> results s' = results s -> continuations s' = continuations s ->
  posted s' = posted s -> claimed s' = <[f := true]> (claimed s) -> built s' = built s -> rest_ok s' pl r ->
  Inv s' (<[Setting f := OnThread t]> pl).
Proof.
  intros H Hnc Hset Htk Hbod Hth' Hth Hc0 Hd Hf Hre Hk Hq Hcl Hb Hrest.
  set (pl' := <[Setting f := _]> _).
  destruct (inv_claim _ _ _ _ H f Hnc) as [Hnr Hsf].
  pose proof (running_pull reader joiner s pl c0 t H) as Hpull.
  assert (Hdc : forall c' u, u <> t -> (pl (Run c') = OnThread u \/ pl (Fin c') = OnThread u \/ pl (Ref c') = OnThread u) ->
                datas s' c' = datas s c').
  { intros c' u Hu Hx. destruct (decide (c' = c0)) as [->|]; [|by apply Hd].
    destruct Hc0 as [|(H1 & H2 & H3)]; [done|].
    destruct (elsewhere reader joiner s pl c0 u c0 H); [destruct (Hpull H1); congruence|congruence..|done|done]. }
  apply (inv_step s s' pl pl' t H).
  - apply frame_intro; try done; unfold rready, fready; rewrite ?Hf, ?Hre, ?Hk, ?Hb; try done.
    + intros x u Hu Hx. split; [eauto|]. unfold pl'. by fn_cases.
  - apply (token_take1 s _ pl _ t (Setting f) (rest_toks r));
      [exact (inv_tok _ _ _ _ H)|done|by rewrite Htk|by rewrite Hth'|..]; unfold pl'; tokens Hth.
  - rewrite Hth'. split; [done|]. split; simpl.
    + split_and!; try done. unfold fready. by rewrite Hf.
    + apply (rest_ok_same s' _ pl); [|done]. intros q Hq'. split; [done|]. unfold pl'. by fn_cases.
  - rewrite Hf. unfold pl'. words H.
  - rewrite Hre. unfold pl'. words H.
  - rewrite Hk. unfold pl'. words H.
  - rewrite Hq. unfold pl'. queue H.
  - intros x. destruct (decide (x = c0)) as [->|Hx].
    + destruct Hc0 as [E|(H1 & H2 & H3)].
      * left. unfold untouched, pl'. split_and!; try done; by fn_cases.
      * right. unfold RoutineInv.coro_ok, RoutineInv.ref_ok, pl'. fn_cases. rewrite H1, H2. split; [by left|done].
    + left. unfold untouched, pl'. rewrite Hd by done. split_and!; try done; by fn_cases.
  - intros x. unfold rready. rewrite Hre, Hk. destruct (decide (x = c0)) as [->|Hx].
    + destruct Hc0 as [->|(H1 & H2 & H3)]; [left; unfold pl'; split_and!; try done; by fn_cases|right].
      pose proof (inv_fin _ _ _ _ H c0) as Hfi. unfold fin_ok, rready in *. rewrite H3, Hre, Hk.
      unfold pl'. fn_cases. by destruct (Hpull H1) as [E|E]; rewrite E in Hfi.
    + left. rewrite Hd by done. unfold pl'. split_and!; try done; by fn_cases.
  - intros x. rewrite Hb. intros Hx. destruct (inv_built _ _ _ _ H x Hx) as [P1 P2].
    split; [|unfold pl'; by fn_cases]. destruct (decide (x = c0)) as [->|Hx0]; [|by rewrite Hd].
    destruct Hc0 as [->|(H1 & H2 & H3)]; [done|congruence].
  - intros x. rewrite Hcl. fn_cases; [done|]. intros Hx. destruct (inv_claim _ _ _ _ H x Hx).
    unfold fready in *. rewrite Hf. unfold pl'. split; [done|by fn_cases].
Qed.

(** [io_context::run] takes a runner. *)
Lemma inv_run s pl t w q :
  Inv s pl -> threads s t = Thread PRet None [] -> posted s = w :: q ->
  Inv (goto t (PRunner w) (put_posted q s)) (<[Ref w := OnThread t]> pl).
Proof.
  intros H Hth Hq. destruct (inv_queue _ _ _ _ H) as [Hq1 Hq2].
  assert (Hw : pl (Ref w) = InQueue) by (apply Hq2; rewrite Hq; by left).
  pose proof (inv_ref _ _ _ _ H w) as Hs. unfold RoutineInv.ref_ok in Hs. rewrite Hw in Hs.
  set (s' := goto _ _ _). set (pl' := <[Ref w := _]> _).
  assert (Href : pl' (Ref w) = OnThread t) by (unfold pl'; by fn_cases).
  assert (Hs' : suspended reader s' pl' w).
  { apply (suspended_moves reader s s' pl); [done|done|unfold pl'; by fn_cases|right; by exists t|].
    intros f [?|?]; [congruence|done]. }
  assert (Hrun : pl (Run w) = Nowhere) by apply Hs. assert (Hpw : mPull (datas s w) = Outside) by apply Hs.
  apply (inv_step s s' pl pl' t H).
  - apply frame_intro; try done; unfold s', pl'; simpl.
    + others.
    + intros c' u Hu Hx. assert (c' <> w) by (eapply (elsewhere reader joiner s pl w u); [done|congruence..|done]). by fn_cases.
  - apply (token_take1 s _ pl _ t (Ref w) []); [exact (inv_tok _ _ _ _ H)|..]; unfold s', pl'; tokens Hth.
  - unfold s'. on_thread Hth. split; [done|]. split; simpl; [|done]. by left.
  - unfold s', pl'. simpl. words H.
  - unfold s', pl'. simpl. words H.
  - unfold s', pl'. simpl. words H.
  - unfold s', pl'. simpl. rewrite Hq in *. apply list.NoDup_cons in Hq1 as [Hn Hnd]. split; [done|].
    intros x. destruct (decide (x = w)) as [->|Hx].
    + rewrite fn_lookup_insert. split; [done|by intros ?].
    + rewrite fn_lookup_insert_ne by congruence. rewrite <- Hq2, elem_of_cons. intuition.
  - intros c'. destruct (decide (c' = w)) as [->|Hc'].
    + right. by apply suspended_coro.
    + left. unfold untouched, s', pl'. simpl. fn_cases. by split_and!.
  - intros c. left. unfold s', pl'. simpl. split_and!; try done; fn_cases; done.
  - unfold s', pl'. simpl. built_same H.
  - unfold s', pl'. simpl. claim_same H.
Qed.

(** ** All steps *)

Lemma inv_post s pl t c cur r :
  Inv s pl -> threads s t = Thread (PPost c) cur r -> exists pl', Inv (post_step t c s) pl'.
Proof.
  intros H Hth. destruct (run_on _ _ _ _ _ _ c H Hth eq_refl) as [Hc Hne].
  pose proof (inv_thread _ _ _ _ H t) as Hok. rewrite Hth in Hok.
  destruct Hok as (Hcur & (H1 & H2 & H3 & H4 & H5 & H6) & Hr). simpl in *.
  unfold post_step. rewrite H2. unfold await_suspend. simpl. rewrite fn_lookup_insert. simpl.
  unfold waits_for in H5. destruct (mCode (datas s c)) as [o|f k|r' k|f v k|c' k] eqn:Ek; try done.
  - unfold LightFuture.await_suspend. rewrite suspend_branches.
    destruct (continuationPtr (futures s f)) as [| |w] eqn:Ef.
    + eexists. by eapply inv_post_suspend.
    + exists pl. eapply inv_post_ready; try done. by apply fready_tag.
    + assert (Hx : has_task (futures s f) w) by done. pose proof (registered_reader _ _ _ _ H Hx) as Hw.
      apply (inv_fut _ _ _ _ H) in Hx. congruence.
  - exists pl. rewrite H4. by eapply inv_post_join.
Qed.

Lemma inv_join1 s pl t c r' cont cur r :
  Inv s pl -> threads s t = Thread (PJoin1 c r' cont) cur r -> exists pl', Inv (join1_step t c r' cont s) pl'.
Proof.
  intros H Hth. pose proof (inv_thread _ _ _ _ H t) as Hok. rewrite Hth in Hok.
  destruct Hok as (_ & (Hj & _ & _ & Hr & _) & _). unfold join1_step. rewrite suspend_branches.
  destruct (fresh_result _ _ _ _ H Hj Hr) as [E|E]; rewrite E.
  - eexists. by eapply inv_join1_register.
  - exists pl. eapply inv_join1_ready; try done. by apply rready_tag.
Qed.

Lemma inv_join2 s pl t c r' cont cur r :
  Inv s pl -> threads s t = Thread (PJoin2 c r' cont) cur r -> exists pl', Inv (join2_step t c r' cont s) pl'.
Proof.
  intros H Hth. pose proof (inv_thread _ _ _ _ H t) as Hok. rewrite Hth in Hok.
  destruct Hok as (_ & (Hj & _ & _) & _). destruct (run_on _ _ _ _ _ _ c H Hth eq_refl) as [Hc _].
  unfold join2_step.
  destruct (continuations s r') as [| |x] eqn:E.
  - rewrite bool_decide_true by done. eexists. by eapply inv_join2_wait.
  - rewrite bool_decide_false, bool_decide_true by done. exists pl. by eapply inv_join2_late.
  - destruct (continuation_joined _ _ _ _ H E) as (Hx & ((_ & Hjx & _) & _) & _).
    destruct Hj as ((_ & Hjc & _) & _). congruence.
Qed.

Lemma inv_fin3 s pl t c res cur r :
  Inv s pl -> threads s t = Thread (PFin3 c res) cur r -> exists pl', Inv (fin3_step t c res s) pl'.
Proof.
  intros H Hth. unfold fin3_step. rewrite on_ready_branches.
  destruct (continuationPtr (results s c)) as [| |w] eqn:E.
  - eexists. by eapply inv_fin3_nobody.
  - pose proof (inv_thread _ _ _ _ H t) as Hok. rewrite Hth in Hok.
    destruct Hok as (_ & ((_ & _ & _ & _ & _ & Hnr) & _) & _). by rewrite rready_tag in Hnr.
  - eexists. by eapply inv_fin3_runner.
Qed.

Lemma inv_body s pl t c first cur r :
  Inv s pl -> threads s t = Thread (PBody c first) cur r -> may_body reader joiner c s = true ->
  exists pl', Inv (body_step t c first s) pl'.
Proof.
  intros H Hth Hm. destruct (run_on _ _ _ _ _ _ c H Hth eq_refl) as [Hc Hne].
  pose proof (inv_thread _ _ _ _ H t) as Hok. rewrite Hth in Hok.
  destruct Hok as (Hcur & (Hi & Hw & Hun) & Hr). simpl in *. unfold body_step, may_body in *.
  assert (Hin : inside s pl c first r) by done. destruct Hin as (I1 & I2 & I3 & I4 & I5).
  destruct (mCode (datas s c)) as [o|f k|r' k|f v k|c' k] eqn:Ek.
  - assert (Hn : mRunner (datas s c) = None) by (destruct Hw as [|Hw]; [done|unfold waits_ready in Hw; by rewrite Ek in Hw]).
    eexists. eapply inv_finish; try done. intros e ->. done.
  - exists pl. apply Nat.eqb_eq in Hm. eapply inv_await; try done.
    + unfold waits_for. by rewrite Ek.
    + intros Hx e. by apply await_resume_ready.
    + unfold waits_ready. by rewrite Ek.
  - exists pl. apply andb_prop in Hm as [Hm Hb]. apply Nat.eqb_eq in Hm. eapply inv_await; try done.
    + unfold waits_for. by rewrite Ek.
    + intros Hx e. by apply get_void_ready.
    + unfold waits_ready. by rewrite Ek.
  - assert (Hn : mRunner (datas s c) = None) by (destruct Hw as [|Hw]; [done|unfold waits_ready in Hw; by rewrite Ek in Hw]).
    unfold may_set in Hm. apply andb_prop in Hm as [Hset Hcl]. apply negb_true_iff in Hcl.
    eexists. eapply (inv_begin_set s _ pl t f v c (KBody c first :: r)); on_thread Hth; try done; try others.
    + by rewrite Hcur.
    + by right.
    + split; [|apply (rest_other s _ pl c); [done| |done]; others].
      unfold inside. simpl. rewrite fn_lookup_insert. simpl. by split_and!.
  - assert (Hn : mRunner (datas s c) = None) by (destruct Hw as [|Hw]; [done|unfold waits_ready in Hw; by rewrite Ek in Hw]).
    assert (Hnm : mPull (datas s c') = NotMade) by (unfold may_construct in Hm; by destruct (mPull (datas s c'))).
    assert (Hcc : c' <> c) by congruence.
    eexists. unfold construct.
    eapply (inv_construct s _ pl t c' c (KBody c first :: r) (with_code k (datas s c))); on_thread Hth; try done; try others.
    + rewrite (fn_lookup_insert_ne (datas s)) by done. by rewrite Hcur.
    + right. rewrite fn_lookup_insert_ne, fn_lookup_insert by done. done.
    + split.
      * unfold inside. simpl. rewrite fn_lookup_insert_ne, fn_lookup_insert by done. simpl. by split_and!.
      * apply (rest_ok_same s _ pl); [|done]. intros q Hq. split; [|done].
        assert (q <> c) by (by apply Hne). assert (q <> c').
        { eapply off_rest; [done|done| |done]. destruct (not_made reader joiner _ _ _ H Hnm) as [-> _]. done. }
        simpl. by fn_cases.
Qed.

Lemma idle_spec t s : idle t s = true -> threads s t = Thread PRet None [].
Proof. unfold idle. destruct (threads s t) as [[] [] []]; done. Qed.

Lemma inv_next_step s s' pl l :
  Inv s pl -> next_ok reader joiner l s = Some s' -> exists pl', Inv s' pl'.
Proof.
  unfold next_ok. intros H Hs. destruct (allowed reader joiner l s) eqn:Ha; [|done].
  destruct l as [t|t f v|t c|t]; simpl in Ha, Hs.
  - unfold thread_step in Hs. destruct (threads s t) as [p cur r] eqn:Hth. simpl in *.
    destruct p as [|c first|c|c|c r0 cont|c r0 cont|c|c|c res|c res|c res|c res|w|f v|f|e]; simplify_eq.
    + by eapply inv_ret.
    + by eapply inv_body.
    + eexists. by eapply inv_resume_step.
    + by eapply inv_post.
    + by eapply inv_join1.
    + by eapply inv_join2.
    + eexists. by eapply inv_join3.
    + by eapply inv_fin0.
    + eexists. by eapply inv_fin_post.
    + eexists. by eapply inv_fin1.
    + eexists. by eapply inv_fin2.
    + by eapply inv_fin3.
    + by eapply inv_runner.
    + eexists. by eapply inv_set.
    + by eapply inv_on_ready.
  - destruct (idle t s) eqn:Hi; simplify_eq. apply idle_spec in Hi as Hth.
    unfold may_set in Ha. apply andb_prop in Ha as [Hset Hcl]. apply negb_true_iff in Hcl.
    eexists. eapply (inv_begin_set s _ pl t f v 0 []); on_thread Hth; try done; try others; by left.
  - destruct (idle t s) eqn:Hi; simplify_eq. apply idle_spec in Hi as Hth.
    assert (Hnm : mPull (datas s c) = NotMade) by (unfold may_construct in Ha; by destruct (mPull (datas s c))).
    eexists. unfold construct.
    eapply (inv_construct s _ pl t c c [] (datas s c)); on_thread Hth; try done; try others; by left.
  - destruct (idle t s) eqn:Hi; [|done]. apply idle_spec in Hi as Hth.
    destruct (posted s) as [|w q] eqn:Hq; simplify_eq. eexists. by eapply inv_run.
Qed.

Lemma routine_inv prog s : reachable (next_ok reader joiner) (init prog) s -> exists pl, Inv s pl.
Proof.
  apply (invariant_reachable (next_ok reader joiner) (fun s => exists pl, Inv s pl)).
  - intros l s1 s2 [pl H]. by apply inv_next_step with pl.
  - exists (fun _ => Nowhere). apply routine_inv_init.
Qed.
End steps_end.
