(* ===== verification/RoutineProps.v ===== *)
(** * [Routine]: what coroutines can rely on

    No assertion fails; a coroutine is run by one thread at a time; [co::await]
    resumes with what the future or the routine holds, which is how the awaited
    body ended; and no wake-up is lost. *)

From S2P Require Import Prelude Future Routine RoutineInv RoutineSteps RoutineEnd.

Section properties.
Context (reader joiner : nat -> nat).
Implicit Types (s : state) (pl : tok -> place) (c w f t u : nat).

Abbreviation Inv := (Inv reader joiner).
Abbreviation next_ok := (next_ok reader joiner).


(** The body of [c] is active on thread [t], or waits there for a call to
    return. *)
Definition runs s t c : Prop :=
  exists first, at_pc (threads s t) = PBody c first \/ KBody c first ∈ rest (threads s t).

Lemma rest_tok k r x : k ∈ r -> x ∈ kont_toks k -> x ∈ rest_toks r.
Proof.
  intros Hk Hx. unfold rest_toks. rewrite list_elem_of_In in *. apply in_flat_map. exists k.
  by rewrite <- list_elem_of_In.
Qed.

Lemma runs_token s pl t c : Inv s pl -> runs s t c -> pl (Run c) = OnThread t.
Proof.
  intros H [first Hr]. apply (inv_tok _ _ _ _ H). unfold toks. apply elem_of_app.
  destruct Hr as [->|Hr]; [left; by left|right]. eapply rest_tok; [done|by left].
Qed.

(** a coroutine never runs on two threads at once, nor twice on one. *)
Theorem one_thread_at_a_time prog s t u c :
  reachable next_ok (init prog) s -> runs s t c -> runs s u c ->
  t = u /\ NoDup (toks (threads s t)).
Proof.
  intros Hr Ht Hu. destruct (routine_inv _ _ _ _ Hr) as [pl H].
  apply (runs_token _ _ _ _ H) in Ht, Hu. split; [congruence|]. by apply (inv_tok _ _ _ _ H).
Qed.

(** ** Results *)

(** The variant that [setByResult] makes of the end of a body. *)
Definition end_value (o : outcome unit) : Value StatelessT :=
  match o with Ret _ => Val stateless | Throw e => Exc e | Crash _ => Unset end.

Record values_ok s : Prop := {
  ok_ended c : mPull (datas s c) = Finished ->
    exists o, mCode (datas s c) = CDone o /\ mValue (datas s c) = end_value o /\ (forall e, o <> Crash e);
  ok_assigned t c res : at_pc (threads s t) = PFin3 c res -> value (results s c) = mValue (datas s c);
  ok_result c : rready s c -> value (results s c) = mValue (datas s c);
}.

(** Whoever owns the values of [c] does not change them. *)
Definition same_end s s' c : Prop :=
  mPull (datas s' c) <> Finished /\ mPull (datas s c) <> Finished \/
  mPull (datas s' c) = mPull (datas s c) /\ mCode (datas s' c) = mCode (datas s c) /\
  mValue (datas s' c) = mValue (datas s c).

Lemma ready_finished s pl c : Inv s pl -> rready s c -> mPull (datas s c) = Finished.
Proof.
  intros H Hr. pose proof (inv_fin _ _ _ _ H c) as Hf. unfold fin_ok in Hf.
  destruct (mPull (datas s c)); try done; by destruct Hf as (_ & ? & _).
Qed.

Lemma fin3_finished s pl u c res : Inv s pl -> at_pc (threads s u) = PFin3 c res -> mPull (datas s c) = Finished.
Proof.
  intros H Hu. destruct (inv_thread _ _ _ _ H u) as (_ & Hpc & _). rewrite Hu in Hpc. apply Hpc.
Qed.

(** A step that ends no coroutine and assigns no result. *)
Lemma values_same s s' pl t :
  Inv s pl -> values_ok s ->
  (forall u, u <> t -> threads s' u = threads s u) ->
  (forall c res, at_pc (threads s' t) <> PFin3 c res) ->
  (forall c, same_end s s' c) ->
  (forall c, value (results s' c) = value (results s c)) ->
  (forall c, rready s' c -> rready s c \/ exists res, at_pc (threads s t) = PFin3 c res) ->
  values_ok s'.
Proof.
  intros H [V1 V2 V3] Hth Hpc Hd Hval Hrd.
  assert (Hv : forall c, mPull (datas s c) = Finished -> mValue (datas s' c) = mValue (datas s c))
    by (intros c Hp; destruct (Hd c) as [[_ ?]|(_ & _ & ?)]; done).
  split.
  - intros c Hp. destruct (Hd c) as [[? _]|(Hp' & Hc & Hv')]; [done|]. rewrite Hc, Hv'. apply V1. congruence.
  - intros u c res. destruct (decide (u = t)) as [->|Hu]; [by intros ?%Hpc|]. rewrite (Hth u Hu).
    intros Hx. rewrite Hval, Hv; [by eapply V2|by eapply fin3_finished].
  - intros c Hx. rewrite Hval. destruct (Hrd c Hx) as [Hr|(res & Hr)].
    + rewrite Hv; [by apply V3|by eapply ready_finished].
    + rewrite Hv; [by eapply V2|by eapply fin3_finished].
Qed.

(** [c] is in its body or has left it: its end is still to come. *)
Lemma run_unfinished s pl t c : Inv s pl -> pl (Run c) = OnThread t -> mPull (datas s c) <> Finished.
Proof.
  intros H Hc. pose proof (inv_coro _ _ _ _ H c) as Hco. unfold coro_ok in Hco. rewrite Hc in Hco.
  by destruct Hco as [-> | ->].
Qed.

(** A step of which only the thread matters. *)
Lemma values_goto s s' pl t :
  Inv s pl -> values_ok s ->
  (forall u, u <> t -> threads s' u = threads s u) ->
  (forall c res, at_pc (threads s' t) <> PFin3 c res) ->
  (forall c, same_end s s' c) -> results s' = results s -> values_ok s'.
Proof.
  intros H V Hth Hpc He Hr. eapply (values_same s s' pl t); try done; unfold rready; rewrite Hr; auto.
Qed.

Lemma values_leave s pl t c cur p r h :
  Inv s pl -> values_ok s -> threads s t = Thread p cur r -> mPull (datas s c) <> Finished ->
  (forall c res, p <> PFin3 c res) ->
  values_ok (leave t c (put_data c (with_runner h (datas s c)) s)).
Proof.
  intros H V Hth Hc Hp. unfold leave. repeat case_bool_decide;
  (eapply (values_goto s _ pl t); on_thread Hth; try done; try others; intros x; unfold same_end; simpl; fn_cases;
   simpl; rewrite ?fn_lookup_insert; by auto).
Qed.

Lemma values_await {A} s pl t c cur first r ready (res : outcome A) k :
  Inv s pl -> values_ok s -> threads s t = Thread (PBody c first) cur r ->
  values_ok (await t c ready res k s).
Proof.
  intros H V Hth. destruct (run_on _ _ _ _ _ _ c H Hth eq_refl) as [Hc _].
  apply (run_unfinished _ _ _ _ H) in Hc. unfold await.
  destruct (mRunner (datas s c)), ready, res; try (by eapply values_leave);
  (eapply (values_goto s _ pl t); on_thread Hth; try done; try others; try (by rewrite Hth);
   intros x; unfold same_end; simpl; fn_cases; simpl; by auto).
Qed.

Ltac off_end Hth :=
  on_thread Hth; try done; try others;
  let x := fresh "x" in intros x; unfold same_end; simpl; fn_cases; simpl; rewrite ?fn_lookup_insert; simpl; auto.

Lemma values_construct s pl t c cur p r :
  Inv s pl -> values_ok s -> threads s t = Thread p cur r -> (forall x res, p <> PFin3 x res) ->
  mPull (datas s c) = NotMade -> values_ok (construct t c s).
Proof.
  intros H V Hth Hp Hn. unfold construct. eapply (values_goto s _ pl t); try done; off_end Hth.
  left. by rewrite Hn.
Qed.

Lemma values_finish s pl t c cur first r o :
  Inv s pl -> values_ok s -> threads s t = Thread (PBody c first) cur r ->
  mCode (datas s c) = CDone o -> (forall e, o <> Crash e) -> values_ok (finish t c first o s).
Proof.
  intros H V Hth Hcode Ho. destruct (run_on _ _ _ _ _ _ c H Hth eq_refl) as [Hc _].
  apply (run_unfinished _ _ _ _ H) in Hc.
  assert (E : ValueHandling.setByResult_void (fun w : unit => (o, w)) (mValue (datas s c), tt)
              = (Ret tt, (end_value o, tt))).
  { destruct o as [[]|e|e]; [done|done|by destruct (Ho e)]. }
  unfold finish. rewrite E.
  repeat case_bool_decide; try (eapply (values_goto s _ pl t); try done; off_end Hth; by rewrite Hth).
  destruct V as [V1 V2 V3]. split; simpl; unfold rready; simpl.
  - intros x. destruct (decide (x = c)) as [->|Hx].
    + rewrite !fn_lookup_insert. simpl. by exists o.
    + rewrite !fn_lookup_insert_ne by done. apply V1.
  - intros u x res. destruct (decide (u = t)) as [->|Hu].
    + rewrite !fn_lookup_insert. simpl. by destruct first.
    + rewrite !fn_lookup_insert_ne by done. intros Hu'. rewrite fn_lookup_insert_ne; [by eapply V2|].
      intros ->. by apply (fin3_finished _ _ _ _ _ H) in Hu'.
  - intros x Hx. rewrite fn_lookup_insert_ne; [by apply V3|]. intros ->. by apply (ready_finished _ _ _ H) in Hx.
Qed.

Lemma values_body s pl t c cur first r :
  Inv s pl -> values_ok s -> threads s t = Thread (PBody c first) cur r ->
  may_body reader joiner c s = true -> values_ok (body_step t c first s).
Proof.
  intros H V Hth Hm. destruct (run_on _ _ _ _ _ _ c H Hth eq_refl) as [Hc _].
  apply (run_unfinished _ _ _ _ H) in Hc. unfold body_step, may_body in *.
  destruct (mCode (datas s c)) as [o|f k|r' k|f v k|c' k] eqn:Ek; try (by eapply values_await).
  - eapply values_finish; try done. intros e ->. done.
  - eapply (values_goto s _ pl t); try done; off_end Hth; by rewrite Hth.
  - unfold may_construct in Hm. destruct (mPull (datas s c')) eqn:En; try done. unfold construct.
    eapply (values_goto s _ pl t); try done; off_end Hth; left; simpl; by rewrite En.
Qed.

Lemma values_post s pl t c cur r :
  Inv s pl -> values_ok s -> threads s t = Thread (PPost c) cur r -> values_ok (post_step t c s).
Proof.
  intros H V Hth. unfold post_step, await_suspend. simpl. rewrite fn_lookup_insert. simpl.
  repeat case_match; (eapply (values_goto s _ pl t); try done; off_end Hth).
Qed.

Lemma values_join1 s pl t c r' cont cur r :
  Inv s pl -> values_ok s -> threads s t = Thread (PJoin1 c r' cont) cur r ->
  values_ok (join1_step t c r' cont s).
Proof.
  intros H V Hth. unfold join1_step. rewrite suspend_branches.
  destruct (continuationPtr (results s r')) eqn:E;
    eapply (values_same s _ pl t); try done; try solve [off_end Hth]; on_thread Hth;
    intros x; unfold rready; simpl; fn_cases; simpl; auto; by intros ?%bool_decide_eq_true.
Qed.

Lemma values_fin2 s pl t c res cur r :
  Inv s pl -> values_ok s -> threads s t = Thread (PFin2 c res) cur r -> values_ok (fin2_step t c res s).
Proof.
  intros H V Hth. unfold fin2_step.
  destruct (mValue (datas s c)) eqn:Ev; [eapply (values_goto s _ pl t); try done; off_end Hth|..];
  (pose proof (fin_on _ _ _ _ _ _ _ _ c _ H Hth eq_refl) as Hc;
   destruct (fin_ending _ _ _ _ H Hc) as (po & E1 & E2 & E3 & E4 & E5 & E6);
   destruct V as [V1 V2 V3]; split; simpl; unfold rready; simpl;
   [done
   |intros u x res'; destruct (decide (u = t)) as [->|Hu];
     [rewrite !fn_lookup_insert; simpl; intros [= -> ->]; by rewrite fn_lookup_insert|];
     rewrite fn_lookup_insert_ne by done; intros Hu'; fn_cases; [simpl; congruence|by eapply V2]
   |intros x; fn_cases; [simpl; congruence|apply V3]]).
Qed.

Lemma values_fin3 s pl t c res cur r :
  Inv s pl -> values_ok s -> threads s t = Thread (PFin3 c res) cur r -> values_ok (fin3_step t c res s).
Proof.
  intros H V Hth. unfold fin3_step. rewrite on_ready_branches.
  destruct (continuationPtr (results s c)) eqn:E;
    eapply (values_same s _ pl t); try done; try solve [off_end Hth]; on_thread Hth;
    intros x; unfold rready; simpl; fn_cases; simpl; eauto.
Qed.

Lemma values_step s s' pl t :
  Inv s pl -> values_ok s -> allowed reader joiner (LStep t) s = true ->
  thread_step t s = Some s' -> values_ok s'.
Proof.
  unfold allowed, thread_step. intros H V Ha Hs. destruct (threads s t) as [p cur r] eqn:Hth. simpl in *.
  destruct p as [|c first|c|c|c r0 cont|c r0 cont|c|c|c res|c res|c res|c res|w|f v|f|e]; simplify_eq;
    first [by eapply values_body|by eapply values_post|by eapply values_join1|by eapply values_fin2
          |by eapply values_fin3|idtac].
  - unfold ret_step in Hs. rewrite Hth in Hs. simpl in Hs. repeat case_match; simplify_eq;
      (eapply (values_goto s _ pl t); try done; off_end Hth).
  - destruct (run_on _ _ _ _ _ _ c H Hth eq_refl) as [Hc _]. apply (run_unfinished _ _ _ _ H) in Hc.
    unfold resume_step. repeat case_match; (eapply (values_goto s _ pl t); try done; off_end Hth).
  - unfold join2_step. repeat case_match; (eapply (values_goto s _ pl t); try done; off_end Hth).
  - unfold join3_step. repeat case_match; (eapply (values_goto s _ pl t); try done; off_end Hth; by rewrite Hth).
  - unfold fin0_step. eapply (values_goto s _ pl t); try done; off_end Hth.
  - unfold fin_post_step. repeat case_match; (eapply (values_goto s _ pl t); try done; off_end Hth).
  - unfold fin1_step. repeat case_match; (eapply (values_goto s _ pl t); try done; off_end Hth).
  - unfold runner_step. repeat case_match; (eapply (values_goto s _ pl t); try done; off_end Hth).
  - unfold set_step. eapply (values_goto s _ pl t); try done; off_end Hth.
  - unfold ready_step. repeat case_match; (eapply (values_goto s _ pl t); try done; off_end Hth).
Qed.

Lemma await_resume_value (x : LightFutureData nat Z) :
  LightFuture.is_ready x = true -> fst (LightFuture.await_resume x) = ValueHandling.get (value x).
Proof. intros ?%bool_decide_eq_true. destruct x as [[] []]; done. Qed.

Lemma get_void_value (x : LightFutureData nat StatelessT) :
  LightFuture.is_ready x = true -> fst (LightFuture.get_unchecked_void x) = ValueHandling.get_void (value x).
Proof. intros ?%bool_decide_eq_true. destruct x as [[] []]; done. Qed.

Lemma values_next s s' pl l :
  Inv s pl -> values_ok s -> next_ok l s = Some s' -> values_ok s'.
Proof.
  unfold Routine.next_ok. intros H V Hs.
  destruct (allowed reader joiner l s) eqn:Ha; [|done].
  destruct l as [t|t f v|t c|t]; [by eapply values_step|simpl in Ha, Hs; destruct (idle t s) eqn:Hi; [|done]..];
    apply idle_spec in Hi as Hth; simplify_eq.
  - eapply (values_goto s _ pl t); try done; off_end Hth.
  - eapply values_construct; try done. unfold may_construct in Ha. by destruct (mPull (datas s c)).
  - destruct (posted s) as [|w q] eqn:Hq; simplify_eq.
    eapply (values_goto s _ pl t); try done; off_end Hth.
Qed.

Lemma routine_values prog s :
  reachable next_ok (init prog) s -> exists pl, Inv s pl /\ values_ok s.
Proof.
  apply (invariant_reachable next_ok (fun s => exists pl, Inv s pl /\ values_ok s)).
  - intros l s1 s2 [pl [H V]] Hn. destruct (inv_next_step _ _ _ _ _ _ H Hn) as [pl' H'].
    exists pl'. split; [done|exact (values_next _ _ _ _ H V Hn)].
  - exists (fun _ => Nowhere). split; [apply routine_inv_init|]. by split.
Qed.

(** C16: the result of a routine is how its body ended: when [mResult] is ready
    the coroutine has ended, and [get_unchecked] of [mResult], with which
    [co::await] of the routine resumes, returns if the body returned, and
    throws what the body threw if it did. *)
Theorem join_gives_end prog s (c : nat) :
  reachable next_ok (init prog) s -> rready s c ->
  mPull (datas s c) = Finished /\
  exists o, mCode (datas s c) = CDone o /\ fst (LightFuture.get_unchecked_void (results s c)) = o.
Proof.
  intros Hr Hc. destruct (routine_values _ _ Hr) as (pl & H & V).
  assert (Hf : mPull (datas s c) = Finished) by by eapply ready_finished.
  split; [done|]. destruct (ok_ended _ V c Hf) as (o & Ho & Hv & Hx). exists o. split; [done|].
  rewrite get_void_value, (ok_result _ V c), Hv by done.
  destruct o as [[]|e|e]; [done|done|by destruct (Hx e)].
Qed.


(** ** Progress *)

(** No thread has anything left to do, and no runner is posted. *)
Definition at_rest s : Prop :=
  forall t, next (LStep t) s = None /\ next (LRun t) s = None.

Lemma at_rest_spec s pl : Inv s pl -> at_rest s ->
  posted s = [] /\ forall t, threads s t = Thread PRet None [].
Proof.
  intros H Hs.
  assert (Hth : forall t, threads s t = Thread PRet None []).
  { intros t. destruct (Hs t) as [Hn _]. destruct (inv_thread _ _ _ _ H t) as (Hcur & Hpc & _).
    simpl in Hn. unfold thread_step, ret_step in Hn. destruct (threads s t) as [p cur r]. simpl in *.
    destruct p; simplify_eq; [|done]. by destruct r as [|[] r]; simplify_eq. }
  split; [|done]. destruct (Hs 0) as [_ Hn]. simpl in Hn. unfold idle in Hn. rewrite Hth in Hn.
  by destruct (posted s).
Qed.

(** C15: no wake-up is lost: when no thread can go on and the [io_context] is
    empty, every coroutine that was constructed has ended and its result is
    ready, or it waits in [co::await] and whoever completes what it waits for
    will find it: its runner is registered in the future, which is not
    ready; or in the result of a routine that has not ended, and the coroutine
    itself in that routine's [mContinuation]. *)
Theorem routine_no_lost_wakeup prog s c :
  reachable next_ok (init prog) s -> at_rest s -> mPull (datas s c) <> NotMade ->
  mPull (datas s c) = Finished /\ rready s c \/
  mPull (datas s c) = Outside /\
  match mCode (datas s c) with
  | CAwait f _ => continuationPtr (futures s f) = TaskPtr c
  | CJoin r _ => continuationPtr (results s r) = TaskPtr c /\ continuations s r = TaskPtr c /\
                 mPull (datas s r) <> Finished
  | _ => False
  end.
Proof.
  intros Hr Hs Hc. destruct (routine_inv _ _ _ _ Hr) as [pl H].
  destruct (at_rest_spec _ _ H Hs) as [Hq Hth].
  assert (Hno : forall x t, pl x <> OnThread t).
  { intros x t Hx. apply (inv_tok _ _ _ _ H) in Hx. rewrite Hth in Hx. by apply elem_of_nil in Hx. }
  assert (Hnq : forall w, pl (Ref w) <> InQueue).
  { intros w Hw. apply (inv_queue _ _ _ _ H) in Hw. rewrite Hq in Hw. by apply elem_of_nil in Hw. }
  assert (Hfin : forall x, mPull (datas s x) = Finished -> rready s x).
  { intros x Hx. pose proof (inv_fin _ _ _ _ H x) as Hf. unfold fin_ok in Hf. rewrite Hx in Hf.
    destruct (pl (Fin x)) eqn:E; try done; [by destruct Hf|by apply Hno in E]. }
  pose proof (inv_coro _ _ _ _ H c) as Hco. unfold coro_ok in Hco.
  assert (Hsus : suspended reader s pl c -> mPull (datas s c) = Outside /\
    match mCode (datas s c) with CAwait f _ => continuationPtr (futures s f) = TaskPtr c | _ => False end).
  { intros (H1 & H2 & H3 & H4 & f & k & H5 & H6 & [H7|[[H7|[t H7]] _]]).
    - split; [done|]. rewrite H5. by apply (inv_fut _ _ _ _ H).
    - by apply Hnq in H7.
    - by apply Hno in H7. }
  destruct (pl (Run c)) eqn:Erun; try done.
  - destruct (mPull (datas s c)) eqn:Ep; try done.
    + right. destruct (Hsus Hco) as [? Hx]. split; [done|]. by destruct (mCode (datas s c)).
    + right. destruct (Hsus Hco) as [? Hx]. split; [done|]. by destruct (mCode (datas s c)).
    + left. auto.
  - by apply Hno in Erun.
  - right. destruct Hco as [[((k & Hk) & Hj & Hb & Ho & Hp) _] Href]. split; [done|]. rewrite Hk.
    assert (Hreg : continuationPtr (results s r) = TaskPtr c) by by apply (inv_res _ _ _ _ H).
    split_and!; [done|by apply (inv_cont _ _ _ _ H)|]. intros Hf%Hfin%rready_tag. congruence.
Qed.

(** ** The wait for the runner *)

(** Thread [u] is [n] steps before the store to the runner's [mCaller] for
    which [c] waits in [await_suspend]. *)
Definition frees s u c (n : nat) : Prop :=
  match at_pc (threads s u) with
  | PRunner w => w = c /\ n = 1
  | PFin3 r _ => continuationPtr (results s r) = TaskPtr c /\ n = 2
  | PFin2 r _ => continuationPtr (results s r) = TaskPtr c /\ n = 3
  | PFin1 r _ => continuationPtr (results s r) = TaskPtr c /\ n = 4
  | PFinPost r _ => continuationPtr (results s r) = TaskPtr c /\ n = 5
  | _ => False
  end.

Lemma ref_thread s pl u w : Inv s pl -> pl (Ref w) = OnThread u -> at_pc (threads s u) = PRunner w.
Proof.
  intros H Hw. apply (inv_tok _ _ _ _ H) in Hw. unfold toks in Hw.
  apply elem_of_app in Hw as [Hw|Hw]; [|by apply ref_in_rest in Hw].
  rewrite list_elem_of_In in Hw. destruct (at_pc (threads s u)); simpl in Hw; try tauto;
    try (by destruct Hw as [|[]]); try (destruct res; simpl in Hw; intuition congruence).
  destruct Hw as [[= ->]|[]]. done.
Qed.

Lemma spin_helper s pl t c :
  Inv s pl -> at_pc (threads s t) = PJoin3 c -> mRunner (datas s c) = Some EmptyHandle ->
  exists u n, u <> t /\ n <= 5 /\ frees s u c n.
Proof.
  intros H Ht Hm. destruct (inv_thread _ _ _ _ H t) as (_ & Hpc & _). rewrite Ht in Hpc.
  destruct Hpc as ((r & [Hj [(_ & [Hr|[[u Hu] Hrd]])|(? & _)]] & Hk) & _); [| |congruence].
  - apply (inv_res _ _ _ _ H) in Hr. pose proof (inv_fin _ _ _ _ H r) as Hf. unfold fin_ok in Hf.
    destruct (mPull (datas s r)) eqn:Ep; try (by destruct Hf as (_ & _ & ?)).
    destruct (pl (Fin r)) as [|u| | | |] eqn:Eu; try done.
    + destruct Hf as [Hf%rready_tag _]. unfold has_task in Hr. congruence.
    + exists u. apply (inv_tok _ _ _ _ H) in Eu. unfold toks in Eu.
      apply elem_of_app in Eu as [Eu|Eu]; [|by apply fin_in_rest in Eu].
      destruct (inv_thread _ _ _ _ H u) as (_ & Hpu & _). unfold frees.
      destruct (decide (u = t)) as [->|Hut]; [rewrite Ht in Eu; by apply fin_in_pc in Eu|].
      apply fin_in_pc in Eu.
      destruct (at_pc (threads s u)); try done; simplify_eq; [by destruct Hpu as (_ & ? & _)|exists 5|exists 4|exists 3|exists 2];
        (split_and!; [done|lia|done..]).
  - exists u, 1. apply (ref_thread _ _ _ _ H) in Hu. unfold frees. rewrite Hu.
    split_and!; [congruence|lia|done..].
Qed.

Lemma frees_pos s u c : ~ frees s u c 0.
Proof. unfold frees. destruct (at_pc (threads s u)); simpl; first [by intros []|tauto|by intros [_ ?]|intuition lia]. Qed.

Ltac spin := split; [done|]; eexists; split; [reflexivity|]; simpl; rewrite ?fn_lookup_insert; done.

Lemma frees_step s pl u c n :
  Inv s pl -> frees s u c n -> mRunner (datas s c) = Some EmptyHandle ->
  exists s', next_ok (LStep u) s = Some s' /\ (forall t, t <> u -> threads s' t = threads s t) /\
    (mRunner (datas s' c) = Some InvalidHandle \/
     mRunner (datas s' c) = Some EmptyHandle /\ exists m, n = S m /\ frees s' u c m).
Proof.
  intros H Hf Hm. destruct (inv_thread _ _ _ _ H u) as (Hcur & Hpc & _).
  unfold frees in Hf. unfold Routine.next_ok, allowed, next, thread_step.
  destruct (at_pc (threads s u)) as [| | | | | | | |r res|r res|r res|r res|w| | |] eqn:Hu; try done;
    eexists; (split; [done|]).
  - destruct Hf as [Hf ->]. destruct Hpc as ((E1 & E2 & E3 & _) & _).
    unfold fin_post_step. rewrite E2. split; [others|]. right.
    assert (r <> c) by congruence. unfold frees. simpl. rewrite fn_lookup_insert, fn_lookup_insert_ne by done. spin.
  - destruct Hf as [Hf ->]. unfold fin1_step. split; [intros; simpl; case_bool_decide; others|].
    right. unfold frees. simpl. rewrite fn_lookup_insert. case_bool_decide; spin.
  - destruct Hf as [Hf ->]. destruct Hpc as ((E1 & E2 & E3 & _ & E4 & _) & _).
    unfold fin2_step. destruct (mValue (datas s r)) eqn:Ev; [done|..];
      (split; [others|]; right; unfold frees; simpl; rewrite !fn_lookup_insert; spin).
  - destruct Hf as [Hf ->]. unfold fin3_step. rewrite on_ready_branches, Hf. split; [others|].
    right. unfold frees. simpl. rewrite !fn_lookup_insert. simpl. spin.
  - destruct Hf as [-> ->]. destruct Hpc as [[(_ & _ & ? & _) _]|(h & r' & Hr & _)]; [congruence|].
    unfold runner_step. rewrite Hr in Hcur. simpl in Hcur. rewrite Hcur, Hm. split; [others|]. left.
    simpl. by rewrite fn_lookup_insert.
Qed.

(** C18: [while (cb.mCaller != 1) yield();] in [await_suspend] of a routine
    ends: as long as it waits, another thread is in the end of the awaited
    routine and, in at most five steps of its own, none of which waits, stores
    the tag for which the loop looks; then the waiting thread goes on to resume
    its coroutine. *)
Theorem join_spin_ends prog s t c :
  reachable next_ok (init prog) s -> at_pc (threads s t) = PJoin3 c ->
  exists u n s', u <> t /\ n <= 5 /\ run next_ok (replicate n (LStep u)) s = Some s' /\
    next_ok (LStep t) s' = Some (goto t (PResume c) s').
Proof.
  intros Hr Ht.
  assert (Hgo : forall x, at_pc (threads x t) = PJoin3 c -> mRunner (datas x c) = Some InvalidHandle ->
            next_ok (LStep t) x = Some (goto t (PResume c) x)).
  { intros x Hx Hm. unfold Routine.next_ok, allowed, next, thread_step, join3_step. by rewrite Hx, Hm. }
  destruct (routine_inv _ _ _ _ Hr) as [pl H].
  assert (Hm : mRunner (datas s c) = Some InvalidHandle \/ mRunner (datas s c) = Some EmptyHandle).
  { destruct (inv_thread _ _ _ _ H t) as (_ & Hpc & _). rewrite Ht in Hpc.
    destruct Hpc as ((r & [_ [[? _]|[? _]]] & _) & _); auto. }
  destruct Hm as [Hm|Hm]; [exists (S t), 0, s; split_and!; [lia|lia|done|auto]|].
  destruct (spin_helper _ _ _ _ H Ht Hm) as (u & n & Hu & Hn & Hf). exists u.
  assert (Hrun : exists k s', k <= n /\ run next_ok (replicate k (LStep u)) s = Some s' /\
            at_pc (threads s' t) = PJoin3 c /\ mRunner (datas s' c) = Some InvalidHandle).
  { clear Hn. revert s pl Hr Ht H Hm Hf. induction n as [|n IH]; intros s pl Hr Ht H Hm Hf;
      [by apply frees_pos in Hf|].
    destruct (frees_step _ _ _ _ _ H Hf Hm) as (s' & Hs & Hth & [Hi|(He & m & Hnm & Hf')]).
    - exists 1, s'. split_and!; [lia| |by rewrite Hth|done]. simpl. by rewrite Hs.
    - injection Hnm as <-. destruct (inv_next_step _ _ _ _ _ _ H Hs) as [pl' H'].
      destruct (IH s' pl') as (k & s2 & Hk & Hrun & ? & ?); try done.
      + eapply reachable_step; [done|]. by exists (LStep u).
      + by rewrite Hth.
      + exists (S k), s2. split_and!; [lia| |done..]. simpl. by rewrite Hs. }
  destruct Hrun as (k & s' & Hk & Hrun & Ht' & Hm'). exists k, s'. split_and!; try done; [lia|auto].
Qed.
End properties.

(** ** An example

    Coroutine 0 constructs coroutine 1, awaits it, and passes on in future 1
    how it ended; coroutine 1 awaits future 0 and ends with an exception. *)

Module Sample.
Definition passed (o : outcome unit) : Value Z :=
  match o with Ret _ => Val 5%Z | Throw e => Exc e | Crash _ => Val 0%Z end.

Definition prog (c : nat) : code :=
  match c with
  | 0 => CSpawn 1 (CJoin 1 (fun o => CSet 1 (passed o) (CDone (Ret tt))))
  | _ => CAwait 0 (fun o => CDone (match o with Ret _ => Throw (user_exn 3) | _ => Ret tt end))
  end.

Definition reader (f : nat) : nat := f + 1.
Definition joiner (r : nat) : nat := 0.
Abbreviation step := (next_ok reader joiner).

(** Thread 0 constructs coroutine 0, which ends up waiting. *)
Definition wait_for_routine : list label := LConstruct 0 0 :: replicate 10 (LStep 0).
(** Thread 1 sets future 0. *)
Definition set_future : list label := LSet 1 0 (Val 2%Z) :: replicate 26 (LStep 1).

Definition after (ls : list label) : state := default (init prog) (run step ls (init prog)).
Definition waiting : state := after wait_for_routine.
Definition final : state := after (wait_for_routine ++ set_future).

(** Coroutine 1 is back from its [co::await]. *)
Definition back : state := after (wait_for_routine ++ take 5 set_future).
(** Coroutine 1 takes [mContinuation] before coroutine 0 gives itself. *)
Definition overtaken : state :=
  after (take 9 wait_for_routine ++ take 9 set_future ++ [LStep 0]).

Lemma reach_after ls : bool_decide (is_Some (run step ls (init prog))) = true ->
  reachable step (init prog) (after ls).
Proof. intros [s Hs]%bool_decide_eq_true. exists ls. unfold after. by rewrite Hs. Qed.

Lemma waiting_at_rest : at_rest waiting.
Proof. intros [|[|t]]; split; vm_compute; reflexivity. Qed.
End Sample.


Lemma one_thread_at_a_time_witness :
  1 = 1 /\ NoDup (toks (threads Sample.back 1)).
Proof.
  apply (one_thread_at_a_time Sample.reader Sample.joiner Sample.prog Sample.back 1 1 1);
    [apply Sample.reach_after; vm_compute; reflexivity|exists false; left; vm_compute; reflexivity..].
Defined.

Lemma join_gives_end_witness :
  fst (LightFuture.get_unchecked_void (results Sample.final 1)) = Throw (user_exn 3) /\
  (mPull (datas Sample.final 1) = Finished /\
   exists o, mCode (datas Sample.final 1) = CDone o /\
     fst (LightFuture.get_unchecked_void (results Sample.final 1)) = o).
Proof.
  split; [vm_compute; reflexivity|].
  apply (join_gives_end Sample.reader Sample.joiner Sample.prog);
    [apply Sample.reach_after; vm_compute; reflexivity|vm_compute; reflexivity].
Defined.


Lemma routine_no_lost_wakeup_witness :
  mPull (datas Sample.waiting 0) = Finished /\ rready Sample.waiting 0 \/
  mPull (datas Sample.waiting 0) = Outside /\
  match mCode (datas Sample.waiting 0) with
  | CAwait f _ => continuationPtr (futures Sample.waiting f) = TaskPtr 0
  | CJoin r _ => continuationPtr (results Sample.waiting r) = TaskPtr 0 /\
                 continuations Sample.waiting r = TaskPtr 0 /\
                 mPull (datas Sample.waiting r) <> Finished
  | _ => False
  end.
Proof.
  apply (routine_no_lost_wakeup Sample.reader Sample.joiner Sample.prog);
    [apply Sample.reach_after; vm_compute; reflexivity|apply Sample.waiting_at_rest|].
  vm_compute. discriminate.
Defined.

Lemma join_spin_ends_witness :
  mRunner (datas Sample.overtaken 0) = Some EmptyHandle /\
  exists u n s', u <> 0 /\ n <= 5 /\ run Sample.step (replicate n (LStep u)) Sample.overtaken = Some s' /\
    Sample.step (LStep 0) s' = Some (goto 0 (PResume 0) s').
Proof.
  split; [vm_compute; reflexivity|].
  apply (join_spin_ends Sample.reader Sample.joiner Sample.prog Sample.overtaken 0 0);
    [apply Sample.reach_after; vm_compute; reflexivity|vm_compute; reflexivity].
Defined.
