(* ===== verification/CountedRunner.v ===== *)
(** * [routine.hpp]: a [Runner] that waits for several awaitables

    [Runner(caller, awaitableCnt)] is called once by each awaitable, by any thread,
    and resumes its coroutine at the last call. It lives on the stack of the
    coroutine that it resumes. A [Runner] without a counter, the one of [co::await],
    is the case of one call; [Routine.v] has it with all that surrounds it. *)

From S2P Require Import Prelude Future.

(** ** The calls *)

(** A coroutine is a number. *)
Record Runner : Type := MkRunner {
  mCaller : handle nat;
  mAwaitableCnt : option Z;    (** [boost::optional<std::atomic<size_t>>] *)
}.

(** [Runner(caller)] and [Runner(caller, awaitableCnt)] *)
Definition make (caller : nat) : Runner := MkRunner (TaskPtr caller) None.
Definition make_counting (caller : nat) (awaitableCnt : Z) : Runner := MkRunner (TaskPtr caller) (Some awaitableCnt).

(** Where a call of [operator()] is. *)
Inductive call : Type :=
  | CCall             (** before it looks at [current()], or posted to an io_context *)
  | CCount            (** before [--( *mAwaitableCnt)] *)
  | CExchange         (** before [mCaller.exchange] *)
  | CResume (c : nat) (** before [continuation->resume()] *)
  | CDone
  | CFault (f : fault).

Record state : Type := St {
  runner : option Runner;     (** [None]: the coroutine has gone on, and the runner is destroyed *)
  calls : list call;
  resumed : list nat;         (** history: the coroutines that were resumed *)
}.

Definition start (r : Runner) (n : nat) : state := St (Some r) (replicate n CCall) [].

(** [operator()] on a runner that is there: the next place, and the runner.
    [current]: does the thread run a coroutine? Then the call is posted. *)
Definition operator (current : bool) (p : call) (r : Runner) : call * Runner :=
  match p with
  | CCall =>
      if current then (CCall, r)
      else (match mAwaitableCnt r with Some _ => CCount | None => CExchange end, r)
  | CCount =>
      match mAwaitableCnt r with
      | Some n =>
          let n := wrap64u (n - 1) in
          (if (n =? 0)%Z then CExchange else CDone, MkRunner (mCaller r) (Some n))
      | None => (CFault NullDeref, r)
      end
  | CExchange =>
      (match mCaller r with TaskPtr c => CResume c | EmptyHandle | InvalidHandle => CDone end,
       MkRunner InvalidHandle (mAwaitableCnt r))
  | CResume _ | CDone | CFault _ => (p, r)
  end.

Inductive label : Type := L (i : nat) (current : bool).

Definition next (l : label) (s : state) : option state :=
  let '(L i current) := l in
  match calls s !! i with
  | None | Some (CDone | CFault _) => None
  | Some (CResume c) => Some (St None (<[i := CDone]> (calls s)) (resumed s ++ [c]))
  | Some p =>
      match runner s with
      | Some r => let '(p, r) := operator current p r in Some (St (Some r) (<[i := p]> (calls s)) (resumed s))
      | None => Some (St None (<[i := CFault UseAfterFree]> (calls s)) (resumed s))
      end
  end.

(** ** The invariant *)

Section invariant.
Context (c : nat) (counting : bool).

Definition counter (n : nat) : option Z := if counting then Some (Z.of_nat n) else None.

Definition pending (p : call) : nat := match p with CCall | CCount => 1 | _ => 0 end.
Definition exchanging (p : call) : nat := match p with CExchange => 1 | _ => 0 end.
Definition resuming (p : call) : nat := match p with CResume _ => 1 | _ => 0 end.

Definition call_ok (p : call) : Prop :=
  match p with CFault _ => False | CCount => counting = true | CResume c' => c' = c | _ => True end.

(** The calls that have not counted themselves, and how far the last one is. *)
Definition phase (s : state) (np ne nr : nat) : Prop :=
  match np, ne, nr with
  | S _, 0, 0 => runner s = Some (MkRunner (TaskPtr c) (counter np)) /\ resumed s = [] /\
      (Z.of_nat np < 2 ^ 64)%Z /\ (counting = false -> np = 1)
  | 0, 1, 0 => runner s = Some (MkRunner (TaskPtr c) (counter 0)) /\ resumed s = []
  | 0, 0, 1 => runner s = Some (MkRunner InvalidHandle (counter 0)) /\ resumed s = []
  | 0, 0, 0 => runner s = None /\ resumed s = [c]
  | _, _, _ => False
  end.

Definition ok (s : state) : Prop :=
  Forall call_ok (calls s) /\
  phase s (sum_list_with pending (calls s)) (sum_list_with exchanging (calls s)) (sum_list_with resuming (calls s)).

Lemma counter_dec n :
  (Z.of_nat (S n) < 2 ^ 64)%Z -> wrap64u (Z.of_nat (S n) - 1) = Z.of_nat n.
Proof. intros H. rewrite wrap64u_id by lia. lia. Qed.

(** Close the case in which the sums are [a], [b] and [d] after the step. *)
Ltac into a b d H :=
  apply H; [solve [done | simpl; congruence]|];
  let np := fresh in let ne := fresh in let nr := fresh in
  intros np ne nr; simpl; intros; replace np with a by lia; replace ne with b by lia; replace nr with d by lia;
  simpl; unfold counter; try match goal with E : counting = _ |- _ => rewrite E end.

Lemma runner_ok_next l s s' : ok s -> next l s = Some s' -> ok s'.
Proof.
  intros [Hf Hp] Hs. destruct l as [i cur], s as [r cs rs]. unfold next in Hs. simpl in *.
  destruct (cs !! i) as [p|] eqn:Ei; [|done].
  pose proof (Forall_lookup_1 _ _ _ _ Hf Ei) as Hc.
  assert (Hgen : forall p' r' rs', call_ok p' ->
    (forall np ne nr, np + pending p = sum_list_with pending cs + pending p' ->
       ne + exchanging p = sum_list_with exchanging cs + exchanging p' ->
       nr + resuming p = sum_list_with resuming cs + resuming p' -> phase (St r' (<[i := p']> cs) rs') np ne nr) ->
    ok (St r' (<[i := p']> cs) rs')).
  { intros p' r' rs' Hp' H. split; [by apply Forall_insert|]. apply H; by apply sum_insert. }
  pose proof (sum_lookup_le pending _ _ _ Ei). pose proof (sum_lookup_le exchanging _ _ _ Ei).
  pose proof (sum_lookup_le resuming _ _ _ Ei).
  set (np := sum_list_with pending cs) in *. set (ne := sum_list_with exchanging cs) in *.
  set (nr := sum_list_with resuming cs) in *. clearbody np ne nr.
  destruct p as [| | |c'| |f]; try done; simpl in *.
  - destruct np as [|n], ne, nr; try done; try lia. simpl in Hp; destruct Hp as (-> & -> & Hb & Hone).
    destruct cur; simpl in Hs; simplify_eq; [by into (S n) 0 0 Hgen|].
    unfold counter in *. simpl. destruct counting eqn:Ec; [by into (S n) 0 0 Hgen|].
    assert (n = 0) as -> by (specialize (Hone eq_refl); lia). by into 0 1 0 Hgen.
  - destruct np as [|n], ne, nr; try done; try lia. simpl in Hp; destruct Hp as (-> & -> & Hb & _). unfold counter in *.
    rewrite Hc in *. cbn -[wrap64u Z.of_nat] in Hs. rewrite counter_dec in Hs by done.
    destruct n as [|n]; simplify_eq; [by into 0 1 0 Hgen|].
    rewrite (proj2 (Z.eqb_neq _ _)) by lia. into (S n) 0 0 Hgen. split_and!; [done|done|lia|done].
  - destruct np, ne as [|[|]], nr; try done; try lia. simpl in Hp; destruct Hp as (-> & ->). simpl in Hs. simplify_eq.
    by into 0 0 1 Hgen.
  - destruct np, ne as [|[|]], nr as [|[|]]; try done; try lia. simpl in Hp; destruct Hp as (-> & ->). simplify_eq. by into 0 0 0 Hgen.
Qed.

Lemma runner_ok_start n :
  n <> 0 -> (Z.of_nat n < 2 ^ 64)%Z -> (counting = false -> n = 1) -> ok (start (MkRunner (TaskPtr c) (counter n)) n).
Proof.
  intros Hn Hb H1. split; [by apply Forall_replicate|]. unfold start. simpl. rewrite !sum_replicate. simpl.
  rewrite !Nat.mul_0_r, Nat.mul_1_r. destruct n as [|n]; [done|]. done.
Qed.

Lemma ok_reachable n s :
  n <> 0 -> (Z.of_nat n < 2 ^ 64)%Z -> (counting = false -> n = 1) ->
  reachable next (start (MkRunner (TaskPtr c) (counter n)) n) s -> ok s.
Proof. intros Hn Hb H1. apply invariant_reachable; [intros l s1 s2; apply runner_ok_next|by apply runner_ok_start]. Qed.

(** What the invariant says to who looks from outside. *)
Definition resumes_once (s : state) : Prop :=
  (resumed s = [] \/ resumed s = [c] /\ Forall (eq CDone) (calls s)) /\
  (Forall (eq CDone) (calls s) -> resumed s = [c]) /\
  (forall i f, calls s !! i <> Some (CFault f)) /\
  (forall i p, calls s !! i = Some p -> p <> CDone -> exists s', next (L i false) s = Some s').

Lemma ok_resumes_once s : ok s -> resumes_once s.
Proof.
  intros [Hf Hp].
  assert (Hdone : sum_list_with pending (calls s) = 0 -> sum_list_with exchanging (calls s) = 0 ->
    sum_list_with resuming (calls s) = 0 -> Forall (eq CDone) (calls s)).
  { intros H1 H2 H3. apply Forall_lookup. intros i p Hi. pose proof (Forall_lookup_1 _ _ _ _ Hf Hi).
    pose proof (sum_lookup_le pending _ _ _ Hi). pose proof (sum_lookup_le exchanging _ _ _ Hi).
    pose proof (sum_lookup_le resuming _ _ _ Hi). by destruct p; simpl in *; try lia. }
  split_and!.
  - destruct (sum_list_with pending (calls s)), (sum_list_with exchanging (calls s)) as [|[]],
      (sum_list_with resuming (calls s)) as [|[]]; simpl in Hp; try done; spread; auto.
  - intros Hd.
    assert (Hz : forall f, f CDone = 0 -> sum_list_with f (calls s) = 0).
    { intros f Hfd. apply sum_all_zero. intros i p Hi. by rewrite <- (Forall_lookup_1 _ _ _ _ Hd Hi). }
    rewrite !Hz in Hp by done. by destruct Hp.
  - intros i f Hi. by apply (Forall_lookup_1 _ _ _ _ Hf Hi).
  - intros i p Hi Hn. pose proof (Forall_lookup_1 _ _ _ _ Hf Hi) as Hc. unfold next. rewrite Hi.
    destruct p; try done; [..|by eexists]; (destruct (runner s); [by destruct (operator _ _ _); eexists|by eexists]).
Qed.
End invariant.

(** ** Theorems *)

(** A runner that counts [n] awaitables, each of which calls it once, in every
    interleaving of the calls and whether or not they are posted first: the coroutine
    is resumed once, after all calls have counted themselves and no call touches
    the runner any more; when all calls are over it has been resumed; and a call is
    never stuck. *)
Theorem counting_runner_resumes_once c n s :
  n <> 0 -> (Z.of_nat n < 2 ^ 64)%Z ->
  reachable next (start (make_counting c (Z.of_nat n)) n) s -> resumes_once c s.
Proof. intros Hn Hb Hr. by apply (ok_resumes_once c true), (ok_reachable c true n). Qed.

(** The same for a runner without a counter, which is called once. *)
Theorem plain_runner_resumes_once c s : reachable next (start (make c) 1) s -> resumes_once c s.
Proof. intros Hr. apply (ok_resumes_once c false), (ok_reachable c false 1); [done..|exact Hr]. Qed.

(** The counter must be the number of calls: with one call less the coroutine is
    never resumed, and with one more a call touches the destroyed runner. *)
Lemma counter_too_high : forall s, run next [L 0 false; L 0 false] (start (make_counting 7 2) 1) = Some s ->
  calls s = [CDone] /\ resumed s = [].
Proof. intros s [= <-]. done. Qed.

Lemma counter_too_low : forall s,
  run next [L 0 false; L 0 false; L 0 false; L 0 false; L 1 false] (start (make_counting 7 1) 2) = Some s ->
  calls s = [CDone; CFault UseAfterFree] /\ resumed s = [7].
Proof. intros s [= <-]. done. Qed.

(** ** An example *)

Module Sample.
Definition script : list label := Eval vm_compute in
  [L 2 true; L 0 true] ++ greedy next [L 1 false; L 2 false; L 0 false] 50 (start (make_counting 7 3) 3).
Definition final : state := default (start (make 0) 0) (run next script (start (make_counting 7 3) 3)).
End Sample.

Lemma counting_runner_resumes_once_witness :
  3 <> 0 /\ Forall (eq CDone) (calls Sample.final) /\ resumed Sample.final = [7].
Proof.
  assert (Hr : reachable next (start (make_counting 7 (Z.of_nat 3)) 3) Sample.final)
    by (exists Sample.script; vm_compute; reflexivity).
  assert (Hd : Forall (eq CDone) (calls Sample.final)) by (vm_compute; by repeat constructor).
  split; [done|]. split; [exact Hd|].
  destruct (counting_runner_resumes_once 7 3 Sample.final ltac:(done) ltac:(lia) Hr) as (_ & H & _). exact (H Hd).
Defined.
