(* ===== verification/Detach.v ===== *)
(** * [routine.hpp]: who destroys a coroutine's [Data]

    The owner of a [Routine] joins, detaches and drops it while another thread
    runs the coroutine's end. The [Data] goes with the handle, or, when the
    handle was detached, with the end. Every access to [Data] is a step, and a
    step on destroyed [Data] is a fault. *)

From S2P Require Import Prelude Future.

(** The words of [Data] that the two threads share; [mPull]: the coroutine
    can still be resumed. *)
Record Data : Type := MkData {
  mIsDetached : bool;
  mPull : bool;
  mContinuation : handle nat;
  mResult : LightFutureData nat StatelessT;
}.

(** The thread that runs the coroutine. *)
Inductive ender : Type :=
  | EBody                               (** the body is not over *)
  | ETake                               (** [resume]: before the exchange of [mContinuation] *)
  | ECas                                (** [ResultSetter]: before the exchange of [mIsDetached] *)
  | EDisable (destruct : bool)          (** ... of [mContinuation] *)
  | EAssign (destruct : bool)           (** before the result is assigned *)
  | EReady (destruct : bool)            (** before [on_ready]'s exchange *)
  | ECall (destruct : bool) (w : nat)   (** before [on_ready] calls who waits *)
  | EDestroy                            (** before [alloc.destroy(data)] *)
  | EDone
  | EFault (f : fault).

(** The thread that has the handle. *)
Inductive owner : Type :=
  | OHeld        (** [joinable()] *)
  | OBlocked     (** in [join()] *)
  | OJoined      (** [join()] has returned *)
  | OReset       (** [detach]: before [d.reset()] *)
  | OGone        (** the handle is empty or gone *)
  | OFault (f : fault).

Record state : Type := St {
  data : option Data;     (** [None]: destroyed and deallocated *)
  end_at : ender;
  owner_at : owner;
}.

(** [Data(...)] *)
Definition init : state :=
  St (Some (MkData false true EmptyHandle LightFuture.make)) EBody OHeld.

Inductive label : Type :=
  | LEnd (first : bool)  (** the coroutine's thread; [first]: still in [Data]'s constructor *)
  | LJoin                (** [join()] *)
  | LDetach              (** [detach()], up to its exchange *)
  | LDrop                (** [~Routine()] *)
  | LOwner.              (** the owner's next step in [detach()] *)

Section steps.
Context (result : Value StatelessT).   (* how the body ends *)
Implicit Types (s : state) (d : Data).

Definition with_detached (b : bool) d := MkData b (mPull d) (mContinuation d) (mResult d).
Definition with_pull (b : bool) d := MkData (mIsDetached d) b (mContinuation d) (mResult d).
Definition with_continuation (h : handle nat) d := MkData (mIsDetached d) (mPull d) h (mResult d).
Definition with_result (x : LightFutureData nat StatelessT) d :=
  MkData (mIsDetached d) (mPull d) (mContinuation d) x.

Definition after_end (destruct : bool) : ender := if destruct then EDestroy else EDone.

(** [ResultSetter::operator()] and what [resume] does before it. *)
Definition end_step (first : bool) s : option state :=
  match data s with
  | None => match end_at s with
            | EDone | EFault _ => None
            | _ => Some (St None (EFault UseAfterFree) (owner_at s))
            end
  | Some d =>
      match end_at s with
      | EBody => Some (St (Some (with_pull false d)) (if first then ECas else ETake) (owner_at s))
      | ETake => Some (St (Some (with_continuation InvalidHandle d)) ECas (owner_at s))
      | ECas => Some (St (Some (with_detached true d)) (EDisable (mIsDetached d)) (owner_at s))
      | EDisable b =>
          let d' := if bool_decide (mContinuation d = EmptyHandle)
                    then with_continuation InvalidHandle d else d in
          Some (St (Some d') (EAssign b) (owner_at s))
      | EAssign b =>
          Some (St (Some (with_result (snd (LightFuture.assign_value result (mResult d))) d))
                   (EReady b) (owner_at s))
      | EReady b =>
          match LightFuture.on_ready (mResult d) with
          | (Ret (Some w), x) => Some (St (Some (with_result x d)) (ECall b w) (owner_at s))
          | (Ret None, x) => Some (St (Some (with_result x d)) (after_end b) (owner_at s))
          | (Throw _, x) => Some (St (Some (with_result x d)) (EFault Terminated) (owner_at s))
          | (Crash e, x) => Some (St (Some (with_result x d)) (EFault e) (owner_at s))
          end
      | ECall b w =>
          match owner_at s with
          | OBlocked => Some (St (Some d) (after_end b) OJoined)
          | _ => Some (St (Some d) (EFault UseAfterFree) (owner_at s))
          end
      | EDestroy => if mPull d then Some (St (Some d) (EFault Terminated) (owner_at s))
                    else Some (St None EDone (owner_at s))
      | EDone | EFault _ => None
      end
  end.

(** [Destructor::operator()] of the handle. *)
Definition destroy s : state :=
  match data s with
  | None => St None (end_at s) (OFault UseAfterFree)
  | Some d => if mPull d then St (Some d) (end_at s) (OFault Terminated) else St None (end_at s) OGone
  end.

(** [join()]: [mResult.get_blocking()] *)
Definition join s : option state :=
  match owner_at s, data s with
  | OHeld, Some d =>
      if LightFuture.is_ready (mResult d) then Some (St (data s) (end_at s) OJoined)
      else match LightFuture.suspend 0 (mResult d) with
           | (Ret true, x) => Some (St (Some (with_result x d)) (end_at s) OBlocked)
           | (Ret false, _) => Some (St (data s) (end_at s) OJoined)
           | (Throw _, _) => Some (St (data s) (end_at s) (OFault Terminated))
           | (Crash e, _) => Some (St (data s) (end_at s) (OFault e))
           end
  | OHeld, None => Some (St None (end_at s) (OFault UseAfterFree))
  | _, _ => None
  end.

(** [detach()]: [mIsDetached.compare_exchange_strong(false, true)], then
    [d.release()] or, in a step of its own, [d.reset()]. *)
Definition detach s : option state :=
  match owner_at s with
  | OHeld | OJoined =>
      match data s with
      | None => Some (St None (end_at s) (OFault UseAfterFree))
      | Some d =>
          if mIsDetached d then Some (St (Some d) (end_at s) OReset)
          else Some (St (Some (with_detached true d)) (end_at s) OGone)
      end
  | _ => None
  end.

Definition next (l : label) s : option state :=
  match l with
  | LEnd first => end_step first s
  | LJoin => join s
  | LDetach => detach s
  | LDrop => match owner_at s with OHeld | OJoined => Some (destroy s) | _ => None end
  | LOwner => match owner_at s with OReset => Some (destroy s) | _ => None end
  end.

(** A handle is dropped after [join()], or when [is_ready()] was true; it is
    detached then, or before the coroutine's end begins. *)
Definition known_ready s : bool :=
  match owner_at s, data s with
  | OJoined, _ => true
  | _, Some d => LightFuture.is_ready (mResult d)
  | _, None => false
  end.

Definition before_end s : bool :=
  match end_at s with EBody | ETake | ECas => true | _ => false end.

Definition allowed (l : label) s : bool :=
  match l with
  | LDrop => known_ready s
  | LDetach => known_ready s || before_end s
  | _ => true
  end.

Definition next_ok (l : label) s : option state := if allowed l s then next l s else None.

End steps.

(** ** The invariant *)

#[export] Instance owner_eq_dec : EqDecision owner.
Proof. solve_decision. Defined.

(** What [Data] looks like when the coroutine's thread is at [e] and the
    owner at [o]. *)
Definition data_ok (e : ender) (o : owner) (d : Data) : Prop :=
  (mPull d = match e with EBody => true | _ => false end) /\
  continuationPtr (mResult d) =
    match e with
    | ECall _ _ | EDestroy | EDone => InvalidHandle
    | _ => match o with OBlocked => TaskPtr 0 | _ => EmptyHandle end
    end /\
  match e with
  | EBody | ETake | ECas => mIsDetached d = bool_decide (o = OGone) /\ (o = OHeld \/ o = OBlocked \/ o = OGone)
  | EDisable b | EAssign b | EReady b =>
      mIsDetached d = true /\ b = bool_decide (o = OGone) /\ (o = OHeld \/ o = OBlocked \/ o = OGone)
  | ECall b w => mIsDetached d = true /\ b = false /\ o = OBlocked
  | EDestroy => o = OGone
  | EDone => mIsDetached d = true /\ (o = OHeld \/ o = OJoined \/ o = OReset)
  | EFault _ => False
  end.

Definition inv (s : state) : Prop :=
  match data s with
  | Some d => data_ok (end_at s) (owner_at s) d
  | None => end_at s = EDone /\ owner_at s = OGone
  end.

Lemma detach_inv_next result l s s' : inv s -> next_ok result l s = Some s' -> inv s'.
Proof.
  unfold inv, next_ok. destruct s as [[[dt pl ct [cp v]]|] e o]; simpl;
    [|by intros [-> ->]; destruct l].
  unfold data_ok. simpl. intros (Hp & Hc & He) Hs.
  destruct e; destruct_and?; destruct_or?; subst; try done;
    destruct l as [[]| | | |]; vm_compute in Hs; simplify_eq; vm_compute; try tauto;
    repeat case_match; simplify_eq; vm_compute; tauto.
Qed.

Lemma detach_inv_reachable result s : reachable (next_ok result) init s -> inv s.
Proof.
  apply invariant_reachable; [intros l s1 s2; apply detach_inv_next|].
  unfold inv, data_ok. simpl. tauto.
Qed.

(** ** Theorems *)

(** C29: a [Routine] that is joined before it is dropped, or detached while its
    coroutine has not begun to set its result, is destroyed exactly once: no
    thread touches [Data] after its destruction, it is never destroyed while
    the coroutine can be resumed, and it is destroyed exactly when the
    coroutine's thread and the owner are both done with it. *)
Theorem detach_or_join_safe result s :
  reachable (next_ok result) init s ->
  (forall e, end_at s <> EFault e) /\ (forall e, owner_at s <> OFault e) /\
  (data s = None <-> end_at s = EDone /\ owner_at s = OGone).
Proof.
  intros Hi%detach_inv_reachable. unfold inv in Hi. destruct s as [[d|] e o]; simpl in *.
  - destruct Hi as (_ & _ & Hi). unfold data_ok in Hi.
    destruct e; simpl in Hi; destruct_and?; destruct_or?; subst; try done; split_and!; try done;
      (split; [done|]); by intros [? ?].
  - by destruct Hi as [-> ->].
Qed.

(** [detach()] races with the end of the coroutine: when
    [ResultSetter] has taken [mIsDetached] but not yet set the result, an
    otherwise untouched handle that is detached destroys [Data] under
    [ResultSetter], whose next step uses it. *)
Theorem detach_race_use_after_free result :
  exists ls s, Forall (fun l => l <> LDrop /\ l <> LJoin) ls /\
    run (next result) ls init = Some s /\ end_at s = EFault UseAfterFree.
Proof.
  exists (repeat (LEnd false) 3 ++ [LDetach; LOwner; LEnd false]).
  eexists. split_and!; [|vm_compute; reflexivity|done].
  by repeat constructor.
Qed.

Lemma detach_or_join_safe_witness :
  (exists s, run (next_ok (Val stateless)) (LDetach :: repeat (LEnd false) 7) init = Some s /\
     data s = None) /\
  (forall s, run (next_ok (Val stateless)) (LDetach :: repeat (LEnd false) 7) init = Some s ->
     data s = None <-> end_at s = EDone /\ owner_at s = OGone).
Proof.
  split; [eexists; split; vm_compute; reflexivity|].
  intros s Hs. apply (detach_or_join_safe (Val stateless) s). by exists (LDetach :: repeat (LEnd false) 7).
Defined.
