(* ===== verification/ForEach.v ===== *)
(** * [foreach.hpp]: [forEach] over a random access range

    First how the range is cut into one piece per coroutine, then the execution:
    the coroutines walk through their pieces in any interleaving, the first
    exception is remembered, and [forEach] waits for all of them. Elements are
    their positions in the range. *)

From S2P Require Import Prelude.

Local Open Scope co_scope.

(** ** The pieces *)

(** The loop over [coros]: [begin = end; end = begin + itemsPerCoro;
    if (remaining) { ++end; --remaining; }] *)
Fixpoint cut (coros itemsPerCoro remaining end_ : nat) : list (nat * nat) :=
  match coros with
  | 0 => []
  | S coros =>
      let begin := end_ in
      let end_ := begin + itemsPerCoro in
      if remaining =? 0 then (begin, end_) :: cut coros itemsPerCoro remaining end_
      else (begin, S end_) :: cut coros itemsPerCoro (remaining - 1) (S end_)
  end.

(** ... and what precedes it: [s / coroCnt] and [s % coroCnt] of unsigned
    integers trap when there is nothing to divide by. *)
Definition pieces (maxParallelity s : nat) : outcome (list (nat * nat)) :=
  let coroCnt := Nat.min maxParallelity s in
  if coroCnt =? 0 then Crash DivByZero
  else Ret (cut coroCnt (s / coroCnt) (s mod coroCnt) 0).

(** The closed form: piece [i] of [c] has [q] elements, and one more if [i] is
    below [r]. *)
Definition bound (q r i : nat) : nat := i * q + Nat.min i r.
Definition cut_spec (c q r : nat) : list (nat * nat) :=
  map (fun i => (bound q r i, bound q r (S i))) (seq 0 c).

Definition items (p : nat * nat) : list nat := seq p.1 (p.2 - p.1).

Lemma cut_closed_form c q r i :
  cut c q (r - i) (bound q r i) = map (fun i => (bound q r i, bound q r (S i))) (seq i c).
Proof.
  revert i. induction c as [|c IH]; intros i; [done|]. simpl.
  specialize (IH (S i)). unfold bound in *.
  destruct (r - i =? 0) eqn:E.
  - apply Nat.eqb_eq in E.
    replace (i * q + i `min` r + q) with (S i * q + S i `min` r) by lia.
    f_equal. replace (r - S i) with (r - i) in IH by lia. exact IH.
  - apply Nat.eqb_neq in E.
    replace (S (i * q + i `min` r + q)) with (S i * q + S i `min` r) by lia.
    f_equal. replace (r - i - 1) with (r - S i) by lia. exact IH.
Qed.

Lemma bound_mono q r i : bound q r i <= bound q r (S i).
Proof. unfold bound. lia. Qed.

Lemma items_join q r i c :
  concat (map items (map (fun i => (bound q r i, bound q r (S i))) (seq i c))) =
  seq (bound q r i) (bound q r (i + c) - bound q r i).
Proof.
  revert i. induction c as [|c IH]; intros i; simpl.
  - by rewrite Nat.add_0_r, Nat.sub_diag.
  - rewrite IH. unfold items. simpl fst. simpl snd. rewrite Nat.add_succ_r. simpl.
    assert (Hm : forall k, bound q r (S i) <= bound q r (S (i + k))).
    { intros k. induction k as [|k IHk]; [by rewrite Nat.add_0_r|].
      rewrite IHk, Nat.add_succ_r. apply bound_mono. }
    specialize (Hm c). pose proof (bound_mono q r i).
    replace (bound q r (S i)) with (bound q r i + (bound q r (S i) - bound q r i)) at 2 by lia.
    rewrite <- seq_app. f_equal. lia.
Qed.

(** The loop that cuts the range computes the even cut in closed form:
    with [c = min(maxParallelity, size)] coroutines, [q = size / c] and
    [r = size % c], piece [i] is [i*q + min(i,r)] to [(i+1)*q + min(i+1,r)]. *)
Lemma pieces_closed_form maxParallelity s :
  0 < maxParallelity -> 0 < s ->
  pieces maxParallelity s =
  Ret (let c := Nat.min maxParallelity s in cut_spec c (s / c) (s mod c)).
Proof.
  intros Hm Hs. unfold pieces, cut_spec. cbv zeta.
  rewrite (proj2 (Nat.eqb_neq _ _)) by lia. f_equal.
  rewrite <- (cut_closed_form _ _ _ 0). by rewrite Nat.sub_0_r.
Qed.

Lemma pieces_exact maxParallelity s ps :
  pieces maxParallelity s = Ret ps ->
  concat (map items ps) = seq 0 s /\ length ps = Nat.min maxParallelity s /\ 0 < length ps /\
  Forall (fun p => p.1 <= p.2) ps.
Proof.
  intros H. destruct (decide (Nat.min maxParallelity s = 0)) as [E|E].
  { unfold pieces in H. rewrite E in H. done. }
  rewrite pieces_closed_form in H by lia. cbv zeta in H. simplify_eq.
  set (c := Nat.min maxParallelity s) in *. unfold cut_spec. split_and!.
  - rewrite items_join. simpl. unfold bound at 1 2 3.
    pose proof (Nat.mod_upper_bound s c ltac:(lia)). pose proof (Nat.div_mod_eq s c). simpl.
    replace (c `min` (s mod c)) with (s mod c) by lia. f_equal; lia.
  - by rewrite length_map, length_seq.
  - rewrite length_map, length_seq. lia.
  - apply Forall_map, Forall_forall. intros i _. apply bound_mono.
Qed.

(** Every element of the range belongs to exactly one coroutine, in order;
    there are [min(maxParallelity, size)] coroutines, whose shares differ by
    at most one element; and an empty range, or a parallelity of zero, divides by
    zero. *)
Lemma pieces_cover maxParallelity s :
  match pieces maxParallelity s with
  | Ret ps => concat (map items ps) = seq 0 s /\ length ps = Nat.min maxParallelity s /\
      forall p, p ∈ ps -> length (items p) = s / length ps \/ length (items p) = S (s / length ps)
  | Throw _ => False
  | Crash e => e = DivByZero /\ (maxParallelity = 0 \/ s = 0)
  end.
Proof.
  destruct (pieces maxParallelity s) as [ps|e|e] eqn:E.
  - destruct (pieces_exact _ _ _ E) as (H1 & H2 & H3 & _). split_and!; try done.
    rewrite H2. rewrite pieces_closed_form in E by lia. cbv zeta in E. simplify_eq.
    intros p Hp. unfold cut_spec in Hp. apply list_elem_of_fmap in Hp as (i & -> & _).
    unfold items, bound. cbn [fst snd]. rewrite length_seq.
    generalize (s / Nat.min maxParallelity s), (s mod Nat.min maxParallelity s). intros q r. lia.
  - unfold pieces in E. by case_match.
  - unfold pieces in E. case_match eqn:Ec; simplify_eq. apply Nat.eqb_eq in Ec. split; [done|lia].
Qed.


(** ** The execution *)

(** [handleError]: under the mutex, [if (!firstError) firstError =
    current_exception();] *)
Definition handleError (e : exn) (firstError : option exn) : option exn :=
  match firstError with None => Some e | Some _ => firstError end.

Module Parallel.
(** A coroutine: its piece, [itr], and where it is. *)
Inductive wpc : Type :=
  | WLoop             (** before [itr != end] *)
  | WCatch (e : exn)  (** in [catch (...)] *)
  | WDone.
Record worker : Type := Worker { first : nat; itr : nat; last : nat; at_wpc : wpc }.

Inductive mpc : Type :=
  | MCreate (todo : list (nat * nat))   (** coroutines to be constructed *)
  | MAwait (k : nat)                    (** [for (coro : coros) await(coro)] *)
  | MCheck                              (** [if (firstError)] *)
  | MReturned (o : outcome unit).

Record state : Type := St {
  coros : list worker;
  main : mpc;
  firstError : option exn;
  processed : list nat;   (** history: elements on which [func] has returned *)
  thrown : list exn;      (** history: what [func] has thrown *)
}.

(** [forEach] on a range of size [s]. *)
Definition init (maxParallelity s : nat) : state :=
  St [] (match pieces maxParallelity s with
         | Ret ps => MCreate ps
         | Throw e => MReturned (Throw e)
         | Crash e => MReturned (Crash e)
         end) None [] [].

Inductive label : Type :=
  | LMain
  | LWorker (w : nat) (o : option exn).  (** the next step of a coroutine; [o]: what [func] throws in it *)

Section steps.
Implicit Types (s : state).

Definition main_step s : option state :=
  match main s with
  | MCreate ((b, e) :: todo) =>
      Some (St (coros s ++ [Worker b b e WLoop]) (MCreate todo) (firstError s) (processed s) (thrown s))
  | MCreate [] => Some (St (coros s) (MAwait 0) (firstError s) (processed s) (thrown s))
  | MAwait k =>
      match coros s !! k with
      | None => Some (St (coros s) MCheck (firstError s) (processed s) (thrown s))
      | Some (Worker _ _ _ WDone) =>
          Some (St (coros s) (MAwait (S k)) (firstError s) (processed s) (thrown s))
      | Some _ => None
      end
  | MCheck =>
      Some (St (coros s) (MReturned (match firstError s with Some e => Throw e | None => Ret tt end))
               (firstError s) (processed s) (thrown s))
  | MReturned _ => None
  end.

Definition worker_step (w : nat) (o : option exn) s : option state :=
  match coros s !! w with
  | None => None
  | Some (Worker b i e WLoop) =>
      if i =? e
      then Some (St (<[w := Worker b i e WDone]> (coros s)) (main s) (firstError s) (processed s) (thrown s))
      else match o with
           | None => Some (St (<[w := Worker b (S i) e WLoop]> (coros s)) (main s) (firstError s)
                              (processed s ++ [i]) (thrown s))
           | Some x => Some (St (<[w := Worker b i e (WCatch x)]> (coros s)) (main s) (firstError s)
                                (processed s) (thrown s ++ [x]))
           end
  | Some (Worker b i e (WCatch x)) =>
      Some (St (<[w := Worker b i e WDone]> (coros s)) (main s) (handleError x (firstError s))
               (processed s) (thrown s))
  | Some (Worker _ _ _ WDone) => None
  end.

Definition next (l : label) s : option state :=
  match l with LMain => main_step s | LWorker w o => worker_step w o s end.
End steps.

(** ** The invariant *)

Section invariant.
Context (maxParallelity size : nat).
Implicit Types (s : state).

Definition done (w : worker) : list nat := seq (first w) (itr w - first w).

Definition worker_ok s (w : worker) : Prop :=
  first w <= itr w <= last w /\
  match at_wpc w with
  | WLoop => True
  | WCatch e => e ∈ thrown s
  | WDone => itr w = last w \/ firstError s <> None
  end.

Definition main_ok s (ps : list (nat * nat)) : Prop :=
  let shares := map (fun w => (first w, last w)) (coros s) in
  match main s with
  | MCreate todo => shares ++ todo = ps
  | MAwait k => shares = ps /\ forall i w, i < k -> coros s !! i = Some w -> at_wpc w = WDone
  | MCheck => shares = ps /\ forall w, w ∈ coros s -> at_wpc w = WDone
  | MReturned o => shares = ps /\ (forall w, w ∈ coros s -> at_wpc w = WDone) /\
                   o = match firstError s with Some e => Throw e | None => Ret tt end
  end.

Record Inv (ps : list (nat * nat)) s : Prop := {
  inv_workers w : w ∈ coros s -> worker_ok s w;
  inv_main : main_ok s ps;
  inv_processed : processed s ≡ₚ concat (map done (coros s));
  inv_first e : firstError s = Some e -> e ∈ thrown s;
  inv_thrown : thrown s <> [] -> firstError s <> None \/ exists w e, w ∈ coros s /\ at_wpc w = WCatch e;
}.

Lemma pieces_inv ps : pieces maxParallelity size = Ret ps -> Inv ps (init maxParallelity size).
Proof. intros H. unfold init. rewrite H. split; simpl; try done. by intros w ?%elem_of_nil. Qed.

(** Coroutine [w] goes from [a] to [b]. *)
Lemma inv_worker ps s w a b fe pr th :
  Inv ps s -> coros s !! w = Some a -> at_wpc a <> WDone ->
  first b = first a -> last b = last a ->
  (forall e, e ∈ thrown s -> e ∈ th) -> (firstError s <> None -> fe <> None) ->
  worker_ok (St (<[w := b]> (coros s)) (main s) fe pr th) b ->
  pr ++ done a ≡ₚ processed s ++ done b -> (forall e, fe = Some e -> e ∈ th) ->
  (th <> [] -> fe <> None \/ exists x e, x ∈ <[w := b]> (coros s) /\ at_wpc x = WCatch e) ->
  Inv ps (St (<[w := b]> (coros s)) (main s) fe pr th).
Proof.
  intros [H1 H2 H3 H4 H5] Ha Hnd Hf Hl Hth Hfe Hb Hp Hfe' Hth'.
  assert (Hsh : map (fun w => (first w, last w)) (<[w := b]> (coros s)) = map (fun w => (first w, last w)) (coros s)).
  { etrans; [apply (list_fmap_insert (fun w => (first w, last w)))|]. rewrite Hf, Hl.
    apply list_insert_id. etrans; [apply (list_lookup_fmap (fun w => (first w, last w)))|]. by rewrite Ha. }
  assert (Hna : forall P : Prop, (forall x, x ∈ coros s -> at_wpc x = WDone) -> P).
  { intros P Hd. destruct Hnd. apply Hd. by eapply list_elem_of_lookup_2. }
  split; simpl; try done.
  - intros x Hx. destruct (insert_elem _ _ _ _ _ Ha Hx) as [->|Hx']; [done|].
    destruct (H1 x Hx') as [Hr Hpc]. split; [done|]. destruct (at_wpc x); simpl; auto.
    destruct Hpc; auto.
  - unfold main_ok in *. simpl. rewrite Hsh. destruct (main s) as [todo|k| |o]; try done.
    + destruct H2 as [? Hk]. split; [done|]. intros i x Hi Hx.
      destruct (decide (i = w)) as [->|Hne].
      * destruct Hnd. by apply (Hk w a).
      * rewrite list_lookup_insert_ne in Hx by done. eauto.
    + destruct H2 as [? Hd]. by apply Hna.
    + destruct H2 as (? & Hd & _). by apply Hna.
  - apply (Permutation_app_inv_r (done a)). rewrite Hp, H3. symmetry. by apply (concat_insert done).
Qed.

Lemma inv_main_next ps s s' : Forall (fun p => p.1 <= p.2) ps -> Inv ps s -> main_step s = Some s' -> Inv ps s'.
Proof.
  intros Hps [H1 H2 H3 H4 H5] Hs. unfold main_step, main_ok in *.
  destruct (main s) as [[|[b e] todo]|k| |o] eqn:Em; try done; try injection Hs as <-.
  - split; simpl; try done. unfold main_ok. simpl. rewrite app_nil_r in H2. split; [done|lia].
  - split; simpl.
    + intros x [Hx| ->%list_elem_of_singleton]%elem_of_app; [by apply H1|]. split; simpl; [|done].
      split; [lia|]. pose proof Hps as Hb. rewrite <- H2 in Hb. apply Forall_app in Hb as [_ Hb].
      by apply Forall_cons in Hb as [Hb _].
    + unfold main_ok. simpl. rewrite map_app, <- app_assoc. exact H2.
    + rewrite map_app, concat_app. simpl. unfold done at 2. simpl. rewrite Nat.sub_diag. simpl. by rewrite app_nil_r.
    + done.
    + intros Ht. destruct (H5 Ht) as [?|(x & y & Hx & Hy)]; [by left|right]. exists x, y. split; [|done].
      apply elem_of_app. by left.
  - destruct (coros s !! k) as [[f i l []]|] eqn:Ek; try done; injection Hs as <-.
    + split; simpl; try done. unfold main_ok. simpl. destruct H2 as [? Hk]. split; [done|].
      intros j x Hj Hx. destruct (decide (j = k)) as [->|]; [by simplify_eq|]. apply (Hk j); [lia|done].
    + split; simpl; try done. unfold main_ok. simpl. destruct H2 as [? Hk]. split; [done|].
      intros x [j Hj]%list_elem_of_lookup. apply (Hk j); [|done].
      apply lookup_ge_None in Ek. apply lookup_lt_Some in Hj. lia.
  - split; simpl; try done. unfold main_ok. simpl. by destruct H2.
Qed.

Lemma catcher_stays (l : list worker) w a b x e :
  l !! w = Some a -> at_wpc a = WLoop -> x ∈ l -> at_wpc x = WCatch e -> x ∈ <[w := b]> l.
Proof.
  intros Ha Hl [i Hi]%list_elem_of_lookup Hx. apply list_elem_of_lookup. exists i.
  rewrite list_lookup_insert_ne; [done|]. intros ->. congruence.
Qed.

(** What is left to catch after a step of a coroutine in its loop. *)
Lemma thrown_kept ps s w a b :
  Inv ps s -> coros s !! w = Some a -> at_wpc a = WLoop -> thrown s <> [] ->
  firstError s <> None \/ exists x e, x ∈ <[w := b]> (coros s) /\ at_wpc x = WCatch e.
Proof.
  intros H Ha Hl Ht. destruct (inv_thrown _ _ H Ht) as [?|(x & e & Hx & He)]; [by left|right].
  exists x, e. split; [by eapply catcher_stays|done].
Qed.

Lemma done_snoc b i e p : b <= i -> done (Worker b (S i) e p) = done (Worker b i e p) ++ [i].
Proof.
  intros H. unfold done. simpl. rewrite Nat.sub_succ_l by done. rewrite seq_S. do 2 f_equal. lia.
Qed.

Lemma inv_worker_next ps s s' w o : Inv ps s -> worker_step w o s = Some s' -> Inv ps s'.
Proof.
  intros H Hs. unfold worker_step in Hs. destruct (coros s !! w) as [a|] eqn:Ha; [|done].
  assert (Hin : a ∈ coros s) by by eapply list_elem_of_lookup_2.
  destruct (inv_workers _ _ H a Hin) as [Hr Hpc]. destruct a as [b i e [|x|]]; simpl in *; [|injection Hs as <-|done].
  - destruct (i =? e) eqn:Ei; [injection Hs as <-|destruct o as [x|]; injection Hs as <-].
    + apply Nat.eqb_eq in Ei. eapply inv_worker; try done; simpl; try (intros ?; by eapply inv_first).
      * split; simpl; [done|by left].
      * by eapply thrown_kept.
    + apply Nat.eqb_neq in Ei. eapply inv_worker; try done; simpl.
      * intros y Hy. apply elem_of_app. by left.
      * split; simpl; [done|]. apply elem_of_app. right. by left.
      * intros y Hy. apply elem_of_app. left. by eapply inv_first.
      * intros _. right. exists (Worker b i e (WCatch x)), x. split; [|done]. apply list_elem_of_lookup. exists w.
        by rewrite list_lookup_insert_eq by eauto using lookup_lt_Some.
    + apply Nat.eqb_neq in Ei. eapply inv_worker; try done; simpl; try (intros ?; by eapply inv_first).
      * split; simpl; [lia|done].
      * rewrite (done_snoc b i e WLoop) by lia. solve_Permutation.
      * by eapply thrown_kept.
  - eapply inv_worker; try done; simpl.
    + unfold handleError. by destruct (firstError s).
    + split; simpl; [done|]. right. unfold handleError. by destruct (firstError s).
    + intros y. unfold handleError. destruct (firstError s) eqn:E; [|by intros [= ->]].
      intros [= ->]. by eapply inv_first.
    + intros _. left. unfold handleError. by destruct (firstError s).
Qed.

Lemma foreach_inv ps s :
  pieces maxParallelity size = Ret ps -> reachable next (init maxParallelity size) s -> Inv ps s.
Proof.
  intros Hp. apply (invariant_reachable next (Inv ps)); [|by apply pieces_inv].
  intros [|w o] s1 s2 H Hs; [|eapply inv_worker_next; [exact H|exact Hs]].
  eapply inv_main_next; [|done..]. apply (pieces_exact _ _ _ Hp).
Qed.

Lemma crash_stays e s :
  pieces maxParallelity size = Crash e -> reachable next (init maxParallelity size) s ->
  s = init maxParallelity size.
Proof.
  intros Hp. apply (invariant_reachable next (fun s => s = init maxParallelity size)); [|done].
  intros l s1 s2 ->. unfold init. rewrite Hp. by destruct l.
Qed.

(** All pieces are done, and none was left early. *)
Lemma all_done ps s :
  Inv ps s -> (forall w, w ∈ coros s -> at_wpc w = WDone) -> firstError s = None ->
  map done (coros s) = map items (map (fun w => (first w, last w)) (coros s)).
Proof.
  intros H Hd Hf. rewrite map_map. apply map_ext_in. intros w Hw%list_elem_of_In.
  destruct (inv_workers _ _ H w Hw) as [Hr Hpc]. rewrite (Hd w Hw) in Hpc.
  destruct Hpc as [He|?]; [|done]. unfold done, items. simpl. by rewrite He.
Qed.

Lemma share_count ps s : Inv ps s -> length (coros s) <= length ps.
Proof.
  intros H. pose proof (inv_main _ _ H) as Hm. unfold main_ok in Hm.
  rewrite <- (length_map (fun w => (first w, last w)) (coros s)).
  destruct (main s); [rewrite <- Hm, length_app; lia|destruct Hm as [-> _]; done..].
Qed.

(** ** Termination *)

Definition worker_work (w : worker) : nat :=
  match at_wpc w with WLoop => last w - itr w + 2 | WCatch _ => 1 | WDone => 0 end.
Definition main_work (n : nat) (m : mpc) : nat :=
  match m with
  | MCreate todo => sum_list_with (fun p => p.2 - p.1 + 3) todo + n + 3
  | MAwait k => n - k + 2
  | MCheck => 1
  | MReturned _ => 0
  end.
Definition work (n : nat) s : nat := sum_list_with worker_work (coros s) + main_work n (main s).

Lemma work_next ps l s s' :
  Forall (fun p => p.1 <= p.2) ps -> Inv ps s -> next l s = Some s' ->
  Inv ps s' /\ work (length ps) s' < work (length ps) s.
Proof.
  intros Hps H Hs. destruct l as [|w o]; simpl in Hs.
  - split; [by eapply inv_main_next|]. pose proof (share_count _ _ H) as Hc. pose proof (inv_main _ _ H) as Hm.
    unfold main_step, main_ok, work in *. destruct (main s) as [[|[b e] todo]|k| |o] eqn:Em; try done.
    + injection Hs as <-. simpl. lia.
    + injection Hs as <-. simpl. rewrite sum_list_with_app. simpl. unfold worker_work at 2. simpl. lia.
    + destruct (coros s !! k) as [[f i l []]|] eqn:Ek; try done; injection Hs as <-; simpl; [|lia].
      apply lookup_lt_Some in Ek. lia.
    + injection Hs as <-. simpl. lia.
  - split; [by eapply inv_worker_next|]. unfold worker_step, work in *.
    destruct (coros s !! w) as [a|] eqn:Ha; [|done].
    assert (Hin : a ∈ coros s) by by eapply list_elem_of_lookup_2.
    destruct (inv_workers _ _ H a Hin) as [Hr _].
    assert (Hdec : forall b fe pr th, worker_work b < worker_work a ->
      sum_list_with worker_work (<[w := b]> (coros s)) + main_work (length ps) (main s) <
      sum_list_with worker_work (coros s) + main_work (length ps) (main (St (coros s) (main s) fe pr th))).
    { intros b fe pr th Hlt. pose proof (sum_insert worker_work _ _ _ b Ha). simpl. lia. }
    destruct a as [b i e [|x|]]; simpl in *; [|injection Hs as <-|done].
    + destruct (i =? e) eqn:Ei; [|apply Nat.eqb_neq in Ei; destruct o as [x|]]; injection Hs as <-;
        apply (Hdec _ None [] []); unfold worker_work; simpl; lia.
    + apply (Hdec _ None [] []). unfold worker_work; simpl; lia.
Qed.
End invariant.
End Parallel.

(** ** What [forEach] guarantees *)

Import Parallel.

(** C24: [forEach], in every interleaving of its coroutines and whatever [func]
    throws: at most [maxParallelity] coroutines run; if [forEach] returns, [func] has
    returned on every element exactly once and has never thrown; if it throws, it
    is one of the exceptions that [func] has thrown; and it fails only where
    the cut divides by zero. *)
Theorem forEach_result maxParallelity size s :
  reachable next (init maxParallelity size) s ->
  length (coros s) <= maxParallelity /\
  forall o, main s = MReturned o ->
    match o with
    | Ret _ => processed s ≡ₚ seq 0 size /\ thrown s = []
    | Throw e => e ∈ thrown s
    | Crash e => e = DivByZero /\ (maxParallelity = 0 \/ size = 0)
    end.
Proof.
  intros Hr. pose proof (pieces_cover maxParallelity size) as Hc.
  destruct (pieces maxParallelity size) as [ps|e|e] eqn:Hp; [|done|].
  - pose proof (foreach_inv _ _ _ _ Hp Hr) as H. destruct (pieces_exact _ _ _ Hp) as (Hcov & Hl & _).
    split; [pose proof (share_count _ _ H); lia|]. intros o Ho.
    pose proof (inv_main _ _ H) as Hm. unfold main_ok in Hm. rewrite Ho in Hm.
    destruct Hm as (Hsh & Hd & ->). destruct (firstError s) as [e|] eqn:Ef; [by eapply inv_first|]. split.
    + rewrite (inv_processed _ _ H), (all_done ps) by done. by rewrite Hsh, Hcov.
    + destruct (decide (thrown s = [])) as [|Hn]; [done|].
      destruct (inv_thrown _ _ H Hn) as [?|(w & e & Hw & He)]; [done|]. rewrite (Hd w Hw) in He. done.
  - rewrite (crash_stays _ _ _ _ Hp Hr). unfold init. rewrite Hp. simpl. split; [lia|]. by intros o [= <-].
Qed.

(** C26: [forEach] ends: whatever [func] throws and however the coroutines are
    scheduled, nothing more can happen after [size + 4*min(maxParallelity, size) + 3]
    steps, and as long as it has not returned, it or one of its coroutines has a
    step to make. *)
Theorem forEach_ends maxParallelity size s ls :
  run next ls (init maxParallelity size) = Some s ->
  length ls <= size + 4 * Nat.min maxParallelity size + 3 /\
  ((forall o, main s <> MReturned o) -> exists l s', next l s = Some s').
Proof.
  intros Hrun. assert (Hr : reachable next (init maxParallelity size) s) by by exists ls.
  pose proof (pieces_cover maxParallelity size) as Hc.
  destruct (pieces maxParallelity size) as [ps|e|e] eqn:Hp; [|done|].
  - destruct (pieces_exact _ _ _ Hp) as (Hcov & Hl & _ & Hle).
    pose proof (foreach_inv _ _ _ _ Hp Hr) as H. split.
    + pose proof (work_bounds next (fun _ => True) (work (length ps)) (Inv ps)
        (fun l s s' H _ => work_next ps l s s' Hle H) ls _ s (pieces_inv _ _ _ Hp)
        (proj2 (Forall_forall _ _) (fun _ _ => I)) Hrun) as Hw.
      assert (E : work (length ps) (init maxParallelity size) = size + 4 * length ps + 3); [|lia].
      unfold work, init. rewrite Hp. simpl.
      assert (Hsum : sum_list_with (fun p => p.2 - p.1 + 3) ps = length (concat (map items ps)) + 3 * length ps).
      { clear. induction ps as [|p ps IH]; simpl; [done|]. rewrite length_app, IH. unfold items at 2.
        rewrite length_seq. lia. }
      rewrite Hsum, Hcov, length_seq. lia.
    + intros Hm. pose proof (inv_main _ _ H) as Hmo. unfold main_ok in Hmo.
      destruct (main s) as [[|[b e] todo]|k| |o] eqn:Em; [..|by destruct (Hm o)];
        try (exists LMain; simpl; unfold main_step; rewrite Em; by eexists).
      destruct (coros s !! k) as [[b i e [|x|]]|] eqn:Ek.
      * exists (LWorker k None). simpl. unfold worker_step. rewrite Ek. by destruct (i =? e); eexists.
      * exists (LWorker k None). simpl. unfold worker_step. rewrite Ek. by eexists.
      * exists LMain. simpl. unfold main_step. rewrite Em, Ek. by eexists.
      * exists LMain. simpl. unfold main_step. rewrite Em, Ek. by eexists.
  - pose proof (crash_stays _ _ _ _ Hp Hr) as ->. destruct ls as [|l ls].
    + split; [simpl; lia|]. intros Hm. unfold init in Hm. rewrite Hp in Hm. by destruct (Hm (Crash e)).
    + exfalso. simpl in Hrun. unfold init in Hrun. rewrite Hp in Hrun. by destruct l.
Qed.

(** ** An example *)

Module Sample.
(** Two coroutines over five elements; [func] throws on the last one. *)
Definition script : list label :=
  [LMain; LWorker 0 None; LMain; LWorker 1 None; LMain; LWorker 0 None; LWorker 1 (Some (user_exn 7));
   LWorker 1 None; LWorker 0 None; LWorker 0 None; LMain; LMain; LMain; LMain].
Definition final : state := default (init 2 5) (run next script (init 2 5)).
End Sample.

Lemma forEach_result_witness :
  main Sample.final = MReturned (Throw (user_exn 7)) /\
  (length (coros Sample.final) <= 2 /\ user_exn 7 ∈ thrown Sample.final).
Proof.
  split; [vm_compute; reflexivity|].
  assert (Hr : reachable next (init 2 5) Sample.final) by (exists Sample.script; vm_compute; reflexivity).
  split; [apply (forEach_result 2 5 Sample.final Hr)|].
  apply (proj2 (forEach_result 2 5 Sample.final Hr) (Throw (user_exn 7))). vm_compute. reflexivity.
Defined.

Lemma forEach_ends_witness :
  length Sample.script <= 16 /\
  ((forall o, main Sample.final <> MReturned o) -> exists l s', next l Sample.final = Some s').
Proof. apply (forEach_ends 2 5 Sample.final Sample.script). vm_compute. reflexivity. Defined.
