(* ===== verification/ForEachInput.v ===== *)
(** * [foreach.hpp]: [forEach] over an input range

    The elements go through a channel to [maxParallelity] coroutines that share
    its receiver. The channel is the queue of [Channel.v]; a [BufferedChannel]
    implements it (see [BufferedRefine.v]). The receiver is closed when the
    caller and all coroutines have released their [shared_ptr] to it, the
    callable of a coroutine being destroyed when the coroutine ends. *)

From S2P Require Import Prelude Channel ForEach.

Section input.
Context {T : Type}.

(** A coroutine: the loop [for (auto&& itm : *receiver) func(itm);] *)
Inductive wpc : Type :=
  | WPop               (** before [pop()] *)
  | WFunc (v : T)      (** before [func(itm)] *)
  | WCatch (e : exn)   (** in [catch (...)] *)
  | WRelease           (** before [receiver] is released *)
  | WDone.

Inductive mpc : Type :=
  | MCreate (n : nat)          (** coroutines to be constructed *)
  | MDrop                      (** [chan.receiver = nullptr] *)
  | MPush (rest : list T)      (** the loop over [r] *)
  | MPushed (rest : list T)    (** ... in [push], the value being in the channel *)
  | MClose                     (** end of the block: [chan.sender] is released *)
  | MAwait (k : nat)
  | MCheck
  | MReturned (o : outcome unit).

Record state : Type := St {
  channel : Fifo.fifo T;
  receivers : nat;             (** [use_count()] of [receiver] *)
  coros : list wpc;
  main : mpc;
  firstError : option exn;
  processed : list T;          (** history: elements on which [func] has returned *)
  failed : list (T * exn);     (** ... and has thrown *)
}.

(** [makeBufferedChannel(maxParallelity)] asserts that its size is not 0. *)
Definition init (maxParallelity : nat) : state :=
  St Fifo.start 1 []
    (if maxParallelity =? 0 then MReturned (Crash AssertFailed) else MCreate maxParallelity) None [] [].

Inductive label : Type :=
  | LMain (pushed : bool)                (** [pushed]: what [push] returns *)
  | LWorker (w : nat) (o : option exn).

Section steps.
Context (r : list T) (maxQueueSize : nat).   (* the range, and the size of the channel *)
Implicit Types (s : state).

Definition put_main (m : mpc) s : state :=
  St (channel s) (receivers s) (coros s) m (firstError s) (processed s) (failed s).
Definition put_channel (q : Fifo.fifo T) s : state :=
  St q (receivers s) (coros s) (main s) (firstError s) (processed s) (failed s).
Definition put_coro (w : nat) (p : wpc) s : state :=
  St (channel s) (receivers s) (<[w := p]> (coros s)) (main s) (firstError s) (processed s) (failed s).

Definition close_receiver s : state :=
  match Fifo.act Fifo.CloseReceiver (channel s) with Some q => put_channel q s | None => s end.

(** A [shared_ptr] to the receiver is released; the last one closes it. *)
Definition release s : state :=
  let s := St (channel s) (receivers s - 1) (coros s) (main s) (firstError s) (processed s) (failed s) in
  if receivers s =? 0 then close_receiver s else s.

(** [if (!push(itm)) { assert(firstError); break; }] *)
Definition refused s : state :=
  match firstError s with
  | Some _ => put_main MClose s
  | None => put_main (MReturned (Crash AssertFailed)) s
  end.

(** [push] returns true only when less than [maxQueueSize] values wait in the
    channel, this one included, or the receivers are closed, and false only when
    the receivers are closed; else it waits. *)
Definition main_step (pushed : bool) s : option state :=
  match main s with
  | MCreate (S n) =>
      Some (St (channel s) (S (receivers s)) (coros s ++ [WPop]) (MCreate n) (firstError s) (processed s) (failed s))
  | MCreate 0 => Some (put_main MDrop s)
  | MDrop => Some (put_main (MPush r) (release s))
  | MPush [] => Some (put_main MClose s)
  | MPush (v :: rest) =>
      match Fifo.act (Fifo.Put v) (channel s) with
      | Some q => Some (put_main (MPushed rest) (put_channel q s))
      | None => Some (refused s)
      end
  | MPushed rest =>
      if pushed
      then if Fifo.receiver_closed (channel s) || (length (Fifo.waiting (channel s)) <? maxQueueSize)
           then Some (put_main (MPush rest) s) else None
      else if Fifo.receiver_closed (channel s) then Some (refused s) else None
  | MClose =>
      match Fifo.act Fifo.CloseSender (channel s) with
      | Some q => Some (put_main (MAwait 0) (put_channel q s))
      | None => Some (put_main (MReturned (Crash AssertFailed)) s)
      end
  | MAwait k =>
      match coros s !! k with
      | None => Some (put_main MCheck s)
      | Some WDone => Some (put_main (MAwait (S k)) s)
      | Some _ => None
      end
  | MCheck => Some (put_main (MReturned (match firstError s with Some e => Throw e | None => Ret tt end)) s)
  | MReturned _ => None
  end.

(** [pop] returns the oldest value, or [nullopt] when the senders are closed
    and nothing is left; else it waits. *)
Definition worker_step (w : nat) (o : option exn) s : option state :=
  match coros s !! w with
  | None | Some WDone => None
  | Some WPop =>
      match Fifo.waiting (channel s) with
      | v :: _ =>
          match Fifo.act Fifo.Give (channel s) with
          | Some q => Some (put_coro w (WFunc v) (put_channel q s))
          | None => None
          end
      | [] => if Fifo.sender_closed (channel s) then Some (put_coro w WRelease s) else None
      end
  | Some (WFunc v) =>
      match o with
      | None => Some (put_coro w WPop
          (St (channel s) (receivers s) (coros s) (main s) (firstError s) (processed s ++ [v]) (failed s)))
      | Some e => Some (put_coro w (WCatch e)
          (St (channel s) (receivers s) (coros s) (main s) (firstError s) (processed s) (failed s ++ [(v, e)])))
      end
  | Some (WCatch e) =>
      Some (put_coro w WRelease
        (St (channel s) (receivers s) (coros s) (main s) (handleError e (firstError s)) (processed s) (failed s)))
  | Some WRelease => Some (put_coro w WDone (release s))
  end.

Definition next (l : label) s : option state :=
  match l with LMain b => main_step b s | LWorker w o => worker_step w o s end.
End steps.

(** ** The invariant *)

Section invariant.
Context (r : list T) (n : nat) (Hn : 0 < n).
Implicit Types (s : state) (p : wpc).

Definition alive p : nat := match p with WDone => 0 | _ => 1 end.
Definition holding p : list T := match p with WFunc v => [v] | _ => [] end.
Definition main_holds (m : mpc) : nat := match m with MCreate _ | MDrop => 1 | _ => 0 end.
Definition sending (m : mpc) : bool :=
  match m with MCreate _ | MDrop | MPush _ | MPushed _ | MClose => true | _ => false end.

Definition drained (q : Fifo.fifo T) : Prop := Fifo.sender_closed q = true /\ Fifo.waiting q = [].

Definition coro_ok s p : Prop :=
  match p with
  | WCatch e => e ∈ map snd (failed s)
  | WRelease | WDone => firstError s <> None \/ drained (channel s)
  | _ => True
  end.

(** The range is in the channel, unless a coroutine has failed. *)
Definition all_put s : Prop :=
  length (coros s) = n /\ (Fifo.put (channel s) = r \/ firstError s <> None).

Definition main_ok s : Prop :=
  match main s with
  | MCreate k => Fifo.put (channel s) = [] /\ length (coros s) + k = n
  | MDrop => Fifo.put (channel s) = [] /\ length (coros s) = n
  | MPush rest | MPushed rest => Fifo.put (channel s) ++ rest = r /\ length (coros s) = n
  | MClose => all_put s
  | MAwait k => all_put s /\ forall i p, i < k -> coros s !! i = Some p -> p = WDone
  | MCheck => all_put s /\ forall p, p ∈ coros s -> p = WDone
  | MReturned o => all_put s /\ (forall p, p ∈ coros s -> p = WDone) /\
                   o = match firstError s with Some e => Throw e | None => Ret tt end
  end.

Record Inv s : Prop := {
  inv_order : Fifo.in_order (channel s);
  inv_count : receivers s = main_holds (main s) + sum_list_with alive (coros s);
  inv_closed : Fifo.receiver_closed (channel s) = (receivers s =? 0);
  inv_sender : Fifo.sender_closed (channel s) = negb (sending (main s));
  inv_main : main_ok s;
  inv_coros p : p ∈ coros s -> coro_ok s p;
  inv_given : Fifo.given (channel s) ≡ₚ processed s ++ map fst (failed s) ++ concat (map holding (coros s));
  inv_first e : firstError s = Some e -> e ∈ map snd (failed s);
  inv_failed : failed s <> [] -> firstError s <> None \/ exists e, WCatch e ∈ coros s;
}.

Lemma foreach_input_init : Inv (init n).
Proof.
  unfold init. rewrite (proj2 (Nat.eqb_neq n 0)) by lia. split; simpl; try done.
  by intros p ?%elem_of_nil.
Qed.

(** What a step leaves to the coroutines that do not make it. *)
Record later s s' : Prop := {
  la_failed e : e ∈ map snd (failed s) -> e ∈ map snd (failed s');
  la_first : firstError s <> None -> firstError s' <> None;
  la_drained : drained (channel s) -> drained (channel s');
}.

Lemma coro_later s s' p : later s s' -> coro_ok s p -> coro_ok s' p.
Proof. intros [H1 H2 H3]. destruct p; simpl; intuition. Qed.

(** Coroutine [w] goes from [a] to [b]. *)
Lemma inv_coro s s' w a b :
  Inv s -> later s s' -> coros s !! w = Some a -> a <> WDone -> coros s' = <[w := b]> (coros s) ->
  main s' = main s -> coro_ok s' b ->
  Fifo.in_order (channel s') -> Fifo.put (channel s') = Fifo.put (channel s) ->
  Fifo.sender_closed (channel s') = Fifo.sender_closed (channel s) ->
  receivers s' + alive a = receivers s + alive b ->
  Fifo.receiver_closed (channel s') = (receivers s' =? 0) ->
  Fifo.given (channel s') ++ holding a ++ processed s ++ map fst (failed s) ≡ₚ
    Fifo.given (channel s) ++ holding b ++ processed s' ++ map fst (failed s') ->
  (forall e, firstError s' = Some e -> e ∈ map snd (failed s')) ->
  (failed s' <> [] -> firstError s' <> None \/ exists e, WCatch e ∈ coros s') ->
  Inv s'.
Proof.
  intros [H1 H2 H3 H4 H5 H6 H7 H8 H9] L Ha Hnd Hc Hm Hb Ho Hp Hsc Hrc Hcl Hg Hfe Hfa.
  assert (Hlen : length (coros s') = length (coros s)) by by rewrite Hc, length_insert.
  assert (Hall : all_put s -> all_put s').
  { unfold all_put. rewrite Hlen, Hp. intros [? [?|?]]; (split; [done|]); [by left|right; by apply (la_first _ _ L)]. }
  assert (Hna : forall P : Prop, (forall p, p ∈ coros s -> p = WDone) -> P).
  { intros P Hd. destruct Hnd. apply Hd. by eapply list_elem_of_lookup_2. }
  split; try done.
  - rewrite Hm, Hc. pose proof (sum_insert alive _ _ _ b Ha). lia.
  - by rewrite Hsc, H4, Hm.
  - unfold main_ok in *. rewrite Hm, Hp, Hlen. destruct (main s); try done; auto.
    + destruct H5 as [? Hk]. split; [auto|]. intros i p Hi Hx. rewrite Hc in Hx.
      destruct (decide (i = w)) as [->|Hne]; [destruct Hnd; by apply (Hk w a)|].
      rewrite list_lookup_insert_ne in Hx by done. eauto.
    + destruct H5 as [? Hd]. by apply Hna.
    + destruct H5 as (? & Hd & _). by apply Hna.
  - intros p Hx. rewrite Hc in Hx. destruct (insert_elem _ _ _ _ _ Ha Hx) as [->|Hx']; [done|].
    by eapply coro_later; [|apply H6].
  - pose proof (concat_insert holding _ _ _ b Ha) as Hh. rewrite <- Hc in Hh.
    apply (Permutation_app_inv_r (holding a)). apply (Permutation_app_inv_l (processed s ++ map fst (failed s))).
    transitivity (Fifo.given (channel s) ++ holding b ++ processed s' ++ map fst (failed s')).
    { rewrite <- Hg. solve_Permutation. }
    rewrite H7. transitivity ((processed s ++ map fst (failed s)) ++ (processed s' ++ map fst (failed s')) ++
      (concat (map holding (coros s)) ++ holding b)); [solve_Permutation|]. rewrite <- Hh. solve_Permutation.
Qed.

(** What [release] does while somebody has the receiver. *)
Definition released s : Fifo.fifo T :=
  Fifo.MkFifo (Fifo.put (channel s)) (Fifo.given (channel s)) (Fifo.sender_closed (channel s))
    (receivers s - 1 =? 0).

Lemma release_spec s :
  Inv s -> 0 < receivers s ->
  release s = St (released s) (receivers s - 1) (coros s) (main s) (firstError s) (processed s) (failed s).
Proof.
  intros H Hpos. unfold release, released. simpl. pose proof (inv_closed _ H) as Hc.
  rewrite (proj2 (Nat.eqb_neq (receivers s) 0)) in Hc by lia.
  destruct (receivers s - 1 =? 0) eqn:E.
  - unfold close_receiver. simpl. by rewrite Hc.
  - destruct s as [q k cs m fe pr fa]. simpl in *. f_equal. destruct q; simpl in *. by rewrite Hc.
Qed.

Lemma give_inv (q q' : Fifo.fifo T) v w :
  Fifo.waiting q = v :: w -> Fifo.act Fifo.Give q = Some q' ->
  q' = Fifo.MkFifo (Fifo.put q) (Fifo.given q ++ [v]) (Fifo.sender_closed q) (Fifo.receiver_closed q).
Proof. intros Hw Ha. simpl in Ha. rewrite Hw in Ha. destruct (Fifo.receiver_closed q); by simplify_eq. Qed.

Lemma later_refl s s' :
  failed s' = failed s -> firstError s' = firstError s -> channel s' = channel s -> later s s'.
Proof. intros H1 H2 H3. split; by rewrite ?H1, ?H2, ?H3. Qed.

Lemma failed_kept s w a b :
  Inv s -> coros s !! w = Some a -> (forall e, a <> WCatch e) -> failed s <> [] ->
  firstError s <> None \/ exists e, WCatch e ∈ <[w := b]> (coros s).
Proof.
  intros H Ha Hnc Hf. destruct (inv_failed _ H Hf) as [?|[e He]]; [by left|right]. exists e.
  apply list_elem_of_lookup in He as [i Hi]. apply list_elem_of_lookup. exists i.
  rewrite list_lookup_insert_ne; [done|]. intros ->. congruence.
Qed.

Lemma coro_alive s w a : Inv s -> coros s !! w = Some a -> a <> WDone -> 0 < receivers s.
Proof.
  intros H Ha Hnd. rewrite (inv_count _ H). pose proof (sum_lookup_le alive _ _ _ Ha). destruct a; simpl in *; try lia. done.
Qed.

Lemma input_worker_next s s' w o : Inv s -> worker_step w o s = Some s' -> Inv s'.
Proof.
  intros H Hs. unfold worker_step in Hs. destruct (coros s !! w) as [a|] eqn:Ha; [|done].
  pose proof (inv_coros _ H a (list_elem_of_lookup_2 _ _ _ Ha)) as Hok.
  destruct a as [|v|e| |]; [| | | |done].
  - destruct (Fifo.waiting (channel s)) as [|v q] eqn:Ew.
    + destruct (Fifo.sender_closed (channel s)) eqn:Esc; [|done]. injection Hs as <-.
      eapply (inv_coro s _ w WPop WRelease); simpl; try done; try apply H; [by right|].
      by eapply failed_kept.
    + destruct (Fifo.act Fifo.Give (channel s)) as [q'|] eqn:Eg; [|done]. injection Hs as <-.
      pose proof (Fifo.act_in_order _ _ _ (inv_order _ H) Eg) as Ho.
      rewrite (give_inv _ _ _ _ Ew Eg) in *.
      eapply (inv_coro s _ w WPop (WFunc v)); simpl; try done; try apply H.
      * split; simpl; try done. intros [_ Hw]. congruence.
      * solve_Permutation.
      * by eapply failed_kept.
  - destruct o as [e|]; injection Hs as <-.
    + eapply (inv_coro s _ w (WFunc v) (WCatch e)); simpl; try done; try apply H.
      * split; simpl; try done. intros x Hx. rewrite map_app. apply elem_of_app. by left.
      * rewrite map_app. apply elem_of_app. right. by left.
      * rewrite map_app. simpl. solve_Permutation.
      * intros x Hx. rewrite map_app. apply elem_of_app. left. by eapply inv_first.
      * intros _. right. exists e. apply list_elem_of_lookup. exists w.
        by rewrite list_lookup_insert_eq by eauto using lookup_lt_Some.
    + eapply (inv_coro s _ w (WFunc v) WPop); simpl; try done; try apply H.
      * solve_Permutation.
      * by eapply failed_kept.
  - injection Hs as <-. simpl in Hok.
    assert (Hne : handleError e (firstError s) <> None) by (unfold handleError; by destruct (firstError s)).
    eapply (inv_coro s _ w (WCatch e) WRelease); simpl; try done; try apply H; [by left| |by left].
    intros x. unfold handleError. destruct (firstError s) eqn:E; intros [= <-]; [by eapply inv_first|done].
  - injection Hs as <-. pose proof (coro_alive _ _ _ H Ha ltac:(done)) as Hpos. rewrite release_spec by done.
    eapply (inv_coro s _ w WRelease WDone); simpl; try done; try apply H; [lia|].
    by eapply failed_kept.
Qed.

(** The caller moves on, and the coroutines stay as they are. *)
Lemma inv_main_move s q k m :
  Inv s -> Fifo.in_order q -> Fifo.given q = Fifo.given (channel s) ->
  (drained (channel s) -> drained q) ->
  k = main_holds m + sum_list_with alive (coros s) -> Fifo.receiver_closed q = (k =? 0) ->
  Fifo.sender_closed q = negb (sending m) ->
  main_ok (St q k (coros s) m (firstError s) (processed s) (failed s)) ->
  Inv (St q k (coros s) m (firstError s) (processed s) (failed s)).
Proof.
  intros [H1 H2 H3 H4 H5 H6 H7 H8 H9] Ho Hg Hd Hk Hc Hs Hm. split; simpl; try done.
  - intros p Hp. eapply coro_later; [|by apply H6]. by split.
  - by rewrite Hg.
Qed.

Lemma put_main_move s m :
  Inv s -> sending m = sending (main s) -> main_holds m = main_holds (main s) ->
  main_ok (put_main m s) -> Inv (put_main m s).
Proof.
  intros H Hs Hh Hm. apply inv_main_move; try done; try apply H.
  - rewrite (inv_count _ H). by rewrite Hh.
  - rewrite (inv_sender _ H). by rewrite Hs.
Qed.

(** When the receivers are gone while the sender is not, a coroutine has failed. *)
Lemma refused_failed s :
  Inv s -> sending (main s) = true -> length (coros s) = n ->
  Fifo.receiver_closed (channel s) = true -> firstError s <> None.
Proof.
  intros H Hs Hl Hc. rewrite (inv_closed _ H) in Hc. apply Nat.eqb_eq in Hc.
  rewrite (inv_count _ H) in Hc. destruct (coros s) as [|p cs] eqn:Ecs; [simpl in Hl; lia|].
  assert (Hp : p ∈ coros s) by (rewrite Ecs; by left). apply (inv_coros _ H) in Hp.
  simpl in Hc. destruct p; simpl in Hc; try lia. destruct Hp as [?|[Hd _]]; [done|].
  rewrite (inv_sender _ H), Hs in Hd. done.
Qed.

Lemma inv_refused s :
  Inv s -> sending (main s) = true -> main_holds (main s) = 0 -> length (coros s) = n ->
  Fifo.receiver_closed (channel s) = true -> Inv (refused s).
Proof.
  intros H Hs Hh Hl Hc. pose proof (refused_failed _ H Hs Hl Hc) as Hf. unfold refused.
  destruct (firstError s) as [e|] eqn:E; [|done]. apply put_main_move; try done.
  - split; [done|]. right. simpl. by rewrite E.
Qed.

Lemma input_main_next s s' b : Inv s -> main_step r n b s = Some s' -> Inv s'.
Proof.
  intros H Hs. pose proof (inv_main _ H) as Hm. pose proof (inv_sender _ H) as Hsc.
  pose proof (inv_count _ H) as Hc. unfold main_step, main_ok in *.
  destruct (main s) as [[|k]| |[|v rest]|rest| |k| |o] eqn:Em; try done; simpl in *.
  - injection Hs as <-. apply put_main_move; rewrite ?Em; try done. destruct Hm. split; [done|]. simpl. lia.
  - injection Hs as <-. destruct Hm as [Hput Hl]. split; simpl; try apply H.
    + rewrite sum_list_with_app. simpl. lia.
    + rewrite (inv_closed _ H). by destruct (receivers s).
    + done.
    + unfold main_ok. simpl. split; [done|]. rewrite length_app. simpl. lia.
    + intros p [Hp|Hp%list_elem_of_singleton]%elem_of_app; [by apply (inv_coros _ H) in Hp; destruct p|by subst].
    + rewrite map_app, concat_app. simpl. rewrite app_nil_r. apply H.
    + intros Hf. destruct (inv_failed _ H Hf) as [?|[e He]]; [by left|right]. exists e. apply elem_of_app. by left.
  - injection Hs as <-. rewrite release_spec by (done || lia). unfold put_main, released. simpl.
    apply (inv_main_move s (Fifo.MkFifo _ _ _ _)); try done; simpl; [apply H|lia|]. split; simpl; [|by destruct Hm].
    destruct Hm as [-> _]. done.
  - injection Hs as <-. apply put_main_move; rewrite ?Em; try done. destruct Hm as [Hp ?].
    split; [done|]. left. by rewrite app_nil_r in Hp.
  - destruct Hm as [Hp Hl]. rewrite Hsc in Hs. simpl in Hs.
    destruct (Fifo.receiver_closed (channel s)) eqn:Erc; injection Hs as <-.
    + by apply inv_refused; rewrite ?Em.
    + apply (inv_main_move s (Fifo.MkFifo _ _ _ _)); try done; simpl.
      * apply (Fifo.act_in_order (Fifo.Put v) (channel s)); [apply H|]. simpl. by rewrite Hsc, Erc.
      * intros [Hd _]. congruence.
      * by rewrite <- (inv_closed _ H).
      * split; [|done]. simpl. by rewrite <- app_assoc.
  - destruct Hm as [Hp Hl]. destruct b; [destruct (_ || _); [injection Hs as <-; by apply put_main_move; rewrite ?Em|done]|].
    destruct (Fifo.receiver_closed (channel s)) eqn:Erc; [|done]. injection Hs as <-.
    by apply inv_refused; rewrite ?Em.
  - rewrite Hsc in Hs. injection Hs as <-. unfold put_main, put_channel. simpl.
    apply (inv_main_move s (Fifo.MkFifo _ _ _ _)); try done; simpl; try apply H.
    + intros [Hd _]. congruence.
    + unfold main_ok. simpl. split; [done|lia].
  - destruct Hm as [Hall Hd]. destruct (coros s !! k) as [p|] eqn:Ek; [destruct p; try done|]; injection Hs as <-;
      apply put_main_move; rewrite ?Em; try done; (split; [done|]); simpl.
    + intros i p Hi Hp. destruct (decide (i = k)) as [->|]; [congruence|]. apply (Hd i); [lia|done].
    + intros p [i Hi]%list_elem_of_lookup. apply (Hd i); [|done].
      apply lookup_ge_None in Ek. apply lookup_lt_Some in Hi. lia.
  - injection Hs as <-. apply put_main_move; rewrite ?Em; try done. by destruct Hm.
Qed.

Lemma foreach_input_inv s : reachable (next r n) (init n) s -> Inv s.
Proof.
  apply (invariant_reachable (next r n) Inv); [|apply foreach_input_init].
  intros [b|w o] s1 s2 H Hs; [eapply input_main_next|eapply input_worker_next]; [exact H|exact Hs|exact H|exact Hs].
Qed.

(** ** Termination *)

Definition coro_work p : nat :=
  match p with WPop => 3 | WFunc _ => 5 | WCatch _ => 4 | WRelease => 2 | WDone => 0 end.
Definition main_work (m : mpc) : nat :=
  match m with
  | MCreate k => 4 * k + 5 * length r + n + 7
  | MDrop => 5 * length r + n + 6
  | MPush rest => 5 * length rest + n + 5
  | MPushed rest => 5 * length rest + n + 6
  | MClose => n + 4
  | MAwait k => n - k + 2
  | MCheck => 1
  | MReturned _ => 0
  end.
Definition queued (q : Fifo.fifo T) : nat := length (Fifo.put q) - length (Fifo.given q).
Definition work s : nat :=
  sum_list_with coro_work (coros s) + main_work (main s) + 3 * queued (channel s).

Lemma refused_work s : main_work (main (refused s)) <= n + 4.
Proof. unfold refused. destruct (firstError s); simpl; lia. Qed.
Lemma refused_rest s : coros (refused s) = coros s /\ channel (refused s) = channel s.
Proof. unfold refused. by destruct (firstError s). Qed.
Lemma queued_waiting q : queued q = length (Fifo.waiting q).
Proof. unfold queued, Fifo.waiting. by rewrite length_drop. Qed.

Lemma main_work_next s s' b : Inv s -> main_step r n b s = Some s' -> work s' < work s.
Proof.
  intros H Hs. pose proof (inv_main _ H) as Hm. pose proof (inv_sender _ H) as Hsc.
  pose proof (inv_count _ H) as Hc.
  unfold main_step, main_ok in *. pose proof (refused_work s) as Hw. destruct (refused_rest s) as [Hr1 Hr2].
  destruct (main s) as [[|k]| |[|v rest]|rest| |k| |o] eqn:Em; try done; simpl in *; unfold work; rewrite Em.
  - injection Hs as <-. simpl. lia.
  - injection Hs as <-. simpl. rewrite sum_list_with_app. simpl. lia.
  - injection Hs as <-. rewrite release_spec by (done || lia). simpl. unfold queued. simpl. lia.
  - injection Hs as <-. simpl. lia.
  - rewrite Hsc in Hs. simpl in Hs. destruct (Fifo.receiver_closed (channel s)); injection Hs as <-.
    + rewrite Hr1, Hr2. simpl. lia.
    + unfold queued. simpl. rewrite length_app. simpl. lia.
  - destruct b; [destruct (_ || _); [injection Hs as <-; simpl; lia|done]|]. destruct (Fifo.receiver_closed (channel s)); [|done].
    injection Hs as <-. rewrite Hr1, Hr2. simpl. lia.
  - rewrite Hsc in Hs. injection Hs as <-. unfold queued. simpl. lia.
  - destruct Hm as [[Hl _] _]. destruct (coros s !! k) as [p|] eqn:Ek; [destruct p; try done|]; injection Hs as <-; simpl; [|lia].
    apply lookup_lt_Some in Ek. lia.
  - injection Hs as <-. simpl. lia.
Qed.

Lemma worker_work_next s s' w o : Inv s -> worker_step w o s = Some s' -> work s' < work s.
Proof.
  intros H Hs. unfold worker_step in Hs. destruct (coros s !! w) as [a|] eqn:Ha; [|done].
  pose proof (fun b => sum_insert coro_work _ _ _ b Ha) as Hsum. unfold work. destruct a as [|v|e| |]; [| | | |done].
  - destruct (Fifo.waiting (channel s)) as [|v q] eqn:Ew.
    + destruct (Fifo.sender_closed (channel s)) eqn:Esc; [|done]. injection Hs as <-.
      specialize (Hsum WRelease). simpl in *. lia.
    + destruct (Fifo.act Fifo.Give (channel s)) as [q'|] eqn:Eg; [|done]. injection Hs as <-.
      pose proof (queued_waiting (channel s)) as Hq. rewrite Ew in Hq.
      rewrite (give_inv _ _ _ _ Ew Eg). specialize (Hsum (WFunc v)). unfold queued in *. simpl in *.
      rewrite length_app. simpl. lia.
  - destruct o as [e|]; injection Hs as <-; simpl; [specialize (Hsum (WCatch e))|specialize (Hsum WPop)]; simpl in *; lia.
  - injection Hs as <-. specialize (Hsum WRelease). simpl in *. lia.
  - injection Hs as <-. rewrite release_spec; [|done|by eapply coro_alive]. specialize (Hsum WDone).
    unfold queued. simpl in *. lia.
Qed.

Lemma input_work_next l s s' : Inv s -> True -> next r n l s = Some s' -> Inv s' /\ work s' < work s.
Proof.
  intros H _ Hs. destruct l as [b|w o].
  - split; [by eapply input_main_next|by eapply main_work_next].
  - split; [by eapply input_worker_next|by eapply worker_work_next].
Qed.

Lemma worker_can_step s w p :
  Inv s -> coros s !! w = Some p -> p <> WDone ->
  Fifo.sender_closed (channel s) = true \/ Fifo.waiting (channel s) <> [] ->
  exists l s', next r n l s = Some s'.
Proof.
  intros H Ek Hd Hq. exists (LWorker w None). simpl. unfold worker_step. rewrite Ek.
  destruct p as [|v|e| |]; [|by eexists..|done].
  pose proof (coro_alive _ _ _ H Ek ltac:(done)) as Hpos.
  assert (Hrc : Fifo.receiver_closed (channel s) = false) by (rewrite (inv_closed _ H); apply Nat.eqb_neq; lia).
  destruct (Fifo.waiting (channel s)) as [|v q] eqn:Ew.
  - destruct Hq as [->|?]; [by eexists|done].
  - unfold Fifo.act. rewrite Hrc, Ew. by eexists.
Qed.

(** A caller that waits in [push] is waited for by a coroutine that can go on. *)
Lemma push_progress s rest :
  Inv s -> main s = MPushed rest -> exists l s', next r n l s = Some s'.
Proof.
  intros H Em. destruct (length (Fifo.waiting (channel s)) <? n) eqn:El.
  { exists (LMain true). simpl. unfold main_step. rewrite Em, El, orb_true_r. by eexists. }
  apply Nat.ltb_ge in El. destruct (Fifo.receiver_closed (channel s)) eqn:Erc.
  { exists (LMain false). simpl. unfold main_step. rewrite Em, Erc. by eexists. }
  pose proof (inv_count _ H) as Hc. rewrite Em in Hc. simpl in Hc.
  pose proof (inv_closed _ H) as Hcl. rewrite Erc in Hcl. symmetry in Hcl. apply Nat.eqb_neq in Hcl.
  destruct (sum_pos_lookup alive (coros s) ltac:(lia)) as (w & p & Hp & Ha).
  apply (worker_can_step s w p H Hp); [by intros ->; simpl in Ha; lia|right].
  intros E. rewrite E in El. simpl in El. lia.
Qed.

Lemma input_progress s :
  Inv s -> (forall o, main s <> MReturned o) -> exists l s', next r n l s = Some s'.
Proof.
  intros H Hno. destruct (main s) as [[|k]| |[|v rest]|rest| |k| |o] eqn:Em; [..|by destruct (Hno o)];
    try (by eapply push_progress);
    try (exists (LMain true); simpl; unfold main_step; rewrite Em; repeat case_match; by eexists).
  destruct (coros s !! k) as [p|] eqn:Ek; [assert (p = WDone \/ p <> WDone) as [->|Hd] by (destruct p; auto)|].
  - exists (LMain true). simpl. unfold main_step. rewrite Em, Ek. by eexists.
  - apply (worker_can_step s k p H Ek Hd). left. by rewrite (inv_sender _ H), Em.
  - exists (LMain true). simpl. unfold main_step. rewrite Em, Ek. by eexists.
Qed.
End invariant.
End input.
Arguments state : clear implicits.
Arguments wpc : clear implicits.
Arguments mpc : clear implicits.

(** ** What [forEach] guarantees *)

Section theorems.
Context {T : Type}.
Implicit Types (s : state T) (r : list T).

Lemma no_coroutines r s : reachable (next r 0) (init 0) s -> s = init 0.
Proof.
  apply (invariant_reachable (next r 0) (fun s => s = init 0)); [|done].
  intros [b|w o] s1 s2 ->; [done|]. by destruct w.
Qed.

(** [forEach] over an input range, in every interleaving of the caller, the
    channel and the coroutines: if it returns, [func] has returned on every
    element exactly once and has never thrown; if it throws, it is one of the
    exceptions that [func] has thrown; the assertion that a refused [push] means
    an error holds; and only [maxParallelity = 0] fails, in [setMaxQueueSize]. *)
Theorem forEach_input_result r n s o :
  reachable (next r n) (init n) s -> main s = MReturned o ->
  match o with
  | Ret _ => processed s ≡ₚ r /\ failed s = []
  | Throw e => e ∈ map snd (failed s)
  | Crash e => e = AssertFailed /\ n = 0
  end.
Proof.
  intros Hr Ho. destruct n as [|n].
  { rewrite (no_coroutines _ _ Hr) in Ho. simpl in Ho. by simplify_eq. }
  pose proof (foreach_input_inv r (S n) ltac:(lia) s Hr) as H.
  pose proof (inv_main _ _ _ H) as Hm. unfold main_ok in Hm. rewrite Ho in Hm.
  destruct Hm as ([Hl Hp] & Hd & ->). destruct (firstError s) as [e|] eqn:Ef; [by eapply inv_first|].
  assert (Hf : failed s = []).
  { destruct (decide (failed s = [])) as [|Hn]; [done|].
    destruct (inv_failed _ _ _ H Hn) as [?|[e He]]; [done|]. by apply Hd in He. }
  split; [|done]. destruct Hp as [Hp|?]; [|done].
  assert (Hh : concat (map holding (coros s)) = []).
  { clear -Hd. induction (coros s) as [|p cs IH]; simpl; [done|]. rewrite IH by (intros q Hq; apply Hd; by right).
    by rewrite (Hd p) by by left. }
  pose proof (inv_given _ _ _ H) as Hg. rewrite Hf, Hh in Hg. simpl in Hg. rewrite app_nil_r in Hg.
  rewrite <- Hg, <- Hp, (inv_order _ _ _ H). destruct (coros s) as [|p cs] eqn:Ecs; [done|].
  assert (Hin : p ∈ coros s) by (rewrite Ecs; by left).
  pose proof (inv_coros _ _ _ H p Hin) as Hpo. rewrite (Hd p) in Hpo by by left.
  destruct Hpo as [?|[_ Hw]]; [done|]. by rewrite Hw, app_nil_r.
Qed.

(** ... and it ends: nothing more can happen after [5*|r| + 6*n + 7] steps,
    and as long as it has not returned some step is possible: the caller and the
    coroutines never wait for each other. *)
Theorem forEach_input_ends r n s ls :
  run (next r n) ls (init n) = Some s ->
  length ls <= 5 * length r + 6 * n + 7 /\
  ((forall o, main s <> MReturned o) -> exists l s', next r n l s = Some s').
Proof.
  intros Hrun. assert (Hr : reachable (next r n) (init n) s) by by exists ls.
  destruct n as [|n].
  - pose proof (no_coroutines _ _ Hr) as ->. destruct ls as [|[b|w o] ls]; simpl in *; [|done|].
    + split; [lia|]. intros Hn. by destruct (Hn (Crash AssertFailed)).
    + by destruct w.
  - pose proof (foreach_input_inv r (S n) ltac:(lia) s Hr) as H. split; [|apply (input_progress r (S n)); first [done|lia]].
    pose proof (work_bounds (next r (S n)) (fun _ => True) (work r (S n)) (Inv r (S n))
      (fun l s s' => input_work_next r (S n) ltac:(lia) l s s') ls _ s (foreach_input_init r (S n) ltac:(lia))
      (proj2 (Forall_forall _ _) (fun _ _ => I)) Hrun) as Hw.
    unfold work at 2 in Hw. simpl in Hw. unfold queued in Hw. simpl in Hw. lia.
Qed.
End theorems.

(** ** An example *)

Module Sample.
(** Two coroutines, three elements, no exception. *)
Definition script : list label :=
  repeat (LMain true) 6 ++ repeat (LWorker 0 None) 2 ++ repeat (LMain true) 3 ++
  repeat (LWorker 1 None) 2 ++ repeat (LMain true) 1 ++ repeat (LWorker 0 None) 2 ++ repeat (LMain true) 2 ++
  repeat (LWorker 0 None) 2 ++ repeat (LWorker 1 None) 2 ++ repeat (LMain true) 4.
Definition final : state nat := default (init 2) (run (next [4; 5; 6] 2) script (init 2)).
End Sample.

Lemma forEach_input_result_witness :
  main Sample.final = MReturned (Ret tt) /\
  (processed Sample.final ≡ₚ [4; 5; 6] /\ failed Sample.final = []).
Proof.
  assert (Ho : main Sample.final = MReturned (Ret tt)) by (vm_compute; reflexivity).
  split; [exact Ho|]. apply (forEach_input_result [4; 5; 6] 2 Sample.final (Ret tt)); [|exact Ho].
  exists Sample.script. vm_compute. reflexivity.
Defined.

Lemma forEach_input_ends_witness :
  length Sample.script <= 34 /\
  ((forall o, main Sample.final <> MReturned o) -> exists l s', next [4; 5; 6] 2 l Sample.final = Some s').
Proof. apply (forEach_input_ends [4; 5; 6] 2 Sample.final Sample.script). vm_compute. reflexivity. Defined.
