(* ===== verification/ForEachChannel.v ===== *)
(** * [foreach.hpp] on [channel.hpp]: [forEach] over an input range, with its channel

    [ForEachInput.v] has [forEach] over an input range with an atomic queue. Here
    the caller and the coroutines are a program that calls the channel's
    operations, for any [LinearChannel]: they keep the contract of the channel,
    every execution is one of [ForEachInput.v], and it ends. So what is proved
    there holds with the interleaved [BufferedChannel] that [forEach] uses. *)

From S2P Require Import Prelude BufferedChannel BufferedPorts Channel Ports ForEach ForEachInput.

(** ** The program

    Thread 0 is the caller, thread [S w] coroutine [w]. *)

Module Prog.
Section prog.
Context {T : Type}.

Inductive wpc : Type :=
  | WPop               (** before [pop()] *)
  | WPopping           (** in it *)
  | WFunc (v : T)
  | WCatch (e : exn)
  | WRelease           (** before [receiver] is released *)
  | WClose             (** it was the last one: before [closeReceiver()] *)
  | WClosing           (** in it *)
  | WDone.

Inductive mpc : Type :=
  | MCreate (n : nat)
  | MDrop                      (** [chan.receiver = nullptr] *)
  | MDropClose                 (** ... before [closeReceiver()], if it was the last one *)
  | MDropClosing
  | MPush (rest : list T)      (** before the next [push] *)
  | MPushing (rest : list T)   (** in it *)
  | MClose                     (** [chan.sender] is released: before [closeSender()] *)
  | MClosing
  | MAwait (k : nat)
  | MCheck
  | MReturned (o : outcome unit).

Record state : Type := St {
  receivers : nat;
  coros : list wpc;
  main : mpc;
  firstError : option exn;
  processed : list T;
  failed : list (T * exn);
}.

Definition init (maxParallelity : nat) : state := St 1 [] (MCreate maxParallelity) None [] [].

Inductive label : Type := LMain | LWorker (w : nat) (o : option exn).

Section steps.
Context (r : list T).
Implicit Types (x : state).

Definition put_main (m : mpc) x : state :=
  St (receivers x) (coros x) m (firstError x) (processed x) (failed x).
Definition put_coro (w : nat) (c : wpc) x : state :=
  St (receivers x) (<[w := c]> (coros x)) (main x) (firstError x) (processed x) (failed x).
Definition drop_receiver x : state :=
  St (receivers x - 1) (coros x) (main x) (firstError x) (processed x) (failed x).

(** [if (!push(itm)) { assert(firstError); break; }] *)
Definition refused x : state :=
  put_main (match firstError x with Some _ => MClose | None => MReturned (Crash AssertFailed) end) x.

Definition main_local x : option state :=
  match main x with
  | MCreate (S n) =>
      Some (St (S (receivers x)) (coros x ++ [WPop]) (MCreate n) (firstError x) (processed x) (failed x))
  | MCreate 0 => Some (put_main MDrop x)
  | MDrop =>
      let x := drop_receiver x in
      Some (put_main (if receivers x =? 0 then MDropClose else MPush r) x)
  | MPush [] => Some (put_main MClose x)
  | MAwait k =>
      match coros x !! k with
      | None => Some (put_main MCheck x)
      | Some WDone => Some (put_main (MAwait (S k)) x)
      | Some _ => None
      end
  | MCheck => Some (put_main (MReturned (match firstError x with Some e => Throw e | None => Ret tt end)) x)
  | _ => None
  end.

Definition worker_local (w : nat) (o : option exn) x : option state :=
  match coros x !! w with
  | Some (WFunc v) =>
      match o with
      | None => Some (put_coro w WPop
          (St (receivers x) (coros x) (main x) (firstError x) (processed x ++ [v]) (failed x)))
      | Some e => Some (put_coro w (WCatch e)
          (St (receivers x) (coros x) (main x) (firstError x) (processed x) (failed x ++ [(v, e)])))
      end
  | Some (WCatch e) =>
      Some (put_coro w WRelease
        (St (receivers x) (coros x) (main x) (handleError e (firstError x)) (processed x) (failed x)))
  | Some WRelease =>
      let x := drop_receiver x in
      Some (put_coro w (if receivers x =? 0 then WClose else WDone) x)
  | _ => None
  end.

Definition wants x (t : nat) : option (Port.kind T) :=
  match t with
  | 0 => match main x with
         | MPush (v :: _) => Some (Port.Push v)
         | MClose => Some Port.CloseSender
         | MDropClose => Some Port.CloseReceiver
         | _ => None
         end
  | S w => match coros x !! w with
           | Some WPop => Some Port.Pop
           | Some WClose => Some Port.CloseReceiver
           | _ => None
           end
  end.

Definition called (t : nat) x : state :=
  match t with
  | 0 => match main x with
         | MPush (_ :: rest) => put_main (MPushing rest) x
         | MClose => put_main MClosing x
         | MDropClose => put_main MDropClosing x
         | _ => x
         end
  | S w => match coros x !! w with
           | Some WPop => put_coro w WPopping x
           | Some WClose => put_coro w WClosing x
           | _ => x
           end
  end.

Definition resume (t : nat) (a : Port.answer T) x : state :=
  match t with
  | 0 => match main x, a with
         | MPushing rest, Port.APush true => put_main (MPush rest) x
         | MPushing _, Port.APush false => refused x
         | MClosing, Port.ADone => put_main (MAwait 0) x
         | MDropClosing, Port.ADone => put_main (MPush r) x
         | _, _ => x
         end
  | S w => match coros x !! w, a with
           | Some WPopping, Port.APop (Some v) => put_coro w (WFunc v) x
           | Some WPopping, Port.APop None => put_coro w WRelease x
           | Some WClosing, Port.ADone => put_coro w WDone x
           | _, _ => x
           end
  end.

Definition local (l : label) x : option state :=
  match l with LMain => main_local x | LWorker w o => worker_local w o x end.

Definition program : Ports.program T state label := Program T state label wants called resume local.
End steps.
End prog.
Arguments wpc : clear implicits.
Arguments mpc : clear implicits.
Arguments state : clear implicits.
End Prog.

(** ** The simulation *)

Section sim.
Context {T : Type} (r : list T) (k : nat).
Abbreviation n := (S k).    (* coroutines, and the size of the channel *)
Implicit Types (x : Prog.state T) (p : Port.ports T) (a : state T).

Inductive main_rel : Prog.mpc T -> Port.phase T -> mpc T -> Prop :=
  | MR_create j : main_rel (Prog.MCreate j) Port.Idle (MCreate j)
  | MR_drop : main_rel Prog.MDrop Port.Idle MDrop
  | MR_push rest : main_rel (Prog.MPush rest) Port.Idle (MPush rest)
  | MR_called v rest : main_rel (Prog.MPushing rest) (Port.Called (Port.Push v)) (MPush (v :: rest))
  | MR_accepted rest : main_rel (Prog.MPushing rest) Port.Accepted (MPushed rest)
  | MR_close : main_rel Prog.MClose Port.Idle MClose
  | MR_close_called : main_rel Prog.MClosing (Port.Called Port.CloseSender) MClose
  | MR_closed : main_rel Prog.MClosing Port.Closed (MAwait 0)
  | MR_await j : main_rel (Prog.MAwait j) Port.Idle (MAwait j)
  | MR_check : main_rel Prog.MCheck Port.Idle MCheck
  | MR_returned o : main_rel (Prog.MReturned o) Port.Idle (MReturned o).

Inductive coro_rel : Prog.wpc T -> Port.phase T -> wpc T -> Prop :=
  | CR_pop : coro_rel Prog.WPop Port.Idle WPop
  | CR_called : coro_rel Prog.WPopping (Port.Called Port.Pop) WPop
  | CR_got v : coro_rel Prog.WPopping (Port.Got v) (WFunc v)
  | CR_func v : coro_rel (Prog.WFunc v) Port.Idle (WFunc v)
  | CR_catch e : coro_rel (Prog.WCatch e) Port.Idle (WCatch e)
  | CR_release : coro_rel Prog.WRelease Port.Idle WRelease
  | CR_close : coro_rel Prog.WClose Port.Idle WRelease
  | CR_closing : coro_rel Prog.WClosing (Port.Called Port.CloseReceiver) WRelease
  | CR_closed : coro_rel Prog.WClosing Port.Closed WDone
  | CR_done : coro_rel Prog.WDone Port.Idle WDone.

(** Who still has the receiver, and who closes it. *)
Definition holds (c : Prog.wpc T) : nat :=
  match c with Prog.WClose | Prog.WClosing | Prog.WDone => 0 | _ => 1 end.
Definition closer (c : Prog.wpc T) : bool :=
  match c with Prog.WClose | Prog.WClosing => true | _ => false end.

Record sim x p a : Prop := {
  si_queue : channel a = Port.queue p;
  si_first : Prog.firstError x = firstError a;
  si_processed : Prog.processed x = processed a;
  si_failed : Prog.failed x = failed a;
  si_length : length (coros a) = length (Prog.coros x);
  si_phases : length (Port.phases p) = S n;
  si_main : exists ph, Port.phases p !! 0 = Some ph /\ main_rel (Prog.main x) ph (main a);
  si_coro w c : Prog.coros x !! w = Some c ->
    exists ph c', Port.phases p !! S w = Some ph /\ coros a !! w = Some c' /\ coro_rel c ph c';
  si_free w : length (Prog.coros x) <= w -> w < n -> Port.phases p !! S w = Some Port.Idle;
  si_receivers : Prog.receivers x = main_holds (main a) + sum_list_with holds (Prog.coros x);
  si_closer w c : Prog.coros x !! w = Some c -> closer c = true -> Prog.receivers x = 0;
  si_one w1 w2 c1 c2 : Prog.coros x !! w1 = Some c1 -> Prog.coros x !! w2 = Some c2 ->
    closer c1 = true -> closer c2 = true -> w1 = w2;
}.

(** What is left to do apart from the steps of [ForEachInput.v]. *)
Definition main_credit (m : Prog.mpc T) : nat :=
  match m with
  | Prog.MPush _ | Prog.MClose => 2
  | Prog.MPushing _ | Prog.MClosing => 1
  | _ => 0
  end.
Definition coro_credit (c : Prog.wpc T) : nat :=
  match c with
  | Prog.WPop | Prog.WClose => 2
  | Prog.WPopping | Prog.WClosing => 1
  | Prog.WRelease => 3
  | _ => 0
  end.
Definition credit x : nat := main_credit (Prog.main x) + sum_list_with coro_credit (Prog.coros x).

(** A step of the program on [Port] is a step of [ForEachInput.v], or not yet one. *)
Definition advances x a x' p' : Prop :=
  sim x' p' a /\ credit x' < credit x \/
  exists l a', next r n l a = Some a' /\ sim x' p' a' /\ credit x' <= credit x + 3.

(** The caller moves. *)
Lemma sim_caller x p a p' a' m ph :
  sim x p a -> Port.phases p' = <[0 := ph]> (Port.phases p) -> main_rel m ph (main a') ->
  channel a' = Port.queue p' -> coros a' = coros a -> firstError a' = firstError a ->
  processed a' = processed a -> failed a' = failed a -> main_holds (main a') = main_holds (main a) ->
  sim (Prog.put_main m x) p' a'.
Proof.
  intros H Hp Hm Hq Hc Hf Hpr Hfa Hh. destruct H. split; simpl; rewrite ?Hc, ?Hf, ?Hpr, ?Hfa, ?Hp, ?Hh; try done.
  - by rewrite length_insert.
  - exists ph. split; [|done]. apply list_lookup_insert_eq. lia.
  - intros w c Hw. destruct (si_coro0 w c Hw) as (ph' & c' & ? & ? & ?). exists ph', c'.
    by rewrite list_lookup_insert_ne.
  - intros w H1 H2. rewrite list_lookup_insert_ne by done. auto.
Qed.

(** Coroutine [w] moves. *)
Lemma sim_worker x p a x' p' a' w c c1 ph c1' :
  sim x p a -> Prog.coros x !! w = Some c -> Prog.coros x' = <[w := c1]> (Prog.coros x) ->
  Port.phases p' = <[S w := ph]> (Port.phases p) -> coros a' = <[w := c1']> (coros a) -> coro_rel c1 ph c1' ->
  channel a' = Port.queue p' -> Prog.main x' = Prog.main x -> main a' = main a ->
  Prog.firstError x' = firstError a' -> Prog.processed x' = processed a' -> Prog.failed x' = failed a' ->
  Prog.receivers x' + holds c = Prog.receivers x + holds c1 -> holds c1 <= holds c ->
  (closer c1 = true -> closer c = true \/ holds c = 1 /\ Prog.receivers x = 1) -> sim x' p' a'.
Proof.
  intros H Hc Hx Hp Ha Hr Hq Hm Hma Hf Hpr Hfa Hrc Hh Hcl. pose proof H as [].
  assert (Hw : w < length (Prog.coros x)) by eauto using lookup_lt_Some.
  assert (Hcase : forall u d, Prog.coros x' !! u = Some d ->
    (u = w /\ d = c1) \/ (u <> w /\ Prog.coros x !! u = Some d)).
  { intros u d Hu. rewrite Hx in Hu. apply list_lookup_insert_Some in Hu as [(-> & -> & _)|[? Hu]]; auto. }
  destruct (si_coro0 w c Hc) as (ph0 & c0 & Hph0 & Hc0 & _).
  assert (Hother : forall u d, u <> w -> Prog.coros x !! u = Some d -> closer d = true ->
    closer c1 = true -> closer c = true).
  { intros u d Hne Hu Hd H1. destruct (Hcl H1) as [|[_ Hone]]; [done|]. rewrite (si_closer0 u d Hu Hd) in Hone. done. }
  split; try done.
  - by rewrite Ha, Hx, !length_insert.
  - by rewrite Hp, length_insert.
  - by rewrite Hp, list_lookup_insert_ne, Hm, Hma by done.
  - intros u d Hu. rewrite Hp, Ha. destruct (Hcase u d Hu) as [[-> ->]|[Hne Hu']].
    + exists ph, c1'. rewrite !list_lookup_insert_eq; [done|lia|by eapply lookup_lt_Some].
    + destruct (si_coro0 u d Hu') as (phu & du & ? & ? & ?). exists phu, du.
      by rewrite !list_lookup_insert_ne by congruence.
  - intros u Hu1 Hu2. rewrite Hx, length_insert in Hu1. rewrite Hp, list_lookup_insert_ne by lia. auto.
  - rewrite Hma, Hx. pose proof (sum_insert holds _ _ _ c1 Hc). lia.
  - intros u d Hu Hd. destruct (Hcase u d Hu) as [[-> ->]|[Hne Hu']].
    + assert (holds c1 = 0) by (by destruct c1). destruct (Hcl Hd) as [Hcc|[? Hone]]; [|lia].
      pose proof (si_closer0 w c Hc Hcc). lia.
    + pose proof (si_closer0 u d Hu' Hd). lia.
  - intros u1 u2 d1 d2 H1 H2 Hd1 Hd2.
    destruct (Hcase u1 d1 H1) as [[-> ->]|[Hn1 H1']], (Hcase u2 d2 H2) as [[-> ->]|[Hn2 H2']]; try done.
    + apply (si_one0 w u2 c d2); eauto.
    + apply (si_one0 u1 w d1 c); eauto.
    + by apply (si_one0 u1 u2 d1 d2).
Qed.

Lemma credit_worker x x' w c c1 :
  Prog.coros x !! w = Some c -> Prog.coros x' = <[w := c1]> (Prog.coros x) -> Prog.main x' = Prog.main x ->
  credit x' + coro_credit c = credit x + coro_credit c1.
Proof. intros Hc Hx Hm. unfold credit. rewrite Hx, Hm. pose proof (sum_insert coro_credit _ _ _ c1 Hc). lia. Qed.

Lemma keep_phase p t ph : Port.phases p !! t = Some ph -> Port.phases p = <[t := ph]> (Port.phases p).
Proof. intros H. by rewrite list_insert_id. Qed.

(** ** Steps of the caller *)

Lemma advance_step x a x' p' l a' :
  next r n l a = Some a' -> sim x' p' a' -> credit x' <= credit x + 3 -> advances x a x' p'.
Proof. intros. right. by exists l, a'. Qed.

(** The caller moves, and [ForEachInput.v] with it. *)
Lemma caller_step x p a p' a' m ph b :
  sim x p a -> Port.phases p' = <[0 := ph]> (Port.phases p) -> main_step r n b a = Some a' ->
  main_rel m ph (main a') -> channel a' = Port.queue p' -> coros a' = coros a -> firstError a' = firstError a ->
  processed a' = processed a -> failed a' = failed a -> main_holds (main a') = main_holds (main a) ->
  main_credit m <= main_credit (Prog.main x) + 3 -> advances x a (Prog.put_main m x) p'.
Proof.
  intros H Hp Hs Hm Hq Hc Hf Hpr Hfa Hh Hcr. eapply (advance_step _ _ _ _ (LMain b)); [exact Hs| |].
  - by eapply sim_caller.
  - unfold credit. simpl. lia.
Qed.

(** ... or not yet. *)
Lemma caller_quiet x p a p' m ph :
  sim x p a -> Port.phases p' = <[0 := ph]> (Port.phases p) -> Port.queue p' = Port.queue p ->
  main_rel m ph (main a) -> main_credit m < main_credit (Prog.main x) -> advances x a (Prog.put_main m x) p'.
Proof.
  intros H Hp Hq Hm Hcr. left. split.
  - eapply sim_caller; try done. rewrite Hq. apply H.
  - unfold credit. simpl. lia.
Qed.

(** Before the caller has pushed, every coroutine has the receiver. *)
Lemma nothing_pushed x p a w c : sim x p a -> Inv r n a -> main a = MDrop -> Prog.coros x !! w = Some c -> holds c = 1.
Proof.
  intros H HI Hm Hc. destruct (si_coro _ _ _ H w c Hc) as (ph & c' & _ & Hc' & Hr).
  pose proof (inv_main _ _ _ HI) as Hmo. unfold main_ok in Hmo. rewrite Hm in Hmo. destruct Hmo as [Hput _].
  pose proof (inv_order _ _ _ HI) as Ho. unfold Fifo.in_order in Ho. rewrite Hput in Ho.
  symmetry in Ho. apply app_nil in Ho as [Hg _]. pose proof (inv_given _ _ _ HI) as Hgi. rewrite Hg in Hgi.
  apply Permutation_nil in Hgi. apply app_nil in Hgi as [_ Hgi]. apply app_nil in Hgi as [Hfa _].
  apply map_eq_nil in Hfa. pose proof (inv_coros _ _ _ HI c' ltac:(by eapply list_elem_of_lookup_2)) as Hok.
  assert (Hfe : firstError a = None).
  { destruct (firstError a) as [e|] eqn:E; [|done]. apply (inv_first _ _ _ HI) in E. rewrite Hfa in E. by apply elem_of_nil in E. }
  assert (Hsc : Fifo.sender_closed (channel a) = false) by (by rewrite (inv_sender _ _ _ HI), Hm).
  destruct Hr; simpl in Hok |- *; try done; destruct Hok as [?|[? _]]; congruence.
Qed.

Lemma sum_holds_all (l : list (Prog.wpc T)) : (forall w c, l !! w = Some c -> holds c = 1) ->
  sum_list_with holds l = length l.
Proof.
  induction l as [|c l IH]; intros H; simpl; [done|]. rewrite (H 0 c) by done. f_equal.
  apply IH. intros w d Hd. by apply (H (S w)).
Qed.

Lemma create_step x p a j :
  sim x p a -> Inv r n a -> Prog.main x = Prog.MCreate (S j) -> main a = MCreate (S j) ->
  Port.phases p !! 0 = Some Port.Idle ->
  advances x a (Prog.St (S (Prog.receivers x)) (Prog.coros x ++ [Prog.WPop]) (Prog.MCreate j) (Prog.firstError x)
    (Prog.processed x) (Prog.failed x)) p.
Proof.
  intros H HI Hx Ha Hph. pose proof (inv_main _ _ _ HI) as Hmo. unfold main_ok in Hmo. rewrite Ha in Hmo.
  destruct Hmo as [_ Hl]. pose proof H as []. rewrite si_length0 in Hl.
  eapply (advance_step _ _ _ _ (LMain true)); [simpl; unfold main_step; by rewrite Ha| |].
  - assert (Hcase : forall u d, (Prog.coros x ++ [Prog.WPop]) !! u = Some d ->
      Prog.coros x !! u = Some d \/ u = length (Prog.coros x) /\ d = Prog.WPop).
    { intros u d [Hu|[Hu1 Hu2]]%lookup_app_Some; [by left|right].
      apply list_lookup_singleton_Some in Hu2 as [? ->]. split; [lia|done]. }
    split; simpl; try done.
    + rewrite !length_app. simpl. lia.
    + exists Port.Idle. split; [done|constructor].
    + intros u d [Hu|[-> ->]]%Hcase.
      * destruct (si_coro0 u d Hu) as (ph & c' & ? & Hc' & ?). exists ph, c'. split_and!; try done.
        by apply lookup_app_l_Some.
      * exists Port.Idle, WPop. split_and!; [apply si_free0; lia| |constructor].
        by rewrite <- si_length0, lookup_app_r, Nat.sub_diag.
    + intros w. rewrite length_app. simpl. intros. apply si_free0; lia.
    + rewrite sum_list_with_app. simpl. rewrite si_receivers0, Ha. simpl. lia.
    + intros u d [Hu|[-> ->]]%Hcase Hd; [|done]. pose proof (si_closer0 u d Hu Hd). rewrite si_receivers0, Ha in *. simpl in *. lia.
    + intros u1 u2 d1 d2 [H1|[-> ->]]%Hcase [H2|[-> ->]]%Hcase Hd1 Hd2; try done. by apply (si_one0 u1 u2 d1 d2).
  - unfold credit. rewrite Hx. simpl. rewrite sum_list_with_app. simpl. lia.
Qed.

Lemma released_open a : Inv r n a -> 1 < receivers a -> released a = channel a.
Proof.
  intros HI H1. unfold released. pose proof (inv_closed _ _ _ HI) as Hc.
  rewrite (proj2 (Nat.eqb_neq (receivers a) 0)) in Hc by lia.
  rewrite (proj2 (Nat.eqb_neq (receivers a - 1) 0)) by lia. rewrite <- Hc. by destruct (channel a).
Qed.

Lemma alive_holds x p a w c : sim x p a -> Prog.coros x !! w = Some c ->
  exists c', coros a !! w = Some c' /\ holds c <= alive c'.
Proof.
  intros H Hc. destruct (si_coro _ _ _ H w c Hc) as (ph & c' & _ & Hc' & Hr). exists c'. split; [done|].
  destruct Hr; simpl; lia.
Qed.

(** Everybody who has the receiver is counted. *)
Lemma receivers_le x p a : sim x p a -> Inv r n a -> Prog.receivers x <= receivers a.
Proof.
  intros H HI. rewrite (inv_count _ _ _ HI), (si_receivers _ _ _ H).
  enough (sum_list_with holds (Prog.coros x) <= sum_list_with alive (coros a)) by lia.
  pose proof (alive_holds x p a) as Hah. pose proof (si_length _ _ _ H) as Hl.
  assert (Hp : forall w c, Prog.coros x !! w = Some c -> exists c', coros a !! w = Some c' /\ holds c <= alive c') by eauto.
  clear -Hp Hl. revert Hp Hl. generalize (coros a) as l'. induction (Prog.coros x) as [|c l IH]; intros l' Hp Hl; simpl; [lia|].
  destruct l' as [|c' l']; [done|]. destruct (Hp 0 c eq_refl) as (d & [= <-] & ?). simpl.
  enough (sum_list_with holds l <= sum_list_with alive l') by lia.
  apply IH; [|simpl in Hl; lia]. intros w e He. by apply (Hp (S w)).
Qed.

Lemma drop_step x p a :
  sim x p a -> Inv r n a -> Prog.main x = Prog.MDrop -> main a = MDrop -> Port.phases p !! 0 = Some Port.Idle ->
  advances x a (Prog.put_main (if Prog.receivers x - 1 =? 0 then Prog.MDropClose else Prog.MPush r) (Prog.drop_receiver x)) p.
Proof.
  intros H HI Hx Ha Hph. pose proof (inv_main _ _ _ HI) as Hmo. unfold main_ok in Hmo. rewrite Ha in Hmo.
  destruct Hmo as [_ Hl]. pose proof (receivers_le _ _ _ H HI) as Hle. pose proof H as [].
  assert (Hr : Prog.receivers x = 1 + n).
  { rewrite si_receivers0, Ha, (sum_holds_all (Prog.coros x)); [simpl; lia|]. intros w c. by eapply nothing_pushed. }
  rewrite (proj2 (Nat.eqb_neq _ 0)) by lia.
  eapply (advance_step _ _ _ _ (LMain true)); [simpl; unfold main_step; by rewrite Ha| |unfold credit; rewrite Hx; simpl; lia].
  rewrite (release_spec r n (Nat.lt_0_succ k) a HI) by lia. rewrite (released_open a HI) by lia. split; simpl; try done.
  - exists Port.Idle. split; [done|constructor].
  - rewrite si_receivers0, Ha. simpl. lia.
  - intros w c Hw Hc. pose proof (si_closer0 w c Hw Hc). lia.
Qed.

Lemma main_local_advances x p a x' :
  sim x p a -> Inv r n a -> Prog.main_local r x = Some x' -> advances x a x' p.
Proof.
  intros H HI Hs. destruct (si_main _ _ _ H) as (ph & Hph & Hm). unfold Prog.main_local in Hs.
  inversion Hm as [j Hx Hp Ha|Hx Hp Ha|rest Hx Hp Ha|v rest Hx Hp Ha|rest Hx Hp Ha|Hx Hp Ha|Hx Hp Ha|Hx Hp Ha
    |j Hx Hp Ha|Hx Hp Ha|o Hx Hp Ha]; rewrite <- Hx in Hs; try done; subst ph; pose proof (keep_phase _ _ _ Hph) as Hkeep.
  - destruct j as [|j]; injection Hs as <-; [|by apply create_step].
    eapply (caller_step _ _ _ _ (put_main MDrop a) _ _ true); try done; [unfold main_step; by rewrite <- Ha|simpl; constructor|apply H|
      by rewrite <- Ha|rewrite <- Hx; simpl; lia].
  - injection Hs as <-. by apply drop_step.
  - destruct rest as [|v rest]; [|done]. injection Hs as <-.
    eapply (caller_step _ _ _ _ (put_main MClose a) _ _ true); try done; [unfold main_step; by rewrite <- Ha|simpl; constructor|apply H|
      by rewrite <- Ha|rewrite <- Hx; simpl; lia].
  - destruct (Prog.coros x !! j) as [c|] eqn:Ec.
    + destruct c; try done. injection Hs as <-. destruct (si_coro _ _ _ H j _ Ec) as (phj & c' & _ & Hc' & Hr).
      inversion Hr; subst.
      eapply (caller_step _ _ _ _ (put_main (MAwait (S j)) a) _ _ true); try done;
        [unfold main_step; by rewrite <- Ha, Hc'|simpl; constructor|apply H|by rewrite <- Ha|rewrite <- Hx; simpl; lia].
    + injection Hs as <-. apply lookup_ge_None in Ec. rewrite <- (si_length _ _ _ H) in Ec. apply lookup_ge_None in Ec.
      eapply (caller_step _ _ _ _ (put_main MCheck a) _ _ true); try done;
        [unfold main_step; by rewrite <- Ha, Ec|simpl; constructor|apply H|by rewrite <- Ha|rewrite <- Hx; simpl; lia].
  - injection Hs as <-. rewrite (si_first _ _ _ H).
    eapply (caller_step _ _ _ _ (put_main (MReturned _) a) _ _ true); try done;
      [unfold main_step; by rewrite <- Ha|simpl; constructor|apply H|by rewrite <- Ha|rewrite <- Hx; simpl; lia].
Qed.

(** ** Steps of a coroutine *)

(** Coroutine [w] moves, and [ForEachInput.v] with it. *)
Lemma coro_step x p a x' p' a' w o c c1 ph c1' :
  sim x p a -> worker_step w o a = Some a' ->
  Prog.coros x !! w = Some c -> Prog.coros x' = <[w := c1]> (Prog.coros x) ->
  Port.phases p' = <[S w := ph]> (Port.phases p) -> coros a' = <[w := c1']> (coros a) -> coro_rel c1 ph c1' ->
  channel a' = Port.queue p' -> Prog.main x' = Prog.main x -> main a' = main a ->
  Prog.firstError x' = firstError a' -> Prog.processed x' = processed a' -> Prog.failed x' = failed a' ->
  Prog.receivers x' + holds c = Prog.receivers x + holds c1 -> holds c1 <= holds c ->
  (closer c1 = true -> closer c = true) -> advances x a x' p'.
Proof.
  intros H Hs Hc Hx Hp Ha Hr Hq Hm Hma Hf Hpr Hfa Hrc Hh Hcl.
  eapply (advance_step _ _ _ _ (LWorker w o)); [exact Hs| |].
  - eapply (sim_worker x p a x' p' a' w c c1 ph c1'); try done. auto.
  - pose proof (credit_worker x x' w c c1 Hc Hx Hm). destruct c1; simpl in *; lia.
Qed.

(** ... or not yet. *)
Lemma coro_quiet x p a x' p' w c c1 ph c1' :
  sim x p a -> Prog.coros x !! w = Some c -> Prog.coros x' = <[w := c1]> (Prog.coros x) ->
  Port.phases p' = <[S w := ph]> (Port.phases p) -> Port.queue p' = Port.queue p ->
  coros a !! w = Some c1' -> coro_rel c1 ph c1' -> Prog.main x' = Prog.main x ->
  Prog.firstError x' = Prog.firstError x -> Prog.processed x' = Prog.processed x -> Prog.failed x' = Prog.failed x ->
  Prog.receivers x' + holds c = Prog.receivers x + holds c1 -> holds c1 <= holds c ->
  (closer c1 = true -> closer c = true \/ holds c = 1 /\ Prog.receivers x = 1) -> coro_credit c1 < coro_credit c ->
  advances x a x' p'.
Proof.
  intros H Hc Hx Hp Hq Ha Hr Hm Hf Hpr Hfa Hrc Hh Hcl Hcr. left. split.
  - eapply (sim_worker x p a x' p' a w c c1 ph c1'); try done;
      rewrite ?Hq, ?Hf, ?Hpr, ?Hfa, ?list_insert_id by done; first [done|apply H].
  - pose proof (credit_worker x x' w c c1 Hc Hx Hm). lia.
Qed.

Lemma release_step x p a w :
  sim x p a -> Inv r n a -> Prog.coros x !! w = Some Prog.WRelease -> coros a !! w = Some WRelease ->
  Port.phases p !! S w = Some Port.Idle ->
  advances x a (Prog.put_coro w (if Prog.receivers x - 1 =? 0 then Prog.WClose else Prog.WDone) (Prog.drop_receiver x)) p.
Proof.
  intros H HI Hc Hca Hph. pose proof (sum_lookup_le holds _ _ _ Hc) as Hpos. simpl in Hpos.
  pose proof (si_receivers _ _ _ H) as Hrc. destruct (Nat.eqb_spec (Prog.receivers x - 1) 0) as [E|E].
  - apply (coro_quiet x p a _ p w Prog.WRelease Prog.WClose Port.Idle WRelease); simpl; try done; try lia;
      [by apply keep_phase|constructor].
  - pose proof (receivers_le _ _ _ H HI) as Hle.
    apply (coro_step x p a _ p (put_coro w WDone (release a)) w None Prog.WRelease Prog.WDone Port.Idle WDone);
      [done|unfold worker_step; by rewrite Hca|done|done|by apply keep_phase|..];
      rewrite ?(release_spec r n (Nat.lt_0_succ k) a HI), ?(released_open a HI) by lia;
      simpl; try done; try lia; try apply H. constructor.
Qed.

Lemma worker_local_advances x p a w o x' :
  sim x p a -> Inv r n a -> Prog.worker_local w o x = Some x' -> advances x a x' p.
Proof.
  intros H HI Hs. unfold Prog.worker_local in Hs. destruct (Prog.coros x !! w) as [c|] eqn:Hc; [|done].
  destruct (si_coro _ _ _ H w c Hc) as (ph & c' & Hph & Hc' & Hr).
  destruct Hr as [| | |v|e| | | | |]; try done.
  - destruct o as [e|]; injection Hs as <-.
    + eapply (coro_step x p a _ p _ w (Some e) (Prog.WFunc v) (Prog.WCatch e) Port.Idle (WCatch e));
        [done|unfold worker_step; by rewrite Hc'|done|done|by apply keep_phase|done|constructor|..];
        simpl; try apply H; try done. by rewrite (si_failed _ _ _ H).
    + eapply (coro_step x p a _ p _ w None (Prog.WFunc v) Prog.WPop Port.Idle WPop);
        [done|unfold worker_step; by rewrite Hc'|done|done|by apply keep_phase|done|constructor|..];
        simpl; try apply H; try done. by rewrite (si_processed _ _ _ H).
  - injection Hs as <-.
    eapply (coro_step x p a _ p _ w None (Prog.WCatch e) Prog.WRelease Port.Idle WRelease);
      [done|unfold worker_step; by rewrite Hc'|done|done|by apply keep_phase|done|constructor|..];
      simpl; try apply H; try done. by rewrite (si_first _ _ _ H).
  - injection Hs as <-. by apply release_step.
Qed.

(** ** Calls *)

Lemma call_advances x p a t kd :
  sim x p a -> Prog.wants x t = Some kd -> advances x a (Prog.called t x) (Port.put t (Port.Called kd) p).
Proof.
  intros H Hw. destruct t as [|w]; simpl in *.
  - destruct (si_main _ _ _ H) as (ph & Hph & Hm).
    inversion Hm as [j Hx Hp Ha|Hx Hp Ha|rest Hx Hp Ha|v rest Hx Hp Ha|rest Hx Hp Ha|Hx Hp Ha|Hx Hp Ha|Hx Hp Ha
      |j Hx Hp Ha|Hx Hp Ha|o Hx Hp Ha]; rewrite <- Hx in *; try done.
    + destruct rest as [|v rest]; [done|]. injection Hw as <-.
      eapply caller_quiet; try done; [rewrite <- Ha; constructor|rewrite <- Hx; simpl; lia].
    + injection Hw as <-. eapply caller_quiet; try done; [rewrite <- Ha; constructor|rewrite <- Hx; simpl; lia].
  - destruct (Prog.coros x !! w) as [c|] eqn:Hc; [|done].
    destruct (si_coro _ _ _ H w c Hc) as (ph & c' & Hph & Hc' & Hr).
    destruct Hr; try done; injection Hw as <-.
    + apply (coro_quiet x p a _ _ w Prog.WPop Prog.WPopping (Port.Called Port.Pop) WPop); simpl; try done; try lia.
      constructor.
    + apply (coro_quiet x p a _ _ w Prog.WClose Prog.WClosing (Port.Called Port.CloseReceiver) WRelease);
        simpl; try done; try lia. constructor.
Qed.

(** ** The moments at which operations take effect *)

Lemma caller_stays x m : Prog.main x = m -> x = Prog.put_main m x.
Proof. intros <-. by destruct x. Qed.

Lemma caller_lin_advances x p a p' : sim x p a -> Inv r n a -> Port.lin 0 p = Some p' -> advances x a x p'.
Proof.
  intros H HI Hl. destruct (si_main _ _ _ H) as (ph & Hph & Hm). unfold Port.lin in Hl. rewrite Hph in Hl.
  pose proof (si_queue _ _ _ H) as Hq.
  inversion Hm as [j Hx Hp Ha|Hx Hp Ha|rest Hx Hp Ha|v rest Hx Hp Ha|rest Hx Hp Ha|Hx Hp Ha|Hx Hp Ha|Hx Hp Ha
    |j Hx Hp Ha|Hx Hp Ha|o Hx Hp Ha]; subst ph; try done; apply fmap_Some in Hl as (q & Hact & ->);
    rewrite (caller_stays x _ (eq_sym Hx)) at 2.
  - eapply (caller_step _ _ _ _ (put_main (MPushed rest) (put_channel q a)) _ Port.Accepted true); try done;
      [unfold main_step; by rewrite <- Ha, Hq, Hact|constructor|by rewrite <- Ha|rewrite <- Hx; simpl; lia].
  - eapply (caller_step _ _ _ _ (put_main (MAwait 0) (put_channel q a)) _ Port.Closed true); try done;
      [unfold main_step; by rewrite <- Ha, Hq, Hact|constructor|by rewrite <- Ha|rewrite <- Hx; simpl; lia].
Qed.

(** The coroutine that closes the receiver is the last one that counts. *)
Lemma closing_last x p a w : sim x p a -> Inv r n a -> Prog.coros x !! w = Some Prog.WClosing ->
  coros a !! w = Some WRelease -> receivers a = 1.
Proof.
  intros H HI Hc Ha. pose proof H as []. pose proof (si_closer0 w _ Hc eq_refl) as H0.
  rewrite (inv_count _ _ _ HI). rewrite si_receivers0 in H0.
  pose proof (sum_insert alive _ _ _ WDone Ha) as Hs. simpl in Hs.
  rewrite (sum_all_zero alive (<[w := WDone]> (coros a))) in Hs; [lia|].
  intros u d Hu. apply list_lookup_insert_Some in Hu as [(-> & <- & _)|[Hne Hu]]; [done|].
  destruct (Prog.coros x !! u) as [cu|] eqn:Hcu.
  - destruct (si_coro0 u cu Hcu) as (ph & d' & _ & Hd & Hr). simplify_eq.
    pose proof (sum_lookup_le holds _ _ _ Hcu) as Hle.
    assert (Hcl : closer cu = false).
    { destruct (closer cu) eqn:E; [|done]. destruct Hne. by apply (si_one0 w u _ _ Hc Hcu). }
    destruct Hr; simpl in *; try done; lia.
  - apply lookup_ge_None in Hcu. rewrite <- si_length0 in Hcu. apply lookup_lt_Some in Hu. lia.
Qed.

Lemma coro_lin_advances x p a p' w : sim x p a -> Inv r n a -> Port.lin (S w) p = Some p' -> advances x a x p'.
Proof.
  intros H HI Hl. pose proof (si_queue _ _ _ H) as Hq.
  destruct (Prog.coros x !! w) as [c|] eqn:Hc.
  - destruct (si_coro _ _ _ H w c Hc) as (ph & c' & Hph & Hc' & Hr). unfold Port.lin in Hl. rewrite Hph in Hl.
    destruct Hr; try done.
    + destruct (Fifo.waiting (Port.queue p)) as [|v rest] eqn:Ew; [done|].
      apply fmap_Some in Hl as (q & Hact & ->).
      apply (coro_step x p a x _ (put_coro w (WFunc v) (put_channel q a)) w None Prog.WPopping Prog.WPopping
        (Port.Got v) (WFunc v)); try done; try apply H; [|by rewrite list_insert_id|constructor].
      unfold worker_step. by rewrite Hc', Hq, Ew, Hact.
    + apply fmap_Some in Hl as (q & Hact & ->). pose proof (closing_last x p a w H HI Hc Hc') as H1.
      apply (coro_step x p a x _ (put_coro w WDone (release a)) w None Prog.WClosing Prog.WClosing
        Port.Closed WDone); [done|unfold worker_step; by rewrite Hc'|done|by rewrite list_insert_id|done|..];
        rewrite ?(release_spec r n (Nat.lt_0_succ k) a HI) by lia; simpl; try done; try apply H; [constructor|].
      unfold released. rewrite H1, Hq. simpl in *. destruct (Fifo.receiver_closed (Port.queue p)); by simplify_eq.
  - exfalso. apply lookup_ge_None in Hc. unfold Port.lin in Hl.
    destruct (Port.phases p !! S w) as [ph|] eqn:E; [|done].
    pose proof (lookup_lt_Some _ _ _ E). rewrite (si_phases _ _ _ H) in *.
    rewrite (si_free _ _ _ H) in E by lia. by simplify_eq.
Qed.

(** ** Returns *)

(** Only the caller pushes. *)
Lemma nobody_held x p a : sim x p a -> Port.held (<[0 := Port.Idle]> (Port.phases p)) = 0.
Proof.
  intros H. apply sum_all_zero. intros i ph Hi.
  apply list_lookup_insert_Some in Hi as [(-> & <- & _)|[Hne Hi]]; [done|].
  destruct i as [|w]; [done|]. destruct (Prog.coros x !! w) as [c|] eqn:Hc.
  - destruct (si_coro _ _ _ H w c Hc) as (ph' & c' & Hph & _ & Hr). simplify_eq. by destruct Hr.
  - apply lookup_ge_None in Hc. pose proof (lookup_lt_Some _ _ _ Hi). rewrite (si_phases _ _ _ H) in *.
    rewrite (si_free _ _ _ H) in Hi by lia. by simplify_eq.
Qed.

Lemma refused_advances x p a p' a' b :
  sim x p a -> Port.phases p' = <[0 := Port.Idle]> (Port.phases p) -> Port.queue p' = Port.queue p ->
  main_step r n b a = Some (refused a) -> main_holds (main a) = 0 -> a' = refused a ->
  advances x a (Prog.refused x) p'.
Proof.
  intros H Hp Hq Hs Hh ->. unfold Prog.refused. rewrite (si_first _ _ _ H). unfold refused in *.
  destruct (firstError a) as [e|] eqn:E.
  - eapply (caller_step _ _ _ _ _ _ _ b); [done|exact Hp|exact Hs|simpl; constructor|..]; simpl; try done; try lia.
    by rewrite Hq; apply H.
  - eapply (caller_step _ _ _ _ _ _ _ b); [done|exact Hp|exact Hs|simpl; constructor|..]; simpl; try done; try lia.
    by rewrite Hq; apply H.
Qed.

Lemma caller_return_advances x p a b an p' :
  sim x p a -> Inv r n a -> Port.return_ k b 0 p = Some (an, p') -> advances x a (Prog.resume r 0 an x) p'.
Proof.
  intros H HI Hl. destruct (si_main _ _ _ H) as (ph & Hph & Hm). unfold Port.return_ in Hl.
  rewrite Hph in Hl. simpl in Hl. rewrite (nobody_held _ _ _ H), Nat.add_0_r, <- (si_queue _ _ _ H) in Hl.
  inversion Hm as [j Hx Hp Ha|Hx Hp Ha|rest Hx Hp Ha|v rest Hx Hp Ha|rest Hx Hp Ha|Hx Hp Ha|Hx Hp Ha|Hx Hp Ha
    |j Hx Hp Ha|Hx Hp Ha|o Hx Hp Ha]; subst ph; try done; simpl; rewrite <- Hx.
  - destruct (Fifo.receiver_closed (channel a)) eqn:Ec; [|done]. injection Hl as <- <-.
    eapply (refused_advances _ _ _ _ _ true); try done; [|by rewrite <- Ha].
    unfold main_step. rewrite <- Ha. simpl. by rewrite Ec, orb_true_r.
  - destruct b.
    + destruct (_ || _) eqn:Eg; [|done]. injection Hl as <- <-.
      eapply (caller_step _ _ _ _ (put_main (MPush rest) a) _ _ true); try done;
        [|constructor|apply H|by rewrite <- Ha|rewrite <- Hx; simpl; lia].
      unfold main_step. rewrite <- Ha. apply orb_prop in Eg as [-> |Eg%Nat.leb_le]; [done|].
      rewrite (proj2 (Nat.ltb_lt _ _)) by lia. by rewrite orb_true_r.
    + destruct (Fifo.receiver_closed (channel a)) eqn:Ec; [|done]. injection Hl as <- <-.
      eapply (refused_advances _ _ _ _ _ false); try done; [|by rewrite <- Ha].
      unfold main_step. by rewrite <- Ha, Ec.
  - injection Hl as <- <-. eapply caller_quiet; try done; [rewrite <- Ha; constructor|rewrite <- Hx; simpl; lia].
Qed.

Lemma coro_return_advances x p a b an p' w :
  sim x p a -> Inv r n a -> Port.return_ k b (S w) p = Some (an, p') ->
  advances x a (Prog.resume r (S w) an x) p'.
Proof.
  intros H HI Hl. unfold Port.return_ in Hl. simpl. destruct (Prog.coros x !! w) as [c|] eqn:Hc.
  - destruct (si_coro _ _ _ H w c Hc) as (ph & c' & Hph & Hc' & Hr). rewrite Hph in Hl.
    destruct Hr as [| |v| | | | | | |]; try done; simpl in Hl; rewrite <- ?(si_queue _ _ _ H) in Hl.
    + destruct (Fifo.sender_closed (channel a) && _) eqn:E; [|done]. injection Hl as <- <-.
      apply andb_prop in E as [E1 E2%bool_decide_eq_true].
      apply (coro_step x p a _ _ (put_coro w WRelease a) w None Prog.WPopping Prog.WRelease Port.Idle WRelease);
        try done; try apply H; [|constructor].
      unfold worker_step. by rewrite Hc', E2, E1.
    + injection Hl as <- <-.
      apply (coro_quiet x p a _ _ w Prog.WPopping (Prog.WFunc v) Port.Idle (WFunc v)); simpl; try done; try lia.
      constructor.
    + injection Hl as <- <-.
      apply (coro_quiet x p a _ _ w Prog.WClosing Prog.WDone Port.Idle WDone); simpl; try done; try lia.
      constructor.
  - exfalso. apply lookup_ge_None in Hc. destruct (Port.phases p !! S w) as [ph|] eqn:E; [|done].
    pose proof (lookup_lt_Some _ _ _ E). rewrite (si_phases _ _ _ H) in *.
    rewrite (si_free _ _ _ H) in E by lia. by simplify_eq.
Qed.

(** ** The program on [Port] *)

Definition simulated (xp : Prog.state T * Port.ports T) (w : nat) : Prop :=
  exists a, reachable (next r n) (init n) a /\ sim xp.1 xp.2 a /\ w = 4 * work r n a + credit xp.1.

Lemma reachable_Inv a : reachable (next r n) (init n) a -> Inv r n a.
Proof. apply foreach_input_inv. lia. Qed.

Lemma advances_simulated x p a x' p' :
  reachable (next r n) (init n) a -> sim x p a -> advances x a x' p' ->
  exists w', w' < 4 * work r n a + credit x /\ simulated (x', p') w'.
Proof.
  intros Hr H [[H' Hc]|(l & a' & Hl & H' & Hc)].
  - exists (4 * work r n a + credit x'). split; [lia|]. by exists a.
  - pose proof (reachable_Inv a Hr) as HI.
    destruct (input_work_next r n ltac:(lia) l a a' HI Logic.I Hl) as [_ Hw].
    exists (4 * work r n a' + credit x'). split; [lia|]. exists a'. split_and!; try done.
    eapply reachable_step; [done|by exists l].
Qed.

Lemma simulated_next l xp xp' w :
  simulated xp w -> on_ports (Prog.program r) k l xp = Some xp' -> exists w', w' < w /\ simulated xp' w'.
Proof.
  intros (a & Hr & H & ->) Hs. destruct xp as [x p], xp' as [x' p']. apply advances_simulated with p; [done..|].
  pose proof (reachable_Inv a Hr) as HI. simpl in *. destruct l as [l|t|t|t b]; simpl in Hs.
  - destruct (Prog.local r l x) as [x1|] eqn:E; simplify_eq/=. destruct l as [|w o]; simpl in E.
    + by apply main_local_advances.
    + by eapply worker_local_advances.
  - destruct (Prog.wants x t) as [kd|] eqn:E; simplify_eq/=. by apply call_advances.
  - destruct (Port.lin t p) as [p1|] eqn:E; simplify_eq/=. destruct t as [|w].
    + by eapply caller_lin_advances.
    + by eapply coro_lin_advances.
  - destruct (Port.return_ k b t p) as [[an p1]|] eqn:E; simplify_eq/=. destruct t as [|w].
    + by eapply caller_return_advances.
    + by eapply coro_return_advances.
Qed.

(** Which phases the threads can be in. *)
Lemma phase_cases x p a ph : sim x p a -> ph ∈ Port.phases p ->
  main_rel (Prog.main x) ph (main a) \/ ph = Port.Idle \/
  exists w c c', Prog.coros x !! w = Some c /\ Port.phases p !! S w = Some ph /\ coros a !! w = Some c' /\ coro_rel c ph c'.
Proof.
  intros H [[|w] Hi]%list_elem_of_lookup.
  - left. destruct (si_main _ _ _ H) as (ph' & Hph & Hm). by simplify_eq.
  - right. destruct (Prog.coros x !! w) as [c|] eqn:Hc.
    + right. destruct (si_coro _ _ _ H w c Hc) as (ph' & c' & Hph & Hc' & Hr). simplify_eq. by exists w, c, c'.
    + left. apply lookup_ge_None in Hc. pose proof (lookup_lt_Some _ _ _ Hi). rewrite (si_phases _ _ _ H) in *.
      rewrite (si_free _ _ _ H) in Hi by lia. by simplify_eq.
Qed.

Lemma caller_contract x p a kd : sim x p a -> Inv r n a -> Prog.wants x 0 = Some kd -> Port.allowed 0 kd p.
Proof.
  intros H HI Hw. destruct (si_main _ _ _ H) as (ph & Hph & Hm). pose proof (inv_sender _ _ _ HI) as Hsc.
  pose proof (phase_cases x p a) as Hcases. rewrite (si_queue _ _ _ H) in Hsc. simpl in Hw.
  inversion Hm as [j Hx Hp Ha|Hx Hp Ha|rest Hx Hp Ha|v rest Hx Hp Ha|rest Hx Hp Ha|Hx Hp Ha|Hx Hp Ha|Hx Hp Ha
    |j Hx Hp Ha|Hx Hp Ha|o Hx Hp Ha]; rewrite <- Hx in *; try done; rewrite <- Ha in *; subst ph.
  - destruct rest as [|v rest]; [done|]. injection Hw as <-. split; [done|]. split; [done|].
    intros Hin. destruct (Hcases _ H Hin) as [Hr|[?|(w & c & c' & _ & _ & _ & Hr)]]; [rewrite <- ?Hx, <- ?Ha in Hr|done|];
      inversion Hr.
  - injection Hw as <-. split; [done|]. split; [done|]. intros ph Hin.
    destruct (Hcases _ H Hin) as [Hr|[->|(w & c & c' & _ & _ & _ & Hr)]]; [rewrite <- ?Hx, <- ?Ha in Hr|done|];
      by inversion Hr.
Qed.

Lemma coro_contract x p a kd w : sim x p a -> Inv r n a -> Prog.wants x (S w) = Some kd -> Port.allowed (S w) kd p.
Proof.
  intros H HI Hw. simpl in Hw. destruct (Prog.coros x !! w) as [c|] eqn:Hc; [|done].
  destruct (si_coro _ _ _ H w c Hc) as (ph & c' & Hph & Hc' & Hr).
  assert (Hopen : c' <> WDone -> Fifo.receiver_closed (Port.queue p) = false).
  { intros Hd. rewrite <- (si_queue _ _ _ H), (inv_closed _ _ _ HI). apply Nat.eqb_neq.
    pose proof (coro_alive r n (Nat.lt_0_succ k) a w c' HI Hc' Hd). lia. }
  pose proof (sum_lookup_le holds _ _ _ Hc) as Hle. pose proof (si_receivers _ _ _ H) as Hrc.
  destruct Hr; try done; injection Hw as <-; (split; [done|]); (split; [by apply Hopen|]).
  - intros Hin. destruct (phase_cases x p a _ H Hin) as [Hr|[?|(u & d & d' & Hu & _ & _ & Hr)]]; [by inversion Hr|done|].
    inversion Hr; subst. pose proof (si_closer _ _ _ H u _ Hu eq_refl). simpl in *. lia.
  - pose proof (si_closer _ _ _ H w _ Hc eq_refl) as H0. intros ph Hin.
    destruct (phase_cases x p a _ H Hin) as [Hr|[->|(u & d & d' & Hu & Hpu & _ & Hr)]]; [by inversion Hr|done|].
    pose proof (sum_lookup_le holds _ _ _ Hu). destruct Hr; simpl in *; try done; try lia.
    assert (u = w) as -> by (by apply (si_one _ _ _ H u w _ _ Hu Hc)). congruence.
Qed.

Lemma simulated_contract x p w t kd : simulated (x, p) w -> Prog.wants x t = Some kd -> Port.allowed t kd p.
Proof.
  intros (a & Hr%reachable_Inv & H & _) Hw. destruct t; [by eapply caller_contract|by eapply coro_contract].
Qed.

Lemma simulated_init : simulated (Prog.init n, Port.init (S n)) (4 * (5 * length r + 5 * n + 7)).
Proof.
  exists (init n). split; [apply reachable_refl|]. split.
  - split; simpl; try done.
    + by rewrite length_replicate.
    + exists Port.Idle. split; [done|constructor].
    + intros w _ Hw. change (replicate (S n) Port.Idle !! S w = Some (Port.Idle (T := T))). by apply lookup_replicate_2; lia.
  - unfold work, credit, queued. simpl. lia.
Qed.
End sim.

(** ** [forEach] on any channel *)

Section theorems.
Context {T S : Type} (r : list T) (k : nat) `{LinearChannel T S (Datatypes.S (Datatypes.S k)) k}.
Abbreviation n := (Datatypes.S k).
Abbreviation start := (Prog.init n, chan_init).
Abbreviation exec := (compose (Prog.program r)).

Lemma foreach_channel_run ls xs :
  run exec ls start = Some xs ->
  exists a p, reachable (next r n) (init n) a /\ sim k xs.1 p a /\ stands_for xs.2 p /\
    length ls <= 20 * (5 * length r + 5 * n + 7) + chan_work chan_init.
Proof.
  intros Hr.
  destruct (compose_run (Prog.program r) (simulated r k)
    (fun x p w t kd Hi Hw => simulated_contract r k x p w t kd Hi Hw)
    (fun l xp xp' w Hi Hs => simulated_next r k l xp xp' w Hi Hs) ls _ _ xs (simulated_init r k) Hr)
    as (p & w & (a & Ha & Hsim & ->) & Hs & Hlen).
  exists a, p. split_and!; try done. lia.
Qed.

(** C27: [forEach] over an input range, on any channel that implements [Port] -
    such as the [BufferedChannel] of size [maxParallelity] that it makes - in every
    interleaving of the caller, the coroutines and the channel's own steps: if
    it returns, [func] has returned on every element exactly once and has never
    thrown; if it throws, it is one of the exceptions that [func] has thrown; and
    it never fails: the assertion that a refused [push] means an error holds. *)
Theorem forEach_channel_result ls x s o :
  run exec ls start = Some (x, s) -> Prog.main x = Prog.MReturned o ->
  match o with
  | Ret _ => Prog.processed x ≡ₚ r /\ Prog.failed x = []
  | Throw e => e ∈ map snd (Prog.failed x)
  | Crash _ => False
  end.
Proof.
  intros Hr Ho. destruct (foreach_channel_run ls _ Hr) as (a & p & Ha & Hs & _ & _). simpl in Hs.
  destruct (si_main _ _ _ _ Hs) as (ph & _ & Hm). rewrite Ho in Hm. inversion Hm as [| | | | | | | | | |o' Ho' Hph Hma]. subst o'.
  pose proof (forEach_input_result r n a o Ha (eq_sym Hma)) as Hres.
  rewrite (si_processed _ _ _ _ Hs), (si_failed _ _ _ _ Hs). destruct o; [done|done|]. by destruct Hres.
Qed.

(** A coroutine can go on, or is done, or waits for the next value. *)
Lemma coro_waits x p a w c :
  sim k x p a -> (forall t ph, Port.phases p !! t = Some ph -> Port.rests k p ph) ->
  Prog.coros x !! w = Some c ->
  ((exists t kd, Prog.wants x t = Some kd) \/ (exists l x', Prog.local r l x = Some x')) \/
  c = Prog.WDone \/
  c = Prog.WPopping /\ Fifo.waiting (Port.queue p) = [] /\ Fifo.sender_closed (Port.queue p) = false.
Proof.
  intros Hs Hp Hc. destruct (si_coro _ _ _ _ Hs w c Hc) as (ph & c' & Hph & _ & Hr). specialize (Hp _ _ Hph).
  assert (Hwants : forall kd, Prog.wants x (Datatypes.S w) = Some kd -> exists t kd, Prog.wants x t = Some kd) by eauto.
  assert (Hlocal : forall x', Prog.worker_local w None x = Some x' -> exists l x', Prog.local r l x = Some x')
    by (intros x' E; by exists (Prog.LWorker w None), x').
  simpl in Hwants. unfold Prog.worker_local in Hlocal. rewrite Hc in *.
  destruct Hr; simpl in Hp; try done; auto; left; first [left; by eapply Hwants|right; by eapply Hlocal].
Qed.

Lemma coros_wait x p a :
  sim k x p a -> (forall t ph, Port.phases p !! t = Some ph -> Port.rests k p ph) ->
  ((exists t kd, Prog.wants x t = Some kd) \/ (exists l x', Prog.local r l x = Some x')) \/
  forall w c, Prog.coros x !! w = Some c -> c = Prog.WDone \/
    c = Prog.WPopping /\ Fifo.waiting (Port.queue p) = [] /\ Fifo.sender_closed (Port.queue p) = false.
Proof.
  intros Hs Hp.
  assert (Hco := fun w c => coro_waits x p a w c Hs Hp). clear Hs. revert Hco. generalize (Prog.coros x) as l.
  induction l as [|c l IH]; intros Hco; [by right|].
  destruct (Hco 0 c eq_refl) as [|H0]; [by left|]. destruct IH as [|H1]; [intros w d; apply (Hco (Datatypes.S w))|by left|].
  right. intros [|w] d Hd; simpl in Hd; [by simplify_eq|eauto].
Qed.

(** A caller that waits for its [push], or for a coroutine, does not wait in vain. *)
Lemma rests_returned x p a :
  sim k x p a -> Inv r n a -> (forall t ph, Port.phases p !! t = Some ph -> Port.rests k p ph) ->
  ((exists t kd, Prog.wants x t = Some kd) \/ (exists l x', Prog.local r l x = Some x')) \/
  exists o, Prog.main x = Prog.MReturned o.
Proof.
  intros Hs HI Hp. destruct (coros_wait x p a Hs Hp) as [|Hco]; [by left|].
  assert (Hwants : forall kd, Prog.wants x 0 = Some kd -> exists t kd, Prog.wants x t = Some kd) by eauto.
  assert (Hlocal : forall x', Prog.main_local r x = Some x' -> exists l x', Prog.local r l x = Some x')
    by (intros x' E; by exists Prog.LMain, x').
  destruct (si_main _ _ _ _ Hs) as (ph & Hph & Hm). pose proof (Hp _ _ Hph) as Hrest.
  simpl in Hwants. unfold Prog.main_local in Hlocal.
  inversion Hm as [j Hx Hq Ha|Hx Hq Ha|rest Hx Hq Ha|v rest Hx Hq Ha|rest Hx Hq Ha|Hx Hq Ha|Hx Hq Ha|Hx Hq Ha
    |j Hx Hq Ha|Hx Hq Ha|o Hx Hq Ha]; rewrite <- Hx in *; subst ph; simpl in Hrest; try done;
    try (by left; left; eapply Hwants); try (by left; right; eapply Hlocal).
  - left. right. by destruct j; eapply Hlocal.
  - left. destruct rest; [right; by eapply Hlocal|left; by eapply Hwants].
  - destruct Hrest as [Hlen Hrc]. rewrite <- (si_queue _ _ _ _ Hs), (inv_closed _ _ _ HI) in Hrc.
    apply Nat.eqb_neq in Hrc. rewrite (inv_count _ _ _ HI), <- Ha in Hrc. simpl in Hrc.
    rewrite sum_all_zero in Hrc; [done|]. intros w d Hd.
    destruct (Prog.coros x !! w) as [c|] eqn:Hc.
    + destruct (si_coro _ _ _ _ Hs w c Hc) as (ph & c' & _ & Hc' & Hr). simplify_eq.
      destruct (Hco w c Hc) as [->|(_ & Hw0 & _)]; [by inversion Hr|]. rewrite Hw0 in Hlen. simpl in Hlen. lia.
    + apply lookup_ge_None in Hc. rewrite <- (si_length _ _ _ _ Hs) in Hc. apply lookup_lt_Some in Hd. lia.
  - destruct (Prog.coros x !! j) as [c|] eqn:Hc; [|left; right; by eapply Hlocal].
    destruct (Hco j c Hc) as [->|(_ & _ & Hsc)]; [left; right; by eapply Hlocal|].
    rewrite <- (si_queue _ _ _ _ Hs), (inv_sender _ _ _ HI), <- Ha in Hsc. done.
  - right. by exists o.
Qed.

(** C28: ... and it ends: no execution is longer than a bound in the length of
    the range and the number of coroutines, and as long as [forEach] has not
    returned, the caller, a coroutine or a thread inside the channel can make a
    step: nobody waits for ever, neither for a full nor for an empty channel. *)
Theorem forEach_channel_ends ls x s :
  run exec ls start = Some (x, s) ->
  length ls <= 20 * (5 * length r + 5 * n + 7) + chan_work chan_init /\
  ((forall o, Prog.main x <> Prog.MReturned o) -> exists l xs, exec l (x, s) = Some xs).
Proof.
  intros Hr. destruct (foreach_channel_run ls _ Hr) as (a & p & Ha & Hs & Hst & Hlen). split; [done|].
  intros Hn. pose proof (reachable_Inv r k a Ha) as HI.
  destruct (compose_progress (Prog.program r) (simulated r k)
    (fun x p w t kd Hi Hw => simulated_contract r k x p w t kd Hi Hw)
    x s p _ (ex_intro _ a (conj Ha (conj Hs eq_refl))) Hst) as [Hstep [|Hp]]; [done|].
  destruct (rests_returned x p a Hs HI Hp) as [|[o Ho]]; [by apply Hstep|by destruct (Hn o)].
Qed.
End theorems.

(** ** An example *)

Module Sample.
(** Two coroutines, a [BufferedChannel] of size 2 and three elements. *)
Definition start : Prog.state nat * BufferedChannel.state nat :=
  (Prog.init 2, chan_init (LinearChannel := buffered_linear 3 1)).
Definition exec := compose (C := buffered_linear (T := nat) 3 1) (Prog.program [4; 5; 6]).

(** In the order of preference. *)
Definition choices : list (move Prog.label) :=
  [Local Prog.LMain; Call 0; Call 1; Call 2; Step 0; Step 1; Step 2;
   Local (Prog.LWorker 0 None); Local (Prog.LWorker 1 None)].

Definition script : list (move Prog.label) := Eval vm_compute in greedy exec choices 100 start.
Definition final : Prog.state nat * BufferedChannel.state nat := default start (run exec script start).
End Sample.

Lemma forEach_channel_result_witness :
  Prog.main (fst Sample.final) = Prog.MReturned (Ret tt) /\
  Prog.processed (fst Sample.final) ≡ₚ [4; 5; 6] /\ Prog.failed (fst Sample.final) = [].
Proof.
  assert (Hr : run Sample.exec Sample.script Sample.start = Some (fst Sample.final, snd Sample.final))
    by (vm_compute; reflexivity).
  assert (Ho : Prog.main (fst Sample.final) = Prog.MReturned (Ret tt)) by (vm_compute; reflexivity).
  split; [exact Ho|]. exact (forEach_channel_result [4; 5; 6] 1 Sample.script _ _ (Ret tt) Hr Ho).
Defined.

Lemma forEach_channel_ends_witness :
  length Sample.script <= 640 /\
  ((forall o, Prog.main (fst Sample.final) <> Prog.MReturned o) ->
   exists l xs, Sample.exec l (fst Sample.final, snd Sample.final) = Some xs).
Proof.
  assert (Hr : run Sample.exec Sample.script Sample.start = Some (fst Sample.final, snd Sample.final))
    by (vm_compute; reflexivity).
  exact (forEach_channel_ends [4; 5; 6] 1 Sample.script _ _ Hr).
Defined.
