(* ===== verification/TimedMutex.v ===== *)
(** * [timed_mutex.hpp]: [BaseTimedMutex]

    [lock], [try_lock] and [unlock] by any number of threads, in the style of
    [Mutex.v]. A waiter is an object on the stack of its thread with a flag
    that whoever wakes it claims first. The mutex is compared with the one of
    [mutex.hpp] by a simulation: it behaves like that one until an [unlock]
    finds no waiter in the container. *)

From S2P Require Import Prelude Future Mutex MutexInv.

Local Open Scope co_scope.

(** ** Waiters *)

Inductive Result : Type := Succeeded | TimedOut.

Record TimedMutexWaiter : Type := Waiter {
  alreadyFinalized : bool;
  result : LightFutureData nat Result;
  timer : bool;                 (** is there one? *)
}.

(** [TimedMutexWaiter()] *)
Definition waiter : TimedMutexWaiter := Waiter false LightFuture.make false.

(** [explicit operator bool()]: [compare_exchange_strong(false, true)] *)
Definition operator_bool : M TimedMutexWaiter bool := fun w =>
  if alreadyFinalized w then (Ret false, w) else (Ret true, Waiter true (result w) (timer w)).

(** An operation on [result]. *)
Definition on_result {A} (m : M (LightFutureData nat Result) A) : M TimedMutexWaiter A := fun w =>
  let '(o, d) := m (result w) in (o, Waiter (alreadyFinalized w) d (timer w)).

(** ** Policies *)

Module TimedHighThroughputPolicy.
Definition addToWaiter (t : nat) (c : list nat) : list nat := c ++ [t].
Definition getNextWaiter (c : list nat) : option (nat * list nat) :=
  match last c with
  | Some next => Some (next, take (length c - 1) c)
  | None => None
  end.
Definition policy : Policy := {| Mutex.addToWaiter := addToWaiter; Mutex.getNextWaiter := getNextWaiter |}.
End TimedHighThroughputPolicy.

Module TimedFairPolicy.
Definition addToWaiter (t : nat) (c : list nat) : list nat := c ++ [t].
Definition getNextWaiter (c : list nat) : option (nat * list nat) :=
  match c with
  | next :: c => Some (next, c)
  | [] => None
  end.
Definition policy : Policy := {| Mutex.addToWaiter := addToWaiter; Mutex.getNextWaiter := getNextWaiter |}.
End TimedFairPolicy.

#[export] Instance TimedHighThroughputPolicy_laws : PolicyLaws TimedHighThroughputPolicy.policy.
Proof. exact HighThroughputPolicy_laws. Qed.
#[export] Instance TimedFairPolicy_laws : PolicyLaws TimedFairPolicy.policy.
Proof. exact FairPolicy_laws. Qed.

(** ** Threads *)

Inductive pc : Type :=
  | Idle
  | LSpin (i : nat)      (** [spinLock]: before the [i]-th [compare_exchange_weak] *)
  | LAdd                 (** ... before [fetch_add] *)
  | LPush                (** [lock]: [p] is constructed, before [addToWaiter] *)
  | LReady               (** [await(p.result)]: before [await_ready] *)
  | LSuspend
  | LBlocked
  | LResume
  | Held
  | TCas                 (** [try_lock] *)
  | USub                 (** [unlock]: before [fetch_sub] *)
  | ULoop                (** ... before looking for a waiter *)
  | UFinalize (p : nat)  (** ... before [if ( *next)] *)
  | UTimer (p : nat)     (** ... before [if (next->timer)] *)
  | UWrite (p : nat)     (** [next->result.set_value]: before the assignment *)
  | UExch (p : nat)
  | UCall (t : nat)
  | Fault (f : fault).

Record state : Type := St {
  mCountOfWaiter : Z;
  mWaiter : list nat;
  waiters : gmap nat TimedMutexWaiter;   (** by the thread that has it on its stack *)
  threads : list pc;
  added : list nat;
  taken : list nat;
}.

Section timed_mutex.
Context (P : Policy).
Implicit Types (s : state).

Definition init (n : nat) : state := St 0 [] ∅ (replicate n Idle) [] [].

Definition goto (t : nat) (p : pc) s : state :=
  St (mCountOfWaiter s) (mWaiter s) (waiters s) (<[t := p]> (threads s)) (added s) (taken s).
Definition set_count (c : Z) s : state :=
  St c (mWaiter s) (waiters s) (threads s) (added s) (taken s).
Definition set_waiter (p : nat) (w : TimedMutexWaiter) s : state :=
  St (mCountOfWaiter s) (mWaiter s) (<[p := w]> (waiters s)) (threads s) (added s) (taken s).
Definition drop_waiter (p : nat) s : state :=
  St (mCountOfWaiter s) (mWaiter s) (delete p (waiters s)) (threads s) (added s) (taken s).
Definition enqueue (t : nat) s : state :=
  St (mCountOfWaiter s) (addToWaiter P t (mWaiter s)) (waiters s) (threads s) (added s ++ [t]) (taken s).
Definition dequeue (t : nat) (q : list nat) s : state :=
  St (mCountOfWaiter s) q (waiters s) (threads s) (added s) (taken s ++ [t]).

Definition compare_exchange_weak (spurious : bool) s : bool * Z * state :=
  if (mCountOfWaiter s =? 0)%Z && negb spurious
  then (true, 0%Z, set_count 1 s)
  else (false, mCountOfWaiter s, s).

(** One iteration of the loop in [spinLock]. *)
Definition spinLock_loop (t i : nat) (spurious : bool) s : state :=
  let '(res, expected, s') := compare_exchange_weak spurious s in
  if negb (0 <=? expected)%Z then goto t (Fault AssertFailed) s' else
  if res then goto t Held s' else
  if (1 <? expected)%Z then goto t LAdd s' else
  if S i <? 8 then goto t (LSpin (S i)) s' else goto t LAdd s'.

(** The rest of [spinLock], and the construction of [p] in [lock]. *)
Definition spinLock_add (t : nat) s : state :=
  let waitingCount := (mCountOfWaiter s + 1)%Z in
  let s' := set_count (wrap32 waitingCount) s in
  if (waitingCount =? 1)%Z then goto t Held s'
  else goto t LPush (set_waiter t waiter s').

Definition with_waiter (t p : nat) s (k : TimedMutexWaiter -> state) : state :=
  match waiters s !! p with
  | Some w => k w
  | None => goto t (Fault UseAfterFree) s
  end.

(** [await(p.result)] *)
Definition await_ready (t : nat) s : state :=
  with_waiter t t s (fun w =>
    if LightFuture.await_ready (result w) then goto t LResume s else goto t LSuspend s).

Definition await_suspend (t : nat) s : state :=
  with_waiter t t s (fun w =>
    match on_result (LightFuture.await_suspend t) w with
    | (Ret true, w') => goto t LBlocked (set_waiter t w' s)
    | (Ret false, w') => goto t LResume (set_waiter t w' s)
    | (Throw _, w') => goto t Idle (drop_waiter t s)
    | (Crash f, w') => goto t (Fault f) (set_waiter t w' s)
    end).

(** ... and [assert(res == Result::Succeeded)]. *)
Definition await_resume (t : nat) s : state :=
  with_waiter t t s (fun w =>
    match fst (on_result LightFuture.await_resume w) with
    | Ret Succeeded => goto t Held (drop_waiter t s)
    | Ret TimedOut => goto t (Fault AssertFailed) s
    | Throw _ => goto t Idle (drop_waiter t s)
    | Crash f => goto t (Fault f) s
    end).

Definition try_lock (t : nat) (spurious : bool) s : state :=
  let '(res, expected, s') := compare_exchange_weak spurious s in
  if negb (0 <=? expected)%Z then goto t (Fault AssertFailed) s' else
  if res then goto t Held s' else goto t Idle s'.

Definition unlock_sub (t : nat) s : state :=
  let waitingCount := (mCountOfWaiter s - 1)%Z in
  let s' := set_count (wrap32 waitingCount) s in
  if negb (0 <=? waitingCount)%Z then goto t (Fault AssertFailed) s' else
  if (waitingCount =? 0)%Z then goto t Idle s' else goto t ULoop s'.

(** [next] is null when the container is empty, and [*next] is evaluated. *)
Definition unlock_loop (t : nat) s : state :=
  match getNextWaiter P (mWaiter s) with
  | Some (next, q) => goto t (UFinalize next) (dequeue next q s)
  | None => goto t (Fault NullDeref) s
  end.

(** [if ( *next) break; assert(!next);] *)
Definition unlock_finalize (t p : nat) s : state :=
  with_waiter t p s (fun w =>
    match operator_bool w with
    | (Ret true, w') => goto t (UTimer p) (set_waiter p w' s)
    | (Ret false, w') => goto t (Fault AssertFailed) (set_waiter p w' s)
    | (Throw _, w') => goto t Idle (set_waiter p w' s)
    | (Crash f, w') => goto t (Fault f) (set_waiter p w' s)
    end).

(** [if (next->timer) next->timer->cancel();] *)
Definition unlock_timer (t p : nat) s : state :=
  with_waiter t p s (fun w => goto t (UWrite p) s).

Definition set_value_write (t p : nat) s : state :=
  with_waiter t p s (fun w =>
    goto t (UExch p) (set_waiter p (snd (on_result (LightFuture.assign_value (Val Succeeded)) w)) s)).

Definition set_value_on_ready (t p : nat) s : state :=
  with_waiter t p s (fun w =>
    match on_result LightFuture.on_ready w with
    | (Ret None, w') => goto t Idle (set_waiter p w' s)
    | (Ret (Some c), w') => goto t (UCall c) (set_waiter p w' s)
    | (Throw _, w') => goto t Idle (set_waiter p w' s)
    | (Crash f, w') => goto t (Fault f) (set_waiter p w' s)
    end).

Definition call_continuation (t c : nat) s : state :=
  match threads s !! c with
  | Some LBlocked => goto t Idle (goto c LResume s)
  | _ => goto t (Fault UseAfterFree) s
  end.

Definition thread_step (t : nat) (p : pc) (spurious : bool) s : option state :=
  match p with
  | Idle | Held | LBlocked | Fault _ => None
  | LSpin i => Some (spinLock_loop t i spurious s)
  | LAdd => Some (spinLock_add t s)
  | LPush => Some (goto t LReady (enqueue t s))
  | LReady => Some (await_ready t s)
  | LSuspend => Some (await_suspend t s)
  | LResume => Some (await_resume t s)
  | TCas => Some (try_lock t spurious s)
  | USub => Some (unlock_sub t s)
  | ULoop => Some (unlock_loop t s)
  | UFinalize p => Some (unlock_finalize t p s)
  | UTimer p => Some (unlock_timer t p s)
  | UWrite p => Some (set_value_write t p s)
  | UExch p => Some (set_value_on_ready t p s)
  | UCall c => Some (call_continuation t c s)
  end.

Definition next (l : nat * Mutex.action) s : option state :=
  let '(t, a) := l in
  match threads s !! t with
  | None => None
  | Some p =>
      match a, p with
      | ALock, Idle => Some (goto t (LSpin 0) s)
      | ATryLock, Idle => Some (goto t TCas s)
      | AUnlock, Held => Some (goto t USub s)
      | AStep spurious, _ => thread_step t p spurious s
      | _, _ => None
      end
  end.
End timed_mutex.
