(* ===== verification/TimedMutexProps.v ===== *)
(** * [BaseTimedMutex] compared with [BaseMutex]

    Forgetting who has claimed a waiter turns a state of [TimedMutex.v] into one
    of [Mutex.v]; a thread that dereferenced null is one that would still be
    looking for a waiter. Every step is then a step of [Mutex.v], or changes
    nothing. *)

From S2P Require Import Prelude Future Mutex MutexInv TimedMutex.

(** ** The abstraction *)

Definition erase_value (v : Value Result) : Value StatelessT :=
  match v with
  | Val Succeeded => Val stateless
  | Exc e => Exc e
  | _ => Unset
  end.

Definition erase (d : LightFutureData nat Result) : LightFutureData nat StatelessT :=
  LFD (continuationPtr d) (erase_value (value d)).

Definition abs_pc (p : pc) : Mutex.pc :=
  match p with
  | Idle => Mutex.Idle
  | LSpin i => Mutex.LSpin i
  | LAdd => Mutex.LAdd
  | LPush => Mutex.LPush
  | LReady => Mutex.LReady
  | LSuspend => Mutex.LSuspend
  | LBlocked => Mutex.LBlocked
  | LResume => Mutex.LResume
  | Held => Mutex.Held
  | TCas => Mutex.TCas
  | USub => Mutex.USub
  | ULoop => Mutex.ULoop
  | UFinalize p | UTimer p | UWrite p => Mutex.UWrite p
  | UExch p => Mutex.UExch p
  | UCall t => Mutex.UCall t
  | Fault NullDeref => Mutex.ULoop
  | Fault f => Mutex.Fault f
  end.

Definition abs (s : state) : Mutex.state :=
  Mutex.St (mCountOfWaiter s) (mWaiter s) ((fun w => erase (result w)) <$> waiters s)
    (abs_pc <$> threads s) (added s) (taken s).

Section commute.
Implicit Types (s : state).

Lemma abs_goto t p s : abs (goto t p s) = Mutex.goto t (abs_pc p) (abs s).
Proof. unfold abs, Mutex.goto. simpl. by rewrite list_fmap_insert. Qed.

Lemma abs_set_waiter p w s : abs (set_waiter p w s) = Mutex.set_promise p (erase (result w)) (abs s).
Proof. unfold abs, Mutex.set_promise. simpl. by rewrite fmap_insert. Qed.

Lemma abs_drop_waiter p s : abs (drop_waiter p s) = Mutex.drop_promise p (abs s).
Proof. unfold abs, Mutex.drop_promise. simpl. by rewrite fmap_delete. Qed.

Lemma abs_thread s t p : threads s !! t = Some p -> Mutex.threads (abs s) !! t = Some (abs_pc p).
Proof. intros H. simpl. by rewrite list_lookup_fmap, H. Qed.

Lemma abs_waiter s t w : waiters s !! t = Some w -> Mutex.promises (abs s) !! t = Some (erase (result w)).
Proof. intros H. simpl. by rewrite lookup_fmap, H. Qed.

Lemma abs_waiter_inv s t d : Mutex.promises (abs s) !! t = Some d ->
  exists w, waiters s !! t = Some w /\ d = erase (result w).
Proof. simpl. rewrite lookup_fmap. intros (w & -> & Hw)%fmap_Some. eauto. Qed.

Lemma abs_waiter_none s t : waiters s !! t = None -> Mutex.promises (abs s) !! t = None.
Proof. intros H. simpl. by rewrite lookup_fmap, H. Qed.

(** Moves that [Mutex.v] does not make, and claiming a waiter, are not seen. *)
Lemma abs_goto_same s t p q :
  threads s !! t = Some q -> abs_pc p = abs_pc q -> abs (goto t p s) = abs s.
Proof.
  intros H E. unfold abs. simpl. f_equal. rewrite list_fmap_insert, E.
  apply list_insert_id. by rewrite list_lookup_fmap, H.
Qed.

Lemma abs_claim s p w w' :
  waiters s !! p = Some w -> result w' = result w -> abs (set_waiter p w' s) = abs s.
Proof.
  intros H E. rewrite abs_set_waiter, E. unfold Mutex.set_promise.
  rewrite insert_id by by apply abs_waiter. done.
Qed.

Lemma erase_suspend t (d : LightFutureData nat Result) :
  LightFuture.await_suspend t (erase d) =
  (fst (LightFuture.await_suspend t d), erase (snd (LightFuture.await_suspend t d))).
Proof. by destruct d as [[| |u] v]. Qed.

Lemma erase_on_ready (d : LightFutureData nat Result) :
  LightFuture.on_ready (erase d) = (fst (LightFuture.on_ready d), erase (snd (LightFuture.on_ready d))).
Proof. by destruct d as [[| |u] v]. Qed.

(** A future that is granted the mutex holds [Succeeded]. *)
Lemma erase_granted (d : LightFutureData nat Result) : erase d = granted -> d = LFD InvalidHandle (Val Succeeded).
Proof. destruct d as [c v]. intros [= -> Hv]. by destruct v as [|[]|e]. Qed.

Lemma fault_of p : (forall f, abs_pc p <> Mutex.Fault f) -> forall f, p = Fault f -> f = NullDeref.
Proof. intros H f ->. destruct f; try done; exfalso; by eapply H. Qed.
End commute.

(** ** The invariant *)

Section invariant.
Implicit Types (s : state).

Definition unclaimed s (p : nat) : Prop :=
  forall w, waiters s !! p = Some w -> alreadyFinalized w = false.

(** A waiter is claimed once, by who took it out of the container. *)
Definition claims_ok s : Prop :=
  (forall p, p ∈ mWaiter s -> unclaimed s p) /\
  (forall t p, threads s !! t = Some (UFinalize p) -> unclaimed s p) /\
  (forall t, threads s !! t = Some LPush -> unclaimed s t).

Definition timed_inv s : Prop := Inv (abs s) /\ claims_ok s.

Lemma unclaimed_set s p w q :
  alreadyFinalized w = false -> unclaimed s q -> unclaimed (set_waiter p w s) q.
Proof.
  intros Hw Hq w' H. simpl in H. apply lookup_insert_Some in H as [[<- <-]|[_ H]]; [done|by apply Hq].
Qed.

Lemma unclaimed_drop s p q : unclaimed s q -> unclaimed (drop_waiter p s) q.
Proof. intros Hq w H. simpl in H. apply lookup_delete_Some in H as [_ H]. by apply Hq. Qed.

(** Thread [t] goes to a place where it neither claims nor brings a waiter. *)
Lemma claims_goto s t q :
  (forall p, q = UFinalize p -> unclaimed s p) -> (q = LPush -> unclaimed s t) ->
  claims_ok s -> claims_ok (goto t q s).
Proof.
  intros Hf Hp (H1 & H2 & H3). split_and!; simpl; [done|..].
  - intros u p Hu. apply list_lookup_insert_Some in Hu as [(-> & -> & _)|[_ Hu]]; [by apply Hf|by eapply H2].
  - intros u Hu. apply list_lookup_insert_Some in Hu as [(-> & E & _)|[_ Hu]]; [by apply Hp|by apply H3].
Qed.

Lemma claims_set s p w : alreadyFinalized w = false -> claims_ok s -> claims_ok (set_waiter p w s).
Proof.
  intros Hw (H1 & H2 & H3). split_and!; simpl; intros; apply unclaimed_set; eauto.
Qed.

Lemma claims_drop s p : claims_ok s -> claims_ok (drop_waiter p s).
Proof. intros (H1 & H2 & H3). split_and!; simpl; intros; apply unclaimed_drop; eauto. Qed.
End invariant.

(** ** The simulation *)

Section simulation.
Context (P : Policy) `{!PolicyLaws P}.
Implicit Types (s : state).

(** What a step of thread [t] from [p] has to show. *)
Definition matched s (t : nat) (p : pc) (sp : bool) s' : Prop :=
  claims_ok s' /\
  (abs s' = abs s \/ Mutex.thread_step P t (abs_pc p) sp (abs s) = Some (abs s')).

Lemma matched_sim s t p sp s' : matched s t p sp s' -> threads s !! t = Some p ->
  claims_ok s' /\ simulates (Mutex.next P) abs s s'.
Proof.
  intros [Hc Hm] Hp. split; [done|]. destruct Hm as [E|E]; [by left|]. right. exists (t, AStep sp).
  simpl. by rewrite list_lookup_fmap, Hp.
Qed.

#[local] Hint Resolve claims_set claims_drop : core.

Ltac branches :=
  repeat match goal with |- context [if ?b then _ else _] => destruct b end.
Ltac moves := branches; (apply claims_goto; [done|done|by auto]).

Ltac to_mutex := rewrite ?abs_goto, ?abs_set_waiter, ?abs_drop_waiter.

Lemma cas_matched s b :
  let '(r, e, s1) := compare_exchange_weak b s in
  Mutex.compare_exchange_weak b (abs s) = (r, e, abs s1) /\ (claims_ok s -> claims_ok s1).
Proof. unfold compare_exchange_weak, Mutex.compare_exchange_weak. simpl. by destruct ((mCountOfWaiter s =? 0)%Z && negb b). Qed.

Lemma spin_matched s t i b : claims_ok s -> matched s t (LSpin i) b (spinLock_loop t i b s).
Proof.
  intros Hc. pose proof (cas_matched s b) as H. unfold matched, spinLock_loop. cbn [Mutex.thread_step abs_pc].
  unfold Mutex.lock_spin. destruct (compare_exchange_weak b s) as [[r e] s1]. destruct H as [-> H].
  split; [moves|right]. f_equal.
  branches; by to_mutex.
Qed.

Lemma try_lock_matched s t b : claims_ok s -> matched s t TCas b (try_lock t b s).
Proof.
  intros Hc. pose proof (cas_matched s b) as H. unfold matched, try_lock. cbn [Mutex.thread_step abs_pc].
  unfold Mutex.try_lock. destruct (compare_exchange_weak b s) as [[r e] s1]. destruct H as [-> H].
  split; [moves|right]. f_equal.
  branches; by to_mutex.
Qed.

Lemma add_matched s t b : claims_ok s -> matched s t LAdd b (spinLock_add t s).
Proof.
  intros Hc. unfold matched, spinLock_add. simpl. unfold Mutex.lock_add. simpl.
  case_match; (split; [|right; by to_mutex]); apply claims_goto; try done.
  - intros _ w Hw. simpl in Hw. rewrite lookup_insert_eq in Hw. by simplify_eq.
  - apply (claims_set (set_count _ s)); [done|exact Hc].
Qed.

Lemma push_matched s t b :
  threads s !! t = Some LPush -> claims_ok s -> matched s t LPush b (goto t LReady (enqueue P t s)).
Proof.
  intros Ht Hc. split; [|right; by to_mutex]. apply claims_goto; [done..|].
  destruct Hc as (H1 & H2 & H3). split_and!; simpl; [|done..].
  intros p Hp. rewrite add_perm in Hp. apply elem_of_cons in Hp as [->|Hp]; [by apply (H3 t)|by apply H1].
Qed.

Lemma unlock_sub_matched s t b : claims_ok s -> matched s t USub b (unlock_sub t s).
Proof.
  intros Hc. unfold matched, unlock_sub. simpl. unfold Mutex.unlock_sub. simpl.
  repeat case_match; (split; [by apply claims_goto|right; by to_mutex]).
Qed.

(** The container is empty: [Mutex.v] looks again, here null is dereferenced. *)
Lemma unlock_loop_matched s t b :
  threads s !! t = Some ULoop -> claims_ok s -> matched s t ULoop b (unlock_loop P t s).
Proof.
  intros Ht Hc. unfold matched, unlock_loop. simpl. unfold Mutex.unlock_loop. simpl.
  destruct (getNextWaiter P (mWaiter s)) as [[p q]|] eqn:E.
  - pose proof (next_perm _ _ _ E) as Hq. split; [|right; by to_mutex].
    destruct Hc as (H1 & H2 & H3). apply claims_goto; [|done|].
    + intros p' [= <-]. apply (H1 p). rewrite Hq. by left.
    + split_and!; simpl; [|done..]. intros p' Hp'. apply (H1 p'). rewrite Hq. by right.
  - split; [by apply claims_goto|right]. by to_mutex.
Qed.

(** The waiters that threads rely on. *)
Lemma own_waiter s t p :
  timed_inv s -> threads s !! t = Some p -> p = LReady \/ p = LSuspend \/ p = LResume ->
  exists w, waiters s !! t = Some w.
Proof.
  intros [H _] Ht Hp. pose proof (inv_promise _ H _ _ (abs_thread _ _ _ Ht)) as Hok.
  destruct (waiters s !! t) as [w|] eqn:E; [by eexists|]. apply abs_waiter_none in E. exfalso.
  destruct Hp as [->|[->| ->]]; cbn [promise_ok abs_pc] in Hok; rewrite E in Hok; spread; congruence.
Qed.

Lemma target s p : ungranted (abs s) p -> exists w, waiters s !! p = Some w.
Proof. intros (q & d & _ & _ & Hd & _). destruct (abs_waiter_inv _ _ _ Hd) as (w & Hw & _). eauto. Qed.

Lemma with_waiter_some t p s w k : waiters s !! p = Some w -> with_waiter t p s k = k w.
Proof. intros H. unfold with_waiter. by rewrite H. Qed.

Lemma with_abs_promise t s w k :
  waiters s !! t = Some w -> Mutex.with_promise t (abs s) k = k (erase (result w)).
Proof. intros H. unfold Mutex.with_promise. by rewrite (abs_waiter _ _ _ H). Qed.

Lemma claims_keep s p w w' :
  waiters s !! p = Some w -> alreadyFinalized w' = alreadyFinalized w ->
  claims_ok s -> claims_ok (set_waiter p w' s).
Proof.
  intros Hw Hf.
  assert (Hk : forall q, unclaimed s q -> unclaimed (set_waiter p w' s) q).
  { intros q Hq x Hx. simpl in Hx. apply lookup_insert_Some in Hx as [[<- <-]|[_ Hx]]; [rewrite Hf|]; by apply Hq. }
  intros (H1 & H2 & H3). split_and!; simpl; intros; apply Hk; eauto.
Qed.

Lemma ready_matched s t b :
  timed_inv s -> threads s !! t = Some LReady -> matched s t LReady b (await_ready t s).
Proof.
  intros H Ht. destruct (own_waiter _ _ _ H Ht ltac:(auto)) as [w Hw]. pose proof (proj2 H) as Hc.
  unfold matched, await_ready. rewrite (with_waiter_some _ _ _ w) by done.
  cbn [Mutex.thread_step abs_pc]. rewrite (with_abs_promise _ _ w) by done.
  unfold Mutex.await_ready. change (LightFuture.await_ready (erase (result w))) with (LightFuture.await_ready (result w)).
  split; [moves|right]. branches; by to_mutex.
Qed.

Lemma suspend_matched s t b :
  timed_inv s -> threads s !! t = Some LSuspend -> matched s t LSuspend b (await_suspend t s).
Proof.
  intros H Ht. destruct (own_waiter _ _ _ H Ht ltac:(auto)) as [w Hw]. pose proof (proj2 H) as Hc.
  unfold matched, await_suspend. rewrite (with_waiter_some _ _ _ w) by done.
  cbn [Mutex.thread_step abs_pc]. rewrite (with_abs_promise _ _ w) by done.
  unfold Mutex.await_suspend, on_result. rewrite erase_suspend.
  pose proof (inv_promise _ (proj1 H) _ _ (abs_thread _ _ _ Ht)) as Hok.
  pose proof (abs_waiter _ _ _ Hw) as Hp. cbn [promise_ok abs_pc] in Hok. rewrite Hp in Hok.
  destruct w as [f [[| |u] v] tm]; simpl in *.
  - split; [|right; by to_mutex]. apply claims_goto; [done|done|]. by eapply claims_keep.
  - split; [|right; by to_mutex]. apply claims_goto; [done|done|]. by eapply claims_keep.
  - exfalso. unfold erase, granted in Hok. simpl in Hok. spread; congruence.
Qed.

Lemma resume_matched s t b :
  timed_inv s -> threads s !! t = Some LResume -> matched s t LResume b (await_resume t s).
Proof.
  intros H Ht. destruct (own_waiter _ _ _ H Ht ltac:(auto)) as [w Hw]. pose proof (proj2 H) as Hc.
  unfold matched, await_resume. rewrite (with_waiter_some _ _ _ w) by done.
  cbn [Mutex.thread_step abs_pc]. rewrite (with_abs_promise _ _ w) by done.
  pose proof (inv_promise _ (proj1 H) _ _ (abs_thread _ _ _ Ht)) as Hok.
  pose proof (abs_waiter _ _ _ Hw) as Hp. cbn [promise_ok abs_pc] in Hok. rewrite Hp in Hok.
  assert (Hg : erase (result w) = granted) by congruence. rewrite Hg. apply erase_granted in Hg.
  assert (E : fst (on_result LightFuture.await_resume w) = Ret Succeeded) by (unfold on_result; by rewrite Hg).
  rewrite E. split; [|right; by to_mutex]. apply claims_goto; [done|done|]. by apply claims_drop.
Qed.

(** ** The hand-over *)

(** [if ( *next)] claims the waiter: nobody else has. *)
Lemma finalize_matched s t p b :
  timed_inv s -> threads s !! t = Some (UFinalize p) -> matched s t (UFinalize p) b (unlock_finalize t p s).
Proof.
  intros [H (H1 & H2 & H3)] Ht. pose proof (inv_handoff _ H _ _ (abs_thread _ _ _ Ht)) as [Hq Hu].
  destruct (target _ _ Hu) as [w Hw]. unfold matched, unlock_finalize.
  rewrite (with_waiter_some _ _ _ w) by done.
  unfold operator_bool. rewrite (H2 _ _ Ht w Hw). split; [|left].
  - split_and!; simpl.
    + intros q Hin x Hx. simpl in Hx. apply lookup_insert_Some in Hx as [[<- _]|[_ Hx]]; [done|by apply (H1 q)].
    + intros u q Hu'. apply list_lookup_insert_Some in Hu' as [(_ & ? & _)|[Hne Hu']]; [done|].
      destruct Hne. apply (token_unique (abs s) t u _ _ H (abs_thread _ _ _ Ht) (abs_thread _ _ _ Hu')); done.
    + intros u Hu'. apply list_lookup_insert_Some in Hu' as [(_ & ? & _)|[_ Hu']]; [done|].
      intros x Hx. simpl in Hx. apply lookup_insert_Some in Hx as [[<- _]|[_ Hx]]; [|by apply (H3 u)].
      destruct Hu as (q & d & Hq' & Hwt & _). rewrite (abs_thread _ _ _ Hu') in Hq'. by simplify_eq.
  - rewrite (abs_goto_same _ _ _ (UFinalize p)) by done. by apply (abs_claim _ _ w).
Qed.

Lemma timer_matched s t p b :
  timed_inv s -> threads s !! t = Some (UTimer p) -> matched s t (UTimer p) b (unlock_timer t p s).
Proof.
  intros [H Hc] Ht. pose proof (inv_handoff _ H _ _ (abs_thread _ _ _ Ht)) as [Hq Hu].
  destruct (target _ _ Hu) as [w Hw]. unfold matched, unlock_timer. rewrite (with_waiter_some _ _ _ w) by done.
  split; [moves|left]. by apply (abs_goto_same _ _ _ (UTimer p)).
Qed.

Lemma write_matched s t p b :
  timed_inv s -> threads s !! t = Some (UWrite p) -> matched s t (UWrite p) b (set_value_write t p s).
Proof.
  intros [H Hc] Ht. pose proof (inv_handoff _ H _ _ (abs_thread _ _ _ Ht)) as [Hq Hu].
  destruct (target _ _ Hu) as [w Hw]. unfold matched, set_value_write. rewrite (with_waiter_some _ _ _ w) by done.
  cbn [Mutex.thread_step abs_pc]. unfold Mutex.set_value_write. rewrite (abs_waiter _ _ _ Hw).
  split; [|right; by to_mutex]. apply claims_goto; [done|done|]. by apply (claims_keep _ _ w).
Qed.

Lemma on_ready_matched s t p b :
  timed_inv s -> threads s !! t = Some (UExch p) -> matched s t (UExch p) b (set_value_on_ready t p s).
Proof.
  intros [H Hc] Ht. pose proof (inv_handoff _ H _ _ (abs_thread _ _ _ Ht)) as (Hq & Hu & _).
  destruct (target _ _ Hu) as [w Hw]. unfold matched, set_value_on_ready. rewrite (with_waiter_some _ _ _ w) by done.
  cbn [Mutex.thread_step abs_pc]. unfold Mutex.set_value_on_ready, on_result. rewrite (abs_waiter _ _ _ Hw), erase_on_ready.
  destruct Hu as (q & d & _ & _ & Hd & Hn). rewrite (abs_waiter _ _ _ Hw) in Hd. injection Hd as <-.
  destruct w as [f [[| |u] v] tm]; [|done|];
    (split; [apply claims_goto; [done|done|]; by eapply claims_keep|right; simpl; by to_mutex]).
Qed.

Lemma call_matched s t c b :
  timed_inv s -> threads s !! t = Some (UCall c) -> matched s t (UCall c) b (call_continuation t c s).
Proof.
  intros [H Hc] Ht. pose proof (inv_handoff _ H _ _ (abs_thread _ _ _ Ht)) as [Hb _].
  unfold matched, call_continuation. cbn [Mutex.thread_step abs_pc]. unfold Mutex.call_continuation. rewrite Hb.
  simpl in Hb. rewrite list_lookup_fmap in Hb. apply fmap_Some in Hb as (q & Hq & E). rewrite Hq.
  destruct q as [| | | | | | | | | | | | | | | | |[]]; try done.
  split; [|right; by to_mutex]. by repeat apply claims_goto.
Qed.

(** Every step. *)
Lemma step_matched s t p b s' :
  timed_inv s -> threads s !! t = Some p -> thread_step P t p b s = Some s' -> matched s t p b s'.
Proof.
  intros H Ht Hs. pose proof (proj2 H) as Hc.
  destruct p; simpl in Hs; simplify_eq;
    eauto using spin_matched, try_lock_matched, add_matched, push_matched, unlock_sub_matched, unlock_loop_matched,
      ready_matched, suspend_matched, resume_matched, finalize_matched, timer_matched, write_matched,
      on_ready_matched, call_matched.
Qed.

Lemma timed_sim l s s' :
  timed_inv s -> next P l s = Some s' -> claims_ok s' /\ simulates (Mutex.next P) abs s s'.
Proof.
  destruct l as [t a]. intros H Hn. unfold next in Hn. destruct (threads s !! t) as [p|] eqn:Ht; [|done].
  destruct a as [| | |b]; [..|by eapply matched_sim, Ht; eapply step_matched].
  - destruct p; simplify_eq. split; [by apply claims_goto; try apply H|right].
    exists (t, ALock). simpl. rewrite list_lookup_fmap, Ht. simpl. by rewrite abs_goto.
  - destruct p; simplify_eq. split; [by apply claims_goto; try apply H|right].
    exists (t, ATryLock). simpl. rewrite list_lookup_fmap, Ht. simpl. by rewrite abs_goto.
  - destruct p; simplify_eq. split; [by apply claims_goto; try apply H|right].
    exists (t, AUnlock). simpl. rewrite list_lookup_fmap, Ht. simpl. by rewrite abs_goto.
Qed.

Lemma timed_inv_next l s s' :
  timed_inv s -> next P l s = Some s' -> timed_inv s' /\ simulates (Mutex.next P) abs s s'.
Proof.
  intros H Hn. destruct (timed_sim _ _ _ H Hn) as [Hc Hs]. split; [|done]. split; [|done].
  destruct Hs as [E|[l' Hl]]; [rewrite E; apply H|]. eapply inv_next; [done|apply H|exact Hl].
Qed.

Lemma abs_init n : abs (init n) = Mutex.init n.
Proof. unfold abs, init, Mutex.init. simpl. by rewrite fmap_empty, fmap_replicate. Qed.

Lemma timed_inv_init n : (Z.of_nat n < 2 ^ 31)%Z -> timed_inv (init n).
Proof.
  intros Hn. split; [rewrite abs_init; by apply inv_init|].
  split_and!; simpl; [by intros p ?%elem_of_nil|intros t p H|intros t H]; by apply lookup_replicate in H as [? _].
Qed.

Lemma timed_inv_reachable n s :
  (Z.of_nat n < 2 ^ 31)%Z -> reachable (next P) (init n) s -> timed_inv s.
Proof.
  intros Hn. apply invariant_reachable; [|by apply timed_inv_init].
  intros l s1 s2 H Hs. by eapply timed_inv_next.
Qed.
End simulation.

(** ** Properties *)

Section properties.
Context (P : Policy) `{!PolicyLaws P}.
Implicit Types (s : state).


(** Inside the critical section. *)
Definition holds (p : pc) : Prop := p = Held \/ p = USub.

(** C31: at most one thread holds a [BaseTimedMutex], and the only thing that
    goes wrong in it is that an [unlock] dereferences null: no assertion fails, no
    waiter is used after its [lock] has returned. *)
Theorem timed_mutual_exclusion n s :
  (Z.of_nat n < 2 ^ 31)%Z -> reachable (next P) (init n) s ->
  (forall t u p q, threads s !! t = Some p -> threads s !! u = Some q -> holds p -> holds q -> t = u) /\
  (forall t f, threads s !! t = Some (Fault f) -> f = NullDeref).
Proof.
  intros Hn Hr. destruct (timed_inv_reachable P n s Hn Hr) as [H _]. split.
  - intros t u p q Hp%abs_thread Hq%abs_thread [->| ->] [->| ->];
      exact (token_unique _ _ _ _ _ H Hp Hq eq_refl eq_refl).
  - intros t f Hf. eapply fault_of; [|reflexivity]. intros f' E.
    pose proof (inv_promise _ H _ _ (abs_thread _ _ _ Hf)) as Hok. by rewrite E in Hok.
Qed.
End properties.

(** ** The null pointer, and witnesses *)

Module Sample.
(** Thread 0 holds the mutex; thread 1 has counted itself in [lock], and not yet
    put its waiter into the container. *)
Definition arriving : list (nat * action) :=
  [(0, ALock); (0, AStep false); (1, ALock)] ++ replicate 9 (1, AStep false).
Definition crash : list (nat * action) :=
  arriving ++ [(0, AUnlock); (0, AStep false); (0, AStep false)].
(** Thread 1 waits, and the mutex is handed to it. *)
Definition handed : list (nat * action) :=
  arriving ++ replicate 3 (1, AStep false) ++ [(0, AUnlock)] ++ replicate 7 (0, AStep false) ++ [(1, AStep false)].
Definition after (ls : list (nat * action)) : state :=
  default (init 2) (run (next TimedFairPolicy.policy) ls (init 2)).
End Sample.

(** [unlock] dereferences null when the thread that waits has raised the
    counter and not yet put its waiter into the container. *)
Theorem timed_unlock_null_deref :
  exists s, reachable (next TimedFairPolicy.policy) (init 2) s /\
    threads s = [Fault NullDeref; LPush] /\ mWaiter s = [].
Proof.
  exists (Sample.after Sample.crash). split; [exists Sample.crash|split]; vm_compute; reflexivity.
Qed.


Lemma timed_mutual_exclusion_witness :
  threads (Sample.after Sample.arriving) = [Held; LPush] /\
  forall t f, threads (Sample.after Sample.arriving) !! t = Some (Fault f) -> f = NullDeref.
Proof.
  split; [vm_compute; reflexivity|]. apply (timed_mutual_exclusion TimedFairPolicy.policy 2); [lia|].
  exists Sample.arriving. vm_compute. reflexivity.
Defined.
