(* ===== verification/TimedWaiter.v ===== *)
(** * [timed_mutex.hpp]: a waiter with a timer

    The handler of the timer and the [unlock] that took the waiter out of the
    container race for it, while its owner awaits the result and then destroys
    it. Whoever flips [alreadyFinalized] sets the result. *)

From S2P Require Import Prelude Future TimedMutex.

Inductive side : Type := Handler | Unlocker.

Inductive pc : Type :=
  | Armed            (** the handler has not been called *)
  | Claim            (** before [operator bool()] *)
  | Cancel           (** [unlock]: before [next->timer->cancel()] *)
  | Write            (** [set_value]: before the assignment *)
  | Exch             (** ... before the exchange *)
  | Call (t : nat)   (** ... before the call of the continuation *)
  | Done
  | Failed (f : fault).

(** The owner, in [await(p.result)]. *)
Inductive owner_pc : Type :=
  | OReady | OSuspend | OBlocked | OResume
  | OReturned (r : Result)   (** and [p] is destroyed *)
  | OFailed (f : fault).

Record state : Type := St {
  waiter : option TimedMutexWaiter;
  handler : pc;
  unlocker : pc;
  owner : owner_pc;
  claimed : option side;   (** history: who has won *)
}.

(** [TimedMutexWaiter(ioc, timeoutDuration)] *)
Definition init : state := St (Some (Waiter false LightFuture.make true)) Armed Claim OReady None.

(** [LFire ec]: the timer's handler is called, with an error or without; its
    call may already be on its way when the timer is cancelled. *)
Inductive label : Type := LFire (ec : bool) | LSide (x : side) | LOwner.

Section steps.
Implicit Types (s : state) (w : TimedMutexWaiter).

Definition goto (x : side) (p : pc) s : state :=
  match x with
  | Handler => St (waiter s) p (unlocker s) (owner s) (claimed s)
  | Unlocker => St (waiter s) (handler s) p (owner s) (claimed s)
  end.
Definition put_waiter w s : state := St (Some w) (handler s) (unlocker s) (owner s) (claimed s).
Definition put_claim (x : side) s : state := St (waiter s) (handler s) (unlocker s) (owner s) (Some x).
Definition put_owner (p : owner_pc) s : state := St (waiter s) (handler s) (unlocker s) p (claimed s).

Definition outcome_of (x : side) : Result := match x with Handler => TimedOut | Unlocker => Succeeded end.

(** [if ( *thisPtr)] of the handler, and [if ( *next) break; assert(!next);] *)
Definition claim (x : side) w s : state :=
  match operator_bool w with
  | (Ret true, w') =>
      goto x (match x with Handler => Write | Unlocker => Cancel end) (put_claim x (put_waiter w' s))
  | (Ret false, w') =>
      goto x (match x with Handler => Done | Unlocker => Failed AssertFailed end) (put_waiter w' s)
  | (Throw _, w') => goto x (Failed Terminated) (put_waiter w' s)
  | (Crash f, w') => goto x (Failed f) (put_waiter w' s)
  end.

Definition side_pc (x : side) s : pc := match x with Handler => handler s | Unlocker => unlocker s end.

Definition side_step (x : side) s : option state :=
  match side_pc x s, waiter s with
  | Armed, _ | Done, _ | Failed _, _ => None
  | Call _, _ =>
      Some match owner s with
           | OBlocked => goto x Done (put_owner OResume s)
           | _ => goto x (Failed UseAfterFree) s
           end
  | _, None => Some (goto x (Failed UseAfterFree) s)
  | Claim, Some w => Some (claim x w s)
  | Cancel, Some w => Some (goto x Write s)
  | Write, Some w =>
      Some (goto x Exch (put_waiter (snd (on_result (LightFuture.assign_value (Val (outcome_of x))) w)) s))
  | Exch, Some w =>
      Some match on_result LightFuture.on_ready w with
           | (Ret None, w') => goto x Done (put_waiter w' s)
           | (Ret (Some t), w') => goto x (Call t) (put_waiter w' s)
           | (Throw _, w') => goto x (Failed Terminated) (put_waiter w' s)
           | (Crash f, w') => goto x (Failed f) (put_waiter w' s)
           end
  end.

(** [auto res = await(p.result);] and the end of [p]'s life. *)
Definition owner_step s : option state :=
  match owner s, waiter s with
  | OBlocked, _ | OReturned _, _ | OFailed _, _ => None
  | _, None => Some (put_owner (OFailed UseAfterFree) s)
  | OReady, Some w =>
      Some (put_owner (if LightFuture.await_ready (result w) then OResume else OSuspend) s)
  | OSuspend, Some w =>
      Some match on_result (LightFuture.await_suspend 0) w with
           | (Ret true, w') => put_owner OBlocked (put_waiter w' s)
           | (Ret false, w') => put_owner OResume (put_waiter w' s)
           | (Throw _, w') => put_owner (OFailed Terminated) (put_waiter w' s)
           | (Crash f, w') => put_owner (OFailed f) (put_waiter w' s)
           end
  | OResume, Some w =>
      Some match fst (on_result LightFuture.await_resume w) with
           | Ret r => St None (handler s) (unlocker s) (OReturned r) (claimed s)
           | Throw _ => put_owner (OFailed Terminated) s
           | Crash f => put_owner (OFailed f) s
           end
  end.

Definition next (l : label) s : option state :=
  match l with
  | LFire ec => match handler s with
                | Armed => Some (goto Handler (if ec then Done else Claim) s)
                | _ => None
                end
  | LSide x => side_step x s
  | LOwner => owner_step s
  end.
End steps.

(** ** The invariant *)

Section invariant.
Implicit Types (s : state) (p : pc).

Definition owner_word (o : owner_pc) : handle nat := match o with OBlocked => TaskPtr 0 | _ => EmptyHandle end.
Definition waiting (o : owner_pc) : Prop := o = OReady \/ o = OSuspend \/ o = OBlocked.

(** The waiter, before its result is published. *)
Definition unpublished s (f : bool) (P : Value Result -> Prop) : Prop :=
  waiting (owner s) /\ exists v, P v /\ waiter s = Some (Waiter f (LFD (owner_word (owner s)) v) true).

(** What the winner has done so far. *)
Definition won s (x : side) p : Prop :=
  let r := outcome_of x in
  match p with
  | Cancel => x = Unlocker /\ unpublished s true (fun _ => True)
  | Write => unpublished s true (fun _ => True)
  | Exch => unpublished s true (fun v => v = Val r)
  | Call t => owner s = OBlocked /\ waiter s = Some (Waiter true (LFD InvalidHandle (Val r)) true)
  | Done => ((owner s = OReady \/ owner s = OSuspend \/ owner s = OResume) /\
              waiter s = Some (Waiter true (LFD InvalidHandle (Val r)) true)) \/
            (owner s = OReturned r /\ waiter s = None)
  | _ => False
  end.

(** Where the loser can be. *)
Definition lost s (x : side) p : Prop :=
  match x, p with
  | Handler, (Armed | Claim | Done) => True
  | Unlocker, Claim => True
  | Unlocker, Failed AssertFailed => True
  | _, Failed UseAfterFree => waiter s = None
  | _, _ => False
  end.

Definition race_inv s : Prop :=
  match claimed s with
  | None => unpublished s false (fun _ => True) /\ unlocker s = Claim /\
            (handler s = Armed \/ handler s = Claim \/ handler s = Done)
  | Some Handler => won s Handler (handler s) /\ lost s Unlocker (unlocker s)
  | Some Unlocker => won s Unlocker (unlocker s) /\ lost s Handler (handler s)
  end.
End invariant.

(** ** Preservation *)

Section preservation.
Implicit Types (s : state).


Ltac shown := unfold race_inv, won, lost, unpublished; simpl; unfold waiting in *; eauto 12.

Lemma fire_inv ec s s' : race_inv s -> next (LFire ec) s = Some s' -> race_inv s'.
Proof.
  destruct s as [w h u o c]. intros Hi Hs. simpl in Hs. destruct h; try done. injection Hs as <-.
  unfold race_inv in *. destruct c as [[]|]; simpl in *; spread; destruct ec; simpl; try done; auto 10.
Qed.

(** The first to reach the flag wins. *)
Lemma claim_inv x s s' :
  claimed s = None -> race_inv s -> side_step x s = Some s' -> race_inv s'.
Proof.
  destruct s as [w h u o c]. simpl. intros -> Hi Hs. unfold race_inv in Hi. simpl in Hi.
  destruct Hi as ((Ho & v & _ & Hw) & Hu & Hh). simpl in *. subst w u. unfold side_step in Hs.
  destruct x; simpl in Hs.
  - destruct Hh as [->|[->| ->]]; try done. injection Hs as <-. shown.
  - injection Hs as <-. destruct Hh as [->|[->| ->]]; shown.
Qed.

Lemma side_goto x p s : side_pc x (goto x p s) = p.
Proof. by destruct x. Qed.
Lemma side_goto_ne x y p s : y <> x -> side_pc y (goto x p s) = side_pc y s.
Proof. by destruct x, y. Qed.
Lemma waiter_goto x p s : waiter (goto x p s) = waiter s.
Proof. by destruct x. Qed.
Lemma owner_goto x p s : owner (goto x p s) = owner s.
Proof. by destruct x. Qed.
Lemma claimed_goto x p s : claimed (goto x p s) = claimed s.
Proof. by destruct x. Qed.
Lemma won_goto s x y p q : won s x p -> won (goto y q s) x p.
Proof. by destruct y. Qed.

#[local] Arguments goto : simpl never.

(** The winner's next step. *)
Lemma winner_inv x s s' :
  won s x (side_pc x s) -> side_step x s = Some s' ->
  claimed s' = claimed s /\ won s' x (side_pc x s') /\ waiter s <> None /\
  (forall y, y <> x -> side_pc y s' = side_pc y s).
Proof.
  intros Hw Hs. unfold side_step in Hs. destruct (side_pc x s) as [| | | | |n| |f] eqn:Ep; try done.
  - destruct Hw as (-> & Ho & v & _ & Hv). rewrite Hv in Hs. injection Hs as <-.
    rewrite claimed_goto, side_goto, Hv. split_and!; try done; [|by intros; rewrite side_goto_ne].
    apply won_goto. split; eauto.
  - destruct Hw as (Ho & v & _ & Hv). rewrite Hv in Hs. injection Hs as <-.
    rewrite claimed_goto, side_goto, Hv. split_and!; try done; [|by intros; rewrite side_goto_ne].
    apply won_goto. split; [done|]. eexists. split; [reflexivity|done].
  - destruct Hw as (Ho & v & -> & Hv). rewrite Hv in *. unfold on_result in Hs. simpl in Hs.
    destruct Ho as [Ho|[Ho|Ho]]; rewrite Ho in *; simpl in Hs; injection Hs as <-;
      rewrite claimed_goto, side_goto; (split_and!; [done| |done|by intros; rewrite side_goto_ne]); apply won_goto;
      simpl; rewrite Ho; eauto 10.
  - destruct Hw as (Ho & Hv). rewrite Ho in Hs. destruct (waiter s) eqn:E; simplify_eq;
    rewrite claimed_goto, side_goto; (split_and!; [done| |done|by intros; rewrite side_goto_ne]); apply won_goto;
      simpl; eauto 10.
Qed.

(** The loser's next step does not touch the waiter's result. *)
Lemma loser_inv x y s s' :
  y <> x -> won s x (side_pc x s) -> lost s y (side_pc y s) -> side_step y s = Some s' ->
  claimed s' = claimed s /\ waiter s' = waiter s /\ owner s' = owner s /\
  side_pc x s' = side_pc x s /\ lost s' y (side_pc y s').
Proof.
  intros Hne Hw Hl Hs. unfold side_step in Hs.
  destruct (side_pc y s) as [| | | | |n| |[]] eqn:Ep; try done; try (by destruct y).
  assert (Hx : side_pc x (goto y (Failed UseAfterFree) s) = side_pc x s) by by apply side_goto_ne.
  destruct (waiter s) as [w|] eqn:E; injection Hs as <-.
  - assert (Hf : alreadyFinalized w = true).
    { destruct (side_pc x s); simpl in Hw; unfold unpublished in Hw; spread; try done; simplify_eq; simpl; congruence. }
    unfold claim, operator_bool. rewrite Hf. rewrite claimed_goto, waiter_goto, owner_goto, side_goto, side_goto_ne by done.
    destruct y; simpl; by rewrite <- ?E; destruct s.
  - rewrite claimed_goto, waiter_goto, owner_goto, side_goto, Hx. destruct y; simpl; auto.
Qed.

Lemma owner_unclaimed s s' f P :
  unpublished s f P -> owner_step s = Some s' ->
  unpublished s' f P /\ claimed s' = claimed s /\ handler s' = handler s /\ unlocker s' = unlocker s.
Proof.
  intros (Ho & v & Hv & Hw) Hs. unfold owner_step in Hs. rewrite Hw in Hs.
  destruct Ho as [Ho|[Ho|Ho]]; rewrite Ho in Hs; simpl in Hs; [| |done]; injection Hs as <-; simpl.
  - split; [|done]. split; [by right; left|]. exists v. simpl. by rewrite Hw, Ho.
  - split; [|done]. split; [by right; right|]. exists v. simpl. done.
Qed.

Lemma owner_won s s' x p :
  won s x p -> owner_step s = Some s' ->
  won s' x p /\ claimed s' = claimed s /\ handler s' = handler s /\ unlocker s' = unlocker s /\
  (waiter s = None -> waiter s' = None).
Proof.
  intros Hw Hs.
  assert (Hup : forall f P, unpublished s f P -> waiter s = None -> waiter s' = None)
    by (intros f P (_ & v & _ & E) E'; congruence).
  destruct p; try done; simpl in *.
  - destruct Hw as [-> Hu]. destruct (owner_unclaimed _ _ _ _ Hu Hs) as (H & -> & -> & ->). split_and!; eauto.
  - destruct (owner_unclaimed _ _ _ _ Hw Hs) as (H & -> & -> & ->). split_and!; eauto.
  - destruct (owner_unclaimed _ _ _ _ Hw Hs) as (H & -> & -> & ->). split_and!; eauto.
  - destruct Hw as [Ho _]. unfold owner_step in Hs. by rewrite Ho in Hs.
  - unfold owner_step in Hs. destruct Hw as [[Ho Hw]|[Ho Hw]]; [|by rewrite Ho in Hs].
    rewrite Hw in Hs. destruct Ho as [Ho|[Ho|Ho]]; rewrite Ho in Hs; simpl in Hs; injection Hs as <-; simpl;
      rewrite ?Hw; split_and!; try done; auto 10.
Qed.

Lemma lost_later s s' x p : lost s x p -> (waiter s = None -> waiter s' = None) -> lost s' x p.
Proof. intros Hl H. destruct x, p as [| | | | | | |[]]; simpl in *; auto. Qed.

Lemma race_inv_next l s s' : race_inv s -> next l s = Some s' -> race_inv s'.
Proof.
  intros Hi Hs. destruct l as [ec|x|]; [by eapply fire_inv|..]; simpl in Hs.
  - destruct (claimed s) as [y|] eqn:Ec; [|by eapply claim_inv].
    assert (Hwl : exists z, z <> y /\ won s y (side_pc y s) /\ lost s z (side_pc z s)).
    { unfold race_inv in Hi. rewrite Ec in Hi. destruct y, Hi; [by exists Unlocker|by exists Handler]. }
    destruct Hwl as (z & Hz & Hw & Hl).
    assert (Hgoal : claimed s' = Some y -> won s' y (side_pc y s') -> lost s' z (side_pc z s') -> race_inv s').
    { intros E Hw' Hl'. unfold race_inv. rewrite E. by destruct y, z. }
    assert (x = y \/ x = z) as [->| ->] by (clear -Hz; destruct x, y, z; auto; congruence).
    + destruct (winner_inv _ _ _ Hw Hs) as (E & Hw' & Hn & Hk). apply Hgoal; [congruence|done|].
      rewrite Hk by done. by eapply lost_later.
    + destruct (loser_inv _ _ _ _ Hz Hw Hl Hs) as (E & E1 & E2 & E3 & Hl'). apply Hgoal; [congruence| |done].
      rewrite E3. clear -Hw E1 E2. unfold won, unpublished in *. by rewrite E1, E2.
  - unfold race_inv in *. destruct (claimed s) as [[]|] eqn:Ec.
    + destruct Hi as [Hw Hl]. destruct (owner_won _ _ _ _ Hw Hs) as (Hw' & -> & -> & -> & H). rewrite Ec.
      split; [done|by eapply lost_later].
    + destruct Hi as [Hw Hl]. destruct (owner_won _ _ _ _ Hw Hs) as (Hw' & -> & -> & -> & H). rewrite Ec.
      split; [done|by eapply lost_later].
    + destruct Hi as (Hu & Hp). destruct (owner_unclaimed _ _ _ _ Hu Hs) as (Hu' & -> & -> & ->). by rewrite Ec.
Qed.

(** What the owner can know. *)
Lemma won_owner s x p : won s x p ->
  (forall r, owner s = OReturned r -> r = outcome_of x) /\ (forall f, owner s <> OFailed f) /\
  (waiter s = None -> owner s = OReturned (outcome_of x)) /\ (forall f, p <> Failed f).
Proof.
  intros Hw. destruct p; try done; simpl in Hw; unfold unpublished, waiting in Hw; spread;
    split_and!; intros; congruence.
Qed.
End preservation.

(** whoever of the timer's handler and [unlock] comes first decides what
    the owner of a waiter is told, and the result is set once; the one that
    comes later fails nothing but [unlock]'s own assertion, or finds that the
    owner has returned and the waiter is gone. *)
Theorem waiter_decided_once s :
  reachable next init s ->
  (forall r, owner s = OReturned r -> outcome_of <$> claimed s = Some r) /\
  (forall f, owner s <> OFailed f) /\
  (forall f, handler s = Failed f -> f = UseAfterFree /\ owner s = OReturned Succeeded) /\
  (forall f, unlocker s = Failed f ->
     claimed s = Some Handler /\ (f = AssertFailed \/ f = UseAfterFree /\ owner s = OReturned TimedOut)).
Proof.
  intros Hr. assert (Hi : race_inv s).
  { revert Hr. apply invariant_reachable; [apply race_inv_next|]. split; [|by auto].
    split; [by left|]. by exists Unset. }
  clear Hr. unfold race_inv in Hi. destruct (claimed s) as [[]|].
  - destruct Hi as [Hw Hl]. destruct (won_owner _ _ _ Hw) as (H1 & H2 & H3 & H4). split_and!; try done.
    + intros r Hr%H1. by subst.
    + intros f Hf. by destruct (H4 f).
    + intros f Hf. rewrite Hf in Hl. destruct f; try done; auto.
  - destruct Hi as [Hw Hl]. destruct (won_owner _ _ _ Hw) as (H1 & H2 & H3 & H4). split_and!; try done.
    + intros r Hr%H1. by subst.
    + intros f Hf. rewrite Hf in Hl. destruct f; try done; auto.
    + intros f Hf. by destruct (H4 f).
  - destruct Hi as ((Ho & v & _ & Hw) & Hu & Hh). unfold waiting in Ho. split_and!.
    + intros r E. rewrite E in Ho. spread; congruence.
    + intros f E. rewrite E in Ho. spread; congruence.
    + intros f E. rewrite E in Hh. spread; congruence.
    + intros f E. congruence.
Qed.

(** ** Examples *)

Module Sample.
(** The waiter is handed the mutex; then the handler, on its way when the timer
    was cancelled, finds it gone. *)
Definition late : list label :=
  [LOwner; LOwner; LFire false] ++ replicate 5 (LSide Unlocker) ++ [LOwner; LSide Handler].
Definition final : state := default init (run next late init).
End Sample.

Lemma waiter_decided_once_witness :
  owner Sample.final = OReturned Succeeded /\ handler Sample.final = Failed UseAfterFree /\
  outcome_of <$> claimed Sample.final = Some Succeeded.
Proof.
  assert (Ho : owner Sample.final = OReturned Succeeded) by (vm_compute; reflexivity).
  split; [exact Ho|]. split; [vm_compute; reflexivity|].
  apply (proj1 (waiter_decided_once Sample.final ltac:(exists Sample.late; vm_compute; reflexivity)) Succeeded Ho).
Defined.
