(* ===== verification/SpecificPtr.v ===== *)
(** * [routine_specific_ptr.hpp]: a pointer per coroutine

    Every coroutine keeps a map from the address of a [SpecificPtr] to a
    [StorageItem], which owns a value and the function that cleans it up. The
    calls of clean-up functions are recorded in the order in which they happen.
    Outside of coroutines a [SpecificPtr] is a [boost::thread_specific_ptr],
    which is a parameter. *)

From S2P Require Import Prelude.

Local Open Scope co_scope.

(** A [T*]: null, or an address. *)
Definition pointer : Type := option nat.

(** A call of a clean-up function: which one, and on what. *)
Definition cleanup : Type := nat * pointer.

(** ** [StorageItem] *)

Record StorageItem : Type := Item {
  data : pointer;
  cleanupFunction : option nat;   (** an empty [std::function], or which function *)
}.

Module StorageItem.
(** [StorageItem()], and the one that owns [t] *)
Definition empty : StorageItem := Item None None.
Definition make (t : pointer) (ownCleanup : nat) : StorageItem := Item t (Some ownCleanup).

(** [if (cleanupFunction) cleanupFunction(data);] *)
Definition clean (i : StorageItem) : M (list cleanup) unit := fun log =>
  match cleanupFunction i with
  | Some f => (Ret tt, log ++ [(f, data i)])
  | None => (Ret tt, log)
  end.

(** [~StorageItem()] *)
Definition destroy (i : StorageItem) : M (list cleanup) unit := clean i.

(** [StorageItem(StorageItem&& other)]: the new item, and what is left of [other] *)
Definition move_construct (other : StorageItem) : StorageItem * StorageItem :=
  (Item (data other) (cleanupFunction other), Item (data other) None).

(** [i = std::move(other)]: both afterwards *)
Definition move_assign (i other : StorageItem) : M (list cleanup) (StorageItem * StorageItem) :=
  do! clean i in
  ret (Item (data other) (cleanupFunction other), Item (data other) None).
End StorageItem.

(** ** [SpecificPtr] *)

(** [boost::thread_specific_ptr<T>] on the current thread: its value, and
    [reset] of the object at an address, with its clean-up function; it gives
    the calls of that function. *)
Class ThreadPtr (Slots : Type) := {
  slot_get : nat -> Slots -> pointer;
  slot_reset : nat -> nat -> pointer -> Slots -> Slots * list cleanup;
}.

Section specific_ptr.
Context {Slots : Type} `{ThreadPtr Slots}.

Record state : Type := St {
  current : option nat;                                    (** [Routine::current()] *)
  mLocalStorage : gmap nat (gmap nat StorageItem);         (** by coroutine that is alive *)
  slots : Slots;
  cleaned : list cleanup;                                  (** history *)
}.

(** A [SpecificPtr] has its own address and a clean-up function. *)
Record SpecificPtr : Type := Ptr { this : nat; mCleanupFunction : nat }.
Implicit Types (p : SpecificPtr) (s : state).

Definition put_storage (c : nat) (m : gmap nat StorageItem) s : state :=
  St (current s) (<[c := m]> (mLocalStorage s)) (slots s) (cleaned s).
Definition log_cleanups (l : list cleanup) s : state :=
  St (current s) (mLocalStorage s) (slots s) (cleaned s ++ l).

Definition get p : M state pointer := fun s =>
  match current s with
  | Some c =>
      match mLocalStorage s !! c with
      | None => (Crash UseAfterFree, s)
      | Some m => (Ret (match m !! this p with Some i => data i | None => None end), s)
      end
  | None => (Ret (slot_get (this p) (slots s)), s)
  end.

(** [operator->] and [operator*] of the caller *)
Definition deref p : M state nat :=
  let! v := get p in
  match v with Some a => ret a | None => crash NullDeref end.

(** [curr->mLocalStorage[this] = StorageItem{newValue, mCleanupFunction}]: the
    temporary is moved into the entry, which is made when there is none, and
    destroyed. *)
Definition reset p (newValue : pointer) : M state unit := fun s =>
  match current s with
  | Some c =>
      match mLocalStorage s !! c with
      | None => (Crash UseAfterFree, s)
      | Some m =>
          let entry := default StorageItem.empty (m !! this p) in
          let tmp := StorageItem.make newValue (mCleanupFunction p) in
          match StorageItem.move_assign entry tmp (cleaned s) with
          | (Ret (entry, tmp), log) =>
              match StorageItem.destroy tmp log with
              | (Ret _, log) =>
                  (Ret tt, St (current s) (<[c := <[this p := entry]> m]> (mLocalStorage s)) (slots s) log)
              | (Throw e, log) => (Throw e, St (current s) (mLocalStorage s) (slots s) log)
              | (Crash f, log) => (Crash f, St (current s) (mLocalStorage s) (slots s) log)
              end
          | (Throw e, log) => (Throw e, St (current s) (mLocalStorage s) (slots s) log)
          | (Crash f, log) => (Crash f, St (current s) (mLocalStorage s) (slots s) log)
          end
      end
  | None =>
      let '(sl, l) := slot_reset (this p) (mCleanupFunction p) newValue (slots s) in
      (Ret tt, St (current s) (mLocalStorage s) sl (cleaned s ++ l))
  end.

(** [~SpecificPtr()], before its members go *)
Definition destructor p : M state unit := reset p None.

(** The end of a coroutine's [Data]: its map destroys its items. *)
Fixpoint destroy_items (l : list (nat * StorageItem)) : M (list cleanup) unit :=
  match l with
  | [] => ret tt
  | (_, i) :: l => do! StorageItem.destroy i in destroy_items l
  end.

Definition destroy_data (c : nat) : M state unit := fun s =>
  match mLocalStorage s !! c with
  | None => (Crash UseAfterFree, s)
  | Some m =>
      let '(o, log) := destroy_items (map_to_list m) (cleaned s) in
      (o, St (current s) (delete c (mLocalStorage s)) (slots s) log)
  end.

(** ** Histories *)

Inductive op : Type :=
  | Start (c : nat)                      (** a coroutine is constructed *)
  | Enter (c : option nat)               (** the thread enters a coroutine, or leaves *)
  | Reset (p : SpecificPtr) (v : pointer)
  | Get (p : SpecificPtr)
  | Destroy (p : SpecificPtr)            (** [~SpecificPtr()] *)
  | End (c : nat).                       (** the [Data] of [c] is destroyed *)

Definition exec (o : op) s : option state :=
  match o with
  | Start c =>
      match mLocalStorage s !! c with Some _ => None | None => Some (put_storage c ∅ s) end
  | Enter c =>
      match c with
      | None => Some (St None (mLocalStorage s) (slots s) (cleaned s))
      | Some c => match mLocalStorage s !! c with
                  | Some _ => Some (St (Some c) (mLocalStorage s) (slots s) (cleaned s))
                  | None => None
                  end
      end
  | Reset p v => match reset p v s with (Ret _, s') => Some s' | _ => None end
  | Get p => match get p s with (Ret _, s') => Some s' | _ => None end
  | Destroy p => match destructor p s with (Ret _, s') => Some s' | _ => None end
  | End c => if decide (current s = Some c) then None
             else match destroy_data c s with (Ret _, s') => Some s' | _ => None end
  end.

Definition init (sl : Slots) : state := St None ∅ sl [].

(** What an item will be cleaned up with. *)
Definition owned (i : StorageItem) : list cleanup :=
  match cleanupFunction i with Some f => [(f, data i)] | None => [] end.
Definition all_owned s : list cleanup := collect (collect owned) (mLocalStorage s).

(** What coroutines have handed over by [o], in a given state. *)
Definition handed (o : op) s : list cleanup :=
  match o, current s with
  | Reset p v, Some _ => [(mCleanupFunction p, v)]
  | Destroy p, Some _ => [(mCleanupFunction p, None)]
  | _, _ => []
  end.
(** ... and the clean-up calls of [boost::thread_specific_ptr]. *)
Definition thread_cleaned (o : op) s : list cleanup :=
  match o, current s with
  | Reset p v, None => snd (slot_reset (this p) (mCleanupFunction p) v (slots s))
  | Destroy p, None => snd (slot_reset (this p) (mCleanupFunction p) None (slots s))
  | _, _ => []
  end.

Fixpoint exec_all (os : list op) s : option (state * list cleanup * list cleanup) :=
  match os with
  | [] => Some (s, [], [])
  | o :: os =>
      match exec o s with
      | None => None
      | Some s1 =>
          match exec_all os s1 with
          | None => None
          | Some (s2, h, t) => Some (s2, handed o s ++ h, thread_cleaned o s ++ t)
          end
      end
  end.
End specific_ptr.
Arguments state : clear implicits.

(** ** Clean-up *)

Section cleanup.
Context {Slots : Type} `{ThreadPtr Slots}.
Implicit Types (s : state Slots) (p : SpecificPtr).

(** [reset] in a coroutine: what the entry owned is cleaned up, and the new value is owned. *)
Lemma reset_spec p v s c m :
  current s = Some c -> mLocalStorage s !! c = Some m ->
  reset p v s = (Ret tt, St (current s)
    (<[c := <[this p := Item v (Some (mCleanupFunction p))]> m]> (mLocalStorage s)) (slots s)
    (cleaned s ++ match m !! this p with Some i => owned i | None => [] end)).
Proof.
  intros Hc Hm. unfold reset. rewrite Hc, Hm.
  destruct (m !! this p) as [[d [f|]]|]; cbn; by rewrite ?app_nil_r.
Qed.

Lemma destroy_items_spec l log :
  destroy_items l log = (Ret tt, log ++ concat (map (fun x => owned x.2) l)).
Proof.
  revert log. induction l as [|[k [d [f|]]] l IH]; intros log; simpl; [by rewrite app_nil_r|..];
    unfold bind, StorageItem.destroy, StorageItem.clean; simpl; rewrite IH; [by rewrite <- app_assoc|done].
Qed.

Lemma reset_accounts p v s s' :
  reset p v s = (Ret tt, s') ->
  cleaned s' ++ all_owned s' ≡ₚ cleaned s ++ all_owned s ++ handed (Reset p v) s ++ thread_cleaned (Reset p v) s.
Proof.
  intros E. unfold handed, thread_cleaned. destruct (current s) as [c|] eqn:Hc.
  - destruct (mLocalStorage s !! c) as [m|] eqn:Hm; [|unfold reset in E; by rewrite Hc, Hm in E].
    rewrite (reset_spec _ _ _ _ _ Hc Hm) in E. injection E as <-. unfold all_owned. simpl.
    pose proof (collect_insert owned m (this p) (Item v (Some (mCleanupFunction p)))) as H1.
    pose proof (collect_insert (collect owned) (mLocalStorage s) c
      (<[this p := Item v (Some (mCleanupFunction p))]> m)) as H2. rewrite Hm in H2.
    set (X := match m !! this p with Some i => owned i | None => [] end) in *. clearbody X.
    apply (Permutation_app_inv_r (collect owned m)).
    transitivity (cleaned s ++ (collect (collect owned)
      (<[c:=<[this p:=Item v (Some (mCleanupFunction p))]> m]> (mLocalStorage s)) ++ collect owned m) ++ X);
      [solve_Permutation|].
    rewrite H2, <- (app_assoc (collect _ (mLocalStorage s))), H1. simpl. solve_Permutation.
  - unfold reset in E. rewrite Hc in E. destruct (slot_reset _ _ _ _) as [sl l]. injection E as <-.
    unfold all_owned. simpl. solve_Permutation.
Qed.

Lemma exec_accounts o s s' :
  exec o s = Some s' ->
  cleaned s' ++ all_owned s' ≡ₚ cleaned s ++ all_owned s ++ handed o s ++ thread_cleaned o s.
Proof.
  intros E. destruct o as [c|[c|]|p v|p|p|c]; simpl in E.
  - destruct (mLocalStorage s !! c) eqn:Hc; simplify_eq. unfold all_owned. simpl.
    rewrite collect_new, collect_empty by done. by rewrite !app_nil_r.
  - destruct (mLocalStorage s !! c); simplify_eq. by rewrite !app_nil_r.
  - simplify_eq. by rewrite !app_nil_r.
  - destruct (reset p v s) as [[[]|e|e] s1] eqn:Er; simplify_eq. by apply reset_accounts.
  - unfold get in E. repeat case_match; simplify_eq; by rewrite !app_nil_r.
  - unfold destructor in E. destruct (reset p None s) as [[[]|e|e] s1] eqn:Er; simplify_eq.
    by apply (reset_accounts p None).
  - case_decide; [done|]. unfold destroy_data in E. destruct (mLocalStorage s !! c) as [m|] eqn:Hm; [|done].
    rewrite destroy_items_spec in E. simplify_eq. unfold all_owned. simpl.
    rewrite (collect_delete _ _ _ _ Hm). fold (collect owned m). rewrite !app_nil_r. solve_Permutation.
Qed.

(** C32: every value that a coroutine hands to a [SpecificPtr] is cleaned up
    exactly once, by the function of that pointer: the calls of clean-up
    functions and what the coroutines that are alive still own are, together,
    what was handed over - a null of [reset()] or of the destructor included -
    and what [boost::thread_specific_ptr] cleaned up. Once all coroutines are gone
    nothing is owned any more. *)
Theorem each_value_cleaned_once os sl s h t :
  exec_all os (init sl) = Some (s, h, t) ->
  cleaned s ++ all_owned s ≡ₚ h ++ t /\ (mLocalStorage s = ∅ -> cleaned s ≡ₚ h ++ t).
Proof.
  intros E.
  assert (Hg : forall s0, exec_all os s0 = Some (s, h, t) ->
    cleaned s ++ all_owned s ≡ₚ cleaned s0 ++ all_owned s0 ++ h ++ t).
  { clear E. revert s h t. induction os as [|o os IH]; intros s h t s0 E; simpl in E.
    - simplify_eq. by rewrite !app_nil_r.
    - destruct (exec o s0) as [s1|] eqn:E1; [|done]. destruct (exec_all os s1) as [[[s2 h2] t2]|] eqn:E2; [|done].
      simplify_eq. rewrite (IH _ _ _ _ E2). rewrite app_assoc, (exec_accounts _ _ _ E1). solve_Permutation. }
  specialize (Hg _ E). unfold all_owned in Hg at 2. simpl in Hg. rewrite collect_empty in Hg. simpl in Hg.
  split; [done|]. intros He. unfold all_owned in Hg. by rewrite He, collect_empty, app_nil_r in Hg.
Qed.
End cleanup.

(** ** Reading *)

Section reading.
Context {Slots : Type} `{ThreadPtr Slots}.
Implicit Types (s : state Slots) (p : SpecificPtr).

(** What coroutine [c] has at address [k]. *)
Definition entry s (c k : nat) : option StorageItem := mLocalStorage s !! c ≫= fun m => m !! k.

(** Does a step write there? *)
Definition writes (c k : nat) (o : op) s : bool :=
  match o with
  | Reset p _ | Destroy p => bool_decide (current s = Some c) && (this p =? k)
  | End c' => c' =? c
  | _ => false
  end.

Fixpoint undisturbed (c k : nat) (os : list op) s : bool :=
  match os with
  | [] => true
  | o :: os => negb (writes c k o s) &&
               match exec o s with Some s' => undisturbed c k os s' | None => true end
  end.

Lemma entry_storage s s' c k :
  mLocalStorage s' !! c = mLocalStorage s !! c -> entry s' c k = entry s c k.
Proof. unfold entry. by intros ->. Qed.

Lemma reset_elsewhere p v s s' c k :
  reset p v s = (Ret tt, s') -> bool_decide (current s = Some c) && (this p =? k) = false ->
  entry s' c k = entry s c k.
Proof.
  intros E Hw. destruct (current s) as [c'|] eqn:Hc.
  - destruct (mLocalStorage s !! c') as [m|] eqn:Hm; [|unfold reset in E; by rewrite Hc, Hm in E].
    rewrite (reset_spec _ _ _ _ _ Hc Hm) in E. injection E as <-. unfold entry. simpl.
    destruct (decide (c' = c)) as [->|Hne]; [|by rewrite lookup_insert_ne].
    rewrite lookup_insert_eq, Hm. simpl. apply lookup_insert_ne. intros Hk.
    rewrite bool_decide_true in Hw by done. simpl in Hw. by apply Nat.eqb_neq in Hw.
  - unfold reset in E. rewrite Hc in E. destruct (slot_reset _ _ _ _) as [sl l]. by injection E as <-.
Qed.

Lemma exec_elsewhere o s s' c k :
  exec o s = Some s' -> writes c k o s = false -> entry s c k <> None -> entry s' c k = entry s c k.
Proof.
  intros E Hw Hn. destruct o as [c'|[c'|]|p v|p|p|c']; simpl in E, Hw.
  - destruct (mLocalStorage s !! c') eqn:Hc; simplify_eq. apply entry_storage. simpl.
    apply lookup_insert_ne. intros ->. unfold entry in Hn. by rewrite Hc in Hn.
  - destruct (mLocalStorage s !! c'); by simplify_eq.
  - by simplify_eq.
  - destruct (reset p v s) as [[[]|e|e] s1] eqn:Er; simplify_eq. by eapply reset_elsewhere.
  - unfold get in E. by repeat case_match; simplify_eq.
  - unfold destructor in E. destruct (reset p None s) as [[[]|e|e] s1] eqn:Er; simplify_eq. by eapply reset_elsewhere.
  - apply Nat.eqb_neq in Hw. case_decide; [done|]. unfold destroy_data in E.
    destruct (mLocalStorage s !! c') as [m|] eqn:Hm; [|done].
    rewrite destroy_items_spec in E. simplify_eq. apply entry_storage. simpl. by apply lookup_delete_ne.
Qed.

(** C33: a coroutine reads what it wrote: after [reset(v)], [get()] returns [v]
    until the same coroutine resets or destroys that pointer, whatever happens
    meanwhile in other coroutines, in threads and with other pointers. *)
Theorem get_after_reset p v s c s1 os s2 h t :
  current s = Some c -> exec (Reset p v) s = Some s1 ->
  exec_all os s1 = Some (s2, h, t) -> undisturbed c (this p) os s1 = true -> current s2 = Some c ->
  get p s2 = (Ret v, s2).
Proof.
  intros Hc E1 E2 Hu Hc2.
  assert (He : entry s1 c (this p) = Some (Item v (Some (mCleanupFunction p)))).
  { simpl in E1. destruct (reset p v s) as [[[]|e|e] s'] eqn:Er; simplify_eq.
    destruct (mLocalStorage s !! c) as [m|] eqn:Hm; [|unfold reset in Er; by rewrite Hc, Hm in Er].
    rewrite (reset_spec _ _ _ _ _ Hc Hm) in Er. injection Er as <-. unfold entry. simpl.
    rewrite lookup_insert_eq. simpl. apply lookup_insert_eq. }
  assert (He2 : entry s2 c (this p) = Some (Item v (Some (mCleanupFunction p)))).
  { clear E1 Hc. revert s1 h t E2 Hu He. induction os as [|o os IH]; intros s1 h t E2 Hu He; simpl in E2.
    - by simplify_eq.
    - simpl in Hu. apply andb_prop in Hu as [Hw Hu]. apply negb_true_iff in Hw.
      destruct (exec o s1) as [s3|] eqn:E3; [|done].
      destruct (exec_all os s3) as [[[s4 h4] t4]|] eqn:E4; [|done]. simplify_eq.
      eapply (IH s3); [done..|]. rewrite (exec_elsewhere _ _ _ _ _ E3 Hw); [done|congruence]. }
  unfold get, entry in *. rewrite Hc2. destruct (mLocalStorage s2 !! c) as [m|]; [|done].
  simpl in He2. by rewrite He2.
Qed.

(** A [SpecificPtr] made where another one has been destroyed shows the old
    one's value to coroutines that had set it. *)
Lemma stale_value sl :
  match exec_all [Start 0; Enter (Some 0); Reset (Ptr 9 0) (Some 5); Enter None; Destroy (Ptr 9 0); Enter (Some 0)]
    (init sl) with
  | Some (s, _, _) => fst (get (Ptr 9 1) s) = Ret (Some 5)
  | None => False
  end.
Proof. destruct H as [g r]. vm_compute. by destruct (r _ _ _ _). Qed.
End reading.

(** ** Examples: a thread with a map of slots *)

Module Sample.
#[export] Instance slots : ThreadPtr (gmap nat nat) := {|
  slot_get k m := m !! k;
  slot_reset k f v m :=
    (match v with Some a => <[k := a]> m | None => delete k m end,
     match m !! k with Some a => [(f, Some a)] | None => [] end);
|}.
Definition p : SpecificPtr := Ptr 9 0.
Definition prepare : list op := [Start 0; Start 1; Enter (Some 0)].
Definition meanwhile : list op :=
  [Enter (Some 1); Reset p (Some 6); Reset p (Some 7); Enter None; Reset p (Some 8); End 1; Enter (Some 0)].
Definition before : state (gmap nat nat) :=
  match exec_all prepare (init ∅) with Some (s, _, _) => s | None => init ∅ end.
Definition written : state (gmap nat nat) := default before (exec (Reset p (Some 5)) before).
Definition after : state (gmap nat nat) :=
  match exec_all meanwhile written with Some (s, _, _) => s | None => before end.
Definition whole : list op := prepare ++ [Reset p (Some 5)] ++ meanwhile ++ [Enter None; End 0].
End Sample.
Import Sample.

Lemma each_value_cleaned_once_witness :
  exists s h t, exec_all Sample.whole (init (∅ : gmap nat nat)) = Some (s, h, t) /\
    cleaned s = [(0, Some 6); (0, Some 7); (0, Some 5)] /\ cleaned s ≡ₚ h ++ t.
Proof.
  do 3 eexists. split; [vm_compute; reflexivity|]. split; [reflexivity|].
  refine (proj2 (each_value_cleaned_once Sample.whole ∅ _ _ _ _) _); vm_compute; reflexivity.
Defined.

Lemma get_after_reset_witness : get Sample.p Sample.after = (Ret (Some 5), Sample.after).
Proof.
  refine (get_after_reset Sample.p (Some 5) Sample.before 0 Sample.written Sample.meanwhile Sample.after _ _ _ _ _ _ _);
    vm_compute; reflexivity.
Defined.
