(* ===== verification/OneShot.v ===== *)
(** * A future on the stack of the coroutine that awaits it

    [YieldTo] and [runOutsideOfCoroutine] have the same shape: somebody is given
    the address of a future in the caller's frame, works on variables of the
    caller, and sets the future; the caller awaits the future and leaves the
    frame. Every access to the future is a step; the frame is gone once the caller
    has returned. *)

From S2P Require Import Prelude Future.

Section oneshot.
Context {W T : Type}.
Context (work : M W T).   (* what is done before the future is set *)

Inductive producer_pc : Type :=
  | PPosted             (** the function object has not been called *)
  | PWrite (v : Value T)
  | PExch (v : Value T)
  | PCall (t : nat)
  | PDone
  | PFault (f : fault).

Inductive consumer_pc : Type :=
  | CReady | CSuspend | CBlocked | CResume
  | CReturned (o : outcome T)
  | CFault (f : fault).

Record state : Type := St {
  frame : option (LightFutureData nat T);
  world : W;
  producer : producer_pc;
  consumer : consumer_pc;
}.

Definition init (w : W) : state := St (Some LightFuture.make) w PPosted CReady.

Inductive label : Type := LProducer | LConsumer.

Section steps.
Implicit Types (s : state).

Definition to_producer (p : producer_pc) s : state := St (frame s) (world s) p (consumer s).
Definition to_consumer (c : consumer_pc) s : state := St (frame s) (world s) (producer s) c.
Definition put_frame (d : LightFutureData nat T) s : state := St (Some d) (world s) (producer s) (consumer s).

(** The call: [work], then [set_value] or [set_exception]. *)
Definition producer_step s : option state :=
  match producer s, frame s with
  | PDone, _ | PFault _, _ => None
  | PPosted, _ =>
      Some match work (world s) with
           | (Ret v, w) => St (frame s) w (PWrite (Val v)) (consumer s)
           | (Throw e, w) => St (frame s) w (PWrite (Exc e)) (consumer s)
           | (Crash f, w) => St (frame s) w (PFault f) (consumer s)
           end
  | PCall _, _ =>
      Some match consumer s with
           | CBlocked => to_producer PDone (to_consumer CResume s)
           | _ => to_producer (PFault UseAfterFree) s
           end
  | _, None => Some (to_producer (PFault UseAfterFree) s)
  | PWrite v, Some d =>
      Some (to_producer (PExch v) (put_frame (snd (LightFuture.assign_value v d)) s))
  | PExch v, Some d =>
      Some match LightFuture.on_ready d with
           | (Ret None, d) => to_producer PDone (put_frame d s)
           | (Ret (Some t), d) => to_producer (PCall t) (put_frame d s)
           | (Throw _, d) => to_producer (PFault Terminated) (put_frame d s)
           | (Crash f, d) => to_producer (PFault f) (put_frame d s)
           end
  end.

(** [co::await(f)], and the end of the frame. *)
Definition consumer_step s : option state :=
  match consumer s, frame s with
  | CBlocked, _ | CReturned _, _ | CFault _, _ => None
  | _, None => Some (to_consumer (CFault UseAfterFree) s)
  | CReady, Some d => Some (to_consumer (if LightFuture.await_ready d then CResume else CSuspend) s)
  | CSuspend, Some d =>
      Some match LightFuture.await_suspend 0 d with
           | (Ret true, d) => to_consumer CBlocked (put_frame d s)
           | (Ret false, d) => to_consumer CResume (put_frame d s)
           | (Throw _, d) => to_consumer (CFault Terminated) (put_frame d s)
           | (Crash f, d) => to_consumer (CFault f) (put_frame d s)
           end
  | CResume, Some d =>
      Some match fst (LightFuture.await_resume d) with
           | Crash f => to_consumer (CFault f) s
           | o => St None (world s) (producer s) (CReturned o)
           end
  end.

Definition next (l : label) s : option state :=
  match l with LProducer => producer_step s | LConsumer => consumer_step s end.
End steps.

(** ** The invariant *)

Section invariant.
Context (w0 : W).
Implicit Types (s : state).

Definition awaiting (c : consumer_pc) : Prop := c = CReady \/ c = CSuspend \/ c = CBlocked.
Definition word (c : consumer_pc) : handle nat := match c with CBlocked => TaskPtr 0 | _ => EmptyHandle end.

(** What [work] gives the future. *)
Definition published (v : Value T) : Prop :=
  match work w0 with (Ret x, _) => v = Val x | (Throw e, _) => v = Exc e | _ => False end.
Definition untouched s (V : Value T -> Prop) : Prop :=
  awaiting (consumer s) /\ exists v, V v /\ frame s = Some (LFD (word (consumer s)) v).

Definition shot_inv s : Prop :=
  match producer s with
  | PPosted => world s = w0 /\ untouched s (fun _ => True)
  | PWrite v => world s = snd (work w0) /\ published v /\ untouched s (fun _ => True)
  | PExch v => world s = snd (work w0) /\ published v /\ untouched s (fun v' => v' = v)
  | PCall t => world s = snd (work w0) /\ consumer s = CBlocked /\
               exists v, published v /\ frame s = Some (LFD InvalidHandle v)
  | PDone => world s = snd (work w0) /\
             ((consumer s = CReady \/ consumer s = CSuspend \/ consumer s = CResume) /\
               (exists v, published v /\ frame s = Some (LFD InvalidHandle v)) \/
              (consumer s = CReturned (fst (work w0)) /\ frame s = None))
  | PFault f => fst (work w0) = Crash f /\ awaiting (consumer s) /\
                exists v, frame s = Some (LFD (word (consumer s)) v)
  end.

Lemma published_get v : published v -> ValueHandling.get v = fst (work w0) /\ forall f, fst (work w0) <> Crash f.
Proof. unfold published. destruct (work w0) as [[x|e|e] w]; intros H; by subst. Qed.

Lemma shot_producer_inv s s' : shot_inv s -> producer_step s = Some s' -> shot_inv s'.
Proof.
  destruct s as [fr w p c]. unfold shot_inv, producer_step. simpl. intros Hi Hs.
  destruct p as [|v|v|t| |f]; [..|done|by destruct fr].
  - destruct Hi as (-> & Ha & v & _ & Hf). simpl in *. subst fr. unfold published, untouched.
    destruct (work w0) as [[x|e|e] w1] eqn:Ew; simplify_eq; simpl; rewrite ?Ew; simpl; eauto 10.
  - destruct Hi as (Hw & Hp & Ha & v' & _ & Hf). simpl in *. subst fr. simplify_eq. unfold untouched. simpl. eauto 10.
  - destruct Hi as (Hw & Hp & Ha & v' & -> & Hf). simpl in *. subst fr.
    destruct Ha as [->|[->| ->]]; simpl in Hs; simplify_eq; simpl; eauto 12.
  - destruct Hi as (Hw & -> & v & Hp & ->). simplify_eq. simpl. eauto 12.
Qed.

Lemma shot_consumer_inv s s' : shot_inv s -> consumer_step s = Some s' -> shot_inv s'.
Proof.
  intros Hi Hs.
  assert (Hu : forall V, untouched s V -> untouched s' V /\ producer s' = producer s /\ world s' = world s).
  { intros V (Ha & v & Hv & Hf). unfold consumer_step in Hs. rewrite Hf in Hs.
    destruct Ha as [Ha|[Ha|Ha]]; rewrite Ha in *; simpl in Hs; simplify_eq; simpl;
      (split; [|done]); split; simpl; unfold awaiting; eauto. }
  unfold shot_inv in *. destruct (producer s) as [|v|v|t| |f] eqn:Ep.
  - destruct Hi as [Hw Hun]. destruct (Hu _ Hun) as (H & -> & ->). done.
  - destruct Hi as (Hw & Hp & Hun). destruct (Hu _ Hun) as (H & -> & ->). done.
  - destruct Hi as (Hw & Hp & Hun). destruct (Hu _ Hun) as (H & -> & ->). done.
  - destruct Hi as (Hw & Hc & v & Hp & Hf). unfold consumer_step in Hs. by rewrite Hc in Hs.
  - destruct Hi as (Hw & [[Hc (v & Hp & Hf)]|[Hc Hf]]); unfold consumer_step in Hs; rewrite Hf in Hs;
      [|by rewrite Hc in Hs].
    destruct (published_get _ Hp) as [Hg Hn].
    destruct Hc as [Hc|[Hc|Hc]]; rewrite Hc in Hs; simpl in Hs.
    + simplify_eq. simpl. rewrite Ep. eauto 12.
    + simplify_eq. simpl. rewrite Ep. eauto 12.
    + rewrite Hg in Hs. destruct (fst (work w0)) as [x|e|e] eqn:Ew; [..|by destruct (Hn e)]; simplify_eq; simpl;
        rewrite Ep; eauto 12.
  - destruct Hi as (Hw & Ha & v & Hf).
    assert (Hun : untouched s (fun _ => True)) by (split; eauto).
    destruct (Hu _ Hun) as (H & -> & _). destruct H as [Ha' (v' & _ & Hf')]. eauto 10.
Qed.

Lemma shot_inv_reachable s : reachable next (init w0) s -> shot_inv s.
Proof.
  apply invariant_reachable.
  - intros [] s1 s2 Hi Hs; [by eapply shot_producer_inv|by eapply shot_consumer_inv].
  - unfold shot_inv, init, untouched, awaiting. simpl. eauto 10.
Qed.

(** ** What the caller gets *)

(** Unless [work] itself fails, nothing does; the caller returns after [work],
    with its result or its exception. *)
Lemma shot_result s :
  reachable next (init w0) s -> (forall f, fst (work w0) <> Crash f) ->
  (forall f, producer s <> PFault f /\ consumer s <> CFault f) /\
  (forall o, consumer s = CReturned o -> (o, world s) = work w0 /\ producer s = PDone).
Proof.
  intros Hi%shot_inv_reachable Hn. unfold shot_inv, untouched, awaiting in Hi.
  destruct (producer s) as [|v|v|t| |f] eqn:Ep; spread;
    try match goal with H : fst (work w0) = Crash ?f |- _ => by destruct (Hn f) end;
    (split; [intros f; split; congruence|]); intros o Ho; try congruence.
  assert (o = fst (work w0)) as -> by congruence. split; [|done].
  destruct (work w0); simpl in *; congruence.
Qed.

(** At most nine steps; and somebody can go on until the caller has returned. *)
Definition producer_left (p : producer_pc) : nat :=
  match p with PPosted => 4 | PWrite _ => 3 | PExch _ => 2 | PCall _ => 1 | _ => 0 end.
Definition consumer_left (c : consumer_pc) : nat :=
  match c with CReady => 5 | CSuspend => 4 | CBlocked => 3 | CResume => 2 | _ => 0 end.
Definition steps_left s : nat := producer_left (producer s) + consumer_left (consumer s).

Lemma steps_left_decreases l s s' : shot_inv s -> True -> next l s = Some s' -> shot_inv s' /\ steps_left s' < steps_left s.
Proof.
  intros Hi _ Hs. split; [destruct l; [by eapply shot_producer_inv|by eapply shot_consumer_inv]|].
  unfold steps_left. destruct l; simpl in Hs; [unfold producer_step in Hs|unfold consumer_step in Hs].
  - unfold shot_inv in Hi. destruct s as [fr w p c]; simpl in *. unfold untouched in Hi. simpl in Hi.
    destruct p as [|v|v|t| |f]; spread; subst; try done.
    + destruct (work w0) as [[y|e|e] w1]; simplify_eq; simpl; lia.
    + simplify_eq. simpl. lia.
    + destruct c; simpl in Hs; simplify_eq; simpl; lia.
    + simplify_eq. simpl. lia.
  - destruct s as [fr w p c]; simpl in *. destruct c, fr as [d|]; simplify_eq; simpl; try lia.
    + destruct (LightFuture.await_ready d); simpl; lia.
    + destruct (LightFuture.await_suspend 0 d) as [[[]|?|?] ?]; simpl; lia.
    + destruct (fst (LightFuture.await_resume d)); simpl; lia.
Qed.

Lemma shot_ends ls s :
  run next ls (init w0) = Some s -> (forall f, fst (work w0) <> Crash f) ->
  length ls <= 9 /\ ((forall o, consumer s <> CReturned o) -> exists l s', next l s = Some s').
Proof.
  intros Hr Hn. assert (Hi : shot_inv s) by (apply shot_inv_reachable; by exists ls).
  assert (H0 : shot_inv (init w0)) by (apply shot_inv_reachable, reachable_refl). split.
  - pose proof (work_bounds next (fun _ => True) steps_left shot_inv steps_left_decreases ls _ s H0
      (proj2 (Forall_forall _ _) (fun _ _ => I)) Hr) as Hw. change (steps_left (init w0)) with 9 in Hw. lia.
  - intros Hc. destruct (producer s) as [|v|v|t| |f] eqn:Ep.
    + exists LProducer. simpl. unfold producer_step. rewrite Ep. by eexists.
    + exists LProducer. simpl. unfold producer_step. rewrite Ep. destruct (frame s); by eexists.
    + exists LProducer. simpl. unfold producer_step. rewrite Ep. destruct (frame s); by eexists.
    + exists LProducer. simpl. unfold producer_step. rewrite Ep. by eexists.
    + unfold shot_inv in Hi. rewrite Ep in Hi.
      destruct Hi as (_ & [[Hp (v & _ & Hf)]|[Hp _]]); [|by destruct (Hc _ Hp)].
      exists LConsumer. simpl. unfold consumer_step. rewrite Hf. destruct Hp as [->|[->| ->]]; by eexists.
    + unfold shot_inv in Hi. rewrite Ep in Hi. destruct Hi as [Hf _]. by destruct (Hn f).
Qed.
End invariant.
End oneshot.
Arguments state : clear implicits.
