(* ===== verification/YieldTo.v ===== *)
(** * [yieldto.hpp]: a handler that assigns variables of a coroutine

    [yieldTo(a, b)] is a temporary that holds references and a future;
    [*yieldTo(a, b)] is a handler for an asynchronous operation. Whoever completes
    the operation calls the handler, which assigns the references and sets the
    future; the temporary's destructor awaits it. *)

From S2P Require Import Prelude Future OneShot.

Section yieldto.
Context {V : Type}.

(** A reference to a variable of the caller, or to [ignoreParam]. *)
Inductive reference : Type :=
  | Var (x : nat)
  | IgnoreParam.

(** [operator=] through a reference; that of [IgnoreParam] does nothing. *)
Definition assign (r : reference) (v : V) (vars : list V) : list V :=
  match r with
  | Var x => <[x := v]> vars
  | IgnoreParam => vars
  end.

(** [parent->args = std::forward_as_tuple(args...)]: component by component. *)
Fixpoint assign_tuple (args : list reference) (vals : list V) (vars : list V) : list V :=
  match args, vals with
  | r :: args, v :: vals => assign_tuple args vals (assign r v vars)
  | _, _ => vars
  end.

(** [Ref::operator()(args...)], up to [parent->p.set_value(StatelessT{})]. *)
Definition Ref_call (args : list reference) (vals : list V) : M (list V) StatelessT :=
  fun vars => (Ret stateless, assign_tuple args vals vars).

(** The handler against [~YieldTo() { co::await(p); }]. *)
Definition YieldTo (vars : list V) : state (list V) StatelessT := init vars.
Definition step_of (args : list reference) (vals : list V) :
    label -> state (list V) StatelessT -> option (state (list V) StatelessT) := next (Ref_call args vals).

(** ** The variables afterwards *)

Definition vars_of (args : list reference) : list nat :=
  omap (fun r => match r with Var x => Some x | IgnoreParam => None end) args.

Lemma assign_other r v vars x : r <> Var x -> assign r v vars !! x = vars !! x.
Proof. destruct r as [y|]; simpl; [|done]. intros H. apply list_lookup_insert_ne. congruence. Qed.

Lemma tuple_other args vals vars x : x ∉ vars_of args -> assign_tuple args vals vars !! x = vars !! x.
Proof.
  revert vals vars. induction args as [|r args IH]; intros vals vars Hx; [done|].
  destruct vals as [|v vals]; [done|]. simpl. rewrite IH.
  - apply assign_other. intros ->. apply Hx. unfold vars_of. simpl. by left.
  - intros H. apply Hx. unfold vars_of in *. destruct r; simpl; [by right|done].
Qed.

Lemma tuple_length args vals vars : length (assign_tuple args vals vars) = length vars.
Proof.
  revert vals vars. induction args as [|r args IH]; intros [|v vals] vars; simpl; try done.
  rewrite IH. destruct r; simpl; [apply length_insert|done].
Qed.

Lemma tuple_assigned args vals vars i x v :
  NoDup (vars_of args) -> args !! i = Some (Var x) -> vals !! i = Some v -> x < length vars ->
  assign_tuple args vals vars !! x = Some v.
Proof.
  revert vals vars i. induction args as [|r args IH]; intros vals vars i Hd Ha Hv Hx; [done|].
  destruct vals as [|v' vals]; [by destruct i|]. destruct i as [|i]; simpl in *.
  - simplify_eq. unfold vars_of in Hd. simpl in Hd. apply NoDup_cons in Hd as [Hn _].
    rewrite tuple_other by done. by apply list_lookup_insert_eq.
  - apply (IH _ _ i); try done.
    + unfold vars_of in Hd. destruct r; simpl in Hd; [by apply NoDup_cons in Hd as [_ Hd]|done].
    + destruct r; simpl; [by rewrite length_insert|done].
Qed.
End yieldto.

(** C34: after the statement [async_op(..., *yieldTo(args...))] the variables hold
    what the operation's handler was called with, those that are not in [args]
    are as they were, and the handler has done its last access: in no schedule is
    the temporary used after its end, or the handler's future set twice. *)
Theorem yieldTo_assigns {V} (args : list reference) (vals vars : list V) s :
  reachable (step_of args vals) (YieldTo vars) s ->
  NoDup (vars_of args) -> (forall x, x ∈ vars_of args -> x < length vars) ->
  (forall f, producer s <> PFault f /\ consumer s <> CFault f) /\
  (forall o, consumer s = CReturned o ->
     o = Ret stateless /\ producer s = PDone /\
     (forall i x v, args !! i = Some (Var x) -> vals !! i = Some v -> world s !! x = Some v) /\
     (forall x, x ∉ vars_of args -> world s !! x = vars !! x)).
Proof.
  intros Hr Hd Hx. destruct (shot_result _ vars s Hr) as [Hf Ho]; [done|].
  split; [done|]. intros o [[= Eo Ew] Ep]%Ho. split_and!; try done; rewrite Ew.
  - intros i x v Hi Hv. eapply tuple_assigned; try done. apply Hx.
    apply list_elem_of_lookup_2 in Hi. unfold vars_of. apply list_elem_of_omap. by exists (Var x).
  - intros x Hn. by apply tuple_other.
Qed.

Lemma yieldTo_assigns_witness :
  exists s, run (step_of [Var 1; IgnoreParam; Var 0] [7; 8; 9]) [LConsumer; LConsumer; LProducer; LProducer; LProducer; LProducer; LConsumer]
    (YieldTo [0; 0; 3]) = Some s /\ world s = [9; 7; 3] /\ world s !! 1 = Some 7.
Proof.
  eexists. split; [vm_compute; reflexivity|]. split; [reflexivity|].
  refine (proj1 (proj2 (proj2 (proj2 (yieldTo_assigns [Var 1; IgnoreParam; Var 0] [7; 8; 9] [0; 0; 3] _ _ _ _)
    (Ret stateless) _))) 0 1 7 eq_refl eq_refl).
  - eexists [LConsumer; LConsumer; LProducer; LProducer; LProducer; LProducer; LConsumer]. vm_compute. reflexivity.
  - apply (bool_decide_unpack _). vm_compute. exact I.
  - intros x Hx. vm_compute in Hx. repeat (apply elem_of_cons in Hx as [->|Hx]; [simpl; lia|]). by apply elem_of_nil in Hx.
  - reflexivity.
Defined.
