(* ===== verification/Async.v ===== *)
(** * [async.hpp]: [async] and [runOutsideOfCoroutine]

    [async] posts a coroutine that runs a function and puts its outcome into a
    promise; its caller has the future. [runOutsideOfCoroutine] runs a function
    on the io_context of the current coroutine, which awaits the outcome in a
    future on its stack, or inline when there is no coroutine. A function is a
    computation on a world [W]. *)

From S2P Require Import Prelude Future OneShot.

Local Open Scope co_scope.

(** ** [async] *)

Section async.
Context {Task T W : Type} `{EqDecision Task}.
Abbreviation heap := (gmap nat (LightFutureData Task T)).

Definition on_heap {A} (m : M heap A) : M (heap * W) A := fun '(h, w) =>
  let '(o, h) := m h in (o, (h, w)).
Definition on_world {A} (m : M W A) : M (heap * W) A := fun '(h, w) =>
  let '(o, w) := m w in (o, (h, w)).

(** [try { p.set_value(func()); } catch (...) { p.set_exception(...); }]: the
    body of the coroutine; it gives the task that the future's waiter left, which
    is called next. *)
Definition fun_ (func : M W T) (p : Shared.promise) : M (heap * W) (option Task) :=
  try_catch (let! v := on_world func in on_heap (Shared.promise_set_value p v))
            (fun e => on_heap (Shared.promise_set_exception p e)).

(** [async]: the future it returns, and the promise that the posted function
    object owns. *)
Definition async : M heap (Shared.future * Shared.promise) :=
  let! p := Shared.promise_new in ret (Shared.get_future p, p).

(** What the task of a waiting consumer becomes. *)
Definition waiting_task (c : handle Task) : option Task := match c with TaskPtr t => Some t | _ => None end.

End async.

(** ** [runOutsideOfCoroutine] *)

Section outside.
Context {W T : Type}.

(** Without a coroutine the call is over at once; else it is the system of
    [OneShot.v]. *)
Definition runOutsideOfCoroutine (current : bool) (func : M W T) (w : W) : (outcome T * W) + state W T :=
  if current then inr (init w) else inl (func w).

(** For a function that returns [void]: [func(); f.set_value({});] *)
Definition void_work (func : M W unit) : M W StatelessT := do! func in ret stateless.

(** A possible result of a call. *)
Definition results (func : M W T) (call : (outcome T * W) + state W T) (r : outcome T * W) : Prop :=
  match call with
  | inl x => x = r
  | inr s0 => exists s, reachable (next func) s0 s /\ consumer s = CReturned (fst r) /\ world s = snd r
  end.

(** C35: [runOutsideOfCoroutine(func)] cannot be told from [func()]: in a
    coroutine or not, in every schedule, it returns what [func()] returns, throws
    what it throws and leaves the world that it leaves - and some schedule gets
    there. *)
Theorem runOutside_transparent (current : bool) (func : M W T) w r :
  (forall e, fst (func w) <> Crash e) ->
  results func (runOutsideOfCoroutine current func w) r <-> r = func w.
Proof.
  intros Hn. destruct current; [|by split]. simpl. split.
  - intros (s & Hr & Hc & Hw). destruct (shot_result _ _ _ Hr Hn) as [_ H].
    destruct (H _ Hc) as [E _]. destruct r; simpl in *; congruence.
  - intros ->. destruct (func w) as [[x|e|e] w1] eqn:Ew; [| |by destruct (Hn e)].
    + exists (St None w1 PDone (CReturned (Ret x))). split; [|done].
      exists [LProducer; LProducer; LProducer; LConsumer; LConsumer]. simpl. unfold producer_step. simpl. by rewrite Ew.
    + exists (St None w1 PDone (CReturned (Throw e))). split; [|done].
      exists [LProducer; LProducer; LProducer; LConsumer; LConsumer]. simpl. unfold producer_step. simpl. by rewrite Ew.
Qed.

(** ... and every call ends: no schedule has more than nine steps, and
    until the caller has returned somebody can go on. *)
Theorem runOutside_ends (func : M W T) w ls s :
  (forall e, fst (func w) <> Crash e) ->
  runOutsideOfCoroutine true func w = inr (init w) /\
  (run (next func) ls (init w) = Some s ->
   length ls <= 9 /\ ((forall o, consumer s <> CReturned o) -> exists l s', next func l s = Some s')).
Proof. intros Hn. split; [done|]. intros Hr. by apply (shot_ends func w). Qed.
End outside.

(** ** Examples *)

Module Sample.
(** A function that counts its calls, and throws on the second one. *)
Definition func : M nat nat := fun n => if n =? 1 then (Throw (user_exn 3), 2) else (Ret (n + 10), S n).
Definition script : list label := [LConsumer; LConsumer; LProducer; LProducer; LProducer].
Definition state : OneShot.state nat nat := default (init 1) (run (next func) script (init 1)).
End Sample.


Lemma runOutside_transparent_witness :
  results Sample.func (runOutsideOfCoroutine true Sample.func 1) (Throw (user_exn 3), 2).
Proof. apply (runOutside_transparent true Sample.func 1); [intros e; discriminate|reflexivity]. Defined.

Lemma runOutside_ends_witness :
  consumer Sample.state = CBlocked /\ (exists l s', next Sample.func l Sample.state = Some s').
Proof.
  split; [vm_compute; reflexivity|].
  apply (proj2 (runOutside_ends Sample.func 1 Sample.script Sample.state ltac:(intros e; discriminate)));
    [vm_compute; reflexivity|intros o; vm_compute; discriminate].
Defined.
