(* ===== verification/Await.v ===== *)
(** * [await.hpp]: awaiters, and [co::await] in coroutines and threads

    An awaiter is a record of the four operations that [co::await] uses, on a
    world that other threads change while the coroutine is suspended. The
    awaiters of asio timers, io_contexts and pplx tasks have the third-party
    operations as parameters. How a suspended coroutine is resumed is the subject
    of [Routine.v]. *)

From S2P Require Import Prelude Future.

Local Open Scope co_scope.

(** ** [co::await] *)

Record Awaiter (St T : Type) : Type := {
  await_ready : M St bool;
  await_resume : M St T;
  await_suspend : M St bool;
  await_synchron : option (M St T);   (** the class may not have it *)
}.
Arguments await_ready {St T} _.
Arguments await_resume {St T} _.
Arguments await_suspend {St T} _.
Arguments await_synchron {St T} _.

Section await.
Context {St T : Type}.
Implicit Types (a : Awaiter St T).

Definition supportsSynchronAwait a : bool := match await_synchron a with Some _ => true | None => false end.

(** [SupportsSynchronAwait<T>::operator()] *)
Definition SynchronAwait a : M St T :=
  match await_synchron a with Some m => m | None => throw runtime_error end.

(** [between]: what other threads do before [await_suspend], which the
    coroutine that has been left calls; [meanwhile]: what they do until its
    runner is called. *)
Definition await (current : bool) (between meanwhile : St -> St) a : M St T :=
  do! assert_ (supportsSynchronAwait a || current) in
  let! ready := await_ready a in
  if ready then await_resume a
  else if negb current then SynchronAwait a
  else
    do! (fun s => (Ret tt, between s)) in
    let! suspended := await_suspend a in
    do! (fun s => (Ret tt, if suspended then meanwhile s else s)) in
    await_resume a.
End await.

(** ** The awaiters *)

(** [DefaultAwaiter<T>] with [await_synchron], of a [LightFutureData]. *)
Definition DefaultAwaiter {T} (task : nat) : Awaiter (LightFutureData nat T) T := {|
  await_ready := fun d => (Ret (LightFuture.await_ready d), d);
  await_resume := LightFuture.await_resume;
  await_suspend := LightFuture.await_suspend task;
  await_synchron := Some (LightFuture.await_synchron task);
|}.

(** [Awaiter<io_context>]: [mIoc.post(std::ref(cb))] *)
Definition IoContextAwaiter {Ioc} (post : Ioc -> Ioc) : Awaiter Ioc unit := {|
  await_ready := ret false;
  await_resume := ret tt;
  await_suspend := fun s => (Ret true, post s);
  await_synchron := None;
|}.

Definition throwError (error : Z) : outcome unit :=
  if (error =? 0)%Z then Ret tt else Throw (system_error error).

(** [deadline_timer]: the microseconds that are left, and [async_wait];
    [std::this_thread::sleep_for]. *)
Class Timers (Clock : Type) := {
  expires_from_now : Clock -> Z;
  async_wait : Clock -> Clock;
  sleep_for : Z -> Clock -> Clock;
  deadline_timer : Z -> Clock -> Clock;
}.

Section timers.
Context {Clock : Type} `{Timers Clock}.

(** [Awaiter<deadline_timer>]; [mTimeoutError] is beside the clock. *)
Definition TimerAwaiter : Awaiter (Clock * Z) unit := {|
  await_ready := fun '(c, e) => (Ret (expires_from_now c <? 0)%Z, (c, e));
  await_resume := fun '(c, e) => (throwError e, (c, e));
  await_suspend := fun '(c, e) => (Ret true, (async_wait c, e));
  await_synchron := Some (fun '(c, e) => (Ret tt, (sleep_for (expires_from_now c) c, e)));
|}.

(** The handler that [await_suspend] registers, up to [cb()]. *)
Definition timer_handler (ec : Z) (s : Clock * Z) : Clock * Z := (s.1, ec).

(** [Awaiter<duration>]: [asioSleep], and the timer's awaiter. *)
Definition asioSleep (us : Z) (c : Clock) : Clock := deadline_timer us c.
Definition DurationAwaiter (us : Z) (c : Clock) : (Clock * Z) * Awaiter (Clock * Z) unit :=
  ((asioSleep us c, 0%Z), TimerAwaiter).
End timers.

(** [Awaiter<pplx::task<T>>] *)
Definition PplxAwaiter {Task T} (is_done : Task -> bool) (get : M Task T) (then_ : Task -> Task) : Awaiter Task T := {|
  await_ready := fun t => (Ret (is_done t), t);
  await_resume := get;
  await_suspend := fun t => (Ret true, then_ t);
  await_synchron := Some get;
|}.

(** ** The handle [Routine], as what is awaited

    [d] of a handle, and the [mResult] of its [Data]. [Routine::await_suspend] is a
    protocol of several atomic accesses, which [Routine.v] has. *)

Module Routine.
Section handle.
Abbreviation world := (option (LightFutureData nat StatelessT)).

Definition joinable (d : world) : bool := bool_decide (d <> None).

(** [d->mResult.m()] *)
Definition mResult {A} (m : M (LightFutureData nat StatelessT) A) : M world A := fun d =>
  match d with
  | None => (Crash NullDeref, d)
  | Some x => let '(o, x) := m x in (o, Some x)
  end.

Definition assert_joinable {A} (m : M world A) : M world A :=
  let! d := get_st in do! assert_ (joinable d) in m.

Definition join (task : nat) : M world unit := mResult (LightFuture.get_blocking_void task).
Definition await_synchron (task : nat) : M world unit := assert_joinable (join task).
Definition is_ready : M world bool := assert_joinable (mResult (fun x => (Ret (LightFuture.is_ready x), x))).
Definition await_ready : M world bool :=
  assert_joinable (mResult (fun x => (Ret (LightFuture.is_ready_weak x), x))).
Definition await_resume : M world unit := assert_joinable (mResult LightFuture.get_unchecked_void).
End handle.
End Routine.

(** ** [toBoostPosixTime] *)

Definition int64 (z : Z) : option Z := if (- 2 ^ 63 <=? z)%Z && (z <? 2 ^ 63)%Z then Some z else None.

(** [duration_cast<microseconds>] of [count] units of [num/den] seconds: the
    ratio is reduced, the product must fit, and the quotient is truncated. *)
Definition toBoostPosixTime (num den : Z) (count : Z) : option Z :=
  let g := Z.gcd (num * 1000000) den in
  match int64 (count * (num * 1000000 / g)) with
  | Some x => Some (Z.quot x (den / g))
  | None => None
  end.

(** ** Properties *)

Section properties.

(** Awaiting a routine that is over gives how it ended, at once and whenever it is
    asked, and leaves the handle as it is. A handle without a coroutine fails its
    assertion; only [join] has none, and dereferences null. *)
Theorem handle_branches task (o : outcome unit) v :
  (forall f, o <> Crash f) -> v = match o with Throw e => Exc e | _ => Val stateless end ->
  let d := Some (LFD InvalidHandle v) in
  Routine.is_ready d = (Ret true, d) /\ Routine.await_ready d = (Ret true, d) /\
  Routine.await_resume d = (o, d) /\ Routine.join task d = (o, d) /\ Routine.await_synchron task d = (o, d) /\
  Routine.is_ready None = (Crash AssertFailed, None) /\ Routine.await_ready None = (Crash AssertFailed, None) /\
  Routine.await_resume None = (Crash AssertFailed, None) /\
  Routine.await_synchron task None = (Crash AssertFailed, None) /\
  Routine.join task None = (Crash NullDeref, None).
Proof. intros Hn ->. by destruct o as [[]|e|f]; [..|destruct (Hn f)]. Qed.

(** awaiting a future gives what it is set to, whenever that happens:
    before, between the check and the suspension, or while the coroutine is
    suspended. *)
Theorem await_future {T} task (between meanwhile : LightFutureData nat T -> LightFutureData nat T)
    (d : LightFutureData nat T) r :
  continuationPtr d <> InvalidHandle -> (forall t, continuationPtr d <> TaskPtr t) ->
  (exists v, ValueHandling.get v = r /\
    (between d = LFD InvalidHandle v \/
     (between d = d /\ forall d', continuationPtr d' = TaskPtr task -> meanwhile d' = LFD InvalidHandle v))) ->
  fst (await true between meanwhile (DefaultAwaiter task) d) = r.
Proof.
  intros Hn Ht (v & Hv & Hb). destruct d as [[| |t] x]; [|done|by destruct (Ht t)].
  unfold await, DefaultAwaiter, assert_, bind, ret. simpl.
  destruct Hb as [->|[-> Hm]]; simpl; [done|]. by rewrite Hm.
Qed.

(** awaiting a timer, or a duration, outside of a coroutine sleeps for what
    is left and never fails; in a coroutine it returns at once when the timer has
    expired, and else returns or throws by the error code that the timer's handler
    was called with. An io_context can only be awaited in a coroutine. *)
Theorem await_timer {Clock} `{Timers Clock} (c : Clock) (between meanwhile : Clock * Z -> Clock * Z) ec us :
  (forall s, meanwhile s = timer_handler ec s) ->
  let '(s0, a) := DurationAwaiter us c in
  let t := deadline_timer us c in
  fst (await false between meanwhile a s0) = Ret tt /\
  ((expires_from_now t <? 0)%Z = false ->
    snd (await false between meanwhile a s0) = (sleep_for (expires_from_now t) t, 0%Z) /\
    fst (await true between meanwhile a s0) = if (ec =? 0)%Z then Ret tt else Throw (system_error ec)) /\
  ((expires_from_now t <? 0)%Z = true -> await true between meanwhile a s0 = (Ret tt, s0)) /\
  (forall Ioc (post b m : Ioc -> Ioc) i, await false b m (IoContextAwaiter post) i = (Crash AssertFailed, i) /\
     await true b m (IoContextAwaiter post) i = (Ret tt, m (post (b i)))).
Proof.
  intros Hm. simpl. unfold await, assert_, bind, ret, crash, asioSleep. simpl. split_and!; try done.
  - by destruct (expires_from_now _ <? 0)%Z.
  - intros ->. simpl. split; [done|]. rewrite (surjective_pairing (between _)). simpl. rewrite Hm. simpl.
    unfold throwError. by destruct (ec =? 0)%Z.
  - intros ->. done.
Qed.

(** [toBoostPosixTime] gives the whole microseconds of a duration, rounded
    towards zero, if its product with the ratio fits 64 bits: a timer is never
    set for longer than the duration, and by less than a microsecond for less. *)
Theorem toBoostPosixTime_bounds num den count us :
  (0 < num)%Z -> (0 < den)%Z -> toBoostPosixTime num den count = Some us ->
  us = Z.quot (count * num * 1000000) den /\
  (Z.abs us * den <= Z.abs count * num * 1000000 < (Z.abs us + 1) * den)%Z /\
  (0 <= us * count)%Z.
Proof.
  intros Hn Hd H. unfold toBoostPosixTime in H. destruct (int64 _) as [x|] eqn:Ex; [|done].
  unfold int64 in Ex. case_match; [|done]. simplify_eq.
  set (g := Z.gcd (num * 1000000) den).
  assert (Hg : (0 < g)%Z).
  { pose proof (Z.gcd_nonneg (num * 1000000) den). assert (g <> 0)%Z; [|unfold g in *; lia].
    unfold g. intros E. apply Z.gcd_eq_0_r in E. lia. }
  destruct (Z.gcd_divide_l (num * 1000000) den) as [a Ha]. destruct (Z.gcd_divide_r (num * 1000000) den) as [b Hb].
  fold g in Ha, Hb |- *.
  assert (num * 1000000 / g = a)%Z as -> by (rewrite Ha; apply Z.div_mul; lia).
  assert (den / g = b)%Z as -> by (rewrite Hb at 1; apply Z.div_mul; lia).
  assert (E : Z.quot (count * a) b = Z.quot (count * num * 1000000) den).
  { replace (count * num * 1000000)%Z with (count * a * g)%Z by (rewrite <- !Z.mul_assoc; f_equal; lia).
    replace (Z.quot (count * a * g) den) with (Z.quot (count * a * g) (b * g)) by (by rewrite <- Hb).
    rewrite Z.quot_mul_cancel_r; [done|nia|lia]. }
  rewrite E. split; [done|].
  assert (Hq : (Z.abs (Z.quot (count * num * 1000000) den) = Z.abs count * num * 1000000 / den)%Z).
  { rewrite <- Z.quot_abs by lia. rewrite !Z.abs_mul, (Z.abs_eq num), (Z.abs_eq den) by lia.
    change (Z.abs 1000000) with 1000000%Z. rewrite Z.quot_div_nonneg; lia. }
  rewrite Hq. pose proof (Z.div_mod (Z.abs count * num * 1000000) den ltac:(lia)).
  pose proof (Z.mod_pos_bound (Z.abs count * num * 1000000) den Hd). split; [nia|].
  destruct (Z_le_dec 0 count) as [Hc|Hc].
  - apply Z.mul_nonneg_nonneg; [|done]. apply Z.quot_pos; nia.
  - assert (Z.quot (count * num * 1000000) den <= 0)%Z; [|nia].
    rewrite <- (Z.opp_involutive (count * num * 1000000)), Z.quot_opp_l by lia.
    assert (0 <= Z.quot (- (count * num * 1000000)) den)%Z by (apply Z.quot_pos; nia). lia.
Qed.
End properties.

(** ** Examples *)

Module Sample.
(** A clock and the time at which the timer expires. *)
#[export] Instance timers : Timers (Z * Z) := {|
  expires_from_now c := (c.2 - c.1)%Z;
  async_wait c := c;
  sleep_for us c := ((c.1 + Z.max 0 us)%Z, c.2);
  deadline_timer us c := (c.1, (c.1 + us)%Z);
|}.
End Sample.
Import Sample.

Lemma await_future_witness :
  fst (await true id (fun _ => LFD InvalidHandle (Val 5)) (DefaultAwaiter 1) LightFuture.make) = Ret 5.
Proof.
  apply (await_future 1 id (fun _ => LFD InvalidHandle (Val 5)) LightFuture.make (Ret 5));
    [discriminate|discriminate|]. exists (Val 5). split; [reflexivity|]. right. split; reflexivity.
Defined.

Lemma await_timer_witness :
  let '(s0, a) := DurationAwaiter 10 (100, 0)%Z in
  snd (await false id (timer_handler 125) a s0) = ((110, 110), 0)%Z /\
  fst (await true id (timer_handler 125) a s0) = Throw (system_error 125).
Proof.
  exact (proj1 (proj2 (await_timer (100, 0)%Z id (timer_handler 125) 125 10 (fun _ => eq_refl))) eq_refl).
Defined.

(** 2500 nanoseconds, and three half seconds before now. *)
Lemma toBoostPosixTime_bounds_witness :
  toBoostPosixTime 1 1000000000 2500 = Some 2%Z /\
  toBoostPosixTime 1 2 (-3) = Some (-1500000)%Z /\ (0 <= 2 * 2500)%Z.
Proof.
  split; [vm_compute; reflexivity|]. split; [vm_compute; reflexivity|].
  apply (toBoostPosixTime_bounds 1 1000000000 2500 2 eq_refl eq_refl). vm_compute. reflexivity.
Defined.
