(* ===== verification/Executor.v ===== *)
(** * [executor.hpp]: the default io_context, and threads that run one

    The provider of the default io_context is a global variable. An object of
    class [IoContextThreads] keeps an io_context busy and has threads that run
    it; a thread can be joined once. The number of threads is computed in double
    precision, which is that of the Standard Library's [SpecFloat]. *)

From S2P Require Import Prelude.
From Stdlib Require Import SpecFloat.

Local Open Scope co_scope.

(** ** The default io_context *)

Section provider.
Context {G IoContext : Type}.   (* what providers can look at, and io_contexts *)

(** [currentIoContextProvider()], and the static io_context of
    [defaultIoContextProvider] *)
Record globals : Type := Globals {
  provider : option (G -> IoContext);    (** [None]: [&defaultIoContextProvider] *)
  ioc : IoContext;
  others : G;
}.

Definition currentIoContextProvider (g : globals) : G -> IoContext :=
  match provider g with Some f => f | None => fun _ => ioc g end.
Definition setDefaultIoContextProvider (ioContextProvider : G -> IoContext) (g : globals) : globals :=
  Globals (Some ioContextProvider) (ioc g) (others g).
Definition defaultIoContext (g : globals) : IoContext := currentIoContextProvider g (others g).
End provider.

(** ** [IoContextThreads] *)

(** An io_context: is it stopped, and how many [work] objects keep it busy. *)
Record io_context : Type := Ioc { stopped : bool; work : nat }.

Record IoContextThreads : Type := Threads {
  mIosWork : bool;          (** [boost::optional<work>]: is it engaged? *)
  mThreads : list bool;     (** is the thread joinable? *)
}.

Record executor : Type := Ex { context : io_context; threads : IoContextThreads }.

(** [IoContextThreads(cnt, ioc)] *)
Definition construct (cnt : nat) (c : io_context) : executor :=
  let c := Ioc (stopped c) (S (work c)) in
  let c := if stopped c then Ioc false (work c) else c in
  Ex c (Threads true (replicate cnt true)).

(** [boost::optional<work>::reset()] *)
Definition reset_work : M executor unit := fun x =>
  (Ret tt, if mIosWork (threads x)
           then Ex (Ioc (stopped (context x)) (work (context x) - 1)) (Threads false (mThreads (threads x)))
           else x).

(** [std::thread::join()]: it throws when the thread is not joinable; 22 is [EINVAL].
    The thread ends when nothing keeps its io_context busy, and no other thread is
    about to change that. *)
Definition join (i : nat) : M executor unit := fun x =>
  match mThreads (threads x) !! i with
  | Some true =>
      if work (context x) =? 0
      then (Ret tt, Ex (context x) (Threads (mIosWork (threads x)) (<[i := false]> (mThreads (threads x)))))
      else (Crash Blocks, x)
  | _ => (Throw (system_error 22), x)
  end.

(** [for (auto& t : mThreads) t.join();] *)
Fixpoint join_from (i n : nat) : M executor unit :=
  match n with
  | 0 => ret tt
  | S n => do! join i in join_from (S i) n
  end.

Definition size (x : executor) : nat := length (mThreads (threads x)).

Definition joinAll : M executor unit := fun x => (do! reset_work in join_from 0 (size x)) x.

(** [~IoContextThreads()]: an exception that leaves a destructor terminates. *)
Definition destructor : M executor unit := try_catch joinAll (fun _ => crash Terminated).

(** [IoContextThreads(IoContextThreads&&) = default]: the new object, with the
    io_context, and what is left of the old one. A [work] is copied, which keeps the
    io_context busy once more, and the [optional] that it is moved from stays engaged;
    the vector that is moved from is empty. *)
Definition move_construct (x : executor) : executor * IoContextThreads :=
  (Ex (Ioc (stopped (context x)) (work (context x) + if mIosWork (threads x) then 1 else 0)) (threads x),
   Threads (mIosWork (threads x)) []).

(** The destruction of another object of the same io_context. *)
Definition destroy_other (t : IoContextThreads) : M executor unit := fun x =>
  let '(o, y) := destructor (Ex (context x) t) in (o, Ex (context y) (threads x)).

(** [usePercentageOfHardwareThreads]: the count of threads. [static_cast<int>]
    of a double truncates; it is undefined out of the range of [int]. *)
Definition of_int (n : Z) : spec_float := binary_normalize 53 1024 n 0 false.

Definition to_int (f : spec_float) : option Z :=
  match f with
  | S754_zero _ => Some 0%Z
  | S754_finite s m e =>
      let v := if (0 <=? e)%Z then (Zpos m * 2 ^ e)%Z else (Zpos m / 2 ^ (- e))%Z in
      let v := if s then (- v)%Z else v in
      if (- 2 ^ 31 <=? v)%Z && (v <? 2 ^ 31)%Z then Some v else None
  | _ => None
  end.

Definition hwThreads (hardware_concurrency : Z) (percent : spec_float) : option Z :=
  Z.max 1 <$> to_int (SFdiv 53 1024 (SFmul 53 1024 (of_int hardware_concurrency) percent) (of_int 100)).

Definition usePercentageOfHardwareThreads (hardware_concurrency : Z) (percent : spec_float) (c : io_context) :
    option executor :=
  (fun n => construct (Z.to_nat n) c) <$> hwThreads hardware_concurrency percent.

(** ** Properties *)

Lemma join_from_spec n : forall i x,
  work (context x) = 0 ->
  (forall k, i <= k < i + n -> mThreads (threads x) !! k = Some true) ->
  exists ts, join_from i n x = (Ret tt, Ex (context x) (Threads (mIosWork (threads x)) ts)) /\
    length ts = size x /\
    (forall k, ts !! k = if decide (i <= k < i + n) then Some false else mThreads (threads x) !! k).
Proof.
  induction n as [|n IH]; intros i [c [w ts]] Hw Hk; simpl in *.
  - exists ts. split_and!; [done|done|]. intros k. case_decide; [lia|done].
  - unfold bind, join. simpl. rewrite (Hk i) by lia. rewrite Hw. simpl.
    destruct (IH (S i) (Ex c (Threads w (<[i := false]> ts)))) as (ts' & E & Hl & H); [done| |].
    { intros k Hr. simpl. rewrite list_lookup_insert_ne by lia. apply Hk. lia. }
    exists ts'. split; [exact E|]. split; [by rewrite Hl; unfold size; simpl; rewrite length_insert|].
    intros k. rewrite H. simpl. destruct (decide (k = i)) as [->|Hne].
    + rewrite (decide_False (P := S i <= i < S i + n)), (decide_True (P := i <= i < i + S n)) by lia.
      apply list_lookup_insert_eq. eapply lookup_lt_Some, Hk. lia.
    + rewrite list_lookup_insert_ne by done. repeat case_decide; try done; lia.
Qed.

(** The last [work] of an io_context. *)
Lemma joinAll_last cnt b :
  joinAll (Ex (Ioc b 1) (Threads true (replicate cnt true))) =
  (Ret tt, Ex (Ioc b 0) (Threads false (replicate cnt false))).
Proof.
  unfold joinAll, bind, reset_work. simpl. unfold size. simpl. rewrite length_replicate.
  destruct (join_from_spec cnt 0 (Ex (Ioc b 0) (Threads false (replicate cnt true)))) as (ts & -> & Hl & H); [done| |].
  - intros k Hk. simpl. apply lookup_replicate. lia.
  - simpl. do 3 f_equal. apply list_eq. intros k. rewrite H. simpl.
    destruct (decide (k < cnt)).
    + rewrite decide_True by lia. symmetry. apply lookup_replicate. lia.
    + rewrite decide_False by lia. symmetry. rewrite !lookup_ge_None_2; [done|rewrite length_replicate; lia..].
Qed.

Lemma construct_fresh cnt b : construct cnt (Ioc b 0) = Ex (Ioc false 1) (Threads true (replicate cnt true)).
Proof. by destruct b. Qed.

(** [joinAll] joins every thread and gives the io_context back with nothing that
    keeps it busy; so does the destructor. But after [joinAll] by hand the destructor
    terminates the program, as soon as there is a thread. *)
Theorem joinAll_once cnt b :
  let x := construct cnt (Ioc b 0) in
  let joined := Ex (Ioc false 0) (Threads false (replicate cnt false)) in
  joinAll x = (Ret tt, joined) /\ destructor x = (Ret tt, joined) /\
  fst (destructor joined) = if cnt =? 0 then Ret tt else Crash Terminated.
Proof.
  cbv zeta. rewrite construct_fresh. unfold destructor, try_catch. rewrite joinAll_last.
  split_and!; [done..|]. by destruct cnt.
Qed.

(** After a move the old object has no threads but still keeps the io_context
    busy: its destruction, and then [joinAll] of the new one, end as if there had
    been no move, but [joinAll] of the new one waits for ever while the old one lives. *)
Theorem moved_from_keeps_busy cnt b :
  let '(x, old) := move_construct (construct cnt (Ioc b 0)) in
  let joined := Ex (Ioc false 0) (Threads false (replicate cnt false)) in
  mThreads old = [] /\ threads x = threads (construct cnt (Ioc b 0)) /\
  (do! destroy_other old in joinAll) x = (Ret tt, joined) /\
  fst (joinAll x) = if cnt =? 0 then Ret tt else Crash Blocks.
Proof.
  rewrite construct_fresh. simpl. split_and!; [done..| |].
  - unfold destroy_other, destructor, try_catch, bind at 1. simpl. apply joinAll_last.
  - unfold joinAll, bind, reset_work. simpl. unfold size. simpl. by destruct cnt.
Qed.

(** [usePercentageOfHardwareThreads] starts at least one thread and less
    than 2^31, whatever the percentage; and 100 percent are exactly the threads of the
    hardware, for up to 1024 of them: the computation in double precision does
    not round there. *)
Theorem hwThreads_bounds :
  (forall hardware_concurrency percent n,
     hwThreads hardware_concurrency percent = Some n -> (1 <= n < 2 ^ 31)%Z) /\
  (forall hardware_concurrency, (1 <= hardware_concurrency <= 1024)%Z ->
     hwThreads hardware_concurrency (of_int 100) = Some hardware_concurrency) /\
  hwThreads 0 (of_int 100) = Some 1%Z.
Proof.
  split_and!; [| |vm_compute; reflexivity].
  - intros hw p n H. unfold hwThreads in H. apply fmap_Some in H as (v & Hv & ->).
    assert (v < 2 ^ 31)%Z; [|lia]. unfold to_int in Hv. destruct (SFdiv _ _ _ _) as [|?| |s m e]; simplify_eq; [lia|].
    case_match eqn:E; [|done]. apply andb_prop in E as [_ E]. apply Z.ltb_lt in E. by simplify_eq.
  - assert (Hc : forallb (fun k => bool_decide (hwThreads (Z.of_nat k) (of_int 100) = Some (Z.of_nat k))) (seq 1 1024) = true)
      by (vm_compute; reflexivity).
    intros hw Hr. rewrite forallb_forall in Hc. specialize (Hc (Z.to_nat hw)).
    rewrite Z2Nat.id in Hc by lia. eapply bool_decide_eq_true_1. apply Hc. apply in_seq. lia.
Qed.
