(* ===== verification/Networking.v ===== *)
(** * [networking.hpp]: sockets, acceptors and resolvers

    The classes derive from those of boost.asio, whose operations are a
    parameter: each asynchronous one says what its handler will be called with,
    and what the world is then. A call with [*yieldTo(...)] suspends the caller
    until then, and leaves the arguments of the handler in variables of the
    caller (see [YieldTo.v]). An [error_code] is an integer, 0 when there is no
    error. *)

From S2P Require Import Prelude.

Local Open Scope co_scope.

Section networking.
Context {World Buffers Endpoint Query Iterator Socket Wait : Type}.

(** The operations of boost.asio that are used. *)
Record Parent : Type := {
  async_connect : Endpoint -> World -> Z * World;
  async_read_some : Buffers -> World -> (Z * nat) * World;
  async_write_some : Buffers -> World -> (Z * nat) * World;
  async_send : Buffers -> Z -> World -> (Z * nat) * World;
  async_receive : Buffers -> World -> (Z * nat) * World;
  async_receive_flags : Buffers -> Z -> World -> (Z * nat) * World;
  async_wait : Wait -> World -> Z * World;
  async_accept : Socket -> World -> Z * World;
  async_accept_from : Socket -> World -> (Z * Endpoint) * World;   (** it also fills in the peer's endpoint *)
  async_resolve : Query -> World -> (Z * Iterator) * World;
  async_resolve_endpoint : Endpoint -> World -> (Z * Iterator) * World;
  io_control_bytes_readable : World -> outcome nat * World;
  read_some_now : Buffers -> World -> (nat * Z) * World;
}.

(** The world, and how often the caller has been suspended. *)
Record net : Type := Net { world : World; suspensions : nat }.

(** [async_op(..., *yieldTo(...));] *)
Definition yielding {A} (op : World -> A * World) : M net A := fun n =>
  let '(a, w) := op (world n) in (Ret a, Net w (S (suspensions n))).

(** An operation that does not wait. *)
Definition direct {A} (op : World -> outcome A * World) : M net A := fun n =>
  let '(o, w) := op (world n) in (o, Net w (suspensions n)).

Definition throwError (error : Z) : M net unit :=
  if (error =? 0)%Z then ret tt else throw (system_error error).

Context (parent : Parent).

(** An overload with an [error_code&] gives its result and the code. *)

(** ** [BasicResolver] *)

Definition resolve_ec (q : Query) : M net (Iterator * Z) :=
  let! '(ec, itr) := yielding (async_resolve parent q) in ret (itr, ec).
Definition resolve (q : Query) : M net Iterator :=
  let! '(itr, ec) := resolve_ec q in do! throwError ec in ret itr.
Definition resolve_endpoint_ec (e : Endpoint) : M net (Iterator * Z) :=
  let! '(ec, itr) := yielding (async_resolve_endpoint parent e) in ret (itr, ec).
Definition resolve_endpoint (e : Endpoint) : M net Iterator :=
  let! '(itr, ec) := resolve_endpoint_ec e in do! throwError ec in ret itr.

(** ** [BasicSocket] *)

Definition connect_ec (peer_endpoint : Endpoint) : M net (unit * Z) :=
  let! ec := yielding (async_connect parent peer_endpoint) in ret (tt, ec).
Definition connect (peer_endpoint : Endpoint) : M net unit :=
  let! '(_, error) := connect_ec peer_endpoint in throwError error.

(** What is there already is read without waiting. *)
Definition read_some_ec (buffers : Buffers) : M net (nat * Z) :=
  let! bytesReadable := direct (io_control_bytes_readable parent) in
  if negb (bytesReadable =? 0)
  then direct (fun w => let '(r, w) := read_some_now parent buffers w in (Ret r, w))
  else
    let! '(ec, bytesTransferred) := yielding (async_read_some parent buffers) in
    ret (bytesTransferred, ec).
Definition read_some (buffers : Buffers) : M net nat :=
  let! '(res, error) := read_some_ec buffers in do! throwError error in ret res.

Definition write_some_ec (buffers : Buffers) : M net (nat * Z) :=
  let! '(ec, bytesTransferred) := yielding (async_write_some parent buffers) in ret (bytesTransferred, ec).
Definition write_some (buffers : Buffers) : M net nat :=
  let! '(res, error) := write_some_ec buffers in do! throwError error in ret res.

(** [send(buffers, flags, ec)] throws, too. *)
Definition send_ec (buffers : Buffers) (flags : Z) : M net (nat * Z) :=
  let! '(ec, bytesTransferred) := yielding (async_send parent buffers flags) in
  do! throwError ec in ret (bytesTransferred, ec).
(** [send(buffers, flags)] sends with [0]. *)
Definition send_flags (buffers : Buffers) (flags : Z) : M net nat :=
  let! '(res, error) := send_ec buffers 0 in do! throwError error in ret res.
Definition send (buffers : Buffers) : M net nat := send_flags buffers 0.

Definition receive (buffers : Buffers) : M net nat :=
  let! '(ec, bytesTransferred) := yielding (async_receive parent buffers) in
  do! throwError ec in ret bytesTransferred.
Definition receive_flags_ec (buffers : Buffers) (flags : Z) : M net (nat * Z) :=
  let! '(ec, bytesTransferred) := yielding (async_receive_flags parent buffers flags) in
  ret (bytesTransferred, ec).
Definition receive_flags (buffers : Buffers) (flags : Z) : M net nat :=
  let! '(bytesTransferred, ec) := receive_flags_ec buffers flags in
  do! throwError ec in ret bytesTransferred.

Definition wait_ec (w : Wait) : M net (unit * Z) :=
  let! ec := yielding (async_wait parent w) in ret (tt, ec).
Definition wait (w : Wait) : M net unit :=
  let! '(_, ec) := wait_ec w in throwError ec.

(** ** [BasicAcceptor] *)

Definition accept_ec (peer : Socket) : M net (unit * Z) :=
  let! ec := yielding (async_accept parent peer) in ret (tt, ec).
Definition accept (peer : Socket) : M net unit :=
  let! '(_, ec) := accept_ec peer in throwError ec.
Definition accept_from_ec (peer : Socket) : M net (Endpoint * Z) :=
  let! '(ec, peer_endpoint) := yielding (async_accept_from parent peer) in ret (peer_endpoint, ec).
Definition accept_from (peer : Socket) : M net Endpoint :=
  let! '(peer_endpoint, ec) := accept_from_ec peer in do! throwError ec in ret peer_endpoint.

(** ** Properties *)

(** The promise of every pair of overloads. *)
Definition reports {A} (throwing : M net A) (with_ec : M net (A * Z)) : Prop :=
  forall n, throwing n =
    match with_ec n with
    | (Ret (a, ec), n') => (if (ec =? 0)%Z then Ret a else Throw (system_error ec), n')
    | (Throw e, n') => (Throw e, n')
    | (Crash f, n') => (Crash f, n')
    end.

Lemma reports_intro {A} (with_ec : M net (A * Z)) :
  reports (let! '(a, ec) := with_ec in do! throwError ec in ret a) with_ec.
Proof.
  intros n. unfold bind, throwError, ret, throw. destruct (with_ec n) as [[[a ec]|e|f] n']; [|done..].
  by destruct (ec =? 0)%Z.
Qed.

Lemma reports_unit (with_ec : M net (unit * Z)) :
  reports (let! '(_, ec) := with_ec in throwError ec) with_ec.
Proof.
  intros n. unfold bind, throwError, ret, throw. destruct (with_ec n) as [[[[] ec]|e|f] n']; [|done..].
  by destruct (ec =? 0)%Z.
Qed.
End networking.
Arguments net : clear implicits.
Arguments Parent : clear implicits.

Section properties.
Context {World Buffers Endpoint Query Iterator Socket Wait : Type}.
Context (parent : Parent World Buffers Endpoint Query Iterator Socket Wait).

(** an operation without an [error_code] does what its overload with one
    does, and throws the code as a [system_error] when there is an error; but
    [send] with flags does what the overload does with flags 0, and the overload
    with an [error_code] throws instead of reporting. *)
Theorem overloads_agree :
  (forall e, reports (connect parent e) (connect_ec parent e)) /\
  (forall b, reports (read_some parent b) (read_some_ec parent b)) /\
  (forall b, reports (write_some parent b) (write_some_ec parent b)) /\
  (forall b f, reports (receive_flags parent b f) (receive_flags_ec parent b f)) /\
  (forall w, reports (wait parent w) (wait_ec parent w)) /\
  (forall q, reports (resolve parent q) (resolve_ec parent q)) /\
  (forall e, reports (resolve_endpoint parent e) (resolve_endpoint_ec parent e)) /\
  (forall s, reports (accept parent s) (accept_ec parent s)) /\
  (forall s, reports (accept_from parent s) (accept_from_ec parent s)) /\
  (forall b f, reports (send_flags parent b f) (send_ec parent b 0)) /\
  (forall b f n, match send_ec parent b f n with (Ret (_, ec), _) => ec = 0%Z | _ => True end).
Proof.
  split_and!; intros; try apply reports_intro; try apply reports_unit.
  unfold send_ec, yielding, throwError, bind, ret, throw. destruct (async_send parent b f (world n)) as [[ec k] w].
  destruct (ec =? 0)%Z eqn:E; [by apply Z.eqb_eq|done].
Qed.

(** [read_some] takes what is there at once, and suspends its caller exactly
    when nothing is; it gives the count and the code that the system reports, and
    a failing [io_control] throws even from the overload that has an
    [error_code]. *)
Theorem read_some_waits b n :
  match io_control_bytes_readable parent (world n) with
  | (Ret 0, w) =>
      let '((ec, k), w') := async_read_some parent b w in
      read_some_ec parent b n = (Ret (k, ec), Net w' (S (suspensions n)))
  | (Ret (S _), w) =>
      let '((k, ec), w') := read_some_now parent b w in
      read_some_ec parent b n = (Ret (k, ec), Net w' (suspensions n))
  | (Throw e, w) => read_some_ec parent b n = (Throw e, Net w (suspensions n))
  | (Crash f, w) => read_some_ec parent b n = (Crash f, Net w (suspensions n))
  end.
Proof.
  unfold read_some_ec, direct, yielding, bind, ret.
  destruct (io_control_bytes_readable parent (world n)) as [[[|k]|e|f] w]; simpl; try done.
  - by destruct (async_read_some parent b w) as [[ec k] w'].
  - by destruct (read_some_now parent b w) as [[k' ec] w'].
Qed.
End properties.
