(* ===== verification/Echo.v ===== *)
(** * [asio_echo_server.cpp], [asio_echo_client.cpp]: programs on sockets

    The session of the echo server and the message loop of the echo client, over
    the sockets of [Networking.v]. [boost::asio::read] and [boost::asio::write] are
    parameters, and so are the streams of bytes that a socket stands for; the
    laws are what the documentation of boost.asio says about them. *)

From S2P Require Import Prelude Networking.

Local Open Scope co_scope.

(** ** The server's session *)

Section server.
Context {World Buffers Endpoint Query Iterator Socket Wait : Type}.
Context (sock : Parent World Buffers Endpoint Query Iterator Socket Wait).
Context (data : Buffers) (part : nat -> Buffers).    (* [buffer(data)], [buffer(data, length)] *)
Context (asio_write : Buffers -> M (net World) unit) (eof : Z).

(** The body of [for (;;)]: does the loop go on? *)
Definition session_body : M (net World) bool :=
  let! '(length, error) := read_some_ec sock data in
  if (error =? eof)%Z then ret false
  else if negb (error =? 0)%Z then throw (system_error error)
  else do! asio_write (part length) in ret true.

Fixpoint session_loop (fuel : nat) : M (net World) unit :=
  match fuel with
  | 0 => crash Blocks
  | S fuel => let! go := session_body in if go then session_loop fuel else ret tt
  end.

(** [catch (std::exception& e)] prints. *)
Definition catch_std_exception (e : exn) : M (net World) unit :=
  match e with
  | user_exn _ => throw e
  | bad_get | runtime_error | system_error _ => ret tt
  end.

Definition session (fuel : nat) : M (net World) unit :=
  try_catch (session_loop fuel) catch_std_exception.

(** *** What a connection is *)

(** The bytes that the peer sends and that are not read, those written so far, and
    the array [data]. *)
Context (incoming outgoing content : World -> list Z).

(** A read of at most as many bytes as [data] has: at least one, unless there is
    an error; [eof] only when the peer has sent all. *)
Definition has_read (w : World) (k : nat) (ec : Z) (w' : World) : Prop :=
  outgoing w' = outgoing w /\
  if (ec =? 0)%Z then 0 < k <= length (content w') /\ incoming w = take k (content w') ++ incoming w'
  else incoming w' = incoming w /\ (ec = eof -> incoming w = []).

Record connection : Prop := {
  law_eof : eof <> 0%Z;
  law_io_control w : exists o w', io_control_bytes_readable sock w = (o, w') /\
    incoming w' = incoming w /\ outgoing w' = outgoing w /\
    match o with Ret _ => True | Throw e => exists ec, e = system_error ec | Crash _ => False end;
  law_read_now w k ec w' : read_some_now sock data w = ((k, ec), w') -> has_read w k ec w';
  law_read_some w k ec w' : async_read_some sock data w = ((ec, k), w') -> has_read w k ec w';
  law_write k n : exists o n', asio_write (part k) n = (o, n') /\ incoming (world n') = incoming (world n) /\
    match o with
    | Ret _ => outgoing (world n') = outgoing (world n) ++ take k (content (world n))
    | Throw e => (exists ec, e = system_error ec) /\
        exists i, outgoing (world n') = outgoing (world n) ++ take i (take k (content (world n)))
    | Crash _ => False
    end;
}.

Context (C : connection).

Lemma read_some_reads n : exists o n', read_some_ec sock data n = (o, n') /\
  match o with
  | Ret (k, ec) => has_read (world n) k ec (world n')
  | Throw e => (exists ec, e = system_error ec) /\ incoming (world n') = incoming (world n) /\
      outgoing (world n') = outgoing (world n)
  | Crash _ => False
  end.
Proof.
  destruct (law_io_control C (world n)) as (o & w & Hio & Hi & Ho & Hk). pose proof (read_some_waits sock data n) as H.
  rewrite Hio in H. destruct o as [[|j]|e|f]; [| | |done].
  - destruct (async_read_some sock data w) as [[ec k] w'] eqn:E. apply (law_read_some C) in E.
    unfold has_read in *. rewrite Hi, Ho in E. by eexists _, _.
  - destruct (read_some_now sock data w) as [[k ec] w'] eqn:E. apply (law_read_now C) in E.
    unfold has_read in *. rewrite Hi, Ho in E. by eexists _, _.
  - by eexists _, _.
Qed.

(** One iteration: the bytes that were read are written. *)
Lemma session_body_spec n : exists o n', session_body n = (o, n') /\
  match o with
  | Ret true => exists bs, bs <> [] /\ incoming (world n) = bs ++ incoming (world n') /\
      outgoing (world n') = outgoing (world n) ++ bs
  | Ret false => incoming (world n) = [] /\ incoming (world n') = [] /\ outgoing (world n') = outgoing (world n)
  | Throw e => (exists ec, e = system_error ec) /\
      exists i, outgoing (world n') = outgoing (world n) ++ take i (incoming (world n))
  | Crash _ => False
  end.
Proof.
  destruct (read_some_reads n) as (o & n1 & Hr & Ho). unfold session_body, bind. rewrite Hr.
  destruct o as [[k ec]|e|f]; [| |done].
  - unfold has_read in Ho. destruct Ho as [Hout Ho]. destruct (ec =? 0)%Z eqn:E0.
    + apply Z.eqb_eq in E0 as ->. rewrite (proj2 (Z.eqb_neq 0 eof)) by (pose proof (law_eof C); congruence). simpl.
      destruct Ho as [Hk Hin]. destruct (law_write C k n1) as (o & n' & Hw & Hwi & Hwo). rewrite Hw.
      destruct o as [[]|e|f]; [| |done]; eexists _, _; (split; [reflexivity|]); simpl.
      * exists (take k (content (world n1))). rewrite Hwi, <- Hout, Hin. split_and!; try done.
        intros E. apply (f_equal length) in E. rewrite length_take in E. simpl in E. lia.
      * destruct Hwo as [He (i & Hi)]. split; [done|]. exists (min i k). rewrite Hi, Hout, Hin.
        rewrite take_take, take_app_le by (rewrite length_take; lia). by rewrite take_take, <- Nat.min_assoc, Nat.min_id.
    + destruct Ho as [Hin Heof]. destruct (ec =? eof)%Z eqn:Ee; simpl; eexists _, _; (split; [reflexivity|]); simpl.
      * apply Z.eqb_eq in Ee. rewrite Hin, Heof by done. done.
      * split; [eauto|]. exists 0. by rewrite Hout, app_nil_r.
  - eexists _, _. split; [reflexivity|]. destruct Ho as (He & _ & Hout). split; [done|]. exists 0.
    by rewrite Hout, app_nil_r.
Qed.

(** a session echoes: when it ends by itself, the peer has sent all, and
    has got exactly the bytes that it sent, in order; an error ends it as well, and
    the peer has then got the first of its bytes; in every case the session itself
    returns, and it does so as soon as the peer's bytes are used up: one iteration
    per byte, and one more, is enough. *)
Theorem session_echoes fuel n :
  length (incoming (world n)) < fuel ->
  match session_loop fuel n with
  | (Ret _, n') => incoming (world n') = [] /\ outgoing (world n') = outgoing (world n) ++ incoming (world n)
  | (Throw e, n') => exists i, outgoing (world n') = outgoing (world n) ++ take i (incoming (world n))
  | (Crash _, _) => False
  end /\
  fst (session fuel n) = Ret tt.
Proof.
  intros Hf. unfold session, try_catch.
  enough (H : exists o n', session_loop fuel n = (o, n') /\
    match o with
    | Ret _ => incoming (world n') = [] /\ outgoing (world n') = outgoing (world n) ++ incoming (world n)
    | Throw e => (exists ec, e = system_error ec) /\
        exists i, outgoing (world n') = outgoing (world n) ++ take i (incoming (world n))
    | Crash _ => False
    end).
  { destruct H as (o & n' & -> & Ho). destruct o as [[]|e|f]; [done| |done]. by destruct Ho as [[ec ->] ?]. }
  revert n Hf. induction fuel as [|fuel IH]; intros n Hf; [lia|]. simpl.
  destruct (session_body_spec n) as (o & n1 & Hb & Ho). unfold bind. rewrite Hb.
  destruct o as [[]|e|f]; [| | |done].
  - destruct Ho as (bs & Hne & Hin & Hout). rewrite Hin, length_app in Hf.
    destruct (IH n1) as (o & n' & Hl & Hr); [destruct bs; [done|simpl in Hf; lia]|].
    exists o, n'. split; [done|]. rewrite Hout, Hin in *. destruct o as [[]|e|f]; [| |done].
    + destruct Hr as [? ->]. by rewrite <- app_assoc.
    + destruct Hr as [He (i & ->)]. split; [done|]. exists (length bs + i).
      by rewrite <- app_assoc, take_app_add.
  - eexists _, _. split; [reflexivity|]. destruct Ho as (Hi & Hi' & Hout). by rewrite Hi, app_nil_r.
  - by eexists _, _.
Qed.
End server.

(** ** The client's messages *)

Section client.
Context {World : Type}.
Context (msg : list Z) (asio_write : M (net World) unit) (asio_read : nat -> M (net World) nat).
Context (reply : World -> list Z).     (* the array [reply] *)

(** [for (int i = 0; i < MessagesPerCoroutine; i++)], with [i] iterations left: how
    often it complains. *)
Fixpoint messages (i : nat) : M (net World) nat :=
  match i with
  | 0 => ret 0
  | S i =>
      let request_length := length msg in
      do! asio_write in
      let! reply_length := asio_read request_length in
      let! n := get_st in
      let wrong := if bool_decide (take reply_length (reply (world n)) = msg) then 0 else 1 in
      let! rest := messages i in
      ret (wrong + rest)
  end.

(** What was written and has not come back. *)
Context (pending : World -> list Z).

Record echoing : Prop := {
  law_sends n n' : asio_write n = (Ret tt, n') -> pending (world n') = pending (world n) ++ msg;
  law_reads k l n n' : asio_read k n = (Ret l, n') ->
    l = k /\ l <= length (reply (world n')) /\
    pending (world n) = take l (reply (world n')) ++ pending (world n');
}.

(** a client of a server that echoes gets every message back as it was. *)
Theorem messages_come_back i n c n' :
  echoing -> pending (world n) = [] -> messages i n = (Ret c, n') -> c = 0 /\ pending (world n') = [].
Proof.
  intros C. revert n c n'. induction i as [|i IH]; intros n c n' Hp Hm; simpl in Hm; [by unfold ret in Hm; simplify_eq|].
  unfold bind, get_st, ret in Hm.
  destruct (asio_write n) as [[[]|e|f] n1] eqn:Ew; [|done..]. apply (law_sends C) in Ew.
  destruct (asio_read (length msg) n1) as [[l|e|f] n2] eqn:Er; [|done..]. apply (law_reads C) in Er as (-> & Hl & Hr).
  rewrite Ew, Hp in Hr. simpl in Hr.
  destruct (app_inj_1 msg (take (length msg) (reply (world n2))) [] (pending (world n2))) as [Hmsg Hp2];
    [by rewrite length_take_le|by rewrite app_nil_r|].
  rewrite bool_decide_eq_true_2 in Hm by done.
  destruct (messages i n2) as [[rest|e|f] n3] eqn:E; [|done..]. simplify_eq. by apply (IH n2).
Qed.

(** The coroutine [func]: [resolver.resolve] is the one of boost.asio, which blocks,
    because [co::ip::tcp::resolver] does not derive from [BasicResolver]. *)
Context {Iterator : Type}.
Context (asio_resolve : M (net World) Iterator) (asio_connect : Iterator -> M (net World) unit).
Context (set_no_delay : M (net World) unit).

Definition MessagesPerCoroutine : N := 100000.

Definition func : M (net World) nat :=
  let! itr := asio_resolve in
  do! asio_connect itr in
  do! set_no_delay in
  messages (N.to_nat MessagesPerCoroutine).

(** Nothing is written before the messages. *)
Definition quiet {A} (m : M (net World) A) : Prop := forall n, pending (world (snd (m n))) = pending (world n).

(** A coroutine that comes to its end has got back everything that it has sent;
    one whose set-up fails has sent nothing. *)
Theorem client_coroutine n :
  echoing -> quiet asio_resolve -> (forall itr, quiet (asio_connect itr)) -> quiet set_no_delay ->
  pending (world n) = [] ->
  match func n with
  | (Ret c, n') => c = 0 /\ pending (world n') = []
  | (Throw e, n') => pending (world n') = [] \/ exists n1, messages (N.to_nat MessagesPerCoroutine) n1 = (Throw e, n')
  | (Crash _, _) => True
  end.
Proof.
  intros C Hr Hc Ho Hp. unfold func, bind.
  pose proof (Hr n) as H1. destruct (asio_resolve n) as [[itr|e|f] n1]; simpl in H1; [|left; congruence|done].
  pose proof (Hc itr n1) as H2. destruct (asio_connect itr n1) as [[[]|e|f] n2]; simpl in H2; [|left; congruence|done].
  pose proof (Ho n2) as H3. destruct (set_no_delay n2) as [[[]|e|f] n3]; simpl in H3; [|left; congruence|done].
  destruct (messages (N.to_nat MessagesPerCoroutine) n3) as [[c|e|f] n'] eqn:E; [|by eauto|done].
  apply (messages_come_back (N.to_nat MessagesPerCoroutine) n3 c n' C); [congruence|done].
Qed.
End client.

(** ** An example *)

Module Sample.
(** A connection from which at most two bytes are read at once; error 2 is its end. *)
Record conn : Type := Conn { bytes_in : list Z; bytes_out : list Z; array : list Z }.

Definition read_two (_ : nat) (w : conn) : (Z * nat) * conn :=
  match bytes_in w with
  | [] => ((2%Z, 0), w)
  | bs => ((0%Z, length (take 2 bs)), Conn (drop 2 bs) (bytes_out w) (take 2 bs))
  end.

Definition sock : Parent conn nat unit unit unit unit unit := {|
  async_connect _ w := (0%Z, w);
  async_read_some := read_two;
  async_write_some _ w := ((0%Z, 0), w);
  async_send _ _ w := ((0%Z, 0), w);
  async_receive _ w := ((0%Z, 0), w);
  async_receive_flags _ _ w := ((0%Z, 0), w);
  async_wait _ w := (0%Z, w);
  async_accept _ w := (0%Z, w);
  async_accept_from _ w := ((0%Z, tt), w);
  async_resolve _ w := ((0%Z, tt), w);
  async_resolve_endpoint _ w := ((0%Z, tt), w);
  io_control_bytes_readable w := (Ret (length (bytes_in w)), w);
  read_some_now b w := let '((ec, k), w) := read_two b w in ((k, ec), w);
|}.

Definition write_all (k : nat) : M (net conn) unit := fun n =>
  let w := world n in
  (Ret tt, Net (Conn (bytes_in w) (bytes_out w ++ take k (array w)) (array w)) (S (suspensions n))).

Lemma connected : connection sock 0 (fun k => k) write_all 2 bytes_in bytes_out array.
Proof.
  assert (Hread : forall b w k ec w', read_two b w = ((ec, k), w') -> has_read 2 bytes_in bytes_out array w k ec w').
  { intros b [[|x bs] out arr] k ec w'; unfold read_two; intros H; simpl in H; simplify_eq; unfold has_read; simpl; [done|].
    split; [done|]. split; [lia|]. by rewrite take_take, Nat.min_id || destruct bs. }
  split.
  - done.
  - intros w. by eexists _, _.
  - intros w k ec w' H. simpl in H. destruct (read_two 0 w) as [[ec' k'] w1] eqn:E. simplify_eq. by eapply Hread.
  - intros w k ec w' H. by eapply Hread.
  - intros k n. by eexists _, _.
Qed.

Definition start : net conn := Net (Conn [10; 20; 30]%Z [] []) 0.
End Sample.

Lemma session_echoes_witness :
  exists n', session_loop Sample.sock 0 (fun k => k) Sample.write_all 2 4 Sample.start = (Ret tt, n') /\
    Sample.bytes_out (world n') = [10; 20; 30]%Z /\
    fst (session Sample.sock 0 (fun k => k) Sample.write_all 2 4 Sample.start) = Ret tt.
Proof.
  assert (H := session_echoes Sample.sock 0 (fun k => k) Sample.write_all 2 Sample.bytes_in Sample.bytes_out
    Sample.array Sample.connected 4 Sample.start ltac:(vm_compute; lia)).
  destruct H as [H1 H2]. destruct (session_loop _ _ _ _ _ 4 Sample.start) as [[[]|e|f] n'] eqn:E;
    vm_compute in E; [|discriminate E..].
  exists n'. split; [reflexivity|]. split; [|exact H2]. destruct H1 as [_ H1]. rewrite H1. reflexivity.
Defined.

Lemma messages_come_back_witness :
  let write : M (net (list Z * list Z)) unit := fun n =>
    (Ret tt, Net (fst (world n) ++ [1; 2]%Z, snd (world n)) (S (suspensions n))) in
  let read : nat -> M (net (list Z * list Z)) nat := fun k n =>
    if length (fst (world n)) <? k then (Throw (system_error 2), n)
    else (Ret k, Net (drop k (fst (world n)), take k (fst (world n))) (S (suspensions n))) in
  exists n', messages [1; 2]%Z write read snd 5 (Net ([], []) 0) = (Ret 0, n') /\ fst (world n') = [].
Proof.
  intros write read. destruct (messages [1; 2]%Z write read snd 5 (Net ([], []) 0)) as [o n'] eqn:E.
  assert (Ho : o = Ret 0) by (vm_compute in E; by simplify_eq). subst o. exists n'. split; [reflexivity|].
  apply (messages_come_back [1; 2]%Z write read snd fst 5 (Net ([], []) 0) 0 n'); [|done|exact E]. split.
  - intros n n1 H. unfold write in H. by simplify_eq.
  - intros k l n n1 H. unfold read in H. destruct (length (fst (world n)) <? k) eqn:El; simplify_eq. simpl.
    apply Nat.ltb_ge in El. rewrite length_take. split; [done|]. split; [lia|].
    by rewrite take_take, Nat.min_id, take_drop.
Defined.
