(* ===== verification/EchoServer.v ===== *)
(** * [asio_echo_server.cpp]: the server

    The coroutine that accepts connections, and the coroutine of each session,
    which the first one starts and detaches. The callable of a session refers to
    the socket in the scope of the accepting loop; the session moves it into its
    own argument. The constructor of [co::Routine] runs the callable at once, until
    its coroutine leaves for the first time, and returns then. Connections are those
    of [Echo.v]; each has a world of its own, and so has the acceptor. *)

From S2P Require Import Prelude Networking Echo.

Section server.
Context {World Buffers Endpoint Query Iterator Socket Wait Acceptor : Type}.
Context (sock : Parent World Buffers Endpoint Query Iterator Socket Wait).
Context (data : Buffers) (part : nat -> Buffers) (asio_write : Buffers -> M (net World) unit) (eof : Z).
Context (acceptor : Parent Acceptor Buffers Endpoint Query Iterator Socket Wait) (peer : Socket).
Context (connected : Acceptor -> World).   (* the connection that [accept] has put into its socket *)

(** ** The program *)

(** The local variable [co::ip::tcp::socket sock]. *)
Inductive variable : Type :=
  | Dead                  (** out of its scope *)
  | Unconnected           (** new, or moved from *)
  | Connected (w : World).

Inductive loop_pc : Type :=
  | ASocket               (** before the declaration of [sock] *)
  | AAccept               (** before [a.accept(sock)] *)
  | ARoutine              (** before the construction of [co::Routine] *)
  | AInside               (** in it: the new coroutine has not left for the first time *)
  | ADetach               (** before [detach()] and the end of the scope *)
  | AEnded (e : exn)      (** [accept] has thrown, and the coroutine is over *)
  | AFault (f : fault).

Inductive session_pc : Type :=
  | STake                          (** before [std::move(sock)] *)
  | SLoop (n : net World)          (** in [session], before an iteration of its loop *)
  | SEnd (o : outcome unit) (n : net World)   (** the loop has ended so, and the coroutine is over *)
  | SUnconnected                   (** [session] has got a socket without a connection *)
  | SFault (f : fault).

Record server : Type := Server {
  loop : loop_pc;
  local : variable;
  listening : net Acceptor;
  sessions : list session_pc;
  accepted : list World;         (** history: the connections that [accept] has made *)
}.

Definition start (a : net Acceptor) : server := Server ASocket Dead a [] [].

Definition loop_step (s : server) : option server :=
  match loop s with
  | ASocket => Some (Server AAccept Unconnected (listening s) (sessions s) (accepted s))
  | AAccept =>
      Some match accept acceptor peer (listening s) with
           | (Ret _, a) =>
               let w := connected (world a) in
               Server ARoutine (Connected w) a (sessions s) (accepted s ++ [w])
           | (Throw e, a) => Server (AEnded e) Dead a (sessions s) (accepted s)
           | (Crash f, a) => Server (AFault f) Dead a (sessions s) (accepted s)
           end
  | ARoutine => Some (Server AInside (local s) (listening s) (sessions s ++ [STake]) (accepted s))
  | AInside =>
      match last (sessions s) with
      | Some STake => None
      | _ => Some (Server ADetach (local s) (listening s) (sessions s) (accepted s))
      end
  | ADetach => Some (Server ASocket Dead (listening s) (sessions s) (accepted s))
  | AEnded _ | AFault _ => None
  end.

(** [session(std::move(sock))] up to its loop, and an iteration of the loop. *)
Definition take_socket (v : variable) : session_pc * variable :=
  match v with
  | Dead => (SFault UseAfterFree, Dead)
  | Unconnected => (SUnconnected, Unconnected)
  | Connected w => (SLoop (Net w 0), Unconnected)
  end.

Definition iterate (n : net World) : session_pc :=
  match session_body sock data part asio_write eof n with
  | (Ret true, n) => SLoop n
  | (Ret false, n) => SEnd (Ret tt) n
  | (Throw e, n) =>
      match catch_std_exception e n with
      | (Crash f, n) => SFault f
      | (_, n) => SEnd (Throw e) n
      end
  | (Crash f, n) => SFault f
  end.

Definition session_step (i : nat) (s : server) : option server :=
  match sessions s !! i with
  | Some STake =>
      let '(p, v) := take_socket (local s) in
      Some (Server (loop s) v (listening s) (<[i := p]> (sessions s)) (accepted s))
  | Some (SLoop n) =>
      Some (Server (loop s) (local s) (listening s) (<[i := iterate n]> (sessions s)) (accepted s))
  | _ => None
  end.

Inductive label : Type := LLoop | LSession (i : nat).

Definition next (l : label) (s : server) : option server :=
  match l with LLoop => loop_step s | LSession i => session_step i s end.

(** ** The invariant *)

Context (incoming outgoing content : World -> list Z).
Context (C : connection sock data part asio_write eof incoming outgoing content).

(** What the session of a connection has done, which began as [w]. *)
Definition serves (w : World) (p : session_pc) : Prop :=
  match p with
  | STake => True
  | SLoop n => exists bs, incoming w = bs ++ incoming (world n) /\ outgoing (world n) = outgoing w ++ bs
  | SEnd (Ret _) n => incoming (world n) = [] /\ outgoing (world n) = outgoing w ++ incoming w
  | SEnd (Throw _) n => exists k, outgoing (world n) = outgoing w ++ take k (incoming w)
  | SEnd (Crash _) _ | SUnconnected | SFault _ => False
  end.

Definition loop_ok (s : server) : Prop :=
  match loop s with
  | ARoutine => exists w, local s = Connected w /\ accepted s !! length (sessions s) = Some w
  | AEnded e => exists ec, e = system_error ec
  | AFault _ => False
  | _ => True
  end.

Record ok (s : server) : Prop := {
  ok_length : length (accepted s) = length (sessions s) + match loop s with ARoutine => 1 | _ => 0 end;
  ok_sessions i p w : sessions s !! i = Some p -> accepted s !! i = Some w -> serves w p;
  ok_take i : sessions s !! i = Some STake ->
    loop s = AInside /\ S i = length (sessions s) /\
    exists w, local s = Connected w /\ accepted s !! i = Some w;
  ok_loop : loop_ok s;
}.

Lemma iterate_serves w n : serves w (SLoop n) -> serves w (iterate n) /\ iterate n <> STake.
Proof.
  intros (bs & Hin & Hout). unfold iterate.
  destruct (session_body_spec sock data part asio_write eof incoming outgoing content C n) as (o & n' & -> & Ho).
  destruct o as [[]|e|f]; [| | |done].
  - destruct Ho as (bs' & _ & Hi & Hq). split; [|done]. exists (bs ++ bs'). by rewrite Hin, Hi, Hq, Hout, !app_assoc.
  - destruct Ho as (Hi & Hi' & Hq). split; [|done]. simpl. by rewrite Hi', Hq, Hin, Hi, app_nil_r.
  - destruct Ho as ((ec & ->) & k & Hq). simpl. split; [|done]. exists (length bs + k).
    by rewrite Hq, Hout, Hin, take_app_add, app_assoc.
Qed.

Lemma accept_branches (a : net Acceptor) :
  match fst (accept acceptor peer a) with Ret _ => True | Throw e => exists ec, e = system_error ec | Crash _ => False end.
Proof.
  unfold accept, accept_ec, bind, yielding, throwError, ret, throw. destruct (async_accept _ _ _) as [ec w]. simpl.
  destruct (ec =? 0)%Z; simpl; eauto.
Qed.

(** Only in the constructor of a session's coroutine there is a session that has
    not taken its socket. *)
Lemma taken s : ok s -> loop s <> AInside -> forall i, sessions s !! i <> Some STake.
Proof. intros Hok Hl i Hi. by destruct (ok_take s Hok i Hi). Qed.

Lemma loop_ok_step s s' : ok s -> loop_step s = Some s' -> ok s'.
Proof.
  intros Hok Hs. pose proof (taken s Hok) as Ht. destruct Hok as [Hl Hse Htk Hlo]. unfold loop_step in Hs. unfold loop_ok in Hlo.
  destruct (loop s) eqn:El; simplify_eq.
  - split; simpl; [done|done| |done]. intros i Hi. by destruct (Ht ltac:(done) i).
  - pose proof (accept_branches (listening s)) as Ha. destruct (accept _ _ _) as [[[]|e|f] a]; simpl in Ha; [| |done]; simplify_eq.
    + split; unfold loop_ok; simpl.
      * rewrite length_app. simpl. lia.
      * intros i p w Hp Hw. pose proof (lookup_lt_Some _ _ _ Hp). rewrite lookup_app_l in Hw by lia. eauto.
      * intros i Hi. by destruct (Ht ltac:(done) i).
      * eexists. split; [done|]. by rewrite lookup_app_r, Hl, Nat.add_0_r, Nat.sub_diag by lia.
    + split; simpl; [done|done| |done]. intros i Hi. by destruct (Ht ltac:(done) i).
  - destruct Hlo as (w & Hloc & Hw). split; unfold loop_ok; simpl; [rewrite length_app; simpl; lia| | |done].
    + intros i p w' [[_ Hp]|[_ <-]]%lookup_snoc_Some Hw'; [eauto|done].
    + intros i [[_ Hp]|[-> _]]%lookup_snoc_Some; [by destruct (Ht ltac:(done) i)|].
      rewrite length_app, Hloc, Hw. simpl. split_and!; [done|lia|eauto].
  - assert (Hno : forall i, sessions s !! i <> Some STake).
    { intros i Hi. destruct (Htk i Hi) as (_ & Hn & _). rewrite last_lookup, <- Hn in Hs. simpl in Hs. by rewrite Hi in Hs. }
    assert (s' = Server ADetach (local s) (listening s) (sessions s) (accepted s)) as ->
      by (destruct (last (sessions s)) as [[]|]; by simplify_eq).
    split; simpl; [done|done| |done]. intros i Hi. by destruct (Hno i).
  - split; simpl; [done|done| |done]. intros i Hi. by destruct (Ht ltac:(done) i).
Qed.

Lemma session_ok_step i s s' : ok s -> session_step i s = Some s' -> ok s'.
Proof.
  intros Hok Hs. destruct Hok as [Hl Hse Htk Hlo]. unfold session_step in Hs.
  destruct (sessions s !! i) as [p|] eqn:Ei; [|done].
  assert (Hi : i < length (sessions s)) by by eapply lookup_lt_Some.
  assert (Hgen : forall p' v, p' <> STake -> (forall w, accepted s !! i = Some w -> serves w p') ->
    (v = local s \/ p = STake) ->
    ok (Server (loop s) v (listening s) (<[i := p']> (sessions s)) (accepted s))).
  { intros p' v Hp' Hw Hv. split; unfold loop_ok in *; simpl; rewrite ?length_insert; [done| | |].
    - intros j q w [(-> & <- & _)|[_ Hq]]%list_lookup_insert_Some Ha; eauto.
    - intros j [(_ & E & _)|[Hne Hq]]%list_lookup_insert_Some; [done|].
      destruct (Htk j Hq) as (Ha & Hj & w & Hloc & Hw'). destruct Hv as [->| ->]; [by eauto|].
      destruct (Htk i Ei) as (_ & Hi' & _). lia.
    - destruct Hv as [->| ->]; [done|]. destruct (Htk i Ei) as (-> & _). done. }
  destruct p as [|n|o n| |f]; try done.
  - destruct (Htk i Ei) as (_ & _ & w & Hloc & Hw). rewrite Hloc in Hs. simpl in Hs. simplify_eq.
    apply Hgen; [done| |by right]. intros w' Hw'. simplify_eq. exists []. by rewrite app_nil_r.
  - simplify_eq. apply Hgen; [| |by left].
    + destruct (lookup_lt_is_Some_2 (accepted s) i) as [w Hw]; [lia|]. by apply (iterate_serves w), (Hse i).
    + intros w Hw. by apply iterate_serves, (Hse i).
Qed.

Lemma server_ok a s : reachable next (start a) s -> ok s.
Proof.
  apply invariant_reachable; [|by split].
  intros [|i] s1 s2 H Hs; [by eapply loop_ok_step|by eapply session_ok_step].
Qed.

(** ** Theorems *)

(** C40: the server, in every interleaving of the accepting coroutine and the sessions:
    every connection that was accepted has one session, in the order of acceptance,
    that got just this connection; no session uses the variable [sock] after its
    scope; what a session has sent is what it has received, in order, and all of it
    when the peer closes the connection; an error ends the session alone, and only
    [accept] ends the accepting coroutine. *)
Theorem server_echoes a s :
  reachable next (start a) s ->
  length (accepted s) = length (sessions s) + match loop s with ARoutine => 1 | _ => 0 end /\
  (forall i p, sessions s !! i = Some p -> exists w, accepted s !! i = Some w /\ serves w p) /\
  (forall f, loop s <> AFault f) /\ (forall e, loop s = AEnded e -> exists ec, e = system_error ec).
Proof.
  intros [Hl Hse _ Hlo]%server_ok. unfold loop_ok in Hlo. split_and!; [done| | |].
  - intros i p Hp. destruct (lookup_lt_is_Some_2 (accepted s) i) as [w Hw]; [|eauto].
    apply lookup_lt_Some in Hp. lia.
  - intros f E. by rewrite E in Hlo.
  - intros e E. by rewrite E in Hlo.
Qed.

(** ... and no session waits for another one or for the accepting coroutine, nor the
    latter for more than the first step of the session that it starts. *)
Theorem server_progress a s :
  reachable next (start a) s ->
  (forall i p, sessions s !! i = Some p -> (exists o n, p = SEnd o n) \/ exists s', next (LSession i) s = Some s') /\
  ((exists e, loop s = AEnded e) \/ exists s', next LLoop s = Some s' \/
    loop s = AInside /\ next (LSession (length (sessions s) - 1)) s = Some s').
Proof.
  intros Hok%server_ok. pose proof Hok as [Hl Hse _ Hlo]. unfold loop_ok in Hlo.
  assert (Hstep : forall i p, sessions s !! i = Some p ->
    (exists o n, p = SEnd o n) \/ exists s', next (LSession i) s = Some s').
  { intros i p Hp. destruct (lookup_lt_is_Some_2 (accepted s) i) as [w Hw]; [apply lookup_lt_Some in Hp; lia|].
    pose proof (Hse i p w Hp Hw) as H. simpl. unfold session_step. rewrite Hp.
    destruct p; try done; [|eauto..]. destruct (take_socket (local s)). eauto. }
  split; [done|]. simpl. unfold loop_step. destruct (loop s) eqn:El; eauto; try done.
  destruct (last (sessions s)) as [[|n|o n| |f]|] eqn:Ela; eauto. right.
  rewrite last_lookup in Ela. replace (pred (length (sessions s))) with (length (sessions s) - 1) in Ela by lia.
  destruct (Hstep _ _ Ela) as [(o & n & E)|[s' E]]; [done|]. eauto.
Qed.
End server.
Arguments server : clear implicits.

(** ** An example *)

Module Sample.
(** Two peers; the third [accept] fails. *)
Record backlog : Type := Backlog { waiting : list Echo.Sample.conn; got : Echo.Sample.conn }.

Definition nobody : Echo.Sample.conn := Echo.Sample.Conn [] [] [].

Definition accept_next (_ : unit) (b : backlog) : Z * backlog :=
  match waiting b with
  | c :: cs => (0%Z, Backlog cs c)
  | [] => (24%Z, b)
  end.

Definition acceptor : Parent backlog nat unit unit unit unit unit := {|
  async_connect _ w := (0%Z, w);
  async_read_some _ w := ((0%Z, 0), w);
  async_write_some _ w := ((0%Z, 0), w);
  async_send _ _ w := ((0%Z, 0), w);
  async_receive _ w := ((0%Z, 0), w);
  async_receive_flags _ _ w := ((0%Z, 0), w);
  async_wait _ w := (0%Z, w);
  async_accept := accept_next;
  async_accept_from _ w := ((0%Z, tt), w);
  async_resolve _ w := ((0%Z, tt), w);
  async_resolve_endpoint _ w := ((0%Z, tt), w);
  io_control_bytes_readable w := (Ret 0, w);
  read_some_now _ w := ((0, 0%Z), w);
|}.

Definition start : server Echo.Sample.conn backlog := start (Net (Backlog
  [Echo.Sample.Conn [1; 2; 3]%Z [] []; Echo.Sample.Conn [7; 8]%Z [] []] nobody) 0).
Definition step := next Echo.Sample.sock 0 (fun k => k) Echo.Sample.write_all 2 acceptor tt got.
Definition script : list label := Eval vm_compute in greedy step [LLoop; LSession 1; LSession 0] 100 start.
Definition final : server Echo.Sample.conn backlog := default start (run step script start).
End Sample.

Lemma server_echoes_witness :
  loop Sample.final = AEnded (system_error 24) /\
  exists w n, accepted Sample.final !! 1 = Some w /\ Echo.Sample.bytes_in w = [7; 8]%Z /\
    sessions Sample.final !! 1 = Some (SEnd (Ret tt) n) /\ Echo.Sample.bytes_out (world n) = [7; 8]%Z.
Proof.
  assert (Hr : reachable Sample.step Sample.start Sample.final) by (exists Sample.script; vm_compute; reflexivity).
  destruct (server_echoes Echo.Sample.sock 0 (fun k => k) Echo.Sample.write_all 2 Sample.acceptor tt Sample.got
    Echo.Sample.bytes_in Echo.Sample.bytes_out Echo.Sample.array Echo.Sample.connected _ _ Hr) as (_ & Hs & _).
  split; [vm_compute; reflexivity|].
  destruct (sessions Sample.final !! 1) as [p|] eqn:Ep; [|vm_compute in Ep; discriminate].
  destruct (Hs 1 p Ep) as (w & Hw & Hp). vm_compute in Ep, Hw. injection Ep as <-. injection Hw as <-.
  simpl in Hp. destruct Hp as [_ Hp]. eexists _, _. split; [vm_compute; reflexivity|]. split; [reflexivity|].
  split; [reflexivity|exact Hp].
Defined.

Lemma server_progress_witness :
  exists s', Sample.step LLoop Sample.start = Some s' /\
  ((exists e, loop s' = AEnded e) \/ exists s'', Sample.step LLoop s' = Some s'' \/
    loop s' = AInside /\ Sample.step (LSession (length (sessions s') - 1)) s' = Some s'').
Proof.
  eexists. split; [reflexivity|]. eapply (server_progress Echo.Sample.sock 0 (fun k => k) Echo.Sample.write_all 2
    Sample.acceptor tt Sample.got Echo.Sample.bytes_in Echo.Sample.bytes_out Echo.Sample.array Echo.Sample.connected).
  exists [LLoop]. reflexivity.
Defined.
