(* ===== verification/EchoMain.v ===== *)
(** * [asio_echo_server.cpp], [asio_echo_client.cpp]: [main]

    What the two programs do around the coroutines of [Echo.v] and [EchoServer.v]:
    the command line, the threads of [Executor.v] and the exceptions. What a program
    prints is a list of messages; the clocks of the client are not modelled. *)

From S2P Require Import Prelude Networking Executor Echo EchoServer.

Local Open Scope Z_scope.

(** What is printed on the terminal. *)
Inductive message : Type :=
  | Usage
  | Exception (e : exn)     (** [e.what()] *)
  | Runtime.                (** the client's measurement *)

(** The value of [main], or how the program ends otherwise, and its output. *)
Definition result : Type := outcome Z * list message.

(** [catch (std::exception& e)] around all of [main] but the usage, and [return 0]. *)
Definition guarded (o : outcome unit) (printed : list message) : result :=
  match o with
  | Ret _ => (Ret 0, printed)
  | Throw (user_exn _) => (Crash Terminated, printed)
  | Throw e => (Ret 0, printed ++ [Exception e])
  | Crash f => (Crash f, printed)
  end.

(** An [int] as an [unsigned short]. *)
Definition wrap16u (z : Z) : Z := z mod 2 ^ 16.

(** [io_context::run()] of the main thread, beside the threads of [x]: it returns when
    nothing keeps the io_context busy. *)
Definition run_context (x : executor) : outcome unit :=
  if (work (context x) =? 0)%nat then Ret tt else Crash Blocks.

(** ** The server *)

Section server.
Context {World Acceptor : Type}.
Context (open : Z -> outcome (net Acceptor)).   (* the constructor of the acceptor, for a port *)

(** [server(io_context, port)]: the detached coroutine, or the exception with which it
    ended in its constructor, and which nobody reads. *)
Definition server_coroutine (port : Z) : outcome (server World Acceptor) :=
  match open port with
  | Ret a => Ret (start a)
  | Throw e => Throw e
  | Crash f => Crash f
  end.

(** The rest of the [try] block: the destructor of [threads] runs when [run] returns. *)
Definition serve : outcome unit :=
  let threads := construct 2 (Ioc false 0) in
  match run_context threads with
  | Ret _ => fst (destructor threads)
  | o => o
  end.

(** [argument]: what [std::atoi] makes of [argv[1]]. *)
Definition server_main (argc argument : Z) : result * option (outcome (server World Acceptor)) :=
  if negb (argc =? 2) then ((Ret 1, [Usage]), None)
  else let coroutine := server_coroutine (wrap16u argument) in (guarded serve [], Some coroutine).

(** The server does not end by itself, whether or not it could open its port: an
    exception of the acceptor is not reported. The port is taken modulo 2^16. *)
Theorem server_main_runs argc argument :
  match server_main argc argument with
  | (r, None) => argc <> 2 /\ r = (Ret 1, [Usage])
  | (r, Some c) => argc = 2 /\ r = (Crash Blocks, []) /\ c = server_coroutine (argument mod 65536)
  end.
Proof. unfold server_main. destruct (argc =? 2) eqn:E; simpl; lia || (split; [lia|done]). Qed.
End server.

(** ** The client *)

Section client.
Context {World : Type}.
Context (func : M (net World) nat) (connection : nat -> net World).   (* the coroutine, and its socket's world *)

Definition CoroutineCount : nat := 220.

(** [std::vector<co::Routine> coros(CoroutineCount)], and what each ends with. *)
Definition coros : list (outcome nat) := (fun i => fst (func (connection i))) <$> seq 0 CoroutineCount.

(** [for (auto& coro : coros) coro.join();] *)
Fixpoint join_all (cs : list (outcome nat)) : outcome unit :=
  match cs with
  | [] => Ret tt
  | Ret _ :: cs => join_all cs
  | Throw e :: _ => Throw e
  | Crash f :: _ => Crash f
  end.

(** The [try] block: [threads] is destroyed on every path, and then [coros], all of
    which have ended when the threads have. *)
Definition measure (x : executor) : outcome unit * list message :=
  let o := join_all coros in
  match fst (destructor x), o with
  | Ret _, Ret _ => (Ret tt, [Runtime])
  | Ret _, _ => (o, [])
  | d, _ => (d, [])
  end.

(** [cores]: [std::thread::hardware_concurrency()] *)
Definition client_main (argc cores : Z) : result :=
  if negb (argc =? 3) then (Ret 1, [Usage])
  else match usePercentageOfHardwareThreads cores (of_int 100) (Ioc false 0) with
       | Some threads => let '(o, printed) := measure threads in guarded o printed
       | None => (Crash OutOfBounds, [])
       end.

Lemma join_all_first cs :
  match join_all cs with
  | Ret _ => forall i o, cs !! i = Some o -> exists n, o = Ret n
  | Throw e => exists i, cs !! i = Some (Throw e) /\ forall j o, (j < i)%nat -> cs !! j = Some o -> exists n, o = Ret n
  | Crash f => exists i, cs !! i = Some (Crash f)
  end.
Proof.
  induction cs as [|[n|e|f] cs IH]; simpl; [done| |by exists 0%nat; split; [|lia]|by exists 0%nat].
  destruct (join_all cs) as [u|e|f].
  - intros [|i] o Ho; simplify_eq/=; [by eexists|eauto].
  - destruct IH as (i & Hi & H). exists (S i). split; [done|].
    intros [|j] o Hj Ho; simplify_eq/=; [by eexists|]. apply (H j); [lia|done].
  - destruct IH as (i & Hi). by exists (S i).
Qed.

(** [main] with two arguments, on a machine of up to 1024 threads: it
    prints its measurement when every coroutine came to its end, and else the exception
    of the first one, in their order, that did not; it returns 0 either way. *)
Theorem client_main_ends cores :
  (1 <= cores <= 1024) ->
  (forall i f, fst (func (connection i)) <> Crash f) -> (forall i n, fst (func (connection i)) <> Throw (user_exn n)) ->
  (client_main 3 cores = (Ret 0, [Runtime]) /\ forall i, (i < CoroutineCount)%nat -> exists n, fst (func (connection i)) = Ret n) \/
  (exists i e, (i < CoroutineCount)%nat /\ fst (func (connection i)) = Throw e /\
     client_main 3 cores = (Ret 0, [Exception e]) /\
     forall j, (j < i)%nat -> exists n, fst (func (connection j)) = Ret n).
Proof.
  intros Hc Hcrash Huser. unfold client_main, usePercentageOfHardwareThreads. simpl negb. cbv iota.
  rewrite (proj1 (proj2 hwThreads_bounds) cores Hc). cbn [fmap option_fmap option_map]. unfold measure.
  destruct (joinAll_once (Z.to_nat cores) false) as (_ & -> & _). cbn [fst].
  assert (Hlk : forall i o, coros !! i = Some o <-> (i < CoroutineCount)%nat /\ fst (func (connection i)) = o).
  { intros i o. unfold coros. rewrite list_lookup_fmap. destruct (decide (i < CoroutineCount)%nat) as [Hi|Hi].
    - rewrite lookup_seq_lt by done. simpl. split; [by intros [= <-]|by intros [_ ->]].
    - rewrite lookup_seq_ge by lia. simpl. split; [done|intros [? _]; lia]. }
  pose proof (join_all_first coros) as H. destruct (join_all coros) as [u|e|f].
  - left. split; [done|]. intros i Hi. by apply (H i), Hlk.
  - right. destruct H as (i & [Hi He]%Hlk & H). exists i, e. split_and!; [done|done| |].
    + simpl. destruct e as [n| | |]; [by destruct (Huser i n)|done..].
    + intros j Hj. apply (H j); [done|]. apply Hlk. split; [lia|done].
  - destruct H as (i & [_ Hi]%Hlk). by destruct (Hcrash i f).
Qed.
End client.

(** ** An example *)

(** The third connection is refused. *)
Lemma client_main_ends_witness :
  let func : M (net nat) nat := fun n => (if (world n =? 2)%nat then Throw (system_error 111) else Ret 0%nat, n) in
  client_main func (fun i => Net i 0) 3 8 = (Ret 0, [Exception (system_error 111)]).
Proof.
  intros func.
  destruct (client_main_ends func (fun i => Net i 0) 8) as [[_ H]|(i & e & Hi & He & -> & _)].
  - lia.
  - intros i f. unfold func. simpl. by destruct (i =? 2)%nat.
  - intros i n. unfold func. simpl. by destruct (i =? 2)%nat.
  - destruct (H 2%nat) as [n Hn]; [vm_compute; lia|]. discriminate Hn.
  - unfold func in He. simpl in He. destruct (i =? 2)%nat; [|done]. by injection He as <-.
Defined.
