(* ===== verification/Readme.v ===== *)
(** * [readme_example.cpp]: polling, in a thread and in coroutines

    [poll(idx)] draws random numbers until one of them is [idx] and sleeps in
    between with [co::await(10ms)]. [main] polls twice in a row, or in two coroutines
    of one io_context that is run by one thread. [rand] is a parameter, as are the
    timers of [Await.v]. *)

From S2P Require Import Prelude Future Await.

Local Open Scope co_scope.

Section readme.
Context {Clock Seed : Type} `{Timers Clock}.
Context (rand : Seed -> Z * Seed).
Context (between meanwhile : Clock * Z -> Clock * Z).   (* what happens around a suspension, see [await] *)

Record world : Type := World {
  clock : Clock;
  seed : Seed;
  found : list Z;     (** what was printed *)
  sleeps : nat;       (** history: how often somebody slept *)
}.

(** [rand() % 32 == idx] *)
Definition done (idx : Z) : M world bool := fun w =>
  let '(r, s) := rand (seed w) in (Ret (Z.rem r 32 =? idx)%Z, World (clock w) s (found w) (sleeps w)).

(** [co::await(10ms)], with [current()] *)
Definition sleep (current : bool) : M world unit := fun w =>
  let '(s, a) := DurationAwaiter 10000 (clock w) in
  let '(o, s) := await current between meanwhile a s in
  (o, World s.1 (seed w) (found w) (S (sleeps w))).

Definition print (idx : Z) : M world unit := fun w =>
  (Ret tt, World (clock w) (seed w) (found w ++ [idx]) (sleeps w)).

(** One round of [poll]: is it over? *)
Definition round (current : bool) (idx : Z) : M world bool :=
  let! b := done idx in
  if b then do! print idx in ret true else do! sleep current in ret false.

Fixpoint poll (fuel : nat) (current : bool) (idx : Z) : M world unit :=
  match fuel with
  | 0 => crash Blocks
  | S fuel => let! over := round current idx in if over then ret tt else poll fuel current idx
  end.

Definition main_sync (fuel : nat) : M world unit := do! poll fuel false 0 in poll fuel false 1.

(** [main] with [async]: a coroutine is where it polls for [idx], or over; the
    thread that constructs it or runs the io_context runs it for one round. *)
Record process : Type := Process { shared : world; polling : list (option Z) }.

Definition main_async (w : world) : process := Process w [Some 0%Z; Some 1%Z].

Definition next (i : nat) (p : process) : option process :=
  match polling p !! i with
  | Some (Some idx) =>
      match round true idx (shared p) with
      | (Ret true, w) => Some (Process w (<[i := None]> (polling p)))
      | (Ret false, w) => Some (Process w (polling p))
      | (_, w) => Some (Process w (<[i := None]> (polling p)))
      end
  | _ => None
  end.

(** ** Properties *)

(** The [k]-th number that is drawn, and what is left after [k] numbers. *)
Fixpoint after (k : nat) (s : Seed) : Seed := match k with 0 => s | S k => after k (rand s).2 end.
Definition draw (k : nat) (s : Seed) : Z := Z.rem (rand (after k s)).1 32.

(** No timer is cancelled. *)
Hypothesis uncancelled : forall s, (meanwhile s).2 = 0%Z.

Lemma ten_milliseconds : toBoostPosixTime 1 1000 10 = Some 10000%Z.
Proof. reflexivity. Qed.

Lemma sleep_returns current w : exists c, sleep current w = (Ret tt, World c (seed w) (found w) (S (sleeps w))).
Proof.
  unfold sleep, await, DurationAwaiter, TimerAwaiter, SynchronAwait, bind, assert_, ret. simpl.
  destruct (_ <? 0)%Z; [by eexists|]. destruct current; simpl; [|by eexists].
  rewrite (surjective_pairing (between _)). simpl. rewrite (surjective_pairing (meanwhile _)), uncancelled.
  by eexists.
Qed.

Lemma round_branches current idx w :
  exists c, round current idx w =
    if (Z.rem (rand (seed w)).1 32 =? idx)%Z
    then (Ret true, World c (rand (seed w)).2 (found w ++ [idx]) (sleeps w))
    else (Ret false, World c (rand (seed w)).2 (found w) (S (sleeps w))).
Proof.
  unfold round, done, bind. destruct (rand (seed w)) as [r s]. simpl. destruct (_ =? _)%Z; [by eexists|].
  destruct (sleep_returns current (World (clock w) s (found w) (sleeps w))) as [c ->]. by eexists.
Qed.

(** [poll] draws until the first hit, prints once, and sleeps once per miss; in a
    thread and in a coroutine alike. *)
Theorem poll_finds k current idx : forall w fuel,
  (forall j, j < k -> draw j (seed w) <> idx) -> draw k (seed w) = idx -> k < fuel ->
  exists c, poll fuel current idx w = (Ret tt, World c (after (S k) (seed w)) (found w ++ [idx]) (sleeps w + k)).
Proof.
  induction k as [|k IH]; intros w [|fuel] Hmiss Hhit Hf; try lia; simpl; unfold bind;
    destruct (round_branches current idx w) as [c ->].
  - unfold draw in Hhit. simpl in Hhit. rewrite Hhit, Z.eqb_refl, Nat.add_0_r. by eexists.
  - specialize (Hmiss 0 ltac:(lia)) as H0. unfold draw in H0. simpl in H0. rewrite (proj2 (Z.eqb_neq _ _)) by done.
    destruct (IH (World c (rand (seed w)).2 (found w) (S (sleeps w))) fuel) as [c' E]; simpl in *.
    + intros j Hj. by apply (Hmiss (S j) ltac:(lia)).
    + exact Hhit.
    + lia.
    + exists c'. rewrite E. do 2 f_equal. lia.
Qed.

Lemma omap_id_remove {A} (l : list (option A)) i x :
  l !! i = Some (Some x) -> omap id l ≡ₚ x :: omap id (<[i := None]> l).
Proof.
  revert i. induction l as [|y l IH]; intros [|i] Hi; simplify_eq/=; [done|].
  destruct y as [y|]; simpl; [|by apply IH]. rewrite (IH i Hi). apply Permutation_swap.
Qed.

(** In two coroutines, in every order of their rounds: what has been printed and
    what is still looked for are together 0 and 1; every number that was drawn was a
    hit of one of them, or its miss, after which it slept. *)
Theorem async_finds_both w p :
  found w = [] -> sleeps w = 0 -> reachable next (main_async w) p ->
  found (shared p) ++ omap id (polling p) ≡ₚ [0; 1]%Z /\
  seed (shared p) = after (length (found (shared p)) + sleeps (shared p)) (seed w).
Proof.
  intros Hf Hs. apply (invariant_reachable next (fun p =>
     found (shared p) ++ omap id (polling p) ≡ₚ [0; 1]%Z /\
     seed (shared p) = after (length (found (shared p)) + sleeps (shared p)) (seed w))).
  - assert (Hafter : forall k s, (rand (after k s)).2 = after (S k) s).
    { induction k as [|k IH]; intros s; [done|]. simpl. apply IH. }
    intros i p1 p2 [Hp Hd] Hn. unfold next in Hn. destruct (polling p1 !! i) as [[idx|]|] eqn:Ei; [|done..].
    destruct (round_branches true idx (shared p1)) as [c E]. rewrite E in Hn.
    destruct (_ =? idx)%Z; simplify_eq; cbn [shared polling found sleeps seed]; rewrite Hd, Hafter.
    + rewrite (omap_id_remove _ _ _ Ei) in Hp. rewrite <- app_assoc, length_app. split; [done|].
      f_equal. simpl. lia.
    + split; [done|]. f_equal. lia.
  - simpl. by rewrite Hf, Hs.
Qed.

(** Until both are found, somebody polls. *)
Lemma async_progress w p :
  found w = [] -> sleeps w = 0 -> reachable next (main_async w) p ->
  length (found (shared p)) = 2 \/ exists i p', next i p = Some p'.
Proof.
  intros Hf Hs Hr. destruct (async_finds_both w p Hf Hs Hr) as [Hp _].
  destruct (omap id (polling p)) as [|idx l] eqn:El; [left; rewrite app_nil_r in Hp; by rewrite Hp|right].
  assert (Hin : idx ∈ omap id (polling p)) by (rewrite El; apply list_elem_of_here).
  apply list_elem_of_omap in Hin as ([x|] & Hin & Hx); [|done]. simpl in Hx. simplify_eq.
  apply list_elem_of_lookup in Hin as [i Hi].
  exists i. unfold next. rewrite Hi. destruct (round_branches true idx (shared p)) as [c ->].
  by destruct (_ =? idx)%Z; eexists.
Qed.
End readme.

(** ** An example *)

Module Sample.
#[local] Existing Instance Await.Sample.timers.
Definition rand (s : Z) : Z * Z := (s, (s * 13 + 7) mod 1024)%Z.
Definition start : world (Clock := Z * Z) (Seed := Z) := World (0, 0)%Z 5%Z [] 0.
End Sample.
#[local] Existing Instance Await.Sample.timers.

Lemma poll_finds_witness :
  exists c, poll Sample.rand id (timer_handler 0) 100 false 1 Sample.start =
    (Ret tt, World c (after Sample.rand 29 5%Z) [1%Z] 28).
Proof.
  apply (poll_finds Sample.rand id (timer_handler 0) (fun _ => eq_refl) 28 false 1 Sample.start 100).
  - intros j Hj.
    assert (Hc : forallb (fun j => negb (draw Sample.rand j 5%Z =? 1)%Z) (seq 0 28) = true) by (vm_compute; reflexivity).
    rewrite forallb_forall in Hc. apply Z.eqb_neq, negb_true_iff, Hc, in_seq. lia.
  - vm_compute. reflexivity.
  - lia.
Defined.
