(* ===== verification/Generate.v ===== *)
(** * [generate.hpp]: generators

    [generate(func)] runs [func(sender)] in a detached coroutine and returns the
    receiver of a channel; the sender is closed when the coroutine's callable goes.
    The channel is the queue of [Channel.v], which both an [UnbufferedChannel]
    ([generate]) and a [BufferedChannel] ([generateForMultiConsumer]) implement.
    The consumer loops over the receiver, and may leave the loop early. *)

From S2P Require Import Prelude Channel.

Section generate.
Context {T : Type}.

(** [func]: it sends values, and stops when a [push] returns false. *)
Inductive generator_pc : Type :=
  | GSend (rest : list T)     (** before the next [sender(v)] *)
  | GWait (rest : list T)     (** in [push], the value being in the channel *)
  | GClose                    (** the callable, and the sender with it, is destroyed *)
  | GDone.

(** [for (auto&& v : receiver) ...] *)
Inductive consumer_pc : Type :=
  | CPop
  | CBody (v : T)
  | CClose            (** after [break]: the receiver is destroyed *)
  | CStopped
  | CDrained.         (** the loop has ended by itself *)

Record state : Type := St {
  channel : Fifo.fifo T;
  generator : generator_pc;
  consumer : consumer_pc;
  consumed : list T;     (** history: the values that the loop's body has seen *)
}.

Inductive label : Type :=
  | LGenerator (pushed : bool)    (** [pushed]: what [push] returns *)
  | LConsumer (break : bool).     (** [break]: does the body leave the loop? *)

Section steps.
Context (vs : list T) (limit : nat).   (* what [func] would send; how many values a returning [push] leaves behind *)
Implicit Types (s : state).

Definition init : state := St Fifo.start (GSend vs) CPop [].

Definition generator_step (pushed : bool) s : option state :=
  match generator s with
  | GSend [] => Some (St (channel s) GClose (consumer s) (consumed s))
  | GSend (v :: rest) =>
      match Fifo.act (Fifo.Put v) (channel s) with
      | Some q => Some (St q (GWait rest) (consumer s) (consumed s))
      | None => Some (St (channel s) GClose (consumer s) (consumed s))
      end
  | GWait rest =>
      if pushed
      then if length (Fifo.waiting (channel s)) <=? limit
           then Some (St (channel s) (GSend rest) (consumer s) (consumed s)) else None
      else if Fifo.receiver_closed (channel s)
           then Some (St (channel s) GClose (consumer s) (consumed s)) else None
  | GClose =>
      match Fifo.act Fifo.CloseSender (channel s) with
      | Some q => Some (St q GDone (consumer s) (consumed s))
      | None => None
      end
  | GDone => None
  end.

Definition consumer_step (break : bool) s : option state :=
  match consumer s with
  | CPop =>
      match Fifo.waiting (channel s) with
      | v :: _ =>
          match Fifo.act Fifo.Give (channel s) with
          | Some q => Some (St q (generator s) (CBody v) (consumed s))
          | None => None
          end
      | [] => if Fifo.sender_closed (channel s)
              then Some (St (channel s) (generator s) CDrained (consumed s)) else None
      end
  | CBody v =>
      Some (St (channel s) (generator s) (if break then CClose else CPop) (consumed s ++ [v]))
  | CClose =>
      match Fifo.act Fifo.CloseReceiver (channel s) with
      | Some q => Some (St q (generator s) CStopped (consumed s))
      | None => None
      end
  | CStopped | CDrained => None
  end.

Definition next (l : label) s : option state :=
  match l with LGenerator b => generator_step b s | LConsumer b => consumer_step b s end.
End steps.

(** ** The invariant *)

Section invariant.
Context (vs : list T) (limit : nat).
Implicit Types (s : state).

Definition in_hand (c : consumer_pc) : list T := match c with CBody v => [v] | _ => [] end.
Definition closed (c : consumer_pc) : bool := match c with CStopped => true | _ => false end.
Definition sent_all s : Prop := Fifo.put (channel s) = vs \/ Fifo.receiver_closed (channel s) = true.

Definition generator_ok s : Prop :=
  match generator s with
  | GSend rest | GWait rest => Fifo.put (channel s) ++ rest = vs
  | GClose | GDone => sent_all s
  end.

Record Inv s : Prop := {
  gen_order : Fifo.in_order (channel s);
  gen_prefix : exists rest, Fifo.put (channel s) ++ rest = vs;
  gen_ok : generator_ok s;
  gen_sender : Fifo.sender_closed (channel s) = match generator s with GDone => true | _ => false end;
  gen_receiver : Fifo.receiver_closed (channel s) = closed (consumer s);
  gen_given : Fifo.given (channel s) = consumed s ++ in_hand (consumer s);
  gen_drained : consumer s = CDrained -> Fifo.waiting (channel s) = [] /\ generator s = GDone;
}.

Lemma generate_inv_init : Inv (init vs).
Proof. by split; try done; exists vs. Qed.

Lemma generate_generator_inv b s s' : Inv s -> generator_step limit b s = Some s' -> Inv s'.
Proof.
  intros [H1 H2 H3 H4 H5 H6 H7] Hs. unfold generator_step, generator_ok, sent_all in *.
  destruct (generator s) as [[|v rest]|rest| |] eqn:Eg; [..|done].
  - injection Hs as <-. split; simpl; try done; [|by intros [_ ?]%H7].
    left. by rewrite app_nil_r in H3.
  - simpl in Hs. rewrite H4 in Hs. simpl in Hs. destruct (Fifo.receiver_closed (channel s)) eqn:Er; injection Hs as <-.
    + split; simpl; try done; [by right|by rewrite Er|by intros [_ ?]%H7].
    + split; simpl; try done.
      * apply (Fifo.act_in_order (Fifo.Put v) (channel s)); [done|]. simpl. by rewrite H4, Er.
      * exists rest. by rewrite <- app_assoc.
      * unfold generator_ok. simpl. by rewrite <- app_assoc.
      * by intros [_ ?]%H7.
  - destruct b; [case_match|destruct (Fifo.receiver_closed (channel s)) eqn:Er]; simplify_eq; split; simpl; try done.
    + by intros [_ ?]%H7.
    + by right.
    + by rewrite Er.
    + by intros [_ ?]%H7.
  - simpl in Hs. rewrite H4 in Hs. injection Hs as <-. split; simpl; try done. by intros [? _]%H7.
Qed.

Lemma generate_consumer_inv b s s' : Inv s -> consumer_step b s = Some s' -> Inv s'.
Proof.
  intros [H1 H2 H3 H4 H5 H6 H7] Hs. unfold consumer_step in Hs.
  destruct (consumer s) as [|v| | |] eqn:Ec; [| | |done..]; simpl in H5, H6.
  - destruct (Fifo.waiting (channel s)) as [|v q] eqn:Ew.
    + destruct (Fifo.sender_closed (channel s)) eqn:Es; [|done]. injection Hs as <-.
      split; simpl; try done; [congruence|]. intros _. split; [done|]. by destruct (generator s).
    + unfold Fifo.act in Hs. rewrite H5, Ew in Hs. injection Hs as <-. split; simpl; try done.
      * apply (Fifo.act_in_order Fifo.Give (channel s)); [done|]. simpl. by rewrite H5, Ew.
      * unfold generator_ok, sent_all in *. simpl. rewrite H5 in H3. done.
      * by rewrite H6, app_nil_r.
  - injection Hs as <-. split; simpl; try done; [by destruct b|by destruct b; rewrite H6, app_nil_r|by destruct b].
  - unfold Fifo.act in Hs. rewrite H5 in Hs. injection Hs as <-. split; simpl; try done.
    unfold generator_ok, sent_all in *. simpl. destruct (generator s); auto.
Qed.

Lemma generate_inv s : reachable (next limit) (init vs) s -> Inv s.
Proof.
  apply invariant_reachable; [|apply generate_inv_init].
  intros [b|b] s1 s2 H Hs; [by eapply generate_generator_inv|by eapply generate_consumer_inv].
Qed.

(** ** Termination *)

Definition generator_left (g : generator_pc) : nat :=
  match g with
  | GSend rest => 4 * length rest + 2
  | GWait rest => 4 * length rest + 3
  | GClose => 1
  | GDone => 0
  end.
Definition consumer_left (c : consumer_pc) : nat :=
  match c with CPop => 2 | CBody _ => 3 | CClose => 1 | _ => 0 end.
Definition work s : nat :=
  generator_left (generator s) + consumer_left (consumer s) + 2 * length (Fifo.waiting (channel s)).

Lemma generate_work l s s' : Inv s -> True -> next limit l s = Some s' -> Inv s' /\ work s' < work s.
Proof.
  intros H _ Hs. split; [destruct l; [by eapply generate_generator_inv|by eapply generate_consumer_inv]|].
  pose proof (gen_sender _ H) as Hsc. pose proof (gen_receiver _ H) as Hrc. unfold work.
  destruct l as [b|b]; simpl in Hs.
  - unfold generator_step in Hs. destruct (generator s) as [[|v rest]|rest| |]; [..|done].
    + injection Hs as <-. simpl. lia.
    + simpl in Hs. destruct (_ || _); injection Hs as <-; simpl; [lia|].
      pose proof (gen_order _ H) as Ho. unfold Fifo.in_order in Ho.
      unfold Fifo.waiting in *. simpl. rewrite !length_drop, length_app. simpl. lia.
    + destruct b; [case_match|case_match]; simplify_eq; simpl; lia.
    + simpl in Hs. rewrite Hsc in Hs. injection Hs as <-. simpl. unfold Fifo.waiting. simpl. lia.
  - unfold consumer_step in Hs. destruct (consumer s) as [|v| | |] eqn:Ec; [| | |done..].
    + destruct (Fifo.waiting (channel s)) as [|v q] eqn:Ew.
      { destruct (Fifo.sender_closed (channel s)); [|done]. injection Hs as <-. simpl. rewrite Ew. simpl. lia. }
      unfold Fifo.act in Hs. rewrite Hrc, Ew in Hs. simpl in Hs. injection Hs as <-. simpl.
      unfold Fifo.waiting in *. simpl. rewrite length_app. apply (f_equal length) in Ew.
      rewrite length_drop in *. simpl in *. lia.
    + injection Hs as <-. destruct b; simpl; lia.
    + unfold Fifo.act in Hs. rewrite Hrc in Hs. injection Hs as <-. simpl. unfold Fifo.waiting. simpl. lia.
Qed.

Lemma generate_progress s :
  Inv s -> ~ (generator s = GDone /\ (consumer s = CStopped \/ consumer s = CDrained)) ->
  exists l s', next limit l s = Some s'.
Proof.
  intros H Hn. pose proof (gen_sender _ H) as Hsc. pose proof (gen_receiver _ H) as Hrc.
  destruct (consumer s) as [|v| | |] eqn:Ec.
  - destruct (Fifo.waiting (channel s)) as [|v q] eqn:Ew.
    + destruct (generator s) as [[|v rest]|rest| |] eqn:Eg.
      * exists (LGenerator true). simpl. unfold generator_step. rewrite Eg. by eexists.
      * exists (LGenerator true). simpl. unfold generator_step. rewrite Eg. case_match; by eexists.
      * exists (LGenerator true). simpl. unfold generator_step. rewrite Eg, Ew. simpl. by eexists.
      * exists (LGenerator true). simpl. unfold generator_step. rewrite Eg. simpl. rewrite Hsc. by eexists.
      * exists (LConsumer false). simpl. unfold consumer_step. rewrite Ec, Ew, Hsc. by eexists.
    + exists (LConsumer false). simpl. unfold consumer_step, Fifo.act. rewrite Ec, Ew, Hrc. by eexists.
  - exists (LConsumer false). simpl. unfold consumer_step. rewrite Ec. by eexists.
  - exists (LConsumer false). simpl. unfold consumer_step. rewrite Ec. simpl. rewrite Hrc. by eexists.
  - destruct (generator s) as [[|v rest]|rest| |] eqn:Eg; [..|destruct Hn; by auto].
    + exists (LGenerator true). simpl. unfold generator_step. rewrite Eg. by eexists.
    + exists (LGenerator true). simpl. unfold generator_step. rewrite Eg. case_match; by eexists.
    + exists (LGenerator false). simpl. unfold generator_step. rewrite Eg, Hrc. by eexists.
    + exists (LGenerator true). simpl. unfold generator_step. rewrite Eg. simpl. rewrite Hsc. by eexists.
  - destruct (gen_drained _ H Ec) as [_ Hd]. destruct Hn. by auto.
Qed.
End invariant.
End generate.

Arguments state : clear implicits.

Section properties.
Context {T : Type}.
Implicit Types (vs : list T) (s : state T).

(** the loop over a generator's receiver sees the values that the generator
    sends, each once and in order, in every interleaving and whatever the
    capacity of the channel; and when the loop ends by itself, it has seen them
    all, and the generator has ended. *)
Theorem generator_delivers vs limit s :
  reachable (next limit) (init vs) s ->
  (exists rest, consumed s ++ rest = vs) /\
  (consumer s = CDrained -> consumed s = vs /\ generator s = GDone).
Proof.
  intros H%generate_inv. pose proof (gen_order _ _ H) as Ho. unfold Fifo.in_order in Ho.
  pose proof (gen_given _ _ H) as Hg. split.
  - destruct (gen_prefix _ _ H) as [rest Hr]. rewrite Ho, Hg, <- !app_assoc in Hr. eauto.
  - intros Hc. destruct (gen_drained _ _ H Hc) as [Hw Hd]. split; [|done].
    pose proof (gen_ok _ _ H) as Hk. unfold generator_ok, sent_all in Hk. rewrite Hd in Hk.
    rewrite (gen_receiver _ _ H), Hc in Hk. destruct Hk as [Hk|?]; [|done].
    rewrite <- Hk, Ho, Hg, Hc, Hw. simpl. by rewrite !app_nil_r.
Qed.

(** a generator and its consumer both end, whether the consumer drains the
    generator or leaves the loop early: no more than [4*|vs| + 4] steps are
    possible, and until both are done one of them has a step to make. *)
Theorem generator_ends vs limit ls s :
  run (next limit) ls (init vs) = Some s ->
  length ls <= 4 * length vs + 4 /\
  (~ (generator s = GDone /\ (consumer s = CStopped \/ consumer s = CDrained)) ->
   exists l s', next limit l s = Some s').
Proof.
  intros Hr. assert (H : Inv vs s) by (apply (generate_inv vs limit); by exists ls).
  split; [|by eapply generate_progress].
  pose proof (work_bounds (next limit) (fun _ => True) work (Inv vs) (generate_work vs limit) ls _ s
    (generate_inv_init vs) (proj2 (Forall_forall _ _) (fun _ _ => I)) Hr) as Hw.
  unfold work at 2 in Hw. simpl in Hw. lia.
Qed.
End properties.

(** ** Examples *)

Module Sample.
(** Three values through an unbuffered channel: all, or only the first one. *)
Definition one : list label := [LGenerator true; LConsumer false; LGenerator true; LConsumer false].
Definition script : list label := one ++ one ++ one ++ [LGenerator true; LGenerator true; LConsumer false].
Definition final : state nat := default (init [4; 5; 6]) (run (next 0) script (init [4; 5; 6])).
Definition stopping : list label :=
  [LGenerator true; LConsumer true; LConsumer true; LGenerator true; LGenerator true; LConsumer true].
Definition stopped : state nat := default (init [4; 5; 6]) (run (next 0) stopping (init [4; 5; 6])).
End Sample.

Lemma generator_delivers_witness :
  consumer Sample.final = CDrained /\ consumed Sample.final = [4; 5; 6] /\ generator Sample.final = GDone.
Proof.
  assert (Hc : consumer Sample.final = CDrained) by (vm_compute; reflexivity). split; [exact Hc|].
  apply (generator_delivers [4; 5; 6] 0 Sample.final); [|exact Hc]. exists Sample.script. vm_compute. reflexivity.
Defined.

Lemma generator_ends_witness :
  consumer Sample.stopped = CStopped /\ length Sample.stopping <= 16 /\
  exists l s', next 0 l Sample.stopped = Some s'.
Proof.
  assert (H : length Sample.stopping <= 4 * length [4; 5; 6] + 4 /\
    (~ (generator Sample.stopped = GDone /\ (consumer Sample.stopped = CStopped \/ consumer Sample.stopped = CDrained)) ->
     exists l s', next 0 l Sample.stopped = Some s')).
  { apply (generator_ends [4; 5; 6] 0 Sample.stopping Sample.stopped). vm_compute. reflexivity. }
  split; [vm_compute; reflexivity|]. split; [apply H|apply H]. intros [E _]. vm_compute in E. discriminate.
Defined.
