(* ===== verification/GenerateChannel.v ===== *)
(** * [generate.hpp] on [channel.hpp]: a generator for several consumers

    [generateForMultiConsumer(func)] runs [func(sender)] in a detached coroutine
    and returns a shared receiver, which several consumers copy and loop over.
    Here generator, caller and consumers are a program that calls the operations
    of the channel, for any [LinearChannel]; [BufferedChannel] is the one that
    the function makes. *)

From S2P Require Import Prelude BufferedChannel BufferedPorts Channel Ports.

(** ** The program

    Thread 0 is the coroutine, thread 1 the caller of
    [generateForMultiConsumer], thread [S (S w)] consumer [w]. *)

Module Multi.
Section multi.
Context {T : Type}.

(** [func(sender)]: it sends values, and stops when a [push] returns false. *)
Inductive gpc : Type :=
  | GPush (rest : list T)      (** before the next [sender(v)] *)
  | GPushing (rest : list T)   (** in it *)
  | GDrop                      (** the callable, and its [sender] with it, is destroyed *)
  | GClose                     (** ... it was the last one: before [closeSender()] *)
  | GClosing                   (** in it *)
  | GDone.

(** The caller, who has [chan.sender] until the function returns. *)
Inductive rpc : Type := RDrop | RClose | RClosing | RReturned.

(** [for (auto&& v : *receiver) ...] *)
Inductive cpc : Type :=
  | CPop
  | CPopping
  | CBody (v : T)
  | CDrop                      (** the loop is over: [receiver] is released *)
  | CClose                     (** ... it was the last one: before [closeReceiver()] *)
  | CClosing
  | CDone.

Record consumer : Type := Consumer {
  at_ : cpc;
  seen : list T;     (** history: the values that the loop's body has seen *)
  drained : bool;    (** history: has the loop ended by itself? *)
}.

Record state : Type := St {
  senders : nat;      (** [use_count] of the shared [Sender] *)
  receivers : nat;    (** ... and of the shared [Receiver] *)
  generator : gpc;
  caller : rpc;
  consumers : list consumer;
}.

Definition init (vs : list T) (n : nat) : state :=
  St 2 n (GPush vs) RDrop (replicate n (Consumer CPop [] false)).

Implicit Types (x : state).

Definition put_generator (g : gpc) x : state := St (senders x) (receivers x) g (caller x) (consumers x).
Definition put_caller (r : rpc) x : state := St (senders x) (receivers x) (generator x) r (consumers x).
Definition put_consumer (w : nat) (c : consumer) x : state :=
  St (senders x) (receivers x) (generator x) (caller x) (<[w := c]> (consumers x)).
Definition drop_sender x : state := St (senders x - 1) (receivers x) (generator x) (caller x) (consumers x).
Definition drop_receiver x : state := St (senders x) (receivers x - 1) (generator x) (caller x) (consumers x).
Definition goto (p : cpc) (c : consumer) : consumer := Consumer p (seen c) (drained c).

Inductive label : Type :=
  | LGenerator
  | LCaller
  | LConsumer (w : nat) (break : bool).   (* [break]: does the body leave the loop? *)

Definition generator_local x : option state :=
  match generator x with
  | GPush [] => Some (put_generator GDrop x)
  | GDrop => let x := drop_sender x in Some (put_generator (if senders x =? 0 then GClose else GDone) x)
  | _ => None
  end.

Definition caller_local x : option state :=
  match caller x with
  | RDrop => let x := drop_sender x in Some (put_caller (if senders x =? 0 then RClose else RReturned) x)
  | _ => None
  end.

Definition consumer_local (w : nat) (break : bool) x : option state :=
  match consumers x !! w with
  | Some (Consumer (CBody v) seen drained) =>
      Some (put_consumer w (Consumer (if break then CDrop else CPop) (seen ++ [v]) drained) x)
  | Some (Consumer CDrop seen drained) =>
      let x := drop_receiver x in
      Some (put_consumer w (Consumer (if receivers x =? 0 then CClose else CDone) seen drained) x)
  | _ => None
  end.

Definition local (l : label) x : option state :=
  match l with
  | LGenerator => generator_local x
  | LCaller => caller_local x
  | LConsumer w break => consumer_local w break x
  end.

(** The consumers have the receiver when the function has returned. *)
Definition wants x (t : nat) : option (Port.kind T) :=
  match t with
  | 0 => match generator x with
         | GPush (v :: _) => Some (Port.Push v)
         | GClose => Some Port.CloseSender
         | _ => None
         end
  | 1 => match caller x with RClose => Some Port.CloseSender | _ => None end
  | S (S w) =>
      match caller x, at_ <$> consumers x !! w with
      | RReturned, Some CPop => Some Port.Pop
      | RReturned, Some CClose => Some Port.CloseReceiver
      | _, _ => None
      end
  end.

Definition called (t : nat) x : state :=
  match t with
  | 0 => match generator x with
         | GPush (_ :: rest) => put_generator (GPushing rest) x
         | GClose => put_generator GClosing x
         | _ => x
         end
  | 1 => put_caller RClosing x
  | S (S w) =>
      match consumers x !! w with
      | Some c => put_consumer w (goto (match at_ c with CPop => CPopping | _ => CClosing end) c) x
      | None => x
      end
  end.

Definition resume (t : nat) (a : Port.answer T) x : state :=
  match t with
  | 0 => match generator x, a with
         | GPushing rest, Port.APush true => put_generator (GPush rest) x
         | GPushing _, Port.APush false => put_generator GDrop x
         | GClosing, Port.ADone => put_generator GDone x
         | _, _ => x
         end
  | 1 => put_caller RReturned x
  | S (S w) =>
      match consumers x !! w, a with
      | Some (Consumer CPopping seen drained), Port.APop (Some v) =>
          put_consumer w (Consumer (CBody v) seen drained) x
      | Some (Consumer CPopping seen _), Port.APop None => put_consumer w (Consumer CDrop seen true) x
      | Some (Consumer CClosing seen drained), Port.ADone => put_consumer w (Consumer CDone seen drained) x
      | _, _ => x
      end
  end.

Definition program : Ports.program T state label := Program T state label wants called resume local.
End multi.
Arguments gpc : clear implicits.
Arguments cpc : clear implicits.
Arguments consumer : clear implicits.
Arguments state : clear implicits.
End Multi.

(** ** Interleaved lists *)

(** [l] is made of the elements of the lists [ls], those of each list in their
    order: every element of [l] was appended to one of them. *)
Inductive interleaved {A} : list (list A) -> list A -> Prop :=
  | interleaved_nil ls : Forall (fun l => l = []) ls -> interleaved ls []
  | interleaved_snoc ls l i li v :
      interleaved ls l -> ls !! i = Some li -> interleaved (<[i := li ++ [v]]> ls) (l ++ [v]).

Lemma interleaved_sublist {A} (ls : list (list A)) l i li :
  interleaved ls l -> ls !! i = Some li -> li `sublist_of` l.
Proof.
  intros H. revert i li. induction H as [ls Hn|ls l j lj v _ IH Hj]; intros i li Hi.
  - rewrite Forall_lookup in Hn. by rewrite (Hn i li Hi).
  - apply list_lookup_insert_Some in Hi as [(_ & <- & _)|[_ Hi]].
    + apply sublist_app; [by eapply IH|done].
    + apply sublist_inserts_r. by eapply IH.
Qed.

Lemma interleaved_perm {A} (ls : list (list A)) l : interleaved ls l -> concat ls ≡ₚ l.
Proof.
  induction 1 as [ls Hn|ls l i li v _ IH Hi].
  - induction Hn as [|l ls -> _ IH]; done.
  - pose proof (concat_insert (fun x => x) ls i li (li ++ [v]) Hi) as Hp. rewrite !map_id in Hp.
    rewrite IH in Hp. apply (Permutation_app_inv_r li). rewrite Hp. solve_Permutation.
Qed.

(** ** The last reference *)

(** Of a shared end: [count] is its [use_count], [holders] have a reference,
    [closers] are about to close the channel's end. *)
Definition refs_ok (count holders closers : nat) (closed : bool) : Prop :=
  count = holders /\ (closers = 0 \/ closers = 1 /\ holders = 0) /\ closed = (holders + closers =? 0).

Lemma refs_release count h cl b :
  refs_ok count (h + 1) cl b -> refs_ok (count - 1) h (cl + if count - 1 =? 0 then 1 else 0) b.
Proof.
  unfold refs_ok. intros (-> & Hc & ->). rewrite Nat.add_sub.
  destruct h as [|h], Hc as [->|[-> ?]]; simpl; split_and!; auto; lia.
Qed.

Lemma refs_open count h cl b : refs_ok count h cl b -> 0 < h + cl -> b = false.
Proof. intros (_ & _ & ->) H. apply Nat.eqb_neq. lia. Qed.

Lemma refs_close count h cl b :
  refs_ok count h (cl + 1) b -> b = false /\ h = 0 /\ cl = 0 /\ refs_ok count h cl true.
Proof.
  unfold refs_ok. intros (-> & Hc & ->). assert (h = 0 /\ cl = 0) as [-> ->] by lia. split_and!; auto.
Qed.

(** ** The invariant *)

Section invariant.
Context {T : Type} (vs : list T) (k cap : nat).
Abbreviation n := (S k).    (* consumers *)
Import Multi.
Implicit Types (x : state T) (p : Port.ports T) (q : Fifo.fifo T) (ph g r : Port.phase T).
Implicit Types (cs : list (consumer T * Port.phase T)).

Definition sent q : Prop :=
  Fifo.put q = vs \/ Fifo.receiver_closed q = true /\ exists rest, Fifo.put q ++ rest = vs.

Definition generator_ok q (pc : gpc T) ph : Prop :=
  match pc, ph with
  | GPush rest, Port.Idle | GPushing rest, Port.Accepted => Fifo.put q ++ rest = vs
  | GPushing rest, Port.Called (Port.Push v) => Fifo.put q ++ v :: rest = vs
  | GDrop, Port.Idle | GClose, Port.Idle | GDone, Port.Idle => sent q
  | GClosing, Port.Called Port.CloseSender | GClosing, Port.Closed => sent q
  | _, _ => False
  end.

Definition caller_ok (pc : rpc) ph : Prop :=
  match pc, ph with
  | RDrop, Port.Idle | RClose, Port.Idle | RReturned, Port.Idle => True
  | RClosing, Port.Called Port.CloseSender | RClosing, Port.Closed => True
  | _, _ => False
  end.

Definition consumer_ok (cp : consumer T * Port.phase T) : Prop :=
  match at_ cp.1, cp.2 with
  | CPop, Port.Idle | CBody _, Port.Idle | CDrop, Port.Idle | CClose, Port.Idle | CDone, Port.Idle => True
  | CPopping, Port.Called Port.Pop | CPopping, Port.Got _ => True
  | CClosing, Port.Called Port.CloseReceiver | CClosing, Port.Closed => True
  | _, _ => False
  end.

(** Who has a reference, and who will close the end. *)
Definition is_called ph : nat := match ph with Port.Called _ => 1 | _ => 0 end.
Definition g_holds (pc : gpc T) : nat := match pc with GPush _ | GPushing _ | GDrop => 1 | _ => 0 end.
Definition g_closes (pc : gpc T) ph : nat := match pc with GClose => 1 | GClosing => is_called ph | _ => 0 end.
Definition r_holds (pc : rpc) : nat := match pc with RDrop => 1 | _ => 0 end.
Definition r_closes (pc : rpc) ph : nat := match pc with RClose => 1 | RClosing => is_called ph | _ => 0 end.
Definition c_holds (cp : consumer T * Port.phase T) : nat :=
  match at_ cp.1 with CPop | CPopping | CBody _ | CDrop => 1 | _ => 0 end.
Definition c_closes (cp : consumer T * Port.phase T) : nat :=
  match at_ cp.1 with CClose => 1 | CClosing => is_called cp.2 | _ => 0 end.

(** What a consumer has got: what its body has seen, and the value in its hand. *)
Definition hand (cp : consumer T * Port.phase T) : list T :=
  match at_ cp.1, cp.2 with CBody v, _ => [v] | CPopping, Port.Got v => [v] | _, _ => [] end.
Definition taken (cp : consumer T * Port.phase T) : list T := seen cp.1 ++ hand cp.

(** The phases of the threads are [g], [r] and those in [cs]. *)
Record Inv x p g r cs : Prop := {
  iv_consumers : consumers x = fst <$> cs;
  iv_phases : Port.phases p = g :: r :: (snd <$> cs);
  iv_generator : generator_ok (Port.queue p) (generator x) g;
  iv_caller : caller_ok (caller x) r;
  iv_consumer w cp : cs !! w = Some cp -> consumer_ok cp;
  iv_order : Fifo.in_order (Port.queue p);
  iv_senders : refs_ok (senders x) (g_holds (generator x) + r_holds (caller x))
    (g_closes (generator x) g + r_closes (caller x) r) (Fifo.sender_closed (Port.queue p));
  iv_receivers : refs_ok (receivers x) (sum_list_with c_holds cs) (sum_list_with c_closes cs)
    (Fifo.receiver_closed (Port.queue p));
  iv_given : interleaved (taken <$> cs) (Fifo.given (Port.queue p));
  iv_drained w cp : cs !! w = Some cp -> drained cp.1 = true ->
    Fifo.put (Port.queue p) = vs /\ Fifo.waiting (Port.queue p) = [] /\ Fifo.sender_closed (Port.queue p) = true;
}.

(** The steps that are left. *)
Definition generator_left (pc : gpc T) ph : nat :=
  match pc, ph with
  | GPush rest, _ => 8 * length rest + 6
  | GPushing rest, Port.Accepted => 8 * length rest + 8
  | GPushing rest, _ => 8 * length rest + 13
  | GDrop, _ => 5
  | GClose, _ => 4
  | GClosing, Port.Closed => 2
  | GClosing, _ => 3
  | GDone, _ => 0
  end.
Definition caller_left (pc : rpc) ph : nat :=
  match pc, ph with
  | RDrop, _ => 5
  | RClose, _ => 4
  | RClosing, Port.Closed => 2
  | RClosing, _ => 3
  | RReturned, _ => 0
  end.
Definition consumer_left (cp : consumer T * Port.phase T) : nat :=
  match at_ cp.1, cp.2 with
  | CPop, _ => 6
  | CPopping, Port.Got _ => 8
  | CPopping, _ => 5
  | CBody _, _ => 7
  | CDrop, _ => 4
  | CClose, _ => 3
  | CClosing, Port.Closed => 1
  | CClosing, _ => 2
  | CDone, _ => 0
  end.
Definition left x p g r cs : nat :=
  generator_left (generator x) g + caller_left (caller x) r + sum_list_with consumer_left cs +
  4 * length (Fifo.waiting (Port.queue p)).

Definition ok (xp : state T * Port.ports T) (w : nat) : Prop :=
  exists g r cs, Inv xp.1 xp.2 g r cs /\ length cs = n /\ w = left xp.1 xp.2 g r cs.

Lemma ok_init : ok (init vs n, Port.init (S (S n))) (8 * length vs + 6 * n + 11).
Proof.
  unfold ok. remember n as m eqn:Em. exists Port.Idle, Port.Idle, (replicate m (Consumer CPop [] false, Port.Idle)). split_and!.
  - split; simpl; try done.
    + by rewrite fmap_replicate.
    + by rewrite fmap_replicate.
    + by intros w cp [-> _]%lookup_replicate.
    + unfold refs_ok. auto.
    + unfold refs_ok. rewrite !sum_replicate. unfold c_holds, c_closes. cbn. rewrite Em.
      split_and!; lia || done.
    + constructor. rewrite fmap_replicate. apply Forall_replicate. done.
    + by intros w cp [-> _]%lookup_replicate.
  - by rewrite length_replicate.
  - unfold left. rewrite sum_replicate. unfold consumer_left. simpl. lia.
Qed.

(** ** Steps *)

(** The generator or the caller moves. *)
Lemma sender_moves x p g r cs x' p' g' r' :
  Inv x p g r cs -> length cs = n ->
  consumers x' = consumers x -> receivers x' = receivers x -> Port.phases p' = g' :: r' :: (snd <$> cs) ->
  Fifo.given (Port.queue p') = Fifo.given (Port.queue p) ->
  Fifo.receiver_closed (Port.queue p') = Fifo.receiver_closed (Port.queue p) ->
  (Fifo.sender_closed (Port.queue p) = true -> Port.queue p' = Port.queue p) ->
  Fifo.in_order (Port.queue p') ->
  generator_ok (Port.queue p') (generator x') g' -> caller_ok (caller x') r' ->
  refs_ok (senders x') (g_holds (generator x') + r_holds (caller x'))
    (g_closes (generator x') g' + r_closes (caller x') r') (Fifo.sender_closed (Port.queue p')) ->
  generator_left (generator x') g' + caller_left (caller x') r' + 4 * length (Fifo.waiting (Port.queue p')) <
  generator_left (generator x) g + caller_left (caller x) r + 4 * length (Fifo.waiting (Port.queue p)) ->
  exists w', w' < left x p g r cs /\ ok (x', p') w'.
Proof.
  intros H Hl Hc Hr Hp Hg Hrc Hs Ho Hgo Hco Hrefs Hw. exists (left x' p' g' r' cs).
  split; [unfold left; lia|]. exists g', r', cs. split_and!; [|done|done].
  destruct H. split; simpl; rewrite ?Hc, ?Hr, ?Hg, ?Hrc; try assumption.
  intros w cp Hcp Hd. destruct (iv_drained0 w cp Hcp Hd) as (? & ? & Hsc). by rewrite (Hs Hsc).
Qed.

(** ... without an effect on the queue. *)
Lemma sender_quiet x p g r cs x' p' g' r' :
  Inv x p g r cs -> length cs = n ->
  consumers x' = consumers x -> receivers x' = receivers x -> Port.phases p' = g' :: r' :: (snd <$> cs) ->
  Port.queue p' = Port.queue p ->
  generator_ok (Port.queue p) (generator x') g' -> caller_ok (caller x') r' ->
  refs_ok (senders x') (g_holds (generator x') + r_holds (caller x'))
    (g_closes (generator x') g' + r_closes (caller x') r') (Fifo.sender_closed (Port.queue p)) ->
  generator_left (generator x') g' + caller_left (caller x') r' <
  generator_left (generator x) g + caller_left (caller x) r ->
  exists w', w' < left x p g r cs /\ ok (x', p') w'.
Proof.
  intros H Hl Hc Hr Hp Hq Hgo Hco Hrefs Hw. apply (sender_moves x p g r cs x' p' g' r'); rewrite ?Hq; try done.
  - apply (iv_order _ _ _ _ _ H).
  - lia.
Qed.

(** Consumer [w] moves. *)
Lemma consumer_moves x p g r cs x' p' w cp cp' :
  Inv x p g r cs -> length cs = n -> cs !! w = Some cp ->
  generator x' = generator x -> caller x' = caller x -> senders x' = senders x ->
  consumers x' = <[w := cp'.1]> (consumers x) -> Port.phases p' = <[S (S w) := cp'.2]> (Port.phases p) ->
  Fifo.put (Port.queue p') = Fifo.put (Port.queue p) ->
  Fifo.sender_closed (Port.queue p') = Fifo.sender_closed (Port.queue p) ->
  (Fifo.receiver_closed (Port.queue p) = true -> Fifo.receiver_closed (Port.queue p') = true) ->
  Fifo.in_order (Port.queue p') -> consumer_ok cp' ->
  interleaved (taken <$> <[w := cp']> cs) (Fifo.given (Port.queue p')) ->
  (forall h cl, refs_ok (receivers x) (h + c_holds cp) (cl + c_closes cp) (Fifo.receiver_closed (Port.queue p)) ->
     refs_ok (receivers x') (h + c_holds cp') (cl + c_closes cp') (Fifo.receiver_closed (Port.queue p'))) ->
  (drained cp'.1 = true -> drained cp.1 = true \/
     Fifo.put (Port.queue p) = vs /\ Fifo.waiting (Port.queue p) = [] /\ Fifo.sender_closed (Port.queue p) = true) ->
  (Fifo.waiting (Port.queue p) = [] -> Fifo.waiting (Port.queue p') = []) ->
  consumer_left cp' + 4 * length (Fifo.waiting (Port.queue p')) <
    consumer_left cp + 4 * length (Fifo.waiting (Port.queue p)) ->
  exists w', w' < left x p g r cs /\ ok (x', p') w'.
Proof.
  intros H Hl Hcp Hg Hca Hse Hc Hp Hput Hsc Hrc Ho Hok Hgiv Hrefs Hd Hwt Hw.
  exists (left x' p' g r (<[w := cp']> cs)).
  pose proof (sum_insert consumer_left _ _ _ cp' Hcp) as Hsum. pose proof H as [].
  split; [unfold left; rewrite Hg, Hca; lia|]. exists g, r, (<[w := cp']> cs).
  split_and!; [|by rewrite length_insert|done]. split; simpl; rewrite ?Hg, ?Hca, ?Hse, ?Hsc; try assumption.
  - by rewrite Hc, iv_consumers0, list_fmap_insert.
  - by rewrite Hp, iv_phases0, list_fmap_insert.
  - assert (Hs : sent (Port.queue p) -> sent (Port.queue p')).
    { unfold sent. rewrite Hput. intros [|[? ?]]; auto. }
    unfold generator_ok in *. rewrite Hput. by repeat case_match; auto.
  - intros u c [(_ & <- & _)|[_ Hu]]%list_lookup_insert_Some; eauto.
  - pose proof (sum_insert c_holds _ _ _ cp' Hcp). pose proof (sum_insert c_closes _ _ _ cp' Hcp).
    pose proof (sum_lookup_le c_holds _ _ _ Hcp). pose proof (sum_lookup_le c_closes _ _ _ Hcp).
    replace (sum_list_with c_holds (<[w := cp']> cs)) with (sum_list_with c_holds cs - c_holds cp + c_holds cp') by lia.
    replace (sum_list_with c_closes (<[w := cp']> cs)) with (sum_list_with c_closes cs - c_closes cp + c_closes cp') by lia.
    apply Hrefs. by rewrite !Nat.sub_add.
  - intros u c Hu Hdr. rewrite Hput. apply list_lookup_insert_Some in Hu as [(_ & <- & _)|[_ Hu]].
    + destruct (Hd Hdr) as [Hdr'|(? & ? & ?)]; [|auto]. destruct (iv_drained0 w cp Hcp Hdr') as (? & ? & ?). auto.
    + destruct (iv_drained0 u c Hu Hdr) as (? & ? & ?). auto.
Qed.

(** ... without an effect on the queue, and without getting a value. *)
Lemma consumer_quiet x p g r cs x' p' w cp cp' :
  Inv x p g r cs -> length cs = n -> cs !! w = Some cp ->
  generator x' = generator x -> caller x' = caller x -> senders x' = senders x ->
  consumers x' = <[w := cp'.1]> (consumers x) -> Port.phases p' = <[S (S w) := cp'.2]> (Port.phases p) ->
  Port.queue p' = Port.queue p -> consumer_ok cp' -> taken cp' = taken cp ->
  (forall h cl b, refs_ok (receivers x) (h + c_holds cp) (cl + c_closes cp) b ->
     refs_ok (receivers x') (h + c_holds cp') (cl + c_closes cp') b) ->
  (drained cp'.1 = true -> drained cp.1 = true \/
     Fifo.put (Port.queue p) = vs /\ Fifo.waiting (Port.queue p) = [] /\ Fifo.sender_closed (Port.queue p) = true) ->
  consumer_left cp' < consumer_left cp ->
  exists w', w' < left x p g r cs /\ ok (x', p') w'.
Proof.
  intros H Hl Hcp Hg Hca Hse Hc Hp Hq Hok Ht Hrefs Hd Hw.
  apply (consumer_moves x p g r cs x' p' w cp cp'); rewrite ?Hq; try done; try apply H; [|by auto|lia].
  rewrite list_fmap_insert, Ht, list_insert_id by (by rewrite list_lookup_fmap, Hcp). apply H.
Qed.

(** *** Local steps *)

Lemma generator_local_ok x p g r cs x' :
  Inv x p g r cs -> length cs = n -> generator_local x = Some x' ->
  exists w', w' < left x p g r cs /\ ok (x', p) w'.
Proof.
  intros H Hl Hs. pose proof H as []. unfold generator_local in Hs.
  destruct (generator x) as [[|v rest]|rest| | | |] eqn:Eg; simplify_eq; destruct g; try done.
  - apply (sender_quiet x p Port.Idle r cs _ _ Port.Idle r); try done; simpl; rewrite ?Eg; simpl; [|lia].
    simpl in iv_generator0. left. by rewrite app_nil_r in iv_generator0.
  - pose proof (refs_release (senders x) (r_holds (caller x)) (r_closes (caller x) r) _
      ltac:(rewrite Nat.add_comm; exact iv_senders0)) as Hrel.
    apply (sender_quiet x p Port.Idle r cs _ _ Port.Idle r); try done; simpl;
      destruct (senders x - 1 =? 0) eqn:E; rewrite ?Eg; simpl; try done; try lia.
    + by rewrite Nat.add_comm in Hrel.
    + by rewrite Nat.add_0_r in Hrel.
Qed.

Lemma caller_local_ok x p g r cs x' :
  Inv x p g r cs -> length cs = n -> caller_local x = Some x' ->
  exists w', w' < left x p g r cs /\ ok (x', p) w'.
Proof.
  intros H Hl Hs. pose proof H as []. unfold caller_local in Hs.
  destruct (caller x) eqn:Er; simplify_eq. destruct r; try done.
  pose proof (refs_release _ _ _ _ iv_senders0) as Hrel. simpl in Hrel.
  apply (sender_quiet x p g Port.Idle cs _ _ g Port.Idle); try done; simpl;
    destruct (senders x - 1 =? 0) eqn:E; rewrite ?Er; simpl; try done; try lia;
    by rewrite ?Nat.add_0_r in *.
Qed.

Lemma consumer_at x p g r cs w c :
  Inv x p g r cs -> consumers x !! w = Some c -> exists ph, cs !! w = Some (c, ph).
Proof.
  intros H Hc. rewrite (iv_consumers _ _ _ _ _ H), list_lookup_fmap in Hc.
  destruct (cs !! w) as [[c' ph]|]; simplify_eq/=. eauto.
Qed.

Lemma consumer_local_ok x p g r cs w b x' :
  Inv x p g r cs -> length cs = n -> consumer_local w b x = Some x' ->
  exists w', w' < left x p g r cs /\ ok (x', p) w'.
Proof.
  intros H Hl Hs. unfold consumer_local in Hs.
  destruct (consumers x !! w) as [c|] eqn:Hc; [|done]. destruct (consumer_at _ _ _ _ _ _ _ H Hc) as [ph Hcp].
  pose proof (iv_consumer _ _ _ _ _ H w _ Hcp) as Hok. destruct c as [pc sn dr]. unfold consumer_ok in Hok. simpl in Hok.
  assert (Hph : Port.phases p = <[S (S w) := Port.Idle]> (Port.phases p) \/ ph <> Port.Idle).
  { destruct ph; auto. left. rewrite list_insert_id; [done|]. rewrite (iv_phases _ _ _ _ _ H). simpl.
    by rewrite list_lookup_fmap, Hcp. }
  destruct pc as [| |v| | | |]; simplify_eq; destruct ph; try done; destruct Hph as [Hph|]; try done.
  - eapply (consumer_quiet x p g r cs _ _ w _ (Consumer (if b then CDrop else CPop) (sn ++ [v]) dr, Port.Idle)); try done;
      destruct b; simpl; auto; unfold taken, hand, consumer_left; simpl; (by rewrite app_nil_r) || lia.
  - eapply (consumer_quiet x p g r cs _ _ w _ (Consumer (if receivers x - 1 =? 0 then CClose else CDone) sn dr, Port.Idle));
      try done; [..|intros h cl b' Hr; apply refs_release in Hr; rewrite !Nat.add_0_r in Hr| |];
      simpl; destruct (receivers x - 1 =? 0); simpl; auto; unfold consumer_left; simpl; try lia.
    all: by rewrite Nat.add_0_r.
Qed.

(** *** Calls *)

Lemma elem_phases x p g r cs ph : Inv x p g r cs -> ph ∈ Port.phases p ->
  ph = g \/ ph = r \/ exists u cp, cs !! u = Some cp /\ ph = cp.2.
Proof.
  intros H. rewrite (iv_phases _ _ _ _ _ H), !elem_of_cons, list_elem_of_fmap.
  intros [|[|(cp & -> & [u Hu]%list_elem_of_lookup)]]; eauto 6.
Qed.

Lemma consumer_phase x p g r cs w cp :
  Inv x p g r cs -> cs !! w = Some cp -> Port.phases p !! S (S w) = Some cp.2.
Proof. intros H Hcp. rewrite (iv_phases _ _ _ _ _ H). simpl. by rewrite list_lookup_fmap, Hcp. Qed.

Lemma generator_contract x p g r cs kd :
  Inv x p g r cs -> wants x 0 = Some kd -> Port.allowed 0 kd p.
Proof.
  intros H Hw. pose proof H as []. simpl in Hw.
  pose proof (refs_open _ _ _ _ iv_senders0) as Ho. destruct iv_senders0 as (_ & Hcl & _).
  pose proof (fun ph => elem_phases x p g r cs ph H) as Hel.
  destruct (generator x) as [[|v rest]|rest| | | |] eqn:Eg; simplify_eq; destruct g; try done; simpl in *;
    (split; [by rewrite iv_phases0|]); (split; [apply Ho; lia|]).
  - intros Hin. destruct (Hel _ Hin) as [?|[<-|(u & [c ph] & Hu & E)]]; [done| |].
    + destruct (caller x); simpl in *; try done. lia.
    + apply iv_consumer0 in Hu. unfold consumer_ok in Hu. simpl in *. subst ph. by destruct (at_ c).
  - intros ph Hin. destruct (Hel _ Hin) as [->|[->|(u & [c ph'] & Hu & ->)]]; [done| |].
    + destruct (caller x), r as [|[]| | |]; simpl in *; try done. lia.
    + apply iv_consumer0 in Hu. unfold consumer_ok in Hu. simpl in *. by destruct (at_ c), ph' as [|[]| | |].
Qed.

Lemma multi_caller_contract x p g r cs kd :
  Inv x p g r cs -> wants x 1 = Some kd -> Port.allowed 1 kd p.
Proof.
  intros H Hw. pose proof H as []. simpl in Hw.
  pose proof (refs_open _ _ _ _ iv_senders0) as Ho. destruct iv_senders0 as (_ & Hcl & _).
  destruct (caller x); simplify_eq; destruct r; try done; simpl in *.
  split; [by rewrite iv_phases0|]. split; [apply Ho; lia|].
  intros ph Hin. destruct (elem_phases x p g _ cs ph H Hin) as [->|[->|(u & [c ph'] & Hu & ->)]]; [|done|].
  - destruct (generator x), g as [|[]| | |]; simpl in *; try done; lia.
  - apply iv_consumer0 in Hu. unfold consumer_ok in Hu. simpl in *. by destruct (at_ c), ph' as [|[]| | |].
Qed.

Lemma consumer_contract x p g r cs w kd :
  Inv x p g r cs -> wants x (S (S w)) = Some kd -> Port.allowed (S (S w)) kd p.
Proof.
  intros H Hw. pose proof H as []. simpl in Hw.
  pose proof (refs_open _ _ _ _ iv_receivers0) as Ho. destruct iv_receivers0 as (_ & Hcl & _).
  destruct (caller x); try done. destruct (consumers x !! w) as [c|] eqn:Hc; [|done].
  destruct (consumer_at _ _ _ _ _ _ _ H Hc) as [ph Hcp].
  pose proof (iv_consumer0 w _ Hcp) as Hok. unfold consumer_ok in Hok. simpl in *.
  pose proof (sum_lookup_le c_holds _ _ _ Hcp) as Hh. pose proof (sum_lookup_le c_closes _ _ _ Hcp) as Hl.
  pose proof (consumer_phase _ _ _ _ _ _ _ H Hcp) as Hph. unfold c_holds at 1 in Hh. unfold c_closes at 1 in Hl. simpl in *.
  destruct (at_ c) eqn:Ea; simplify_eq; destruct ph; try done; (split; [done|]); (split; [apply Ho; lia|]).
  - intros Hin. destruct (elem_phases x p g _ cs _ H Hin) as [<-|[<-|(u & [d ph] & Hu & E)]].
    + by destruct (generator x).
    + done.
    + pose proof (iv_consumer0 u _ Hu) as Hd. pose proof (sum_lookup_le c_closes _ _ _ Hu) as Hx.
      unfold consumer_ok in Hd. unfold c_closes at 1 in Hx. simpl in *. subst ph. destruct (at_ d); try done. simpl in Hx. lia.
  - intros ph Hin. destruct (elem_phases x p g _ cs _ H Hin) as [->|[->|(u & [d ph'] & Hu & ->)]].
    + by destruct (generator x), g as [|[]| | |].
    + by destruct r as [|[]| | |].
    + pose proof (iv_consumer0 u _ Hu) as Hd. pose proof (sum_lookup_le c_holds _ _ _ Hu) as Hx.
      unfold consumer_ok in Hd. unfold c_holds at 1 in Hx. simpl in *.
      destruct (at_ d) eqn:Ed, ph' as [|[]| | |]; try done; try (simpl in Hx; lia).
      destruct (decide (u = w)) as [->|Hne]; [congruence|].
      pose proof (sum_lookup_le2 c_closes _ _ _ _ _ Hne Hu Hcp) as Hy. unfold c_closes at 1 2 in Hy.
      simpl in Hy. rewrite Ed, Ea in Hy. simpl in Hy. lia.
Qed.

Lemma ok_contract x p w t kd : ok (x, p) w -> wants x t = Some kd -> Port.allowed t kd p.
Proof.
  intros (g & r & cs & H & _ & _) Hw. destruct t as [|[|t]];
    eauto using generator_contract, multi_caller_contract, consumer_contract.
Qed.

Lemma call_ok x p g r cs t kd :
  Inv x p g r cs -> length cs = n -> wants x t = Some kd ->
  exists w', w' < left x p g r cs /\ ok (called t x, Port.put t (Port.Called kd) p) w'.
Proof.
  intros H Hl Hw. pose proof H as []. destruct t as [|[|w]]; simpl in Hw; simpl called.
  - destruct (generator x) as [[|v rest]|rest| | | |] eqn:Eg; simplify_eq; destruct g; try done.
    + apply (sender_quiet x p Port.Idle r cs _ _ (Port.Called (Port.Push v)) r); try done; simpl;
        rewrite ?iv_phases0, ?Eg; simpl; done || lia.
    + apply (sender_quiet x p Port.Idle r cs _ _ (Port.Called Port.CloseSender) r); try done; simpl;
        rewrite ?iv_phases0, ?Eg; simpl; done || lia.
  - destruct (caller x) eqn:Er; simplify_eq; destruct r; try done.
    apply (sender_quiet x p g Port.Idle cs _ _ g (Port.Called Port.CloseSender)); try done; simpl;
      rewrite ?iv_phases0, ?Er; simpl; done || lia.
  - destruct (caller x); try done. destruct (consumers x !! w) as [c|] eqn:Hc; [|done].
    destruct (consumer_at _ _ _ _ _ _ _ H Hc) as [ph Hcp].
    pose proof (iv_consumer0 w _ Hcp) as Hok. unfold consumer_ok in Hok. simpl in Hw, Hok.
    apply (consumer_quiet x p g r cs _ _ w _
      (goto (match at_ c with CPop => CPopping | _ => CClosing end) c, Port.Called kd) H Hl Hcp); try done.
    all: destruct c as [pc sn dr]; destruct pc; simplify_eq/=; destruct ph; try done; auto.
    all: unfold consumer_left; simpl; lia.
Qed.

(** *** Effects *)

Lemma generator_lin_ok x p g r cs p' :
  Inv x p g r cs -> length cs = n -> Port.lin 0 p = Some p' ->
  exists w', w' < left x p g r cs /\ ok (x, p') w'.
Proof.
  intros H Hl Hs. pose proof H as []. unfold Port.lin in Hs. rewrite iv_phases0 in Hs. simpl in Hs.
  destruct g as [|[v| | |]| | |]; try done; destruct (generator x) eqn:Eg; try done; simpl in *.
  - pose proof (refs_open _ _ _ _ iv_senders0 ltac:(lia)) as Hsc.
    destruct (Fifo.receiver_closed (Port.queue p)) eqn:Erc; [by rewrite orb_true_r in Hs|].
    pose proof (Fifo.act_in_order (Fifo.Put v) (Port.queue p)) as Hio. unfold Fifo.act in Hio.
    rewrite Hsc in *. rewrite ?Erc in *. simpl in *. simplify_eq.
    apply (sender_moves x p (Port.Called (Port.Push v)) r cs _ _ Port.Accepted r); simpl; rewrite ?Eg, ?Erc; simpl;
      try done; try by apply Hio.
    + congruence.
    + by rewrite <- app_assoc.
    + rewrite Fifo.waiting_put, length_app by done. simpl. lia.
  - rewrite (Nat.add_comm 1) in iv_senders0. destruct (refs_close _ _ _ _ iv_senders0) as (Hsc & _ & _ & Hc).
    rewrite Hsc in Hs. simplify_eq/=.
    apply (sender_moves x p (Port.Called Port.CloseSender) r cs _ _ Port.Closed r); simpl; rewrite ?Eg; simpl; try done.
    + congruence.
    + unfold Fifo.waiting. simpl. lia.
Qed.

Lemma caller_lin_ok x p g r cs p' :
  Inv x p g r cs -> length cs = n -> Port.lin 1 p = Some p' ->
  exists w', w' < left x p g r cs /\ ok (x, p') w'.
Proof.
  intros H Hl Hs. pose proof H as []. unfold Port.lin in Hs. rewrite iv_phases0 in Hs. simpl in Hs.
  destruct r as [|[v| | |]| | |]; try done; destruct (caller x) eqn:Er; try done; simpl in *.
  destruct (refs_close _ _ _ _ iv_senders0) as (Hsc & _ & _ & Hc). rewrite Hsc in Hs. simplify_eq/=.
  apply (sender_moves x p g (Port.Called Port.CloseSender) cs _ _ g Port.Closed); simpl; rewrite ?Er; simpl; try done.
  - congruence.
  - by rewrite (Nat.add_0_r (g_closes _ _)).
  - unfold Fifo.waiting. simpl. lia.
Qed.

Lemma phase_consumer x p g r cs w ph :
  Inv x p g r cs -> Port.phases p !! S (S w) = Some ph ->
  exists c, cs !! w = Some (c, ph) /\ consumers x !! w = Some c /\ consumer_ok (c, ph).
Proof.
  intros H Hph. rewrite (iv_phases _ _ _ _ _ H) in Hph. simpl in Hph. rewrite list_lookup_fmap in Hph.
  destruct (cs !! w) as [[c ph']|] eqn:Hc; simplify_eq/=. exists c. split; [done|].
  rewrite (iv_consumers _ _ _ _ _ H), list_lookup_fmap, Hc. split; [done|]. by apply (iv_consumer _ _ _ _ _ H w).
Qed.

Lemma consumer_lin_ok x p g r cs w p' :
  Inv x p g r cs -> length cs = n -> Port.lin (S (S w)) p = Some p' ->
  exists w', w' < left x p g r cs /\ ok (x, p') w'.
Proof.
  intros H Hl Hs. pose proof H as []. unfold Port.lin in Hs.
  destruct (Port.phases p !! S (S w)) as [ph|] eqn:Hph; [|done].
  destruct (phase_consumer _ _ _ _ _ _ _ H Hph) as ([pc sn dr] & Hcp & Hc & Hok).
  pose proof (eq_sym (list_insert_id _ _ _ Hc)) as Hid.
  destruct ph as [|[v| | |]| | |]; try done; unfold consumer_ok in Hok; simpl in Hok; destruct pc; try done.
  - destruct (Fifo.waiting (Port.queue p)) as [|v q] eqn:Ew; [done|]. apply fmap_Some in Hs as (q' & Hq' & ->).
    pose proof (Fifo.act_in_order _ _ _ iv_order0 Hq') as Ho. unfold Fifo.act in Hq'. rewrite Ew in Hq'.
    destruct (Fifo.receiver_closed (Port.queue p)) eqn:Erc; simplify_eq/=.
    eapply (consumer_moves x p g r cs _ _ w _ (Consumer CPopping sn dr, Port.Got v)); try done; simpl; auto.
    + congruence.
    + rewrite list_fmap_insert.
      replace (taken (Consumer CPopping sn dr, Port.Got v)) with (taken (Consumer CPopping sn dr, Port.Called Port.Pop) ++ [v])
        by (unfold taken, hand; simpl; by rewrite app_nil_r).
      apply interleaved_snoc; [done|]. by rewrite list_lookup_fmap, Hcp.
    + intros h cl. by rewrite Erc.
    + congruence.
    + rewrite (Fifo.waiting_give _ _ _ _ _ Ew), Ew. unfold consumer_left. simpl. lia.
  - unfold Fifo.act in Hs. destruct (Fifo.receiver_closed (Port.queue p)) eqn:Erc; simplify_eq/=.
    eapply (consumer_moves x p g r cs _ _ w _ (Consumer CClosing sn dr, Port.Closed)); try done; simpl; auto.
    + rewrite list_fmap_insert, list_insert_id; [done|]. by rewrite list_lookup_fmap, Hcp.
    + intros h cl. rewrite Erc. unfold c_holds, c_closes. simpl. intros Hr.
      destruct (refs_close _ _ _ _ Hr) as (_ & _ & _ & Hr'). by rewrite !Nat.add_0_r in *.
Qed.

(** *** Returns *)

Lemma generator_return_ok x p g r cs b a p' :
  Inv x p g r cs -> length cs = n -> Port.return_ cap b 0 p = Some (a, p') ->
  exists w', w' < left x p g r cs /\ ok (resume 0 a x, p') w'.
Proof.
  intros H Hl Hs. pose proof H as []. unfold Port.return_ in Hs. rewrite iv_phases0 in Hs. simpl in Hs.
  assert (Hsent : forall rest, Fifo.put (Port.queue p) ++ rest = vs -> Fifo.receiver_closed (Port.queue p) = true ->
    sent (Port.queue p)) by (intros rest Hr Hc; right; eauto).
  destruct g as [|[v| | |]| | |]; try done; destruct (generator x) eqn:Eg; try done; simpl in *.
  - destruct (Fifo.receiver_closed (Port.queue p)) eqn:Erc; simplify_eq.
    apply (sender_quiet x p (Port.Called (Port.Push v)) r cs _ _ Port.Idle r); simpl;
      rewrite ?iv_phases0, ?Eg; simpl; eauto; lia.
  - assert (Ha : a = Port.APush true \/ a = Port.APush false /\ Fifo.receiver_closed (Port.queue p) = true)
      by (destruct b, (Fifo.receiver_closed (Port.queue p)); repeat case_match; simplify_eq; auto).
    assert (Hp : p' = Port.put 0 Port.Idle p) by (repeat case_match; by simplify_eq). subst p'.
    destruct Ha as [->|[-> Hrc]]; apply (sender_quiet x p Port.Accepted r cs _ _ Port.Idle r); simpl;
      rewrite ?iv_phases0, ?Eg; simpl; eauto; lia.
  - simplify_eq. apply (sender_quiet x p Port.Closed r cs _ _ Port.Idle r); simpl;
      rewrite ?iv_phases0, ?Eg; simpl; eauto; lia.
Qed.

Lemma caller_return_ok x p g r cs b a p' :
  Inv x p g r cs -> length cs = n -> Port.return_ cap b 1 p = Some (a, p') ->
  exists w', w' < left x p g r cs /\ ok (resume 1 a x, p') w'.
Proof.
  intros H Hl Hs. pose proof H as []. unfold Port.return_ in Hs. rewrite iv_phases0 in Hs. simpl in Hs.
  destruct r as [|[v| | |]| | |]; try done; destruct (caller x) eqn:Er; try done; simplify_eq/=.
  apply (sender_quiet x p g Port.Closed cs _ _ g Port.Idle); simpl; rewrite ?iv_phases0, ?Er; simpl; eauto; lia.
Qed.

(** Nobody sends any more, and the receiver is open: all is in the channel. *)
Lemma all_sent x p g r cs w cp :
  Inv x p g r cs -> cs !! w = Some cp -> c_holds cp = 1 -> Fifo.sender_closed (Port.queue p) = true ->
  Fifo.put (Port.queue p) = vs.
Proof.
  intros H Hcp Hh Hsc. pose proof H as []. pose proof (sum_lookup_le c_holds _ _ _ Hcp) as Hle.
  pose proof (refs_open _ _ _ _ iv_receivers0 ltac:(lia)) as Hrc.
  destruct iv_senders0 as (_ & _ & Hs). rewrite Hsc in Hs. symmetry in Hs. apply Nat.eqb_eq in Hs.
  assert (Hsent : sent (Port.queue p)).
  { destruct (generator x), g as [|[]| | |]; simpl in *; try done; lia. }
  destruct Hsent as [|[? _]]; [done|congruence].
Qed.

Lemma consumer_return_ok x p g r cs w b a p' :
  Inv x p g r cs -> length cs = n -> Port.return_ cap b (S (S w)) p = Some (a, p') ->
  exists w', w' < left x p g r cs /\ ok (resume (S (S w)) a x, p') w'.
Proof.
  intros H Hl Hs. unfold Port.return_ in Hs.
  destruct (Port.phases p !! S (S w)) as [ph|] eqn:Hph; [|done].
  destruct (phase_consumer _ _ _ _ _ _ _ H Hph) as ([pc sn dr] & Hcp & Hc & Hok).
  simpl resume. rewrite Hc.
  destruct ph as [|[v| | |]| |v|]; try done; unfold consumer_ok in Hok; simpl in Hok; destruct pc; try done.
  - destruct (Fifo.sender_closed (Port.queue p)) eqn:Esc; [|done]. simpl in Hs.
    destruct (decide (Fifo.waiting (Port.queue p) = [])) as [Ew|Ew];
      [rewrite bool_decide_true in Hs by done|by rewrite bool_decide_false in Hs]. simplify_eq.
    eapply (consumer_quiet x p g r cs _ _ w _ (Consumer CDrop sn true, Port.Idle) H Hl Hcp); try done; simpl; auto.
    intros _. right. split; [by eapply all_sent|done].
  - simplify_eq.
    eapply (consumer_quiet x p g r cs _ _ w _ (Consumer (CBody v) sn dr, Port.Idle) H Hl Hcp); try done; simpl; auto.
  - simplify_eq.
    eapply (consumer_quiet x p g r cs _ _ w _ (Consumer CDone sn dr, Port.Idle) H Hl Hcp); try done; simpl; auto.
Qed.

(** ** The program on [Port] *)

Lemma ok_next l xp xp' w :
  ok xp w -> on_ports program cap l xp = Some xp' -> exists w', w' < w /\ ok xp' w'.
Proof.
  intros (g & r & cs & H & Hl & ->) Hs. destruct xp as [x p], xp' as [x' p']. simpl in *.
  destruct l as [l|t|t|t b]; simpl in Hs.
  - destruct (local l x) as [x1|] eqn:E; simplify_eq/=. destruct l as [| |w b]; simpl in E.
    + by eapply generator_local_ok.
    + by eapply caller_local_ok.
    + by eapply consumer_local_ok.
  - destruct (wants x t) as [kd|] eqn:E; simplify_eq/=. by apply call_ok.
  - destruct (Port.lin t p) as [p1|] eqn:E; simplify_eq/=. destruct t as [|[|t]].
    + by eapply generator_lin_ok.
    + by eapply caller_lin_ok.
    + by eapply consumer_lin_ok.
  - destruct (Port.return_ cap b t p) as [[a p1]|] eqn:E; simplify_eq/=. destruct t as [|[|t]].
    + by eapply generator_return_ok.
    + by eapply caller_return_ok.
    + by eapply consumer_return_ok.
Qed.
End invariant.

(** ** [generateForMultiConsumer] on any channel *)

Section theorems.
Context {T S : Type} (vs : list T) (k : nat) {cap : nat} `{LinearChannel T S (Datatypes.S (Datatypes.S (Datatypes.S k))) cap}.
Import Multi.
Abbreviation n := (Datatypes.S k).
Abbreviation start := (Multi.init vs n, chan_init).
Abbreviation exec := (compose Multi.program).
Abbreviation bound := (5 * (8 * length vs + 6 * n + 11)).

Lemma multi_run ls xs :
  run exec ls start = Some xs ->
  exists p w, ok vs k (xs.1, p) w /\ stands_for xs.2 p /\ length ls <= bound + chan_work chan_init.
Proof.
  intros Hr. destruct (compose_run Multi.program (ok vs k) (fun x p w t kd => ok_contract vs k x p w t kd)
    (fun l xp xp' w => ok_next vs k cap l xp xp' w) ls _ _ xs (ok_init vs k) Hr) as (p & w & Hok & Hs & Hl).
  exists p, w. split_and!; try done. lia.
Qed.

Lemma put_prefix x p g r cs : Inv vs x p g r cs -> exists rest, Fifo.put (Port.queue p) ++ rest = vs.
Proof.
  intros Hi. pose proof (iv_generator _ _ _ _ _ _ Hi) as Hg.
  assert (Hs : sent vs (Port.queue p) -> exists rest, Fifo.put (Port.queue p) ++ rest = vs).
  { intros [<-|[_ ?]]; [|done]. exists []. by rewrite app_nil_r. }
  destruct (generator x), g as [|[]| | |]; simpl in Hg; try done; eauto.
Qed.

Lemma given_prefix x p g r cs : Inv vs x p g r cs -> exists rest, Fifo.given (Port.queue p) ++ rest = vs.
Proof.
  intros Hi. destruct (put_prefix _ _ _ _ _ Hi) as [rest Hr]. pose proof (iv_order _ _ _ _ _ _ Hi) as Ho.
  unfold Fifo.in_order in Ho. rewrite Ho, <- app_assoc in Hr. eauto.
Qed.

Lemma seen_taken (cs : list (consumer T * Port.phase T)) :
  exists hands, concat (seen <$> (fst <$> cs)) ++ hands ≡ₚ concat (taken <$> cs).
Proof.
  induction cs as [|cp cs [hands IH]]; [by exists []|]. simpl. unfold taken at 1.
  exists (hand cp ++ hands). rewrite <- IH. solve_Permutation.
Qed.

(** C38: Each of the values that the generator sends is seen by at most one of the
    consumers, and each consumer sees its values in the order in which they were sent; when
    all consumers are done and the loop of one of them has ended by itself, what
    they have seen are all the values, interleaved. This holds on any channel that
    implements [Port] and in every interleaving of the generator, the caller, the
    consumers and the channel's own steps. *)
Theorem multi_consumers_share ls x s :
  run exec ls start = Some (x, s) ->
  (forall w c, consumers x !! w = Some c -> seen c `sublist_of` vs) /\
  (exists rest, concat (seen <$> consumers x) ++ rest ≡ₚ vs) /\
  (Exists (fun c => drained c = true) (consumers x) -> Forall (fun c => at_ c = CDone) (consumers x) ->
   interleaved (seen <$> consumers x) vs).
Proof.
  intros Hr. destruct (multi_run ls _ Hr) as (p & w0 & (g & r & cs & Hi & _ & _) & _ & _). simpl in Hi.
  pose proof (iv_given _ _ _ _ _ _ Hi) as Hg. destruct (given_prefix _ _ _ _ _ Hi) as [rest Hrest]. split_and!.
  - intros w c Hc. destruct (consumer_at _ _ _ _ _ _ _ _ Hi Hc) as [ph Hcp]. rewrite <- Hrest.
    apply sublist_inserts_r. trans (taken (c, ph)); [by apply sublist_inserts_r|].
    apply (interleaved_sublist (taken <$> cs) _ w); [done|]. by rewrite list_lookup_fmap, Hcp.
  - destruct (seen_taken cs) as [hands Hh]. exists (hands ++ rest).
    by rewrite (iv_consumers _ _ _ _ _ _ Hi), app_assoc, Hh, (interleaved_perm _ _ Hg), Hrest.
  - rewrite (iv_consumers _ _ _ _ _ _ Hi), Exists_exists, Forall_fmap, Forall_lookup.
    intros (c & Hin & Hd) Hdone. apply list_elem_of_fmap in Hin as (cp & -> & [w Hw]%list_elem_of_lookup).
    destruct (iv_drained _ _ _ _ _ _ Hi w cp Hw Hd) as (Hput & Hwt & _).
    pose proof (iv_order _ _ _ _ _ _ Hi) as Ho. unfold Fifo.in_order in Ho.
    rewrite Hput, Hwt, app_nil_r in Ho. rewrite Ho. rewrite <- list_fmap_compose.
    replace (seen ∘ fst <$> cs) with (taken <$> cs); [done|]. apply list_fmap_ext. intros i [c ph] Hc.
    specialize (Hdone i _ Hc). unfold taken, hand. simpl in *. rewrite Hdone. by rewrite app_nil_r.
Qed.

(** A consumer can go on, or is done, or waits for the next value. *)
Definition stuck (p : Port.ports T) (cp : consumer T * Port.phase T) : Prop :=
  at_ cp.1 = CDone \/
  at_ cp.1 = CPopping /\ Fifo.waiting (Port.queue p) = [] /\ Fifo.sender_closed (Port.queue p) = false.

Definition can_go (x : state T) : Prop :=
  (exists t kd, wants x t = Some kd) \/ (exists l x', local l x = Some x').

Lemma consumer_goes x p g r cs w cp :
  Inv vs x p g r cs -> caller x = RReturned -> cs !! w = Some cp -> Port.rests cap p cp.2 -> can_go x \/ stuck p cp.
Proof.
  intros Hi Hc Hcp Hr. pose proof (iv_consumer _ _ _ _ _ _ Hi w cp Hcp) as Hok. unfold stuck, can_go.
  assert (Hx : consumers x !! w = Some cp.1) by (by rewrite (iv_consumers _ _ _ _ _ _ Hi), list_lookup_fmap, Hcp).
  assert (Hwants : forall kd, wants x (Datatypes.S (Datatypes.S w)) = Some kd -> exists t kd, wants x t = Some kd) by eauto.
  assert (Hlocal : forall x', consumer_local w false x = Some x' -> exists l x', local l x = Some x')
    by (intros x' E; by exists (LConsumer w false), x').
  simpl in Hwants. unfold consumer_local in Hlocal. rewrite Hc, Hx in Hwants. rewrite Hx in Hlocal.
  destruct cp as [[pc sn dr] ph]. unfold consumer_ok in Hok. simpl in *.
  destruct pc, ph as [|[]| | |]; simpl in *; try done; auto; left; first [left; by eapply Hwants|right; by eapply Hlocal].
Qed.

Lemma consumers_go x p g r cs :
  Inv vs x p g r cs -> caller x = RReturned ->
  (forall t ph, Port.phases p !! t = Some ph -> Port.rests cap p ph) -> can_go x \/ Forall (stuck p) cs.
Proof.
  intros Hi Hc Hp.
  assert (Hgo : forall w cp, cs !! w = Some cp -> can_go x \/ stuck p cp).
  { intros w cp Hcp. eapply consumer_goes; [done|done|done|]. eapply Hp. by eapply consumer_phase. }
  clear Hi. revert Hgo. induction cs as [|cp cs IH]; intros Hgo; [by right|].
  destruct (Hgo 0 cp eq_refl) as [|H0]; [by left|]. destruct IH as [|H1]; [intros w; apply (Hgo (Datatypes.S w))|by left|].
  right. by constructor.
Qed.

Definition all_done (x : state T) : Prop :=
  generator x = GDone /\ caller x = RReturned /\ Forall (fun c => at_ c = CDone) (consumers x).

Lemma caller_goes x p g r cs :
  Inv vs x p g r cs -> Port.rests cap p r -> can_go x \/ caller x = RReturned.
Proof.
  intros Hi Hr. pose proof (iv_caller _ _ _ _ _ _ Hi) as Hc. unfold can_go.
  assert (Hlocal : forall x', caller_local x = Some x' -> exists l x', local l x = Some x')
    by (intros x' E; by exists LCaller, x').
  assert (Hwants : forall kd, wants x 1 = Some kd -> exists t kd, wants x t = Some kd) by eauto.
  unfold caller_local in Hlocal. simpl in Hwants.
  destruct (caller x), r as [|[]| | |]; simpl in *; try done; auto; left; first [left; by eapply Hwants|right; by eapply Hlocal].
Qed.

Lemma generator_goes x p g r cs :
  Inv vs x p g r cs -> Port.rests cap p g ->
  can_go x \/ generator x = GDone \/
  0 < length (Fifo.waiting (Port.queue p)) /\ Fifo.receiver_closed (Port.queue p) = false.
Proof.
  intros Hi Hr. pose proof (iv_generator _ _ _ _ _ _ Hi) as Hg. unfold can_go.
  assert (Hlocal : forall x', generator_local x = Some x' -> exists l x', local l x = Some x')
    by (intros x' E; by exists LGenerator, x').
  assert (Hwants : forall kd, wants x 0 = Some kd -> exists t kd, wants x t = Some kd) by eauto.
  unfold generator_local in Hlocal. simpl in Hwants.
  destruct (generator x) as [[|v rest]|rest| | | |], g as [|[]| | |]; simpl in *; try done; auto;
    try (right; right; split; [lia|tauto]); left; first [left; by eapply Hwants|right; by eapply Hlocal].
Qed.

Lemma rests_done x p g r cs :
  Inv vs x p g r cs -> (forall t ph, Port.phases p !! t = Some ph -> Port.rests cap p ph) ->
  can_go x \/ all_done x.
Proof.
  intros Hi Hp. pose proof (iv_phases _ _ _ _ _ _ Hi) as Hph.
  destruct (caller_goes x p g r cs Hi) as [|Hc]; [apply (Hp 1); by rewrite Hph|by left|].
  destruct (consumers_go x p g r cs Hi Hc Hp) as [|Hst]; [by left|].
  destruct (generator_goes x p g r cs Hi) as [|[Hg|[Hw Hrc]]]; [apply (Hp 0); by rewrite Hph|by left|right|exfalso].
  - split_and!; [done|done|]. rewrite (iv_consumers _ _ _ _ _ _ Hi), Forall_fmap. eapply Forall_impl; [exact Hst|].
    intros cp [|(_ & _ & Hsc)]; [done|]. pose proof (iv_senders _ _ _ _ _ _ Hi) as (_ & _ & Hs).
    rewrite Hg, Hc, Hsc in Hs. done.
  - pose proof (iv_receivers _ _ _ _ _ _ Hi) as (_ & _ & Hr). rewrite Hrc in Hr. symmetry in Hr. apply Nat.eqb_neq in Hr.
    rewrite !sum_all_zero in Hr; [done|..]; intros i cp Hcp; rewrite Forall_lookup in Hst;
      destruct (Hst i cp Hcp) as [E|(_ & E & _)]; (unfold c_holds, c_closes; by rewrite E) || (rewrite E in Hw; simpl in Hw; lia).
Qed.

(** ... and it ends: no execution is longer than a bound in the number of values
    and consumers, and until the generator and all consumers are done, one of
    them, the caller or a thread inside the channel can make a step. *)
Theorem multi_consumers_end ls x s :
  run exec ls start = Some (x, s) ->
  length ls <= bound + chan_work chan_init /\
  (~ all_done x -> exists l xs, exec l (x, s) = Some xs).
Proof.
  intros Hr. destruct (multi_run ls _ Hr) as (p & w & Hok & Hs & Hl). split; [done|]. intros Hn.
  destruct (compose_progress Multi.program (ok vs k) (fun x p w t kd => ok_contract vs k x p w t kd) x s p w Hok Hs)
    as [Hstep [|Hp]]; [done|].
  destruct Hok as (g & r & cs & Hi & _). destruct (rests_done x p g r cs Hi Hp) as [Hg|]; [by apply Hstep|done].
Qed.
End theorems.

(** ** An example *)

Module Sample.
(** Two consumers and a [BufferedChannel] of the default size, 2. *)
Definition start : Multi.state nat * BufferedChannel.state nat :=
  (Multi.init [4; 5; 6; 7] 2, chan_init (LinearChannel := buffered_linear 4 1)).
Definition exec := compose (C := buffered_linear (T := nat) 4 1) Multi.program.

(** In the order of preference. *)
Definition choices : list (move Multi.label) :=
  [Local Multi.LCaller; Local Multi.LGenerator; Call 0; Call 2; Call 3; Step 0; Step 1; Step 2; Step 3; Call 1;
   Local (Multi.LConsumer 0 false); Local (Multi.LConsumer 1 true)].

Definition script : list (move Multi.label) := Eval vm_compute in greedy exec choices 200 start.
Definition final : Multi.state nat * BufferedChannel.state nat := default start (run exec script start).
End Sample.

Lemma multi_consumers_share_witness :
  Multi.seen <$> Multi.consumers (fst Sample.final) = [[4; 6; 7]; [5]] /\
  interleaved (Multi.seen <$> Multi.consumers (fst Sample.final)) [4; 5; 6; 7].
Proof.
  assert (Hr : run Sample.exec Sample.script Sample.start = Some (fst Sample.final, snd Sample.final))
    by (vm_compute; reflexivity).
  split; [vm_compute; reflexivity|].
  apply (multi_consumers_share [4; 5; 6; 7] 1 Sample.script _ _ Hr).
  - vm_compute. by left.
  - vm_compute. by repeat constructor.
Defined.

Lemma multi_consumers_end_witness :
  length Sample.script <= 275 + chan_work (LinearChannel := buffered_linear 4 1) (snd Sample.start) /\
  (~ all_done (fst Sample.final) -> exists l xs, Sample.exec l (fst Sample.final, snd Sample.final) = Some xs).
Proof.
  assert (Hr : run Sample.exec Sample.script Sample.start = Some (fst Sample.final, snd Sample.final))
    by (vm_compute; reflexivity).
  exact (multi_consumers_end [4; 5; 6; 7] 1 Sample.script _ _ Hr).
Defined.
