(* ===== verification/GenerateUnbuffered.v ===== *)
(** * [generate.hpp] on [channel.hpp]: a generator and its [UnbufferedChannel]

    [generate(func)] makes an [UnbufferedChannel], runs [func(sender)] in a
    detached coroutine and returns the receiver. Here the coroutine and the
    loop over the receiver run on the channel of [UnbufferedChannel.v] with its two
    futures: a side calls an operation, the channel's own steps interleave with
    those of the other side, and the operation returns what these steps compute. *)

From S2P Require Import Prelude Future Channel UnbufferedChannel.

(** ** The program *)

(** [func(sender)]: it sends values, and stops when a [push] returns false. *)
Inductive generator_pc : Type :=
  | GPush (rest : list Z)      (** before the next [sender(v)] *)
  | GPushing (rest : list Z)   (** in it *)
  | GClose                     (** the callable, and [sender] with it, is destroyed: before [closeSender()] *)
  | GClosing                   (** in it *)
  | GDone.

(** [for (auto&& v : receiver) ...], and the end of [receiver] *)
Inductive consumer_pc : Type :=
  | CPop
  | CPopping
  | CBody (v : Z)
  | CClose                     (** before [closeReceiver()] *)
  | CClosing
  | CDone.

Record program : Type := Program {
  channel : state;
  generator : generator_pc;
  consumer : consumer_pc;
  consumed : list Z;     (** history: the values that the loop's body has seen *)
  finished : bool;       (** history: has the loop ended by itself? *)
}.

Definition start (vs : list Z) : program := Program init (GPush vs) CPop [] false.

Inductive move : Type :=
  | MGenerator
  | MConsumer (break : bool).   (* [break]: does the body leave the loop? *)

Section steps.
Implicit Types (x : program) (s : state).

(** What the last step of [push] ([pop]) returns. *)
Definition push_result s : bool := match sender s with SEmplace b => b | _ => false end.
Definition pop_result s : option Z :=
  match receiver s with RExchange res | RCall res _ => res | _ => None end.

Definition generator_to (g : generator_pc) s x : program := Program s g (consumer x) (consumed x) (finished x).
Definition consumer_to (c : consumer_pc) s x : program := Program s (generator x) c (consumed x) (finished x).

Definition generator_move x : option program :=
  let s := channel x in
  match generator x with
  | GPush (v :: rest) => (fun s' => generator_to (GPushing rest) s' x) <$> next (LPush v) s
  | GPush [] => Some (generator_to GClose s x)
  | GPushing rest =>
      (fun s' => generator_to
         (match sender s' with SIdle => if push_result s then GPush rest else GClose | _ => GPushing rest end) s' x)
      <$> next LSender s
  | GClose => (fun s' => generator_to GClosing s' x) <$> next LCloseSender s
  | GClosing =>
      (fun s' => generator_to (match sender s' with SClosed => GDone | _ => GClosing end) s' x) <$> next LSender s
  | GDone => None
  end.

Definition consumer_move (break : bool) x : option program :=
  let s := channel x in
  match consumer x with
  | CPop => (fun s' => consumer_to CPopping s' x) <$> next LPop s
  | CPopping =>
      (fun s' => match receiver s' with
         | RIdle => match pop_result s with
                    | Some v => consumer_to (CBody v) s' x
                    | None => Program s' (generator x) CClose (consumed x) true
                    end
         | _ => consumer_to CPopping s' x
         end) <$> next LReceiver s
  | CBody v => Some (Program s (generator x) (if break then CClose else CPop) (consumed x ++ [v]) (finished x))
  | CClose => (fun s' => consumer_to CClosing s' x) <$> next LCloseReceiver s
  | CClosing =>
      (fun s' => consumer_to (match receiver s' with RClosed => CDone | _ => CClosing end) s' x) <$> next LReceiver s
  | CDone => None
  end.

Definition advance (l : move) x : option program :=
  match l with MGenerator => generator_move x | MConsumer break => consumer_move break x end.
End steps.

(** ** The invariant *)

Section invariant.
Context (vs : list Z).
Implicit Types (x : program) (s : state).

(** Which operation a side is in. *)
Definition in_push (p : sender_pc) : bool :=
  match p with
  | SWrite (Some _) | SExchange (Some _) | SCall (Some _) _ | SAwait | SSuspend | SBlocked | SResume | SEmplace _ => true
  | _ => false
  end.
Definition in_close (p : sender_pc) : bool :=
  match p with SWrite None | SExchange None | SCall None _ => true | _ => false end.
Definition in_pop (p : receiver_pc) : bool :=
  match p with
  | RAwait Pop | RSuspend Pop | RBlocked Pop | RResume Pop | RMove _
  | REmplace (Some _) | RWrite (Some _) | RExchange (Some _) | RCall (Some _) _ => true
  | _ => false
  end.
Definition in_close_receiver (p : receiver_pc) : bool :=
  match p with
  | RAwait Close | RSuspend Close | RBlocked Close | RResume Close
  | REmplace None | RWrite None | RExchange None | RCall None _ => true
  | _ => false
  end.

(** All values were pushed, or one was refused. *)
Definition stopped s : Prop :=
  refused s = [] /\ accepted s = vs \/ exists v rest, refused s = [v] /\ accepted s ++ v :: rest = vs.

Definition generator_ok s (g : generator_pc) : Prop :=
  match g with
  | GPush rest => sender s = SIdle /\ refused s = [] /\ accepted s ++ rest = vs
  | GPushing rest => in_push (sender s) = true /\ refused s = [] /\
      exists a v, local s = Some (a, v) /\ accepted s ++ v :: rest = vs
  | GClose => sender s = SIdle /\ stopped s
  | GClosing => in_close (sender s) = true /\ stopped s
  | GDone => sender s = SClosed /\ stopped s
  end.

Definition consumer_ok s (c : consumer_pc) (seen : list Z) : Prop :=
  match c with
  | CPop => receiver s = RIdle /\ popped s = seen
  | CPopping => in_pop (receiver s) = true /\ popped s = seen
  | CBody v => receiver s = RIdle /\ popped s = seen ++ [v]
  | CClose => receiver s = RIdle /\ popped s = seen
  | CClosing => in_close_receiver (receiver s) = true /\ popped s = seen
  | CDone => receiver s = RClosed /\ popped s = seen
  end.

(** The loop is over. *)
Definition over (c : consumer_pc) : bool :=
  match c with CClose | CClosing | CDone => true | _ => false end.

Record ok x : Prop := {
  ok_channel : inv (channel x);
  ok_generator : generator_ok (channel x) (generator x);
  ok_consumer : consumer_ok (channel x) (consumer x) (consumed x);
  ok_finished : finished x = drained (channel x);
  ok_drained : drained (channel x) = true -> accepted (channel x) = vs /\ over (consumer x) = true;
}.

Lemma ok_start : ok (start vs).
Proof. split; [apply unbuffered_inv_init|done..]. Qed.

(** *** What a step of one side leaves to the other *)

Lemma no_fault s e : inv s -> sender s <> SFault e /\ receiver s <> RFault e.
Proof.
  intros Hi. split; intros E; unfold inv in Hi; rewrite E in Hi; [done|].
  unfold unpublished, meeting in Hi. rewrite E in Hi. destruct (sender s); spread; done.
Qed.

(** The state is one with a fault. *)
Ltac fault Hf := solve [edestruct Hf as [[] _]; reflexivity | edestruct Hf as [_ []]; reflexivity].

Lemma sender_step_other s s' c seen :
  inv s' -> sender_step s = Some s' -> consumer_ok s c seen ->
  consumer_ok s' c seen /\ drained s' = drained s /\ popped s' = popped s.
Proof.
  intros Hi Hs. pose proof (fun e => no_fault s' e Hi) as Hf. clear Hi. revert Hs Hf.
  destruct s as [va vr lo na sp rp acc ref pop dr]. unfold sender_step. simpl.
  destruct sp as [|p|p|p w| | | | |b| |e]; intros Hs Hf; simplify_eq; try (by intros HC; split; [by destruct c|]);
    unfold wake_receiver, push_returns in *; simpl in *; repeat case_match; simpl in *;
    try (by intros HC; split; [by destruct c|]);
    try fault Hf;
    intros HC; (split; [|done]); destruct c; simpl in *; by destruct_and?; repeat case_match.
Qed.

Lemma receiver_step_other s s' g :
  inv s' -> receiver_step s = Some s' -> generator_ok s g ->
  generator_ok s' g /\ accepted s' = accepted s.
Proof.
  intros Hi Hs. pose proof (fun e => no_fault s' e Hi) as Hf. clear Hi. revert Hs Hf.
  destruct s as [va vr lo na sp rp acc ref pop dr]. unfold receiver_step. simpl.
  destruct rp as [|o|o|o|o|a|x|x|x|x w| |e]; intros Hs Hf; simplify_eq; try (by intros HC; split; [by destruct g|]);
    unfold wake_sender, receiver_returns, pop_returns in *; simpl in *; repeat case_match; simpl in *; try (by intros HC; split; [by destruct g|]);
    try fault Hf;
    intros HC; (split; [|done]); destruct g; simpl in *; by destruct_and?; repeat case_match.
Qed.

(** *** What a side's own step does *)

Lemma push_step s s' a v :
  inv s' -> sender_step s = Some s' -> in_push (sender s) = true -> local s = Some (a, v) ->
  in_push (sender s') = true /\ local s' = local s /\ accepted s' = accepted s /\ refused s' = refused s \/
  sender s' = SIdle /\ if push_result s then accepted s' = accepted s ++ [v] /\ refused s' = refused s
                      else accepted s' = accepted s /\ refused s' = refused s ++ [v].
Proof.
  intros Hi Hs. pose proof (fun e => no_fault s' e Hi) as Hf. clear Hi. revert Hs Hf.
  destruct s as [va vr lo na sp rp acc ref pop dr]. unfold sender_step, push_result. simpl.
  destruct sp as [|p|p|p w| | | | |b| |e]; intros Hs Hf Hp Hl; simplify_eq/=;
    unfold wake_receiver, push_returns in *; simpl in *; repeat case_match; simplify_eq/=; try (by left); try (by right);
    fault Hf.
Qed.

Lemma close_step s s' :
  inv s' -> sender_step s = Some s' -> in_close (sender s) = true ->
  (in_close (sender s') = true \/ sender s' = SClosed) /\ accepted s' = accepted s /\ refused s' = refused s.
Proof.
  intros Hi Hs. pose proof (fun e => no_fault s' e Hi) as Hf. clear Hi. revert Hs Hf.
  destruct s as [va vr lo na sp rp acc ref pop dr]. unfold sender_step. simpl.
  destruct sp as [|p|p|p w| | | | |b| |e]; intros Hs Hf Hp; simplify_eq/=;
    unfold wake_receiver in *; simpl in *; repeat case_match; simplify_eq/=; try (by auto);
    fault Hf.
Qed.

Lemma pop_step s s' :
  inv s' -> receiver_step s = Some s' -> in_pop (receiver s) = true ->
  in_pop (receiver s') = true /\ popped s' = popped s /\ drained s' = drained s \/
  receiver s' = RIdle /\ match pop_result s with
                        | Some v => popped s' = popped s ++ [v] /\ drained s' = drained s
                        | None => popped s' = popped s /\ drained s' = true
                        end.
Proof.
  intros Hi Hs. pose proof (fun e => no_fault s' e Hi) as Hf. clear Hi. revert Hs Hf.
  destruct s as [va vr lo na sp rp acc ref pop dr]. unfold receiver_step, pop_result. simpl.
  destruct rp as [|o|o|o|o|a|x|x|x|x w| |e]; intros Hs Hf Hp; simplify_eq/=;
    unfold wake_sender, receiver_returns, pop_returns in *; simpl in *; repeat case_match; simplify_eq/=;
    try (by left); try (by right); fault Hf.
Qed.

Lemma close_receiver_step s s' :
  inv s' -> receiver_step s = Some s' -> in_close_receiver (receiver s) = true ->
  (in_close_receiver (receiver s') = true \/ receiver s' = RClosed) /\ popped s' = popped s /\ drained s' = drained s.
Proof.
  intros Hi Hs. pose proof (fun e => no_fault s' e Hi) as Hf. clear Hi. revert Hs Hf.
  destruct s as [va vr lo na sp rp acc ref pop dr]. unfold receiver_step. simpl.
  destruct rp as [|o|o|o|o|a|x|x|x|x w| |e]; intros Hs Hf Hp; simplify_eq/=;
    unfold wake_sender, receiver_returns, pop_returns in *; simpl in *; repeat case_match; simplify_eq/=; try (by auto);
    fault Hf.
Qed.

(** *** The steps of the program *)

Lemma next_allowed l s : (forall v, l <> LPush v) \/ refused s = [] -> next_ok l s = next l s.
Proof.
  unfold next_ok, allowed. intros H. destruct (refused s); [by destruct l|].
  destruct l, H as [H|H]; try done. by destruct (H v).
Qed.

Lemma outside_push s : inv s -> in_push (sender s) = false -> popped s = accepted s.
Proof.
  unfold inv, unpublished, published. intros Hi Hp. destruct (sender s) as [|[]|[]|[] w| | | | |b| |e]; simpl in *; spread; done.
Qed.

Lemma popped_prefix s g : inv s -> generator_ok s g -> exists rest, popped s ++ rest = vs.
Proof.
  intros Hi Hg. assert (Hst : stopped s -> exists rest, accepted s ++ rest = vs).
  { intros [[_ <-]|(v & rest & _ & <-)]; [exists []; apply app_nil_r|eauto]. }
  destruct g as [rest|rest| | |]; simpl in Hg.
  - destruct Hg as (E & _ & <-). rewrite outside_push by (done || by rewrite E). eauto.
  - destruct Hg as (_ & _ & a & v & El & <-).
    destruct (inv_delivered s Hi) as ([->|(a' & v' & El' & -> & _)] & _ & _); [eauto|]. simplify_eq.
    exists rest. by rewrite <- app_assoc.
  - destruct Hg as [E H]. rewrite outside_push by (done || by rewrite E). auto.
  - destruct Hg as [E H]. rewrite outside_push; [auto|done|]. by destruct (sender s) as [|[]|[]|[]| | | | | | |].
  - destruct Hg as [E H]. rewrite outside_push by (done || by rewrite E). auto.
Qed.

(** The steps that are left. *)
Definition generator_left (g : generator_pc) : nat :=
  match g with
  | GPush rest => 12 * length rest + 16
  | GPushing rest => 12 * length rest + 17
  | GClose => 13
  | GClosing => 1
  | GDone => 0
  end.
Definition consumer_left (c : consumer_pc) : nat :=
  match c with CPop => 23 | CPopping => 12 | CBody _ => 24 | CClose => 12 | CClosing => 1 | CDone => 0 end.
Definition left x : nat :=
  generator_left (generator x) + consumer_left (consumer x) + work (channel x) +
  15 * (length vs - length (popped (channel x))).

(** A step inside of the channel. *)
Lemma internal_step s s' l f :
  l = LSender /\ f = sender_step \/ l = LReceiver /\ f = receiver_step ->
  inv s -> next l s = Some s' -> f s = Some s' /\ inv s' /\ work s' < work s.
Proof.
  intros Hl Hi Hs. split; [by destruct Hl as [[-> ->]|[-> ->]]|].
  apply (work_decreases l); [done|destruct Hl as [[-> _]|[-> _]]; [by left|by right]|].
  rewrite next_allowed; [done|]. left. by destruct Hl as [[-> _]|[-> _]].
Qed.

Lemma call_inv l s s' : inv s -> (forall v, l <> LPush v) \/ refused s = [] -> next l s = Some s' -> inv s'.
Proof. intros Hi Hl Hs. apply (unbuffered_inv_next l s); [done|]. by rewrite next_allowed. Qed.

(** The generator is done when [pop] has returned [nullopt]. *)
Lemma drained_done s g : inv s -> generator_ok s g -> drained s = true -> g = GDone.
Proof.
  intros Hi Hg Hd. destruct (inv_delivered s Hi) as (_ & _ & H). destruct (H Hd) as [E _].
  destruct g; simpl in Hg; destruct Hg as [Hg _]; by rewrite E in Hg.
Qed.

Lemma generator_move_ok x x' : ok x -> generator_move x = Some x' -> ok x' /\ left x' < left x.
Proof.
  intros [Hi Hg Hc Hf _] Hs. unfold generator_move in Hs. destruct x as [s g c seen fi]. simpl in *.
  pose proof (drained_done s g Hi Hg) as Hdd.
  destruct g as [[|v rest]|rest| | |]; simpl in Hg.
  - simplify_eq. destruct Hg as (Hsi & Hr & Ha). rewrite app_nil_r in Ha.
    split; [split; try done; try (by intros ?%Hdd); split; [done|by left]|]. unfold left. simpl. lia.
  - apply fmap_Some in Hs as (s' & Hs' & ->). destruct Hg as (Hsi & Hr & Ha).
    pose proof (call_inv (LPush v) s s' Hi (or_intror Hr) Hs') as Hi'. rewrite Hsi in Hs'. simplify_eq.
    split; [split; try done; try (by intros ?%Hdd); split_and!; eauto|]. unfold left, work. simpl. rewrite Hsi. simpl. lia.
  - apply fmap_Some in Hs as (s' & Hs' & ->). destruct Hg as (Hp & Hr & a & v & Hl & Ha).
    destruct (internal_step s s' LSender sender_step ltac:(by left) Hi Hs') as (Hst & Hi' & Hw).
    destruct (sender_step_other _ _ c seen Hi' Hst Hc) as (Hc' & Hd & Hpop).
    destruct (push_step _ _ a v Hi' Hst Hp Hl) as [(Hp' & Hl' & Ha' & Hr')|(Hsi & H)].
    + assert (Hn : forall b, match sender s' with SIdle => b | _ => GPushing rest end = GPushing rest)
        by (intros b; by destruct (sender s')).
      rewrite Hn. split; [split; simpl; rewrite ?Hd; try congruence; try (by intros ?%Hdd); split_and!; try congruence; exists a, v; split; congruence|].
      unfold left. simpl. rewrite Hpop. lia.
    + rewrite Hsi. destruct (push_result s); destruct H as [Ha' Hr'];
        (split; [split; simpl; rewrite ?Hd; try congruence; try (by intros ?%Hdd)|unfold left; simpl; rewrite Hpop; lia]).
      * rewrite Ha', Hr', Hr, <- app_assoc. done.
      * split; [done|]. right. exists v, rest. rewrite Ha', Hr', Hr. done.
  - apply fmap_Some in Hs as (s' & Hs' & ->). destruct Hg as (Hsi & H).
    pose proof (call_inv LCloseSender s s' Hi ltac:(by left) Hs') as Hi'. simpl in Hs'. rewrite Hsi in Hs'. simplify_eq.
    split; [split; try done; by intros ?%Hdd|]. unfold left, work. simpl. rewrite Hsi. simpl. lia.
  - apply fmap_Some in Hs as (s' & Hs' & ->). destruct Hg as (Hp & H).
    destruct (internal_step s s' LSender sender_step ltac:(by left) Hi Hs') as (Hst & Hi' & Hw).
    destruct (sender_step_other _ _ c seen Hi' Hst Hc) as (Hc' & Hd & Hpop).
    destruct (close_step _ _ Hi' Hst Hp) as (Hp' & Ha' & Hr').
    assert (H' : stopped s') by (unfold stopped; by rewrite Ha', Hr').
    split; [|unfold left; simpl; rewrite Hpop; destruct (sender s'); simpl; lia].
    destruct Hp' as [Hp'|Hp']; [|rewrite Hp'; split; simpl; rewrite ?Hd; try congruence; try (by intros ?%Hdd); by split].
    assert (Hn : match sender s' with SClosed => GDone | _ => GClosing end = GClosing) by (by destruct (sender s')).
    rewrite Hn. split; simpl; rewrite ?Hd; try congruence; try (by intros ?%Hdd); by split.
  - done.
Qed.

(** [pop] has returned [nullopt]: all values are accepted. *)
Lemma drained_all s g :
  inv s -> generator_ok s g -> drained s = true -> receiver s <> RClosed -> accepted s = vs.
Proof.
  intros Hi Hg Hd Hr. pose proof (drained_done s g Hi Hg Hd) as ->. destruct Hg as [_ [[_ H]|(v & rest & Hv & _)]]; [done|].
  destruct (inv_delivered s Hi) as (_ & H & _). destruct Hr. apply H. by rewrite Hv.
Qed.

(** The rest of the invariant after a step of the consumer that leaves [accepted] alone. *)
Lemma consumer_step_ok s s' g c c' seen seen' fi fi' :
  ok (Program s g c seen fi) -> inv s' -> generator_ok s' g -> consumer_ok s' c' seen' ->
  accepted s' = accepted s -> drained s' = drained s -> fi' = fi -> (over c = true -> over c' = true) ->
  ok (Program s' g c' seen' fi').
Proof.
  intros [_ _ _ Hf Hd] Hi Hg Hc Ha Hdr -> Ho. simpl in *.
  split; simpl; rewrite ?Hdr, ?Ha; try done. intros H. destruct (Hd H). auto.
Qed.

Lemma consumer_move_ok b x x' : ok x -> consumer_move b x = Some x' -> ok x' /\ left x' < left x.
Proof.
  intros Hok Hs. pose proof Hok as [Hi Hg Hc Hf Hdr]. unfold consumer_move in Hs. destruct x as [s g c seen fi]. simpl in *.
  destruct c as [| |v| | |]; simpl in Hc.
  - apply fmap_Some in Hs as (s' & Hs' & ->). destruct Hc as (Hri & Hp).
    pose proof (call_inv LPop s s' Hi ltac:(by left) Hs') as Hi'. simpl in Hs'. rewrite Hri in Hs'. simplify_eq.
    split; [eapply consumer_step_ok; try done; by destruct g|]. unfold left, work. simpl. rewrite Hri. simpl. lia.
  - apply fmap_Some in Hs as (s' & Hs' & ->). destruct Hc as (Hip & Hp).
    destruct (internal_step s s' LReceiver receiver_step ltac:(by right) Hi Hs') as (Hst & Hi' & Hw).
    destruct (receiver_step_other _ _ g Hi' Hst Hg) as [Hg' Ha'].
    destruct (pop_step _ _ Hi' Hst Hip) as [(Hip' & Hp' & Hd)|(Hri & H)].
    + assert (Hn : forall y : program, match receiver s' with RIdle => y | _ => consumer_to CPopping s' (Program s g CPopping seen fi) end
        = consumer_to CPopping s' (Program s g CPopping seen fi)) by (intros y; by destruct (receiver s')).
      rewrite Hn. split; [eapply consumer_step_ok; try done; split; simpl; congruence|]. unfold left. simpl. rewrite Hp'. lia.
    + rewrite Hri. destruct (popped_prefix s' g Hi' Hg') as [rest Hrest]. apply (f_equal length) in Hrest.
      rewrite length_app in Hrest. destruct (pop_result s) as [v|]; destruct H as [Hp' Hd].
      * split; [eapply consumer_step_ok; try done; split; simpl; congruence|]. unfold left. simpl. rewrite Hp', length_app in *.
        simpl in *. lia.
      * split; [split; simpl; try congruence; [split; congruence|]|unfold left; simpl; rewrite Hp'; lia].
        intros _. split; [|done]. eapply drained_all; try done. by rewrite Hri.
  - simplify_eq. destruct Hc as (Hri & Hp). split; [|unfold left; simpl; destruct b; simpl; lia].
    by destruct b; eapply consumer_step_ok.
  - apply fmap_Some in Hs as (s' & Hs' & ->). destruct Hc as (Hri & Hp).
    pose proof (call_inv LCloseReceiver s s' Hi ltac:(by left) Hs') as Hi'. simpl in Hs'. rewrite Hri in Hs'. simplify_eq.
    split; [eapply consumer_step_ok; try done; by destruct g|]. unfold left, work. simpl. rewrite Hri. simpl. lia.
  - apply fmap_Some in Hs as (s' & Hs' & ->). destruct Hc as (Hip & Hp).
    destruct (internal_step s s' LReceiver receiver_step ltac:(by right) Hi Hs') as (Hst & Hi' & Hw).
    destruct (receiver_step_other _ _ g Hi' Hst Hg) as [Hg' Ha'].
    destruct (close_receiver_step _ _ Hi' Hst Hip) as (Hip' & Hp' & Hd).
    split; [|unfold left; simpl; rewrite Hp'; destruct (receiver s'); simpl; lia].
    destruct Hip' as [Hip'|Hip']; [|rewrite Hip'; eapply consumer_step_ok; try done; split; simpl; congruence].
    assert (Hn : match receiver s' with RClosed => CDone | _ => CClosing end = CClosing) by (by destruct (receiver s')).
    rewrite Hn. eapply consumer_step_ok; try done; split; simpl; congruence.
  - done.
Qed.

Lemma advance_ok l x x' : ok x -> advance l x = Some x' -> ok x' /\ left x' < left x.
Proof. destruct l; [apply generator_move_ok|apply consumer_move_ok]. Qed.

Lemma program_ok x : reachable advance (start vs) x -> ok x.
Proof. apply invariant_reachable; [intros l x1 x2 H Hs; by eapply advance_ok|apply ok_start]. Qed.

Definition both_done x : Prop := generator x = GDone /\ consumer x = CDone.

(** Somebody can go on. *)
Lemma program_progress x : ok x -> ~ both_done x -> exists l x', advance l x = Some x'.
Proof.
  intros [Hi Hg Hc _ _] Hn. destruct x as [s g c seen fi]. simpl in *.
  assert (Hgen : forall x', generator_move (Program s g c seen fi) = Some x' ->
    exists l x', advance l (Program s g c seen fi) = Some x') by (intros x' E; by exists MGenerator, x').
  assert (Hcon : forall x', consumer_move false (Program s g c seen fi) = Some x' ->
    exists l x', advance l (Program s g c seen fi) = Some x') by (intros x' E; by exists (MConsumer false), x').
  unfold generator_move, consumer_move in Hgen, Hcon. simpl in Hgen, Hcon.
  destruct (sender_step s) as [s'|] eqn:Es.
  { destruct g as [[|v rest]|rest| | |]; simpl in Hg; try (by eapply Hgen); unfold sender_step in Es;
      destruct Hg as [E _]; by rewrite E in *. }
  destruct (receiver_step s) as [s'|] eqn:Er.
  { destruct c as [| |v| | |]; simpl in Hc; try (by eapply Hcon); unfold receiver_step in Er;
      destruct Hc as [E _]; by rewrite E in *. }
  pose proof (sides_meet s Hi Es Er) as Hm. unfold meets in Hm.
  destruct (sender s) eqn:Esp; try done.
  - destruct g as [[|v rest]|rest| | |]; simpl in Hg; rewrite Esp in *; try (by eapply Hgen); by destruct_and?.
  - destruct (receiver s) eqn:Erp; try done. destruct c; simpl in Hc; rewrite Erp in *; try (by eapply Hcon); by destruct_and?.
  - destruct (receiver s) eqn:Erp; try done.
    + destruct c; simpl in Hc; rewrite Erp in *; try (by eapply Hcon); by destruct_and?.
    + destruct Hn. unfold both_done. simpl. destruct g, c; simpl in *; rewrite ?Esp, ?Erp in *; by destruct_and?.
Qed.
End invariant.

(** ** Theorems *)

(** C37: the loop over the receiver that [generate] returns sees the values that the
    generator sends, each once and in order, in every interleaving of both sides and
    of the accesses of the [UnbufferedChannel] between them to its two futures; when
    the loop ends by itself it has seen them all. *)
Theorem generate_delivers vs x :
  reachable advance (start vs) x ->
  (exists rest, consumed x ++ rest = vs) /\ (finished x = true -> consumed x = vs).
Proof.
  intros [Hi Hg Hc Hf Hd]%program_ok. split.
  - destruct (popped_prefix vs _ _ Hi Hg) as [rest <-].
    destruct (consumer x); simpl in Hc; destruct Hc as [_ ->]; rewrite <- ?app_assoc; eauto.
  - rewrite Hf. intros H. destruct (Hd H) as [<- Ho]. destruct (inv_delivered _ Hi) as (_ & _ & Hp).
    destruct (Hp H) as [_ <-]. destruct (consumer x); try done; by destruct Hc.
Qed.

(** ... and both sides end, whether the loop drains the generator or is left early:
    no execution is longer than [27*|vs| + 39] steps, and until both are done, one of them can make a step. *)
Theorem generate_ends vs ls x :
  run advance ls (start vs) = Some x ->
  length ls <= 27 * length vs + 39 /\ (~ both_done x -> exists l x', advance l x = Some x').
Proof.
  intros Hr. assert (H : ok vs x) by (apply program_ok; by exists ls). split; [|by eapply program_progress].
  pose proof (work_bounds advance (fun _ => True) (left vs) (ok vs) (fun l s s' H _ => advance_ok vs l s s' H) ls _ x
    (ok_start vs) (proj2 (Forall_forall _ _) (fun _ _ => I)) Hr) as Hw.
  assert (Hl : left vs (start vs) = 27 * length vs + 39) by (unfold left, work; simpl; lia). lia.
Qed.

(** ** Examples *)

Module Sample.
Definition values : list Z := [4; 5; 6]%Z.
(** The generator goes ahead; the loop drains the channel. *)
Definition drain : list move := Eval vm_compute in greedy advance [MGenerator; MConsumer false] 200 (start values).
(** The loop goes ahead and is left at the second value. *)
Definition leave : list move := Eval vm_compute in
  let first := greedy advance [MConsumer false; MGenerator] 20 (start values) in
  first ++ greedy advance [MConsumer true; MGenerator] 200 (default (start []) (run advance first (start values))).
Definition drained : program := default (start []) (run advance drain (start values)).
Definition left_early : program := default (start []) (run advance leave (start values)).
End Sample.

Lemma generate_delivers_witness :
  finished Sample.drained = true /\ consumed Sample.drained = Sample.values.
Proof.
  assert (Hr : reachable advance (start Sample.values) Sample.drained) by (exists Sample.drain; vm_compute; reflexivity).
  assert (Hf : finished Sample.drained = true) by (vm_compute; reflexivity).
  split; [exact Hf|]. destruct (generate_delivers Sample.values Sample.drained Hr) as [_ H]. exact (H Hf).
Defined.

Lemma generate_ends_witness :
  both_done Sample.left_early /\ length Sample.leave <= 120.
Proof.
  assert (Hr : run advance Sample.leave (start Sample.values) = Some Sample.left_early) by (vm_compute; reflexivity).
  split; [vm_compute; by split|]. destruct (generate_ends Sample.values Sample.leave _ Hr) as [H _]. exact H.
Defined.
