(* ===== verification/Storage.v ===== *)
(** * [routine.hpp]: the memory of a coroutine

    A [Routine] allocates one block for the coroutine's [Data] and its stack, and
    gives it back when [Data] is destroyed, by the handle or by [ResultSetter].
    The [memory_resource] is the caller's, hence a parameter; [Detach] shows that
    one of the two destroys [Data], and when. *)

From S2P Require Import Prelude Executor.

Local Open Scope Z_scope.
Local Open Scope co_scope.

(** The blocks that are allocated: by which resource, and of which size. *)
Abbreviation heap := (gmap Z (nat * Z)).

(** [boost::context::stack_context]: the highest address of the stack, which
    grows downwards, and its size *)
Record stack_context : Type := Stack { sp : Z; size : Z }.

Definition on_stack (sc : stack_context) (b : Z) : Prop := sp sc - size sc < b <= sp sc.

(** The members of [Data] that concern memory. [mPull] has the stack as long as
    the coroutine can be resumed. *)
Record Data : Type := MkData {
  mContext : nat;
  mStackSize : Z;
  mAllocator : nat;
  mPull : option stack_context;
}.

Definition with_pull (x : option stack_context) (d : Data) : Data :=
  MkData (mContext d) (mStackSize d) (mAllocator d) x.

Record memory : Type := Mem { blocks : heap; objects : gmap Z Data }.

(** [sizeof(Data)], and what a resource answers to a request: an exception or an
    address. Both are the same for a whole run. *)
Class Platform : Type := {
  sizeof_Data : Z;
  do_allocate : nat -> Z -> heap -> exn + Z;
}.

Section allocator.
Context `{Platform}.

(** [alloc.allocate(n)], [alloc.deallocate(p, n)] *)
Definition allocate (r : nat) (n : Z) : M memory Z := fun m =>
  match do_allocate r n (blocks m) with
  | inl e => (Throw e, m)
  | inr p => (Ret p, Mem (<[p := (r, n)]> (blocks m)) (objects m))
  end.

Definition deallocate (r : nat) (p n : Z) : M memory unit := fun m =>
  if bool_decide (blocks m !! p = Some (r, n)) then (Ret tt, Mem (delete p (blocks m)) (objects m))
  else (Crash BadFree, m).

(** [*data] *)
Definition read (p : Z) : M memory Data := fun m =>
  match objects m !! p with Some d => (Ret d, m) | None => (Crash UseAfterFree, m) end.

Definition write (p : Z) (d : Data) : M memory unit := fun m =>
  match blocks m !! p with
  | Some (_, n) => if sizeof_Data <=? n then (Ret tt, Mem (blocks m) (<[p := d]> (objects m)))
                   else (Crash OutOfBounds, m)
  | None => (Crash UseAfterFree, m)
  end.

End allocator.

Module StackAllocator.
Section stack.
Context `{Platform}.

Definition allocate (data : Z) : M memory stack_context :=
  let! d := read data in
  let pos := data in
  let pos := pos + sizeof_Data in
  let pos := pos + mStackSize d in
  let pos := pos - 1 in
  ret (Stack pos (mStackSize d)).

Definition deallocate (sc : stack_context) : M memory unit := ret tt.
End stack.
End StackAllocator.

Section object.
Context `{Platform}.

(** [Data(context, stackSize, func, alloc)] up to the first call of the body *)
Definition construct (mem : Z) (context : nat) (stackSize : Z) (alloc : nat) : M memory unit :=
  let d := MkData context stackSize alloc None in
  do! write mem d in
  let! sc := StackAllocator.allocate mem in
  write mem (with_pull (Some sc) d).

(** The body ends: [mPull] gives its stack back. *)
Definition end_body (data : Z) : M memory unit :=
  let! d := read data in
  match mPull d with
  | None => ret tt
  | Some sc => do! StackAllocator.deallocate sc in write data (with_pull None d)
  end.

(** [alloc.destroy(data)], that is [~Data()] *)
Definition destroy (data : Z) : M memory unit :=
  let! d := read data in
  match mPull d with
  | Some _ => crash Terminated
  | None => fun m => (Ret tt, Mem (blocks m) (delete data (objects m)))
  end.

End object.

Module Destructor.
Section lifetime.
Context `{Platform}.

Definition create (context : nat) (stackSize : Z) (alloc : nat) : M memory Z :=
  let! mem := allocate alloc (wrap64u (sizeof_Data + stackSize)) in
  do! construct mem context stackSize alloc in
  ret mem.

(** [Destructor::operator()], and the end of [ResultSetter::operator()] *)
Definition call (data : Z) : M memory unit :=
  let! d := read data in
  let size := wrap64u (sizeof_Data + mStackSize d) in
  let alloc := mAllocator d in
  do! destroy data in
  deallocate alloc data size.
End lifetime.
End Destructor.

(** ** The handle *)

(** [std::unique_ptr<Data, Destructor> d] *)
Definition Routine : Type := option Z.

Section handle.
Context `{Platform}.

(** The initial value of the static variable of [DefaultStackSize()] *)
Definition DefaultStackSize : Z := 128 * 1024.

Definition make (context : nat) (stackSize : Z) (alloc : nat) : M memory Routine :=
  let! p := Destructor.create context stackSize alloc in ret (Some p).

(** [Routine(context, func, alloc)] and [Routine(func, alloc)] *)
Definition make_in (defaultStackSize : Z) (context : nat) (alloc : nat) : M memory Routine :=
  make context defaultStackSize alloc.

Definition make_default {G} (g : globals (G := G)) (defaultStackSize : Z) (alloc : nat) : M memory Routine :=
  make (defaultIoContext g) defaultStackSize alloc.

(** [Routine::currentIoContext()]: [current] is [Data::current()] of the thread. *)
Definition currentIoContext {G} (g : globals (G := G)) (current : option Z) : M memory nat :=
  match current with
  | Some data => let! d := read data in ret (mContext d)
  | None => ret (defaultIoContext g)
  end.

(** [Routine(Routine&& other)]: the new handle and [other] *)
Definition move (other : Routine) : Routine * Routine := (other, None).

Definition joinable (r : Routine) : bool := bool_decide (r <> None).

Definition get_id (r : Routine) : M memory Z :=
  do! assert_ (joinable r) in ret (default 0 r).

(** [operator bool]: is the coroutine not over? *)
Definition operator_bool (r : Routine) : M memory bool :=
  match r with
  | None => crash NullDeref
  | Some p => let! d := read p in ret (bool_decide (mPull d <> None))
  end.

(** [d.reset()], [~Routine()] *)
Definition reset (r : Routine) : M memory unit :=
  match r with None => ret tt | Some p => Destructor.call p end.

(** [Routine& operator=(Routine&&)]: the handle and [other] *)
Definition move_assign (r other : Routine) : M memory (Routine * Routine) :=
  do! reset r in ret (other, None).

End handle.

(** ** Runs *)

Inductive label : Type :=
  | LCreate (context : nat) (stackSize : Z) (alloc : nat)
  | LEnd (data : Z)        (** the body ends *)
  | LDestroy (data : Z).   (** by the handle or by [ResultSetter] *)

Section runs.
Context `{Platform}.

Definition perform (l : label) : M memory unit :=
  match l with
  | LCreate c n a => do! Destructor.create c n a in ret tt
  | LEnd p => end_body p
  | LDestroy p => Destructor.call p
  end.

(** The sizes can be added, and only coroutines that are over are destroyed. *)
Definition allowed (l : label) (m : memory) : bool :=
  match l with
  | LCreate _ n _ => (0 <=? n) && (sizeof_Data + n <? 2 ^ 64)
  | LEnd p => bool_decide (objects m !! p <> None)
  | LDestroy p => match objects m !! p with Some d => bool_decide (mPull d = None) | None => false end
  end.

Definition next_ok (l : label) (m : memory) : option memory :=
  if allowed l m then Some (snd (perform l m)) else None.

Definition init : memory := Mem ∅ ∅.
End runs.

(** ** What a [memory_resource] promises *)

(** Blocks are apart from each other, and inside of the address space. *)
Definition apart (p n q k : Z) : Prop := p <> q /\ (p + n <= q \/ q + k <= p).

Class MemoryResource (P : Platform) : Prop := {
  law_sizeof : 0 < sizeof_Data < 2 ^ 64;
  law_allocate r n bs p : do_allocate r n bs = inr p ->
    0 < p /\ p + n <= 2 ^ 64 /\ forall q r' k, bs !! q = Some (r', k) -> apart p n q k;
}.

(** ** The invariant *)

Section invariant.
Context {P : Platform} {R : MemoryResource P}.

Definition block_ok (m : memory) (p : Z) (d : Data) : Prop :=
  0 <= mStackSize d /\ sizeof_Data + mStackSize d < 2 ^ 64 /\
  blocks m !! p = Some (mAllocator d, sizeof_Data + mStackSize d) /\
  forall sc, mPull d = Some sc -> sc = Stack (p + sizeof_Data + mStackSize d - 1) (mStackSize d).

Record well_formed (m : memory) : Prop := {
  inv_object p d : objects m !! p = Some d -> block_ok m p d;
  inv_block p b : blocks m !! p = Some b -> is_Some (objects m !! p);
  inv_apart p q r k r' k' : p <> q ->
    blocks m !! p = Some (r, k) -> blocks m !! q = Some (r', k') -> apart p k q k';
}.

Lemma storage_init : well_formed init.
Proof. split; intros *; unfold init; simpl; by rewrite ?lookup_empty. Qed.

Lemma apart_sym p n q k : apart p n q k -> apart q k p n.
Proof. unfold apart. intros [? ?]. split; [done|lia]. Qed.

(** [Destructor::create], on a state of the run *)
Lemma create_spec m c n a : 0 <= n -> sizeof_Data + n < 2 ^ 64 ->
  Destructor.create c n a m =
  match do_allocate a (sizeof_Data + n) (blocks m) with
  | inl e => (Throw e, m)
  | inr p => (Ret p, Mem (<[p := (a, sizeof_Data + n)]> (blocks m))
                         (<[p := MkData c n a (Some (Stack (p + sizeof_Data + n - 1) n))]> (objects m)))
  end.
Proof.
  pose proof law_sizeof as Hs. intros H0 Hn. unfold Destructor.create, bind, allocate. rewrite wrap64u_id by lia.
  destruct (do_allocate _ _ _) as [e|p]; [done|].
  unfold construct, bind, write, StackAllocator.allocate, bind, read. simpl. rewrite lookup_insert_eq.
  rewrite (proj2 (Z.leb_le _ _)) by lia. simpl. rewrite lookup_insert_eq. simpl. rewrite lookup_insert_eq.
  rewrite (proj2 (Z.leb_le _ _)) by lia. simpl. by rewrite insert_insert_eq.
Qed.

(** [Destructor::operator()] on [Data] that is over *)
Lemma call_spec m p d : well_formed m -> objects m !! p = Some d -> mPull d = None ->
  Destructor.call p m = (Ret tt, Mem (delete p (blocks m)) (delete p (objects m))).
Proof.
  pose proof law_sizeof as Hs. intros Hi Hd Hp. destruct (inv_object m Hi p d Hd) as (H0 & H1 & Hb & _).
  unfold Destructor.call, bind, read. rewrite Hd. unfold destroy, bind, read. rewrite Hd, Hp.
  unfold deallocate. simpl. by rewrite wrap64u_id, bool_decide_true by (done || lia).
Qed.

Lemma end_body_spec m p d : well_formed m -> objects m !! p = Some d ->
  exists m', end_body p m = (Ret tt, m') /\ blocks m' = blocks m /\
    objects m' = <[p := with_pull None d]> (objects m).
Proof.
  intros Hi Hd. destruct (inv_object m Hi p d Hd) as (H0 & H1 & Hb & _).
  unfold end_body, bind, read. rewrite Hd. destruct (mPull d) eqn:Ep.
  - unfold StackAllocator.deallocate, ret, write. rewrite Hb.
    rewrite (proj2 (Z.leb_le _ _)) by lia. by eexists.
  - exists m. split_and!; try done. rewrite insert_id; [done|]. rewrite Hd. f_equal. destruct d; simpl in *. by subst.
Qed.

Lemma inv_create m c n a p : well_formed m -> 0 <= n -> sizeof_Data + n < 2 ^ 64 ->
  do_allocate a (sizeof_Data + n) (blocks m) = inr p ->
  well_formed (Mem (<[p := (a, sizeof_Data + n)]> (blocks m))
           (<[p := MkData c n a (Some (Stack (p + sizeof_Data + n - 1) n))]> (objects m))).
Proof.
  intros Hi H0 Hn (_ & _ & Hp)%law_allocate. split; unfold block_ok; simpl.
  - intros q d [[<- <-]|[Hq Hd]]%lookup_insert_Some; simpl.
    + rewrite lookup_insert_eq. split_and!; try done. by intros sc [= <-].
    + rewrite lookup_insert_ne by done. by apply (inv_object m Hi).
  - intros q b [[<- <-]|[Hq Hb]]%lookup_insert_Some; [by rewrite lookup_insert_eq|].
    rewrite lookup_insert_ne by done. by eapply (inv_block m Hi).
  - intros q q' r k r' k' Hne [[<- [= <- <-]]|[Hq Hb]]%lookup_insert_Some [[<- [= <- <-]]|[Hq' Hb']]%lookup_insert_Some.
    + done.
    + eauto.
    + apply apart_sym. eauto.
    + by eapply (inv_apart m Hi).
Qed.

Lemma inv_end m m' p d : well_formed m -> objects m !! p = Some d -> blocks m' = blocks m ->
  objects m' = <[p := with_pull None d]> (objects m) -> well_formed m'.
Proof.
  intros Hi Hd Eb Eo. split; unfold block_ok; rewrite ?Eb, ?Eo.
  - intros q d' [[<- <-]|[Hq Hd']]%lookup_insert_Some; [|by apply (inv_object m Hi)].
    destruct (inv_object m Hi p d Hd) as (? & ? & ? & _). by split_and!.
  - intros q b Hb. apply (inv_block m Hi) in Hb. rewrite lookup_insert_is_Some. destruct (decide (p = q)); auto.
  - apply (inv_apart m Hi).
Qed.

Lemma inv_destroy m p : well_formed m -> well_formed (Mem (delete p (blocks m)) (delete p (objects m))).
Proof.
  intros Hi. split; unfold block_ok; simpl.
  - intros q d [Hq Hd]%lookup_delete_Some. rewrite lookup_delete_ne by done. by apply (inv_object m Hi).
  - intros q b [Hq Hb]%lookup_delete_Some. rewrite lookup_delete_ne by done. by eapply (inv_block m Hi).
  - intros q q' r k r' k' Hne [_ Hb]%lookup_delete_Some [_ Hb']%lookup_delete_Some. by eapply (inv_apart m Hi).
Qed.

(** Every allowed operation keeps the invariant, and fails in no way but by an
    exception of the resource. *)
Lemma perform_inv l m : well_formed m -> allowed l m = true ->
  well_formed (snd (perform l m)) /\ forall f, fst (perform l m) <> Crash f.
Proof.
  intros Hi. destruct l as [c n a|p|p]; simpl.
  - intros [H0%Z.leb_le Hn%Z.ltb_lt]%andb_prop. unfold bind. rewrite create_spec by done.
    destruct (do_allocate _ _ _) as [e|p] eqn:E; simpl; [done|]. split; [by apply inv_create|done].
  - intros Hp%bool_decide_eq_true. destruct (objects m !! p) as [d|] eqn:Hd; [|done].
    destruct (end_body_spec m p d Hi Hd) as (m' & -> & Eb & Eo). split; [by eapply inv_end|done].
  - destruct (objects m !! p) as [d|] eqn:Hd; [|done]. intros Hp%bool_decide_eq_true.
    rewrite (call_spec m p d) by done. split; [by apply inv_destroy|done].
Qed.

Lemma storage_inv m : reachable next_ok init m -> well_formed m.
Proof.
  apply invariant_reachable; [|apply storage_init]. unfold next_ok. intros l s s' Hi Hs.
  destruct (allowed l s) eqn:E; simplify_eq. by apply perform_inv.
Qed.

(** ** Theorems *)


(** The stack of a coroutine is inside of its block and behind its [Data], has
    the size that was asked for, and no byte of it belongs to the block of
    another coroutine. *)
Theorem stacks_apart m p d sc b :
  reachable next_ok init m -> objects m !! p = Some d -> mPull d = Some sc -> on_stack sc b ->
  size sc = mStackSize d /\ p + sizeof_Data <= b < p + sizeof_Data + mStackSize d /\
  forall q d', objects m !! q = Some d' -> q <> p -> ~ (q <= b < q + sizeof_Data + mStackSize d').
Proof.
  intros Hi%storage_inv Hd Hp Hb. pose proof law_sizeof as Hs.
  destruct (inv_object m Hi p d Hd) as (H0 & H1 & Hbl & Hsc).
  rewrite (Hsc sc Hp) in *. unfold on_stack in Hb. simpl in *. split_and!; [done|lia|lia|].
  intros q d' Hd' Hne. destruct (inv_object m Hi q d' Hd') as (H0' & H1' & Hbl' & _).
  destruct (inv_apart m Hi p q _ _ _ _ ltac:(congruence) Hbl Hbl') as [_ ?]. lia.
Qed.

(** A coroutine that is created, ends and is destroyed leaves the memory as it was. *)
Theorem create_destroy m c n a p m' :
  well_formed m -> 0 <= n -> sizeof_Data + n < 2 ^ 64 ->
  Destructor.create c n a m = (Ret p, m') ->
  (do! end_body p in Destructor.call p) m' = (Ret tt, m).
Proof.
  intros Hi H0 Hn. rewrite create_spec by done.
  destruct (do_allocate _ _ _) as [e|q] eqn:E; [done|]. intros [= -> <-].
  assert (Hb : blocks m !! p = None).
  { destruct (blocks m !! p) as [[r k]|] eqn:Hb; [|done]. apply law_allocate in E as (_ & _ & E). by destruct (E p r k Hb). }
  assert (Ho : objects m !! p = None).
  { destruct (objects m !! p) as [d|] eqn:Hd; [|done]. apply (inv_object m Hi) in Hd as (_ & _ & Hd & _). congruence. }
  pose proof (inv_create m c n a p Hi H0 Hn E) as Hi'. set (m1 := Mem _ _) in *.
  destruct (end_body_spec m1 p _ Hi' ltac:(apply lookup_insert_eq)) as (m2 & E2 & Eb & Eo).
  unfold bind. rewrite E2. rewrite (call_spec m2 p (with_pull None (MkData c n a (Some (Stack (p + sizeof_Data + n - 1) n))))).
  - rewrite Eb, Eo. unfold m1. simpl. rewrite insert_insert_eq, !delete_insert_id by done. by destruct m.
  - eapply (inv_end m1); [done|apply lookup_insert_eq|done|done].
  - rewrite Eo. apply lookup_insert_eq.
  - done.
Qed.
End invariant.

(** The sizes are added as [size_t]: with the largest stack sizes the sum wraps,
    the block is smaller than [Data], and [Data] is constructed outside of it. *)
Theorem huge_stack_out_of_bounds {P : Platform} {R : MemoryResource P} m c k a p :
  0 <= k < sizeof_Data -> do_allocate a k (blocks m) = inr p ->
  fst (Destructor.create c (2 ^ 64 - sizeof_Data + k) a m) = Crash OutOfBounds.
Proof.
  intros Hk E. unfold Destructor.create, bind, allocate.
  replace (wrap64u _) with k.
  - rewrite E. unfold construct, bind, write. simpl. rewrite lookup_insert_eq.
    rewrite (proj2 (Z.leb_gt _ _)) by lia. done.
  - unfold wrap64u. replace (sizeof_Data + _) with (k + 1 * 2 ^ 64) by lia.
    pose proof law_sizeof. rewrite Z.mod_add by lia. rewrite Z.mod_small; lia.
Qed.

(** A coroutine runs in the io_context it was made with, the default one at that
    time if none was given, whatever becomes the default afterwards; outside of
    coroutines the current context is the default one. *)
Theorem context_of_routine {P : Platform} {R : MemoryResource P} {G} (g g' : globals (G := G)) m n a r m' :
  0 <= n -> sizeof_Data + n < 2 ^ 64 -> make_default g n a m = (Ret r, m') ->
  fst (currentIoContext g' r m') = Ret (defaultIoContext g) /\
  fst (currentIoContext g' None m') = Ret (defaultIoContext g').
Proof.
  intros H0 Hn. unfold make_default, make, bind. rewrite create_spec by done.
  destruct (do_allocate _ _ _) as [e|p]; [done|]. intros [= <- <-]. split; [|done].
  simpl. unfold bind, read. simpl. by rewrite lookup_insert_eq.
Qed.

(** [operator bool] of a [Routine] dereferences its pointer: it tells whether the
    coroutine can be resumed, but an empty handle, one that was moved from or
    detached, must not be asked. *)
Theorem operator_bool_dereferences {P : Platform} m r :
  operator_bool r m =
  match r with
  | None => (Crash NullDeref, m)
  | Some p => match objects m !! p with
              | Some d => (Ret (bool_decide (mPull d <> None)), m)
              | None => (Crash UseAfterFree, m)
              end
  end.
Proof. destruct r as [p|]; [|done]. simpl. unfold bind, read. by destruct (objects m !! p). Qed.

(** ** A platform *)

(** A resource that allocates behind all blocks. *)
Definition top (bs : heap) : Z := map_fold (fun q (b : nat * Z) acc => Z.max acc (q + Z.max 1 (snd b))) 1 bs.

Lemma top_above bs : 1 <= top bs /\ forall q r k, bs !! q = Some (r, k) -> q + Z.max 1 k <= top bs.
Proof.
  unfold top. apply (map_fold_weak_ind (fun t bs => 1 <= t /\ forall q r k, bs !! q = Some (r, k) -> q + Z.max 1 k <= t)).
  - split; [lia|]. intros q r k. by rewrite lookup_empty.
  - intros q b bs' t Hq [H1 IH]. split; [lia|].
    intros q' r k [[<- ->]|[Hne Hb]]%lookup_insert_Some; simpl; [lia|]. specialize (IH q' r k Hb). lia.
Qed.

Definition arena : Platform := {|
  sizeof_Data := 256;
  do_allocate := fun _ n bs => if top bs + n <=? 2 ^ 64 then inr (top bs) else inl (user_exn 0);
|}.

#[export] Instance arena_laws : MemoryResource arena.
Proof.
  split; simpl; [lia|]. intros r n bs p Hp. destruct (Z.leb_spec (top bs + n) (2 ^ 64)); simplify_eq.
  destruct (top_above bs) as [H1 Ht]. split_and!; [lia|lia|]. intros q r' k Hq. specialize (Ht q r' k Hq).
  unfold apart. split; lia.
Qed.

(** Two coroutines; the first ends and is destroyed. *)
Definition two : list label :=
  [LCreate 0 DefaultStackSize 0; LCreate 0 1024 1; LEnd 1; LDestroy 1].


Lemma stacks_apart_witness :
  exists m d d', run (next_ok (H := arena)) (take 2 two) init = Some m /\
    objects m !! 1 = Some d /\ objects m !! (1 + 256 + DefaultStackSize) = Some d' /\
    forall b, 257 <= b < 257 + DefaultStackSize -> ~ (1 + 256 + DefaultStackSize <= b < 1 + 256 + DefaultStackSize + 256 + 1024).
Proof.
  do 3 eexists. split; [vm_compute; reflexivity|]. split; [vm_compute; reflexivity|].
  split; [vm_compute; reflexivity|]. intros b Hb.
  edestruct (stacks_apart (P := arena) (default init (run (next_ok (H := arena)) (take 2 two) init)) 1
    (MkData 0 DefaultStackSize 0 (Some (Stack 131328 DefaultStackSize))) (Stack 131328 DefaultStackSize) b) as (_ & _ & Hq);
    [exists (take 2 two); vm_compute; reflexivity|vm_compute; reflexivity|reflexivity| |].
  { unfold on_stack, DefaultStackSize in *. simpl. lia. }
  intros Hx. eapply (Hq (1 + 256 + DefaultStackSize)); [vm_compute; reflexivity|done|].
  unfold DefaultStackSize in *. simpl in *. lia.
Defined.

Lemma create_destroy_witness :
  exists m, Destructor.create (H := arena) 0 1024 0 init = (Ret 1, m) /\
    (do! end_body (H := arena) 1 in Destructor.call (H := arena) 1) m = (Ret tt, init).
Proof.
  eexists. split; [vm_compute; reflexivity|].
  apply (create_destroy (P := arena) init 0 1024 0); [apply storage_init|lia|done|vm_compute; reflexivity].
Defined.

Lemma huge_stack_out_of_bounds_witness :
  fst (Destructor.create (H := arena) 0 (2 ^ 64 - sizeof_Data (Platform := arena) + 0) 0 init) = Crash OutOfBounds.
Proof. apply (huge_stack_out_of_bounds (P := arena) init 0 0 0 1); [simpl; lia|vm_compute; reflexivity]. Defined.

Lemma context_of_routine_witness :
  exists m, make_default (H := arena) (Globals (G := nat) (Some S) 7%nat 2%nat) 1024 0 init = (Ret (Some 1), m) /\
    fst (currentIoContext (Globals (G := nat) None 7%nat 2%nat) (Some 1) m) = Ret 3%nat.
Proof.
  eexists. split; [vm_compute; reflexivity|].
  apply (context_of_routine (P := arena) (Globals (G := nat) (Some S) 7%nat 2%nat)
    (Globals None 7%nat 2%nat) init 1024 0 (Some 1)); [lia|done|vm_compute; reflexivity].
Defined.
